(* ===== verification/_CoqProject ===== *)
-Q . S2P
Prelude.v
GoSlice.v
GoHeap.v
Task.v
PrometheusExporter.v
TaskQueue.v
FIFOQueue.v
PriorityQueue.v
DelayManager.v
Scheduler.v
GlobalPool.v
Sequenced.v
PoolClient.v
SequencedPool.v
SingleThread.v
RunnerSpec.v
Parallel.v
ParallelSched.v
ParallelPool.v
ParallelSpec.v
Observability.v
Reporting.v
Repeating.v
TaskAndReply.v
RunnerAPI.v
EventBus.v
EventBusRunner.v
LockFree.v
JobStore.v
JobSerializer.v
SQLiteStore.v
SQLiteMemory.v
Retry.v
JobManager.v
JobPosts.v
JobDurability.v
JobLifecycle.v
JobSqlite.v
JobRunners.v
SQLiteModule.v
GenApiDoc.v
