(* ===== verification/Prelude.v ===== *)
(** * go-task-runner: verification development

    The program (module github.com/Swind/go-task-runner) runs tasks, Go
    closures with a priority, on goroutine pools through runners that give
    ordering guarantees, and keeps jobs (persistent tasks) in a store.  This
    library translates its Go sources into executable definitions and proves
    what the parts promise.  This first file holds the notions all others
    share: Go panics as a sum ([go]), machine integers with their wrap-around,
    transition systems ([run], [reachable], forward simulation), weighted sums
    over lists of goroutines, logs of starts and ends, and the tactics.

    ** How the program is modelled

    A sequential piece of code is a function on its state.  Concurrent code is
    a step function on a state that holds one program counter per goroutine:
    one step is one access to shared state (an atomic operation, a critical
    section, a channel operation), a label says who moves and resolves what
    the code leaves open (a [select], a panic, the outcome of a call), and an
    interleaving is a list of labels.  Invariants are proved by induction on
    reachability.  Ghost fields (histories of pushes, starts and ends) are read
    by theorems only.  Slices are windows on shared arrays, clocks are part of
    the state, time passes by labels.  Code outside the repository is a
    parameter with its documented laws: the growth policy of [append], the
    reflection of event types, encoding/json, the SQL database, the Prometheus
    client, the float-to-integer conversion out of range.

    ** Parts and files

    core/task.go                 Task.v (priorities, traits, identifiers)
    core/queue.go                GoSlice.v (slices over a store of arrays),
                                 GoHeap.v (container/heap), TaskQueue.v (the
                                 interface as a class with laws), FIFOQueue.v,
                                 PriorityQueue.v (its two implementations)
    core/delay_manager.go        DelayManager.v
    core/task_scheduler.go,      Scheduler.v (scheduler and pool),
    pool.go                      GlobalPool.v (the global pool singleton)
    core/sequenced_task_runner.go  Sequenced.v, SequencedPool.v (the runner and
                                 the pool of Scheduler.v as one system)
    core/single_thread_task_runner.go  SingleThread.v
    core/parallel_task_runner.go Parallel.v, ParallelSched.v (with its internal
                                 SingleThreadTaskRunner), ParallelPool.v (and on
                                 the pool), ParallelSpec.v (what its clients
                                 rely on: an abstract bag of tasks and the class
                                 of its refinements)
    a runner and its pool        PoolClient.v (any client of the pool whose jobs
                                 are its run loops, as a class with its laws)
    the three runners            Repeating.v (repeating tasks and handles),
                                 RunnerAPI.v (posting methods, names, metadata),
                                 Observability.v (the Stats methods)
    core/interfaces.go,          Reporting.v (handlers, their defaults, loggers)
    job/logger.go
    sequential runners           RunnerSpec.v (what clients rely on: an abstract
                                 runner and the class of its refinements)
    core/task_and_reply.go       TaskAndReply.v
    eventbus/eventbus.go         EventBus.v, EventBusRunner.v (on its runner)
    skills/templates/lock-free-state.go  LockFree.v (objects owned by a runner)
    job/job_store.go             JobStore.v (entities, the store interface as a
                                 class with laws, MemoryJobStore)
    job/sqlite_job_store.go,     SQLiteStore.v (generated queries, methods, the
    job/db                       laws of the database and of the store),
                                 SQLiteMemory.v (against MemoryJobStore, and a
                                 reference database)
    job/job_serializer.go        JobSerializer.v
    job/logger.go, retry loop    Retry.v (the retry policy is in job/logger.go)
    job/job_manager.go           JobManager.v (the machine), JobDurability.v and
                                 JobLifecycle.v (its theorems), JobSqlite.v
                                 (on SQLite), JobPosts.v (its posts and queues)
                                 and JobRunners.v (on the machines of its
                                 three runners)
    job/sqlite, job/sqlite/db    SQLiteModule.v (the same store as a module of
                                 its own)
    observability/prometheus     PrometheusExporter.v
    scripts/gen-api-doc.go       GenApiDoc.v

    A runner's queue and the scheduler's queue are any [TaskQueue]; the
    scheduler's theorems hold of both implementations, the sequenced runner's
    of any first-in-first-out one.  Sequenced.v and Parallel.v see the pool as
    a bag of posted run loops that are started in any order or turned away, and
    Parallel.v sees its internal SingleThreadTaskRunner as a queue of closures
    run one at a time.  Forward simulations discharge these views:
    PoolClient.v composes any client of the pool with Scheduler.v, and
    SequencedPool.v and ParallelPool.v are its instances; ParallelSched.v puts
    Parallel.v on the machine of SingleThread.v.  RunnerSpec.v states what a
    client of a sequential runner relies on and proves it of both of them;
    EventBusRunner.v puts the bus of EventBus.v, whose closures are atomic, on
    any of them that rejects nothing, and LockFree.v any object whose fields are
    touched by closures only.  JobManager.v has queues of its own for its three
    runners; JobRunners.v replaces them by the machines of two sequential
    runners and of a ConcurrentRunner (ParallelSpec.v), with delayed jobs
    waiting in the pool's timers, and proves that the composition refines
    JobManager.v.
    JobDurability.v is proved against the class of durable stores;
    MemoryJobStore and the two SQLiteJobStores are its instances.

    ** What the theorems show

    - Queues: both implementations answer every sequence of interface calls as
      a list specification does (FIFO_refines, PQ_refines).
    - Scheduler and pool: tasks are neither lost nor duplicated, no wakeup is
      lost, the counters are exact at 32-bit width, a graceful stop that
      returns nil has run everything (sched_...); at most one global pool lives
      and its shutdown can deadlock (global_...).
    - Delayed tasks: never early, never overslept (posted_not_early,
      sleep_covers_head).
    - Runners: order, mutual exclusion or the concurrency bound, barriers, no
      forgotten task, shutdown (seq_..., st_..., par_...), also on the machines
      of the pool and of the internal runner (seqpool_..., parpool_...), and the
      contract of a sequential runner (runners_refine_spec);
      repeating tasks never overlap although a copy of the closure posts the next
      one before it returns, keep a fixed delay, go on and stop (rep_...); a reply runs after its task, sees its result and is posted
      exactly when the task returned (tr_...).
    - State owned by a runner is linearizable in the order of its posts, and the
      counter without a mutex does what the one with a mutex does
      (lockfree_linearizable, counters_agree).
    - EventBus: its two tables agree until a closure panics, on the machine of
      its runner (bus_on_runner), and its calls through reflection are well
      typed (bus_calls_well_typed).
    - Jobs: a nil submission means a stored and scheduled job, down to the row
      of the SQLite table (jm_durable_ack, jm_sqlite_durable), also on the machines
      of the runners (jm_on_runners), which bound the jobs it runs at once
      (jm_jobs_bounded); no identifier
      runs twice without a recovery (jm_runs_once, jm_single_execution); stored
      jobs are kept (jm_store_keeps) and a final status stays
      (jm_final_status_stays); SQLiteJobStore behaves as MemoryJobStore
      on a healthy database (sqlite_memory_equiv) and returns what was created
      (sqlite_roundtrip), and its two copies are interchangeable on every
      database (sqlite_modules_agree); the retry loop terminates, returns what it should and
      waits as its policy says (retry_...); arguments survive serialization
      (args_roundtrip).  The theorems on acknowledgements, executions and final
      statuses assume retry policies with 0 <= MaxRetries < 2^63-1: with a negative
      one nothing is stored and nil is returned (retry_negative_skips,
      jm_negative_retries_ack_unsaved), with the largest one the attempt counter
      wraps (retry_MaxInt64_never_gives_up).
    - The documentation generator does not panic and leaves nothing out but
      variables with a type of the package (gen_documents).
    - Errors: theorems and concrete runs exhibit the deadlocks, lost updates
      and overtaken barriers the code has.

    ** Fuel and bounds

    Recursion on fuel appears in the sift loops of the heap, in collecting the
    expired tasks and in draining a queue; the number of elements is the fuel,
    and the specification lemmas of these functions show that it is enough.
    Machines have no fuel: a schedule is a list of labels, and liveness is
    stated as termination of the internal steps together with enabledness.
    int32, int64 and uint64 values are integers with explicit wrapping.

    ** Not modelled

    What a log line of the JobManager says, the text of task identifiers and the
    uuid package behind them have no effect on state.  types.go, reply.go and
    core/thread_pool.go re-export names and declare interfaces.  NULL columns,
    time zones and the difference between a nil and an empty slice (of argument
    bytes, or of the jobs a store lists) are not distinguished.  A barrier's
    channel is closed in the step that starts the barrier: its closure does
    nothing else first.  JobRunners.v takes runners that reject nothing
    (a SingleThreadTaskRunner with QueuePolicyReject as control or I/O runner is
    left out) and an execution runner that runs jobs at once.  examples/ and the
    other files of skills/templates/ are main programs that print and sleep;
    their calls are those of the parts above. *)

From stdpp Require Export base option list gmap strings numbers fin_maps sorting.
From Stdlib Require Export Lia.

(** ** Scope, hint databases *)

Declare Scope go_scope.
Delimit Scope go_scope with go.

Create HintDb golist.
Create HintDb gostep.

(** ** Go panics: a computation returns a value or panics *)

Inductive go (A : Type) : Type :=
| Ret (a : A)
| Panic (msg : string).
Arguments Ret {A} a.
Arguments Panic {A} msg.

#[export] Instance go_ret : MRet go := @Ret.
#[export] Instance go_bind : MBind go := λ A B f m,
  match m with Ret a => f a | Panic e => Panic e end.
#[export] Instance go_fmap : FMap go := λ A B f m,
  match m with Ret a => Ret (f a) | Panic e => Panic e end.

(** ** Machine integers: values are kept in [Z] and wrapped at their width *)

Definition wrap_int32 (z : Z) : Z := ((z + 2 ^ 31) `mod` 2 ^ 32 - 2 ^ 31)%Z.
Definition wrap_int64 (z : Z) : Z := ((z + 2 ^ 63) `mod` 2 ^ 64 - 2 ^ 63)%Z.
Definition wrap_uint64 (z : Z) : Z := (z `mod` 2 ^ 64)%Z.
Definition MaxUint64 : Z := (2 ^ 64 - 1)%Z.

(** ** Strings *)

Definition newline : Ascii.ascii := Ascii.ascii_of_nat 10.
Definition nl : string := String newline "".

Lemma str_app_assoc s t u : (s +:+ t) +:+ u = s +:+ t +:+ u.
Proof. induction s as [|c s IH]; [done|]. exact (f_equal (String c) IH). Qed.
Lemma str_app_nil s : s +:+ "" = s.
Proof. induction s as [|c s IH]; [done|]. exact (f_equal (String c) IH). Qed.

(** ** Labelled transition systems with an executable step function *)

Section transition_system.
Context {St L : Type} (step : L → St → option St).

(** Executes a schedule: every label has to be enabled when it is reached. *)
Fixpoint run (ls : list L) (s : St) : option St :=
  match ls with
  | [] => Some s
  | l :: ls => s' ← step l s; run ls s'
  end.

(** The states some schedule leads to. *)
Inductive reachable (s0 : St) : St → Prop :=
| reach_refl : reachable s0 s0
| reach_step l s s' : reachable s0 s → step l s = Some s' → reachable s0 s'.

(** A schedule for concrete runs: the first of some labels that is possible, at
    most [n] times. *)
Fixpoint first_of (ls : list L) (s : St) : option L :=
  match ls with
  | [] => None
  | l :: ls => match step l s with Some _ => Some l | None => first_of ls s end
  end.
Fixpoint drive (n : nat) (ls : list L) (s : St) : list L :=
  match n with
  | 0 => []
  | S n =>
      match first_of ls s with
      | Some l => match step l s with Some s => l :: drive n ls s | None => [] end
      | None => []
      end
  end.
End transition_system.

(** ** Sums of weights over a list of threads *)

Definition total {A} (w : A → Z) (l : list A) : Z :=
  foldr (λ x acc, w x + acc)%Z 0%Z l.

(** ** Logs of executions: when a task starts and when it ends *)

Inductive Event (A : Type) := EStart (x : A) | EEnd (x : A).
Arguments EStart {A} x.
Arguments EEnd {A} x.
#[export] Instance Event_eq_dec `{EqDecision A} : EqDecision (Event A).
Proof. solve_decision. Defined.

(** The log of tasks that ran to their end one after the other. *)
Definition brackets {A} (l : list A) : list (Event A) := l ≫= λ x, [EStart x; EEnd x].

Definition b2z (b : bool) : Z := if b then 1 else 0.

(** ** Lemmas *)

Section transition_system_lemmas.
Context {St L : Type} (step : L → St → option St).

Lemma reachable_trans s0 s1 s2 :
  reachable step s0 s1 → reachable step s1 s2 → reachable step s0 s2.
Proof. intros H1 H2. induction H2; eauto using reachable. Qed.

Lemma run_reachable ls s0 s : run step ls s0 = Some s → reachable step s0 s.
Proof.
  revert s0; induction ls as [|l ls IH]; intros s0 H; simpl in H.
  - simplify_eq. constructor.
  - destruct (step l s0) as [s1|] eqn:E; [|done].
    eapply reachable_trans; [|by apply IH].
    eapply reach_step; [constructor|done].
Qed.

Lemma run_app ls1 ls2 s0 :
  run step (ls1 ++ ls2) s0 = (s1 ← run step ls1 s0; run step ls2 s1).
Proof.
  revert s0; induction ls1 as [|l ls1 IH]; intros s0; [done|].
  simpl. destruct (step l s0); simpl; auto.
Qed.

Lemma reachable_run s0 s : reachable step s0 s → ∃ ls, run step ls s0 = Some s.
Proof.
  induction 1 as [|l s s' _ [ls IH] E]; [by exists []|].
  exists (ls ++ [l]). rewrite run_app, IH. simpl. by rewrite E.
Qed.

(** Rule induction packaged: an initially true property that every step
    preserves holds of every reachable state. *)
Lemma reachable_invariant (I : St → Prop) s0 :
  I s0 → (∀ l s s', I s → step l s = Some s' → I s') →
  ∀ s, reachable step s0 s → I s.
Proof. intros H0 Hstep s. induction 1; eauto. Qed.

(** The same, when an already established invariant helps. *)
Lemma reachable_invariant_with (J I : St → Prop) s0 :
  (∀ s, reachable step s0 s → J s) →
  I s0 → (∀ l s s', J s → I s → step l s = Some s' → I s') →
  ∀ s, reachable step s0 s → I s.
Proof. intros HJ H0 Hstep s. induction 1; eauto. Qed.
End transition_system_lemmas.

(** A forward simulation (with stuttering) maps reachable states to reachable
    states of the abstract system. *)
Section simulation.
Context {St1 L1 St2 L2 : Type}.
Context (step1 : L1 → St1 → option St1) (step2 : L2 → St2 → option St2).
Context (R : St1 → St2 → Prop).

Definition simulates : Prop :=
  ∀ l s1 s1' s2, R s1 s2 → step1 l s1 = Some s1' →
    ∃ ls s2', run step2 ls s2 = Some s2' ∧ R s1' s2'.

Lemma simulation_reachable i1 i2 s1 :
  simulates → R i1 i2 → reachable step1 i1 s1 →
  ∃ s2, reachable step2 i2 s2 ∧ R s1 s2.
Proof.
  intros Hsim HR. induction 1 as [|l s s' _ (s2 & Hr & HR2) Hst].
  - exists i2. split; [constructor|done].
  - destruct (Hsim _ _ _ _ HR2 Hst) as (ls & s2' & Hrun & HR').
    exists s2'. split; [|done].
    eapply reachable_trans; [done|]. by eapply run_reachable.
Qed.
End simulation.

Section total_lemmas.
Context {A : Type}.
Implicit Types (w : A → Z) (l : list A).
Local Open Scope Z_scope.

Lemma total_nil w : total w [] = 0.
Proof. done. Qed.
Lemma total_cons w x l : total w (x :: l) = w x + total w l.
Proof. done. Qed.
Lemma total_app w l k : total w (l ++ k) = total w l + total w k.
Proof. induction l as [|x l IH]; simpl; [lia|]. rewrite IH. lia. Qed.
Lemma total_snoc w l x : total w (l ++ [x]) = total w l + w x.
Proof. rewrite total_app. simpl. lia. Qed.

(** One thread moves from [x] to [y]. *)
Lemma total_insert w l i x y :
  l !! i = Some x → total w (<[i:=y]> l) = total w l - w x + w y.
Proof.
  revert i; induction l as [|z l IH]; intros [|i] H; simplify_eq/=; [lia|].
  rewrite (IH _ H). lia.
Qed.

(** One thread leaves. *)
Lemma total_delete w l i x :
  l !! i = Some x → total w (delete i l) = total w l - w x.
Proof.
  revert i; induction l as [|z l IH]; intros [|i] H; simplify_eq/=; [lia|].
  rewrite (IH _ H). lia.
Qed.

Lemma total_nonneg w l : (∀ x, 0 <= w x) → 0 <= total w l.
Proof. intros H. induction l as [|x l IH]; simpl; [lia|]. specialize (H x). lia. Qed.

Lemma total_lookup_le w l i x :
  (∀ x, 0 <= w x) → l !! i = Some x → w x <= total w l.
Proof.
  intros H. revert i; induction l as [|z l IH]; intros [|i] Hi; simplify_eq/=.
  - pose proof (total_nonneg w l H). lia.
  - specialize (IH _ Hi). specialize (H z). lia.
Qed.

(** Two different threads contribute both. *)
Lemma total_lookup2_le w l i j x y :
  (∀ x, 0 <= w x) → i ≠ j → l !! i = Some x → l !! j = Some y →
  w x + w y <= total w l.
Proof.
  intros H. revert i j; induction l as [|z l IH]; intros [|i] [|j] Hne Hi Hj;
    simplify_eq/=; try done.
  - pose proof (total_lookup_le w l _ _ H Hj). lia.
  - pose proof (total_lookup_le w l _ _ H Hi). lia.
  - specialize (IH i j ltac:(lia) Hi Hj). specialize (H z). lia.
Qed.

Lemma total_ext w1 w2 l : (∀ x, w1 x = w2 x) → total w1 l = total w2 l.
Proof. intros H. induction l as [|x l IH]; simpl; [done|]. by rewrite H, IH. Qed.

Lemma total_add w1 w2 l : total (λ x, w1 x + w2 x) l = total w1 l + total w2 l.
Proof. induction l as [|x l IH]; simpl; [done|]. rewrite IH. lia. Qed.

Lemma total_le w1 w2 l : (∀ x, w1 x <= w2 x) → total w1 l <= total w2 l.
Proof. intros H. induction l as [|x l IH]; simpl; [lia|]. specialize (H x). lia. Qed.

Lemma total_zero_lookup w l i x :
  (∀ x, 0 <= w x) → total w l = 0 → l !! i = Some x → w x = 0.
Proof. intros H H0 Hi. pose proof (total_lookup_le w l i x H Hi). specialize (H x). lia. Qed.

(** Somebody contributes to a positive sum. *)
Lemma total_pos_lookup w l : 0 < total w l → ∃ i x, l !! i = Some x ∧ 0 < w x.
Proof.
  induction l as [|x l IH]; simpl; [lia|]. intros H.
  destruct (Z.lt_ge_cases 0 (w x)) as [Hx|Hx]; [by exists 0%nat, x|].
  destruct IH as (i & y & ? & ?); [lia|]. by exists (S i), y.
Qed.

Lemma total_const w c l : (∀ x, w x = c) → total w l = c * Z.of_nat (length l).
Proof. intros H. induction l as [|x l IH]; simpl; [lia|]. rewrite H, IH. lia. Qed.

Lemma total_scale w c l : total (λ x, c * w x) l = c * total w l.
Proof. induction l as [|x l IH]; simpl; lia. Qed.

Lemma total_replicate w n x : total w (replicate n x) = Z.of_nat n * w x.
Proof. induction n as [|n IH]; simpl; [lia|]. rewrite IH. lia. Qed.
End total_lemmas.

#[export] Hint Rewrite @total_nil @total_cons @total_app @total_snoc : golist.

Section wrap_lemmas.
Local Open Scope Z_scope.

Lemma wrap_int32_id z : - 2 ^ 31 <= z < 2 ^ 31 → wrap_int32 z = z.
Proof. intros H. unfold wrap_int32. rewrite Z.mod_small; lia. Qed.

Lemma wrap_int32_range z : - 2 ^ 31 <= wrap_int32 z < 2 ^ 31.
Proof.
  unfold wrap_int32. pose proof (Z.mod_pos_bound (z + 2 ^ 31) (2 ^ 32) ltac:(lia)). lia.
Qed.

Lemma wrap_int64_id z : - 2 ^ 63 <= z < 2 ^ 63 → wrap_int64 z = z.
Proof. intros H. unfold wrap_int64. rewrite Z.mod_small; lia. Qed.

Lemma wrap_uint64_id z : 0 <= z <= MaxUint64 → wrap_uint64 z = z.
Proof. unfold MaxUint64, wrap_uint64. intros H. rewrite Z.mod_small; lia. Qed.

Lemma wrap_uint64_range z : 0 <= wrap_uint64 z <= MaxUint64.
Proof.
  unfold MaxUint64, wrap_uint64. pose proof (Z.mod_pos_bound z (2 ^ 64) ltac:(lia)). lia.
Qed.
End wrap_lemmas.

Section list_lemmas.
Context {A : Type}.
Implicit Types l k : list A.

Lemma lookup_snoc_length l x : (l ++ [x]) !! length l = Some x.
Proof. rewrite lookup_app_r by lia. by rewrite Nat.sub_diag. Qed.

Lemma lookup_some_lt l i x : l !! i = Some x → i < length l.
Proof. apply lookup_lt_Some. Qed.

Lemma list_delete_perm l i x : l !! i = Some x → l ≡ₚ x :: delete i l.
Proof.
  intros H. rewrite <- (take_drop_middle _ _ _ H) at 1.
  rewrite delete_take_drop. by rewrite Permutation_middle.
Qed.

Lemma length_delete_S l i x : l !! i = Some x → length l = S (length (delete i l)).
Proof. intros H. by rewrite (list_delete_perm l i x H) at 1. Qed.

Lemma perm_delete l l' x : l ≡ₚ x :: l' → ∃ i : nat, l !! i = Some x ∧ delete i l ≡ₚ l'.
Proof.
  intros Hp. assert (x ∈ l) as [i Hi]%list_elem_of_lookup by (rewrite Hp; by left).
  exists i. split; [done|]. rewrite (list_delete_perm l i x Hi) in Hp.
  by apply Permutation_cons_inv in Hp.
Qed.

(** An element that occurs once splits a list in one way only. *)
Lemma nodup_split l1 l2 k1 k2 x :
  NoDup (l1 ++ x :: l2) → l1 ++ x :: l2 = k1 ++ x :: k2 → l1 = k1 ∧ l2 = k2.
Proof.
  revert k1; induction l1 as [|y l1 IH]; intros [|z k1] Hnd E; simpl in *; injection E.
  - by intros ->.
  - intros -> <-. apply NoDup_cons in Hnd as [Hx _]. destruct Hx. set_solver.
  - intros _ ->. apply NoDup_cons in Hnd as [Hx _]. destruct Hx. set_solver.
  - intros E' ->. apply NoDup_cons in Hnd as [_ Hnd]. by destruct (IH _ Hnd E') as [-> ->].
Qed.

Lemma prefix_split l1 l2 k1 k2 x :
  x ∉ l1 → l1 ++ l2 = k1 ++ x :: k2 → ∃ m, k1 = l1 ++ m.
Proof.
  revert k1; induction l1 as [|y l1 IH]; intros k1 Hx E; [by exists k1|].
  destruct k1 as [|z k1]; simpl in E; injection E.
  - intros _ ->. destruct Hx. left.
  - intros E' ->. destruct (IH k1) as [m ->]; [set_solver|done|]. by exists m.
Qed.

(** What changes at one index leaves the elements that were something else. *)
Lemma lookup_insert_other l i j x y z :
  l !! i = Some x → l !! j = Some y → x ≠ y → <[i:=z]> l !! j = Some y.
Proof. intros Hi Hj Hne. rewrite list_lookup_insert_ne; [done|]. intros ->. by rewrite Hi in Hj; injection Hj. Qed.

Lemma filter_keeps (P : A → Prop) `{!∀ x, Decision (P x)} l : Forall P l → filter P l = l.
Proof. induction 1; [done|]. rewrite filter_cons_True by done. by f_equal. Qed.

Lemma filter_drops (P : A → Prop) `{!∀ x, Decision (P x)} l :
  Forall (λ x, ¬ P x) l → filter P l = [].
Proof. induction 1; [done|]. by rewrite filter_cons_False. Qed.

Lemma delete_insert_same l i y : delete i (<[i:=y]> l) = delete i l.
Proof. revert i; induction l as [|z l IH]; intros [|i]; simpl; try done. f_equal. apply IH. Qed.

Lemma list_insert_perm l i x y :
  l !! i = Some x → <[i:=y]> l ≡ₚ y :: delete i l.
Proof.
  intros H. rewrite (list_delete_perm (<[i:=y]> l) i y).
  - by rewrite delete_insert_same.
  - apply list_lookup_insert_eq. by eapply lookup_lt_Some.
Qed.
End list_lemmas.

(** What the threads of a list contribute together, when one of them moves. *)
Section bind_lemmas.
Context {A B : Type} (f : A → list B).

Lemma bind_delete l i x : l !! i = Some x → l ≫= f ≡ₚ f x ++ (delete i l ≫= f).
Proof. intros H. by rewrite (list_delete_perm l i x H) at 1. Qed.

Lemma bind_insert l i x y :
  l !! i = Some x →
  ∃ rest, l ≫= f ≡ₚ f x ++ rest ∧ <[i:=y]> l ≫= f ≡ₚ f y ++ rest.
Proof.
  intros H. exists (delete i l ≫= f). split; [by apply bind_delete|].
  by rewrite (list_insert_perm l i x y H).
Qed.

Lemma bind_insert_same l i x y :
  l !! i = Some x → f x = f y → <[i:=y]> l ≫= f = l ≫= f.
Proof.
  intros H E. revert i H; induction l as [|z l IH]; intros [|i] H; simplify_eq/=;
    rewrite ?bind_cons; [by rewrite E|by rewrite (IH i H)].
Qed.
End bind_lemmas.

Lemma fmap_insert_same {A B} (f : A → B) (l : list A) i x y :
  l !! i = Some x → f x = f y → f <$> <[i:=y]> l = f <$> l.
Proof.
  intros Hi E. rewrite list_fmap_insert, <- E. apply list_insert_id. by rewrite list_lookup_fmap, Hi.
Qed.

Section bracket_lemmas.
Context {A : Type}.

Lemma brackets_app (l k : list A) : brackets (l ++ k) = brackets l ++ brackets k.
Proof. unfold brackets. by rewrite bind_app. Qed.

Lemma elem_of_brackets x (l k : list A) : EEnd x ∈ brackets l ++ (EStart <$> k) ↔ x ∈ l.
Proof.
  rewrite elem_of_app. unfold brackets. rewrite list_elem_of_bind, list_elem_of_fmap.
  split.
  - intros [(y & Hy & Hin)|(y & ? & _)]; [|done]. set_solver.
  - intros Hx. left. exists x. set_solver.
Qed.

Lemma elem_of_brackets_start x (l k : list A) : EStart x ∈ brackets l ++ (EStart <$> k) ↔ x ∈ l ++ k.
Proof.
  rewrite !elem_of_app. unfold brackets. rewrite list_elem_of_bind, list_elem_of_fmap.
  split.
  - intros [(y & Hy & Hin)|(y & ? & ?)]; [left|right]; set_solver.
  - intros [Hx|Hx]; [left; exists x|right; exists x]; set_solver.
Qed.

(** One at a time: what comes before a task that started has ended. *)
Lemma started_before (fin cur l : list A) b x :
  length cur ≤ 1 → (∃ k, fin ++ cur = l ++ b :: k) → x ∈ l → x ∈ fin.
Proof.
  intros Hc (k & E) Hx. apply list_elem_of_lookup in Hx as [i Hi].
  pose proof (lookup_lt_Some _ _ _ Hi) as Hlt. pose proof (f_equal length E) as Hlen.
  rewrite !length_app in Hlen. simpl in Hlen. apply list_elem_of_lookup. exists i.
  rewrite <- (lookup_app_l fin cur) by lia. rewrite E. by rewrite lookup_app_l.
Qed.
End bracket_lemmas.

(** ** Tactics *)

(** Case analysis of a step or an operation that succeeded: splits every
    [match] of hypothesis [H : step l s = Some s'] and cleans up. *)
Ltac inv_step H :=
  repeat (first
    [ progress simplify_eq/=
    | match type of H with
      | context [match ?x with _ => _ end] => destruct x eqn:?
      end ]).

(** The same through the option monad. *)
Ltac inv_act H :=
  repeat (first
    [ progress inv_step H
    | match type of H with
      | (?x ≫= _) = Some _ =>
          let E := fresh "Ebind" in
          destruct x eqn:E; cbn [mbind option_bind] in H; [|discriminate H]
      end ]).

(** Rewrites the weights of a moved thread wherever its old state is known. *)
Ltac rw_total :=
  repeat match goal with
  | H : ?l !! ?i = Some ?x |- context [total ?w (<[?i:=?y]> ?l)] =>
      rewrite (total_insert w l i x y H)
  | H : ?l !! ?i = Some ?x |- context [total ?w (delete ?i ?l)] =>
      rewrite (total_delete w l i x H)
  | |- context [total ?w (?l ++ [?x])] => rewrite (total_snoc w l x)
  end.

(** Permutations between concatenations of the same parts: both sides are
    flattened, then the parts of the left are looked up on the right. *)
Lemma perm_head_app {A} (a l r r' : list A) : r ≡ₚ a ++ r' → l ≡ₚ r' → a ++ l ≡ₚ r.
Proof. intros -> ->. done. Qed.
Lemma perm_skip_part {A} (a b l r : list A) : l ≡ₚ a ++ r → b ++ l ≡ₚ a ++ (b ++ r).
Proof. intros ->. by rewrite !app_assoc, (Permutation_app_comm a b). Qed.
Lemma perm_pad {A} (l r : list A) : l ++ [] ≡ₚ r ++ [] → l ≡ₚ r.
Proof. by rewrite !app_nil_r. Qed.

Ltac perm_norm :=
  repeat match goal with
  | |- context [?x :: ?l] =>
      lazymatch l with
      | [] => fail
      | _ => change (x :: l) with ([x] ++ l)
      end
  end.
Ltac perm_find := first [ reflexivity | apply perm_skip_part; perm_find ].
Ltac perm_solve :=
  simpl; apply perm_pad; perm_norm; rewrite <- ?app_assoc; rewrite ?app_nil_l;
  repeat (eapply perm_head_app; [perm_find|]); reflexivity.

Example perm_solve_test {A} (x y : A) (l k : list A) : x :: l ++ y :: k ≡ₚ k ++ [y] ++ l ++ [x].
Proof. perm_solve. Qed.
