(* ===== verification/GoSlice.v ===== *)
(** * Go slices over a store of backing arrays

    The part of the Go language the FIFO queue relies on: a slice is a window
    (offset, length, capacity) on a backing array, two slices may share one
    array, [append] writes in place while the capacity lasts and moves to a
    fresh array otherwise.  Arrays live in a store indexed by allocation
    number; nothing is ever freed, so the number of an array identifies it. *)

From S2P Require Import Prelude.

(** Zero values of Go types. *)
Class GoZero (A : Type) := go_zero : A.
#[export] Instance option_zero {A} : GoZero (option A) := None.
#[export] Instance Z_zero : GoZero Z := 0%Z.
#[export] Instance N_zero : GoZero N := 0%N.
#[export] Instance nat_zero : GoZero nat := 0.
#[export] Instance string_zero : GoZero string := "".

Record slice := Slice { sl_arr : nat; sl_off : nat; sl_len : nat; sl_cap : nat }.

Notation store A := (list (list A)).

Section slices.
Context {A : Type} `{GoZero A}.

Implicit Types (st : store A) (s : slice).

Definition arr_of st s : list A := default [] (st !! sl_arr s).

(** The elements [s[0..len)]. *)
Definition view st s : list A := take (sl_len s) (drop (sl_off s) (arr_of st s)).

(** [make([]A, n, c)] for [n <= c]. *)
Definition make_slice (n c : nat) st : store A * slice :=
  (st ++ [replicate c go_zero], Slice (length st) 0 n c).

(** [s[i]] *)
Definition slice_get st s (i : nat) : go A :=
  match view st s !! i with
  | Some x => Ret x
  | None => Panic "index out of range"
  end.

(** [s[i] = x] *)
Definition slice_set st s (i : nat) (x : A) : go (store A) :=
  if decide (i < sl_len s)
  then Ret (<[sl_arr s := <[sl_off s + i := x]> (arr_of st s)]> st)
  else Panic "index out of range".

(** [s[lo:hi]]; the new capacity extends to the end of the old one. *)
Definition reslice s (lo hi : nat) : go slice :=
  if decide (lo ≤ hi ∧ hi ≤ sl_cap s)
  then Ret (Slice (sl_arr s) (sl_off s + lo) (hi - lo) (sl_cap s - lo))
  else Panic "slice bounds out of range".

(** [append(s, x)].  [growslice old need] is the capacity the runtime picks
    when [need] exceeds [old]; the language only promises it suffices. *)
Definition append1 (growslice : nat → nat → nat) st s (x : A) : store A * slice :=
  if decide (sl_len s < sl_cap s) then
    (<[sl_arr s := <[sl_off s + sl_len s := x]> (arr_of st s)]> st,
     Slice (sl_arr s) (sl_off s) (S (sl_len s)) (sl_cap s))
  else
    let c := growslice (sl_cap s) (S (sl_len s)) in
    (st ++ [view st s ++ [x] ++ replicate (c - S (sl_len s)) go_zero],
     Slice (length st) 0 (S (sl_len s)) c).

(** [for i := range n { s[i] = zero }] *)
Fixpoint zero_prefix st s (n : nat) : go (store A) :=
  match n with
  | 0 => Ret st
  | S n => st ← zero_prefix st s n; slice_set st s n go_zero
  end.

(** [copy(dst, src)]: element-wise, [min(len(dst), len(src))] of them. *)
Definition copy_slice st (dst src : slice) : store A :=
  let n := sl_len dst `min` sl_len src in
  let d := arr_of st dst in
  <[sl_arr dst := take (sl_off dst) d ++ take n (view st src)
                  ++ drop (sl_off dst + n) d]> st.

(** A slice header fits its array. *)
Definition wf_slice st s : Prop :=
  ∃ a, st !! sl_arr s = Some a ∧ sl_off s + sl_cap s ≤ length a ∧ sl_len s ≤ sl_cap s.

(** Every cell of the backing array outside the window holds the zero value:
    the array retains no reference the slice does not show. *)
Definition clean st s : Prop :=
  ∀ i x, arr_of st s !! i = Some x →
    ¬ (sl_off s ≤ i < sl_off s + sl_len s) → x = go_zero.
End slices.

(** The runtime's growth policy, as far as the language specification goes. *)
Definition grow_ok (growslice : nat → nat → nat) : Prop :=
  ∀ old need, need ≤ growslice old need.

(** A concrete policy (doubling), used to evaluate the definitions. *)
Definition grow_double (old need : nat) : nat := (2 * old) `max` need.

(** ** Lemmas *)

Lemma grow_double_ok : grow_ok grow_double.
Proof. intros old need. unfold grow_double. lia. Qed.

Section slice_lemmas.
Context {A : Type} `{GoZero A}.
Implicit Types (st : store A) (s : slice).

Lemma arr_of_wf st s a : st !! sl_arr s = Some a → arr_of st s = a.
Proof. intros E. unfold arr_of. by rewrite E. Qed.

Lemma view_length st s : wf_slice st s → length (view st s) = sl_len s.
Proof.
  intros (a & Ha & Hc & Hl). unfold view.
  rewrite (arr_of_wf _ _ _ Ha), length_take, length_drop. lia.
Qed.

Lemma view_lookup st s i :
  i < sl_len s → view st s !! i = arr_of st s !! (sl_off s + i).
Proof.
  intros Hi. unfold view. rewrite lookup_take.
  destruct (decide (i < sl_len s)) as [_|]; [|lia]. by rewrite lookup_drop.
Qed.

Lemma view_ext st1 s1 st2 s2 :
  sl_len s1 = sl_len s2 →
  (∀ i, i < sl_len s1 → arr_of st1 s1 !! (sl_off s1 + i) = arr_of st2 s2 !! (sl_off s2 + i)) →
  view st1 s1 = view st2 s2.
Proof.
  intros Hl Hv. apply list_eq. intros i.
  destruct (decide (i < sl_len s1)) as [Hi|Hi].
  - rewrite !view_lookup by lia. by apply Hv.
  - unfold view. rewrite !lookup_take.
    destruct (decide (i < sl_len s1)); [lia|].
    by destruct (decide (i < sl_len s2)); [lia|].
Qed.

Lemma make_slice_spec n c st st' s :
  n ≤ c → make_slice n c st = (st', s) →
  wf_slice st' s ∧ clean st' s ∧ view st' s = replicate n go_zero.
Proof.
  intros Hn E. injection E as <- <-.
  assert (Ha : (st ++ [replicate c go_zero]) !! length st = Some (replicate c go_zero))
    by apply lookup_snoc_length.
  split; [|split].
  - exists (replicate c go_zero). simpl. rewrite length_replicate. split; [done|lia].
  - intros i x Hx _. unfold arr_of in Hx; simpl in Hx. rewrite Ha in Hx. simpl in Hx.
    by apply lookup_replicate in Hx as [-> _].
  - unfold view, arr_of; simpl. rewrite Ha. simpl. rewrite drop_0, take_replicate.
    f_equal. lia.
Qed.

Lemma slice_get_spec st s i x :
  view st s !! i = Some x → slice_get st s i = Ret x.
Proof. intros E. unfold slice_get. by rewrite E. Qed.

(** Writing a cell keeps the header valid and changes just that element. *)
Lemma slice_set_spec st s i x :
  wf_slice st s → i < sl_len s →
  ∃ st', slice_set st s i x = Ret st' ∧ wf_slice st' s ∧
         length st' = length st ∧
         arr_of st' s = <[sl_off s + i := x]> (arr_of st s).
Proof.
  intros (a & Ha & Hc & Hl) Hi. unfold slice_set.
  destruct (decide _) as [_|]; [|lia].
  eexists; split; [done|].
  assert (Hx : (<[sl_arr s:=<[sl_off s + i:=x]> (arr_of st s)]> st) !! sl_arr s
               = Some (<[sl_off s + i:=x]> (arr_of st s))).
  { apply list_lookup_insert_eq. by eapply lookup_lt_Some. }
  split; [|split].
  - exists (<[sl_off s + i:=x]> (arr_of st s)). split; [done|].
    rewrite length_insert, (arr_of_wf _ _ _ Ha). lia.
  - by rewrite length_insert.
  - by apply arr_of_wf.
Qed.

Lemma view_set st st' s i x :
  wf_slice st s → i < sl_len s →
  arr_of st' s = <[sl_off s + i := x]> (arr_of st s) →
  view st' s = <[i := x]> (view st s).
Proof.
  intros Hwf Hi E. apply list_eq. intros j.
  destruct (decide (j < sl_len s)) as [Hj|Hj].
  - rewrite view_lookup, E by done.
    destruct (decide (j = i)) as [->|Hne].
    + rewrite !list_lookup_insert_eq; [done| |].
      * by rewrite view_length.
      * destruct Hwf as (a & Ha & Hc & Hl). rewrite (arr_of_wf _ _ _ Ha). lia.
    + rewrite !list_lookup_insert_ne by lia. by rewrite view_lookup.
  - rewrite list_lookup_insert_ne by lia.
    unfold view. rewrite !lookup_take. by destruct (decide (j < sl_len s)); [lia|].
Qed.

Lemma reslice_spec s lo hi :
  lo ≤ hi → hi ≤ sl_cap s →
  reslice s lo hi = Ret (Slice (sl_arr s) (sl_off s + lo) (hi - lo) (sl_cap s - lo)).
Proof. intros. unfold reslice. by destruct (decide _) as [|[]]. Qed.

(** [s[lo:]] *)
Lemma reslice_tail_view st s lo :
  wf_slice st s → lo ≤ sl_len s →
  let s' := Slice (sl_arr s) (sl_off s + lo) (sl_len s - lo) (sl_cap s - lo) in
  wf_slice st s' ∧ view st s' = drop lo (view st s).
Proof.
  intros (a & Ha & Hc & Hl) Hlo. simpl. split.
  - exists a. simpl. split; [done|lia].
  - unfold view, arr_of; simpl. rewrite Ha. simpl.
    rewrite skipn_firstn_comm, drop_drop. done.
Qed.

(** [append] extends the window by one element, whichever branch is taken. *)
Lemma append1_spec grow st s x st' s' :
  grow_ok grow → wf_slice st s → append1 grow st s x = (st', s') →
  wf_slice st' s' ∧ view st' s' = view st s ++ [x] ∧ sl_len s' = S (sl_len s).
Proof.
  intros Hg Hwf E. pose proof Hwf as (a & Ha & Hc & Hl).
  unfold append1 in E. destruct (decide _) as [Hlt|Hge]; injection E as <- <-.
  - assert (Hx : (<[sl_arr s:=<[sl_off s + sl_len s:=x]> (arr_of st s)]> st) !! sl_arr s
                 = Some (<[sl_off s + sl_len s:=x]> (arr_of st s))).
    { apply list_lookup_insert_eq. by eapply lookup_lt_Some. }
    split; [|split; [|done]].
    + eexists; simpl; split; [apply Hx|]. rewrite length_insert, (arr_of_wf _ _ _ Ha). lia.
    + unfold view at 1. rewrite (arr_of_wf _ (Slice _ _ _ _) _ Hx). simpl.
      rewrite drop_insert_ge by lia. replace (sl_off s + sl_len s - sl_off s) with (sl_len s) by lia.
      unfold view. rewrite (arr_of_wf _ _ _ Ha).
      rewrite (take_S_r _ _ x).
      * by rewrite take_insert_ge by lia.
      * apply list_lookup_insert_eq. rewrite length_drop. lia.
  - specialize (Hg (sl_cap s) (S (sl_len s))).
    assert (Hlen := view_length _ _ Hwf).
    split; [|split; [|done]].
    + eexists; simpl; split; [apply lookup_snoc_length|].
      rewrite length_app, Hlen. simpl. rewrite length_replicate. lia.
    + unfold view at 1, arr_of; simpl. rewrite lookup_snoc_length. simpl.
      rewrite drop_0, cons_middle, app_assoc, take_app_length'; [done|].
      rewrite length_app, Hlen. simpl. lia.
Qed.

Lemma append1_clean grow st s x st' s' :
  grow_ok grow → wf_slice st s → clean st s → append1 grow st s x = (st', s') →
  clean st' s'.
Proof.
  intros Hg Hwf Hcl E i y Hy Hout. pose proof Hwf as (a & Ha & Hc & Hl).
  unfold append1 in E. destruct (decide _) as [Hlt|Hge]; injection E as <- <-; simpl in *.
  - unfold arr_of in Hy; simpl in Hy.
    rewrite list_lookup_insert_eq in Hy by (by eapply lookup_lt_Some). simpl in Hy.
    rewrite list_lookup_insert_ne in Hy by lia. apply (Hcl i y Hy). lia.
  - unfold arr_of in Hy; simpl in Hy. rewrite lookup_snoc_length in Hy. simpl in Hy.
    rewrite lookup_app_r in Hy by (rewrite (view_length _ _ Hwf); lia).
    rewrite (view_length _ _ Hwf) in Hy.
    destruct (i - sl_len s) eqn:Ei; [lia|]. simpl in Hy.
    by apply lookup_replicate in Hy as [-> _].
Qed.

(** The clearing loop of [PopUpTo]. *)
Lemma zero_prefix_spec st s n :
  wf_slice st s → n ≤ sl_len s →
  ∃ st', zero_prefix st s n = Ret st' ∧ wf_slice st' s ∧
         length st' = length st ∧
         length (arr_of st' s) = length (arr_of st s) ∧
         (∀ i, arr_of st' s !! i =
               if decide (sl_off s ≤ i < sl_off s + n) then Some go_zero
               else arr_of st s !! i) ∧
         (∀ k, k ≠ sl_arr s → st' !! k = st !! k).
Proof.
  intros Hwf. induction n as [|n IH]; intros Hn.
  - exists st. repeat split; try done. intros i. destruct (decide _); [lia|done].
  - destruct IH as (st1 & E1 & Hwf1 & Hl1 & Hla & Hv1 & Ho1); [lia|].
    destruct (slice_set_spec st1 s n go_zero Hwf1) as (st2 & E2 & Hwf2 & Hl2 & Hv2); [lia|].
    exists st2. simpl. rewrite E1. simpl. split; [done|]. split; [done|].
    split; [lia|]. split; [by rewrite Hv2, length_insert|]. split.
    + intros i. rewrite Hv2. destruct (decide (i = sl_off s + n)) as [->|Hne].
      * rewrite list_lookup_insert_eq.
        { destruct (decide _); [done|lia]. }
        destruct Hwf1 as (a & Ha & Hc & Hle). rewrite (arr_of_wf _ _ _ Ha). lia.
      * rewrite list_lookup_insert_ne, Hv1 by lia.
        destruct (decide _), (decide _); try lia; done.
    + intros k Hk. unfold slice_set in E2. destruct (decide _); [|done].
      injection E2 as <-. rewrite list_lookup_insert_ne by done. by apply Ho1.
Qed.

(** [copy] between two different arrays. *)
Lemma copy_slice_spec st dst src :
  wf_slice st dst → wf_slice st src → sl_arr dst ≠ sl_arr src →
  let st' := copy_slice st dst src in
  length st' = length st ∧ wf_slice st' dst ∧ wf_slice st' src ∧
  arr_of st' src = arr_of st src ∧
  view st' dst = take (sl_len dst) (take (sl_len src) (view st src))
                 ++ drop (sl_len src) (view st dst).
Proof.
  intros Hd Hs Hne. pose proof Hd as (a & Ha & Hca & Hla).
  pose proof Hs as (b & Hb & Hcb & Hlb).
  pose proof (view_length _ _ Hs) as Hvs.
  unfold copy_slice. simpl.
  set (n := sl_len dst `min` sl_len src).
  set (d' := take (sl_off dst) (arr_of st dst) ++ take n (view st src)
             ++ drop (sl_off dst + n) (arr_of st dst)).
  assert (Hd' : length d' = length a).
  { unfold d'. rewrite !length_app, !length_take, length_drop, Hvs, (arr_of_wf _ _ _ Ha). lia. }
  assert (Hx : (<[sl_arr dst := d']> st) !! sl_arr dst = Some d').
  { apply list_lookup_insert_eq. by eapply lookup_lt_Some. }
  assert (Hy : (<[sl_arr dst := d']> st) !! sl_arr src = Some b)
    by (by rewrite list_lookup_insert_ne).
  split; [by rewrite length_insert|].
  split; [exists d'; split; [done|]; rewrite Hd'; lia|].
  split; [by exists b|].
  split; [by rewrite (arr_of_wf _ _ _ Hy), (arr_of_wf _ _ _ Hb)|].
  unfold view at 1. rewrite (arr_of_wf _ _ _ Hx). unfold d'.
  assert (Hof : length (take (sl_off dst) (arr_of st dst)) = sl_off dst).
  { rewrite length_take, (arr_of_wf _ _ _ Ha). lia. }
  rewrite drop_app_length' by done.
  assert (Hn : length (take n (view st src)) = n) by (rewrite length_take, Hvs; lia).
  rewrite take_app, Hn, (take_ge (take n _)) by (rewrite Hn; lia). f_equal.
  - rewrite take_take. f_equal; lia.
  - unfold view. rewrite skipn_firstn_comm, drop_drop. 
    destruct (decide (sl_len src ≤ sl_len dst)).
    + repeat f_equal; lia.
    + replace (sl_len dst - n) with 0 by lia.
      replace (sl_len dst - sl_len src) with 0 by lia. done.
Qed.

(** Allocation leaves existing slices alone. *)
Lemma wf_slice_alloc st s x : wf_slice st s → wf_slice (st ++ [x]) s.
Proof.
  intros (a & Ha & ?). exists a. split; [|done].
  rewrite lookup_app_l; [done|by eapply lookup_lt_Some].
Qed.

Lemma arr_of_alloc st s x : wf_slice st s → arr_of (st ++ [x]) s = arr_of st s.
Proof.
  intros (a & Ha & ?). unfold arr_of.
  rewrite lookup_app_l; [done|by eapply lookup_lt_Some].
Qed.

Lemma view_same_arr st st' s : arr_of st' s = arr_of st s → view st' s = view st s.
Proof. intros E. unfold view. by rewrite E. Qed.

Lemma wf_slice_bound st s : wf_slice st s → sl_arr s < length st.
Proof. intros (a & Ha & ?). by eapply lookup_lt_Some. Qed.
End slice_lemmas.
