(* ===== verification/GoHeap.v ===== *)
(** * Go's container/heap over slices whose elements record their position

    [priorityHeap] (core/queue.go) and [DelayedTaskHeap] (core/delay_manager.go)
    hand their [Len/Less/Swap/Push/Pop] methods to the standard library's
    binary heap.  Both keep an [index] field up to date in [Swap], [Push] and
    [Pop]; they only differ in the payload and in [Less], which is the
    parameter [less] on payloads. *)

From S2P Require Import Prelude.

(** A heap element: the payload fields of the Go struct and its [index]. *)
Record indexed (B : Type) := MkIndexed { index : Z; payload : B }.
Arguments MkIndexed {B}. Arguments index {B}. Arguments payload {B}.

Section heap.
Context {B : Type} (less : B → B → bool).
Implicit Types h : list (indexed B).

Definition parent (j : nat) : nat := (j - 1) `div` 2.

(** [h.Less(i, j)] *)
Definition less_at h (i j : nat) : bool :=
  match h !! i, h !! j with
  | Some x, Some y => less (payload x) (payload y)
  | _, _ => false
  end.

(** [h.Swap(i, j)]: exchange, then refresh both [index] fields. *)
Definition swap (i j : nat) h : list (indexed B) :=
  match h !! i, h !! j with
  | Some x, Some y =>
      <[j := MkIndexed (Z.of_nat j) (payload x)]>
        (<[i := MkIndexed (Z.of_nat i) (payload y)]> h)
  | _, _ => h
  end.

(** [heap.up(h, j)]; the position at least halves, [j] rounds suffice. *)
Fixpoint up (fuel j : nat) h : list (indexed B) :=
  match fuel with
  | 0 => h
  | S fuel =>
      let i := parent j in
      if bool_decide (i = j) || negb (less_at h j i) then h
      else up fuel i (swap i j h)
  end.

(** [heap.down(h, i, n)]; the position grows, [n - i] rounds suffice. *)
Fixpoint down (fuel i n : nat) h : list (indexed B) :=
  match fuel with
  | 0 => h
  | S fuel =>
      let j1 := 2 * i + 1 in
      if bool_decide (n ≤ j1) then h
      else
        let j2 := j1 + 1 in
        let j := if bool_decide (j2 < n) && less_at h j2 j1 then j2 else j1 in
        if negb (less_at h j i) then h
        else down fuel j n (swap i j h)
  end.

(** [heap.Init(h)]: [for i := n/2 - 1; i >= 0; i--]. *)
Fixpoint init_from (k n : nat) h : list (indexed B) :=
  match k with
  | 0 => h
  | S i => init_from i n (down n i n h)
  end.
Definition heap_Init h : list (indexed B) := init_from (length h `div` 2) (length h) h.

(** [heap.Push(h, x)]: the [Push] method appends and sets the index. *)
Definition heap_Push (x : B) h : list (indexed B) :=
  let n := length h in
  up n n (h ++ [MkIndexed (Z.of_nat n) x]).

(** [heap.Pop(h)] on a non-empty heap: the [Pop] method removes the last
    element and sets its index to -1. *)
Definition heap_Pop h : option (indexed B * list (indexed B)) :=
  let n := length h - 1 in
  let h := down n 0 n (swap 0 n h) in
  match h !! n with
  | Some x => Some (MkIndexed (-1) (payload x), take n h)
  | None => None
  end.

(** *** Specification *)

Definition le (x y : B) : Prop := less y x = false.

Definition vals h : list B := payload <$> h.
Definition val_at h (i : nat) : option B := payload <$> h !! i.
Definition ord h (a b : nat) : Prop :=
  ∀ x y, val_at h a = Some x → val_at h b = Some y → le x y.

(** Heap order on the first [n] elements. *)
Definition heap_upto h (n : nat) : Prop := ∀ k, 0 < k < n → ord h (parent k) k.
Definition heap_ok h : Prop := heap_upto h (length h).

(** Every element knows its position. *)
Definition idx_ok h : Prop := ∀ i x, h !! i = Some x → index x = Z.of_nat i.
End heap.

(** [Less] is a strict weak order. *)
Class LessLaws {B} (less : B → B → bool) := {
  less_asym x y : less x y = true → less y x = false;
  le_trans x y z : le less x y → le less y z → le less x z;
}.

(** ** Lemmas *)

Ltac name_child j :=
  match goal with
  | |- context [if ?b && ?c then ?x else ?y] => set (j := if b && c then x else y)
  end.

Section heap_lemmas.
Context {B : Type} (less : B → B → bool) `{!LessLaws less}.
Implicit Types h : list (indexed B).
Notation le := (le less).
Notation ord := (ord less).

Lemma le_refl x : le x x.
Proof.
  unfold GoHeap.le. destruct (less x x) eqn:E; [|done]. by rewrite (less_asym _ _ E) in E.
Qed.

Lemma le_total x y : le x y ∨ le y x.
Proof.
  unfold GoHeap.le. destruct (less y x) eqn:E; [right|by left]. by apply less_asym.
Qed.

Lemma parent_lt j : 0 < j → parent j < j.
Proof. intros. unfold parent. pose proof (Nat.div_le_upper_bound (j - 1) 2 (j - 1)). lia. Qed.

Lemma parent_eq j : parent j = j ↔ j = 0.
Proof.
  split; [|by intros ->]. intros E. destruct (decide (j = 0)); [done|].
  pose proof (parent_lt j). lia.
Qed.

Lemma parent_child k i : 0 < k → parent k = i ↔ k = 2 * i + 1 ∨ k = 2 * i + 2.
Proof.
  intros Hk. unfold parent.
  pose proof (Nat.div_mod_eq (k - 1) 2). pose proof (Nat.mod_upper_bound (k - 1) 2). lia.
Qed.

(** *** Swap *)

Lemma length_swap i j h : length (swap i j h) = length h.
Proof. unfold swap. destruct (h !! i), (h !! j); by rewrite ?length_insert. Qed.

Lemma val_at_Some h i : i < length h → ∃ x, val_at h i = Some x.
Proof. intros Hi. apply lookup_lt_is_Some in Hi as [x Hx]. unfold val_at. rewrite Hx. by eexists. Qed.

Lemma val_at_swap i j k h :
  i < length h → j < length h →
  val_at (swap i j h) k =
    if decide (k = j) then val_at h i else if decide (k = i) then val_at h j else val_at h k.
Proof.
  intros Hi Hj. apply lookup_lt_is_Some in Hi as [x Hx].
  pose proof Hj as Hj'. apply lookup_lt_is_Some in Hj as [y Hy].
  unfold val_at, swap. rewrite Hx, Hy. apply lookup_lt_Some in Hx as Hi'.
  destruct (decide (k = j)) as [->|].
  { rewrite list_lookup_insert_eq by (by rewrite length_insert). done. }
  rewrite list_lookup_insert_ne by done.
  destruct (decide (k = i)) as [->|].
  - by rewrite list_lookup_insert_eq.
  - by rewrite list_lookup_insert_ne.
Qed.

Lemma vals_swap_perm i j h : vals (swap i j h) ≡ₚ vals h.
Proof.
  unfold swap. destruct (h !! i) as [x|] eqn:Hx; [|done].
  destruct (h !! j) as [y|] eqn:Hy; [|done].
  unfold vals. rewrite !list_fmap_insert. simpl.
  apply Permutation_insert_swap; by rewrite list_lookup_fmap, ?Hx, ?Hy.
Qed.

Lemma idx_ok_swap i j h : idx_ok h → idx_ok (swap i j h).
Proof.
  intros Hok k z Hz. unfold swap in Hz.
  destruct (h !! i) as [x|] eqn:Hx; [|by apply Hok].
  destruct (h !! j) as [y|] eqn:Hy; [|by apply Hok].
  apply list_lookup_insert_Some in Hz as [(<- & <- & _)|[_ Hz]]; [done|].
  apply list_lookup_insert_Some in Hz as [(<- & <- & _)|[_ Hz]]; [done|].
  by apply Hok.
Qed.

Lemma less_at_true h i j : less_at less h i j = true → ord h i j.
Proof.
  unfold less_at, GoHeap.ord, val_at. intros E x y Hx Hy.
  destruct (h !! i), (h !! j); simplify_eq/=. by apply less_asym.
Qed.

Lemma less_at_false h i j : less_at less h i j = false → ord h j i.
Proof.
  unfold less_at, GoHeap.ord, val_at. intros E x y Hx Hy.
  by destruct (h !! i), (h !! j); simplify_eq/=.
Qed.

Lemma ord_trans h a b c : b < length h → ord h a b → ord h b c → ord h a c.
Proof.
  intros Hb H1 H2 x z Hx Hz. destruct (val_at_Some h b Hb) as [y Hy].
  apply le_trans with y; [by apply H1|by apply H2].
Qed.

(** [ord] between positions of a swapped heap, read in the old one. *)
Definition pos_swap (i j k : nat) : nat :=
  if decide (k = j) then i else if decide (k = i) then j else k.

Lemma ord_swap h i j a b :
  i < length h → j < length h →
  ord h (pos_swap i j a) (pos_swap i j b) → ord (swap i j h) a b.
Proof.
  intros Hi Hj Ho x y Hx Hy. apply Ho; unfold pos_swap.
  - rewrite val_at_swap in Hx by done.
    destruct (decide (a = j)), (decide (a = i)); simplify_eq; done.
  - rewrite val_at_swap in Hy by done.
    destruct (decide (b = j)), (decide (b = i)); simplify_eq; done.
Qed.

(** *** Sift up and down only permute, and keep the positions right *)

Lemma up_basic fuel j h :
  length (up less fuel j h) = length h ∧ vals (up less fuel j h) ≡ₚ vals h ∧
  (idx_ok h → idx_ok (up less fuel j h)).
Proof.
  revert j h; induction fuel as [|f IH]; intros j h; [done|]. cbn [up].
  destruct (_ || _); [done|]. destruct (IH (parent j) (swap (parent j) j h)) as (Hl & Hp & Hi).
  rewrite Hl, Hp, length_swap, vals_swap_perm. auto using idx_ok_swap.
Qed.

Lemma down_basic fuel i n h :
  length (down less fuel i n h) = length h ∧ vals (down less fuel i n h) ≡ₚ vals h ∧
  (idx_ok h → idx_ok (down less fuel i n h)).
Proof.
  revert i h; induction fuel as [|f IH]; intros i h; [done|]. cbn [down].
  destruct (bool_decide _); [done|]. name_child j.
  destruct (negb _); [done|]. destruct (IH j (swap i j h)) as (Hl & Hp & Hi).
  rewrite Hl, Hp, length_swap, vals_swap_perm. auto using idx_ok_swap.
Qed.

(** *** Sift up restores the order when only [j] may be out of place *)

Lemma up_ok fuel j h :
  j ≤ fuel → j < length h →
  (∀ k, 0 < k < length h → k ≠ j → ord h (parent k) k) →
  (∀ k, 0 < k < length h → parent k = j → 0 < j → ord h (parent j) k) →
  heap_ok less (up less fuel j h).
Proof.
  revert j h; induction fuel as [|f IH]; intros j h Hf Hj H1 H2.
  { intros k Hk. simpl in *. apply H1; [done|lia]. }
  cbn [up]. destruct (bool_decide (parent j = j)) eqn:Ej.
  { apply bool_decide_eq_true, parent_eq in Ej as ->. intros k Hk. apply H1; [done|lia]. }
  apply bool_decide_eq_false in Ej. rewrite parent_eq in Ej.
  pose proof (parent_lt j ltac:(lia)) as Hp. simpl.
  destruct (less_at less h j (parent j)) eqn:El; simpl.
  - apply less_at_true in El. apply IH; rewrite ?length_swap; try lia.
    + intros k Hk Hne. apply ord_swap; [lia|lia|]. unfold pos_swap.
      destruct (decide (k = j)) as [->|Hkj].
      { rewrite decide_False, decide_True by lia. done. }
      rewrite (decide_False (P:=k = parent j)) by done.
      destruct (decide (parent k = j)) as [E|_]; [by apply H2; [done| |lia]|].
      destruct (decide (parent k = parent j)) as [E|_]; [|by apply H1].
      apply ord_trans with (parent j); [lia|done|]. rewrite <- E. by apply H1.
    + intros k Hk E Hpos. apply ord_swap; [lia|lia|]. unfold pos_swap.
      pose proof (parent_lt (parent j) Hpos). pose proof (parent_lt k ltac:(lia)).
      rewrite (decide_False (P:=parent (parent j) = j)) by lia.
      rewrite (decide_False (P:=parent (parent j) = parent j)) by lia.
      destruct (decide (k = j)) as [->|Hkj]; [apply H1; lia|].
      rewrite decide_False by lia.
      apply ord_trans with (parent j); [lia|apply H1; lia|]. rewrite <- E. apply H1; lia.
  - apply less_at_false in El. intros k Hk. destruct (decide (k = j)) as [->|]; [done|auto].
Qed.

(** *** Sift down restores the order when only [i] may be out of place *)

Lemma ord_refl h a : ord h a a.
Proof. intros x y Hx Hy. simplify_eq. apply le_refl. Qed.

Lemma smaller_child h n i j :
  2 * i + 1 < n → n ≤ length h →
  j = (if bool_decide (2 * i + 1 + 1 < n) && less_at less h (2 * i + 1 + 1) (2 * i + 1)
       then 2 * i + 1 + 1 else 2 * i + 1) →
  i < j < n ∧ 0 < j ∧ parent j = i ∧ ∀ k, 0 < k < n → parent k = i → ord h j k.
Proof.
  intros Hn Hl Hj.
  assert (Hch : ∀ k, 0 < k < n → parent k = i → k = 2 * i + 1 ∨ k = 2 * i + 1 + 1).
  { intros k Hk Hp. apply parent_child in Hp; lia. }
  assert (Hcase : (j = 2 * i + 1 + 1 ∧ j < n ∧ ord h j (2 * i + 1)) ∨
                  (j = 2 * i + 1 ∧ (2 * i + 1 + 1 < n → ord h j (2 * i + 1 + 1)))).
  { case_bool_decide as H2; cbn [andb] in Hj; [|right; lia].
    destruct (less_at less h _ _) eqn:El; [left|right]; subst j.
    - apply less_at_true in El. done.
    - by apply less_at_false in El. }
  split; [lia|]. split; [lia|]. split; [apply parent_child; lia|].
  intros k Hk Hp. destruct (Hch k Hk Hp) as [-> | ->]; destruct Hcase as [(-> & _ & Ho)|[-> Ho]];
    auto using ord_refl with lia.
Qed.

Lemma down_ok fuel i n h :
  n - i ≤ fuel → n ≤ length h →
  (∀ k, 0 < k < n → parent k ≠ i → ord h (parent k) k) →
  (∀ k, 0 < k < n → parent k = i → 0 < i → ord h (parent i) k) →
  heap_upto less (down less fuel i n h) n.
Proof.
  revert i h; induction fuel as [|f IH]; intros i h Hf Hn H1 H2.
  { intros k Hk. simpl. apply H1; [done|]. pose proof (parent_lt k ltac:(lia)). lia. }
  cbn [down]. case_bool_decide as Hj1.
  { intros k Hk. apply H1; [done|]. intros E. apply parent_child in E; lia. }
  name_child j.
  destruct (smaller_child h n i j ltac:(lia) Hn eq_refl) as (Hj & Hj0 & Hpj & Hmin).
  destruct (less_at less h j i) eqn:El; simpl.
  - apply less_at_true in El. apply IH; rewrite ?length_swap; try lia.
    + intros k Hk Hne. apply ord_swap; [lia|lia|]. unfold pos_swap.
      rewrite (decide_False (P:=parent k = j)) by done.
      destruct (decide (k = j)) as [->|Hkj].
      { rewrite Hpj, decide_True by done. done. }
      destruct (decide (k = i)) as [->|Hki].
      { rewrite decide_False by (pose proof (parent_lt i); lia). apply H2; [lia|done|lia]. }
      destruct (decide (parent k = i)) as [E|]; [by apply Hmin|by apply H1].
    + intros k Hk E _. apply ord_swap; [lia|lia|]. unfold pos_swap.
      pose proof (parent_lt k ltac:(lia)).
      rewrite Hpj. rewrite (decide_False (P:=i = j)), decide_True by lia.
      rewrite !decide_False by lia. rewrite <- E at 1. apply H1; [done|lia].
  - apply less_at_false in El. intros k Hk.
    destruct (decide (parent k = i)) as [E|]; [|by apply H1].
    rewrite E. apply ord_trans with j; [lia|done|by apply Hmin].
Qed.

(** Positions from [n] on are not touched. *)
Lemma down_above fuel i n h k :
  i < n ∨ fuel = 0 → n ≤ k → n ≤ length h → val_at (down less fuel i n h) k = val_at h k.
Proof.
  revert i h; induction fuel as [|f IH]; intros i h Hi Hk Hn; [done|]. cbn [down].
  case_bool_decide as Hj1; [done|]. name_child j.
  destruct (smaller_child h n i j ltac:(lia) Hn eq_refl) as (Hj & _).
  destruct (negb _); [done|]. rewrite IH by (rewrite ?length_swap; auto with lia).
  rewrite val_at_swap, !decide_False by lia. done.
Qed.

(** *** The root is minimal *)

Lemma root_min h x i y :
  heap_ok less h → val_at h 0 = Some x → val_at h i = Some y → le x y.
Proof.
  intros Hok H0. revert y. induction (lt_wf i) as [i _ IH]. intros y Hy.
  destruct (decide (i = 0)) as [->|Hi0]; [simplify_eq; apply le_refl|].
  assert (Hil : i < length h).
  { unfold val_at in Hy. destruct (h !! i) eqn:E; [by eapply lookup_lt_Some|done]. }
  pose proof (parent_lt i ltac:(lia)) as Hp.
  destruct (val_at_Some h (parent i) ltac:(lia)) as [z Hz].
  apply le_trans with z; [by eapply IH|]. eapply (Hok i); [lia|done|done].
Qed.

Lemma vals_lookup h i : vals h !! i = val_at h i.
Proof. unfold vals, val_at. by rewrite list_lookup_fmap. Qed.

Lemma length_vals h : length (vals h) = length h.
Proof. unfold vals. by rewrite length_fmap. Qed.

(** *** Push and Pop *)

Lemma heap_empty_ok : heap_ok less [] ∧ idx_ok (B:=B) [].
Proof. split; [intros k Hk; simpl in Hk; lia|intros i x Hx; done]. Qed.

Lemma heap_Init_nil : heap_Init less [] = [].
Proof. done. Qed.

Lemma heap_Push_ok x h :
  heap_ok less h → idx_ok h →
  heap_ok less (heap_Push less x h) ∧ idx_ok (heap_Push less x h) ∧
  vals (heap_Push less x h) ≡ₚ x :: vals h ∧
  length (heap_Push less x h) = S (length h).
Proof.
  intros Hok Hidx. unfold heap_Push.
  set (h1 := h ++ [MkIndexed _ x]).
  assert (Hl1 : length h1 = S (length h)) by (unfold h1; rewrite length_app; simpl; lia).
  destruct (up_basic (length h) (length h) h1) as (Hl & Hp & Hi).
  split; [|split; [|split]].
  - apply up_ok; [lia|lia| |].
    + intros k Hk Hne. rewrite Hl1 in Hk.
      pose proof (parent_lt k ltac:(lia)) as Hpk.
      intros a b Ha Hb. unfold val_at, h1 in Ha, Hb.
      rewrite lookup_app_l in Ha, Hb by lia. eapply (Hok k); [lia|done|done].
    + intros k Hk E. pose proof (parent_lt k ltac:(lia)). lia.
  - apply Hi. intros i y Hy. unfold h1 in Hy. apply lookup_app_Some in Hy as [Hy|[Hle Hy]].
    + by apply Hidx.
    + destruct (i - length h) eqn:Ei; simpl in Hy; [|done].
      simplify_eq/=. f_equal. lia.
  - rewrite Hp. unfold h1, vals. rewrite fmap_app. simpl. by rewrite Permutation_app_comm.
  - by rewrite Hl, Hl1.
Qed.
Lemma val_at_take h n k : k < n → val_at (take n h) k = val_at h k.
Proof. intros Hk. unfold val_at. by rewrite lookup_take_lt. Qed.

Lemma heap_Pop_nil : heap_Pop less [] = None.
Proof. done. Qed.

Lemma heap_Pop_ok h n :
  heap_ok less h → idx_ok h → length h = S n →
  ∃ x h', heap_Pop less h = Some (MkIndexed (-1) x, h') ∧ val_at h 0 = Some x ∧
    vals h ≡ₚ x :: vals h' ∧ heap_ok less h' ∧ idx_ok h' ∧ length h' = n.
Proof.
  intros Hok Hidx Hl. unfold heap_Pop.
  replace (length h - 1) with n by lia.
  set (h1 := swap 0 n h). set (h2 := down less n 0 n h1).
  assert (Hl1 : length h1 = S n) by (unfold h1; by rewrite length_swap).
  destruct (down_basic n 0 n h1) as (Hl2 & Hp2 & Hi2). fold h2 in Hl2, Hp2, Hi2.
  rewrite Hl1 in Hl2.
  destruct (val_at_Some h 0 ltac:(lia)) as [x Hx].
  assert (Hlast : val_at h2 n = Some x).
  { unfold h2. rewrite down_above by lia. unfold h1.
    rewrite val_at_swap, decide_True by lia. done. }
  assert (Hn2 : ∃ z, h2 !! n = Some z ∧ payload z = x).
  { unfold val_at in Hlast. destruct (h2 !! n) as [z|]; simplify_eq/=. by exists z. }
  destruct Hn2 as (z & Hz & Hpz). rewrite Hz, Hpz.
  exists x, (take n h2). split; [done|]. split; [done|].
  assert (Hsplit : h2 = take n h2 ++ [z]).
  { rewrite <- (take_S_r _ _ _ Hz). symmetry. apply take_ge. lia. }
  split; [|split; [|split]].
  - rewrite <- (vals_swap_perm 0 n h). fold h1. rewrite <- Hp2.
    rewrite Hsplit at 1. unfold vals. rewrite fmap_app. simpl. rewrite Hpz.
    by rewrite Permutation_app_comm.
  - assert (Hupto : heap_upto less h2 n).
    { apply down_ok; [lia|lia| |lia]. intros k Hk Hne. apply ord_swap; [lia|lia|].
      pose proof (parent_lt k ltac:(lia)). unfold pos_swap.
      rewrite !decide_False by lia. apply Hok. lia. }
    intros k Hk. rewrite length_take in Hk. pose proof (parent_lt k ltac:(lia)).
    intros a b Ha Hb. rewrite val_at_take in Ha, Hb by lia.
    eapply (Hupto k); [lia|done|done].
  - intros i y Hy. apply lookup_take_Some in Hy as [Hy _].
    apply (Hi2 (idx_ok_swap _ _ _ Hidx) i y Hy).
  - rewrite length_take. lia.
Qed.

(** What [Pop] returns precedes everything that stays. *)
Lemma heap_Pop_min h n x i h' :
  heap_ok less h → idx_ok h → length h = S n → heap_Pop less h = Some (MkIndexed i x, h') →
  Forall (le x) (vals h').
Proof.
  intros Hok Hidx Hl E.
  destruct (heap_Pop_ok h n Hok Hidx Hl) as (x' & h1 & E1 & Hx & Hp & _).
  rewrite E1 in E. simplify_eq. apply Forall_forall. intros y Hy.
  assert (Hin : y ∈ vals h) by (rewrite Hp; by right).
  apply list_elem_of_lookup in Hin as [k Hk]. rewrite vals_lookup in Hk.
  by eapply root_min.
Qed.
End heap_lemmas.
