(* ===== verification/Task.v ===== *)
(** * Tasks, traits, priorities and the runner stored in a context
    (core/task.go, and [TaskItem] of core/queue.go)

    A Go [Task] is an opaque function value; the development is parametric in
    the type that stands for it, with a zero value (nil). *)

From S2P Require Import Prelude GoSlice.

(** [type TaskPriority int] with its three named values; any int is legal. *)
Definition TaskPriority := Z.
Definition TaskPriorityBestEffort : TaskPriority := 0%Z.
Definition TaskPriorityUserVisible : TaskPriority := 1%Z.
Definition TaskPriorityUserBlocking : TaskPriority := 2%Z.

Record TaskTraits := MkTaskTraits { Priority : TaskPriority }.
#[export] Instance TaskTraits_zero : GoZero TaskTraits := MkTaskTraits 0%Z.
#[export] Instance TaskTraits_eq_dec : EqDecision TaskTraits.
Proof. solve_decision. Defined.

Definition DefaultTaskTraits : TaskTraits := {| Priority := TaskPriorityUserVisible |}.
Definition TraitsUserBlocking : TaskTraits := {| Priority := TaskPriorityUserBlocking |}.
Definition TraitsBestEffort : TaskTraits := {| Priority := TaskPriorityBestEffort |}.
Definition TraitsUserVisible : TaskTraits := {| Priority := TaskPriorityUserVisible |}.

(** [type TaskID uuid.UUID]: 128 bits.  [uuid.New] is the uuid package's; the
    identifier it returns is an argument of the operations that call it. *)
Definition TaskID := N.
Definition IsZero (id : TaskID) : bool := (id =? 0)%N.

Section task_item.
Context {T : Type} `{GoZero T}.

Record TaskItem := MkTaskItem { item_Task : T; item_Traits : TaskTraits; item_ID : TaskID }.

#[export] Instance TaskItem_zero : GoZero TaskItem :=
  MkTaskItem go_zero go_zero go_zero.
End task_item.
Arguments TaskItem T : clear implicits.
Arguments MkTaskItem {T}.

#[export] Instance TaskItem_eq_dec `{EqDecision T} : EqDecision (TaskItem T).
Proof. solve_decision. Defined.

(** [context.Context] as the runners use it: values are looked up through the
    chain of parents, the innermost binding of a key wins. *)
Inductive context (R : Type) : Type :=
| ctxBackground
| ctxWithRunner (r : R) (parent : context R) (** WithValue(ctx, taskRunnerKey, r) *)
| ctxDerived (parent : context R). (** WithCancel, or WithValue of another key *)
Arguments ctxBackground {R}.
Arguments ctxWithRunner {R} r parent.
Arguments ctxDerived {R} parent.

Fixpoint GetCurrentTaskRunner {R} (ctx : context R) : option R :=
  match ctx with
  | ctxBackground => None
  | ctxWithRunner r _ => Some r
  | ctxDerived p => GetCurrentTaskRunner p
  end.
