(* ===== verification/PrometheusExporter.v ===== *)
(** * The Prometheus exporter (observability/prometheus/metrics_exporter.go)

    The client library is a parameter: collectors are made from their options,
    [Register] adds one to a registry, and a collector is updated under its
    label values.  [PromLaws] is what the library documents about duplicate
    registrations: a collector is known by its name and labels, and a second
    one of the same description is refused with the existing one.  What the
    exporter does to its collectors is a log of [Update]s. *)

From S2P Require Import Prelude Task.

Inductive Kind := KHistogram | KCounter | KGauge.
#[export] Instance Kind_eq_dec : EqDecision Kind.
Proof. solve_decision. Defined.

(** The options of a collector: buckets are those of a histogram. *)
Record Opts := MkOpts {
  o_kind : Kind; o_namespace : string; o_name : string; o_labels : list string; o_buckets : list Z
}.

Inductive PromError (C : Type) :=
| AlreadyRegisteredError (existing : C)
| OtherError (msg : string).
Arguments AlreadyRegisteredError {C} existing.
Arguments OtherError {C} msg.

Class Prom (Reg C : Type) := {
  new_collector : Opts → C;
  dynamic_type : C → Kind;
  Register : C → Reg → Reg * option (PromError C);
  DefaultRegisterer : Reg;
  DefBuckets : list Z;
}.

Section exporter.
Context {Reg C : Type} `{Prom Reg C}.

Record MetricsExporter := MkExporter {
  taskDurationSeconds : C;
  taskPanicTotal : C;
  taskRejectedTotal : C;
  queueDepth : C;
}.

Inductive Update :=
| Observe (c : C) (labels : list string) (nanoseconds : Z)
| Inc (c : C) (labels : list string)
| Set_ (c : C) (labels : list string) (value : Z).

Definition normalizeLabel (v fallback : string) : string := if decide (v = "") then fallback else v.

Definition priorityLabel (priority : TaskPriority) : string :=
  if (priority =? TaskPriorityUserBlocking)%Z then "user_blocking"
  else if (priority =? TaskPriorityUserVisible)%Z then "user_visible"
  else if (priority =? TaskPriorityBestEffort)%Z then "best_effort"
  else "unknown".

(** The type assertion compares the dynamic types; the results are the
    registry and the collector or the error. *)
Definition registerCollector (collector : C) (reg : Reg) : Reg * (C + string) :=
  let '(reg, err) := Register collector reg in
  match err with
  | None => (reg, inl collector)
  | Some (AlreadyRegisteredError existing) =>
      if decide (dynamic_type existing = dynamic_type collector) then (reg, inl existing)
      else (reg, inr "collector type mismatch")
  | Some (OtherError msg) => (reg, inr msg)
  end.

(** A nil registry is the default one. *)
Definition NewMetricsExporter (namespace : string) (reg : option Reg) (buckets : list Z)
  : Reg * (MetricsExporter + string) :=
  let namespace := if decide (namespace = "") then "taskrunner" else namespace in
  let reg := match reg with None => DefaultRegisterer | Some reg => reg end in
  let buckets := if decide (length buckets = 0) then DefBuckets else buckets in
  let durationVec := new_collector
    (MkOpts KHistogram namespace "task_duration_seconds" ["runner"; "priority"] buckets) in
  let panicVec := new_collector (MkOpts KCounter namespace "task_panic_total" ["runner"] []) in
  let rejectedVec := new_collector
    (MkOpts KCounter namespace "task_rejected_total" ["runner"; "reason"] []) in
  let queueDepthVec := new_collector (MkOpts KGauge namespace "queue_depth" ["runner"] []) in
  match registerCollector durationVec reg with
  | (reg, inr err) => (reg, inr err)
  | (reg, inl durationVec) =>
  match registerCollector panicVec reg with
  | (reg, inr err) => (reg, inr err)
  | (reg, inl panicVec) =>
  match registerCollector rejectedVec reg with
  | (reg, inr err) => (reg, inr err)
  | (reg, inl rejectedVec) =>
  match registerCollector queueDepthVec reg with
  | (reg, inr err) => (reg, inr err)
  | (reg, inl queueDepthVec) => (reg, inl (MkExporter durationVec panicVec rejectedVec queueDepthVec))
  end end end end.

(** The methods do nothing on a nil exporter. *)
Definition RecordTaskDuration (m : option MetricsExporter) (runnerName : string)
  (priority : TaskPriority) (duration : Z) (w : list Update) : list Update :=
  match m with
  | None => w
  | Some m => w ++ [Observe (taskDurationSeconds m)
                      [normalizeLabel runnerName "unknown"; priorityLabel priority] duration]
  end.
Definition RecordTaskPanic (m : option MetricsExporter) (runnerName : string) (w : list Update)
  : list Update :=
  match m with
  | None => w
  | Some m => w ++ [Inc (taskPanicTotal m) [normalizeLabel runnerName "unknown"]]
  end.
Definition RecordQueueDepth (m : option MetricsExporter) (runnerName : string) (depth : Z)
  (w : list Update) : list Update :=
  match m with
  | None => w
  | Some m => w ++ [Set_ (queueDepth m) [normalizeLabel runnerName "unknown"] depth]
  end.
Definition RecordTaskRejected (m : option MetricsExporter) (runnerName reason : string)
  (w : list Update) : list Update :=
  match m with
  | None => w
  | Some m => w ++ [Inc (taskRejectedTotal m)
                      [normalizeLabel runnerName "unknown"; normalizeLabel reason "unknown"]]
  end.
End exporter.
Arguments MetricsExporter C : clear implicits.
Arguments Update C : clear implicits.

(** What a registry knows a collector by *)
Definition Desc : Type := string * string * list string.
Definition desc_of (o : Opts) : Desc := (o_namespace o, o_name o, o_labels o).

Class PromLaws (Reg C : Type) `{Prom Reg C} (registered : Reg → gmap Desc C) (desc : C → Desc) := {
  new_desc o : desc (new_collector o) = desc_of o;
  new_type o : dynamic_type (new_collector o) = o_kind o;
  register_new c reg : registered reg !! desc c = None →
    ∃ reg', Register c reg = (reg', None) ∧ registered reg' = <[desc c := c]> (registered reg);
  register_again c reg existing : registered reg !! desc c = Some existing →
    ∃ reg', Register c reg = (reg', Some (AlreadyRegisteredError existing)) ∧
            registered reg' = registered reg;
}.

Section theorems.
Context {Reg C : Type} `{!Prom Reg C} (registered : Reg → gmap Desc C) (desc : C → Desc).
Context `{!PromLaws Reg C registered desc}.

Lemma registerCollector_new c reg :
  registered reg !! desc c = None →
  ∃ reg', registerCollector c reg = (reg', inl c) ∧
          registered reg' = <[desc c := c]> (registered reg).
Proof.
  intros (reg' & E & Hr)%register_new. exists reg'. unfold registerCollector. by rewrite E.
Qed.

Lemma registerCollector_again c reg existing :
  registered reg !! desc c = Some existing → dynamic_type existing = dynamic_type c →
  ∃ reg', registerCollector c reg = (reg', inl existing) ∧ registered reg' = registered reg.
Proof.
  intros (reg' & E & Hr)%register_again Ht. exists reg'. unfold registerCollector. rewrite E.
  by rewrite decide_True.
Qed.

Definition names (namespace : string) : list Desc :=
  let ns := if decide (namespace = "") then "taskrunner" else namespace in
  [(ns, "task_duration_seconds", ["runner"; "priority"]); (ns, "task_panic_total", ["runner"]);
   (ns, "task_rejected_total", ["runner"; "reason"]); (ns, "queue_depth", ["runner"])].

(** On a registry without these names the exporter is made; a second one of
    the same namespace, with any buckets, shares its collectors. *)
Theorem prom_reuse namespace reg buckets buckets' :
  Forall (λ d, registered reg !! d = None) (names namespace) →
  ∃ m reg1 reg2,
    NewMetricsExporter namespace (Some reg) buckets = (reg1, inl m) ∧
    NewMetricsExporter namespace (Some reg1) buckets' = (reg2, inl m) ∧
    registered reg2 = registered reg1 ∧
    (∀ d, d ∉ names namespace → registered reg1 !! d = registered reg !! d).
Proof.
  intros HF. unfold names in *. unfold NewMetricsExporter.
  set (ns := if decide (namespace = "") then "taskrunner" else namespace) in *. cbn zeta.
  rewrite !Forall_cons in HF. destruct HF as (H1 & H2 & H3 & H4 & _).
  set (c1 := new_collector (MkOpts KHistogram _ _ _ (if decide (length buckets = 0) then _ else _))).
  set (c1' := new_collector (MkOpts KHistogram _ _ _ (if decide (length buckets' = 0) then _ else _))).
  set (c2 := new_collector (MkOpts KCounter ns "task_panic_total" _ _)).
  set (c3 := new_collector (MkOpts KCounter ns "task_rejected_total" _ _)).
  set (c4 := new_collector (MkOpts KGauge _ _ _ _)).
  destruct (registerCollector_new c1 reg) as (r1 & E1 & R1); [by unfold c1; rewrite new_desc|].
  destruct (registerCollector_new c2 r1) as (r2 & E2 & R2).
  { unfold c2. rewrite R1, new_desc. unfold c1. by rewrite new_desc, lookup_insert_ne. }
  destruct (registerCollector_new c3 r2) as (r3 & E3 & R3).
  { rewrite R2, R1. unfold c1, c2, c3. by rewrite !new_desc, !lookup_insert_ne. }
  destruct (registerCollector_new c4 r3) as (r4 & E4 & R4).
  { rewrite R3, R2, R1. unfold c1, c2, c3, c4. by rewrite !new_desc, !lookup_insert_ne. }
  assert (registered r4 = <[desc c4 := c4]> (<[desc c3 := c3]> (<[desc c2 := c2]>
            (<[desc c1 := c1]> (registered reg))))) as R by (by rewrite R4, R3, R2, R1).
  destruct (registerCollector_again c1' r4 c1) as (s1 & F1 & S1).
  { rewrite R. unfold c1', c1, c2, c3, c4. rewrite !new_desc. unfold desc_of. cbn.
    repeat (rewrite lookup_insert_ne by done). by rewrite lookup_insert_eq. }
  { unfold c1, c1'. by rewrite !new_type. }
  destruct (registerCollector_again c2 s1 c2) as (s2 & F2 & S2); [|done|].
  { rewrite S1, R. unfold c1, c2, c3, c4. rewrite !new_desc. unfold desc_of. cbn.
    repeat (rewrite lookup_insert_ne by done). by rewrite lookup_insert_eq. }
  destruct (registerCollector_again c3 s2 c3) as (s3 & F3 & S3); [|done|].
  { rewrite S2, S1, R. unfold c1, c2, c3, c4. rewrite !new_desc. unfold desc_of. cbn.
    repeat (rewrite lookup_insert_ne by done). by rewrite lookup_insert_eq. }
  destruct (registerCollector_again c4 s3 c4) as (s4 & F4 & S4); [|done|].
  { rewrite S3, S2, S1, R. by rewrite lookup_insert_eq. }
  exists (MkExporter c1 c2 c3 c4), r4, s4. rewrite E1, E2, E3, E4, F1, F2, F3, F4.
  split_and!; [done|done|by rewrite S4, S3, S2, S1|].
  intros d Hd. rewrite R. unfold c1, c2, c3, c4. rewrite !new_desc. unfold desc_of. cbn.
  rewrite !lookup_insert_ne by (intros <-; apply Hd; set_solver). done.
Qed.

(** Every label the exporter writes is non-empty. *)
Theorem prom_labels m runnerName reason priority duration depth :
  Forall (λ u, match u with Observe _ ls _ | Inc _ ls | Set_ _ ls _ => "" ∉ ls end)
    (RecordTaskDuration (C:=C) (Some m) runnerName priority duration
      (RecordTaskPanic (Some m) runnerName
        (RecordQueueDepth (Some m) runnerName depth
          (RecordTaskRejected (Some m) runnerName reason [])))).
Proof.
  assert (∀ v, normalizeLabel v "unknown" ≠ "") as Hn.
  { intros v. unfold normalizeLabel. by case_decide. }
  assert (priorityLabel priority ≠ "") as Hp by (unfold priorityLabel; by repeat case_match).
  cbn [RecordTaskDuration RecordTaskPanic RecordQueueDepth RecordTaskRejected app].
  repeat constructor; set_solver.
Qed.
End theorems.

(** ** A registry that keeps the laws: collectors are their options *)

Module PromDemo.
#[global] Instance registry : Prom (gmap Desc Opts) Opts := {
  new_collector o := o;
  dynamic_type := o_kind;
  Register c reg :=
    match reg !! desc_of c with
    | Some existing => (reg, Some (AlreadyRegisteredError existing))
    | None => (<[desc_of c := c]> reg, None)
    end;
  DefaultRegisterer := ∅;
  DefBuckets := [5%Z; 10%Z];
}.
#[global] Instance registry_laws : PromLaws (gmap Desc Opts) Opts id desc_of.
Proof.
  split; simpl; try done.
  - intros c reg ->. by eexists.
  - intros c reg existing ->. by eexists.
Defined.
End PromDemo.
Import PromDemo.

Lemma prom_reuse_witness :
  ∃ m reg1 reg2,
    NewMetricsExporter "jobs" (Some ∅) [1%Z] = (reg1, inl m) ∧
    NewMetricsExporter "jobs" (Some reg1) [2%Z] = (reg2, inl m) ∧
    reg2 = reg1 ∧ (∀ d, d ∉ names "jobs" → reg1 !! d = (∅ : gmap Desc Opts) !! d).
Proof.
  apply (prom_reuse id desc_of "jobs" ∅ [1%Z] [2%Z]).
  unfold names. repeat constructor.
Defined.
