(* ===== verification/TaskQueue.v ===== *)
(** * The [TaskQueue] interface (core/queue.go)

    What the scheduler and the runners rely on.  The laws only speak of the
    multiset of queued items and of its size; the order is what the two
    implementations ([FIFOQueue], [PriorityQueue]) disagree on.  Methods that
    can panic in Go return a [go] result. *)

From S2P Require Import Prelude GoSlice Task.

(** The Go interface, for a queue type [Q] of tasks of type [T].  [Push] is
    [PushWithID] with the identifier dropped. *)
Class TaskQueue (Q T : Type) := {
  tq_new : Q;
  tq_PushWithID : TaskID → T → TaskTraits → Q → Q;
  tq_Pop : Q → go (option (TaskItem T) * Q);
  tq_PeekTraits : Q → option TaskTraits;
  tq_Len : Q → nat;
  tq_MaybeCompact : Q → Q;
  tq_Clear : Q → Q;
}.

Definition tq_IsEmpty `{TaskQueue Q T} (q : Q) : bool := bool_decide (tq_Len q = 0).

(** What the queue holds, popped until it is empty (for the histories). *)
Fixpoint drain `{TaskQueue Q T} (fuel : nat) (q : Q) : list (TaskItem T) :=
  match fuel with
  | 0 => []
  | S fuel => match tq_Pop q with Ret (Some it, q) => it :: drain fuel q | _ => [] end
  end.

(** What every implementation guarantees: [tq_ok] is its representation
    invariant, [tq_items] the queued items in some order. *)
Class TaskQueueLaws (Q T : Type) `{TaskQueue Q T} := {
  tq_ok : Q → Prop;
  tq_items : Q → list (TaskItem T);
  tq_new_ok : tq_ok tq_new;
  tq_new_items : tq_items tq_new = [];
  tq_push_ok id t tr q : tq_ok q → tq_ok (tq_PushWithID id t tr q);
  tq_push_items id t tr q : tq_ok q →
    tq_items (tq_PushWithID id t tr q) ≡ₚ MkTaskItem t tr id :: tq_items q;
  tq_pop_empty q : tq_ok q → tq_items q = [] → tq_Pop q = Ret (None, q);
  tq_pop_some q : tq_ok q → tq_items q ≠ [] →
    ∃ it q', tq_Pop q = Ret (Some it, q') ∧ tq_ok q' ∧ tq_items q ≡ₚ it :: tq_items q'
             ∧ tq_PeekTraits q = Some (item_Traits it);
  tq_peek_empty q : tq_ok q → tq_items q = [] → tq_PeekTraits q = None;
  tq_len q : tq_ok q → tq_Len q = length (tq_items q);
  tq_compact_ok q : tq_ok q → tq_ok (tq_MaybeCompact q) ∧
    tq_items (tq_MaybeCompact q) = tq_items q;
  tq_clear_ok q : tq_ok q → tq_ok (tq_Clear q) ∧ tq_items (tq_Clear q) = [];
}.

Section client_lemmas.
Context `{TaskQueueLaws Q T}.

Lemma tq_pop_none q q' : tq_ok q → tq_Pop q = Ret (None, q') → tq_items q = [] ∧ q' = q.
Proof.
  intros Hok E. destruct (decide (tq_items q = [])) as [Hn|Hn].
  - rewrite (tq_pop_empty q Hok Hn) in E. by injection E as <-.
  - destruct (tq_pop_some q Hok Hn) as (it & q1 & E1 & _). congruence.
Qed.

Lemma tq_pop_got q it q' :
  tq_ok q → tq_Pop q = Ret (Some it, q') →
  tq_ok q' ∧ tq_items q ≡ₚ it :: tq_items q' ∧ tq_PeekTraits q = Some (item_Traits it).
Proof.
  intros Hok E. destruct (decide (tq_items q = [])) as [Hn|Hn].
  - rewrite (tq_pop_empty q Hok Hn) in E. done.
  - destruct (tq_pop_some q Hok Hn) as (it1 & q1 & E1 & ?). rewrite E1 in E.
    by simplify_eq.
Qed.

Lemma tq_pop_no_panic q e : tq_ok q → tq_Pop q ≠ Panic e.
Proof.
  intros Hok E. destruct (decide (tq_items q = [])) as [Hn|Hn].
  - by rewrite (tq_pop_empty q Hok Hn) in E.
  - destruct (tq_pop_some q Hok Hn) as (it1 & q1 & E1 & ?). by rewrite E1 in E.
Qed.

Lemma drain_items fuel q :
  tq_ok q → length (tq_items q) ≤ fuel → drain fuel q ≡ₚ tq_items q.
Proof.
  revert q; induction fuel as [|f IH]; intros q Hok Hle; simpl.
  - by destruct (tq_items q); simpl in *; [|lia].
  - destruct (decide (tq_items q = [])) as [Hn|Hn].
    + by rewrite (tq_pop_empty q Hok Hn), Hn.
    + destruct (tq_pop_some q Hok Hn) as (it & q' & -> & Hok' & Hp & _).
      rewrite Hp in Hle. simpl in Hle. rewrite (IH q' Hok' ltac:(lia)). done.
Qed.

Lemma tq_empty_spec q : tq_ok q → tq_IsEmpty q = true ↔ tq_items q = [].
Proof.
  intros Hok. unfold tq_IsEmpty. rewrite bool_decide_eq_true, (tq_len q Hok).
  by rewrite length_zero_iff_nil.
Qed.
End client_lemmas.

#[export] Hint Resolve tq_new_ok tq_push_ok : gostep.

(** ** First-in-first-out queues

    What the runners rely on beyond the laws: [tq_items] lists the items in
    the order they were pushed and [Pop] takes the oldest. *)
Class FIFOOrder (Q T : Type) `{TaskQueueLaws Q T} := {
  fo_push id t tr q : tq_ok q →
    tq_items (tq_PushWithID id t tr q) = tq_items q ++ [MkTaskItem t tr id];
  fo_pop q x l : tq_ok q → tq_items q = x :: l →
    ∃ q', tq_Pop q = Ret (Some x, q') ∧ tq_ok q' ∧ tq_items q' = l;
}.

Section fifo_client.
Context `{FIFOOrder Q T}.

Lemma fo_pop_got q it q' :
  tq_ok q → tq_Pop q = Ret (Some it, q') → tq_ok q' ∧ tq_items q = it :: tq_items q'.
Proof.
  intros Hok E. destruct (tq_items q) as [|x l] eqn:Ei.
  - by rewrite (tq_pop_empty q Hok Ei) in E.
  - destruct (fo_pop q x l Hok Ei) as (q1 & E1 & Hok1 & <-). rewrite E1 in E. by simplify_eq.
Qed.

Lemma drain_fifo fuel q :
  tq_ok q → length (tq_items q) ≤ fuel → drain fuel q = tq_items q.
Proof.
  revert q; induction fuel as [|f IH]; intros q Hok Hle; simpl.
  - by destruct (tq_items q); simpl in *; [|lia].
  - destruct (tq_items q) as [|x l] eqn:E.
    + by rewrite (tq_pop_empty q Hok E).
    + destruct (fo_pop q x l Hok E) as (q' & -> & Hok' & <-). simpl in Hle.
      by rewrite (IH q' Hok' ltac:(lia)).
Qed.

Lemma tq_not_empty q : tq_ok q → tq_IsEmpty q = false ↔ tq_items q ≠ [].
Proof.
  intros Hok. rewrite <- (tq_empty_spec q Hok). by destruct (tq_IsEmpty q).
Qed.
End fifo_client.

(** ** Histories of operations

    The full interface as a sequence of calls with their results, to compare
    an implementation with a reference queue call by call. *)

Inductive QOp (T : Type) :=
| OpPush (id : TaskID) (t : T) (tr : TaskTraits)
| OpPop
| OpPopUpTo (max : Z)
| OpPeekTraits
| OpLen
| OpIsEmpty
| OpMaybeCompact
| OpClear.
Arguments OpPush {T}. Arguments OpPop {T}. Arguments OpPopUpTo {T}.
Arguments OpPeekTraits {T}. Arguments OpLen {T}. Arguments OpIsEmpty {T}.
Arguments OpMaybeCompact {T}. Arguments OpClear {T}.

Inductive QOut (T : Type) :=
| OutID (id : TaskID)
| OutItem (it : option (TaskItem T))
| OutBatch (b : option (list (TaskItem T))) (** [None] is the nil slice *)
| OutTraits (tr : option TaskTraits)
| OutLen (n : nat)
| OutBool (b : bool)
| OutUnit.
Arguments OutID {T}. Arguments OutItem {T}. Arguments OutBatch {T}.
Arguments OutTraits {T}. Arguments OutLen {T}. Arguments OutBool {T}. Arguments OutUnit {T}.

Section histories.
Context {T : Type}.

Fixpoint run_ops {Q} (exec : QOp T → Q → go (QOut T * Q)) (ops : list (QOp T)) (q : Q)
  : go (list (QOut T)) :=
  match ops with
  | [] => Ret []
  | op :: ops =>
      '(o, q) ← exec op q;
      os ← run_ops exec ops q;
      Ret (o :: os)
  end.

(** Two results agree: same output and related states, or the same panic. *)
Definition res_rel {Q1 Q2} (R : Q1 → Q2 → Prop)
  (r1 : go (QOut T * Q1)) (r2 : go (QOut T * Q2)) : Prop :=
  match r1, r2 with
  | Ret (o1, q1), Ret (o2, q2) => o1 = o2 ∧ R q1 q2
  | Panic e1, Panic e2 => e1 = e2
  | _, _ => False
  end.

Lemma run_ops_refines {Q1 Q2} (exec1 : QOp T → Q1 → go (QOut T * Q1))
  (exec2 : QOp T → Q2 → go (QOut T * Q2)) (R : Q1 → Q2 → Prop) :
  (∀ op q1 q2, R q1 q2 → res_rel R (exec1 op q1) (exec2 op q2)) →
  ∀ ops q1 q2, R q1 q2 → run_ops exec1 ops q1 = run_ops exec2 ops q2.
Proof.
  intros Hsim ops. induction ops as [|op ops IH]; intros q1 q2 HR; [done|].
  specialize (Hsim op _ _ HR). simpl.
  destruct (exec1 op q1) as [[o1 q1']|e1], (exec2 op q2) as [[o2 q2']|e2]; try done; simpl.
  - destruct Hsim as [-> HR']. by rewrite (IH _ _ HR').
  - by rewrite Hsim.
Qed.

(** The same when the relation depends on how many operations are left. *)
Lemma run_ops_refines_n {Q1 Q2} (exec1 : QOp T → Q1 → go (QOut T * Q1))
  (exec2 : QOp T → Q2 → go (QOut T * Q2)) (R : nat → Q1 → Q2 → Prop) :
  (∀ n op q1 q2, R (S n) q1 q2 → res_rel (R n) (exec1 op q1) (exec2 op q2)) →
  ∀ ops q1 q2, R (length ops) q1 q2 → run_ops exec1 ops q1 = run_ops exec2 ops q2.
Proof.
  intros Hsim ops. induction ops as [|op ops IH]; intros q1 q2 HR; [done|].
  specialize (Hsim _ op _ _ HR). simpl.
  destruct (exec1 op q1) as [[o1 q1']|e1], (exec2 op q2) as [[o2 q2']|e2]; try done; simpl.
  - destruct Hsim as [-> HR']. by rewrite (IH _ _ HR').
  - by rewrite Hsim.
Qed.
End histories.
