(* ===== verification/FIFOQueue.v ===== *)
(** * FIFOTaskQueue (core/queue.go, lines 9-163)

    The queue is a slice of items over the store of [GoSlice]; the mutex makes
    every method atomic, so methods are functions on the state.  [growslice]
    is the runtime's growth policy. *)

From S2P Require Import Prelude GoSlice Task TaskQueue.

Definition defaultQueueCap : nat := 16.
Definition compactMinCap : nat := 64.
Definition compactShrinkFactor : nat := 4.

Section fifo.
Context {T : Type} `{GoZero T} (growslice : nat → nat → nat).

Record FIFOTaskQueue := MkFIFO { mem : store (TaskItem T); tasks : slice }.

Definition NewFIFOTaskQueue : FIFOTaskQueue :=
  let '(m, s) := make_slice 0 defaultQueueCap [] in MkFIFO m s.

Definition PushWithID (id : TaskID) (t : T) (traits : TaskTraits) (q : FIFOTaskQueue)
  : FIFOTaskQueue :=
  let '(m, s) := append1 growslice (mem q) (tasks q) (MkTaskItem t traits id) in
  MkFIFO m s.

Definition maybeCompactLocked (q : FIFOTaskQueue) : FIFOTaskQueue :=
  let n := sl_len (tasks q) in
  let c := sl_cap (tasks q) in
  if decide (c < compactMinCap) then q
  else if decide (n = 0) then
    let '(m, s) := make_slice 0 defaultQueueCap (mem q) in MkFIFO m s
  else if decide (c ≤ n * compactShrinkFactor) then q
  else
    let newCap := ((c `div` 2) `max` defaultQueueCap) `max` n in
    let '(m, newSlice) := make_slice n newCap (mem q) in
    MkFIFO (copy_slice m newSlice (tasks q)) newSlice.

Definition Pop (q : FIFOTaskQueue) : go (option (TaskItem T) * FIFOTaskQueue) :=
  if decide (sl_len (tasks q) = 0) then Ret (None, q)
  else
    item ← slice_get (mem q) (tasks q) 0;
    m ← slice_set (mem q) (tasks q) 0 go_zero;
    s ← reslice (tasks q) 1 (sl_len (tasks q));
    Ret (Some item, maybeCompactLocked (MkFIFO m s)).

(** The returned batch is a slice over the queue's store ([None]: nil). *)
Definition PopUpTo (max : Z) (q : FIFOTaskQueue) : go (option slice * FIFOTaskQueue) :=
  let n := sl_len (tasks q) in
  if decide (n = 0) then Ret (None, q)
  else if decide (Z.of_nat n <= max)%Z then
    let batch := tasks q in
    s ← reslice (tasks q) 0 0;
    Ret (Some batch, MkFIFO (mem q) s)
  else if decide (max < 0)%Z then Panic "makeslice: len out of range"
  else
    let max := Z.to_nat max in
    let '(m, batch) := make_slice max max (mem q) in
    src ← reslice (tasks q) 0 max;
    m ← zero_prefix (copy_slice m batch src) (tasks q) max;
    s ← reslice (tasks q) max n;
    Ret (Some batch, maybeCompactLocked (MkFIFO m s)).

Definition MaybeCompact (q : FIFOTaskQueue) : FIFOTaskQueue := maybeCompactLocked q.

Definition PeekTraits (q : FIFOTaskQueue) : option TaskTraits :=
  item_Traits <$> view (mem q) (tasks q) !! 0.

Definition Len (q : FIFOTaskQueue) : nat := sl_len (tasks q).

Definition IsEmpty (q : FIFOTaskQueue) : bool := bool_decide (Len q = 0).

Definition Clear (q : FIFOTaskQueue) : FIFOTaskQueue :=
  let '(m, s) := make_slice 0 defaultQueueCap (mem q) in MkFIFO m s.

#[export] Instance FIFO_TaskQueue : TaskQueue FIFOTaskQueue T := {|
  tq_new := NewFIFOTaskQueue;
  tq_PushWithID := PushWithID;
  tq_Pop := Pop;
  tq_PeekTraits := PeekTraits;
  tq_Len := Len;
  tq_MaybeCompact := MaybeCompact;
  tq_Clear := Clear;
|}.

(** *** Specification: contents, invariant and the reference queue *)

Definition contents (q : FIFOTaskQueue) : list (TaskItem T) := view (mem q) (tasks q).
Definition fifo_ok (q : FIFOTaskQueue) : Prop := wf_slice (mem q) (tasks q).

(** No cell of the backing array outside the queue keeps a task alive. *)
Definition no_leak (q : FIFOTaskQueue) : Prop := clean (mem q) (tasks q).

(** One call of the interface on the implementation. *)
Definition exec (op : QOp T) (q : FIFOTaskQueue) : go (QOut T * FIFOTaskQueue) :=
  match op with
  | OpPush id t tr => Ret (OutID id, PushWithID id t tr q)
  | OpPop => '(it, q') ← Pop q; Ret (OutItem it, q')
  | OpPopUpTo max =>
      '(b, q') ← PopUpTo max q; Ret (OutBatch (view (mem q') <$> b), q')
  | OpPeekTraits => Ret (OutTraits (PeekTraits q), q)
  | OpLen => Ret (OutLen (Len q), q)
  | OpIsEmpty => Ret (OutBool (IsEmpty q), q)
  | OpMaybeCompact => Ret (OutUnit, MaybeCompact q)
  | OpClear => Ret (OutUnit, Clear q)
  end.

(** The reference queue: a list, oldest item first. *)
Definition fifo_spec (op : QOp T) (l : list (TaskItem T)) : go (QOut T * list (TaskItem T)) :=
  match op with
  | OpPush id t tr => Ret (OutID id, l ++ [MkTaskItem t tr id])
  | OpPop => Ret (OutItem (head l), tail l)
  | OpPopUpTo max =>
      if decide (l = []) then Ret (OutBatch None, l)
      else if decide (max < 0)%Z then Panic "makeslice: len out of range"
      else Ret (OutBatch (Some (take (Z.to_nat max) l)), drop (Z.to_nat max) l)
  | OpPeekTraits => Ret (OutTraits (item_Traits <$> head l), l)
  | OpLen => Ret (OutLen (length l), l)
  | OpIsEmpty => Ret (OutBool (bool_decide (l = [])), l)
  | OpMaybeCompact => Ret (OutUnit, l)
  | OpClear => Ret (OutUnit, [])
  end.

Definition fifo_rel (q : FIFOTaskQueue) (l : list (TaskItem T)) : Prop :=
  fifo_ok q ∧ contents q = l.
End fifo.
Arguments FIFOTaskQueue T : clear implicits.

(** ** Per-operation lemmas *)

Section fifo_lemmas.
Context {T : Type} `{GoZero T} (growslice : nat → nat → nat).
Hypothesis Hgrow : grow_ok growslice.
Implicit Types q : FIFOTaskQueue T.

Lemma Len_contents q : fifo_ok q → length (contents q) = Len q.
Proof. intros Hok. by apply view_length. Qed.

Lemma fifo_New_spec :
  fifo_ok (NewFIFOTaskQueue (T:=T)) ∧ contents (NewFIFOTaskQueue (T:=T)) = [] ∧
  no_leak (NewFIFOTaskQueue (T:=T)).
Proof.
  destruct (make_slice_spec 0 defaultQueueCap ([] : store (TaskItem T)) _ _
              (Nat.le_0_l _) eq_refl) as (? & ? & ?). done.
Qed.

Lemma fifo_Clear_spec q :
  fifo_ok (Clear q) ∧ contents (Clear q) = [] ∧ no_leak (Clear q).
Proof.
  destruct (make_slice_spec 0 defaultQueueCap (mem q) _ _
              (Nat.le_0_l _) eq_refl) as (? & ? & ?). done.
Qed.

Lemma fifo_Push_spec id t tr q :
  fifo_ok q →
  fifo_ok (PushWithID growslice id t tr q) ∧
  contents (PushWithID growslice id t tr q) = contents q ++ [MkTaskItem t tr id] ∧
  (no_leak q → no_leak (PushWithID growslice id t tr q)).
Proof.
  intros Hok. unfold PushWithID.
  destruct (append1 _ _ _ _) as [m s] eqn:E.
  destruct (append1_spec _ _ _ _ _ _ Hgrow Hok E) as (? & ? & ?).
  split; [done|]. split; [done|]. intros Hcl. exact (append1_clean _ _ _ _ _ _ Hgrow Hok Hcl E).
Qed.

Lemma compact_spec q :
  fifo_ok q →
  fifo_ok (maybeCompactLocked q) ∧ contents (maybeCompactLocked q) = contents q ∧
  (no_leak q → no_leak (maybeCompactLocked q)).
Proof.
  intros Hok. unfold maybeCompactLocked. destruct q as [m s]. unfold fifo_ok in Hok.
  cbn [mem tasks] in *.
  destruct (decide (sl_cap s < compactMinCap)) as [|Hc]; [done|].
  destruct (decide (sl_len s = 0)) as [Hn|Hn].
  - destruct (make_slice _ _ _) as [m' s'] eqn:E.
    destruct (make_slice_spec _ _ _ _ _ (Nat.le_0_l _) E) as (? & ? & Hv).
    split; [done|]. split; [|done]. unfold contents; cbn [mem tasks]. rewrite Hv.
    symmetry. apply length_zero_iff_nil. rewrite (view_length _ _ Hok). done.
  - destruct (decide _) as [|Hf]; [done|].
    set (nc := _ `max` _). assert (Hnc : sl_len s ≤ nc) by (unfold nc; lia).
    destruct (make_slice (sl_len s) nc m) as [m' s'] eqn:E.
    destruct (make_slice_spec _ _ _ _ _ Hnc E) as (Hwf & Hcl & Hv).
    injection E as Em Es.
    assert (Hsl : sl_len s' = sl_len s) by (by rewrite <- Es).
    assert (Harr : sl_arr s' = length m) by (by rewrite <- Es).
    assert (Hne : sl_arr s' ≠ sl_arr s) by (pose proof (wf_slice_bound _ _ Hok); lia).
    assert (Hok' : wf_slice m' s) by (rewrite <- Em; by apply wf_slice_alloc).
    assert (Hvm : view m' s = view m s).
    { apply view_same_arr. rewrite <- Em. by apply arr_of_alloc. }
    destruct (copy_slice_spec _ _ _ Hwf Hok' Hne) as (_ & Hwf' & _ & _ & Hview).
    assert (Hvw : view (copy_slice m' s' s) s' = view m s).
    { rewrite Hview, Hvm, Hsl, (take_ge (view m s)) by (by rewrite view_length).
      rewrite (take_ge (view m s)), drop_ge by (rewrite ?Hv, ?length_replicate, ?view_length; done).
      apply app_nil_r. }
    split; [done|]. split; [done|].
    intros _ i x Hx Hout. cbn [mem tasks] in Hx.
    assert (Hof : sl_off s' = 0) by (by rewrite <- Es).
    cbn [mem tasks] in Hout. rewrite Hof, Hsl in Hout.
    unfold copy_slice, arr_of in Hx.
    rewrite list_lookup_insert_eq in Hx by (by apply (wf_slice_bound _ _ Hwf)).
    cbn [from_option id] in Hx.
    rewrite Hsl, Nat.min_id, Hof, take_0, app_nil_l, Hvm in Hx.
    rewrite take_ge in Hx by (by rewrite view_length).
    rewrite lookup_app_r, lookup_drop, view_length in Hx by (rewrite ?view_length; try done; lia).
    eapply (Hcl (0 + sl_len s + (i - sl_len s)) x Hx). rewrite Hof, Hsl. lia.
Qed.

(** After compaction either the array was kept, or it shrank to
    [max (c/2) 16] (the default capacity when empty), never below the size. *)
Lemma compact_cap q :
  fifo_ok q →
  let q' := maybeCompactLocked q in
  q' = q ∨ (sl_cap (tasks q') < sl_cap (tasks q) ∧ Len q ≤ sl_cap (tasks q')).
Proof.
  intros Hok. unfold maybeCompactLocked, Len. destruct q as [m s]; cbn [mem tasks].
  unfold compactMinCap, compactShrinkFactor, defaultQueueCap.
  destruct (decide _) as [|Hc]; [by left|].
  destruct (decide _) as [Hn|Hn].
  - right. cbn [make_slice tasks sl_cap]. lia.
  - destruct (decide _) as [|Hf]; [by left|]. right. cbn [make_slice tasks sl_cap].
    pose proof (Nat.div_lt (sl_cap s) 2 ltac:(lia) ltac:(lia)). lia.
Qed.

Lemma fifo_Pop_empty q : fifo_ok q → contents q = [] → Pop q = Ret (None, q).
Proof.
  intros Hok E. unfold Pop. destruct (decide _) as [|Hn]; [done|].
  pose proof (Len_contents q Hok) as HL. by rewrite E in HL.
Qed.

Lemma Pop_cons q x l :
  fifo_ok q → contents q = x :: l →
  ∃ q', Pop q = Ret (Some x, q') ∧ fifo_ok q' ∧ contents q' = l ∧
        (no_leak q → no_leak q').
Proof.
  intros Hok E. pose proof (Len_contents q Hok) as HL. rewrite E in HL.
  destruct q as [m s]. unfold fifo_ok, contents, no_leak, Len in *. cbn [mem tasks] in *.
  simpl in HL.
  unfold Pop; cbn [mem tasks]. destruct (decide (sl_len s = 0)) as [|Hn]; [lia|].
  rewrite (slice_get_spec _ _ _ x) by (by rewrite E). simpl.
  destruct (slice_set_spec m s 0 go_zero Hok) as (m' & E1 & Hwf1 & Hl1 & Ha1); [lia|].
  rewrite E1. simpl.
  pose proof Hok as (a & Ha & Hca & Hla).
  rewrite reslice_spec by lia. simpl. eexists; split; [done|].
  destruct (reslice_tail_view m' s 1 Hwf1 ltac:(lia)) as [Hwf2 Hv2].
  pose proof (view_set m m' s 0 go_zero Hok ltac:(lia) Ha1) as Hv1. rewrite E in Hv1.
  destruct (compact_spec (MkFIFO m' (Slice (sl_arr s) (sl_off s + 1) (sl_len s - 1) (sl_cap s - 1))) Hwf2)
    as (Hok3 & Hv3 & Hcl3).
  split; [exact Hok3|]. split.
  - unfold contents in Hv3. cbn [mem tasks] in Hv3. rewrite Hv3, Hv2, Hv1. done.
  - intros Hcl. apply Hcl3. intros i y Hy Hout. cbn [mem tasks sl_off sl_len] in *.
    change (arr_of m' _) with (arr_of m' s) in Hy. rewrite Ha1 in Hy.
    destruct (decide (i = sl_off s + 0)) as [->|Hi].
    + rewrite list_lookup_insert_eq in Hy; [by simplify_eq|].
      rewrite (arr_of_wf _ _ _ Ha). lia.
    + rewrite list_lookup_insert_ne in Hy by lia. apply (Hcl i y Hy). lia.
Qed.
End fifo_lemmas.

Section popupto_lemmas.
Context {T : Type} `{GoZero T}.
Implicit Types q : FIFOTaskQueue T.

Lemma PopUpTo_empty max q : fifo_ok q → contents q = [] → PopUpTo max q = Ret (None, q).
Proof.
  intros Hok E. unfold PopUpTo. pose proof (Len_contents q Hok) as HL.
  rewrite E in HL. unfold Len in HL. simpl in HL. by rewrite decide_True.
Qed.

Lemma PopUpTo_neg max q :
  fifo_ok q → contents q ≠ [] → (max < 0)%Z →
  PopUpTo max q = Panic "makeslice: len out of range".
Proof.
  intros Hok E Hm. unfold PopUpTo. pose proof (Len_contents q Hok) as HL. unfold Len in HL.
  destruct (contents q) eqn:Ec; [done|]. simpl in HL.
  rewrite decide_False, decide_False, decide_True by lia. done.
Qed.

(** The whole queue is taken: the batch is the queue's own array. *)
Lemma PopUpTo_all max q :
  fifo_ok q → contents q ≠ [] → (Z.of_nat (Len q) <= max)%Z →
  ∃ q', PopUpTo max q = Ret (Some (tasks q), q') ∧ fifo_ok q' ∧ contents q' = [] ∧
        mem q' = mem q ∧ tasks q' = Slice (sl_arr (tasks q)) (sl_off (tasks q)) 0 (sl_cap (tasks q)).
Proof.
  intros Hok E Hm. pose proof (Len_contents q Hok) as HL. unfold Len in *.
  destruct (contents q) eqn:Ec; [done|]. simpl in HL.
  unfold PopUpTo. rewrite decide_False, decide_True by lia.
  rewrite reslice_spec by lia. simpl. eexists; split; [done|].
  rewrite Nat.add_0_r, Nat.sub_0_r. cbn [mem tasks].
  destruct Hok as (a & Ha & Hca & Hla). split; [|done].
  exists a; simpl. split; [done|lia].
Qed.

(** Compaction never writes an existing array. *)
Lemma compact_frame q :
  fifo_ok q →
  (∀ k, k < length (mem q) → mem (maybeCompactLocked q) !! k = mem q !! k) ∧
  (sl_arr (tasks (maybeCompactLocked q)) = sl_arr (tasks q) ∨
   sl_arr (tasks (maybeCompactLocked q)) = length (mem q)).
Proof.
  intros Hok. unfold maybeCompactLocked. destruct q as [m s]. cbn [mem tasks].
  destruct (decide _); [by auto|]. destruct (decide _).
  - cbn [make_slice mem tasks sl_arr]. split; [|by right].
    intros k Hk. by rewrite lookup_app_l.
  - destruct (decide _); [by auto|]. cbn [make_slice mem tasks sl_arr]. split; [|by right].
    intros k Hk. unfold copy_slice; cbn [sl_arr].
    rewrite list_lookup_insert_ne by lia. by rewrite lookup_app_l.
Qed.

(** [batch := make([]TaskItem, k); copy(batch, q.tasks[:k])] *)
Lemma batch_copy (m : store (TaskItem T)) s k m1 b :
  wf_slice m s → k ≤ sl_len s → make_slice k k m = (m1, b) →
  let src := Slice (sl_arr s) (sl_off s) k (sl_cap s) in
  let m2 := copy_slice m1 b src in
  wf_slice m2 b ∧ wf_slice m2 s ∧ arr_of m2 s = arr_of m s ∧
  view m2 b = take k (view m s) ∧ sl_arr b = length m.
Proof.
  intros Hok Hk Emk src m2. pose proof Hok as (a & Ha & Hca & Hla).
  destruct (make_slice_spec _ _ _ _ _ (Nat.le_refl _) Emk) as (Hwfb & _ & Hvb).
  injection Emk as Em Eb.
  assert (Hbl : sl_len b = k) by (by rewrite <- Eb).
  assert (Hba : sl_arr b = length m) by (by rewrite <- Eb).
  pose proof (wf_slice_bound _ _ Hok) as Hsb.
  assert (Hok1 : wf_slice m1 s) by (rewrite <- Em; by apply wf_slice_alloc).
  assert (Ea1 : arr_of m1 s = arr_of m s) by (rewrite <- Em; by apply arr_of_alloc).
  assert (Hsrc : wf_slice m1 src).
  { destruct Hok1 as (a1 & Ha1 & ?). exists a1. simpl. split; [done|lia]. }
  assert (Hvsrc : view m1 src = take k (view m s)).
  { unfold view. change (arr_of m1 src) with (arr_of m1 s). rewrite Ea1, take_take.
    cbn [sl_len sl_off src]. f_equal. lia. }
  destruct (copy_slice_spec m1 b src Hwfb Hsrc ltac:(simpl; lia))
    as (_ & Hwfb2 & Hsrc2 & Ea2 & Hvb2).
  fold m2 in Hwfb2, Hsrc2, Ea2, Hvb2.
  change (arr_of m2 src) with (arr_of m2 s) in Ea2.
  change (arr_of m1 src) with (arr_of m1 s) in Ea2.
  split; [done|]. split.
  { destruct Hsrc2 as (a2 & Ha2 & _). exists a2. split; [done|].
    rewrite <- (arr_of_wf _ s _ Ha2), Ea2, Ea1, (arr_of_wf _ _ _ Ha). lia. }
  split; [by rewrite Ea2|]. split; [|done].
  rewrite Hvb2, Hvsrc, Hvb, Hbl. cbn [sl_len src].
  rewrite !take_take, !Nat.min_id, drop_ge by (rewrite length_replicate; lia).
  apply app_nil_r.
Qed.

(** Part of the queue is taken: the batch is copied to an array of its own. *)
Lemma PopUpTo_some max q :
  fifo_ok q → (0 <= max)%Z → (max < Z.of_nat (Len q))%Z →
  ∃ b q', PopUpTo max q = Ret (Some b, q') ∧ fifo_ok q' ∧
    wf_slice (mem q') b ∧ view (mem q') b = take (Z.to_nat max) (contents q) ∧
    sl_arr b ≠ sl_arr (tasks q') ∧
    contents q' = drop (Z.to_nat max) (contents q) ∧ (no_leak q → no_leak q').
Proof.
  intros Hok Hm0 Hm. set (k := Z.to_nat max).
  assert (Hk : k < Len q) by lia. destruct q as [m s].
  unfold fifo_ok, contents, no_leak, Len in *. cbn [mem tasks] in *.
  pose proof Hok as (a & Ha & Hca & Hla). pose proof (wf_slice_bound _ _ Hok) as Hsb.
  unfold PopUpTo; cbn [mem tasks]. rewrite !decide_False by lia. fold k.
  destruct (make_slice k k m) as [m1 b] eqn:Emk.
  destruct (batch_copy m s k m1 b Hok ltac:(lia) Emk) as (Hwfb & Hok2 & Ea2 & Hvb & Hba).
  rewrite (reslice_spec s 0 k) by lia. rewrite Nat.add_0_r, !Nat.sub_0_r. simpl.
  set (m2 := copy_slice m1 b _) in *.
  destruct (zero_prefix_spec m2 s k Hok2 ltac:(lia)) as (m3 & E3 & Hok3 & Hl3 & _ & Hz & Ho).
  rewrite E3. simpl. rewrite reslice_spec by lia. simpl.
  destruct (reslice_tail_view m3 s k Hok3 ltac:(lia)) as [Hwf4 Hv4].
  set (s4 := Slice _ _ (sl_len s - k) _) in *.
  destruct (compact_spec (MkFIFO m3 s4) Hwf4) as (Hok5 & Hv5 & Hcl5).
  destruct (compact_frame (MkFIFO m3 s4) Hwf4) as (Hfr & Harr).
  set (q' := maybeCompactLocked _) in *. cbn [mem tasks] in *.
  pose proof (wf_slice_bound _ _ Hwfb) as Hbb.
  assert (Hbq : mem q' !! sl_arr b = m2 !! sl_arr b)
    by (rewrite Hfr by lia; apply Ho; lia).
  exists b, q'. split; [done|]. split; [done|]. split.
  { destruct Hwfb as (ab & Hab & ?). exists ab. by rewrite Hbq. }
  split. { rewrite <- Hvb. apply view_same_arr. unfold arr_of. by rewrite Hbq. }
  split. { cbn [s4 sl_arr] in Harr. lia. }
  assert (Hv3 : ∀ i, k ≤ i → view m3 s !! i = view m s !! i).
  { intros i Hi. unfold view. rewrite !lookup_take, !lookup_drop.
    destruct (decide _); [|done]. rewrite Hz, Ea2. by rewrite decide_False by lia. }
  split.
  - unfold contents in Hv5. cbn [mem tasks] in Hv5. rewrite Hv5, Hv4.
    apply list_eq. intros i. rewrite !lookup_drop. apply Hv3. lia.
  - intros Hcl. apply Hcl5. intros i y Hy Hout. cbn [mem tasks s4 sl_off sl_len] in *.
    change (arr_of m3 s4) with (arr_of m3 s) in Hy. rewrite Hz, Ea2 in Hy.
    destruct (decide _); [by simplify_eq|]. apply (Hcl i y Hy). lia.
Qed.
End popupto_lemmas.

(** ** The interface laws *)

#[export] Instance FIFO_Laws `{GoZero T} (grow : nat → nat → nat) (Hg : grow_ok grow) :
  @TaskQueueLaws (FIFOTaskQueue T) T (FIFO_TaskQueue grow).
Proof.
  refine {| tq_ok := fifo_ok (T:=T); tq_items := contents (T:=T) |}; simpl.
  - apply fifo_New_spec.
  - apply fifo_New_spec.
  - intros id t tr q Hok. by apply fifo_Push_spec.
  - intros id t tr q Hok. destruct (fifo_Push_spec grow Hg id t tr q Hok) as (_ & -> & _).
    by rewrite Permutation_app_comm.
  - intros q Hok E. by apply fifo_Pop_empty.
  - intros q Hok E. destruct (contents q) as [|x l] eqn:Ec; [done|].
    destruct (Pop_cons q x l Hok Ec) as (q' & E1 & Hok' & E2 & _).
    exists x, q'. split; [done|]. split; [done|]. split; [by rewrite E2|].
    unfold PeekTraits. unfold contents in Ec. by rewrite Ec.
  - intros q Hok E. unfold PeekTraits. unfold contents in E. by rewrite E.
  - intros q Hok. symmetry. by apply Len_contents.
  - intros q Hok. destruct (compact_spec q Hok) as (? & ? & _). done.
  - intros q Hok. destruct (fifo_Clear_spec q) as (? & ? & _). done.
Defined.

(** ** Properties *)

#[export] Instance FIFO_Order `{GoZero T} (grow : nat → nat → nat) (Hg : grow_ok grow) :
  @FIFOOrder (FIFOTaskQueue T) T (FIFO_TaskQueue grow) (FIFO_Laws grow Hg).
Proof.
  split; simpl.
  - intros id t tr q Hok. by apply fifo_Push_spec.
  - intros q x l Hok E. destruct (Pop_cons q x l Hok E) as (q' & ? & ? & ? & _). by exists q'.
Qed.

Section fifo_theorems.
Context {T : Type} `{GoZero T} (growslice : nat → nat → nat).

(** One call on related states gives the same result and related states. *)
Lemma fifo_simulation (Hg : grow_ok growslice) op (q : FIFOTaskQueue T) l :
  fifo_rel q l → res_rel fifo_rel (exec growslice op q) (fifo_spec op l).
Proof.
  intros [Hok Hc]. pose proof (Len_contents q Hok) as HL. rewrite Hc in HL.
  destruct op as [id t tr| |max| | | | |]; simpl.
  - destruct (fifo_Push_spec growslice Hg id t tr q Hok) as (? & E & _).
    repeat split; [done|]. by rewrite E, Hc.
  - destruct l as [|x l].
    + by rewrite (fifo_Pop_empty q Hok Hc).
    + destruct (Pop_cons q x l Hok Hc) as (q' & -> & ? & ? & _). done.
  - destruct (decide (l = [])) as [->|Hne].
    + by rewrite (PopUpTo_empty max q Hok Hc).
    + destruct (decide (max < 0)%Z) as [Hm|Hm].
      { rewrite PopUpTo_neg; by rewrite ?Hc. }
      destruct (decide (Z.of_nat (Len q) <= max)%Z) as [Ha|Ha].
      * destruct (PopUpTo_all max q Hok) as (q' & -> & Hok' & Hc' & Hmem & _); [by rewrite Hc|done|].
        simpl. rewrite Hmem. change (view (mem q) (tasks q)) with (contents q).
        rewrite Hc, take_ge, drop_ge by lia. done.
      * destruct (PopUpTo_some max q Hok) as (b & q' & -> & Hok' & _ & Hv & _ & Hc' & _); [lia|lia|].
        simpl. rewrite Hv, Hc. split; [done|]. split; [done|]. by rewrite Hc', Hc.
  - unfold PeekTraits, contents in *. rewrite Hc. by destruct l.
  - by rewrite HL.
  - unfold IsEmpty. rewrite <- HL. split; [|done]. f_equal.
    apply bool_decide_ext. by rewrite length_zero_iff_nil.
  - destruct (compact_spec q Hok) as (? & E & _). split; [done|]. split; [done|].
    by rewrite <- Hc, <- E.
  - destruct (fifo_Clear_spec q) as (? & ? & _). done.
Qed.

(** C13. FIFOTaskQueue, with its slices, in-place appends, zeroing and compaction, answers
    every sequence of interface calls exactly as a list queue does (oldest item first),
    including the nil batch of an empty queue and the panic of PopUpTo on a negative limit. *)
Theorem FIFO_refines (Hg : grow_ok growslice) (ops : list (QOp T)) :
  run_ops (exec growslice) ops NewFIFOTaskQueue = run_ops fifo_spec ops [].
Proof.
  apply (run_ops_refines _ _ fifo_rel).
  - intros op q l HR. by apply fifo_simulation.
  - split; apply fifo_New_spec.
Qed.

(** Every call but a [PopUpTo] that takes the whole queue keeps the array
    free of references to tasks that left the queue. *)
Theorem FIFO_no_leak (Hg : grow_ok growslice) op (q q' : FIFOTaskQueue T) o :
  fifo_ok q → no_leak q →
  (∀ max, op = OpPopUpTo max → (max < Z.of_nat (Len q))%Z) →
  exec growslice op q = Ret (o, q') → fifo_ok q' ∧ no_leak q'.
Proof.
  intros Hok Hcl Hop E.
  destruct op as [id t tr| |max| | | | |]; simpl in E; try by simplify_eq.
  - simplify_eq. destruct (fifo_Push_spec growslice Hg id t tr q Hok) as (? & _ & ?). auto.
  - destruct (contents q) as [|x l] eqn:Ec.
    + rewrite (fifo_Pop_empty q Hok Ec) in E. by simplify_eq/=.
    + destruct (Pop_cons q x l Hok Ec) as (q1 & E1 & ? & _ & ?).
      rewrite E1 in E. simplify_eq/=. auto.
  - destruct (contents q) as [|x l] eqn:Ec.
    { rewrite (PopUpTo_empty max q Hok Ec) in E. by simplify_eq/=. }
    destruct (decide (max < 0)%Z) as [Hm|Hm].
    { rewrite PopUpTo_neg in E; [done|done|by rewrite Ec|done]. }
    destruct (PopUpTo_some max q Hok) as (b & q1 & E1 & ? & _ & _ & _ & _ & ?); [lia|by apply Hop|].
    rewrite E1 in E. simplify_eq/=. auto.
  - simplify_eq. destruct (compact_spec q Hok) as (? & _ & ?). auto.
  - simplify_eq. destruct (fifo_Clear_spec q) as (? & _ & ?). auto.
Qed.

(** The batch of a [PopUpTo] that empties the queue shares the queue's
    array: the next [Push] overwrites its first element. *)
Theorem PopUpTo_batch_clobbered max (q : FIFOTaskQueue T) x l id t tr :
  fifo_ok q → contents q = x :: l → (Z.of_nat (Len q) <= max)%Z →
  ∃ b q', PopUpTo max q = Ret (Some b, q') ∧ view (mem q') b = x :: l ∧
    view (mem (PushWithID growslice id t tr q')) b = MkTaskItem t tr id :: l.
Proof.
  intros Hok Hc Hm. pose proof (Len_contents q Hok) as HL. rewrite Hc in HL. unfold Len in HL.
  destruct (PopUpTo_all max q Hok) as (q' & E & Hok' & Hc' & Hmem & Ht); [by rewrite Hc|done|].
  exists (tasks q), q'. rewrite Hmem. split; [done|]. split; [done|].
  unfold PushWithID, append1. rewrite Ht. cbn [sl_len sl_cap sl_arr sl_off].
  pose proof Hok as (a & Ha & Hca & Hla). simpl in HL.
  rewrite decide_True by lia. cbn [mem]. rewrite Hmem.
  change (arr_of (mem q) _) with (arr_of (mem q) (tasks q)).
  rewrite (view_set (mem q) _ (tasks q) 0 (MkTaskItem t tr id) Hok ltac:(lia)).
  - unfold contents in Hc. by rewrite Hc.
  - unfold arr_of at 1. rewrite list_lookup_insert_eq by (by apply wf_slice_bound). done.
Qed.
End fifo_theorems.

(** ** Witnesses *)

Definition demo_ops : list (QOp nat) :=
  [OpPush 7%N 1 DefaultTaskTraits; OpPush 8%N 2 TraitsUserBlocking; OpLen; OpPop;
   OpPush 9%N 3 TraitsBestEffort; OpPopUpTo 1; OpPeekTraits; OpPopUpTo 5; OpPop; OpPopUpTo 3].

Lemma FIFO_refines_witness :
  run_ops (exec grow_double) demo_ops NewFIFOTaskQueue = run_ops fifo_spec demo_ops [] ∧
  run_ops fifo_spec demo_ops [] =
    Ret [OutID 7%N; OutID 8%N; OutLen 2;
         OutItem (Some (MkTaskItem 1 DefaultTaskTraits 7%N)); OutID 9%N;
         OutBatch (Some [MkTaskItem 2 TraitsUserBlocking 8%N]); OutTraits (Some TraitsBestEffort);
         OutBatch (Some [MkTaskItem 3 TraitsBestEffort 9%N]); OutItem None; OutBatch None].
Proof. split; [exact (FIFO_refines grow_double grow_double_ok demo_ops) | vm_compute; reflexivity]. Defined.
