(* ===== verification/PriorityQueue.v ===== *)
(** * PriorityTaskQueue (core/queue.go, lines 165-331)

    A binary heap ordered by decreasing priority, then by increasing sequence
    number.  [sequence] and [nextSequence] are uint64 values kept in [Z]. *)

From S2P Require Import Prelude GoSlice GoHeap Task TaskQueue.

Section priority_queue.
Context {T : Type} `{GoZero T}.

(** [priorityItem]; its [index] field is the one of [indexed]. *)
Record priorityItem := MkPriorityItem { pi_item : TaskItem T; sequence : Z }.

Definition prio (x : priorityItem) : Z := Priority (item_Traits (pi_item x)).

(** [priorityHeap.Less] *)
Definition Less (x y : priorityItem) : bool :=
  if (prio x >? prio y)%Z then true
  else if (prio x <? prio y)%Z then false
  else (sequence x <? sequence y)%Z.

Record PriorityTaskQueue := MkPQ { pq : list (indexed priorityItem); nextSequence : Z }.

Definition NewPriorityTaskQueue : PriorityTaskQueue := MkPQ [] 0.

Definition PushWithID (id : TaskID) (t : T) (traits : TaskTraits) (q : PriorityTaskQueue)
  : PriorityTaskQueue :=
  let nextSequence :=
    if (nextSequence q =? MaxUint64)%Z then
      if decide (length (pq q) = 0) then 0%Z else nextSequence q
    else nextSequence q in
  let item := MkPriorityItem (MkTaskItem t traits id) nextSequence in
  MkPQ (heap_Push Less item (pq q)) (wrap_uint64 (nextSequence + 1)).

Definition Pop (q : PriorityTaskQueue) : go (option (TaskItem T) * PriorityTaskQueue) :=
  if decide (length (pq q) = 0) then Ret (None, q)
  else
    match heap_Pop Less (pq q) with
    | Some (item, h) => Ret (Some (pi_item (payload item)), MkPQ h (nextSequence q))
    | None => Panic "index out of range"
    end.

(** [for i := 0; i < count; i++ { batch[i] = heap.Pop(...) }] *)
Fixpoint pop_loop (count : nat) (h : list (indexed priorityItem))
  : go (list (TaskItem T) * list (indexed priorityItem)) :=
  match count with
  | 0 => Ret ([], h)
  | S count =>
      match heap_Pop Less h with
      | Some (item, h) =>
          '(batch, h) ← pop_loop count h;
          Ret (pi_item (payload item) :: batch, h)
      | None => Panic "index out of range"
      end
  end.

Definition PopUpTo (max : Z) (q : PriorityTaskQueue)
  : go (option (list (TaskItem T)) * PriorityTaskQueue) :=
  let count := Z.of_nat (length (pq q)) in
  if decide (count = 0%Z) then Ret (None, q)
  else
    let count := if decide (count > max)%Z then max else count in
    if decide (count < 0)%Z then Panic "makeslice: len out of range"
    else
      '(batch, h) ← pop_loop (Z.to_nat count) (pq q);
      Ret (Some batch, MkPQ h (nextSequence q)).

Definition PeekTraits (q : PriorityTaskQueue) : option TaskTraits :=
  (λ x, item_Traits (pi_item (payload x))) <$> pq q !! 0.

Definition Len (q : PriorityTaskQueue) : nat := length (pq q).
Definition IsEmpty (q : PriorityTaskQueue) : bool := bool_decide (Len q = 0).
Definition MaybeCompact (q : PriorityTaskQueue) : PriorityTaskQueue := q.
Definition Clear (q : PriorityTaskQueue) : PriorityTaskQueue := MkPQ (heap_Init Less []) 0.

#[export] Instance PQ_TaskQueue : TaskQueue PriorityTaskQueue T := {|
  tq_new := NewPriorityTaskQueue;
  tq_PushWithID := PushWithID;
  tq_Pop := Pop;
  tq_PeekTraits := PeekTraits;
  tq_Len := Len;
  tq_MaybeCompact := MaybeCompact;
  tq_Clear := Clear;
|}.

(** *** Specification *)

Definition pq_ok (q : PriorityTaskQueue) : Prop := heap_ok Less (pq q) ∧ idx_ok (pq q).
Definition pq_items (q : PriorityTaskQueue) : list (TaskItem T) := pi_item <$> vals (pq q).

Definition exec (op : QOp T) (q : PriorityTaskQueue) : go (QOut T * PriorityTaskQueue) :=
  match op with
  | OpPush id t tr => Ret (OutID id, PushWithID id t tr q)
  | OpPop => '(it, q') ← Pop q; Ret (OutItem it, q')
  | OpPopUpTo max => '(b, q') ← PopUpTo max q; Ret (OutBatch b, q')
  | OpPeekTraits => Ret (OutTraits (PeekTraits q), q)
  | OpLen => Ret (OutLen (Len q), q)
  | OpIsEmpty => Ret (OutBool (IsEmpty q), q)
  | OpMaybeCompact => Ret (OutUnit, MaybeCompact q)
  | OpClear => Ret (OutUnit, Clear q)
  end.

(** The reference queue is the list of items in arrival order; an item is
    removed by choosing the oldest one among those of highest priority. *)
Definition item_prio (x : TaskItem T) : Z := Priority (item_Traits x).

Fixpoint pick (l : list (TaskItem T)) : option (TaskItem T * list (TaskItem T)) :=
  match l with
  | [] => None
  | x :: l =>
      match pick l with
      | Some (y, l') => if decide (item_prio x < item_prio y)%Z then Some (y, x :: l')
                        else Some (x, l)
      | None => Some (x, l)
      end
  end.

Fixpoint pick_n (n : nat) (l : list (TaskItem T)) : list (TaskItem T) * list (TaskItem T) :=
  match n with
  | 0 => ([], l)
  | S n =>
      match pick l with
      | Some (x, l') => let '(b, r) := pick_n n l' in (x :: b, r)
      | None => ([], l)
      end
  end.

Definition prio_spec (op : QOp T) (l : list (TaskItem T)) : go (QOut T * list (TaskItem T)) :=
  match op with
  | OpPush id t tr => Ret (OutID id, l ++ [MkTaskItem t tr id])
  | OpPop =>
      match pick l with
      | Some (x, l') => Ret (OutItem (Some x), l')
      | None => Ret (OutItem None, l)
      end
  | OpPopUpTo max =>
      if decide (l = []) then Ret (OutBatch None, l)
      else if decide (max < 0)%Z then Panic "makeslice: len out of range"
      else let '(b, r) := pick_n (length l `min` Z.to_nat max) l in Ret (OutBatch (Some b), r)
  | OpPeekTraits => Ret (OutTraits ((λ p, item_Traits p.1) <$> pick l), l)
  | OpLen => Ret (OutLen (length l), l)
  | OpIsEmpty => Ret (OutBool (bool_decide (l = [])), l)
  | OpMaybeCompact => Ret (OutUnit, l)
  | OpClear => Ret (OutUnit, [])
  end.

(** The heap holds the reference list, annotated with increasing sequence
    numbers below [nextSequence]; [n] more pushes do not overflow it. *)
Definition pq_rel (n : nat) (q : PriorityTaskQueue) (l : list (TaskItem T)) : Prop :=
  pq_ok q ∧ (0 <= nextSequence q)%Z ∧ (nextSequence q + Z.of_nat n <= MaxUint64)%Z ∧
  ∃ al, pi_item <$> al = l ∧ vals (pq q) ≡ₚ al ∧
    StronglySorted (λ x y, sequence x < sequence y)%Z al ∧
    Forall (λ x, sequence x < nextSequence q)%Z al.
End priority_queue.
Arguments priorityItem T : clear implicits.
Arguments PriorityTaskQueue T : clear implicits.

(** ** Lemmas *)

#[export] Instance Less_laws {T} : LessLaws (Less (T:=T)).
Proof.
  split; unfold le, Less; intros x y; rewrite ?Z.gtb_ltb.
  - destruct (Z.ltb_spec (prio y) (prio x)), (Z.ltb_spec (prio x) (prio y)); try done; try lia;
    destruct (Z.ltb_spec (sequence x) (sequence y)), (Z.ltb_spec (sequence y) (sequence x));
      try done; lia.
  - intros z. rewrite !Z.gtb_ltb.
    destruct (Z.ltb_spec (prio y) (prio x)), (Z.ltb_spec (prio x) (prio y)),
      (Z.ltb_spec (prio z) (prio y)), (Z.ltb_spec (prio y) (prio z)),
      (Z.ltb_spec (prio z) (prio x)), (Z.ltb_spec (prio x) (prio z)); try done; try lia;
    destruct (Z.ltb_spec (sequence y) (sequence x)), (Z.ltb_spec (sequence z) (sequence y)),
      (Z.ltb_spec (sequence z) (sequence x)); try done; lia.
Qed.

Section priority_lemmas.
Context {T : Type} `{GoZero T}.
Implicit Types q : PriorityTaskQueue T.

(** The order of the heap, spelled out. *)
Lemma pq_le_spec (x y : priorityItem T) :
  le Less x y ↔ (prio y < prio x ∨ prio y = prio x ∧ sequence x <= sequence y)%Z.
Proof.
  unfold le, Less. rewrite Z.gtb_ltb.
  destruct (Z.ltb_spec (prio x) (prio y)), (Z.ltb_spec (prio y) (prio x));
    try (split; [done|lia]); try (split; [lia|done]).
  destruct (Z.ltb_spec (sequence y) (sequence x)); split; try done; lia.
Qed.

Lemma pq_New_ok : pq_ok (NewPriorityTaskQueue (T:=T)).
Proof. apply heap_empty_ok. Qed.

Lemma pq_Clear_ok q : pq_ok (Clear q).
Proof. apply heap_empty_ok. Qed.

Lemma pq_Push_ok id t tr q :
  pq_ok q → pq_ok (PushWithID id t tr q) ∧
  pq_items (PushWithID id t tr q) ≡ₚ MkTaskItem t tr id :: pq_items q.
Proof.
  intros [Hh Hi]. unfold PushWithID, pq_items, pq_ok. cbn [pq].
  edestruct (heap_Push_ok (Less (T:=T))) as (? & ? & Hp & _); [done|done|].
  split; [done|]. by rewrite Hp.
Qed.

Lemma pq_Pop_empty q : pq q = [] → Pop q = Ret (None, q).
Proof. intros E. unfold Pop. by rewrite E. Qed.

(** A non-empty queue gives up the item at the root. *)
Lemma pq_Pop_root q :
  pq_ok q → pq q ≠ [] →
  ∃ x q', Pop q = Ret (Some (pi_item x), q') ∧ pq_ok q' ∧
    vals (pq q) ≡ₚ x :: vals (pq q') ∧ Forall (le Less x) (vals (pq q')) ∧
    nextSequence q' = nextSequence q ∧ PeekTraits q = Some (item_Traits (pi_item x)) ∧
    heap_Pop Less (pq q) = Some (MkIndexed (-1) x, pq q').
Proof.
  intros [Hh Hi] Hne. destruct (length (pq q)) as [|n] eqn:Hl.
  { by apply length_zero_iff_nil in Hl. }
  destruct (heap_Pop_ok Less (pq q) n Hh Hi Hl) as (x & h' & E & Hx & Hp & Hh' & Hi' & _).
  exists x, (MkPQ h' (nextSequence q)). unfold Pop. rewrite decide_False by lia. rewrite E.
  split; [done|]. split; [done|]. split; [done|].
  split; [by eapply (heap_Pop_min Less); [| |exact Hl|]|].
  split; [done|]. split; [|done].
  unfold PeekTraits. unfold val_at in Hx. destruct (pq q !! 0) as [z|]; by simplify_eq/=.
Qed.

Lemma pq_items_nil q : pq_items q = [] ↔ pq q = [].
Proof. unfold pq_items, vals. by destruct (pq q). Qed.

Lemma length_pq_items q : length (pq_items q) = length (pq q).
Proof. unfold pq_items. by rewrite length_fmap, length_vals. Qed.

(** *** The reference discipline *)

Lemma pick_None (l : list (TaskItem T)) : pick l = None ↔ l = [].
Proof.
  destruct l as [|x l]; [done|]. simpl.
  destruct (pick l) as [[y l']|]; [destruct (decide _)|]; done.
Qed.

(** [pick] takes the first item no later one beats and every earlier one
    loses to. *)
Lemma pick_split (l1 l2 : list (TaskItem T)) x :
  Forall (λ y, item_prio y < item_prio x)%Z l1 →
  Forall (λ y, item_prio y <= item_prio x)%Z l2 →
  pick (l1 ++ x :: l2) = Some (x, l1 ++ l2).
Proof.
  intros H1 H2. induction H1 as [|z l1 Hz _ IH]; simpl.
  - destruct (pick l2) as [[y l']|] eqn:E; [|done].
    assert (Hy : y ∈ l2).
    { clear H2 x. revert y l' E. induction l2 as [|z l2 IH]; intros y l' E; [done|].
      simpl in E. destruct (pick l2) as [[w k]|]; [|simplify_eq; by left].
      destruct (decide _); simplify_eq; [right; by eapply IH|by left]. }
    rewrite Forall_forall in H2. specialize (H2 y Hy). by rewrite decide_False by lia.
  - rewrite IH. by rewrite decide_True.
Qed.

(** Removing the root of the heap is [pick] on the arrival-ordered list. *)
Lemma pop_pick (al : list (priorityItem T)) x rest :
  StronglySorted (λ x y, sequence x < sequence y)%Z al →
  al ≡ₚ x :: rest → Forall (le Less x) rest →
  ∃ al', pick (pi_item <$> al) = Some (pi_item x, pi_item <$> al') ∧ rest ≡ₚ al' ∧
    StronglySorted (λ x y, sequence x < sequence y)%Z al' ∧ (∀ y, y ∈ al' → y ∈ al).
Proof.
  intros Hs Hp Hmin.
  assert (Hx : x ∈ al) by (rewrite Hp; by left).
  apply list_elem_of_split in Hx as (l1 & l2 & ->).
  assert (Hrest : rest ≡ₚ l1 ++ l2).
  { rewrite <- Permutation_middle in Hp. by apply Permutation_cons_inv in Hp. }
  assert (Hle : ∀ y, y ∈ l1 ++ l2 → le Less x y).
  { intros y Hy. rewrite Forall_forall in Hmin. apply Hmin. by rewrite Hrest. }
  exists (l1 ++ l2). split.
  - rewrite !fmap_app. simpl. apply pick_split; apply Forall_fmap, Forall_forall; intros y Hy; simpl.
    + specialize (Hle y ltac:(set_solver)). apply pq_le_spec in Hle.
      assert (Hlt : (sequence y < sequence x)%Z).
      { eapply (StronglySorted_app_1_elem_of _ l1 (x :: l2) y x Hs); [done|by left]. }
      unfold prio, item_prio in *. lia.
    + specialize (Hle y ltac:(set_solver)). apply pq_le_spec in Hle. unfold prio, item_prio in *. lia.
  - split; [done|]. split; [|set_solver].
    rewrite StronglySorted_app, StronglySorted_cons in Hs. rewrite StronglySorted_app.
    destruct Hs as (Hs1 & Hs2 & Hs3 & Hs4). split; [set_solver|by split].
Qed.
End priority_lemmas.

(** ** The interface laws *)

#[export] Instance PQ_Laws `{GoZero T} : TaskQueueLaws (PriorityTaskQueue T) T.
Proof.
  refine {| tq_ok := pq_ok (T:=T); tq_items := pq_items (T:=T) |}; simpl.
  - apply pq_New_ok.
  - done.
  - intros id t tr q Hok. by apply pq_Push_ok.
  - intros id t tr q Hok. by apply pq_Push_ok.
  - intros q Hok E. by apply pq_Pop_empty, pq_items_nil.
  - intros q Hok E. rewrite pq_items_nil in E.
    destruct (pq_Pop_root q Hok E) as (x & q' & E1 & Hok' & Hp & _ & _ & Hpk & _).
    exists (pi_item x), q'. unfold pq_items. rewrite Hp. done.
  - intros q Hok E. apply pq_items_nil in E. unfold PeekTraits. by rewrite E.
  - intros q Hok. by rewrite length_pq_items.
  - done.
  - intros q Hok. split; [apply pq_Clear_ok|done].
Defined.

(** ** Properties *)

Section priority_theorems.
Context {T : Type} `{GoZero T}.

(** [Pop] takes the highest priority and, among equals, the oldest item. *)
Theorem PQ_Pop_max (q : PriorityTaskQueue T) it q' :
  pq_ok q → Pop q = Ret (Some it, q') →
  pq_ok q' ∧ pq_items q ≡ₚ it :: pq_items q' ∧
  PeekTraits q = Some (item_Traits it) ∧
  Forall (λ y, item_prio y <= item_prio it)%Z (pq_items q').
Proof.
  intros Hok E. destruct (decide (pq q = [])) as [Hn|Hn].
  { rewrite (pq_Pop_empty q Hn) in E. done. }
  destruct (pq_Pop_root q Hok Hn) as (x & q1 & E1 & Hok' & Hp & Hmin & _ & Hpk & _).
  rewrite E1 in E. simplify_eq. split; [done|]. split; [by unfold pq_items; rewrite Hp|].
  split; [done|]. unfold pq_items. apply Forall_fmap. eapply Forall_impl; [done|].
  intros y Hy. apply pq_le_spec in Hy. unfold prio, item_prio in *. simpl. lia.
Qed.

(** One removal, on related states. *)
Lemma pq_pop_sim n (q : PriorityTaskQueue T) l :
  pq_rel n q l → pq q ≠ [] →
  ∃ x q' l', heap_Pop Less (pq q) = Some (MkIndexed (-1) x, pq q') ∧
    Pop q = Ret (Some (pi_item x), q') ∧ nextSequence q' = nextSequence q ∧
    pick l = Some (pi_item x, l') ∧ PeekTraits q = Some (item_Traits (pi_item x)) ∧
    pq_rel n q' l' ∧ length (pq q) = S (length (pq q')).
Proof.
  intros (Hok & Hn0 & Hn & al & <- & Hp & Hs & Hf) Hne.
  destruct (pq_Pop_root q Hok Hne) as (x & q' & E & Hok' & Hp' & Hmin & Hns & Hpk & Eh).
  destruct (pop_pick al x (vals (pq q')) Hs) as (al' & Epick & Hpa & Hs' & Hin).
  { by rewrite <- Hp, Hp'. } { done. }
  exists x, q', (pi_item <$> al'). split; [done|]. split; [done|]. split; [done|].
  split; [done|]. split; [done|]. split.
  - split; [done|]. rewrite Hns. split; [done|]. split; [done|].
    exists al'. split; [done|]. split; [done|]. split; [done|].
    rewrite Forall_forall in Hf. apply Forall_forall. auto.
  - apply Permutation_length in Hp'. simpl in Hp'. by rewrite !length_vals in Hp'.
Qed.

Lemma pq_rel_length n (q : PriorityTaskQueue T) l : pq_rel n q l → length (pq q) = length l.
Proof.
  intros (_ & _ & _ & al & <- & Hp & _). apply Permutation_length in Hp.
  by rewrite length_vals in Hp; rewrite length_fmap.
Qed.

(** The batch loop takes the [k] items [k] reference removals take. *)
Lemma pop_loop_sim k n (q : PriorityTaskQueue T) l :
  pq_rel n q l → k ≤ length (pq q) →
  ∃ q', pop_loop k (pq q) = Ret ((pick_n k l).1, pq q') ∧
    nextSequence q' = nextSequence q ∧ pq_rel n q' (pick_n k l).2.
Proof.
  revert q l; induction k as [|k IH]; intros q l HR Hk; [by exists q|].
  destruct (pq_pop_sim n q l HR) as (x & q1 & l1 & E & _ & Hns & Epk & _ & HR1 & Hlen).
  { intros E. rewrite E in Hk. simpl in Hk. lia. }
  destruct (IH q1 l1 HR1 ltac:(lia)) as (q' & E' & Hns' & HR').
  exists q'. cbn [pop_loop pick_n]. rewrite E, Epk. simpl. rewrite E'. simpl.
  destruct (pick_n k l1) as [b r]. split; [done|]. split; [congruence|done].
Qed.

Lemma pq_rel_weaken n m (q : PriorityTaskQueue T) l : m ≤ n → pq_rel n q l → pq_rel m q l.
Proof. intros Hm (? & ? & ? & ?). split; [done|]. split; [done|]. split; [lia|done]. Qed.

Lemma pq_push_sim n id t tr (q : PriorityTaskQueue T) l :
  pq_rel (S n) q l → pq_rel n (PushWithID id t tr q) (l ++ [MkTaskItem t tr id]).
Proof.
  intros (Hok & Hn0 & Hn & al & <- & Hp & Hs & Hf).
  destruct (pq_Push_ok id t tr q Hok) as [Hok' _].
  assert (Hlt : (nextSequence q < MaxUint64)%Z) by lia.
  assert (Hns : nextSequence (PushWithID id t tr q) = (nextSequence q + 1)%Z).
  { unfold PushWithID. cbn [nextSequence].
    rewrite (proj2 (Z.eqb_neq (nextSequence q) MaxUint64)) by lia. apply wrap_uint64_id. lia. }
  split; [done|]. rewrite Hns. split; [lia|]. split; [lia|].
  exists (al ++ [MkPriorityItem (MkTaskItem t tr id) (nextSequence q)]).
  rewrite fmap_app. split; [done|].
  rewrite Forall_forall in Hf. split; [|split].
  - unfold PushWithID. cbn [pq].
    rewrite (proj2 (Z.eqb_neq (nextSequence q) MaxUint64)) by lia.
    destruct Hok as [Hh Hi].
    destruct (heap_Push_ok Less (MkPriorityItem (MkTaskItem t tr id) (nextSequence q)) (pq q) Hh Hi)
      as (_ & _ & -> & _). rewrite Hp. by rewrite Permutation_cons_append.
  - apply StronglySorted_app_2; [|done|repeat constructor].
    intros x y Hx Hy. apply list_elem_of_singleton in Hy as ->. simpl. auto.
  - rewrite Forall_app, Forall_singleton. simpl. split; [|lia].
    apply Forall_forall. intros x Hx. specialize (Hf x Hx). simpl in Hf. lia.
Qed.

Lemma pq_simulation n op (q : PriorityTaskQueue T) l :
  pq_rel (S n) q l → res_rel (pq_rel n) (exec op q) (prio_spec op l).
Proof.
  intros HR. pose proof (pq_rel_length _ _ _ HR) as HL.
  pose proof (pq_rel_weaken (S n) n q l (Nat.le_succ_diag_r n) HR) as HR'.
  assert (Hnil : pq q = [] ↔ l = []) by (rewrite <- !length_zero_iff_nil; lia).
  destruct op as [id t tr| |max| | | | |]; cbn [exec prio_spec].
  - split; [done|]. by apply pq_push_sim.
  - destruct (decide (pq q = [])) as [E|E].
    + rewrite (pq_Pop_empty q E). apply Hnil in E as ->. done.
    + destruct (pq_pop_sim n q l HR' E) as (x & q1 & l1 & _ & E1 & _ & Epk & _ & HR1 & _).
      rewrite E1, Epk. done.
  - unfold PopUpTo. cbv zeta. destruct (decide (l = [])) as [->|E].
    { rewrite decide_True by (simpl in HL; lia). done. }
    assert (Hpos : 0 < length l) by (destruct l; [done|simpl; lia]).
    rewrite decide_False by lia. destruct (decide (max < 0)%Z) as [Hm|Hm].
    { rewrite (decide_True (P:=(_ > max)%Z)), decide_True by lia. done. }
    rewrite (decide_False (P:=(_ < 0)%Z)) by (destruct (decide _); lia).
    replace (Z.to_nat _) with (length l `min` Z.to_nat max) by (destruct (decide _); lia).
    destruct (pop_loop_sim (length l `min` Z.to_nat max) n q l HR' ltac:(lia)) as (q' & -> & Hns & HRq).
    simpl. destruct (pick_n _ l) as [b r]. simpl. split; [done|].
    destruct q' as [h ns]. simpl in *. by rewrite <- Hns.
  - split; [|done]. destruct (decide (pq q = [])) as [E|E].
    + unfold PeekTraits. rewrite E. apply Hnil in E as ->. done.
    + destruct (pq_pop_sim n q l HR' E) as (x & q1 & l1 & _ & _ & _ & Epk & Hpk & _).
      by rewrite Hpk, Epk.
  - split; [|done]. unfold Len. by rewrite HL.
  - split; [|done]. f_equal. unfold IsEmpty, Len. apply bool_decide_ext.
    by rewrite HL, length_zero_iff_nil.
  - done.
  - split; [done|]. destruct HR' as (? & ? & ? & _). split; [apply pq_Clear_ok|]. simpl.
    split; [done|]. split; [unfold MaxUint64 in *; lia|]. exists []. repeat split; constructor.
Qed.

(** C16. PriorityTaskQueue, a binary heap with sequence numbers, answers every sequence of at
    most 2^64-1 interface calls as the specification does that always takes the highest
    priority and, among equals, the oldest item. (After that many pushes the sequence number
    wraps and the order among equals is no longer promised.) *)
Theorem PQ_refines (ops : list (QOp T)) :
  (Z.of_nat (length ops) <= MaxUint64)%Z →
  run_ops exec ops NewPriorityTaskQueue = run_ops prio_spec ops [].
Proof.
  intros Hn. apply (run_ops_refines_n _ _ pq_rel).
  - intros n op q l HR. by apply pq_simulation.
  - split; [apply pq_New_ok|]. simpl. split; [done|]. split; [lia|].
    exists []. repeat split; constructor.
Qed.
End priority_theorems.

(** ** Witnesses *)

Definition demo_ops : list (QOp nat) :=
  [OpPush 1%N 10 TraitsBestEffort; OpPush 2%N 11 TraitsUserVisible;
   OpPush 3%N 12 TraitsUserBlocking; OpPush 4%N 13 TraitsUserVisible; OpPeekTraits;
   OpPop; OpPopUpTo 2; OpLen; OpPop; OpPop].

Lemma PQ_refines_witness :
  run_ops exec demo_ops NewPriorityTaskQueue = run_ops prio_spec demo_ops [] ∧
  run_ops prio_spec demo_ops [] =
    Ret [OutID 1%N; OutID 2%N; OutID 3%N; OutID 4%N; OutTraits (Some TraitsUserBlocking);
         OutItem (Some (MkTaskItem 12 TraitsUserBlocking 3%N));
         OutBatch (Some [MkTaskItem 11 TraitsUserVisible 2%N; MkTaskItem 13 TraitsUserVisible 4%N]);
         OutLen 1; OutItem (Some (MkTaskItem 10 TraitsBestEffort 1%N)); OutItem None].
Proof.
  split; [apply (PQ_refines demo_ops); vm_compute; discriminate | vm_compute; reflexivity].
Defined.
