(* ===== verification/DelayManager.v ===== *)
(** * DelayManager (core/delay_manager.go)

    Delayed tasks wait in a heap ordered by due time; one goroutine sleeps
    until the earliest one and posts the expired ones to their runners.  Times
    are nanoseconds in [Z].  The critical sections are functions; their
    interleaving with the clock, with callers of [AddDelayedTask] and with
    [Stop] is the step function [step]. *)

From S2P Require Import Prelude GoSlice GoHeap Task.

Section delay_manager.
Context {T R : Type}.

(** [DelayedTask]; [index] is the one of [indexed].  [dt_ptr] is the address
    of the object: Go's [item.index] reads through the pointer. *)
Record DelayedTask := MkDelayedTask {
  dt_ptr : nat;
  RunAt : Z;
  dt_Task : T;
  dt_Traits : TaskTraits;
  dt_Target : R;
}.

(** [h[i].RunAt.Before(h[j].RunAt)] *)
Definition Less (x y : DelayedTask) : bool := (RunAt x <? RunAt y)%Z.

Definition Peek (h : list (indexed DelayedTask)) : option DelayedTask := payload <$> h !! 0.

(** The [index] field of the object at address [p]; -1 outside the heap. *)
Definition index_of (p : nat) (h : list (indexed DelayedTask)) : Z :=
  match list_find (λ x, dt_ptr (payload x) = p) h with
  | Some (_, x) => index x
  | None => -1
  end.

Inductive delayNextRunState := delayStateEmpty | delayStateExpiredNow | delayStateFuture.

(** [calculateNextRun] at time [now]. *)
Definition calculateNextRun (now : Z) (h : list (indexed DelayedTask))
  : Z * delayNextRunState :=
  match Peek h with
  | None => (0%Z, delayStateEmpty)
  | Some item =>
      if (now <? RunAt item)%Z then ((RunAt item - now)%Z, delayStateFuture)
      else (0%Z, delayStateExpiredNow)
  end.

(** The collecting loop of [processExpiredTasks]; every round pops one
    element, [length h] rounds suffice. *)
Fixpoint collect (fuel : nat) (now : Z) (h : list (indexed DelayedTask))
  : list DelayedTask * list (indexed DelayedTask) :=
  match fuel with
  | 0 => ([], h)
  | S fuel =>
      match Peek h with
      | None => ([], h)
      | Some item =>
          if (now <? RunAt item)%Z then ([], h)
          else
            match heap_Pop Less h with
            | Some (_, h') => let '(expired, h'') := collect fuel now h' in (item :: expired, h'')
            | None => ([], h)
            end
      end
  end.
Definition processExpired (now : Z) (h : list (indexed DelayedTask))
  : list DelayedTask * list (indexed DelayedTask) :=
  collect (length h) now h.

(** Where the goroutine running [loop] is.  [armed] and the times are ghost:
    the due time the sleep was computed for and when it was computed. *)
Inductive LoopPc :=
| LTop                                       (** before [calculateNextRun] *)
| LProcess                                   (** before [processExpiredTasks] *)
| LPost (expired : list DelayedTask)         (** posting, outside the lock *)
| LArm (nextRun : Z) (armed : option Z) (t_calc : Z) (** before [timer.Reset] *)
| LSelect (armed : option Z) (lag : Z)       (** blocked in [select] *)
| LDone.                                     (** [done] is closed *)

Inductive StopPc := StopNotCalled | StopWaiting | StopReturned.

Record DelayManager := MkDM {
  now : Z;
  pq : list (indexed DelayedTask);
  next_ptr : nat;
  wakeup : bool;            (** the channel of capacity 1 holds a token *)
  cancelled : bool;         (** [ctx.Done()] is closed *)
  timer : option Z;         (** when the armed timer fires *)
  loop : LoopPc;
  stop : StopPc;
  added : list DelayedTask;           (** history: accepted tasks *)
  posted : list (Z * DelayedTask);    (** history: when each was posted *)
  dropped : list DelayedTask;         (** history: cleared by [Stop] *)
}.

Definition NewDelayManager (t0 : Z) : DelayManager :=
  MkDM t0 (heap_Init Less []) 0 false false None LTop StopNotCalled [] [] [].

Definition upd_pq h dm := MkDM (now dm) h (next_ptr dm) (wakeup dm) (cancelled dm) (timer dm)
  (loop dm) (stop dm) (added dm) (posted dm) (dropped dm).
Definition upd_loop pc dm := MkDM (now dm) (pq dm) (next_ptr dm) (wakeup dm) (cancelled dm)
  (timer dm) pc (stop dm) (added dm) (posted dm) (dropped dm).

(** [AddDelayedTask]: one critical section; wakes the loop up when the new
    task became the earliest one. *)
Definition AddDelayedTask (task : T) (delay : Z) (traits : TaskTraits) (target : R)
    (dm : DelayManager) : go DelayManager :=
  if (delay <? 0)%Z then Panic "delay_manager: delay must be non-negative"
  else
    let item := MkDelayedTask (next_ptr dm) (now dm + delay) task traits target in
    let h := heap_Push Less item (pq dm) in
    let w := if (index_of (dt_ptr item) h =? 0)%Z then true else wakeup dm in
    Ret (MkDM (now dm) h (S (next_ptr dm)) w (cancelled dm) (timer dm) (loop dm) (stop dm)
           (added dm ++ [item]) (posted dm) (dropped dm)).

Inductive Label :=
| Tick (d : nat)                                     (** time passes *)
| Add (task : T) (delay : Z) (traits : TaskTraits) (target : R)
| LoopStep                                           (** the loop's next action *)
| TimerFires                                         (** [case <-timer.C] *)
| WakeupReceived                                     (** [case <-dm.wakeup] *)
| ContextDone                                        (** [case <-dm.ctx.Done()] *)
| StopCall                                           (** [Stop]: [dm.cancel()] *)
| StopReturn.                                        (** [Stop]: done seen, heap cleared *)

(** One iteration step of [loop] outside [select]. *)
Definition loop_step (dm : DelayManager) : option DelayManager :=
  match loop dm with
  | LTop =>
      let '(nextRun, state) := calculateNextRun (now dm) (pq dm) in
      Some match state with
      | delayStateExpiredNow => upd_loop LProcess dm
      | delayStateEmpty => upd_loop (LArm (1000 * 3600 * 10 ^ 9) None (now dm)) dm
      | delayStateFuture => upd_loop (LArm nextRun (RunAt <$> Peek (pq dm)) (now dm)) dm
      end
  | LProcess =>
      let '(expired, h) := processExpired (now dm) (pq dm) in
      Some (upd_loop (LPost expired) (upd_pq h dm))
  | LPost [] => Some (upd_loop LTop dm)
  | LPost (item :: rest) =>
      Some (MkDM (now dm) (pq dm) (next_ptr dm) (wakeup dm) (cancelled dm) (timer dm)
              (LPost rest) (stop dm) (added dm) (posted dm ++ [(now dm, item)]) (dropped dm))
  | LArm nextRun armed t_calc =>
      Some (MkDM (now dm) (pq dm) (next_ptr dm) (wakeup dm) (cancelled dm)
              (Some (now dm + nextRun)%Z) (LSelect armed (now dm - t_calc)) (stop dm)
              (added dm) (posted dm) (dropped dm))
  | LSelect _ _ | LDone => None
  end.

Definition step (l : Label) (dm : DelayManager) : option DelayManager :=
  match l with
  | Tick d => Some (MkDM (now dm + Z.of_nat d) (pq dm) (next_ptr dm) (wakeup dm) (cancelled dm)
                      (timer dm) (loop dm) (stop dm) (added dm) (posted dm) (dropped dm))
  | Add task delay traits target =>
      match AddDelayedTask task delay traits target dm with
      | Ret dm => Some dm
      | Panic _ => None
      end
  | LoopStep => loop_step dm
  | TimerFires =>
      match loop dm, timer dm with
      | LSelect _ _, Some d =>
          if (d <=? now dm)%Z then
            Some (MkDM (now dm) (pq dm) (next_ptr dm) (wakeup dm) (cancelled dm) None
                    LProcess (stop dm) (added dm) (posted dm) (dropped dm))
          else None
      | _, _ => None
      end
  | WakeupReceived =>
      match loop dm with
      | LSelect _ _ =>
          if wakeup dm then
            Some (MkDM (now dm) (pq dm) (next_ptr dm) false (cancelled dm) (timer dm)
                    LTop (stop dm) (added dm) (posted dm) (dropped dm))
          else None
      | _ => None
      end
  | ContextDone =>
      match loop dm with
      | LSelect _ _ =>
          if cancelled dm then
            Some (MkDM (now dm) (pq dm) (next_ptr dm) (wakeup dm) (cancelled dm) None
                    LDone (stop dm) (added dm) (posted dm) (dropped dm))
          else None
      | _ => None
      end
  | StopCall =>
      match stop dm with
      | StopWaiting => None
      | _ =>
          Some (MkDM (now dm) (pq dm) (next_ptr dm) (wakeup dm) true (timer dm) (loop dm)
                  StopWaiting (added dm) (posted dm) (dropped dm))
      end
  | StopReturn =>
      match stop dm, loop dm with
      | StopWaiting, LDone =>
          Some (MkDM (now dm) (heap_Init Less []) (next_ptr dm) (wakeup dm) (cancelled dm)
                  (timer dm) (loop dm) StopReturned (added dm) (posted dm)
                  (dropped dm ++ vals (pq dm)))
      | _, _ => None
      end
  end.

Definition TaskCount (dm : DelayManager) : nat := length (pq dm).

(** *** Specification *)

(** Tasks popped from the heap and not yet posted. *)
Definition in_flight (dm : DelayManager) : list DelayedTask :=
  match loop dm with LPost expired => expired | _ => [] end.

Definition head_due (h : list (indexed DelayedTask)) : option Z := RunAt <$> Peek h.

(** A loop about to sleep, or asleep, has been told of every task earlier
    than the one it sleeps for. *)
Definition alarm_ok (dm : DelayManager) (armed : option Z) : Prop :=
  wakeup dm = true ∨
  match head_due (pq dm) with
  | None => True
  | Some due => ∃ a, armed = Some a ∧ (a <= due)%Z
  end.
End delay_manager.
Arguments DelayedTask T R : clear implicits.
Arguments DelayManager T R : clear implicits.
Arguments LoopPc T R : clear implicits.
Arguments Label T R : clear implicits.

(** ** Lemmas *)

#[export] Instance Less_laws {T R} : LessLaws (Less (T:=T) (R:=R)).
Proof.
  split; unfold le, Less.
  - intros x y. rewrite Z.ltb_lt, Z.ltb_ge. lia.
  - intros x y z. rewrite !Z.ltb_ge. lia.
Qed.

Section delay_lemmas.
Context {T R : Type}.
Implicit Types (h : list (indexed (DelayedTask T R))) (dm : DelayManager T R).

Lemma dm_le_spec (x y : DelayedTask T R) : le Less x y ↔ (RunAt x <= RunAt y)%Z.
Proof. unfold le, Less. by rewrite Z.ltb_ge. Qed.

Lemma Peek_None h : Peek h = None → h = [].
Proof. by destruct h. Qed.

(** *** Collecting the expired tasks *)

Lemma collect_spec fuel t h :
  heap_ok Less h → idx_ok h → length h ≤ fuel →
  let '(e, h') := collect fuel t h in
  vals h ≡ₚ e ++ vals h' ∧ heap_ok Less h' ∧ idx_ok h' ∧
  Forall (λ x, RunAt x <= t)%Z e ∧ Forall (λ x, t < RunAt x)%Z (vals h') ∧
  StronglySorted (λ x y, RunAt x <= RunAt y)%Z e.
Proof.
  revert h; induction fuel as [|f IH]; intros h Hh Hi Hf; simpl.
  { destruct h; simpl in *; [|lia]. repeat split; auto using heap_empty_ok; constructor. }
  destruct (Peek h) as [x|] eqn:Ex.
  2:{ apply Peek_None in Ex as ->. repeat split; auto; constructor. }
  destruct (Z.ltb_spec t (RunAt x)) as [Hlt|Hge].
  { repeat split; auto using SSorted_nil. apply Forall_forall. intros y Hy.
    apply list_elem_of_lookup in Hy as [i Hy]. rewrite vals_lookup in Hy.
    pose proof (root_min Less h x i y Hh Ex Hy) as Hle. apply dm_le_spec in Hle. lia. }
  destruct (length h) as [|n] eqn:Hl; [by apply length_zero_iff_nil in Hl as ->|].
  destruct (heap_Pop_ok Less h n Hh Hi Hl) as (x' & h' & Ep & Ex' & Hp & Hh' & Hi' & Hl').
  rewrite Ep. unfold Peek in Ex. unfold val_at in Ex'. rewrite Ex in Ex'. simplify_eq.
  specialize (IH h' Hh' Hi' ltac:(lia)). destruct (collect f t h') as [e h''].
  destruct IH as (Hp' & Hh'' & Hi'' & He & Hr & Hs).
  split; [by rewrite Hp, Hp'|]. split; [done|]. split; [done|].
  split; [by constructor|]. split; [done|]. constructor; [done|].
  pose proof (heap_Pop_min Less h (length h') x' _ h' Hh Hi Hl Ep) as Hmin.
  rewrite Hp', Forall_app in Hmin. eapply Forall_impl; [apply Hmin|].
  intros y Hy. by apply dm_le_spec.
Qed.

Lemma processExpired_spec t h :
  heap_ok Less h → idx_ok h →
  let '(e, h') := processExpired t h in
  vals h ≡ₚ e ++ vals h' ∧ heap_ok Less h' ∧ idx_ok h' ∧
  Forall (λ x, RunAt x <= t)%Z e ∧ Forall (λ x, t < RunAt x)%Z (vals h') ∧
  StronglySorted (λ x y, RunAt x <= RunAt y)%Z e.
Proof. intros. by apply collect_spec. Qed.

(** *** Adding a task *)

(** A pushed object whose index is not 0 did not become the root. *)
Lemma index_root h x (i : DelayedTask T R) :
  idx_ok h → val_at h 0 = Some x → dt_ptr x = dt_ptr i → index_of (dt_ptr i) h = 0%Z.
Proof.
  intros Hi Hx Hp. unfold index_of. destruct h as [|y h]; [done|].
  injection Hx as <-. simpl. rewrite decide_True by done.
  apply (Hi 0 y eq_refl).
Qed.

Lemma add_alarm dm dm' task delay tr tg armed :
  heap_ok Less (pq dm) → idx_ok (pq dm) →
  AddDelayedTask task delay tr tg dm = Ret dm' → alarm_ok dm armed → alarm_ok dm' armed.
Proof.
  intros Hh Hi E Hal. unfold AddDelayedTask in E. destruct (delay <? 0)%Z; [done|].
  set (item := MkDelayedTask _ _ _ _ _) in E. injection E as <-.
  destruct (heap_Push_ok Less item (pq dm) Hh Hi) as (Hh' & Hi' & Hp & Hl).
  unfold alarm_ok, head_due in *; cbn [wakeup pq].
  destruct (Z.eqb_spec (index_of (next_ptr dm) (heap_Push Less item (pq dm))) 0) as [|Hne];
    [by left|].
  destruct Hal as [Hw|Hal]; [by left|right].
  destruct (Peek (heap_Push Less item (pq dm))) as [y|] eqn:Ey; simpl; [|done].
  assert (Hy : y ∈ item :: vals (pq dm)).
  { rewrite <- Hp. apply list_elem_of_lookup. exists 0. by rewrite vals_lookup. }
  apply elem_of_cons in Hy as [->|Hy].
  { exfalso. apply Hne. by apply (index_root _ item item). }
  apply list_elem_of_lookup in Hy as [k Hk]. rewrite vals_lookup in Hk.
  destruct (Peek (pq dm)) as [z|] eqn:Ez; simpl in Hal.
  - destruct Hal as (a & -> & Ha). exists a. split; [done|].
    pose proof (root_min Less (pq dm) z k y Hh Ez Hk) as Hle. apply dm_le_spec in Hle. lia.
  - apply Peek_None in Ez. by rewrite Ez in Hk.
Qed.

(** *** The invariant of the whole manager *)

Record dm_inv dm : Prop := {
  inv_heap : heap_ok Less (pq dm);
  inv_idx : idx_ok (pq dm);
  inv_alarm :
    match loop dm with
    | LArm d armed tc => alarm_ok dm armed ∧ (tc <= now dm)%Z ∧
        ∀ a, armed = Some a → d = (a - tc)%Z
    | LSelect armed lag => alarm_ok dm armed ∧ (0 <= lag)%Z ∧
        ∃ d, timer dm = Some d ∧ ∀ a, armed = Some a → d = (a + lag)%Z
    | LPost e => Forall (λ x, RunAt x <= now dm)%Z e
    | _ => True
    end;
  inv_posted : Forall (λ p, RunAt p.2 <= p.1 <= now dm)%Z (posted dm);
  inv_conserved :
    added dm ≡ₚ (posted dm).*2 ++ in_flight dm ++ vals (pq dm) ++ dropped dm;
}.

Lemma dm_inv_init t0 : dm_inv (NewDelayManager t0).
Proof.
  split; simpl; try done; try apply heap_empty_ok; try constructor.
Qed.

Lemma alarm_ok_frame dm dm' armed :
  pq dm' = pq dm → wakeup dm' = wakeup dm → alarm_ok dm armed → alarm_ok dm' armed.
Proof. intros E1 E2. unfold alarm_ok. by rewrite E1, E2. Qed.

Lemma posted_later dm t : (now dm <= t)%Z →
  Forall (λ p, RunAt p.2 <= p.1 <= now dm)%Z (posted dm) →
  Forall (λ p, RunAt p.2 <= p.1 <= t)%Z (posted dm).
Proof. intros Ht Hf. eapply Forall_impl; [exact Hf|]. intros [u x]; simpl. lia. Qed.

Lemma dm_inv_tick dm d dm' : dm_inv dm → step (Tick d) dm = Some dm' → dm_inv dm'.
Proof.
  intros [Hh Hi Ha Hp Hc] E. simpl in E. simplify_eq. split; simpl; try done.
  - destruct (loop dm); try done.
    + eapply Forall_impl; [done|]. simpl. lia.
    + destruct Ha as (? & ? & ?). split; [|split]; [|lia|done]. by eapply alarm_ok_frame.
  - apply (posted_later dm); [lia|done].
Qed.

Lemma dm_inv_add dm task d tr tg dm' :
  dm_inv dm → step (Add task d tr tg) dm = Some dm' → dm_inv dm'.
Proof.
  intros [Hh Hi Ha Hp Hc] E. simpl in E.
  destruct (AddDelayedTask task d tr tg dm) as [dm1|] eqn:Ea; [|done]. injection E as <-.
  pose proof (λ armed, add_alarm dm dm1 task d tr tg armed Hh Hi Ea) as Hal.
  unfold AddDelayedTask in Ea. destruct (d <? 0)%Z; [done|]. injection Ea as <-.
  set (item := MkDelayedTask _ _ _ _ _) in *.
  destruct (heap_Push_ok Less item (pq dm) Hh Hi) as (Hh' & Hi' & Hpm & _).
  split; cbn -[heap_Push vals]; try done.
  - destruct (loop dm); try done; destruct Ha as (? & ?); auto.
  - unfold in_flight in *. cbn [loop]. rewrite Hc, Hpm. perm_solve.
Qed.

Lemma dm_inv_loop dm dm' : dm_inv dm → step LoopStep dm = Some dm' → dm_inv dm'.
Proof.
  intros [Hh Hi Ha Hp Hc] E. simpl in E. unfold loop_step, in_flight in *.
  destruct (loop dm) as [| |[|x e]|d armed tc|armed lag|] eqn:El; try done.
  - destruct (calculateNextRun (now dm) (pq dm)) as [d st] eqn:Ec. injection E as <-.
    unfold calculateNextRun in Ec.
    destruct (Peek (pq dm)) as [x|] eqn:Ex; [destruct (Z.ltb_spec (now dm) (RunAt x))|];
      simplify_eq; split; cbn -[vals]; try done.
    + split; [|split; [lia|by intros ? [= <-]]].
      right. unfold head_due. cbn [pq upd_loop]. rewrite Ex. by eexists.
    + split; [|split; [lia|done]]. right. unfold head_due. cbn [pq upd_loop]. by rewrite Ex.
  - pose proof (processExpired_spec (now dm) (pq dm) Hh Hi) as Hs.
    destruct (processExpired (now dm) (pq dm)) as [e h]. injection E as <-.
    destruct Hs as (Hpm & ? & ? & ? & _). split; cbn -[vals]; try done.
    by rewrite Hc, Hpm, <- app_assoc.
  - injection E as <-. by split; cbn -[vals].
  - injection E as <-. inversion Ha; subst. split; cbn -[vals]; try done.
    + rewrite Forall_app, Forall_singleton. simpl. split; [done|lia].
    + rewrite Hc, fmap_app. simpl. by rewrite <- !app_assoc.
  - injection E as <-. destruct Ha as (Hal & Htc & Hd). split; cbn -[vals]; try done.
    split; [by eapply alarm_ok_frame|]. split; [lia|].
    eexists; split; [done|]. intros a Harm. rewrite (Hd a Harm). lia.
Qed.

Lemma dm_inv_select dm l dm' :
  l = TimerFires ∨ l = WakeupReceived ∨ l = ContextDone ∨ l = StopCall ∨ l = StopReturn →
  dm_inv dm → step l dm = Some dm' → dm_inv dm'.
Proof.
  intros Hl [Hh Hi Ha Hp Hc] E. unfold in_flight in *.
  destruct Hl as [->|[->|[->|[->| ->]]]]; simpl in E.
  - inv_step E. split; cbn -[vals]; try done.
  - inv_step E. split; cbn -[vals]; try done.
  - inv_step E. split; cbn -[vals]; try done.
  - destruct (stop dm); simplify_eq; split; cbn -[vals]; try done; by destruct (loop dm).
  - destruct (stop dm), (loop dm) eqn:El; simplify_eq.
    split; cbn -[vals]; try apply (heap_empty_ok Less); try done.
    rewrite Hc. perm_solve.
Qed.

Lemma dm_inv_reachable t0 dm : reachable step (NewDelayManager t0) dm → dm_inv dm.
Proof.
  apply reachable_invariant; [apply dm_inv_init|]. intros l s s' HI E.
  destruct l; [by eapply dm_inv_tick|by eapply dm_inv_add|by eapply dm_inv_loop|..];
    (eapply dm_inv_select; [|done|done]); tauto.
Qed.
End delay_lemmas.

(** ** Properties *)

Section delay_theorems.
Context {T R : Type}.
Implicit Types dm : DelayManager T R.

(** processExpiredTasks removes from the heap exactly the tasks due by now, earliest
    first, and keeps the heap valid. *)
Theorem processExpired_splits (t : Z) (h : list (indexed (DelayedTask T R))) :
  heap_ok Less h → idx_ok h →
  let '(e, h') := processExpired t h in
  vals h ≡ₚ e ++ vals h' ∧ heap_ok Less h' ∧ idx_ok h' ∧
  Forall (λ x, RunAt x <= t)%Z e ∧ Forall (λ x, t < RunAt x)%Z (vals h') ∧
  StronglySorted (λ x y, RunAt x <= RunAt y)%Z e.
Proof. apply processExpired_spec. Qed.

(** C31. A delayed task is never posted before its due time, and a task is posted, waiting,
    being posted or dropped by Stop, never twice. *)
Theorem posted_not_early t0 dm :
  reachable step (NewDelayManager t0) dm →
  Forall (λ p, RunAt p.2 <= p.1)%Z (posted dm) ∧
  added dm ≡ₚ (posted dm).*2 ++ in_flight dm ++ vals (pq dm) ++ dropped dm.
Proof.
  intros Hr. destruct (dm_inv_reachable t0 dm Hr) as [_ _ _ Hp Hc]. split; [|done].
  eapply Forall_impl; [exact Hp|]. simpl. lia.
Qed.

(** C32. The delay loop never oversleeps: whenever it sleeps without a pending wakeup, its
    timer fires no later than the earliest due time plus the time it took to arm it. *)
Theorem sleep_covers_head t0 dm armed lag due :
  reachable step (NewDelayManager t0) dm →
  loop dm = LSelect armed lag → wakeup dm = false → head_due (pq dm) = Some due →
  (0 <= lag)%Z ∧ ∃ d, timer dm = Some d ∧ (d <= due + lag)%Z ∧
    ((d <= now dm)%Z → is_Some (step TimerFires dm)).
Proof.
  intros Hr El Hw Hd. destruct (dm_inv_reachable t0 dm Hr) as [_ _ Ha _ _].
  rewrite El in Ha. destruct Ha as (Hal & Hlag & d & Ht & Hda). split; [done|].
  exists d. split; [done|]. destruct Hal as [Hal|Hal]; [congruence|].
  rewrite Hd in Hal. destruct Hal as (a & Harm & Hle). rewrite (Hda a Harm). split; [lia|].
  intros Hdue. simpl. rewrite El, Ht, (Hda a Harm). rewrite (proj2 (Z.leb_le _ _) Hdue). by eexists.
Qed.
End delay_theorems.

(** ** Witnesses *)

(** Two tasks are added out of order; the second wakes the sleeping loop up,
    and both are posted, each when due. *)
Definition demo_schedule : list (Label nat nat) :=
  [LoopStep; LoopStep; Add 1 50 DefaultTaskTraits 7; WakeupReceived; LoopStep; LoopStep;
   Tick 5; Add 2 10 TraitsBestEffort 8; WakeupReceived; LoopStep; LoopStep; Tick 10;
   TimerFires; LoopStep; LoopStep; LoopStep; LoopStep; LoopStep].

Definition demo_state : DelayManager nat nat :=
  default (NewDelayManager 100) (run step demo_schedule (NewDelayManager 100)).

Lemma dm_demo_reachable : reachable step (NewDelayManager 100) demo_state.
Proof. apply (run_reachable step demo_schedule). vm_compute. reflexivity. Qed.

Lemma posted_not_early_witness :
  reachable step (NewDelayManager 100) demo_state ∧
  (λ p, (p.1, dt_Task p.2)) <$> posted demo_state = [(115%Z, 2)] ∧
  Forall (λ p, RunAt p.2 <= p.1)%Z (posted demo_state).
Proof.
  split; [exact dm_demo_reachable|]. split; [vm_compute; reflexivity|].
  exact (proj1 (posted_not_early 100 demo_state dm_demo_reachable)).
Defined.

Lemma sleep_covers_head_witness :
  loop demo_state = LSelect (Some 150%Z) 0 ∧ head_due (pq demo_state) = Some 150%Z ∧
  ∃ d, timer demo_state = Some d ∧ (d <= 150 + 0)%Z.
Proof.
  split; [vm_compute; reflexivity|]. split; [vm_compute; reflexivity|].
  destruct (sleep_covers_head 100 demo_state (Some 150%Z) 0 150 dm_demo_reachable
              ltac:(vm_compute; reflexivity) ltac:(vm_compute; reflexivity)
              ltac:(vm_compute; reflexivity)) as (_ & d & Hd & Hle & _).
  exists d. split; [exact Hd|exact Hle].
Defined.

Definition demo_heap : list (indexed (DelayedTask nat nat)) :=
  heap_Push Less (MkDelayedTask 1 20 5 DefaultTaskTraits 0)
    (heap_Push Less (MkDelayedTask 0 30 4 DefaultTaskTraits 0) []).

Lemma processExpired_splits_witness :
  heap_ok Less demo_heap ∧ dt_Task <$> (processExpired 25 demo_heap).1 = [5] ∧
  let '(e, h') := processExpired 25 demo_heap in vals demo_heap ≡ₚ e ++ vals h'.
Proof.
  pose proof (heap_empty_ok (Less (T:=nat) (R:=nat))) as [H0 I0].
  pose proof (heap_Push_ok Less (MkDelayedTask 0 30 4 DefaultTaskTraits 0) [] H0 I0) as (H1 & I1 & _).
  pose proof (heap_Push_ok Less (MkDelayedTask 1 20 5 DefaultTaskTraits 0) _ H1 I1) as (H2 & I2 & _).
  split; [exact H2|]. split; [vm_compute; reflexivity|].
  pose proof (processExpired_splits 25 demo_heap H2 I2) as Hs.
  destruct (processExpired 25 demo_heap) as [e h']. exact (proj1 Hs).
Defined.
