(* ===== verification/Scheduler.v ===== *)
(** * TaskScheduler and GoroutineThreadPool (core/task_scheduler.go, pool.go)

    The scheduler is generic in its queue: everything is proved against the
    [TaskQueue] interface and its laws, so it holds of both
    [NewFIFOTaskScheduler] and [NewPriorityTaskScheduler].  Goroutines are
    program counters; one step is one access to the shared state (a critical
    section of the queue, an atomic operation, a channel operation), so every
    interleaving of workers, posters and closers is a list of labels. *)

From S2P Require Import Prelude GoSlice Task TaskQueue.
From S2P Require DelayManager FIFOQueue.

(** What the handlers and the metrics of the scheduler are told. *)
Inductive Obs :=
| ObsHandleRejected (reason : string)       (** rejectedTaskHandler *)
| ObsTaskRejected (reason : string)         (** metrics.RecordTaskRejected *)
| ObsQueueDepth (depth : Z)                 (** metrics.RecordQueueDepth *)
| ObsHandlePanic (worker : nat)             (** panicHandler.HandlePanic *)
| ObsTaskPanic                              (** metrics.RecordTaskPanic *)
| ObsTaskDuration (priority : TaskPriority). (** metrics.RecordTaskDuration *)

(** The function a closing goroutine is in. *)
Inductive Closer := KShutdown | KShutdownGraceful | KStop | KStopGraceful.
#[export] Instance Closer_eq_dec : EqDecision Closer.
Proof. solve_decision. Defined.

Definition pooled (k : Closer) : bool :=
  match k with KStop | KStopGraceful => true | _ => false end.
Definition graceful (k : Closer) : bool :=
  match k with KShutdownGraceful | KStopGraceful => true | _ => false end.

Inductive Err := ErrNil | ErrTimeout.

Section scheduler.
Context {Q T R : Type} `{TaskQueue Q T}.

(** [NewPriorityTaskSchedulerWithConfig(workerCount, ...)]: the number of
    workers; [signal] is a channel of capacity [workerCount*2]. *)
Context (workerCount : nat).
Definition signal_cap : nat := workerCount * 2.

Record TaskScheduler := MkScheduler {
  queue : Q;
  signal : nat;                                  (** tokens in the channel *)
  delayManager : DelayManager.DelayManager T R;
  metricQueued : Z;
  metricActive : Z;
  shuttingDown : bool;
}.

Definition NewTaskScheduler (t0 : Z) : TaskScheduler :=
  MkScheduler tq_new 0 (DelayManager.NewDelayManager t0) 0 0 false.

Definition upd_queue q s := MkScheduler q (signal s) (delayManager s) (metricQueued s) (metricActive s) (shuttingDown s).
Definition upd_signal n s := MkScheduler (queue s) n (delayManager s) (metricQueued s) (metricActive s) (shuttingDown s).
Definition upd_delay d s := MkScheduler (queue s) (signal s) d (metricQueued s) (metricActive s) (shuttingDown s).
Definition upd_mq m s := MkScheduler (queue s) (signal s) (delayManager s) m (metricActive s) (shuttingDown s).
Definition upd_ma m s := MkScheduler (queue s) (signal s) (delayManager s) (metricQueued s) m (shuttingDown s).
Definition upd_shutting s := MkScheduler (queue s) (signal s) (delayManager s) (metricQueued s) (metricActive s) true.

Definition QueuedTaskCount (s : TaskScheduler) : Z := metricQueued s.
Definition ActiveTaskCount (s : TaskScheduler) : Z := metricActive s.
Definition DelayedTaskCount (s : TaskScheduler) : nat := DelayManager.TaskCount (delayManager s).
Definition OnTaskStart (s : TaskScheduler) : TaskScheduler :=
  upd_ma (wrap_int32 (metricActive s + 1)) s.
Definition OnTaskEnd (s : TaskScheduler) : TaskScheduler :=
  upd_ma (wrap_int32 (metricActive s - 1)) s.

(** A worker: [GetWork] inside [workerLoop].  [woken] is ghost: the poll
    follows the receipt of a signal. *)
Inductive Worker :=
| WPoll (woken : bool)              (** before [s.queue.Pop()] *)
| WGot (it : TaskItem T)            (** before [AddInt32(&s.metricQueued, -1)] *)
| WStart (it : TaskItem T)          (** before [OnTaskStart] *)
| WRun (it : TaskItem T)            (** inside [item.Task(ctx)] *)
| WEnd (it : TaskItem T) (panicked : bool)    (** deferred, before [OnTaskEnd] *)
| WReport (it : TaskItem T) (panicked : bool) (** deferred, before the handlers *)
| WSelect                           (** blocked in [select] *)
| WDone.                            (** returned, [wg.Done()] called *)

(** A client goroutine: a post, a delayed post, a closer, or [Start]. *)
Inductive Thread :=
| PCheck (it : TaskItem T)          (** [PostInternal], before the flag is read *)
| PPush (it : TaskItem T)
| PMetric
| PSignal
| PReturned
| PRejected                         (** turned away *)
| DCheck (task : T) (delay : Z) (traits : TaskTraits) (target : R)
| DAdd (task : T) (delay : Z) (traits : TaskTraits) (target : R)
| DPanicked
| CGuard (k : Closer)               (** [StopGraceful]: reads [tg.running] *)
| CFlag (k : Closer)                (** before [StoreInt32(&s.shuttingDown, 1)] *)
| CDelay (k : Closer)               (** before [s.delayManager.Stop()] *)
| CDelayWait (k : Closer)           (** inside it *)
| CClear (k : Closer) (e : Err)     (** before [s.queue.Clear()] *)
| CZero (k : Closer) (e : Err)      (** before [StoreInt32(&s.metricQueued, 0)] *)
| CTick (k : Closer)                (** the [select] of [ShutdownGraceful] *)
| CTickActive (k : Closer)          (** [QueuedTaskCount() == 0] held *)
| CRunning (k : Closer) (e : Err)   (** the pool's next read of [tg.running] *)
| CCancel (k : Closer) (e : Err)
| CJoin (k : Closer) (e : Err)
| CFinish (k : Closer) (e : Err)    (** before [tg.running = false] *)
| CReturned (k : Closer) (e : Err)
| CStart
| CStarted.

(** [running], and per call of [Start] whether its context is done and which
    workers it launched; [pushed], [done] and [dropped] are histories. *)
Record Pool := MkPool {
  scheduler : TaskScheduler;
  running : bool;
  ctx_done : list bool;
  workers : list (nat * Worker);
  threads : list Thread;
  obs : list Obs;
  pushed : list (TaskItem T);
  done : list (TaskItem T);
  cleared : option (list (TaskItem T)); (** what [Clear] removed, once called *)
}.

Definition NewGoroutineThreadPool (t0 : Z) : Pool :=
  MkPool (NewTaskScheduler t0) false [] [] [] [] [] [] None.

(** Reads and entries of the pool; its counts are those of its scheduler. *)
Definition WorkerCount : nat := workerCount.
Definition IsRunning (p : Pool) : bool := running p.
Definition GetScheduler (p : Pool) : TaskScheduler := scheduler p.
Definition PoolQueuedTaskCount (p : Pool) : Z := QueuedTaskCount (scheduler p).
Definition PoolActiveTaskCount (p : Pool) : Z := ActiveTaskCount (scheduler p).
Definition PoolDelayedTaskCount (p : Pool) : nat := DelayedTaskCount (scheduler p).
Definition PoolPostDelayedInternal (task : T) (delay : Z) (traits : TaskTraits) (target : R) : Thread :=
  DCheck task delay traits target.

Definition on_sched (f : TaskScheduler → TaskScheduler) p := MkPool (f (scheduler p)) (running p)
  (ctx_done p) (workers p) (threads p) (obs p) (pushed p) (done p) (cleared p).
Definition set_running b p := MkPool (scheduler p) b (ctx_done p) (workers p) (threads p)
  (obs p) (pushed p) (done p) (cleared p).
Definition set_ctx c p := MkPool (scheduler p) (running p) c (workers p) (threads p)
  (obs p) (pushed p) (done p) (cleared p).
Definition set_workers ws p := MkPool (scheduler p) (running p) (ctx_done p) ws (threads p)
  (obs p) (pushed p) (done p) (cleared p).
Definition set_threads ts p := MkPool (scheduler p) (running p) (ctx_done p) (workers p) ts
  (obs p) (pushed p) (done p) (cleared p).
Definition add_obs o p := MkPool (scheduler p) (running p) (ctx_done p) (workers p) (threads p)
  (obs p ++ o) (pushed p) (done p) (cleared p).
Definition add_pushed it p := MkPool (scheduler p) (running p) (ctx_done p) (workers p) (threads p)
  (obs p) (pushed p ++ [it]) (done p) (cleared p).
Definition add_done it p := MkPool (scheduler p) (running p) (ctx_done p) (workers p) (threads p)
  (obs p) (pushed p) (done p ++ [it]) (cleared p).
Definition add_cleared its p := MkPool (scheduler p) (running p) (ctx_done p) (workers p) (threads p)
  (obs p) (pushed p) (done p) (Some (default [] (cleared p) ++ its)).

(** [PostInternal] and [PostDelayedInternal], one access at a time. *)
Definition post_step (t : Thread) (p : Pool) : option (Thread * Pool) :=
  let s := scheduler p in
  match t with
  | PCheck it =>
      Some (if shuttingDown s
            then (PRejected, add_obs [ObsHandleRejected "shutting down";
                                      ObsTaskRejected "shutting down"] p)
            else (PPush it, p))
  | PPush it =>
      Some (PMetric, add_pushed it (on_sched (upd_queue
              (tq_PushWithID (item_ID it) (item_Task it) (item_Traits it) (queue s))) p))
  | PMetric =>
      let depth := wrap_int32 (metricQueued s + 1) in
      Some (PSignal, add_obs [ObsQueueDepth depth] (on_sched (upd_mq depth) p))
  | PSignal =>
      Some (PReturned, if decide (signal s < signal_cap)
                       then on_sched (upd_signal (S (signal s))) p else p)
  | DCheck task delay traits target =>
      Some (if shuttingDown s then PRejected else DAdd task delay traits target, p)
  | DAdd task delay traits target =>
      Some match DelayManager.AddDelayedTask task delay traits target (delayManager s) with
           | Ret dm => (PReturned, on_sched (upd_delay dm) p)
           | Panic _ => (DPanicked, p)
           end
  | _ => None
  end.

(** [s.delayManager.Stop()]: the call, then the return once its loop ended. *)
Definition delay_stop (s : TaskScheduler) : TaskScheduler :=
  match DelayManager.step DelayManager.StopCall (delayManager s) with
  | Some dm => upd_delay dm s
  | None => s
  end.
Definition delay_stop_return (s : TaskScheduler) : option TaskScheduler :=
  match DelayManager.stop (delayManager s) with
  | DelayManager.StopReturned =>
      dm ← run DelayManager.step [DelayManager.StopCall; DelayManager.StopReturn] (delayManager s);
      Some (upd_delay dm s)
  | _ => dm ← DelayManager.step DelayManager.StopReturn (delayManager s); Some (upd_delay dm s)
  end.

Definition worker_done (w : nat * Worker) : bool :=
  match w with (_, WDone) => true | _ => false end.

(** [TaskScheduler.Shutdown] and [ShutdownGraceful].  The choice resolves the
    [select] between ticker ([true]) and deadline. *)
Definition shutdown_step (choice : bool) (t : Thread) (p : Pool) : option (Thread * Pool) :=
  let s := scheduler p in
  match t with
  | CFlag k => Some (CDelay k, on_sched upd_shutting p)
  | CDelay k => Some (CDelayWait k, on_sched delay_stop p)
  | CDelayWait k =>
      s' ← delay_stop_return s;
      Some (if graceful k then CTick k else CClear k ErrNil, on_sched (λ _, s') p)
  | CTick k =>
      Some (if choice
            then (if (QueuedTaskCount s =? 0)%Z then CTickActive k else CTick k, p)
            else (CClear k ErrTimeout, p))
  | CTickActive k =>
      Some (if (ActiveTaskCount s =? 0)%Z
            then (if pooled k then CRunning k ErrNil else CReturned k ErrNil)
            else CTick k, p)
  | CClear k e =>
      Some (CZero k e, add_cleared (drain (tq_Len (queue s)) (queue s))
                         (on_sched (upd_queue (tq_Clear (queue s))) p))
  | CZero k e =>
      Some (if pooled k then CRunning k e else CReturned k e,
            add_obs [ObsQueueDepth 0] (on_sched (upd_mq 0%Z) p))
  | _ => None
  end.

(** [GoroutineThreadPool.Stop] and [StopGraceful], around the scheduler's
    shutdown. *)
Definition stop_step (t : Thread) (p : Pool) : option (Thread * Pool) :=
  match t with
  | CGuard k => Some (if running p then CFlag k else CReturned k ErrNil, p)
  | CRunning k e =>
      (* only [Stop] reads [tg.running] here *)
      Some (if graceful k then CCancel k e
            else if running p then CCancel k e else CReturned k e, p)
  | CCancel k e =>
      (* [tg.cancel] is the latest context's; nil before the first [Start] *)
      Some (CJoin k e, set_ctx (<[pred (length (ctx_done p)) := true]> (ctx_done p)) p)
  | CJoin k e => if forallb worker_done (workers p) then Some (CFinish k e, p) else None
  | CFinish k e => Some (CReturned k e, set_running false p)
  | _ => None
  end.

Definition Start (p : Pool) : Pool :=
  if running p then p
  else set_workers (workers p ++ replicate workerCount (length (ctx_done p), WPoll false))
         (set_running true (set_ctx (ctx_done p ++ [false]) p)).

Definition closer_step (choice : bool) (t : Thread) (p : Pool) : option (Thread * Pool) :=
  match t with
  | CGuard _ | CRunning _ _ | CCancel _ _ | CJoin _ _ | CFinish _ _ => stop_step t p
  | CStart => Some (CStarted, Start p)
  | _ => shutdown_step choice t p
  end.

(** [GetWork]; the choice resolves the [select] between signal and stop. *)
Definition getwork_step (gen : nat) (choice : bool) (w : Worker) (p : Pool)
  : option (Worker * Pool) :=
  let s := scheduler p in
  match w with
  | WPoll _ =>
      match tq_Pop (queue s) with
      | Ret (Some it, q) => Some (WGot it, on_sched (upd_queue q) p)
      | Ret (None, q) => Some (WSelect, on_sched (upd_queue q) p)
      | Panic _ => None
      end
  | WSelect =>
      if choice then
        match signal s with
        | 0 => None
        | S n => Some (WPoll true, on_sched (upd_signal n) p)
        end
      else if default false (ctx_done p !! gen) then Some (WDone, p) else None
  | WGot it =>
      let depth := wrap_int32 (metricQueued s - 1) in
      Some (WStart it, add_obs [ObsQueueDepth depth] (on_sched (upd_mq depth) p))
  | _ => None
  end.

(** [workerLoop].  In [WRun] the choice is whether the task returns or panics. *)
Definition worker_step (i gen : nat) (choice : bool) (w : Worker) (p : Pool)
  : option (Worker * Pool) :=
  match w with
  | WPoll _ | WSelect | WGot _ => getwork_step gen choice w p
  | WStart it => Some (WRun it, on_sched OnTaskStart p)
  | WRun it => Some (WEnd it (negb choice), p)
  | WEnd it panicked => Some (WReport it panicked, add_done it (on_sched OnTaskEnd p))
  | WReport it panicked =>
      Some (WPoll false,
            add_obs (if panicked then [ObsHandlePanic i; ObsTaskPanic]
                     else [ObsTaskDuration (Priority (item_Traits it))]) p)
  | WDone => None
  end.

Inductive Label :=
| LSpawn (t : Thread)              (** some goroutine calls the scheduler or pool *)
| LPost (i : nat)
| LClose (i : nat) (choice : bool)
| LWorker (i : nat) (choice : bool)
| LDelay (l : DelayManager.Label T R) (** the delay manager's goroutine and clock *)
| LParentDone (gen : nat).          (** the context given to [Start] ends *)

(** Where a call enters. *)
Definition entry (t : Thread) : bool :=
  match t with
  | PCheck _ | DCheck _ _ _ _ | CStart => true
  | CGuard KStopGraceful | CFlag KShutdown | CFlag KShutdownGraceful | CFlag KStop => true
  | _ => false
  end.
Definition delay_internal (l : DelayManager.Label T R) : bool :=
  match l with
  | DelayManager.Add _ _ _ _ | DelayManager.StopCall | DelayManager.StopReturn => false
  | _ => true
  end.

Definition step (l : Label) (p : Pool) : option Pool :=
  match l with
  | LSpawn t => if entry t then Some (set_threads (threads p ++ [t]) p) else None
  | LPost i =>
      t ← threads p !! i;
      '(t, p) ← post_step t p;
      Some (set_threads (<[i:=t]> (threads p)) p)
  | LClose i choice =>
      t ← threads p !! i;
      '(t, p) ← closer_step choice t p;
      Some (set_threads (<[i:=t]> (threads p)) p)
  | LWorker i choice =>
      '(gen, w) ← workers p !! i;
      '(w, p) ← worker_step i gen choice w p;
      Some (set_workers (<[i:=(gen, w)]> (workers p)) p)
  | LDelay l =>
      if delay_internal l then
        dm ← DelayManager.step l (delayManager (scheduler p));
        Some (on_sched (upd_delay dm) p)
      else None
  | LParentDone gen =>
      if decide (gen < length (ctx_done p)) then Some (set_ctx (<[gen:=true]> (ctx_done p)) p)
      else None
  end.

Definition reachable_pool (t0 : Z) : Pool → Prop := reachable step (NewGoroutineThreadPool t0).
End scheduler.
Arguments TaskScheduler Q T R : clear implicits.
Arguments Pool Q T R : clear implicits.
Arguments Worker T : clear implicits.
Arguments Thread T R : clear implicits.
Arguments Label T R : clear implicits.

(** ** Weights: what each goroutine contributes to the accounting *)

Section weights.
Context {T R : Type}.

(** Pushed, signal not sent yet. *)
Definition w_unsignalled (t : Thread T R) : Z :=
  match t with PMetric | PSignal => 1 | _ => 0 end.
(** Pushed, [metricQueued] not incremented yet. *)
Definition w_uncounted (t : Thread T R) : Z := match t with PMetric => 1 | _ => 0 end.
(** Cleared the queue, about to reset [metricQueued]. *)
Definition w_clearing (t : Thread T R) : Z := match t with CZero _ _ => 1 | _ => 0 end.
(** Past the shutdown check, not pushed yet. *)
Definition late_push (t : Thread T R) : list (TaskItem T) :=
  match t with PPush it => [it] | _ => [] end.

Definition w_woken (w : nat * Worker T) : Z := match w with (_, WPoll true) => 1 | _ => 0 end.
Definition w_waiting (w : nat * Worker T) : Z := match w with (_, WSelect) => 1 | _ => 0 end.
(** Popped, [metricQueued] not decremented yet. *)
Definition w_got (w : nat * Worker T) : Z := match w with (_, WGot _) => 1 | _ => 0 end.
(** Between [OnTaskStart] and [OnTaskEnd]. *)
Definition w_active (w : nat * Worker T) : Z :=
  match w with (_, WRun _) | (_, WEnd _ _) => 1 | _ => 0 end.
(** The task a worker has taken and not finished. *)
Definition in_hand (w : nat * Worker T) : list (TaskItem T) :=
  match w with (_, WGot it) | (_, WStart it) | (_, WRun it) | (_, WEnd it _) => [it] | _ => [] end.
End weights.

Section scheduler_lemmas.
Context {Q T R : Type} `{TaskQueueLaws Q T}.
Context (workerCount : nat).
Implicit Types p : Pool Q T R.
Notation step := (step (Q:=Q) (T:=T) (R:=R) workerCount).
Notation reach t0 p := (reachable_pool (Q:=Q) (T:=T) (R:=R) workerCount t0 p).

Definition items p : list (TaskItem T) := tq_items (queue (scheduler p)).
Definition qlen p : Z := Z.of_nat (length (items p)).
Definition held p : list (TaskItem T) := workers p ≫= in_hand.

Lemma delay_stop_fields (s : TaskScheduler Q T R) :
  ∃ dm, delay_stop s = upd_delay dm s.
Proof.
  unfold delay_stop. destruct (DelayManager.step _ _) as [dm|]; eauto.
  exists (delayManager s). by destruct s.
Qed.

Lemma delay_stop_return_fields (s s' : TaskScheduler Q T R) :
  delay_stop_return s = Some s' → ∃ dm, s' = upd_delay dm s.
Proof.
  unfold delay_stop_return. intros E.
  destruct (DelayManager.stop _);
    match type of E with
    | (_ ← ?m; _) = _ => destruct m as [dm|]; [|done]
    end; simpl in E; simplify_eq; eauto.
Qed.
End scheduler_lemmas.

(** All the cases of a step [H : step l p = Some p']. *)
Ltac sched_cases H :=
  let fin := repeat (first [ progress simplify_eq/= | case_match | case_decide ]) in
  match type of H with
  | step _ ?l ?p = Some _ =>
      destruct l as [t|i|i choice|i choice|dl|gen]; simpl in H;
      [ destruct (entry t) eqn:Hentry; [|discriminate H]; injection H as <-;
        destruct t; try discriminate Hentry
      | destruct (threads p !! i) as [t|] eqn:Ht; [|discriminate H]; simpl in H;
        destruct t; try discriminate H; simpl in H; fin
      | destruct (threads p !! i) as [t|] eqn:Ht; [|discriminate H]; simpl in H;
        destruct t; try discriminate H; cbn [closer_step shutdown_step stop_step] in H;
        try unfold Start in H; simpl in H;
        try (let s' := fresh "s" in
             destruct (delay_stop_return (scheduler p)) as [s'|] eqn:Hds; [|discriminate H];
             apply delay_stop_return_fields in Hds as [? ->]; simpl in H);
        try (destruct (delay_stop_fields (scheduler p)) as [? Hds]; unfold on_sched in H; rewrite Hds in H);
        fin
      | destruct (workers p !! i) as [[gen w]|] eqn:Hw; [|discriminate H]; simpl in H;
        destruct w as [wk|it|it|it|it pn|it pn| |]; try discriminate H;
        cbn [worker_step getwork_step] in H; simpl in H;
        try (let o := fresh "o" in let q := fresh "q" in
             destruct (tq_Pop (queue (scheduler p))) as [[o q]|] eqn:Hpop; [|discriminate H];
             destruct o; simpl in H);
        fin
      | destruct (delay_internal dl); [|discriminate H];
        destruct (DelayManager.step dl _) eqn:Hdl; [|discriminate H]; simpl in H; simplify_eq/=
      | case_decide; [|discriminate H]; simplify_eq/= ]
  end.

Section scheduler_invariants.
Context {Q T R : Type} `{TaskQueueLaws Q T}.
Context (workerCount : nat).
Implicit Types p : Pool Q T R.
Notation step := (step (Q:=Q) (T:=T) (R:=R) workerCount).
Notation reach t0 p := (reachable_pool (Q:=Q) (T:=T) (R:=R) workerCount t0 p).

Lemma queue_ok_step l p p' :
  tq_ok (queue (scheduler p)) → step l p = Some p' → tq_ok (queue (scheduler p')).
Proof.
  intros Hok E. sched_cases E; simpl; try done; auto using tq_push_ok.
  - by apply tq_clear_ok.
  - by apply tq_pop_got in Hpop as [? ?].
  - by apply tq_pop_none in Hpop as [? ->].
Qed.

Lemma queue_ok t0 p : reach t0 p → tq_ok (queue (scheduler p)).
Proof.
  apply (reachable_invariant step (λ p, tq_ok (queue (scheduler p)))).
  - apply tq_new_ok.
  - intros; eauto using queue_ok_step.
Qed.

(** *** How the queue moves *)

Lemma pop_some_len (q : Q) it q' :
  tq_ok q → tq_Pop q = Ret (Some it, q') →
  Z.of_nat (length (tq_items q)) = (Z.of_nat (length (tq_items q')) + 1)%Z.
Proof. intros Hok E. apply tq_pop_got in E as (_ & -> & _); [simpl; lia|done]. Qed.

Lemma push_len id t tr (q : Q) :
  tq_ok q → Z.of_nat (length (tq_items (tq_PushWithID id t tr q)))
            = (Z.of_nat (length (tq_items q)) + 1)%Z.
Proof. intros Hok. rewrite tq_push_items by done. simpl. lia. Qed.

Lemma clear_items (q : Q) : tq_ok q → tq_items (tq_Clear q) = [].
Proof. intros Hok. by apply tq_clear_ok. Qed.

(** *** Workers and contexts *)

Lemma workers_count_step l p p' :
  length (workers p) = length (ctx_done p) * workerCount → step l p = Some p' →
  length (workers p') = length (ctx_done p') * workerCount.
Proof.
  intros Hl E. sched_cases E; simpl;
    rewrite ?length_insert, ?length_app, ?length_replicate; simpl; lia.
Qed.

Lemma workers_count t0 p :
  reach t0 p → length (workers p) = length (ctx_done p) * workerCount.
Proof.
  apply (reachable_invariant step (λ p, length (workers p) = length (ctx_done p) * workerCount)).
  - done.
  - intros; eauto using workers_count_step.
Qed.

Lemma waiting_le p : (total w_waiting (workers p) <= Z.of_nat (length (workers p)))%Z.
Proof.
  rewrite <- (Z.mul_1_l (Z.of_nat _)), <- (total_const (λ _, 1%Z) 1); [|done].
  apply total_le. intros [g []]; simpl; nia.
Qed.

(** *** No lost wakeup *)

(** The tasks that no woken worker and no poster answers for are covered by
    tokens, or there is a token for every sleeping worker. *)
Definition wake_ok p : Prop :=
  (qlen p - total w_woken (workers p) - total w_unsignalled (threads p)
     <= Z.of_nat (signal (scheduler p)))%Z
  ∨ (total w_waiting (workers p) <= Z.of_nat (signal (scheduler p)))%Z.

Lemma ctx_mono_step l p p' :
  step l p = Some p' → length (ctx_done p) ≤ length (ctx_done p').
Proof. intros E. sched_cases E; simpl; rewrite ?length_insert, ?length_app; simpl; lia. Qed.

Lemma wake_nonneg p :
  (0 <= total w_woken (workers p) ∧ 0 <= total w_waiting (workers p) ∧
   0 <= total w_unsignalled (threads p))%Z.
Proof. repeat split; apply total_nonneg; [intros [? []]..|intros []]; simpl; try case_match; lia. Qed.

Lemma wake_step l p p' :
  tq_ok (queue (scheduler p)) → length (workers p) ≤ signal_cap workerCount →
  wake_ok p → step l p = Some p' → wake_ok p'.
Proof.
  intros Hok Hlen Hwake E. pose proof (wake_nonneg p) as (Hn1 & Hn2 & Hn3).
  pose proof (waiting_le p) as Hwl.
  unfold wake_ok, qlen, items in *.
  sched_cases E; simpl in *; rw_total; simpl; try lia.
  - rewrite (push_len _ _ _ _ Hok). lia.
  - rewrite (clear_items _ Hok). simpl. lia.
  - rewrite !total_app, !total_replicate. simpl. lia.
  - rewrite (pop_some_len _ _ _ Hok Hpop) in Hwake.
    destruct wk; lia.
  - apply tq_pop_none in Hpop as [Hnil ->]; [|done]. rewrite Hnil. simpl.
    assert (b2z wk <= total w_woken (workers p))%Z.
    { eapply (total_lookup_le w_woken _ _ (gen, WPoll wk)) in Hw; [by destruct wk|].
      intros [? []]; simpl; try case_match; lia. }
    destruct wk; simpl in *; lia.
Qed.

(** *** The counters *)

Lemma wrap_int32_add x y : wrap_int32 (wrap_int32 x + y) = wrap_int32 (x + y).
Proof.
  unfold wrap_int32. f_equal.
  replace ((x + 2 ^ 31) `mod` 2 ^ 32 - 2 ^ 31 + y + 2 ^ 31)%Z
    with ((x + 2 ^ 31) `mod` 2 ^ 32 + y)%Z by lia.
  rewrite Zplus_mod_idemp_l. f_equal. lia.
Qed.

Lemma wrap_int32_sub x y : wrap_int32 (wrap_int32 x - y) = wrap_int32 (x - y).
Proof. apply (wrap_int32_add x (- y)). Qed.

Definition metrics_ok p : Prop :=
  (cleared p = None →
     total w_clearing (threads p) = 0%Z ∧
     metricQueued (scheduler p) =
       wrap_int32 (qlen p + total w_got (workers p) - total w_uncounted (threads p))) ∧
  metricActive (scheduler p) = wrap_int32 (total w_active (workers p)).

Lemma not_clearing p i k e :
  total w_clearing (threads p) = 0%Z → threads p !! i ≠ Some (CZero k e).
Proof.
  intros Hz Ht. pose proof (total_zero_lookup w_clearing _ _ _ ltac:(intros []; simpl; lia) Hz Ht).
  done.
Qed.

Lemma metrics_step l p p' :
  tq_ok (queue (scheduler p)) → metrics_ok p → step l p = Some p' → metrics_ok p'.
Proof.
  intros Hok [Hq Ha] E. unfold metrics_ok, qlen, items in *.
  sched_cases E; simpl in *; rw_total; rewrite ?total_app, ?total_replicate; simpl;
    (split; [intros Hc; try discriminate Hc; destruct (Hq Hc) as [Hz Hq'];
             try (exfalso; by apply (not_clearing p i k e Hz Ht));
             (split; [lia|]); rewrite ?Hq' | ]);
    rewrite ?Ha, ?wrap_int32_add, ?wrap_int32_sub; try (f_equal; lia); try done.
  - f_equal. rewrite (push_len _ _ _ _ Hok). lia.
  - f_equal. rewrite (pop_some_len _ _ _ Hok Hpop). lia.
  - f_equal. apply tq_pop_none in Hpop as [_ ->]; [lia|done].
Qed.

Lemma metrics_reach t0 p : reach t0 p → metrics_ok p.
Proof.
  apply (reachable_invariant_with step (λ p, tq_ok (queue (scheduler p)))).
  - apply queue_ok.
  - split; [|done]. split; [done|]. unfold qlen, items. simpl. by rewrite tq_new_items.
  - intros; eauto using metrics_step.
Qed.

(** *** Tasks are neither lost nor duplicated *)

Definition conserved p : Prop :=
  pushed p ≡ₚ items p ++ held p ++ done p ++ default [] (cleared p).

Lemma fresh_workers n g : replicate n (g, WPoll (T:=T) false) ≫= in_hand = [].
Proof. by induction n. Qed.

Lemma conserved_step l p p' :
  tq_ok (queue (scheduler p)) → conserved p → step l p = Some p' → conserved p'.
Proof.
  intros Hok Hc E. unfold conserved, items in *.
  sched_cases E; simpl in *; unfold held in *; simpl in *; try done.
  all: try (match goal with
         | Hw : workers ?p !! ?i = Some ?w |- context [<[?i:=?w']> (workers ?p) ≫= in_hand] =>
           destruct (bind_insert in_hand (workers p) i w w' Hw) as (rest & Hr1 & Hr2) end;
         rewrite Hr2; rewrite Hr1 in Hc; simpl in * ).
  - rewrite tq_push_items, Hc by done. destruct it. perm_solve.
  - rewrite (clear_items _ Hok), Hc, drain_items by (done || by rewrite tq_len). perm_solve.
  - rewrite bind_app, fresh_workers, Hc. perm_solve.
  - rewrite Hc. apply tq_pop_got in Hpop as (_ & -> & _); [perm_solve|done].
  - rewrite Hc. by apply tq_pop_none in Hpop as [_ ->].
  - by rewrite Hc.
  - by rewrite Hc.
  - by rewrite Hc.
  - rewrite Hc. perm_solve.
  - by rewrite Hc.
  - by rewrite Hc.
  - by rewrite Hc.
  - by rewrite Hc.
Qed.

Lemma conserved_reach t0 p : reach t0 p → conserved p.
Proof.
  apply (reachable_invariant_with step (λ p, tq_ok (queue (scheduler p)))).
  - apply queue_ok.
  - unfold conserved, items. simpl. by rewrite tq_new_items.
  - intros; eauto using conserved_step.
Qed.

Lemma got_le_held p :
  (0 <= total w_got (workers p) <= Z.of_nat (length (held p)))%Z.
Proof.
  unfold held. induction (workers p) as [|[g w] ws IH]; [simpl; lia|].
  rewrite bind_cons, total_cons, length_app. destruct w; simpl length; simpl w_got; lia.
Qed.

Lemma counted_bounds t0 p :
  reach t0 p →
  (qlen p + total w_got (workers p) <= Z.of_nat (length (pushed p)))%Z.
Proof.
  intros Hr. pose proof (conserved_reach t0 p Hr) as Hc. pose proof (got_le_held p).
  unfold conserved in Hc. apply Permutation_length in Hc. rewrite !length_app in Hc.
  unfold qlen. lia.
Qed.

Lemma uncounted_le t0 p :
  reach t0 p → (0 <= total w_uncounted (threads p) <= Z.of_nat (length (pushed p)))%Z.
Proof.
  intros Hr. split; [apply total_nonneg; by intros []|]. revert Hr.
  apply (reachable_invariant step
    (λ p, total w_uncounted (threads p) <= Z.of_nat (length (pushed p)))%Z); [done|].
  intros l q q' Hq E. sched_cases E; simpl in *; rw_total; rewrite ?length_app; simpl; lia.
Qed.

Lemma wake_reach t0 p : reach t0 p → length (ctx_done p) ≤ 2 → wake_ok p.
Proof.
  intros Hr. induction Hr as [|l p p' Hr IH E]; intros Hg.
  - left. unfold qlen, items. simpl. rewrite tq_new_items. simpl. lia.
  - pose proof (ctx_mono_step _ _ _ E). eapply wake_step; [| |apply IH; lia|exact E].
    + by eapply queue_ok.
    + rewrite (workers_count t0 p Hr). unfold signal_cap. nia.
Qed.
End scheduler_invariants.

Section scheduler_closing.
Context {Q T R : Type} `{TaskQueueLaws Q T}.
Context (workerCount : nat).
Implicit Types p : Pool Q T R.
Notation step := (step (Q:=Q) (T:=T) (R:=R) workerCount).
Notation reach t0 p := (reachable_pool (Q:=Q) (T:=T) (R:=R) workerCount t0 p).

(** *** After the flag is set *)

(** The posts that passed the shutdown check and are still to push. *)
Definition late p : list (TaskItem T) := threads p ≫= late_push.

Lemma closing_step l p p' :
  shuttingDown (scheduler p) = true → step l p = Some p' →
  shuttingDown (scheduler p') = true ∧ pushed p' ++ late p' ≡ₚ pushed p ++ late p.
Proof.
  intros Hs E. unfold late.
  sched_cases E; simpl in *; try congruence; (split; [done|]); try done;
    rewrite ?bind_app; simpl; rewrite ?app_nil_r; try done;
    match goal with
    | Ht : threads ?p !! ?i = Some ?t |- context [<[?i:=?t']> (threads ?p) ≫= _] =>
      let Hl1 := fresh "Hl" in let Hl2 := fresh "Hl" in
      destruct (bind_insert late_push (threads p) i t t' Ht) as (rest & Hl1 & Hl2);
      rewrite Hl2, Hl1
    end; try done.
  simpl. by rewrite <- app_assoc.
Qed.

Lemma cleared_mono_step l p p' : step l p = Some p' → cleared p' = None → cleared p = None.
Proof. intros E Hc. sched_cases E; simpl in *; congruence. Qed.

(** *** A graceful stop that returns nil *)

Definition idle p : Prop := Forall (λ w, in_hand w = []) (workers p).

(** What a thread of [StopGraceful] has established where it stands. *)
Definition drained_at p (t : Thread T R) : Prop :=
  match t with
  | CTick k => k = KStopGraceful
  | CTickActive k | CRunning k ErrNil => k = KStopGraceful ∧ items p = []
  | CCancel _ ErrNil | CJoin _ ErrNil => items p = []
  | CFinish _ ErrNil | CReturned _ ErrNil => items p = [] ∧ idle p
  | CClear _ ErrTimeout | CZero _ ErrTimeout | CRunning _ ErrTimeout | CCancel _ ErrTimeout
  | CJoin _ ErrTimeout | CFinish _ ErrTimeout | CReturned _ ErrTimeout => True
  | _ => False
  end.

Record quiet p : Prop := {
  q_ok : tq_ok (queue (scheduler p));
  q_shut : shuttingDown (scheduler p) = true;
  q_late : late p = [];
  q_uncounted : total w_uncounted (threads p) = 0%Z;
  q_metrics : metrics_ok p;
  q_conserved : conserved p;
  q_small : (Z.of_nat (length (pushed p)) < 2 ^ 31)%Z;
}.

Lemma no_late p i it : late p = [] → threads p !! i ≠ Some (PPush it).
Proof.
  intros Hl Ht. pose proof (bind_delete late_push _ _ _ Ht) as E.
  unfold late in Hl. rewrite Hl in E. by apply Permutation_nil in E.
Qed.

Lemma no_uncounted p i : total w_uncounted (threads p) = 0%Z → threads p !! i ≠ Some PMetric.
Proof.
  intros Hz Ht. pose proof (total_zero_lookup w_uncounted _ _ _ ltac:(intros []; simpl; lia) Hz Ht).
  done.
Qed.

Lemma quiet_step l p p' : quiet p → step l p = Some p' → quiet p'.
Proof.
  intros [Ho Hs Hl Hu Hm Hc Hb] E.
  destruct (closing_step _ _ _ Hs E) as [Hs' Hp]. rewrite Hl, app_nil_r in Hp.
  assert (Hl' : pushed p' = pushed p ∧ late p' = []).
  { assert (pushed p' = pushed p) as Hpp.
    { clear -Hl E H0. sched_cases E; simpl; try done. by apply no_late in Ht. }
    split; [done|]. rewrite Hpp in Hp.
    apply Permutation_length in Hp. rewrite length_app in Hp. destruct (late p'); simpl in *; [done|lia]. }
  destruct Hl' as [Hpp Hl'].
  split; eauto using queue_ok_step, metrics_step, conserved_step.
  - clear Hm Hc Hb Hp Hpp Hl' Hs'. sched_cases E; simpl; rw_total; simpl; try lia.
    + by apply no_late in Ht.
    + by apply no_uncounted in Ht.
  - by rewrite Hpp.
Qed.

(** With nothing late or uncounted, a zero [metricQueued] means the queue is
    empty and no worker holds an uncounted task. *)
Lemma queued_zero p :
  quiet p → cleared p = None → QueuedTaskCount (scheduler p) = 0%Z → items p = [].
Proof.
  intros [Ho Hs Hl Hu [Hm _] Hc Hb] Hcl Hz. destruct (Hm Hcl) as [_ Hq].
  unfold QueuedTaskCount in Hz. rewrite Hz, Hu in Hq.
  pose proof (got_le_held p) as Hg.
  apply Permutation_length in Hc. rewrite !length_app in Hc. unfold qlen in Hq.
  rewrite wrap_int32_id in Hq by lia.
  apply length_zero_iff_nil. lia.
Qed.

Lemma items_empty_step l p p' : quiet p → items p = [] → step l p = Some p' → items p' = [].
Proof.
  intros [Ho Hs Hl Hu Hm Hc Hb] Hi E. unfold items in *. sched_cases E; simpl in *; try done.
  - by apply no_late in Ht.
  - by apply clear_items.
  - apply tq_pop_got in Hpop as (_ & Hp & _); [|done]. rewrite Hi in Hp.
    by apply Permutation_nil_cons in Hp.
  - by apply tq_pop_none in Hpop as [_ ->].
Qed.

Lemma idle_held p : idle p → held p = [].
Proof. unfold idle, held. induction 1 as [|w ws E _ IH]; [done|]. by rewrite bind_cons, E. Qed.

Lemma idle_step l p p' : quiet p → items p = [] → idle p → step l p = Some p' → idle p'.
Proof.
  intros Hq Hi Hh E. pose proof (q_ok _ Hq) as Ho. unfold idle, items in *.
  sched_cases E; simpl in *; try done;
    try (pose proof (Forall_lookup_1 _ _ _ _ Hh Hw) as Hx; discriminate Hx);
    try (apply Forall_insert; [done|done]).
  - apply Forall_app. split; [done|]. by apply Forall_replicate.
  - apply tq_pop_got in Hpop as (_ & Hp & _); [|done]. rewrite Hi in Hp.
    by apply Permutation_nil_cons in Hp.
Qed.

Lemma worker_done_idle p : forallb worker_done (workers p) = true → idle p.
Proof.
  intros Hd. apply Forall_forall. intros [g w] Hin.
  rewrite List.forallb_forall in Hd. apply list_elem_of_In in Hin. specialize (Hd _ Hin).
  by destruct w.
Qed.

(** One step keeps what the stopping thread [i] has established. *)
Lemma drained_step l p p' j th :
  quiet p → threads p !! j = Some th → drained_at p th → step l p = Some p' →
  cleared p' = None → ∃ th', threads p' !! j = Some th' ∧ drained_at p' th'.
Proof.
  intros Hq Htj Hd E Hc'.
  pose proof (cleared_mono_step _ _ _ E Hc') as Hc.
  assert (Hkeep : drained_at p' th).
  { pose proof (λ Hi, items_empty_step _ _ _ Hq Hi E) as H1.
    pose proof (λ Hi Hh, idle_step _ _ _ Hq Hi Hh E) as H2.
    destruct th; simpl in *; try case_match; naive_solver. }
  sched_cases E; simpl in *;
    try (by exists th); try (exists th; split; [by apply lookup_app_l_Some|done]);
    (destruct (decide (i = j)) as [->|Hne];
     [ rewrite Htj in Ht; injection Ht as ->; clear Hkeep; simpl in Hd;
       eexists; split; [apply list_lookup_insert_eq; by eapply lookup_lt_Some|]
     | exists th; split; [by rewrite list_lookup_insert_ne|done] ]); simpl; try done.
  - by destruct e.
  - by destruct e.
  - split; [done|]. apply (queued_zero p0); [done|done|by apply Z.eqb_eq].
  - by destruct Hd as [-> ?].
  - by destruct Hd as [-> ?].
  - by destruct e; [destruct Hd|].
  - by destruct e; [destruct Hd|].
  - destruct e; [|done]. by destruct Hd as [-> ?].
  - destruct e; [|done]. split; [done|]. by apply worker_done_idle.
Qed.
End scheduler_closing.

(** ** Theorems *)

Section scheduler_theorems.
Context {Q T R : Type} `{TaskQueueLaws Q T}.
Context (workerCount : nat).
Implicit Types p : Pool Q T R.
Notation step := (step (Q:=Q) (T:=T) (R:=R) workerCount).
Notation reach t0 p := (reachable_pool (Q:=Q) (T:=T) (R:=R) workerCount t0 p).

(** C8. No lost wakeup: for a pool started at most twice, in every reachable state where a
    task is queued, a worker sleeps in GetWork, no post is between its push and its signal and
    no woken worker is about to pop, the sleeping worker can receive a signal token. *)
Theorem sched_no_lost_wakeup t0 p i gen :
  reach t0 p → length (ctx_done p) ≤ 2 →
  items p ≠ [] → workers p !! i = Some (gen, WSelect) →
  total w_unsignalled (threads p) = 0%Z → total w_woken (workers p) = 0%Z →
  ∃ p', step (LWorker i true) p = Some p' ∧ workers p' !! i = Some (gen, WPoll true).
Proof.
  intros Hr Hg Hi Hw Hu Hk.
  assert (0 < signal (scheduler p)) as Hs.
  { assert (0 < qlen p)%Z by (unfold qlen; destruct (items p); simpl; [done|lia]).
    assert (1 <= total w_waiting (workers p))%Z.
    { apply (total_lookup_le w_waiting _ i (gen, WSelect)); [|done]. by intros [? []]. }
    destruct (wake_reach workerCount t0 p Hr Hg); lia. }
  simpl. rewrite Hw. simpl. destruct (signal (scheduler p)) as [|n] eqn:E; [lia|].
  eexists. split; [done|]. simpl. apply list_lookup_insert_eq. by eapply lookup_lt_Some.
Qed.

(** C33. As long as nothing was force-cleared and fewer than 2^31 tasks were pushed,
    QueuedTaskCount is the queue length corrected by the posts and pops in flight; and with
    fewer than 2^31 workers ActiveTaskCount is the number of tasks between OnTaskStart and
    OnTaskEnd. *)
Theorem sched_counters t0 p :
  reach t0 p →
  (cleared p = None → (Z.of_nat (length (pushed p)) < 2 ^ 31)%Z →
     QueuedTaskCount (scheduler p) =
       (Z.of_nat (tq_Len (queue (scheduler p)))
        + total w_got (workers p) - total w_uncounted (threads p))%Z) ∧
  ((Z.of_nat (length (workers p)) < 2 ^ 31)%Z →
     ActiveTaskCount (scheduler p) = total w_active (workers p)).
Proof.
  intros Hr. pose proof (queue_ok workerCount t0 p Hr) as Ho.
  destruct (metrics_reach workerCount t0 p Hr) as [Hq Ha].
  split.
  - intros Hc Hb. unfold QueuedTaskCount. destruct (Hq Hc) as [_ ->]. rewrite tq_len by done. apply wrap_int32_id.
    pose proof (counted_bounds workerCount t0 p Hr). pose proof (got_le_held p).
    pose proof (uncounted_le workerCount t0 p Hr). unfold qlen, items in *. lia.
  - intros Hb. unfold ActiveTaskCount. rewrite Ha. apply wrap_int32_id.
    assert (0 <= total w_active (workers p) <= Z.of_nat (length (workers p)))%Z; [|lia].
    split; [apply total_nonneg; by intros [? []]|].
    rewrite <- (Z.mul_1_l (Z.of_nat _)), <- (total_const (λ _, 1%Z) 1); [|done].
    apply total_le. by intros [? []].
Qed.

(** C14. The scheduler and its workers neither lose nor duplicate tasks: the tasks pushed are,
    as a multiset, those queued, those in the hands of workers, those finished and those
    removed by a forced Shutdown. *)
Theorem sched_conserves t0 p :
  reach t0 p →
  pushed p ≡ₚ tq_items (queue (scheduler p)) ++ (workers p ≫= in_hand)
              ++ done p ++ default [] (cleared p).
Proof. apply conserved_reach. Qed.

(** Once the scheduler is shutting down it never accepts again, and the only tasks pushed
    later are those of posts already past the check. *)
Theorem sched_rejects_after_shutdown p p' :
  shuttingDown (scheduler p) = true → reachable step p p' →
  shuttingDown (scheduler p') = true ∧
  pushed p' ++ (threads p' ≫= late_push) ≡ₚ pushed p ++ (threads p ≫= late_push).
Proof.
  intros Hs. induction 1 as [|l q q' _ [IH1 IH2] E]; [done|].
  destruct (closing_step workerCount _ _ _ IH1 E) as [? E2]. split; [done|].
  by rewrite E2.
Qed.

(** C10. If StopGraceful returns nil, no other Stop cleared the queue, and at some point of
    its wait no post was between its shutdown check and its increment of the queue metric, and
    fewer than 2^31 tasks had ever been pushed to the pool by then (the metric is an int32),
    then every accepted task has been executed exactly once and the queue is empty. *)
Theorem sched_graceful_drains t0 p0 p i :
  reach t0 p0 → reachable step p0 p →
  (* at some point of the wait no post is between its check and its count *)
  threads p0 !! i = Some (CTick KStopGraceful) → shuttingDown (scheduler p0) = true →
  (threads p0 ≫= late_push) = [] → total w_uncounted (threads p0) = 0%Z →
  (Z.of_nat (length (pushed p0)) < 2 ^ 31)%Z →
  (* the call returned nil and no other call of Stop cleared the queue *)
  threads p !! i = Some (CReturned KStopGraceful ErrNil) → cleared p = None →
  done p ≡ₚ pushed p ∧ tq_Len (queue (scheduler p)) = 0.
Proof.
  intros Hr0 Hr Hi Hs Hl Hu Hb Hi' Hc.
  assert (quiet p0) as Hq.
  { split; eauto using queue_ok, metrics_reach, conserved_reach. }
  assert (quiet p ∧ ∃ th, threads p !! i = Some th ∧ drained_at p th) as (Hq' & th & Hth & Hd).
  { clear Hi'. induction Hr as [|l q q' Hr IH E]; [by split; [|exists (CTick KStopGraceful)]|].
    destruct (IH (cleared_mono_step workerCount _ _ _ E Hc)) as (Hq1 & th & Hth & Hd).
    split; [by eapply quiet_step|]. by eapply drained_step. }
  rewrite Hi' in Hth. injection Hth as <-. destruct Hd as [Hn Hid].
  destruct Hq' as [Ho _ _ _ _ Hcons _]. unfold conserved in Hcons.
  rewrite Hn, (idle_held _ Hid), Hc in Hcons. simpl in Hcons. rewrite app_nil_r in Hcons.
  split; [done|]. rewrite tq_len by done. unfold items in Hn. by rewrite Hn.
Qed.
End scheduler_theorems.

(** ** Concrete runs: [NewGoroutineThreadPool] with its FIFO queue, tasks are
    numbers *)

Module Demo.
#[local] Existing Instance FIFOQueue.FIFO_TaskQueue.
#[export] Instance demo_queue : TaskQueue (FIFOQueue.FIFOTaskQueue nat) nat :=
  FIFOQueue.FIFO_TaskQueue grow_double.
#[export] Instance demo_laws : TaskQueueLaws (FIFOQueue.FIFOTaskQueue nat) nat :=
  FIFOQueue.FIFO_Laws grow_double grow_double_ok.

Definition pool := Pool (FIFOQueue.FIFOTaskQueue nat) nat unit.
Definition init : pool := NewGoroutineThreadPool 0.
Definition task (n : nat) : TaskItem nat := MkTaskItem n DefaultTaskTraits (N.of_nat n).

(** [Start], and the workers go to sleep on the empty queue. *)
Definition boot : list (Label nat unit) :=
  [LSpawn CStart; LClose 0 true; LWorker 0 true; LWorker 1 true;
   LDelay DelayManager.LoopStep; LDelay DelayManager.LoopStep].
(** A post by thread [i]. *)
Definition post (i n : nat) : list (Label nat unit) :=
  [LSpawn (PCheck (task n)); LPost i; LPost i; LPost i; LPost i].
(** Worker [w] is woken, pops a task and runs it to its end. *)
Definition serve (w : nat) (ok : bool) : list (Label nat unit) :=
  [LWorker w true; LWorker w true; LWorker w true; LWorker w true; LWorker w ok;
   LWorker w true; LWorker w true].
(** [StopGraceful] by thread [i], until it waits for the tasks. *)
Definition stopping (i : nat) : list (Label nat unit) :=
  [LSpawn (CGuard KStopGraceful); LClose i true; LClose i true; LClose i true;
   LDelay DelayManager.ContextDone; LClose i true].
(** The wait ends, the workers are cancelled and joined. *)
Definition stopped (i : nat) : list (Label nat unit) :=
  [LClose i true; LClose i true; LClose i true; LClose i true;
   LWorker 0 false; LWorker 1 false; LClose i true; LClose i true].

Definition go_to (ls : list (Label nat unit)) : pool :=
  default init (run (step 2) ls init).

Lemma sched_go_to_reach ls :
  bool_decide (is_Some (run (step 2) ls init)) = true → reachable_pool 2 0 (go_to ls).
Proof.
  intros Hb. apply bool_decide_eq_true in Hb as [p E].
  unfold go_to. rewrite E. by eapply run_reachable.
Qed.
End Demo.
Import Demo.

(** Two tasks posted while both workers sleep: one worker can be woken. *)
Lemma sched_no_lost_wakeup_witness :
  let p := go_to (boot ++ post 1 7 ++ post 2 8) in
  ∃ p', step 2 (LWorker 1 true) p = Some p' ∧ workers p' !! 1 = Some (0, WPoll true).
Proof.
  apply (sched_no_lost_wakeup 2 0).
  - apply sched_go_to_reach. vm_compute. reflexivity.
  - vm_compute. lia.
  - vm_compute. discriminate.
  - vm_compute. reflexivity.
  - vm_compute. reflexivity.
  - vm_compute. reflexivity.
Defined.

(** Three posts, one running, one finished by a panic. *)
Lemma sched_counters_witness :
  let p := go_to (boot ++ post 1 7 ++ post 2 8 ++ post 3 9 ++ serve 0 false
                  ++ take 4 (serve 1 true)) in
  QueuedTaskCount (scheduler p) = 1%Z ∧ ActiveTaskCount (scheduler p) = 1%Z.
Proof.
  match goal with |- let p := go_to ?ls in _ =>
    destruct (sched_counters 2 0 (go_to ls)) as [H1 H2] end.
  - apply sched_go_to_reach. vm_compute. reflexivity.
  - split; [rewrite H1|rewrite H2]; vm_compute; reflexivity.
Defined.

Lemma sched_conserves_witness :
  let p := go_to (boot ++ post 1 7 ++ post 2 8 ++ post 3 9 ++ serve 0 false
                  ++ take 4 (serve 1 true)) in
  pushed p ≡ₚ tq_items (queue (scheduler p)) ++ (workers p ≫= in_hand)
              ++ done p ++ default [] (cleared p)
  ∧ done p = [task 7] ∧ (workers p ≫= in_hand) = [task 8].
Proof.
  split; [|split; vm_compute; reflexivity].
  apply (sched_conserves 2 0). apply sched_go_to_reach. vm_compute. reflexivity.
Defined.

Lemma sched_rejects_after_shutdown_witness :
  let p := go_to (boot ++ stopping 1) in
  let p' := go_to (boot ++ stopping 1 ++ [LSpawn (PCheck (task 7)); LPost 2]) in
  pushed p' ++ (threads p' ≫= late_push) ≡ₚ pushed p ++ (threads p ≫= late_push)
  ∧ obs p' = [ObsHandleRejected "shutting down"; ObsTaskRejected "shutting down"].
Proof.
  split; [|vm_compute; reflexivity].
  apply (sched_rejects_after_shutdown 2).
  - vm_compute. reflexivity.
  - eapply (run_reachable _ [LSpawn (PCheck (task 7)); LPost 2]). vm_compute. reflexivity.
Defined.

Lemma sched_graceful_drains_witness :
  let p := go_to (boot ++ post 1 7 ++ stopping 2 ++ serve 0 true ++ [LWorker 0 true] ++ stopped 2) in
  done p ≡ₚ pushed p ∧ pushed p = [task 7] ∧ tq_Len (queue (scheduler p)) = 0.
Proof.
  destruct (sched_graceful_drains 2 0 (go_to (boot ++ post 1 7 ++ stopping 2))
    (go_to (boot ++ post 1 7 ++ stopping 2 ++ serve 0 true ++ [LWorker 0 true] ++ stopped 2)) 2)
    as [H1 H2].
  - apply sched_go_to_reach. vm_compute. reflexivity.
  - eapply (run_reachable _ (serve 0 true ++ [LWorker 0 true] ++ stopped 2)). vm_compute. reflexivity.
  - vm_compute. reflexivity.
  - vm_compute. reflexivity.
  - vm_compute. reflexivity.
  - vm_compute. reflexivity.
  - vm_compute. reflexivity.
  - vm_compute. reflexivity.
  - vm_compute. reflexivity.
  - split; [exact H1|]. split; [vm_compute; reflexivity|exact H2].
Defined.

(** StopGraceful's wait can see two zero counters while a worker holds a popped
    task that is not yet counted. *)
Theorem sched_graceful_early_nil :
  ∃ p : pool, reachable_pool 2 0 p ∧
    threads p !! 2 = Some (CReturned KShutdownGraceful ErrNil) ∧
    workers p !! 0 = Some (0, WStart (task 7)) ∧ done p = [] ∧
    ActiveTaskCount (scheduler p) = 0%Z.
Proof.
  exists (go_to (boot ++ post 1 7 ++ [LWorker 0 true; LWorker 0 true; LWorker 0 true]
    ++ [LSpawn (CFlag KShutdownGraceful); LClose 2 true; LClose 2 true;
        LDelay DelayManager.ContextDone; LClose 2 true; LClose 2 true; LClose 2 true])).
  split; [apply sched_go_to_reach; vm_compute; reflexivity|].
  vm_compute. repeat split.
Qed.

(** A post that passed the check before the shutdown can push after the wait
    ended: its task is never run. *)
Theorem sched_late_post_lost :
  ∃ p : pool, reachable_pool 2 0 p ∧
    threads p !! 1 = Some PReturned ∧ pushed p = [task 7] ∧
    threads p !! 2 = Some (CReturned KStopGraceful ErrNil) ∧
    Forall (λ w, worker_done w = true) (workers p) ∧
    tq_items (queue (scheduler p)) = [task 7] ∧ done p = [].
Proof.
  exists (go_to (boot ++ [LSpawn (PCheck (task 7)); LPost 1] ++ stopping 2 ++ stopped 2
    ++ [LPost 1; LPost 1; LPost 1])).
  split; [apply sched_go_to_reach; vm_compute; reflexivity|].
  vm_compute. repeat constructor.
Qed.
