(* ===== verification/GlobalPool.v ===== *)
(** * The global thread pool (the singleton at the end of pool.go)

    [globalMu] guards the pointer [globalThreadPool].  The pools live in a
    heap, because a goroutine that got the pointer keeps it.  A caller is a
    goroutine inside one of the four functions; it may be a task on a worker
    of one of the pools, which then cannot end before the call returns.  The
    pool itself is the machine of Scheduler.v. *)

From S2P Require Import Prelude GoSlice Task TaskQueue Scheduler.
From S2P Require DelayManager FIFOQueue.

Section global_pool.
Context {Q T R : Type} `{TaskQueue Q T}.
Notation Pool := (Pool Q T R).

Inductive GCall :=
| InitLock (workers : nat)       (** [globalMu.Lock()] *)
| InitBody (workers : nat)
| InitUnlock
| GetLock (create : bool)        (** called by [CreateTaskRunner]? *)
| GetBody (create : bool)
| GetUnlock (create : bool) (got : option nat)
| ShutLock
| ShutBody
| ShutStop (a i : nat)           (** in [Stop] of pool [a], its thread [i] *)
| ShutUnlock
| GReturned (got : option nat)   (** a pool, or a runner on that pool *)
| GPanicked (msg : string).

(** The caller and, for a task, the pool and the worker it runs on. *)
Record GCaller := MkGCaller { on_worker : option (nat * nat); pc : GCall }.

Record Globals := MkGlobals {
  globalMu : option nat;                 (** the caller that holds it *)
  globalThreadPool : option nat;
  pools : list (nat * Pool);             (** the heap, with the worker counts *)
  gcallers : list GCaller;
}.
Definition NewGlobals : Globals := MkGlobals None None [] [].

Definition set_pool (a : nat) (x : nat * Pool) (g : Globals) : Globals :=
  MkGlobals (globalMu g) (globalThreadPool g) (<[a := x]> (pools g)) (gcallers g).
Definition set_mu (m : option nat) (g : Globals) : Globals :=
  MkGlobals m (globalThreadPool g) (pools g) (gcallers g).
Definition set_global (x : option nat) (g : Globals) : Globals :=
  MkGlobals (globalMu g) x (pools g) (gcallers g).
Definition set_callers (l : list GCaller) (g : Globals) : Globals :=
  MkGlobals (globalMu g) (globalThreadPool g) (pools g) l.

Definition not_initialized : string :=
  "GlobalThreadPool not initialized. Call InitGlobalThreadPool() first.".

(** [Lock] waits for the mutex; [defer Unlock] also runs when the body panics. *)
Definition lock (k : nat) (next : GCall) (g : Globals) : option (GCall * Globals) :=
  match globalMu g with None => Some (next, set_mu (Some k) g) | Some _ => None end.

Definition InitGlobalThreadPool_step (k : nat) (c : GCall) (g : Globals) : option (GCall * Globals) :=
  match c with
  | InitLock workers => lock k (InitBody workers) g
  | InitBody workers =>
      match globalThreadPool g with
      | Some _ => Some (InitUnlock, g)
      | None =>
          let pool := Start workers (NewGoroutineThreadPool 0) in
          Some (InitUnlock, MkGlobals (globalMu g) (Some (length (pools g)))
                              (pools g ++ [(workers, pool)]) (gcallers g))
      end
  | InitUnlock => Some (GReturned None, set_mu None g)
  | _ => None
  end.

(** [CreateTaskRunner] calls it and makes a runner on the pool. *)
Definition GetGlobalThreadPool : GCall := GetLock false.
Definition CreateTaskRunner : GCall := GetLock true.
Definition GetGlobalThreadPool_step (k : nat) (c : GCall) (g : Globals) : option (GCall * Globals) :=
  match c with
  | GetLock create => lock k (GetBody create) g
  | GetBody create => Some (GetUnlock create (globalThreadPool g), g)
  | GetUnlock create got =>
      Some (match got with
            | None => GPanicked not_initialized
            | Some a => GReturned (Some a)
            end, set_mu None g)
  | _ => None
  end.

Definition ShutdownGlobalThreadPool_step (k : nat) (c : GCall) (g : Globals)
  : option (GCall * Globals) :=
  match c with
  | ShutLock => lock k ShutBody g
  | ShutBody =>
      match globalThreadPool g with
      | None => Some (ShutUnlock, g)
      | Some a =>
          x ← pools g !! a;
          let '(workers, p) := x in
          Some (ShutStop a (length (threads p)),
                set_pool a (workers, set_threads (threads p ++ [CFlag KStop]) p) g)
      end
  | ShutStop a i =>
      x ← pools g !! a;
      match threads x.2 !! i with
      | Some (CReturned _ _) => Some (ShutUnlock, set_global None g)
      | _ => None
      end
  | ShutUnlock => Some (GReturned None, set_mu None g)
  | _ => None
  end.

(** The body runs under the lock. *)
Definition critical (c : GCall) : bool :=
  match c with
  | InitBody _ | InitUnlock | GetBody _ | GetUnlock _ _ | ShutBody | ShutStop _ _ | ShutUnlock => true
  | _ => false
  end.
Definition caller_step (k : nat) (c : GCall) (g : Globals) : option (GCall * Globals) :=
  if critical c && negb (bool_decide (globalMu g = Some k)) then None else
  match c with
  | InitLock _ | InitBody _ | InitUnlock => InitGlobalThreadPool_step k c g
  | GetLock _ | GetBody _ | GetUnlock _ _ => GetGlobalThreadPool_step k c g
  | _ => ShutdownGlobalThreadPool_step k c g
  end.

Inductive Label :=
| LCall (on_worker : option (nat * nat)) (c : GCall)
| LCaller (k : nat)
| LPool (a : nat) (l : Scheduler.Label T R).

Definition entry (c : GCall) : bool :=
  match c with InitLock _ | GetLock _ | ShutLock => true | _ => false end.
Definition over (c : GCall) : bool :=
  match c with GReturned _ | GPanicked _ => true | _ => false end.
(** Is worker [w] of pool [a] inside a call? *)
Definition in_call (g : Globals) (a w : nat) : bool :=
  existsb (λ x, bool_decide (on_worker x = Some (a, w)) && negb (over (pc x))) (gcallers g).
Definition runs_task (g : Globals) (aw : nat * nat) : bool :=
  match (x ← pools g !! aw.1; workers x.2 !! aw.2) with Some (_, WRun _) => true | _ => false end.

Definition step (l : Label) (g : Globals) : option Globals :=
  match l with
  | LCall w c =>
      if entry c && match w with Some aw => runs_task g aw && negb (in_call g aw.1 aw.2)
                               | None => true end
      then Some (set_callers (gcallers g ++ [MkGCaller w c]) g) else None
  | LCaller k =>
      x ← gcallers g !! k;
      '(c, g) ← caller_step k (pc x) g;
      Some (set_callers (<[k := MkGCaller (on_worker x) c]> (gcallers g)) g)
  | LPool a l =>
      if match l with LWorker w _ => runs_task g (a, w) && in_call g a w | _ => false end then None else
      '(n, p) ← pools g !! a;
      p ← Scheduler.step n l p;
      Some (set_pool a (n, p) g)
  end.
End global_pool.
Arguments Globals Q T R : clear implicits.

Section deadlock.
Context {Q T R : Type} `{TaskQueueLaws Q T}.
Notation Globals := (Globals Q T R).

(** A Stop that waits for the workers, and a worker inside a task. *)
Lemma pool_blocked n l p p' j0 k0 e0 v gen0 it0 :
  Scheduler.step (R:=R) n l p = Some p' → (∀ b, l ≠ LWorker v b) →
  threads p !! j0 = Some (CJoin k0 e0) → workers p !! v = Some (gen0, WRun it0) →
  threads p' !! j0 = Some (CJoin k0 e0) ∧ workers p' !! v = Some (gen0, WRun it0).
Proof.
  intros E0 Hl Hi Hv.
  assert (forallb worker_done (workers p) = false) as Hbusy.
  { apply not_true_iff_false. rewrite forallb_forall. intros Hall.
    specialize (Hall (gen0, WRun it0)). simpl in Hall. discriminate Hall.
    apply list_elem_of_In. by eapply list_elem_of_lookup_2. }
  sched_cases E0; simpl; try congruence;
    (split; [first [exact Hi
                   |by apply lookup_app_l_Some
                   |eapply lookup_insert_other; [exact Ht|exact Hi|discriminate]]
            |first [exact Hv
                   |by apply lookup_app_l_Some
                   |eapply lookup_insert_other; [exact Hw|exact Hv|discriminate]
                   |rewrite list_lookup_insert_ne; [exact Hv|intros ->; by eapply Hl]]]).
Qed.

(** ShutdownGlobalThreadPool holds the mutex inside Stop, which waits for a
    worker whose task waits for the mutex. *)
Record deadlocked (k1 k2 a i v : nat) (g : Globals) : Prop := {
  dl_mu : globalMu g = Some k1;
  dl_shut : ∃ w, gcallers g !! k1 = Some (MkGCaller w (ShutStop a i));
  dl_get : ∃ create, gcallers g !! k2 = Some (MkGCaller (Some (a, v)) (GetLock create));
  dl_pool : ∃ n p e gen it, pools g !! a = Some (n, p) ∧ threads p !! i = Some (CJoin KStop e) ∧
            workers p !! v = Some (gen, WRun it);
}.

Lemma in_call_get (g : Globals) a v k create :
  gcallers g !! k = Some (MkGCaller (Some (a, v)) (GetLock create)) → in_call g a v = true.
Proof.
  intros Hk. unfold in_call. apply existsb_exists. eexists. split.
  - apply list_elem_of_In. by eapply list_elem_of_lookup_2.
  - simpl. by rewrite bool_decide_eq_true_2.
Qed.

(** The other callers cannot do more than wait. *)
Lemma caller_blocked k1 k2 a i v k x c (g g' : Globals) :
  deadlocked k1 k2 a i v g → gcallers g !! k = Some x → caller_step k (pc x) g = Some (c, g') → False.
Proof.
  intros [Hmu [w1 Hk1] [cr Hk2] (n & p & e & gen & it & Hp & Hth & _)] Hk.
  unfold caller_step. destruct (decide (k = k1)) as [->|Hne].
  - rewrite Hk1 in Hk. injection Hk as <-. simpl. rewrite Hmu, bool_decide_eq_true_2 by done. simpl.
    rewrite Hp. simpl. by rewrite Hth.
  - rewrite Hmu. rewrite (bool_decide_eq_false_2 (Some k1 = Some k)) by (intros [= ?]; done).
    destruct (pc x); simpl; unfold lock; rewrite ?Hmu; done.
Qed.

Lemma deadlocked_step k1 k2 a i v l (g g' : Globals) :
  deadlocked k1 k2 a i v g → step l g = Some g' → deadlocked k1 k2 a i v g'.
Proof.
  intros Hd E0. pose proof Hd as [Hmu [w1 Hk1] [cr Hk2] (n & p & e & gen & it & Hp & Hth & Hw)].
  destruct l as [w c|k|a' l]; cbn [step] in E0.
  - case_match; simplify_eq. split; simpl; [done|eexists; by apply lookup_app_l_Some
      |eexists; by apply lookup_app_l_Some|by repeat eexists].
  - destruct (gcallers g !! k) as [x|] eqn:Ek; [|done]. cbn [mbind option_bind] in E0.
    destruct (caller_step k (pc x) g) as [[c g1]|] eqn:Ec; [|done].
    destruct (caller_blocked _ _ _ _ _ _ _ _ _ _ Hd Ek Ec).
  - destruct (match l with LWorker w _ => runs_task g (a', w) && in_call g a' w | _ => false end) eqn:Eg; [done|].
    destruct (pools g !! a') as [[n' p']|] eqn:Ea; [|done]. cbn [mbind option_bind] in E0.
    destruct (Scheduler.step n' l p') as [p1|] eqn:Es; [|done]. cbn [mbind option_bind] in E0.
    injection E0 as <-. split; simpl; [done|by eexists|by eexists|].
    destruct (decide (a' = a)) as [->|Hne].
    + rewrite Ea in Hp. injection Hp as -> ->.
      assert (∀ b, l ≠ LWorker v b) as Hl.
      { intros b ->. rewrite (in_call_get g a v k2 cr Hk2) in Eg. unfold runs_task in Eg. simpl in Eg.
        rewrite Ea in Eg. simpl in Eg. by rewrite Hw in Eg. }
      destruct (pool_blocked _ _ _ _ _ _ _ _ _ _ Es Hl Hth Hw) as [H1 H2].
      eexists _, _, _, _, _. split_and!; [|exact H1|exact H2].
      apply list_lookup_insert_eq. by eapply lookup_lt_Some.
    + eexists _, _, _, _, _. split_and!; [|exact Hth|exact Hw]. by rewrite list_lookup_insert_ne.
Qed.

(** ** One live pool *)

Definition stop_call (t : Thread T R) : bool :=
  match t with
  | CFlag KStop | CDelay KStop | CDelayWait KStop | CClear KStop _ | CZero KStop _
  | CRunning KStop _ | CCancel KStop _ | CJoin KStop _ | CFinish KStop _ | CReturned KStop _ => true
  | _ => false
  end.
Definition stop_returned (t : Thread T R) : bool :=
  match t with CReturned KStop _ => true | _ => false end.

(** A call of Stop stays one, and once returned it has returned. *)
Lemma stop_call_step n l (p p' : Pool Q T R) j0 t0 :
  Scheduler.step n l p = Some p' → threads p !! j0 = Some t0 → stop_call t0 = true →
  ∃ t1, threads p' !! j0 = Some t1 ∧ stop_call t1 = true ∧
        (stop_returned t0 = true → stop_returned t1 = true).
Proof.
  intros E0 Hj Hc.
  sched_cases E0; simpl; try (exists t0; split; [first [exact Hj|by apply lookup_app_l_Some]|done]);
    (destruct (decide (i = j0)) as [->|];
     [rewrite Ht in Hj; injection Hj as <-; rewrite list_lookup_insert_eq by (by eapply lookup_lt_Some);
        eexists; split; [reflexivity|];
        first [discriminate Hc|destruct k; try discriminate Hc; simpl; split; done]
     |exists t0; rewrite list_lookup_insert_ne by done; done]).
Qed.

Definition stopped (x : nat * Pool Q T R) : Prop :=
  ∃ i t, threads x.2 !! i = Some t ∧ stop_returned t = true.

Lemma pool_stopped_step n l (p p' : Pool Q T R) :
  Scheduler.step n l p = Some p' → stopped (n, p) → stopped (n, p').
Proof.
  intros E0 (i & t & Hi & Hr). destruct (stop_call_step _ _ _ _ _ _ E0 Hi) as (t1 & H1 & _ & H2).
  - destruct t; try discriminate Hr. by destruct k.
  - exists i, t1. auto.
Qed.

Record global_inv (g : Globals) : Prop := {
  gi_live a x : pools g !! a = Some x → globalThreadPool g = Some a ∨ stopped x;
  gi_ptr a : globalThreadPool g = Some a → a < length (pools g);
  gi_crit k x : gcallers g !! k = Some x → critical (pc x) = true → globalMu g = Some k;
  gi_shut k w a i : gcallers g !! k = Some (MkGCaller w (ShutStop a i)) →
    globalThreadPool g = Some a ∧
    ∃ x t, pools g !! a = Some x ∧ threads x.2 !! i = Some t ∧ stop_call t = true;
}.

(** A caller moves: the others are outside, unless nothing they rely on changes. *)
Lemma callers_insert (P : nat → GCaller → Prop) (l : list GCaller) k y :
  (∀ k' x, l !! k' = Some x → k' ≠ k → P k' x) → P k y →
  ∀ k' x, <[k := y]> l !! k' = Some x → P k' x.
Proof.
  intros Ho Hy k' x Hx. destruct (decide (k' = k)) as [->|Hne].
  - apply list_lookup_insert_Some in Hx as [(_ & -> & _)|[? _]]; [done|done].
  - rewrite list_lookup_insert_ne in Hx by done. by apply Ho.
Qed.

(** A caller that holds the lock, or takes the free one, is the only one inside. *)
Lemma alone (g : Globals) k x k' y :
  global_inv g → gcallers g !! k = Some x → gcallers g !! k' = Some y → k' ≠ k →
  critical (pc x) = true ∨ globalMu g = None → critical (pc y) = false.
Proof.
  intros Hi Hx Hy Hne Hc. destruct (critical (pc y)) eqn:Ey; [|done].
  pose proof (gi_crit _ Hi _ _ Hy Ey) as H1. destruct Hc as [Hc|Hc].
  - pose proof (gi_crit _ Hi _ _ Hx Hc) as H2. rewrite H1 in H2. by injection H2.
  - by rewrite H1 in Hc.
Qed.

(** The step of a caller, from what it does to the shared state. *)
Lemma global_inv_caller (g g1 : Globals) k x c :
  global_inv g → gcallers g !! k = Some x → gcallers g1 = gcallers g →
  critical (pc x) = true ∨ globalMu g = None →
  (∀ a y, pools g1 !! a = Some y → globalThreadPool g1 = Some a ∨ stopped y) →
  (∀ a, globalThreadPool g1 = Some a → a < length (pools g1)) →
  (critical c = true → globalMu g1 = Some k) →
  (∀ a i, c = ShutStop a i → globalThreadPool g1 = Some a ∧
     ∃ y t, pools g1 !! a = Some y ∧ threads y.2 !! i = Some t ∧ stop_call t = true) →
  global_inv (set_callers (<[k := MkGCaller (on_worker x) c]> (gcallers g1)) g1).
Proof.
  intros Hi Hx Eg Halone H1 H2 H3 H4. rewrite Eg. split; simpl; [done|done| |].
  - apply (callers_insert (λ k' y, critical (pc y) = true → globalMu g1 = Some k')); [|done].
    intros k' y Hy Hne Hc. by rewrite (alone g k x k' y) in Hc.
  - intros k' w a i Hy.
    refine (callers_insert (λ _ y, ∀ a i, pc y = ShutStop a i → globalThreadPool g1 = Some a ∧
        ∃ y t, pools g1 !! a = Some y ∧ threads y.2 !! i = Some t ∧ stop_call t = true)
      (gcallers g) k _ _ _ k' _ Hy a i eq_refl); [|done].
    intros k0 y Hk Hne a0 i0 Ep.
    pose proof (alone g k x k0 y Hi Hx Hk Hne Halone) as Hc. by rewrite Ep in Hc.
Qed.

Lemma stopped_stop_call (x : nat * Pool Q T R) i t :
  threads x.2 !! i = Some t → stop_call t = true →
  match t with CReturned _ _ => stopped x | _ => True end.
Proof. intros Ht Hs. destruct t; try done. exists i. eexists. split; [done|]. by destruct k. Qed.

(** A step of a pool *)
Lemma global_inv_pool a n l (p p1 : Pool Q T R) (g : Globals) :
  global_inv g → pools g !! a = Some (n, p) → Scheduler.step n l p = Some p1 →
  global_inv (set_pool a (n, p1) g).
Proof.
  intros [H1 H2 H3 H4] Ea Es. split; simpl; [| |done|].
  + intros b z Hz. destruct (decide (b = a)) as [->|Hne].
    * rewrite list_lookup_insert_eq in Hz by (by eapply lookup_lt_Some). injection Hz as <-.
      destruct (H1 _ _ Ea) as [?|Hst]; [by left|right; by eapply pool_stopped_step].
    * rewrite list_lookup_insert_ne in Hz by done. by apply H1.
  + intros b Hb. rewrite length_insert. by apply H2.
  + intros k w b j Hk. destruct (H4 _ _ _ _ Hk) as (Hg & y & t & Hy & Ht & Hs). split; [done|].
    destruct (decide (b = a)) as [->|Hne].
    * rewrite Ea in Hy. injection Hy as <-.
      destruct (stop_call_step _ _ _ _ _ _ Es Ht Hs) as (t1 & Ht1 & Hs1 & _).
      exists (n, p1), t1. split; [|done]. apply list_lookup_insert_eq. by eapply lookup_lt_Some.
    * exists y, t. by rewrite list_lookup_insert_ne.
Qed.

Lemma global_inv_step l (g g' : Globals) : global_inv g → step l g = Some g' → global_inv g'.
Proof.
  intros Hi E0. pose proof Hi as [H1 H2 H3 H4]. destruct l as [w c|k|a l]; cbn [step] in E0.
  - destruct (entry c) eqn:Ec; [|done]. simpl in E0. case_match; simplify_eq. split; simpl; [done|done| |].
    + intros k x [Hk|[? [_ <-]%list_lookup_singleton_Some]]%lookup_app_Some; [by apply H3|].
      simpl. by destruct c.
    + intros k x a i [Hk|[? [_ E1]%list_lookup_singleton_Some]]%lookup_app_Some; [by eapply H4|].
      injection E1 as -> ->. done.
  - destruct (gcallers g !! k) as [x|] eqn:Ek; [|done]. cbn [mbind option_bind] in E0.
    destruct (caller_step k (pc x) g) as [[c g1]|] eqn:Ec; [|done]. simpl in E0. injection E0 as <-.
    unfold caller_step in Ec.
    destruct (critical (pc x) && negb (bool_decide (globalMu g = Some k))) eqn:Ecr; [done|].
    assert (critical (pc x) = true ∨ globalMu g = None) as Halone.
    { destruct (pc x); simpl in *; auto; unfold lock in Ec; destruct (globalMu g); auto; done. }
    assert (critical (pc x) = true → globalMu g = Some k) as Hmu by (by apply H3).
    destruct (pc x) eqn:Epc; simpl in Ec, Hmu; unfold lock in Ec;
      repeat case_match; simplify_eq.
    all: try (apply (global_inv_caller g); simpl; rewrite ?Epc; auto; intros; simplify_eq; fail).
    1, 3, 5: eapply global_inv_caller; [exact Hi|exact Ek|done|rewrite Epc; auto|exact (gi_live _ Hi)
      |exact (gi_ptr _ Hi)|auto|done].
    + eapply (global_inv_caller g); [exact Hi|exact Ek|done|rewrite Epc; auto| | |auto|done]; simpl.
      * intros a y [Hy|[Ha [Hz <-]%list_lookup_singleton_Some]]%lookup_app_Some; [|left; f_equal; lia].
        destruct (H1 _ _ Hy) as [?|?]; [done|by right].
      * intros a [= <-]. rewrite length_app. simpl. lia.
    + destruct (pools g !! n) as [[m p]|] eqn:Ep; [|done]. simpl in Ec. injection Ec as <- <-.
      assert (n < length (pools g)) as Hn by (by apply H2).
      eapply (global_inv_caller g); [exact Hi|exact Ek|done|rewrite Epc; auto| | |auto|]; simpl.
      * intros a y Hy. destruct (decide (a = n)) as [->|Hne]; [left; congruence|].
        rewrite list_lookup_insert_ne in Hy by done. exact (gi_live _ Hi _ _ Hy).
      * intros a Ha. rewrite length_insert. by apply (gi_ptr _ Hi).
      * intros a j [= <- <-]. split; [congruence|]. eexists _, _.
        split; [by apply list_lookup_insert_eq|]. simpl. split; [apply lookup_snoc_length|done].
    + destruct x as [w pcx]. simpl in Epc. subst pcx.
      destruct (H4 _ _ _ _ Ek) as (Hg & y & t & Hy & Ht & Hs). rewrite Hy in Ec. simpl in Ec.
      rewrite Ht in Ec. destruct t; try discriminate Ec. injection Ec as <- <-.
      pose proof (stopped_stop_call _ _ _ Ht Hs) as Hst. simpl in Hst.
      eapply (global_inv_caller g); [exact Hi|exact Ek|done|auto| |done|auto|done]; simpl.
      intros b z Hz. right. destruct (H1 _ _ Hz) as [Hb|?]; [|done].
      rewrite Hg in Hb. injection Hb as <-. rewrite Hy in Hz. by injection Hz as <-.
  - destruct (match l with LWorker w _ => runs_task g (a, w) && in_call g a w | _ => false end); [done|].
    destruct (pools g !! a) as [[n p]|] eqn:Ea; [|done]. cbn [mbind option_bind] in E0.
    destruct (Scheduler.step n l p) as [p1|] eqn:Es; [|done]. cbn [mbind option_bind] in E0.
    injection E0 as <-. by eapply global_inv_pool.
Qed.

(** ** Theorems *)

(** At most one global pool lives: in every reachable state every pool ever made by
    InitGlobalThreadPool is the one the global pointer names or one whose Stop has returned. *)
Theorem global_one_live (g : Globals) a x :
  reachable step NewGlobals g → pools g !! a = Some x →
  globalThreadPool g = Some a ∨
  ∃ i e, threads x.2 !! i = Some (CReturned KStop e).
Proof.
  intros Hr Ha. assert (global_inv g) as Hi.
  { revert g Hr Ha. intros g Hr _. revert g Hr.
    apply (reachable_invariant step global_inv); [by split|intros; by eapply global_inv_step]. }
  destruct (gi_live _ Hi _ _ Ha) as [?|(i & t & Ht & Hs)]; [by left|right].
  destruct t; try discriminate Hs. match goal with kk : Closer |- _ => destruct kk end; try discriminate Hs.
  by eexists _, _.
Qed.

(** ShutdownGlobalThreadPool deadlocks with a task that asks for the pool: once it waits
    in Stop for the workers while a task on one of them waits in GetGlobalThreadPool or
    CreateTaskRunner for globalMu, both wait for ever, whatever the other goroutines do. *)
Theorem global_shutdown_deadlock k1 k2 a i v (g g' : Globals) ls :
  deadlocked k1 k2 a i v g → run step ls g = Some g' →
  (∃ w, gcallers g' !! k1 = Some (MkGCaller w (ShutStop a i))) ∧
  (∃ create, gcallers g' !! k2 = Some (MkGCaller (Some (a, v)) (GetLock create))) ∧
  globalMu g' = Some k1.
Proof.
  revert g. induction ls as [|l ls IH]; intros g Hd; cbn [run].
  - intros [= <-]. by destruct Hd.
  - destruct (step l g) as [g1|] eqn:E1; [|done]. intros E2.
    by eapply IH; [eapply deadlocked_step|exact E2].
Qed.
End deadlock.

(** ** A concrete run to the deadlock *)

Module GlobalDemo.
Import Demo.
#[global] Existing Instances Demo.demo_queue Demo.demo_laws.
Notation G := (Globals (FIFOQueue.FIFOTaskQueue nat) nat unit).
Notation L := (Label (T:=nat) (R:=unit)).
Definition pool_run (ls : list (Scheduler.Label nat unit)) : list L := LPool 0 <$> ls.
(** One worker; its task 7 calls CreateTaskRunner after the shutdown began. *)
Definition schedule : list L :=
  [LCall None (InitLock 1); LCaller 0; LCaller 0; LCaller 0] ++
  pool_run [LSpawn (PCheck (task 7)); LPost 0; LPost 0; LPost 0; LPost 0;
            LWorker 0 true; LWorker 0 true; LWorker 0 true;
            LDelay DelayManager.LoopStep; LDelay DelayManager.LoopStep] ++
  [LCall None ShutLock; LCaller 1; LCaller 1; LCall (Some (0, 0)) (GetLock true)] ++
  pool_run [LClose 1 true; LClose 1 true; LDelay DelayManager.ContextDone; LClose 1 true;
            LClose 1 true; LClose 1 true; LClose 1 true; LClose 1 true].
Definition stuck : G := default NewGlobals (run step schedule NewGlobals).
Lemma stuck_reach : reachable step NewGlobals stuck.
Proof. apply (run_reachable step schedule). vm_compute. reflexivity. Qed.
End GlobalDemo.
Import GlobalDemo.

(** Init, shutdown, init again: the first pool is stopped, the second is live. *)
Definition twice : list (Label (T:=nat) (R:=unit)) :=
  [LCall None (InitLock 1); LCaller 0; LCaller 0; LCaller 0; LCall None ShutLock; LCaller 1; LCaller 1;
   LPool 0 (LWorker 0 true); LPool 0 (LDelay DelayManager.LoopStep);
   LPool 0 (LDelay DelayManager.LoopStep);
   LPool 0 (LClose 0 true); LPool 0 (LClose 0 true); LPool 0 (LDelay DelayManager.ContextDone);
   LPool 0 (LClose 0 true); LPool 0 (LClose 0 true); LPool 0 (LClose 0 true); LPool 0 (LClose 0 true);
   LPool 0 (LClose 0 true); LPool 0 (LWorker 0 false); LPool 0 (LClose 0 true); LPool 0 (LClose 0 true);
   LCaller 1; LCaller 1; LCall None (InitLock 2); LCaller 2; LCaller 2; LCaller 2;
   LCall None (GetLock false); LCaller 3; LCaller 3; LCaller 3].
Definition second : G := default NewGlobals (run step twice NewGlobals).

Lemma global_one_live_witness :
  (globalThreadPool second = Some 0 ∨
   ∃ i e, threads (default (0, NewGoroutineThreadPool 0) (pools second !! 0)).2 !! i =
            Some (CReturned KStop e)) ∧
  globalThreadPool second = Some 1 ∧
  pc <$> (gcallers second !! 3) = Some (GReturned (Some 1)).
Proof.
  split; [|vm_compute; done].
  apply (global_one_live second 0).
  - apply (run_reachable step twice). vm_compute. reflexivity.
  - vm_compute. reflexivity.
Defined.

Lemma global_shutdown_deadlock_witness :
  deadlocked 1 2 0 1 0 stuck ∧
  ∀ ls g', run step ls stuck = Some g' →
    (∃ w, gcallers g' !! 1 = Some (MkGCaller w (ShutStop 0 1))) ∧
    (∃ create, gcallers g' !! 2 = Some (MkGCaller (Some (0, 0)) (GetLock create))) ∧
    globalMu g' = Some 1.
Proof.
  assert (deadlocked 1 2 0 1 0 stuck) as Hd.
  { split; [vm_compute; reflexivity|eexists; vm_compute; reflexivity|eexists; vm_compute; reflexivity|].
    eexists _, _, _, _, _. split; [vm_compute; reflexivity|]. split; vm_compute; reflexivity. }
  split; [exact Hd|]. intros ls g'. apply (global_shutdown_deadlock 1 2 0 1 0 stuck g' ls Hd).
Defined.
