(* ===== verification/Sequenced.v ===== *)
(** * SequencedTaskRunner (core/sequenced_task_runner.go)

    A virtual thread on top of a pool: tasks wait in the runner's own queue,
    and one [runLoop] at a time is posted to the pool; it executes one task
    and posts itself again.  [runningCount] is the token that keeps it alone.

    Proved against two interfaces: the queue is any first-in-first-out
    [TaskQueue], and the pool is a bag of posted run loops it may start in any
    order ([LTake]) or turn away ([TPost] with choice [false]), as
    [TaskScheduler.PostInternal] does once it is shutting down. *)

From S2P Require Import Prelude GoSlice Task TaskQueue.
From S2P Require FIFOQueue.

(** ** Name and metadata, the same in the three runners *)

Record Meta (V : Type) := MkMeta { m_name : string; m_metadata : gmap string V }.
Arguments MkMeta {V}. Arguments m_name {V}. Arguments m_metadata {V}.

Definition NewMeta {V} : Meta V := MkMeta "" ∅.
Definition SetName {V} (name : string) (m : Meta V) : Meta V := MkMeta name (m_metadata m).
Definition SetMetadata {V} (key : string) (value : V) (m : Meta V) : Meta V :=
  MkMeta (m_name m) (<[key:=value]> (m_metadata m)).
(** [Metadata] returns a fresh map with the same entries. *)
Definition Metadata {V} (m : Meta V) : gmap string V := m_metadata m.
Definition observabilityName {V} (m : Meta V) : string :=
  if String.eqb (m_name m) "" then "sequenced" else m_name m.

Inductive Once := OnceNew | OnceRunning | OnceDone.

Section sequenced.
Context {Q T : Type} `{TaskQueue Q T}.

(** Goroutines inside the runner's methods. *)
Inductive Thread :=
(* [WaitIdle], then [PostTaskWithTraitsNamed]; [w]: the caller is [WaitIdle] *)
| WClosed (it : TaskItem T)               (** before [r.IsClosed()] *)
| PClosed (it : TaskItem T) (w : bool)    (** before [r.closed.Load()] *)
| PPush (it : TaskItem T) (w : bool)      (** before the critical section *)
(* [ensureRunning]; [k]: the barrier the caller waits for afterwards *)
| TEnsure (traits : TaskTraits) (k : option (TaskItem T)) (** before the CAS *)
| TPost (traits : TaskTraits) (k : option (TaskItem T))   (** before [PostInternal] *)
| TWait (it : TaskItem T)                 (** the [select] of [WaitIdle] *)
| TWaited (it : TaskItem T)               (** [WaitIdle] returned nil *)
| TCtxErr
| TClosedErr
| TEnd
(* [runLoop] *)
| RCheck                                  (** before the sanity check *)
| RPop                                    (** before the first critical section *)
| RRun (it : TaskItem T)                  (** inside [item.Task(runCtx)] *)
| RAfter                                  (** before the second critical section *)
| RStore                                  (** before [StoreInt32(&r.runningCount, 0)] *)
| RPeek                                   (** [scheduleNextIfNeeded] *)
| RPanicked
(* [Shutdown] *)
| SOnce | SClosed | SChan | SQueue | SDone
(* [WaitShutdown] *)
| WShut | WShutDone.

Inductive Obs := ObsQueueDepth (depth : nat) | ObsPanic.

(** The runner with the pool it posts to.  [posted], [gone] and [log] are
    histories: pushes, what left the queue (executed, or cleared), and the
    starts and ends of tasks. *)
Record SequencedTaskRunner := MkRunner {
  queue : Q;
  runningCount : Z;
  closed : bool;
  shutdownChan : bool;                    (** closed *)
  shutdownOnce : Once;
  tickets : list TaskTraits;              (** run loops waiting in the pool *)
  lost : nat;                             (** run loops the pool turned away *)
  threads : list Thread;
  obs : list Obs;
  posted : list (TaskItem T);
  gone : list (TaskItem T * bool);
  log : list (Event (TaskItem T));
}.

Definition NewSequencedTaskRunner : SequencedTaskRunner :=
  MkRunner tq_new 0 false false OnceNew [] 0 [] [] [] [] [].

Definition set_queue q r := MkRunner q (runningCount r) (closed r) (shutdownChan r) (shutdownOnce r)
  (tickets r) (lost r) (threads r) (obs r) (posted r) (gone r) (log r).
Definition set_running n r := MkRunner (queue r) n (closed r) (shutdownChan r) (shutdownOnce r)
  (tickets r) (lost r) (threads r) (obs r) (posted r) (gone r) (log r).
Definition set_closed r := MkRunner (queue r) (runningCount r) true (shutdownChan r) (shutdownOnce r)
  (tickets r) (lost r) (threads r) (obs r) (posted r) (gone r) (log r).
Definition set_chan r := MkRunner (queue r) (runningCount r) (closed r) true (shutdownOnce r)
  (tickets r) (lost r) (threads r) (obs r) (posted r) (gone r) (log r).
Definition set_once o r := MkRunner (queue r) (runningCount r) (closed r) (shutdownChan r) o
  (tickets r) (lost r) (threads r) (obs r) (posted r) (gone r) (log r).
Definition set_tickets t r := MkRunner (queue r) (runningCount r) (closed r) (shutdownChan r)
  (shutdownOnce r) t (lost r) (threads r) (obs r) (posted r) (gone r) (log r).
Definition add_lost r := MkRunner (queue r) (runningCount r) (closed r) (shutdownChan r)
  (shutdownOnce r) (tickets r) (S (lost r)) (threads r) (obs r) (posted r) (gone r) (log r).
Definition set_threads t r := MkRunner (queue r) (runningCount r) (closed r) (shutdownChan r)
  (shutdownOnce r) (tickets r) (lost r) t (obs r) (posted r) (gone r) (log r).
Definition add_obs o r := MkRunner (queue r) (runningCount r) (closed r) (shutdownChan r)
  (shutdownOnce r) (tickets r) (lost r) (threads r) (obs r ++ [o]) (posted r) (gone r) (log r).
Definition add_posted it r := MkRunner (queue r) (runningCount r) (closed r) (shutdownChan r)
  (shutdownOnce r) (tickets r) (lost r) (threads r) (obs r) (posted r ++ [it]) (gone r) (log r).
Definition add_gone its r := MkRunner (queue r) (runningCount r) (closed r) (shutdownChan r)
  (shutdownOnce r) (tickets r) (lost r) (threads r) (obs r) (posted r) (gone r ++ its) (log r).
Definition add_log e r := MkRunner (queue r) (runningCount r) (closed r) (shutdownChan r)
  (shutdownOnce r) (tickets r) (lost r) (threads r) (obs r) (posted r) (gone r) (log r ++ [e]).

Definition PendingTaskCount (r : SequencedTaskRunner) : nat := tq_Len (queue r).
Definition RunningTaskCount (r : SequencedTaskRunner) : Z := runningCount r.
Definition IsClosed (r : SequencedTaskRunner) : bool := closed r.

Definition after_ensure (k : option (TaskItem T)) : Thread :=
  match k with Some it => TWait it | None => TEnd end.

(** The barrier's closure started: closing the channel is all that it does.
    Items are told apart by their identifiers. *)
Definition began (id : TaskID) (e : Event (TaskItem T)) : bool :=
  match e with EStart it => (item_ID it =? id)%N | EEnd _ => false end.

(** [ensureRunning]: the compare-and-swap. *)
Definition ensure_cas (traits : TaskTraits) (k : option (TaskItem T)) (r : SequencedTaskRunner)
  : Thread * SequencedTaskRunner :=
  if (runningCount r =? 0)%Z then (TPost traits k, set_running 1 r) else (after_ensure k, r).

(** [runLoop] and [scheduleNextIfNeeded]; [choice]: the task returns, or it
    panics and the panic is recovered and reported. *)
Definition runLoop_step (choice : bool) (t : Thread) (r : SequencedTaskRunner)
  : option (Thread * SequencedTaskRunner) :=
  match t with
  | RCheck => Some (if (runningCount r =? 1)%Z then RPop else RPanicked, r)
  | RPop =>
      match tq_Pop (queue r) with
      | Ret (Some it, q) =>
          Some (RRun it, add_log (EStart it) (add_gone [(it, true)]
                           (add_obs (ObsQueueDepth (tq_Len q)) (set_queue q r))))
      | Ret (None, q) => Some (RStore, set_queue q r)
      | Panic _ => None
      end
  | RRun it => Some (RAfter, add_log (EEnd it) (if choice then r else add_obs ObsPanic r))
  | RAfter =>
      Some (if negb (tq_IsEmpty (queue r))
            then TPost (default go_zero (tq_PeekTraits (queue r))) None else RStore, r)
  | RStore => Some (RPeek, set_running 0 r)
  | RPeek =>
      Some (if negb (tq_IsEmpty (queue r))
            then TEnsure (default go_zero (tq_PeekTraits (queue r))) None else TEnd, r)
  | _ => None
  end.

(** [PostTaskWithTraitsNamed], up to [ensureRunning]. *)
Definition PostTask_step (choice : bool) (t : Thread) (r : SequencedTaskRunner)
  : option (Thread * SequencedTaskRunner) :=
  match t with
  | PClosed it w =>
      (* a closed runner drops the barrier; [WaitIdle] then waits for its context *)
      Some (if closed r then (if w then TWait it else TEnd) else PPush it w, r)
  | PPush it w =>
      let q := tq_PushWithID (item_ID it) (item_Task it) (item_Traits it) (queue r) in
      Some (TEnsure (item_Traits it) (if w then Some it else None),
            add_obs (ObsQueueDepth (tq_Len q)) (add_posted it (set_queue q r)))
  | _ => None
  end.

(** [ensureRunning]; the choice: the pool accepts the run loop. *)
Definition ensureRunning_step (choice : bool) (t : Thread) (r : SequencedTaskRunner)
  : option (Thread * SequencedTaskRunner) :=
  match t with
  | TEnsure traits k => Some (ensure_cas traits k r)
  | TPost traits k =>
      Some (after_ensure k,
            if choice then set_tickets (tickets r ++ [traits]) r else add_lost r)
  | _ => None
  end.

(** [WaitIdle]; the choice: the barrier ran before the context ended. *)
Definition WaitIdle_step (choice : bool) (t : Thread) (r : SequencedTaskRunner)
  : option (Thread * SequencedTaskRunner) :=
  match t with
  | WClosed it => Some (if closed r then TClosedErr else PClosed it true, r)
  | TWait it =>
      if choice then
        if existsb (began (item_ID it)) (log r) then Some (TWaited it, r) else None
      else Some (TCtxErr, r)
  | _ => None
  end.

(** Posting and waiting. *)
Definition post_step (choice : bool) (t : Thread) (r : SequencedTaskRunner)
  : option (Thread * SequencedTaskRunner) :=
  match t with
  | PClosed _ _ | PPush _ _ => PostTask_step choice t r
  | TEnsure _ _ | TPost _ _ => ensureRunning_step choice t r
  | WClosed _ | TWait _ => WaitIdle_step choice t r
  | _ => None
  end.

(** [Shutdown] under its [sync.Once]. *)
Definition Shutdown_step (choice : bool) (t : Thread) (r : SequencedTaskRunner)
  : option (Thread * SequencedTaskRunner) :=
  match t with
  | SOnce =>
      match shutdownOnce r with
      | OnceNew => Some (SClosed, set_once OnceRunning r)
      | OnceRunning => None
      | OnceDone => Some (SDone, r)
      end
  | SClosed => Some (SChan, set_closed r)
  | SChan => Some (SQueue, set_chan r)
  | SQueue =>
      Some (SDone, set_once OnceDone (add_obs (ObsQueueDepth 0)
        (add_gone ((λ it, (it, false)) <$> drain (tq_Len (queue r)) (queue r))
           (set_queue tq_new r))))
  | _ => None
  end.

(** [WaitShutdown]. *)
Definition WaitShutdown_step (choice : bool) (t : Thread) (r : SequencedTaskRunner)
  : option (Thread * SequencedTaskRunner) :=
  match t with
  | WShut =>
      if choice then (if shutdownChan r then Some (WShutDone, r) else None)
      else Some (TCtxErr, r)
  | _ => None
  end.

(** Shutting down. *)
Definition shutdown_step (choice : bool) (t : Thread) (r : SequencedTaskRunner)
  : option (Thread * SequencedTaskRunner) :=
  match t with
  | SOnce | SClosed | SChan | SQueue => Shutdown_step choice t r
  | WShut => WaitShutdown_step choice t r
  | _ => None
  end.

Definition thread_step (choice : bool) (t : Thread) (r : SequencedTaskRunner)
  : option (Thread * SequencedTaskRunner) :=
  match t with
  | RCheck | RPop | RRun _ | RAfter | RStore | RPeek => runLoop_step choice t r
  | SOnce | SClosed | SChan | SQueue | WShut => shutdown_step choice t r
  | _ => post_step choice t r
  end.

Inductive Label :=
| LCall (t : Thread)             (** some goroutine calls a method *)
| LThread (i : nat) (choice : bool)
| LTake (k : nat).               (** a worker of the pool starts a run loop *)

Definition entry (t : Thread) : bool :=
  match t with WClosed _ | PClosed _ false | SOnce | WShut => true | _ => false end.

Definition step (l : Label) (r : SequencedTaskRunner) : option SequencedTaskRunner :=
  match l with
  | LCall t => if entry t then Some (set_threads (threads r ++ [t]) r) else None
  | LThread i choice =>
      t ← threads r !! i;
      '(t, r) ← thread_step choice t r;
      Some (set_threads (<[i:=t]> (threads r)) r)
  | LTake k =>
      traits ← tickets r !! k;
      Some (set_threads (threads r ++ [RCheck]) (set_tickets (delete k (tickets r)) r))
  end.
End sequenced.
Arguments SequencedTaskRunner Q T : clear implicits.
Arguments Thread T : clear implicits.
Arguments Label T : clear implicits.

(** ** Weights *)

Section seq_weights.
Context {T : Type}.

(** Who holds the token that [runningCount = 1] stands for. *)
Definition w_token (t : Thread T) : Z :=
  match t with
  | TPost _ _ | RCheck | RPop | RRun _ | RAfter | RStore | RPanicked => 1
  | _ => 0
  end.
(** About to make sure that a run loop exists. *)
Definition w_ensuring (t : Thread T) : Z :=
  match t with TEnsure _ _ | RPeek => 1 | _ => 0 end.
Definition w_panicked (t : Thread T) : Z := match t with RPanicked => 1 | _ => 0 end.
Definition in_run (t : Thread T) : list (TaskItem T) := match t with RRun it => [it] | _ => [] end.
Definition late_push (t : Thread T) : list (TaskItem T) :=
  match t with PPush it _ => [it] | _ => [] end.

(** The tasks that were executed, in order of their start. *)
Definition executed (g : list (TaskItem T * bool)) : list (TaskItem T) :=
  fst <$> filter (λ x : TaskItem T * bool, x.2 = true) g.
End seq_weights.

(** All the cases of a step [H : step l r = Some r']. *)
Ltac seq_cases H :=
  let fin := repeat (first [ progress simplify_eq/= | case_match | case_decide ]) in
  match type of H with
  | step ?l ?r = Some _ =>
      destruct l as [t|i choice|k]; simpl in H;
      [ destruct (entry t) eqn:Hentry; [|discriminate H]; injection H as <-;
        destruct t as [it|it [|]|it w|tr kk|tr kk|it|it| | | | | |it| | | | | | | | | | | ];
        try discriminate Hentry
      | destruct (threads r !! i) as [t|] eqn:Ht; [|discriminate H]; simpl in H;
        destruct t as [it|it w|it w|tr [bar|]|tr [bar|]|it|it| | | | | |it| | | | | | | | | | | ];
        try discriminate H; simpl in H;
        try (let o := fresh "o" in let q := fresh "q" in
             destruct (tq_Pop (queue r)) as [[o q]|] eqn:Hpop; [|discriminate H];
             destruct o as [it|]; simpl in H);
        try (unfold ensure_cas in H);
        fin
      | destruct (tickets r !! k) as [tr|] eqn:Hk; [|discriminate H]; simpl in H; simplify_eq/= ]
  end.

Section seq_lemmas.
Context {Q T : Type} `{FIFOOrder Q T}.
Implicit Types r : SequencedTaskRunner Q T.
Notation step := (step (Q:=Q) (T:=T)).
Notation reach r := (reachable step NewSequencedTaskRunner r).

Definition items r : list (TaskItem T) := tq_items (queue r).

Lemma seq_queue_ok_step l r r' : tq_ok (queue r) → step l r = Some r' → tq_ok (queue r').
Proof.
  intros Hok E. seq_cases E; simpl; try done; auto using tq_push_ok, tq_new_ok.
  - by apply fo_pop_got in Hpop as [? ?].
  - by apply tq_pop_none in Hpop as [? ->].
Qed.

Lemma seq_queue_ok r : reach r → tq_ok (queue r).
Proof.
  apply (reachable_invariant step (λ r, tq_ok (queue r))).
  - apply tq_new_ok.
  - intros; eauto using seq_queue_ok_step.
Qed.

(** *** The token *)

Definition tokens r : Z :=
  (total w_token (threads r) + Z.of_nat (length (tickets r)) + Z.of_nat (lost r))%Z.

Definition token_ok r : Prop :=
  tokens r = runningCount r ∧ (0 <= runningCount r <= 1)%Z ∧ total w_panicked (threads r) = 0%Z.

Lemma w_token_nonneg (t : Thread T) : (0 <= w_token t)%Z.
Proof. by destruct t. Qed.

Lemma token_step l r r' : token_ok r → step l r = Some r' → token_ok r'.
Proof.
  intros (Ht1 & Hr & Hp) E. unfold token_ok, tokens in *.
  pose proof (total_nonneg w_token (threads r) w_token_nonneg) as Hn.
  seq_cases E; simpl in *; rw_total; rewrite ?length_app; simpl; try lia;
    try (pose proof (total_lookup_le w_token _ _ _ w_token_nonneg Ht) as Hle; simpl in Hle; lia).
  pose proof (length_delete_S _ _ _ Hk). lia.
Qed.

Lemma token_reach r : reach r → token_ok r.
Proof.
  apply (reachable_invariant step token_ok).
  - by split.
  - intros; eauto using token_step.
Qed.

(** *** Order, and the history of what ran *)

Definition fifo_inv r : Prop := posted r = (fst <$> gone r) ++ items r.

Lemma fifo_step l r r' : tq_ok (queue r) → fifo_inv r → step l r = Some r' → fifo_inv r'.
Proof.
  intros Hok Hf E. unfold fifo_inv, items in *.
  seq_cases E; simpl in *; try done.
  - rewrite fo_push, Hf by done. destruct it. by rewrite <- app_assoc.
  - apply fo_pop_got in Hpop as [_ Hpop]; [|done]. rewrite Hf, Hpop, fmap_app.
    simpl. by rewrite <- app_assoc.
  - by apply tq_pop_none in Hpop as [_ ->].
  - rewrite Hf, fmap_app, <- list_fmap_compose. simpl.
    rewrite list_fmap_id, drain_fifo, tq_new_items, app_nil_r by (done || by rewrite tq_len).
    done.
Qed.

Lemma fifo_reach r : reach r → fifo_inv r.
Proof.
  apply (reachable_invariant_with step (λ r, tq_ok (queue r))).
  - apply seq_queue_ok.
  - unfold fifo_inv, items. simpl. by rewrite tq_new_items.
  - intros; eauto using fifo_step.
Qed.

Definition current r : list (TaskItem T) := threads r ≫= in_run.

(** The log is a sequence of finished tasks and maybe one more start. *)
Definition log_inv r : Prop :=
  ∃ fin, executed (gone r) = fin ++ current r ∧
         log r = brackets fin ++ (EStart <$> current r).

Lemma running_total (ts : list (Thread T)) :
  (Z.of_nat (length (ts ≫= in_run)) <= total w_token ts)%Z.
Proof.
  induction ts as [|t ts IH]; [done|].
  rewrite bind_cons, total_cons, length_app. destruct t; simpl length; simpl w_token; lia.
Qed.

(** The holder of the token runs alone. *)
Lemma current_alone r i t t' :
  token_ok r → threads r !! i = Some t → w_token t = 1%Z →
  <[i:=t']> (threads r) ≫= in_run = in_run t'.
Proof.
  intros (Ht & Hr & _) Hi Hw.
  assert (delete i (threads r) ≫= in_run = []) as Hrest.
  { apply length_zero_iff_nil. pose proof (running_total (delete i (threads r))) as Hle.
    rewrite (total_delete _ _ _ _ Hi), Hw in Hle. unfold tokens in Ht. lia. }
  destruct (bind_insert in_run _ _ _ t' Hi) as (rest & E1 & E2).
  rewrite (bind_delete in_run _ _ _ Hi), Hrest in E1. apply (Permutation_app_inv_l (in_run t)) in E1.
  apply Permutation_nil in E1 as ->. rewrite app_nil_r in E2.
  destruct t'; simpl in E2 |- *; try by apply Permutation_nil_r.
  by apply Permutation_singleton_r.
Qed.

Lemma current_token r i t :
  token_ok r → threads r !! i = Some t → w_token t = 1%Z → current r = in_run t.
Proof.
  intros Htok Hi Hw. rewrite <- (current_alone r i t t Htok Hi Hw).
  by rewrite list_insert_id.
Qed.

Lemma current_at_most_one r : reach r → length (current r) ≤ 1.
Proof.
  intros Hr. pose proof (running_total (threads r)). destruct (token_reach r Hr) as (Ht & Hb & _).
  unfold tokens, current in *. lia.
Qed.

Lemma executed_app g1 g2 : executed (T:=T) (g1 ++ g2) = executed g1 ++ executed g2.
Proof. unfold executed. by rewrite filter_app, fmap_app. Qed.
Lemma executed_cleared (l : list (TaskItem T)) : executed ((λ it, (it, false)) <$> l) = [].
Proof. unfold executed. by induction l. Qed.
Lemma log_step l r r' : token_ok r → log_inv r → step l r = Some r' → log_inv r'.
Proof.
  intros Htok (fin & Hx & Hl) E.
  unfold log_inv. seq_cases E; unfold current in *; simpl in *;
    try (exists fin; rewrite ?bind_app; simpl; rewrite ?app_nil_r; done);
    try (exists fin; rewrite (bind_insert_same in_run _ _ _ _ Ht) by done;
         rewrite ?executed_app, ?executed_cleared, ?app_nil_r; done).
  all: pose proof (current_token _ _ _ Htok Ht eq_refl) as Hc; unfold current in Hc; simpl in Hc;
    rewrite Hc, ?app_nil_r in *; rewrite (current_alone _ _ _ _ Htok Ht eq_refl).
  - exists fin. by rewrite executed_app, Hx, Hl.
  - exists (fin ++ [it]). by rewrite Hx, Hl, brackets_app, <- !app_assoc.
  - exists (fin ++ [it]). by rewrite Hx, Hl, brackets_app, <- !app_assoc.
Qed.

Lemma log_reach r : reach r → log_inv r.
Proof.
  apply (reachable_invariant_with step token_ok).
  - apply token_reach.
  - by exists [].
  - intros; eauto using log_step.
Qed.

(** *** No task is forgotten *)

(** A queued task has a run loop, or a thread that will see to it. *)
Definition covered r : Prop :=
  items r ≠ [] → (runningCount r = 1 ∨ 1 <= total w_ensuring (threads r))%Z.

Lemma w_ensuring_nonneg (t : Thread T) : (0 <= w_ensuring t)%Z.
Proof. by destruct t. Qed.

Lemma covered_step l r r' :
  tq_ok (queue r) → token_ok r → covered r → step l r = Some r' → covered r'.
Proof.
  intros Hok (Ht1 & Hr & _) Hc E. unfold covered, items in *.
  pose proof (total_nonneg w_ensuring (threads r) w_ensuring_nonneg) as Hn.
  seq_cases E; simpl in *; intros Hne; rw_total; simpl; try (specialize (Hc Hne); lia); try lia.
  - pose proof (total_lookup_le w_token _ _ _ w_token_nonneg Ht) as Hle. simpl in Hle.
    unfold tokens in Ht1. lia.
  - pose proof (total_lookup_le w_token _ _ _ w_token_nonneg Ht) as Hle. simpl in Hle.
    unfold tokens in Ht1. lia.
  - destruct Hne. apply (tq_empty_spec _ Hok).
    by match goal with E : negb _ = false |- _ => apply negb_false_iff in E end.
  - by rewrite tq_new_items in Hne.
Qed.

Lemma covered_reach r : reach r → covered r.
Proof.
  apply (reachable_invariant_with step (λ r, tq_ok (queue r) ∧ token_ok r)).
  - intros; split; [by apply seq_queue_ok|by apply token_reach].
  - unfold covered, items. simpl. by rewrite tq_new_items.
  - intros ? ? ? [? ?]; eauto using covered_step.
Qed.

(** *** Internal steps terminate *)

(** The steps the runner and its pool take on their own. *)
Definition internal (l : Label T) : bool := match l with LCall _ => false | _ => true end.

(** The measure: posts still to push, then queued tasks, then what the threads
    have left to do; [e]: the queue is empty. *)
Definition w_left (t : Thread T) : Z :=
  match t with WClosed _ | PClosed _ _ | PPush _ _ => 1 | _ => 0 end.
Definition w_todo (e : bool) (t : Thread T) : Z :=
  match t with
  | WClosed _ => 3 | PClosed _ _ => 2 | PPush _ _ => 1
  | SOnce => 4 | SClosed => 3 | SChan => 2 | SQueue | WShut | TWait _ => 1
  | TWaited _ | TCtxErr | TClosedErr | TEnd | RPanicked | SDone | WShutDone => 0
  | TEnsure _ _ => 9
  | TPost _ _ => 8
  | RCheck => 5
  | RPop => 4
  | RStore => if e then 3 else 11
  | RPeek => if e then 2 else 10
  | RAfter => if e then 9 else 12
  | RRun _ => if e then 10 else 13
  end.
Definition left_of r : nat := Z.to_nat (total w_left (threads r)).
Definition todo_of r : nat :=
  Z.to_nat (total (w_todo (tq_IsEmpty (queue r))) (threads r)
            + 6 * Z.of_nat (length (tickets r))).

Lemma w_left_nonneg (t : Thread T) : (0 <= w_left t)%Z.
Proof. by destruct t. Qed.
Lemma w_todo_nonneg e (t : Thread T) : (0 <= w_todo e t)%Z.
Proof. by destruct e, t. Qed.

Definition smaller r' r : Prop :=
  left_of r' < left_of r ∨
  left_of r' = left_of r ∧
    (length (items r') < length (items r) ∨
     length (items r') = length (items r) ∧ todo_of r' < todo_of r).

Lemma internal_smaller l r r' :
  tq_ok (queue r) → internal l = true → step l r = Some r' → smaller r' r.
Proof.
  intros Hok Hl E. unfold smaller, left_of, todo_of, items.
  pose proof (total_nonneg w_left (threads r) w_left_nonneg) as Hn1.
  pose proof (λ e, total_nonneg (w_todo e) (threads r) (w_todo_nonneg e)) as Hn2.
  seq_cases E; simpl in *; try discriminate Hl; rw_total; rewrite ?length_app; simpl;
    try (pose proof (total_lookup_le w_left _ _ _ w_left_nonneg Ht) as Hle1; simpl in Hle1;
         pose proof (λ e, total_lookup_le (w_todo e) _ _ _ (w_todo_nonneg e) Ht) as Hle2;
         simpl in Hle2);
    try (match goal with |- context [tq_IsEmpty (queue ?x)] =>
           specialize (Hn2 (tq_IsEmpty (queue x))); specialize (Hle2 (tq_IsEmpty (queue x)));
           destruct (tq_IsEmpty (queue x)); lia end).
  - apply fo_pop_got in Hpop as [_ ->]; [|done]. simpl. lia.
  - apply tq_pop_none in Hpop as [Hnil ->]; [|done].
    apply (tq_empty_spec _ Hok) in Hnil. rewrite Hnil.
    specialize (Hn2 true). specialize (Hle2 true). lia.
  - rewrite tq_new_items. simpl. destruct (tq_items (queue r)) eqn:Ei; simpl; [|lia].
    apply (tq_empty_spec _ Hok) in Ei. rewrite Ei.
    rewrite (proj2 (tq_empty_spec _ tq_new_ok) tq_new_items).
    specialize (Hn2 true). specialize (Hle2 true). lia.
  - rewrite (length_delete_S _ _ _ Hk). specialize (Hn2 (tq_IsEmpty (queue r))). lia.
Qed.

Lemma smaller_wf : well_founded smaller.
Proof.
  assert (∀ a b c r, left_of r ≤ a → length (items r) ≤ b → todo_of r ≤ c → Acc smaller r) as Hall.
  2:{ intros r. by eapply Hall. }
  induction a as [a IHa] using lt_wf_ind. induction b as [b IHb] using lt_wf_ind.
  induction c as [c IHc] using lt_wf_ind. intros r Ha Hb Hc. constructor.
  intros r' [Hlt|[Heq [Hlt|[Heq' Hlt]]]].
  - eapply (IHa (left_of r')); [lia|lia|done|done].
  - eapply (IHb (length (items r'))); [lia|lia|done|done].
  - eapply (IHc (todo_of r')); lia.
Qed.

(** A step the runner and its pool can always take: no new call, the pool
    accepts, tasks return, nobody gives up waiting. *)
Definition regular (l : Label T) : bool :=
  match l with LCall _ => false | LThread _ choice => choice | LTake _ => true end.

(** While a task is queued and the pool turned no run loop away, a regular
    step is enabled. *)
Lemma seq_progress r :
  tq_ok (queue r) → token_ok r → covered r → lost r = 0 → items r ≠ [] →
  ∃ l r', regular l = true ∧ step l r = Some r'.
Proof.
  intros Hok (Ht & Hr & Hp) Hc Hlost Hne.
  destruct (Hc Hne) as [Hrun|Hens].
  - destruct (tickets r) as [|tr ts] eqn:Etk.
    + assert (0 < total w_token (threads r))%Z as Hpos.
      { unfold tokens in Ht. rewrite Etk, Hlost in Ht. simpl in Ht. lia. }
      apply total_pos_lookup in Hpos as (i & t & Hi & Hw).
      exists (LThread i true). simpl. rewrite Hi. simpl.
      destruct t; simpl in Hw |- *; try lia; eauto.
      * destruct (tq_pop_some (queue r) Hok Hne) as (it & q' & -> & _). simpl. eauto.
      * pose proof (total_zero_lookup w_panicked _ _ _ ltac:(by intros []) Hp Hi). done.
    + exists (LTake 0). simpl. rewrite Etk. simpl. eauto.
  - assert (0 < total w_ensuring (threads r))%Z as Hpos by lia.
    apply total_pos_lookup in Hpos as (i & t & Hi & Hw).
    exists (LThread i true). simpl. rewrite Hi. simpl.
    destruct t; simpl in Hw |- *; try lia; eauto.
    unfold ensure_cas. case_match; simpl; eauto.
Qed.

(** *** The flag of a shutdown *)

(** Past [r.closed.Store(true)], inside [Shutdown] *)
Definition w_flagged (t : Thread T) : Z := match t with SChan | SQueue => 1 | _ => 0 end.
Definition flag_ok r : Prop := closed r = false → total w_flagged (threads r) = 0%Z.

Lemma flag_step l r r' : flag_ok r → step l r = Some r' → flag_ok r'.
Proof.
  intros Hf E. unfold flag_ok in *.
  seq_cases E; simpl in *; intros Hc; try discriminate; try specialize (Hf Hc); rw_total; simpl; try lia;
    try (pose proof (total_zero_lookup w_flagged _ _ _ ltac:(by intros []) Hf Ht) as Hz; done);
    try (rewrite Hf by congruence; lia).
Qed.

Lemma flag_reach r : reach r → flag_ok r.
Proof. apply (reachable_invariant step flag_ok); [done|]. intros; eauto using flag_step. Qed.

(** *** Turned away, and closed *)

(** The pool turned the run loop away: its token is gone for good. *)
Lemma lost_step l r r' :
  token_ok r → 0 < lost r → step l r = Some r' →
  0 < lost r' ∧ executed (gone r') = executed (gone r) ∧ log r' = log r.
Proof.
  intros (Ht1 & Hr & _) Hlost E. unfold tokens in Ht1.
  pose proof (total_nonneg w_token (threads r) w_token_nonneg) as Hn.
  seq_cases E; simpl in *; try (split; [lia|split; [|done]]); try done;
    try (pose proof (total_lookup_le w_token _ _ _ w_token_nonneg Ht) as Hle; simpl in Hle; lia).
  by rewrite executed_app, executed_cleared, app_nil_r.
Qed.

Lemma closed_step l r r' :
  closed r = true → step l r = Some r' →
  closed r' = true ∧ posted r' ++ (threads r' ≫= late_push) ≡ₚ posted r ++ (threads r ≫= late_push).
Proof.
  intros Hs E.
  seq_cases E; simpl in *; try congruence; (split; [done|]);
    rewrite ?bind_app; simpl; rewrite ?app_nil_r; try done;
    try (rewrite (bind_insert_same late_push _ _ _ _ Ht) by done; done).
  all: match goal with
    | Ht : threads ?p !! ?i = Some ?t |- context [<[?i:=?t']> (threads ?p) ≫= _] =>
      let Hl1 := fresh "Hl" in let Hl2 := fresh "Hl" in
      destruct (bind_insert late_push (threads p) i t t' Ht) as (rest & Hl1 & Hl2);
      rewrite Hl2, Hl1
    end; simpl; by rewrite <- app_assoc.
Qed.

(** *** What a barrier has seen *)

Lemma elem_of_executed x g : x ∈ executed (T:=T) g ↔ (x, true) ∈ g.
Proof.
  unfold executed. rewrite list_elem_of_fmap. split.
  - intros ([y b] & -> & Hf). apply list_elem_of_filter in Hf as [Hb Hin]. simpl in *. by subst.
  - intros Hin. exists (x, true). split; [done|]. by apply list_elem_of_filter.
Qed.

(** If [b] started, every task posted before it that [Shutdown] did not clear
    has ended. *)
Lemma barrier_seen r l1 l2 b x :
  fifo_inv r → log_inv r → NoDup (posted r) →
  length (current r) ≤ 1 →
  posted r = l1 ++ b :: l2 → EStart b ∈ log r → x ∈ l1 → (x, false) ∉ gone r → EEnd x ∈ log r.
Proof.
  intros Hf (fin & Hx & Hl) Hnd Hc1 Hp Hb Hin Hnc. rewrite Hl in *.
  rewrite elem_of_brackets. rewrite elem_of_brackets_start in Hb.
  assert ((b, true) ∈ gone r) as Hg.
  { apply elem_of_executed. by rewrite Hx. }
  apply list_elem_of_split in Hg as (g1 & g2 & Hg). unfold fifo_inv in Hf.
  rewrite Hp in Hnd, Hf. rewrite Hg, fmap_app, <- app_assoc in Hf. simpl in Hf.
  destruct (nodup_split _ _ _ _ _ Hnd Hf) as [-> ->].
  apply list_elem_of_fmap in Hin as ([y by'] & -> & Hy). simpl.
  destruct by'; [|destruct Hnc; rewrite Hg; set_solver].
  rewrite Hg, executed_app in Hx.
  change (executed ((b, true) :: g2)) with (b :: executed g2) in Hx.
  apply (started_before fin (current r) (executed g1) b); [done|by exists (executed g2)|].
  by apply elem_of_executed.
Qed.
End seq_lemmas.

(** ** Theorems *)

Section seq_theorems.
Context {Q T : Type} `{FIFOOrder Q T}.
Implicit Types r : SequencedTaskRunner Q T.
Notation step := (step (Q:=Q) (T:=T)).
Notation reach r := (reachable step NewSequencedTaskRunner r).

Lemma sequential_reach r :
  reach r →
  posted r = (fst <$> gone r) ++ tq_items (queue r) ∧
  ∃ fin cur, length cur ≤ 1 ∧ executed (gone r) = fin ++ cur ∧
             log r = brackets fin ++ (EStart <$> cur).
Proof.
  intros Hr. split; [by apply fifo_reach|].
  destruct (log_reach r Hr) as (fin & Hx & Hl). exists fin, (current r). split; [by apply current_at_most_one|done].
Qed.

(** C1. A SequencedTaskRunner runs its tasks one at a time in the order they were posted, on
    whatever workers of the pool: the log of starts and ends is a sequence of finished tasks
    and at most one running task, and what was posted is what left the queue, in order,
    followed by what is queued. *)
Theorem seq_sequential r :
  reach r →
  posted r = (fst <$> gone r) ++ tq_items (queue r) ∧
  ∃ fin cur, length cur ≤ 1 ∧ executed (gone r) = fin ++ cur ∧
             log r = brackets fin ++ (EStart <$> cur).
Proof. apply sequential_reach. Qed.

(** At most one run loop of a SequencedTaskRunner exists (posted, running, or turned away
    by the pool), runningCount is exactly their number, and the sanity check of runLoop never
    panics. *)
Theorem seq_single_runLoop r :
  reach r →
  (RunningTaskCount r = total w_token (threads r) + Z.of_nat (length (tickets r))
                        + Z.of_nat (lost r) ∧
   0 <= RunningTaskCount r <= 1)%Z ∧ RPanicked ∉ threads r.
Proof.
  intros Hr. destruct (token_reach r Hr) as (Ht & Hb & Hp).
  split; [done|]. intros Hin. apply list_elem_of_lookup in Hin as [i Hi].
  pose proof (total_zero_lookup w_panicked _ _ _ ltac:(by intros []) Hp Hi). done.
Qed.

(** C7. No task of a SequencedTaskRunner is forgotten: between two calls, the steps of the
    runner and its pool terminate, and while a task is queued and the pool has turned no run
    loop away, some step of the runner (with tasks that return) is enabled; so every maximal
    run empties the queue. *)
Theorem seq_all_tasks_run r :
  reach r →
  Acc (λ r2 r1, reach r1 ∧ ∃ l, internal l = true ∧ step l r1 = Some r2) r ∧
  (lost r = 0 → tq_items (queue r) ≠ [] → ∃ l r', regular l = true ∧ step l r = Some r').
Proof.
  intros Hr. split.
  - clear Hr. induction (smaller_wf r) as [r _ IH]. constructor.
    intros r2 (Hr & l & Hl & E). apply IH. eapply internal_smaller; eauto using seq_queue_ok.
  - intros Hl Hne. apply seq_progress;
      [by apply seq_queue_ok|by apply token_reach|by apply covered_reach|done|done].
Qed.

(** When a barrier posted by WaitIdle has started, every task posted before it has run to its
    end, except those Shutdown cleared. *)
Theorem seq_WaitIdle_barrier r l1 l2 b x :
  reachable step NewSequencedTaskRunner r → NoDup (posted r) → posted r = l1 ++ b :: l2 → EStart b ∈ log r →
  x ∈ l1 → (x, false) ∉ gone r → EEnd x ∈ log r.
Proof.
  intros Hr Hnd Hp Hb Hx Hc. eapply barrier_seen; eauto using fifo_reach, log_reach, current_at_most_one.
Qed.

(** A closed SequencedTaskRunner stays closed, and only posts already past the closed
    check push afterwards. *)
Theorem seq_shutdown_rejects r r' :
  closed r = true → reachable step r r' →
  closed r' = true ∧
  posted r' ++ (threads r' ≫= late_push) ≡ₚ posted r ++ (threads r ≫= late_push).
Proof.
  intros Hc. induction 1 as [|l r1 r2 _ [IH1 IH2] E]; [done|].
  destruct (closed_step _ _ _ IH1 E) as [? E2]. split; [done|]. by rewrite E2.
Qed.

(** If the pool turns a run loop away (as a scheduler in graceful shutdown does), the
    token is lost: no task of the runner ever starts again, although the runner is not closed
    and keeps accepting tasks. *)
Theorem seq_turned_away_stuck r r' :
  reach r → 0 < lost r → reachable step r r' →
  log r' = log r ∧ executed (gone r') = executed (gone r).
Proof.
  intros Hr Hl Hr'.
  assert (token_ok r' ∧ 0 < lost r' ∧ executed (gone r') = executed (gone r) ∧ log r' = log r)
    as (_ & _ & ? & ?); [|done].
  induction Hr' as [|l r1 r2 _ (IH1 & IH2 & IH3 & IH4) E]; [by eauto using token_reach|].
  split; [by eapply token_step|].
  destruct (lost_step _ _ _ IH1 IH2 E) as (? & -> & ->). done.
Qed.
End seq_theorems.

(** ** Concrete runs, with the FIFO queue of the code *)

Module SeqDemo.
#[export] Instance demo_queue : TaskQueue (FIFOQueue.FIFOTaskQueue nat) nat :=
  FIFOQueue.FIFO_TaskQueue grow_double.
#[export] Instance demo_laws : TaskQueueLaws (FIFOQueue.FIFOTaskQueue nat) nat :=
  FIFOQueue.FIFO_Laws grow_double grow_double_ok.
#[export] Instance demo_order : FIFOOrder (FIFOQueue.FIFOTaskQueue nat) nat :=
  FIFOQueue.FIFO_Order grow_double grow_double_ok.

Definition runner := SequencedTaskRunner (FIFOQueue.FIFOTaskQueue nat) nat.
Definition init : runner := NewSequencedTaskRunner.
Definition task (n : nat) : TaskItem nat := MkTaskItem n DefaultTaskTraits (N.of_nat n).

(** Thread [i] posts task [n]; it is the one that posts the run loop
    ([fresh]), or finds one already scheduled. *)
Definition post (i n : nat) (fresh : bool) : list (Label nat) :=
  LCall (PClosed (task n) false) :: replicate (if fresh then 4 else 3) (LThread i true).
(** The pool starts a run loop as thread [i]; it runs [k] of its steps. *)
Definition loop (i k : nat) (ok : bool) : list (Label nat) :=
  [LTake 0] ++ [LThread i true; LThread i true] ++ replicate k (LThread i ok).

Definition go_to (ls : list (Label nat)) : runner := default init (run step ls init).

Lemma seq_go_to_reach ls :
  bool_decide (is_Some (run step ls init)) = true → reachable step init (go_to ls).
Proof.
  intros Hb. apply bool_decide_eq_true in Hb as [r E].
  unfold go_to. rewrite E. by eapply run_reachable.
Qed.
End SeqDemo.
Import SeqDemo.

(** Three tasks, one finished, the second running. *)
Definition demo_run : list (Label nat) :=
  post 0 7 true ++ post 1 8 false ++ post 2 9 false ++ loop 3 3 true ++ loop 4 0 true.

Lemma seq_sequential_witness :
  let r := go_to demo_run in
  (posted r = (fst <$> gone r) ++ tq_items (queue r) ∧
   ∃ fin cur, length cur ≤ 1 ∧ executed (gone r) = fin ++ cur ∧
              log r = brackets fin ++ (EStart <$> cur)) ∧
  log r = [EStart (task 7); EEnd (task 7); EStart (task 8)].
Proof.
  split; [|vm_compute; reflexivity].
  apply (seq_sequential (go_to demo_run)). apply seq_go_to_reach. vm_compute. reflexivity.
Defined.

Lemma seq_single_runLoop_witness :
  let r := go_to (demo_run ++ [LCall SOnce]) in
  RunningTaskCount r = 1%Z ∧ RPanicked ∉ threads r.
Proof.
  match goal with |- let r := go_to ?ls in _ =>
    destruct (seq_single_runLoop (go_to ls)) as [[H1 H2] H3] end.
  - apply seq_go_to_reach. vm_compute. reflexivity.
  - split; [rewrite H1; vm_compute; reflexivity|exact H3].
Defined.

Lemma seq_all_tasks_run_witness :
  let r := go_to (post 0 7 true ++ post 1 8 false) in
  ∃ l r', regular l = true ∧ step l r = Some r'.
Proof.
  match goal with |- let r := go_to ?ls in _ =>
    destruct (seq_all_tasks_run (go_to ls)) as [_ H2] end.
  - apply seq_go_to_reach. vm_compute. reflexivity.
  - apply H2; vm_compute; [reflexivity|discriminate].
Defined.

(** [WaitIdle] posts barrier 9 after tasks 7 and 8; task 8 panics. *)
Definition barrier_run : list (Label nat) :=
  post 0 7 true ++ post 1 8 false ++
  [LCall (WClosed (task 9)); LThread 2 true; LThread 2 true; LThread 2 true; LThread 2 true] ++
  loop 3 3 true ++ loop 4 1 false ++ replicate 2 (LThread 4 true) ++ loop 5 1 true ++ [LThread 2 true].

Lemma seq_WaitIdle_barrier_witness :
  let r := go_to barrier_run in
  threads r !! 2 = Some (TWaited (task 9)) ∧ EEnd (task 8) ∈ log r.
Proof.
  split; [vm_compute; reflexivity|].
  apply (seq_WaitIdle_barrier (go_to barrier_run) [task 7; task 8] [] (task 9)).
  - apply seq_go_to_reach. vm_compute. reflexivity.
  - apply (bool_decide_eq_true_1 _). vm_compute. reflexivity.
  - vm_compute. reflexivity.
  - apply (bool_decide_eq_true_1 _). vm_compute. reflexivity.
  - apply (bool_decide_eq_true_1 _). vm_compute. reflexivity.
  - apply (bool_decide_eq_true_1 _). vm_compute. reflexivity.
Defined.

Definition shutdown_run : list (Label nat) :=
  post 0 7 true ++ [LCall SOnce; LThread 1 true; LThread 1 true].

Lemma seq_shutdown_rejects_witness :
  let r := go_to shutdown_run in
  let r' := go_to (shutdown_run ++ [LThread 1 true; LThread 1 true] ++
                   [LCall (PClosed (task 8) false); LThread 2 true]) in
  posted r' ++ (threads r' ≫= late_push) ≡ₚ posted r ++ (threads r ≫= late_push)
  ∧ posted r' = [task 7] ∧ gone r' = [(task 7, false)] ∧ tq_items (queue r') = [].
Proof.
  split; [|vm_compute; repeat split].
  apply (seq_shutdown_rejects (go_to shutdown_run)).
  - vm_compute. reflexivity.
  - eapply (run_reachable _ ([LThread 1 true; LThread 1 true] ++
                             [LCall (PClosed (task 8) false); LThread 2 true])).
    vm_compute. reflexivity.
Defined.

(** Two tasks; the pool is shut down gracefully while the first one runs, so
    it turns the next run loop away. *)
Definition stuck_run : list (Label nat) :=
  post 0 7 true ++ post 1 8 false ++ loop 2 2 true ++ [LThread 2 false].

Lemma seq_turned_away_stuck_witness :
  let r := go_to stuck_run in
  let r' := go_to (stuck_run ++ post 3 9 false) in
  (log r' = log r ∧ executed (gone r') = executed (gone r)) ∧
  tq_items (queue r') = [task 8; task 9] ∧ executed (gone r') = [task 7] ∧
  RunningTaskCount r' = 1%Z ∧ closed r' = false.
Proof.
  split; [|vm_compute; repeat split].
  apply (seq_turned_away_stuck (go_to stuck_run)).
  - apply seq_go_to_reach. vm_compute. reflexivity.
  - vm_compute. lia.
  - eapply (run_reachable _ (post 3 9 false)). vm_compute. reflexivity.
Defined.
