(* ===== verification/PoolClient.v ===== *)
(** * Runners on a GoroutineThreadPool (ThreadPool of core/task.go, pool.go)

    A runner's own file leaves the pool abstract: a bag of posted jobs that are
    started in any order or turned away.  Here the machine of such a runner, any
    instance of the class [PoolClientOps], posts its jobs to the pool of
    Scheduler.v with [PostInternal], one access at a time, and the workers of
    that pool execute them, together with the tasks of other clients.  The laws
    of [PoolClient] say how far the abstract runner may be ahead of a call that
    has not returned; from them a forward simulation maps every state of the
    composition to a reachable state of the runner's own machine, whose bag
    holds exactly the jobs the pool holds. *)

From S2P Require Import Prelude GoSlice Task TaskQueue.
From stdpp Require Import functions.
From S2P Require Scheduler.
Import Scheduler(Pool, scheduler, workers, threads, cleared,
  PCheck, PPush, PMetric, PSignal, PReturned, PRejected, WGot, WStart, WRun, WEnd,
  LSpawn, LPost, LClose, LWorker, LDelay, LParentDone).

(** ** The interface *)

(** A runner's machine and how it meets its pool: which goroutine is about to
    call [PostInternal] with which job, the machine's label for the outcome of
    that call (accepted or turned away), what the goroutine does when the call
    has returned, how a worker enters a job, and how it left it (it returned, or
    panicked). *)
Class PoolClientOps (C L J : Type) := {
  pc_step : L → C → option C;
  pc_init : C;
  pc_alone : L → C → bool;            (** the step does not involve the pool *)
  pc_call : nat → C → option (J * TaskTraits);
  pc_post : nat → bool → L;
  pc_return : nat → C → C;
  pc_take : nat → L;
  pc_enter : J → C → nat * C;         (** the goroutine that executes the job *)
  pc_left : nat → C → option bool;
  pc_bag : C → list (J * TaskTraits);
}.

(** [pc_view D c a]: the abstract runner [a] is [c] after the outcomes of the
    calls of the goroutines in [D], and with a pool of its own. *)
Class PoolClient (C L J : Type) `{PoolClientOps C L J} := {
  pc_view : (nat → bool) → C → C → Prop;
  pv_init : pc_view (λ _, false) pc_init pc_init;
  pv_bag_init : pc_bag pc_init = [];
  pv_ext D D' c a : (∀ i, D i = D' i) → pc_view D c a → pc_view D' c a;
  pv_alone D l c c' a :
    pc_view D c a → (∀ i, D i = true → is_Some (pc_call i c)) →
    pc_alone l c = true → pc_step l c = Some c' →
    ∃ a', pc_step l a = Some a' ∧ pc_view D c' a' ∧ pc_bag a' = pc_bag a;
  pv_alone_call l c c' i x :
    pc_alone l c = true → pc_step l c = Some c' → pc_call i c = Some x → pc_call i c' = Some x;
  pv_post D i c a x (accept : bool) :
    pc_view D c a → D i = false → pc_call i c = Some x →
    ∃ a', pc_step (pc_post i accept) a = Some a' ∧ pc_view (<[i := true]> D) c a' ∧
      pc_bag a' ≡ₚ (if accept then [x] else []) ++ pc_bag a;
  pv_return D i c a x :
    pc_view D c a → D i = true → pc_call i c = Some x →
    pc_view (<[i := false]> D) (pc_return i c) a;
  pv_return_call i i' c x :
    i' ≠ i → pc_call i' c = Some x → pc_call i' (pc_return i c) = Some x;
  pv_take D k job tr c a :
    pc_view D c a → pc_bag a !! k = Some (job, tr) →
    ∃ a', pc_step (pc_take k) a = Some a' ∧ pc_view D (pc_enter job c).2 a' ∧
      pc_bag a' = delete k (pc_bag a);
  pv_enter_call i job c x : pc_call i c = Some x → pc_call i (pc_enter job c).2 = Some x;
}.

(** What the pool executes: a job of the runner, or another client's task. *)
Inductive PoolTask (J : Type) := Run (job : J) | Other (n : nat).
Arguments Run {J} job.
Arguments Other {J} n.
#[export] Instance PoolTask_zero {J} : GoZero (PoolTask J) := Other 0.

(** ** The composition *)

Section composition.
Context {C L J QP R : Type} `{PoolClientOps C L J, TaskQueue QP (PoolTask J)}.
Context (workerCount : nat).
Notation Pool := (Pool QP (PoolTask J) R).

(** [calls]: the goroutines of the runner that are inside [PostInternal], with
    the goroutine of the pool that carries the call out; [execs]: the workers
    that execute a job of the runner, with the runner's goroutine. *)
Record System := MkSystem {
  client : C;
  pool : Pool;
  calls : gmap nat nat;
  execs : gmap nat nat;
}.
Definition NewSystem (t0 : Z) : System :=
  MkSystem pc_init (Scheduler.NewGoroutineThreadPool t0) ∅ ∅.

Definition set_client (c : C) (s : System) : System := MkSystem c (pool s) (calls s) (execs s).
Definition set_pool (p : Pool) (s : System) : System := MkSystem (client s) p (calls s) (execs s).
Definition set_calls (m : gmap nat nat) (s : System) : System :=
  MkSystem (client s) (pool s) m (execs s).
Definition set_execs (m : gmap nat nat) (s : System) : System :=
  MkSystem (client s) (pool s) (calls s) m.

(** The runner's job in an item of the pool. *)
Definition job_of (it : TaskItem (PoolTask J)) : option (J * TaskTraits) :=
  match item_Task it with Run job => Some (job, item_Traits it) | Other _ => None end.

(** [r.threadPool.PostInternal(job, traits)]: the call, and its return. *)
Definition post_call (i : nat) (id : TaskID) (s : System) : option System :=
  match pc_call i (client s), calls s !! i with
  | Some (job, traits), None =>
      Some (set_calls (<[i := length (threads (pool s))]> (calls s))
              (set_pool (Scheduler.set_threads
                 (threads (pool s) ++ [PCheck (MkTaskItem (Run job) traits id)]) (pool s)) s))
  | _, _ => None
  end.
Definition post_returned (t : Scheduler.Thread (PoolTask J) R) : bool :=
  match t with PReturned | PRejected => true | _ => false end.
Definition post_return (i : nat) (s : System) : option System :=
  j ← calls s !! i;
  t ← threads (pool s) !! j;
  if post_returned t
  then Some (set_calls (delete i (calls s)) (set_client (pc_return i (client s)) s))
  else None.

(** A worker calls [item.Task(ctx)] for a job of the runner; it goes on when the
    job has returned or panicked. *)
Definition enter_job (w : nat) (s : System) : option System :=
  '(_, x) ← workers (pool s) !! w;
  match x with
  | WStart it =>
      '(job, _) ← job_of it;
      p ← Scheduler.step workerCount (LWorker w true) (pool s);
      Some (set_execs (<[w := (pc_enter job (client s)).1]> (execs s))
              (set_client (pc_enter job (client s)).2 (set_pool p s)))
  | _ => None
  end.
Definition leave_job (w : nat) (s : System) : option System :=
  '(_, x) ← workers (pool s) !! w;
  match x with
  | WRun it =>
      _ ← job_of it;
      i ← execs s !! w;
      returned ← pc_left i (client s);
      p ← Scheduler.step workerCount (LWorker w returned) (pool s);
      Some (set_execs (delete w (execs s)) (set_pool p s))
  | _ => None
  end.

(** The pool moves by itself, or for another client. *)
Definition other (it : TaskItem (PoolTask J)) : bool :=
  match item_Task it with Run _ => false | Other _ => true end.
Definition other_spawn (t : Scheduler.Thread (PoolTask J) R) : bool :=
  match t with
  | PCheck it => other it
  | Scheduler.DCheck task _ _ _ => match task with Run _ => false | Other _ => true end
  | _ => true
  end.
Definition other_worker (x : Scheduler.Worker (PoolTask J)) : bool :=
  match x with WStart it | WRun it => other it | _ => true end.
Definition pool_alone (l : Scheduler.Label (PoolTask J) R) (p : Pool) : bool :=
  match l with
  | LSpawn t => other_spawn t
  | LWorker w _ => match workers p !! w with Some (_, x) => other_worker x | None => false end
  | _ => true
  end.

Inductive Label :=
| LClient (l : L)
| LPool (l : Scheduler.Label (PoolTask J) R)
| LPostCall (i : nat) (id : TaskID)
| LPostReturn (i : nat)
| LEnter (w : nat)
| LLeave (w : nat).

Definition step (l : Label) (s : System) : option System :=
  match l with
  | LClient l =>
      if pc_alone l (client s)
      then c ← pc_step l (client s); Some (set_client c s) else None
  | LPool l =>
      if pool_alone l (pool s)
      then p ← Scheduler.step workerCount l (pool s); Some (set_pool p s) else None
  | LPostCall i id => post_call i id s
  | LPostReturn i => post_return i s
  | LEnter w => enter_job w s
  | LLeave w => leave_job w s
  end.
End composition.
Arguments System C J QP R : clear implicits.
Arguments Label L J R : clear implicits.

(** ** The simulation *)

Section simulation.
Context {C L J QP R : Type} `{PoolClient C L J, TaskQueueLaws QP (PoolTask J)}.
Context (workerCount : nat).
Notation Pool := (Pool QP (PoolTask J) R).
Notation System := (System C J QP R).
Notation step := (step (C:=C) (L:=L) (J:=J) (QP:=QP) (R:=R) workerCount).
Notation pstep := (Scheduler.step (Q:=QP) (T:=PoolTask J) (R:=R) workerCount).
Notation PThread := (Scheduler.Thread (PoolTask J) R).
Notation Item := (TaskItem (PoolTask J)).
Implicit Types (s : System) (c a : C) (p : Pool) (it : Item).

(** The pool has accepted or turned away the call. *)
Definition decided (t : option PThread) : bool :=
  match t with Some (PCheck _) | Some (PPush _) => false | _ => true end.
Definition decided_calls s (i : nat) : bool :=
  match calls s !! i with Some j => decided (threads (pool s) !! j) | None => false end.

(** The jobs of the runner that the pool holds: queued, in the hands of a worker
    that has not entered them, or cleared by a forced shutdown. *)
Definition to_start (w : nat * Scheduler.Worker (PoolTask J)) : list Item :=
  match w with (_, WGot it) | (_, WStart it) => [it] | _ => [] end.
Definition jobs (l : list Item) : list (J * TaskTraits) := omap (job_of (J:=J)) l.
#[local] Arguments jobs : simpl never.
Definition waiting p : list Item :=
  tq_items (Scheduler.queue (scheduler p)) ++ (workers p ≫= to_start) ++ default [] (cleared p).

Definition call_ok (x : J * TaskTraits) (t : PThread) : Prop :=
  match t with
  | PCheck it | PPush it => job_of it = Some x
  | PMetric | PSignal | PReturned | PRejected => True
  | _ => False
  end.
(** A goroutine of the pool that posts a job of the runner *)
Definition job_call (t : PThread) : Prop :=
  match t with PCheck it | PPush it => is_Some (job_of it) | _ => False end.

Record sys_inv s : Prop := {
  si_queue : tq_ok (Scheduler.queue (scheduler (pool s)));
  si_call i j : calls s !! i = Some j →
    ∃ x t, pc_call i (client s) = Some x ∧ threads (pool s) !! j = Some t ∧ call_ok x t;
  si_inj i i' j : calls s !! i = Some j → calls s !! i' = Some j → i = i';
  si_own j t : threads (pool s) !! j = Some t → job_call t → ∃ i, calls s !! i = Some j;
}.

Record sim s a : Prop := {
  sm_inv : sys_inv s;
  sm_view : pc_view (decided_calls s) (client s) a;
  sm_bag : pc_bag a ≡ₚ jobs (waiting (pool s));
}.

#[local] Instance jobs_perm : Proper (Permutation ==> Permutation) jobs.
Proof. intros l l' Hp. unfold jobs. by rewrite Hp. Qed.

Lemma jobs_app l l' : jobs (l ++ l') = jobs l ++ jobs l'.
Proof. apply omap_app. Qed.
Lemma jobs_other it l : job_of it = None → jobs (it :: l) = jobs l.
Proof. intros Hn. unfold jobs. simpl. by rewrite Hn. Qed.
Lemma jobs_run it l x : job_of it = Some x → jobs (it :: l) = x :: jobs l.
Proof. intros Hn. unfold jobs. simpl. by rewrite Hn. Qed.
Lemma other_job it : other it = true ↔ job_of it = None.
Proof. unfold other, job_of. by destruct (item_Task it). Qed.
Lemma job_of_traits it x : job_of it = Some x → x.2 = item_Traits it.
Proof. unfold job_of. destruct (item_Task it); [|done]. by intros [= <-]. Qed.

(** *** Steps of the pool *)

(** Threads of the pool move without deciding a call of the runner. *)
Definition quiet (ts ts' : list PThread) : Prop :=
  (∀ j t x, ts !! j = Some t → call_ok x t →
     ∃ t', ts' !! j = Some t' ∧ call_ok x t' ∧ decided (Some t') = decided (Some t)) ∧
  (∀ j t', ts' !! j = Some t' → job_call t' → ∃ t, ts !! j = Some t ∧ job_call t).

Lemma quiet_refl ts : quiet ts ts.
Proof. split; eauto. Qed.

Lemma quiet_snoc ts t : ¬ job_call t → quiet ts (ts ++ [t]).
Proof.
  intros Hn. split.
  - intros j t1 tr Hj Hc. exists t1. split; [|done]. by apply lookup_app_l_Some.
  - intros j t' Hj Hr. apply lookup_snoc_Some in Hj as [[_ Hj]|[_ <-]]; [eauto|done].
Qed.

Lemma quiet_insert ts i t t' :
  ts !! i = Some t →
  (∀ x, call_ok x t → call_ok x t' ∧ decided (Some t') = decided (Some t)) →
  (job_call t' → job_call t) → quiet ts (<[i := t']> ts).
Proof.
  intros Hi Hc Hr. split.
  - intros j t1 x Hj Hok. destruct (decide (j = i)) as [->|Hne].
    + simplify_eq. exists t'. rewrite list_lookup_insert_eq by (by eapply lookup_lt_Some). eauto.
    + exists t1. by rewrite list_lookup_insert_ne.
  - intros j t1 Hj Hrun. apply list_lookup_insert_Some in Hj as [(-> & <- & _)|[_ Hj]]; eauto.
Qed.

(** The step accepts a job of the runner, or turns one away. *)
Definition deciding (l : Scheduler.Label (PoolTask J) R) p : option (nat * (J * TaskTraits) * bool) :=
  match l with
  | LPost j =>
      match threads p !! j with
      | Some (PCheck it) =>
          x ← job_of it; if Scheduler.shuttingDown (scheduler p) then Some (j, x, false) else None
      | Some (PPush it) => x ← job_of it; Some (j, x, true)
      | _ => None
      end
  | _ => None
  end.
#[local] Arguments deciding : simpl never.

Lemma deciding_check j p it x :
  threads p !! j = Some (PCheck it) → job_of it = Some x →
  Scheduler.shuttingDown (scheduler p) = true → deciding (LPost j) p = Some (j, x, false).
Proof. intros E Hr Hs. unfold deciding. by rewrite E, Hr; simpl; rewrite Hs. Qed.
Lemma deciding_push j p it x :
  threads p !! j = Some (PPush it) → job_of it = Some x → deciding (LPost j) p = Some (j, x, true).
Proof. intros E Hr. unfold deciding. by rewrite E, Hr. Qed.

(** What such a step does *)
Lemma deciding_step l p p' j x accept :
  tq_ok (Scheduler.queue (scheduler p)) → deciding l p = Some (j, x, accept) →
  pstep l p = Some p' →
  ∃ t t', threads p !! j = Some t ∧ job_call t ∧ (∀ y, call_ok y t → y = x) ∧
    threads p' = <[j := t']> (threads p) ∧ decided (Some t) = false ∧ decided (Some t') = true ∧
    (∀ y, call_ok y t') ∧
    jobs (waiting p') ≡ₚ (if accept then [x] else []) ++ jobs (waiting p).
Proof.
  intros Hok Hd E. unfold deciding in Hd. destruct l as [|i| | | |]; try discriminate Hd.
  destruct (threads p !! i) as [t|] eqn:Ht; [|discriminate Hd].
  destruct t as [it|it| | | | | | | | | | | | | | | | | | | | | | ]; try discriminate Hd;
    (destruct (job_of it) as [y|] eqn:Hj; [|discriminate Hd]); simpl in Hd.
  - destruct (Scheduler.shuttingDown (scheduler p)) eqn:Hs; [|discriminate Hd].
    injection Hd as <- <- <-. simpl in E. rewrite Ht in E. simpl in E. rewrite Hs in E.
    injection E as <-. exists (PCheck it), PRejected.
    split_and!; try done; simpl; [rewrite Hj; eauto|congruence].
  - injection Hd as <- <- <-. simpl in E. rewrite Ht in E. injection E as <-.
    exists (PPush it), PMetric. split_and!; try done; simpl; [rewrite Hj; eauto|congruence|].
    unfold waiting. cbn. rewrite tq_push_items by done. rewrite <- app_comm_cons.
    by rewrite (jobs_run _ _ y) by (by destruct it).
Qed.

Lemma waiting_workers l i x y :
  l !! i = Some x → to_start x = to_start y → (<[i := y]> l) ≫= to_start = l ≫= to_start.
Proof. apply bind_insert_same. Qed.

Lemma new_workers n g : replicate n (g, Scheduler.WPoll false) ≫= to_start = [].
Proof. by induction n. Qed.

(** A post of another client's task *)
Lemma quiet_other i it t' ts :
  ts !! i = Some (PCheck it) ∨ ts !! i = Some (PPush it) → job_of it = None →
  ¬ job_call t' → quiet ts (<[i := t']> ts).
Proof.
  intros Hi Hn Hr. destruct Hi as [Hi|Hi];
    (eapply quiet_insert; [exact Hi|simpl; rewrite Hn; by intros|tauto]).
Qed.

Lemma alone_parts l p :
  pool_alone l p = true →
  (∀ t, l = LSpawn t → other_spawn t = true) ∧
  (∀ w ch g x, l = LWorker w ch → workers p !! w = Some (g, x) → other_worker x = true).
Proof.
  intros Ha. split.
  - by intros t ->.
  - intros w ch g x -> Hw. simpl in Ha. by rewrite Hw in Ha.
Qed.

Ltac quiet_thread Ht :=
  first [ apply quiet_refl
        | eapply quiet_insert; [exact Ht|by simpl|by simpl]
        | eapply quiet_insert; [exact Ht|simpl; intuition congruence|simpl; intuition congruence]
        | apply quiet_snoc; simpl; tauto ].

Lemma pool_step_quiet l p p' :
  tq_ok (Scheduler.queue (scheduler p)) → pool_alone l p = true → (∀ x, deciding l p ≠ Some x) →
  pstep l p = Some p' →
  quiet (threads p) (threads p') ∧ jobs (waiting p') ≡ₚ jobs (waiting p).
Proof.
  intros Hok Ha Hd E. destruct (alone_parts l p Ha) as [Hs Hx]. clear Ha. unfold waiting in *.
  Scheduler.sched_cases E; simpl in *; try (split; [quiet_thread Ht|done]).
  all: try (split; [quiet_thread Ht|by erewrite waiting_workers by done]).
  - split; [|done]. pose proof (Hs _ eq_refl) as Ha. apply other_job in Ha.
    apply quiet_snoc; simpl; rewrite Ha; by intros [? ?].
  - split; [|done]. destruct (job_of it) as [x|] eqn:Hj; [by edestruct Hd; eapply deciding_check|].
    eapply quiet_other; eauto.
  - destruct (job_of it) as [x|] eqn:Hj; [by edestruct Hd; eapply deciding_push|].
    split; [eapply quiet_other; eauto|]. rewrite tq_push_items by done.
    by rewrite <- app_comm_cons, jobs_other by (by destruct it).
  - split; [quiet_thread Ht|]. rewrite (Scheduler.clear_items _ Hok).
    rewrite drain_items by (done || by rewrite tq_len). apply jobs_perm. perm_solve.
  - split; [quiet_thread Ht|]. by rewrite bind_app, new_workers, app_nil_r.
  - split; [apply quiet_refl|]. apply tq_pop_got in Hpop as (_ & -> & _); [|done].
    destruct (bind_insert to_start _ _ _ (gen, WGot t) Hw) as (rest & Hr1 & Hr2).
    rewrite Hr2, Hr1. apply jobs_perm. perm_solve.
  - split; [apply quiet_refl|]. apply tq_pop_none in Hpop as [_ ->]; [|done].
    by erewrite waiting_workers by done.
  - split; [apply quiet_refl|]. pose proof (Hx _ _ _ _ eq_refl Hw) as Ha. apply other_job in Ha.
    destruct (bind_insert to_start _ _ _ (gen, WRun it) Hw) as (rest & Hr1 & Hr2).
    rewrite Hr2, Hr1, !jobs_app. simpl. by rewrite jobs_other.
Qed.

(** *** The relation is kept *)

Lemma sys_inv_quiet s p' :
  sys_inv s → tq_ok (Scheduler.queue (scheduler p')) → quiet (threads (pool s)) (threads p') →
  sys_inv (set_pool p' s).
Proof.
  intros [Hq Hc Hi Ho] Hok [Q1 Q2]. split; [done| |done|]; simpl.
  - intros i j Hj. destruct (Hc i j Hj) as (x & t & Ht & Hp & Hcall).
    destruct (Q1 j t x Hp Hcall) as (t' & ? & ? & _). eauto 8.
  - intros j t' Hj Hr. destruct (Q2 j t' Hj Hr) as (t & ? & ?). eauto.
Qed.

Lemma decided_quiet s p' i :
  sys_inv s → quiet (threads (pool s)) (threads p') →
  decided_calls s i = decided_calls (set_pool p' s) i.
Proof.
  intros [_ Hc _ _] [Q1 _]. unfold decided_calls. simpl.
  destruct (calls s !! i) as [j|] eqn:Hj; [|done].
  destruct (Hc i j Hj) as (x & t & _ & Hp & Hcall).
  destruct (Q1 j t x Hp Hcall) as (t' & -> & _ & ->). by rewrite Hp.
Qed.

Lemma sim_quiet s p' a :
  sim s a → tq_ok (Scheduler.queue (scheduler p')) → quiet (threads (pool s)) (threads p') →
  jobs (waiting p') ≡ₚ jobs (waiting (pool s)) → sim (set_pool p' s) a.
Proof.
  intros [Hi Hv Hb] Hok Hq Hw. split; [by apply sys_inv_quiet| |by rewrite Hw].
  eapply pv_ext; [|exact Hv]. intros i. by apply decided_quiet.
Qed.

Lemma decided_is_call s i : sys_inv s → decided_calls s i = true → is_Some (pc_call i (client s)).
Proof.
  intros Hi Hd. unfold decided_calls in Hd. destruct (calls s !! i) as [j|] eqn:Hj; [|done].
  destruct (si_call _ Hi _ _ Hj) as (x & t & -> & _). eauto.
Qed.

(** The call of goroutine [i] is decided: the abstract runner posts its job or
    loses it. *)
Lemma sim_decide s a i j t t' x p' (accept : bool) :
  sim s a → calls s !! i = Some j → pc_call i (client s) = Some x →
  threads (pool s) !! j = Some t → decided (Some t) = false →
  threads p' = <[j := t']> (threads (pool s)) → decided (Some t') = true → call_ok x t' →
  tq_ok (Scheduler.queue (scheduler p')) →
  jobs (waiting p') ≡ₚ (if accept then [x] else []) ++ jobs (waiting (pool s)) →
  ∃ a', pc_step (pc_post i accept) a = Some a' ∧ sim (set_pool p' s) a'.
Proof.
  intros [Hi Hv Hb] Hc Hx Hj Hd Hp' Hd' Hok' Hq Hw.
  assert (decided_calls s i = false) as Hdi by (unfold decided_calls; by rewrite Hc, Hj).
  destruct (pv_post _ _ _ _ _ accept Hv Hdi Hx) as (a' & Ea & Hv' & Hb'). exists a'. split; [done|].
  assert (j < length (threads (pool s))) as Hjl by (by eapply lookup_lt_Some).
  split; [|eapply pv_ext; [|exact Hv']|by rewrite Hb', Hw, Hb].
  - destruct Hi as [_ H5 H6 H7]. split; [done| |done|]; simpl; rewrite Hp'.
    + intros i1 j1 Hij. destruct (H5 _ _ Hij) as (x1 & t1 & E1 & E2 & E3).
      destruct (decide (j1 = j)) as [->|Hne].
      * rewrite (H6 _ _ _ Hij Hc) in *. simplify_eq. exists x, t'.
        by rewrite list_lookup_insert_eq.
      * exists x1, t1. by rewrite list_lookup_insert_ne.
    + intros j1 t1 Hl Hr. apply list_lookup_insert_Some in Hl as [(-> & <- & _)|[_ Hl]]; eauto.
  - intros i1. unfold decided_calls. simpl. rewrite Hp'. destruct (decide (i1 = i)) as [->|Hne].
    + by rewrite fn_lookup_insert, Hc, list_lookup_insert_eq.
    + rewrite fn_lookup_insert_ne by done. destruct (calls s !! i1) as [j1|] eqn:Hj1; [|done].
      rewrite list_lookup_insert_ne; [done|]. intros <-. apply Hne. symmetry. by eapply (si_inj _ Hi).
Qed.

Lemma sim_pool l s a p' :
  sim s a → pool_alone l (pool s) = true → pstep l (pool s) = Some p' →
  ∃ ls a', run pc_step ls a = Some a' ∧ sim (set_pool p' s) a'.
Proof.
  intros Hs Ha E. pose proof (sm_inv _ _ Hs) as Hi.
  pose proof (Scheduler.queue_ok_step _ _ _ _ (si_queue _ Hi) E) as Hok.
  destruct (deciding l (pool s)) as [[[j x] accept]|] eqn:Hd.
  - destruct (deciding_step _ _ _ _ _ _ (si_queue _ Hi) Hd E)
      as (t & t' & H5 & H6 & H7 & H8 & H9 & H10 & H11 & H12).
    destruct (si_own _ Hi _ _ H5 H6) as [i Hc].
    destruct (si_call _ Hi _ _ Hc) as (y & t1 & Ht & Ht1 & Hcall). simplify_eq.
    rewrite (H7 _ Hcall) in *.
    destruct (sim_decide s a i j t t' x p' accept) as (a' & Ea & Hs'); eauto.
    exists [pc_post i accept], a'. cbn [run]. by rewrite Ea.
  - destruct (pool_step_quiet l (pool s) p') as [Hq Hw]; [apply Hi|done|by rewrite Hd|done|].
    exists [], a. split; [done|]. by apply sim_quiet.
Qed.

(** The calls stay the same, what they post stays known. *)
Lemma sys_inv_client s c p' m :
  sys_inv s → Scheduler.queue (scheduler p') = Scheduler.queue (scheduler (pool s)) →
  threads p' = threads (pool s) →
  (∀ i x, pc_call i (client s) = Some x → pc_call i c = Some x) →
  sys_inv (set_execs m (set_client c (set_pool p' s))).
Proof.
  intros [H5 H6 H7 H8] Hq Ht Hr. split; simpl; rewrite ?Hq, ?Ht; try done.
  intros i j Hj. destruct (H6 i j Hj) as (x & t1 & ? & ?). exists x, t1. auto.
Qed.

(** The runner moves without its pool. *)
Lemma sim_client l s a c :
  sim s a → pc_alone l (client s) = true → pc_step l (client s) = Some c →
  ∃ ls a', run pc_step ls a = Some a' ∧ sim (set_client c s) a'.
Proof.
  intros [Hi Hv Hb] Ha E.
  destruct (pv_alone _ _ _ _ _ Hv (λ i, decided_is_call s i Hi) Ha E) as (a' & Ea & Hv' & Hb').
  exists [l], a'. split; [cbn; by rewrite Ea|]. split; [|exact Hv'|by rewrite Hb'].
  apply (sys_inv_client s c (pool s) (execs s)); eauto using pv_alone_call.
Qed.

Lemma sim_post_call i id s s' a : sim s a → post_call i id s = Some s' → sim s' a.
Proof.
  intros [Hi Hv Hb] E. unfold post_call in E.
  destruct (pc_call i (client s)) as [[job tr]|] eqn:Ht; [|discriminate E].
  destruct (calls s !! i) eqn:Hc; [discriminate E|]. injection E as <-.
  assert (∀ i' j, calls s !! i' = Some j → j < length (threads (pool s))) as Hlt.
  { intros i' j Hj. destruct (si_call _ Hi _ _ Hj) as (_ & t & _ & Hl & _). by eapply lookup_lt_Some. }
  split; [|eapply pv_ext; [|exact Hv]|done].
  - destruct Hi as [H5 H6 H7 H8]. split; [done|..]; simpl.
    + intros i1 j [[-> <-]|[Hne Hj]]%lookup_insert_Some.
      * eexists _, _. split_and!; [done|by rewrite lookup_snoc_length|done].
      * destruct (H6 _ _ Hj) as (x & t1 & ? & ? & ?).
        exists x, t1. split_and!; [done|by apply lookup_app_l_Some|done].
    + intros i1 i2 j [[-> <-]|[Hn1 Hj1]]%lookup_insert_Some [[-> Hj]|[Hn2 Hj2]]%lookup_insert_Some;
        [done|apply Hlt in Hj2; lia|subst; apply Hlt in Hj1; lia|eauto].
    + intros j t Hj Hr. apply lookup_snoc_Some in Hj as [[_ Hj]|[<- _]].
      * destruct (H8 _ _ Hj Hr) as [i1 Hi1]. exists i1.
        rewrite lookup_insert_ne; [done|]. intros ->. congruence.
      * exists i. by rewrite lookup_insert_eq.
  - intros i1. unfold decided_calls. simpl. destruct (decide (i1 = i)) as [->|Hne].
    + by rewrite Hc, lookup_insert_eq, lookup_snoc_length.
    + rewrite lookup_insert_ne by done. destruct (calls s !! i1) as [j|] eqn:Hj; [|done].
      by rewrite lookup_app_l by eauto.
Qed.

Lemma sim_post_return i s s' a : sim s a → post_return i s = Some s' → sim s' a.
Proof.
  intros [Hi Hv Hb] E. unfold post_return in E.
  destruct (calls s !! i) as [j|] eqn:Hc; [|discriminate E]. cbn in E.
  destruct (threads (pool s) !! j) as [t|] eqn:Hj; [|discriminate E]. cbn in E.
  destruct (post_returned t) eqn:Hp; [|discriminate E]. injection E as <-.
  destruct (si_call _ Hi _ _ Hc) as (x & _ & Hx & _).
  assert (decided_calls s i = true) as Hd.
  { unfold decided_calls. rewrite Hc, Hj. by destruct t. }
  split; [|eapply pv_ext; [|by eapply pv_return]|done].
  - destruct Hi as [H5 H6 H7 H8]. split; [done|..]; simpl.
    + intros i1 j1 [Hne Hj1]%lookup_delete_Some.
      destruct (H6 _ _ Hj1) as (x1 & t1 & ? & ?). exists x1, t1. split; [|done].
      by apply pv_return_call.
    + intros i1 i2 j1 [_ ?]%lookup_delete_Some [_ ?]%lookup_delete_Some. eauto.
    + intros j1 t1 Hj1 Hr. destruct (H8 _ _ Hj1 Hr) as [i1 Hi1]. exists i1.
      apply lookup_delete_Some. split; [|done]. intros <-. rewrite Hc in Hi1. simplify_eq.
      by destruct t.
  - intros i1. unfold decided_calls. simpl. destruct (decide (i1 = i)) as [->|Hne].
    + by rewrite fn_lookup_insert, lookup_delete_eq.
    + by rewrite fn_lookup_insert_ne, lookup_delete_ne.
Qed.

Lemma sim_enter w s s' a :
  sim s a → enter_job workerCount w s = Some s' →
  ∃ ls a', run pc_step ls a = Some a' ∧ sim s' a'.
Proof.
  intros [Hi Hv Hb] E. unfold enter_job in E. cbn in E.
  destruct (workers (pool s) !! w) as [[gen x]|] eqn:Hw; [|done]. cbn in E.
  destruct x as [| |it| | | | |]; try discriminate E.
  destruct (job_of it) as [[job tr]|] eqn:Hj; [|discriminate E]. cbn in E. injection E as <-.
  destruct (bind_insert to_start _ _ _ (gen, WRun it) Hw) as (rest & Hr1 & Hr2).
  assert (pc_bag a ≡ₚ (job, tr) :: jobs (tq_items (Scheduler.queue (scheduler (pool s))) ++
            ((<[w:=(gen, WRun it)]> (workers (pool s))) ≫= to_start) ++
            default [] (cleared (pool s)))) as Hp.
  { rewrite Hb, <- (jobs_run it) by done. unfold waiting. apply jobs_perm. rewrite Hr1, Hr2. perm_solve. }
  destruct (perm_delete _ _ _ Hp) as (k & Hk & Hk').
  destruct (pv_take _ _ _ _ _ _ Hv Hk) as (a' & Ea & Hv' & Hb').
  exists [pc_take k], a'. split; [cbn; by rewrite Ea|]. split; [|exact Hv'|by rewrite Hb'].
  apply (sys_inv_client s); eauto using pv_enter_call.
Qed.

Lemma sim_leave w s s' a : sim s a → leave_job workerCount w s = Some s' → sim s' a.
Proof.
  intros [Hi Hv Hb] E. unfold leave_job in E. cbn in E.
  destruct (workers (pool s) !! w) as [[gen x]|] eqn:Hw; [|done]. cbn in E.
  destruct x as [| | |it| | | |]; try discriminate E.
  destruct (job_of it) as [y|]; [|discriminate E]. cbn in E.
  destruct (execs s !! w) as [i|]; [|discriminate E]. cbn in E.
  destruct (pc_left i (client s)) as [returned|]; [|discriminate E]. cbn in E. injection E as <-.
  split; [by apply (sys_inv_client s (client s))|exact Hv|].
  rewrite Hb. unfold waiting. simpl. by erewrite waiting_workers by done.
Qed.

Lemma sim_step : simulates step pc_step sim.
Proof.
  intros l s s' a Hs E. destruct l as [l|l|i id|i|w|w]; cbn [step] in E.
  - destruct (pc_alone l (client s)) eqn:Ha; [|done].
    destruct (pc_step l (client s)) as [r|] eqn:Er; [|done]. injection E as <-.
    by eapply sim_client.
  - destruct (pool_alone l (pool s)) eqn:Ha; [|done].
    destruct (Scheduler.step workerCount l (pool s)) as [p|] eqn:Ep; [|done]. injection E as <-.
    by eapply sim_pool.
  - exists [], a. split; [done|]. by eapply sim_post_call.
  - exists [], a. split; [done|]. by eapply sim_post_return.
  - by eapply sim_enter.
  - exists [], a. split; [done|]. by eapply sim_leave.
Qed.

Lemma sim_init t0 : sim (NewSystem t0) pc_init.
Proof.
  split.
  - split; simpl; try done. apply tq_new_ok.
  - apply pv_init.
  - unfold waiting. simpl. by rewrite tq_new_items, pv_bag_init.
Qed.

(** What a runner's own machine guarantees, it guarantees on a pool. *)
Lemma pool_refines t0 s :
  reachable step (NewSystem t0) s →
  ∃ a, reachable pc_step pc_init a ∧ pc_view (decided_calls s) (client s) a ∧
    pc_bag a ≡ₚ jobs (waiting (pool s)).
Proof.
  intros Hr. destruct (simulation_reachable _ _ sim _ _ s sim_step (sim_init t0) Hr)
    as (a & Ha & [Hi Hv Hb]). eauto.
Qed.
End simulation.
