(* ===== verification/SequencedPool.v ===== *)
(** * A SequencedTaskRunner on a GoroutineThreadPool
    (core/sequenced_task_runner.go over pool.go and core/task_scheduler.go)

    Sequenced.v leaves the pool abstract: a run loop is a ticket that some
    worker takes.  Here the runner is a client of the pool ([PoolClient]): the
    goroutine that has won the compare-and-swap of [ensureRunning], or that
    rebuilds the run loop, calls [PostInternal] with the method value
    [r.runLoop].  What Sequenced.v proves holds of the two together. *)

From S2P Require Import Prelude GoSlice Task TaskQueue PoolClient.
From stdpp Require Import functions.
From S2P Require Scheduler Sequenced FIFOQueue.
Import Sequenced(SequencedTaskRunner, TPost, RCheck, RPanicked, TEnd, after_ensure).

(** ** The runner as a client of the pool *)

Section client.
Context {Q T : Type} `{TaskQueue Q T}.
Notation Runner := (SequencedTaskRunner Q T).
Implicit Types r : Runner.

Definition set_thread (i : nat) (t : Sequenced.Thread T) r : Runner :=
  Sequenced.set_threads (<[i := t]> (Sequenced.threads r)) r.
Definition add_thread (t : Sequenced.Thread T) r : Runner :=
  Sequenced.set_threads (Sequenced.threads r ++ [t]) r.

(** [r.threadPool.PostInternal(r.runLoop, traits)] of goroutine [i] *)
Definition post_runLoop (i : nat) r : option (unit * TaskTraits) :=
  match Sequenced.threads r !! i with Some (TPost traits _) => Some (tt, traits) | _ => None end.
Definition posted_runLoop (i : nat) r : Runner :=
  match Sequenced.threads r !! i with
  | Some (TPost _ k) => set_thread i (after_ensure k) r
  | _ => r
  end.
(** A worker calls the method value, and is back from it. *)
Definition enter_runLoop r : nat * Runner := (length (Sequenced.threads r), add_thread RCheck r).
Definition left_runLoop (i : nat) r : option bool :=
  match Sequenced.threads r !! i with
  | Some TEnd => Some true
  | Some RPanicked => Some false
  | _ => None
  end.
(** The runner moves without its pool. *)
Definition runner_alone (l : Sequenced.Label T) r : bool :=
  match l with
  | Sequenced.LCall _ => true
  | Sequenced.LThread i _ =>
      match Sequenced.threads r !! i with Some (TPost _ _) | None => false | Some _ => true end
  | Sequenced.LTake _ => false
  end.

#[export] Instance Sequenced_PoolClientOps : PoolClientOps Runner (Sequenced.Label T) unit := {
  pc_step := Sequenced.step;
  pc_init := Sequenced.NewSequencedTaskRunner;
  pc_alone := runner_alone;
  pc_call := post_runLoop;
  pc_post := Sequenced.LThread;
  pc_return := posted_runLoop;
  pc_take := Sequenced.LTake;
  pc_enter _ := enter_runLoop;
  pc_left := left_runLoop;
  pc_bag r := pair tt <$> Sequenced.tickets r;
}.

(** ** The laws *)

(** The runner with other goroutines and another view of the pool *)
Definition with_pool (ts : list (Sequenced.Thread T)) (tk : list TaskTraits) (ls : nat) r : Runner :=
  Sequenced.MkRunner (Sequenced.queue r) (Sequenced.runningCount r) (Sequenced.closed r)
    (Sequenced.shutdownChan r) (Sequenced.shutdownOnce r) tk ls ts (Sequenced.obs r)
    (Sequenced.posted r) (Sequenced.gone r) (Sequenced.log r).

(** A goroutine whose call is decided has already returned from it. *)
Definition ahead (decided : bool) (t : Sequenced.Thread T) : Sequenced.Thread T :=
  match t with TPost _ k => if decided then after_ensure k else t | _ => t end.
Definition threads_ahead (D : nat → bool) r (ts : list (Sequenced.Thread T)) : Prop :=
  ∀ i, ts !! i = ahead (D i) <$> Sequenced.threads r !! i.
Definition seq_view (D : nat → bool) r a : Prop :=
  ∃ ts tk ls, a = with_pool ts tk ls r ∧ threads_ahead D r ts.

(** What the goroutines outside [PostInternal] do does not depend on the pool. *)
Lemma thread_alone choice t r t' r' ts tk ls :
  (∀ tr k, t ≠ TPost tr k) → Sequenced.thread_step choice t r = Some (t', r') →
  Sequenced.thread_step choice t (with_pool ts tk ls r) = Some (t', with_pool ts tk ls r') ∧
  Sequenced.threads r' = Sequenced.threads r.
Proof.
  intros Hn E. destruct t as [it|it w|it w|tr k|tr k|it|it| | | | | |it| | | | | | | | | | | ];
    try (destruct (Hn _ _ eq_refl)); simpl in E |- *; try discriminate E;
    unfold Sequenced.ensure_cas in *; simpl in *;
    repeat (case_match || (progress simplify_eq/=)); done.
Qed.

Lemma ahead_other d t : (∀ tr k, t ≠ TPost tr k) → ahead d t = t.
Proof. intros Hn. destruct t; simpl; try done. by destruct (Hn traits k). Qed.
Lemma ahead_false t : ahead false t = t.
Proof. by destruct t. Qed.
Lemma ahead_after d k : ahead d (after_ensure k) = after_ensure k.
Proof. by destruct k. Qed.

Lemma threads_ahead_length D r ts : threads_ahead D r ts → length ts = length (Sequenced.threads r).
Proof.
  intros Hts. apply Nat.le_antisymm; apply Nat.nlt_ge; intros Hlt.
  - apply lookup_lt_is_Some in Hlt as [x Hx]. rewrite Hts in Hx.
    apply fmap_Some in Hx as (t & Ht & _). apply lookup_lt_Some in Ht. lia.
  - pose proof (Hts (length ts)) as Hl. rewrite lookup_ge_None_2 in Hl by done.
    apply lookup_lt_is_Some in Hlt as [x Hx]. by rewrite Hx in Hl.
Qed.

Lemma threads_ahead_insert D D' r ts i t x :
  threads_ahead D r ts → Sequenced.threads r !! i = Some t → (∀ j, j ≠ i → D' j = D j) →
  threads_ahead D' (set_thread i x r) (<[i := ahead (D' i) x]> ts).
Proof.
  intros Hts Hi HD j. simpl. destruct (decide (j = i)) as [->|Hne].
  - rewrite !list_lookup_insert_eq; [done|by eapply lookup_lt_Some|].
    rewrite (threads_ahead_length _ _ _ Hts). by eapply lookup_lt_Some.
  - by rewrite !list_lookup_insert_ne, Hts, HD.
Qed.

Lemma threads_ahead_snoc D r ts x :
  threads_ahead D r ts → (∀ tr k, x ≠ TPost tr k) → threads_ahead D (add_thread x r) (ts ++ [x]).
Proof.
  intros Hts Hx i. simpl. pose proof (threads_ahead_length _ _ _ Hts) as Hl.
  destruct (decide (i < length ts)) as [Hlt|Hge].
  - rewrite !lookup_app_l by lia. apply Hts.
  - rewrite !lookup_app_r by lia. rewrite Hl.
    destruct (i - length (Sequenced.threads r)) as [|n]; simpl; [|done]. by rewrite ahead_other.
Qed.

Lemma post_runLoop_some i r x :
  post_runLoop i r = Some x → ∃ k, Sequenced.threads r !! i = Some (TPost x.2 k) ∧ x = (tt, x.2).
Proof. unfold post_runLoop. intros E. repeat case_match; simplify_eq. eauto. Qed.

Lemma post_runLoop_is i r tr k :
  Sequenced.threads r !! i = Some (TPost tr k) → post_runLoop i r = Some (tt, tr).
Proof. unfold post_runLoop. by intros ->. Qed.

Lemma seq_alone D l r r' a :
  seq_view D r a → (∀ i, D i = true → is_Some (post_runLoop i r)) →
  runner_alone l r = true → Sequenced.step l r = Some r' →
  ∃ a', Sequenced.step l a = Some a' ∧ seq_view D r' a' ∧
    pair tt <$> Sequenced.tickets a' = pair tt <$> Sequenced.tickets a.
Proof.
  intros (ts & tk & ls & -> & Hts) HD Ha E. destruct l as [t|i choice|k]; [| |done].
  - cbn in E. destruct (Sequenced.entry t) eqn:He; [|done]. injection E as <-.
    assert (∀ tr k, t ≠ TPost tr k) as Hn by (by intros tr k ->).
    eexists. split; [cbn; by rewrite He|]. split; [|done].
    exists (ts ++ [t]), tk, ls. split; [done|]. by apply threads_ahead_snoc.
  - cbn in Ha, E. destruct (Sequenced.threads r !! i) as [t|] eqn:Ht; [|done].
    assert (∀ tr k, t ≠ TPost tr k) as Hn by (by intros tr k ->). cbn in E.
    destruct (Sequenced.thread_step choice t r) as [[t' r1]|] eqn:Et; [|done].
    cbn in E. injection E as <-.
    destruct (thread_alone _ _ _ _ _ ts tk ls Hn Et) as (Ea & Hr).
    assert (D i = false) as Hd.
    { apply not_true_is_false. intros [x (k & Hk & _)%post_runLoop_some]%HD. simplify_eq. }
    eexists. split.
    { cbn. rewrite Hts, Ht. simpl. rewrite ahead_other by done. by rewrite Ea. }
    split; [|done]. exists (<[i := t']> ts), tk, ls. split; [done|].
    pose proof (threads_ahead_insert D D r ts i t t' Hts Ht (λ _ _, eq_refl)) as Hins.
    rewrite Hd, ahead_false in Hins. intros j. specialize (Hins j). simpl in *. by rewrite Hr.
Qed.

Lemma seq_alone_call l r r' i x :
  runner_alone l r = true → Sequenced.step l r = Some r' →
  post_runLoop i r = Some x → post_runLoop i r' = Some x.
Proof.
  intros Ha E (k & Ht & ->)%post_runLoop_some. apply (post_runLoop_is _ _ _ k).
  destruct l as [t|i' choice|k']; [| |done]; cbn in E, Ha.
  - destruct (Sequenced.entry t); [|done]. injection E as <-. by apply lookup_app_l_Some.
  - destruct (Sequenced.threads r !! i') as [t|] eqn:Ht'; [|done]. cbn in E.
    assert (∀ tr k, t ≠ TPost tr k) as Hn by (by intros tr' k' ->).
    destruct (Sequenced.thread_step choice t r) as [[t' r1]|] eqn:Et; [|done]. injection E as <-.
    destruct (thread_alone _ _ _ _ _ [] [] 0 Hn Et) as (_ & Hr). simpl. rewrite Hr.
    rewrite list_lookup_insert_ne; [done|]. intros ->. simplify_eq.
Qed.

Lemma seq_post D i r a x (accept : bool) :
  seq_view D r a → D i = false → post_runLoop i r = Some x →
  ∃ a', Sequenced.step (Sequenced.LThread i accept) a = Some a' ∧ seq_view (<[i := true]> D) r a' ∧
    pair tt <$> Sequenced.tickets a' ≡ₚ
      (if accept then [x] else []) ++ (pair tt <$> Sequenced.tickets a).
Proof.
  intros (ts & tk & ls & -> & Hts) Hd (k & Ht & ->)%post_runLoop_some.
  eexists. split; [cbn; rewrite Hts, Ht; simpl; by rewrite Hd|]. split.
  - exists (<[i := after_ensure k]> ts), (if accept then tk ++ [x.2] else tk), (if accept then ls else S ls).
    split; [by destruct accept|].
    pose proof (threads_ahead_insert D (<[i := true]> D) r ts i _ (TPost x.2 k) Hts Ht) as Hins.
    rewrite fn_lookup_insert in Hins. unfold set_thread in Hins.
    rewrite list_insert_id in Hins by done. apply Hins. intros j Hj. by rewrite fn_lookup_insert_ne.
  - destruct accept; [|done]. simpl. rewrite fmap_app. simpl. by rewrite Permutation_app_comm.
Qed.

Lemma seq_return D i r a x :
  seq_view D r a → D i = true → post_runLoop i r = Some x →
  seq_view (<[i := false]> D) (posted_runLoop i r) a.
Proof.
  intros (ts & tk & ls & -> & Hts) Hd (k & Ht & _)%post_runLoop_some.
  unfold posted_runLoop. rewrite Ht. exists ts, tk, ls. split; [done|].
  pose proof (threads_ahead_insert D (<[i := false]> D) r ts i _ (after_ensure k) Hts Ht) as Hins.
  rewrite ahead_after in Hins. rewrite list_insert_id in Hins; [|by rewrite Hts, Ht; simpl; rewrite Hd].
  apply Hins. intros j Hj. by rewrite fn_lookup_insert_ne.
Qed.

#[export] Instance Sequenced_PoolClient : PoolClient Runner (Sequenced.Label T) unit.
Proof.
  refine {| pc_view := seq_view |}; simpl.
  - by exists [], [], 0.
  - done.
  - intros D D' r a HD (ts & tk & ls & -> & Hts). exists ts, tk, ls. split; [done|].
    intros i. by rewrite <- HD.
  - exact seq_alone.
  - exact seq_alone_call.
  - exact seq_post.
  - exact seq_return.
  - intros i i' r x Hne. unfold post_runLoop, posted_runLoop.
    destruct (Sequenced.threads r !! i) as [[]|]; try done. simpl. by rewrite list_lookup_insert_ne.
  - intros D k [] tr r a (ts & tk & ls & -> & Hts) Hk. simpl in Hk. rewrite list_lookup_fmap in Hk.
    apply fmap_Some in Hk as (tr' & Hk & [= <-]). eexists. split; [cbn; by rewrite Hk|].
    split; [|simpl; by rewrite list_fmap_delete].
    exists (ts ++ [RCheck]), (delete k tk), ls. split; [done|]. by apply threads_ahead_snoc.
  - intros i [] r x (k & Ht & ->)%post_runLoop_some. apply (post_runLoop_is _ _ _ k).
    by apply lookup_app_l_Some.
Defined.
End client.

(** ** Theorems *)

Section theorems.
Context {Q T QP R : Type} `{FIFOOrder Q T, TaskQueueLaws QP (PoolTask unit)}.
Context (workerCount : nat).
Notation Runner := (SequencedTaskRunner Q T).
Notation step := (PoolClient.step (C:=Runner) (QP:=QP) (R:=R) workerCount).

(** C2. A SequencedTaskRunner on a GoroutineThreadPool, every access of the two interleaved
    with each other and with the other clients of the pool (its shutdown included), refines
    the abstract runner: its state is one of a reachable state of Sequenced.v whose tickets
    are the run loops the pool holds; so its tasks run one at a time in the order they were
    posted, the pool never holds two of its run loops, and the sanity check of runLoop never
    panics. *)
Theorem seqpool_refines t0 s :
  reachable step (NewSystem t0) s →
  (∃ a, reachable Sequenced.step Sequenced.NewSequencedTaskRunner a ∧
     (∃ ts tk ls, a = with_pool ts tk ls (client s)) ∧
     pair tt <$> Sequenced.tickets a ≡ₚ jobs (waiting (pool s))) ∧
  (Sequenced.posted (client s) =
     (fst <$> Sequenced.gone (client s)) ++ tq_items (Sequenced.queue (client s)) ∧
   ∃ fin cur, length cur ≤ 1 ∧ Sequenced.executed (Sequenced.gone (client s)) = fin ++ cur ∧
     Sequenced.log (client s) = brackets fin ++ (EStart <$> cur)) ∧
  length (jobs (waiting (pool s))) ≤ 1 ∧
  (∀ i, Sequenced.threads (client s) !! i ≠ Some RPanicked).
Proof.
  intros Hr. destruct (pool_refines _ _ _ Hr) as (a & Ha & (ts & tk & ls & -> & Hts) & Htk).
  split; [eauto 10|]. split; [exact (Sequenced.sequential_reach _ Ha)|].
  destruct (Sequenced.token_reach _ Ha) as (Ht & Hb & Hp). unfold Sequenced.tokens in Ht. simpl in *.
  pose proof (total_nonneg _ ts Sequenced.w_token_nonneg).
  split; [rewrite <- Htk, length_fmap; lia|].
  intros i Hx. assert (ts !! i = Some RPanicked) as Hpi by (by rewrite Hts, Hx).
  pose proof (total_zero_lookup Sequenced.w_panicked _ _ _ ltac:(by intros []) Hp Hpi). done.
Qed.
End theorems.

(** ** A concrete run *)

Module SeqPoolDemo.
#[export] Instance q1 : TaskQueue (FIFOQueue.FIFOTaskQueue nat) nat :=
  FIFOQueue.FIFO_TaskQueue grow_double.
#[export] Instance q1_laws : TaskQueueLaws (FIFOQueue.FIFOTaskQueue nat) nat :=
  FIFOQueue.FIFO_Laws grow_double grow_double_ok.
#[export] Instance q1_order : FIFOOrder (FIFOQueue.FIFOTaskQueue nat) nat :=
  FIFOQueue.FIFO_Order grow_double grow_double_ok.
#[export] Instance q2 : TaskQueue (FIFOQueue.FIFOTaskQueue (PoolTask unit)) (PoolTask unit) :=
  FIFOQueue.FIFO_TaskQueue grow_double.
#[export] Instance q2_laws : TaskQueueLaws (FIFOQueue.FIFOTaskQueue (PoolTask unit)) (PoolTask unit) :=
  FIFOQueue.FIFO_Laws grow_double grow_double_ok.

Definition runner := SequencedTaskRunner (FIFOQueue.FIFOTaskQueue nat) nat.
Definition sys := System runner unit (FIFOQueue.FIFOTaskQueue (PoolTask unit)) unit.
Definition init : sys := NewSystem 0.
Notation L := (Label (Sequenced.Label nat) unit unit).
Definition task (n : nat) : TaskItem nat := MkTaskItem n DefaultTaskTraits (N.of_nat n).
Definition other (n : nat) : TaskItem (PoolTask unit) :=
  MkTaskItem (Other n) DefaultTaskTraits (N.of_nat n).

(** Two workers start and go to sleep. *)
Definition boot : list L :=
  LPool <$> [Scheduler.LSpawn Scheduler.CStart; Scheduler.LClose 0 true;
             Scheduler.LWorker 0 true; Scheduler.LWorker 1 true].
Definition spawn (i n : nat) : list L :=
  (LClient <$> Sequenced.LCall (Sequenced.PClosed (task n) false)
               :: replicate 3 (Sequenced.LThread i true)).
(** Goroutine [i] of the runner posts the run loop as thread [j] of the pool. *)
Definition post (i j : nat) : list L :=
  LPostCall i 1%N :: (LPool <$> replicate 4 (Scheduler.LPost j)) ++ [LPostReturn i].
(** Worker [w] takes the run loop as goroutine [i], which moves [n] times. *)
Definition enter (w i k n : nat) : list L :=
  (LPool <$> replicate k (Scheduler.LWorker w true)) ++ [LEnter w] ++
  (LClient <$> replicate n (Sequenced.LThread i true)).
Definition schedule : list L :=
  boot ++ spawn 0 7 ++ post 0 1 ++ spawn 1 8 ++
  (LPool <$> Scheduler.LSpawn (Scheduler.PCheck (other 3)) :: replicate 4 (Scheduler.LPost 2)) ++
  enter 0 2 3 4 ++ post 2 3 ++ [LLeave 0] ++
  (LPool <$> replicate 4 (Scheduler.LWorker 1 true)) ++
  (LPool <$> replicate 2 (Scheduler.LWorker 0 true)) ++ enter 0 3 2 2.
Definition final : sys := default init (run (PoolClient.step 2) schedule init).
End SeqPoolDemo.
Import SeqPoolDemo.

(** One task has run on worker 0, the second runs there while worker 1 runs the
    task of another client. *)
Lemma seqpool_refines_witness :
  Sequenced.log (client final) = [EStart (task 7); EEnd (task 7); EStart (task 8)] ∧
  Scheduler.workers (pool final) =
    [(0, Scheduler.WRun (MkTaskItem (Run tt) DefaultTaskTraits 1%N)); (0, Scheduler.WRun (other 3))] ∧
  length (jobs (waiting (pool final))) ≤ 1.
Proof.
  destruct (seqpool_refines (T:=nat) (R:=unit) 2 0 final) as (_ & _ & H & _).
  - apply (run_reachable (PoolClient.step 2) schedule). vm_compute. reflexivity.
  - split; [vm_compute; reflexivity|]. split; [vm_compute; reflexivity|exact H].
Defined.
