(* ===== verification/SingleThread.v ===== *)
(** * SingleThreadTaskRunner (core/single_thread_task_runner.go)

    One dedicated goroutine receives tasks from a channel of capacity 100.
    The model keeps the channel as a list, every goroutine inside a method of
    the runner as a program counter, and lets the running task call methods of
    its own runner: the loop's goroutine is then inside that method. *)

From S2P Require Import Prelude Task.

(** An int with three named values: [SetQueuePolicy] takes the others too. *)
Inductive QueuePolicy := QueuePolicyDrop | QueuePolicyReject | QueuePolicyWait | QueuePolicyOther (n : Z).
#[export] Instance QueuePolicy_eq_dec : EqDecision QueuePolicy.
Proof. solve_decision. Defined.

(** A [sync.Once]. *)
Inductive Once := OnceNew | OnceRunning | OnceDone.

Definition queue_cap : nat := 100.

Section single_thread.
Context {T : Type} `{EqDecision T}.

(** A goroutine inside a method of the runner. *)
Inductive Call :=
(* [WaitIdle]; [enqueueTask], [w]: called by [WaitIdle] *)
| WClosed (t : T)
| EClosed (t : T) (traits : TaskTraits) (w : bool)       (** before [r.closed.Load()] *)
| EPolicy (t : T) (traits : TaskTraits) (w : bool)       (** before [queuePolicyMu] *)
| ESend (t : T) (traits : TaskTraits) (w : bool) (policy : QueuePolicy) (callback : bool)
| EReject (t : T) (traits : TaskTraits) (w : bool) (callback : bool)
| ECallback (t : T) (traits : TaskTraits) (w : bool) (callback : bool)
| TWait (t : T)
(* [PostDelayedTaskWithTraits], and the function its timer runs *)
| DClosed (t : T) (traits : TaskTraits)
| DSelect (t : T) (traits : TaskTraits)
| DFire (t : T) (traits : TaskTraits)
(* [Shutdown] *)
| SOnce | SClosed | SChan
(* [Stop] *)
| KOnce | KClosed | KShutOnce | KChan | KCancel | KWait
(* [WaitShutdown] *)
| WShut
(* returned *)
| RDone (waited : option T)   (** nil; the barrier it waited for *)
| RErr
| RStopped                    (** [Stop] returned *)
| RPanicked.

(** The loop's goroutine. *)
Inductive LoopPc :=
| LSelect
| LAdd (t : T)                (** before [executingCount.Add(1)] *)
| LBody (t : T)               (** inside [task(runCtx)] *)
| LCalling (t : T) (c : Call) (** ... inside a method the task called *)
| LSub (t : T) (panicked : bool) (** before [executingCount.Add(-1)] *)
| LReport (t : T)             (** recovered, before the printed message *)
| LClose                      (** before [close(r.stopped)] *)
| LStopped.

Record SingleThreadTaskRunner := MkRunner {
  workQueue : list T;
  queuePolicy : QueuePolicy;
  rejectionCallback : bool;            (** set *)
  rejectedCount : Z;
  executingCount : Z;
  cancelled : bool;                    (** [r.ctx.Done()] is closed *)
  stopped : bool;                      (** the channel is closed *)
  once : Once;
  closed : bool;
  shutdownChan : bool;                 (** closed *)
  shutdownOnce : Once;
  loop : LoopPc;
  calls : list Call;
  timers : list (T * TaskTraits);      (** armed by [time.AfterFunc] *)
  callbacks : list (T * TaskTraits);   (** history: rejection callbacks started *)
  rejected : list T;                   (** history *)
  enqueued : list T;                   (** history *)
  log : list (Event T);                (** history *)
}.

Definition NewSingleThreadTaskRunner : SingleThreadTaskRunner :=
  MkRunner [] QueuePolicyDrop false 0 0 false false OnceNew false false OnceNew
    LSelect [] [] [] [] [] [].

Definition set_work q r := MkRunner q (queuePolicy r) (rejectionCallback r) (rejectedCount r)
  (executingCount r) (cancelled r) (stopped r) (once r) (closed r) (shutdownChan r) (shutdownOnce r)
  (loop r) (calls r) (timers r) (callbacks r) (rejected r) (enqueued r) (log r).
Definition set_policy p r := MkRunner (workQueue r) p (rejectionCallback r) (rejectedCount r)
  (executingCount r) (cancelled r) (stopped r) (once r) (closed r) (shutdownChan r) (shutdownOnce r)
  (loop r) (calls r) (timers r) (callbacks r) (rejected r) (enqueued r) (log r).
Definition set_callback b r := MkRunner (workQueue r) (queuePolicy r) b (rejectedCount r)
  (executingCount r) (cancelled r) (stopped r) (once r) (closed r) (shutdownChan r) (shutdownOnce r)
  (loop r) (calls r) (timers r) (callbacks r) (rejected r) (enqueued r) (log r).
Definition add_rejected t r := MkRunner (workQueue r) (queuePolicy r) (rejectionCallback r)
  (wrap_int64 (rejectedCount r + 1)) (executingCount r) (cancelled r) (stopped r) (once r) (closed r)
  (shutdownChan r) (shutdownOnce r) (loop r) (calls r) (timers r) (callbacks r)
  (rejected r ++ [t]) (enqueued r) (log r).
Definition set_executing n r := MkRunner (workQueue r) (queuePolicy r) (rejectionCallback r)
  (rejectedCount r) n (cancelled r) (stopped r) (once r) (closed r) (shutdownChan r) (shutdownOnce r)
  (loop r) (calls r) (timers r) (callbacks r) (rejected r) (enqueued r) (log r).
Definition set_cancelled r := MkRunner (workQueue r) (queuePolicy r) (rejectionCallback r)
  (rejectedCount r) (executingCount r) true (stopped r) (once r) (closed r) (shutdownChan r)
  (shutdownOnce r) (loop r) (calls r) (timers r) (callbacks r) (rejected r) (enqueued r) (log r).
Definition set_stopped r := MkRunner (workQueue r) (queuePolicy r) (rejectionCallback r)
  (rejectedCount r) (executingCount r) (cancelled r) true (once r) (closed r) (shutdownChan r)
  (shutdownOnce r) (loop r) (calls r) (timers r) (callbacks r) (rejected r) (enqueued r) (log r).
Definition set_once o r := MkRunner (workQueue r) (queuePolicy r) (rejectionCallback r)
  (rejectedCount r) (executingCount r) (cancelled r) (stopped r) o (closed r) (shutdownChan r)
  (shutdownOnce r) (loop r) (calls r) (timers r) (callbacks r) (rejected r) (enqueued r) (log r).
Definition set_closed r := MkRunner (workQueue r) (queuePolicy r) (rejectionCallback r)
  (rejectedCount r) (executingCount r) (cancelled r) (stopped r) (once r) true (shutdownChan r)
  (shutdownOnce r) (loop r) (calls r) (timers r) (callbacks r) (rejected r) (enqueued r) (log r).
Definition set_chan r := MkRunner (workQueue r) (queuePolicy r) (rejectionCallback r)
  (rejectedCount r) (executingCount r) (cancelled r) (stopped r) (once r) (closed r) true
  (shutdownOnce r) (loop r) (calls r) (timers r) (callbacks r) (rejected r) (enqueued r) (log r).
Definition set_shut_once o r := MkRunner (workQueue r) (queuePolicy r) (rejectionCallback r)
  (rejectedCount r) (executingCount r) (cancelled r) (stopped r) (once r) (closed r) (shutdownChan r)
  o (loop r) (calls r) (timers r) (callbacks r) (rejected r) (enqueued r) (log r).
Definition set_loop l r := MkRunner (workQueue r) (queuePolicy r) (rejectionCallback r)
  (rejectedCount r) (executingCount r) (cancelled r) (stopped r) (once r) (closed r) (shutdownChan r)
  (shutdownOnce r) l (calls r) (timers r) (callbacks r) (rejected r) (enqueued r) (log r).
Definition set_calls c r := MkRunner (workQueue r) (queuePolicy r) (rejectionCallback r)
  (rejectedCount r) (executingCount r) (cancelled r) (stopped r) (once r) (closed r) (shutdownChan r)
  (shutdownOnce r) (loop r) c (timers r) (callbacks r) (rejected r) (enqueued r) (log r).
Definition set_timers t r := MkRunner (workQueue r) (queuePolicy r) (rejectionCallback r)
  (rejectedCount r) (executingCount r) (cancelled r) (stopped r) (once r) (closed r) (shutdownChan r)
  (shutdownOnce r) (loop r) (calls r) t (callbacks r) (rejected r) (enqueued r) (log r).
Definition add_callback c r := MkRunner (workQueue r) (queuePolicy r) (rejectionCallback r)
  (rejectedCount r) (executingCount r) (cancelled r) (stopped r) (once r) (closed r) (shutdownChan r)
  (shutdownOnce r) (loop r) (calls r) (timers r) (callbacks r ++ [c]) (rejected r) (enqueued r) (log r).
Definition add_enqueued t r := MkRunner (workQueue r) (queuePolicy r) (rejectionCallback r)
  (rejectedCount r) (executingCount r) (cancelled r) (stopped r) (once r) (closed r) (shutdownChan r)
  (shutdownOnce r) (loop r) (calls r) (timers r) (callbacks r) (rejected r) (enqueued r ++ [t]) (log r).
Definition add_log e r := MkRunner (workQueue r) (queuePolicy r) (rejectionCallback r)
  (rejectedCount r) (executingCount r) (cancelled r) (stopped r) (once r) (closed r) (shutdownChan r)
  (shutdownOnce r) (loop r) (calls r) (timers r) (callbacks r) (rejected r) (enqueued r) (log r ++ [e]).

Definition GetQueuePolicy (r : SingleThreadTaskRunner) : QueuePolicy := queuePolicy r.
Definition PendingTaskCount (r : SingleThreadTaskRunner) : nat := length (workQueue r).
Definition RunningTaskCount (r : SingleThreadTaskRunner) : Z := executingCount r.
Definition RejectedCount (r : SingleThreadTaskRunner) : Z := rejectedCount r.
Definition IsClosed (r : SingleThreadTaskRunner) : bool := closed r.

(** After [enqueueTask] returns. *)
Definition enqueue_return (w : bool) (t : T) : Call := if w then TWait t else RDone None.

(** The [switch] of [enqueueTask] and its [select].  The choice picks between
    the cases that are ready: [true] sends, [false] is the context (or the
    default).  Another value of the policy matches no case of the [switch]. *)
Definition send_step (choice : bool) (t : T) (traits : TaskTraits) (w : bool)
    (policy : QueuePolicy) (callback : bool) (r : SingleThreadTaskRunner)
  : option (Call * SingleThreadTaskRunner) :=
  let room := bool_decide (length (workQueue r) < queue_cap) in
  let send := Some (enqueue_return w t, add_enqueued t (set_work (workQueue r ++ [t]) r)) in
  let done := Some (enqueue_return w t, r) in
  match policy with
  | QueuePolicyDrop | QueuePolicyWait =>
      if choice then (if room then send else None)
      else (if cancelled r then done else None)
  | QueuePolicyReject =>
      if choice then (if room then send else None)
      else if cancelled r then done
      else if room then None
      else Some (EReject t traits w callback, r)
  | QueuePolicyOther _ => done
  end.

(** [enqueueTask]. *)
Definition enqueueTask_step (choice : bool) (c : Call) (r : SingleThreadTaskRunner)
  : option (Call * SingleThreadTaskRunner) :=
  match c with
  | EClosed t traits w => Some (if closed r then enqueue_return w t else EPolicy t traits w, r)
  | EPolicy t traits w => Some (ESend t traits w (queuePolicy r) (rejectionCallback r), r)
  | ESend t traits w policy callback => send_step choice t traits w policy callback r
  | EReject t traits w callback => Some (ECallback t traits w callback, add_rejected t r)
  | ECallback t traits w callback =>
      Some (enqueue_return w t, if callback then add_callback (t, traits) r else r)
  | _ => None
  end.

(** [PostDelayedTaskWithTraits], and the function of its timer. *)
Definition PostDelayed_step (choice : bool) (c : Call) (r : SingleThreadTaskRunner)
  : option (Call * SingleThreadTaskRunner) :=
  match c with
  | DClosed t traits => Some (if closed r then RDone None else DSelect t traits, r)
  | DSelect t traits =>
      Some (RDone None, if cancelled r then r else set_timers (timers r ++ [(t, traits)]) r)
  | DFire t traits => Some (if closed r then RDone None else EClosed t traits false, r)
  | _ => None
  end.

(** [Shutdown]. *)
Definition Shutdown_step (choice : bool) (c : Call) (r : SingleThreadTaskRunner)
  : option (Call * SingleThreadTaskRunner) :=
  match c with
  | SOnce =>
      match shutdownOnce r with
      | OnceNew => Some (SClosed, set_shut_once OnceRunning r)
      | OnceRunning => None
      | OnceDone => Some (RDone None, r)
      end
  | SClosed => Some (SChan, set_closed r)
  | SChan =>
      Some (if shutdownChan r then (RPanicked, r)
            else (RDone None, set_shut_once OnceDone (set_chan r)))
  | _ => None
  end.

(** [Stop]. *)
Definition Stop_step (choice : bool) (c : Call) (r : SingleThreadTaskRunner)
  : option (Call * SingleThreadTaskRunner) :=
  match c with
  | KOnce =>
      match once r with
      | OnceNew => Some (KClosed, set_once OnceRunning r)
      | OnceRunning => None
      | OnceDone => Some (RStopped, r)
      end
  | KClosed => Some (KShutOnce, set_closed r)
  | KShutOnce =>
      match shutdownOnce r with
      | OnceNew => Some (KChan, set_shut_once OnceRunning r)
      | OnceRunning => None
      | OnceDone => Some (KCancel, r)
      end
  | KChan =>
      Some (if shutdownChan r then (RPanicked, r)
            else (KCancel, set_shut_once OnceDone (set_chan r)))
  | KCancel => Some (KWait, set_cancelled r)
  | KWait => if stopped r then Some (RStopped, set_once OnceDone r) else None
  | _ => None
  end.

(** [WaitIdle]; the choice is the event ([true]) or the caller's context.  The
    barrier closes its channel as soon as it starts. *)
Definition WaitIdle_step (choice : bool) (c : Call) (r : SingleThreadTaskRunner)
  : option (Call * SingleThreadTaskRunner) :=
  match c with
  | WClosed t => Some (if closed r then RErr else EClosed t DefaultTaskTraits true, r)
  | TWait t =>
      if choice then (if decide (EStart t ∈ log r) then Some (RDone (Some t), r) else None)
      else Some (RErr, r)
  | _ => None
  end.

(** [WaitShutdown], likewise. *)
Definition WaitShutdown_step (choice : bool) (c : Call) (r : SingleThreadTaskRunner)
  : option (Call * SingleThreadTaskRunner) :=
  match c with
  | WShut =>
      if choice then (if shutdownChan r then Some (RDone None, r) else None)
      else Some (RErr, r)
  | _ => None
  end.

(** Every method but the loop.  The choice also resolves the waits: the event
    ([true]) or the caller's context ([false]). *)
Definition call_step (choice : bool) (c : Call) (r : SingleThreadTaskRunner)
  : option (Call * SingleThreadTaskRunner) :=
  match c with
  | EClosed _ _ _ | EPolicy _ _ _ | ESend _ _ _ _ _ | EReject _ _ _ _ | ECallback _ _ _ _ =>
      enqueueTask_step choice c r
  | DClosed _ _ | DSelect _ _ | DFire _ _ => PostDelayed_step choice c r
  | SOnce | SClosed | SChan => Shutdown_step choice c r
  | KOnce | KClosed | KShutOnce | KChan | KCancel | KWait => Stop_step choice c r
  | WClosed _ | TWait _ => WaitIdle_step choice c r
  | WShut => WaitShutdown_step choice c r
  | RDone _ | RErr | RStopped | RPanicked => None
  end.

Definition entry (c : Call) : bool :=
  match c with
  | WClosed _ | EClosed _ _ false | DClosed _ _ | SOnce | KOnce | WShut => true
  | _ => false
  end.
Definition returned (c : Call) : bool :=
  match c with RDone _ | RErr | RStopped => true | _ => false end.

(** [runLoop]; [call]: the method the task calls next, if any; the choice is
    the [select] (task, or context) and whether the task returns or panics. *)
Definition loop_step (choice : bool) (call : option Call) (r : SingleThreadTaskRunner)
  : option SingleThreadTaskRunner :=
  match loop r with
  | LSelect =>
      if choice then
        match workQueue r with
        | [] => None
        | t :: q => Some (add_log (EStart t) (set_loop (LAdd t) (set_work q r)))
        end
      else if cancelled r then Some (set_loop LClose r) else None
  | LAdd t => Some (set_loop (LBody t) (set_executing (wrap_int32 (executingCount r + 1)) r))
  | LBody t =>
      match call with
      | Some c => if entry c then Some (set_loop (LCalling t c) r) else None
      | None => Some (add_log (EEnd t) (set_loop (LSub t (negb choice)) r))
      end
  | LCalling t c =>
      if returned c then Some (set_loop (LBody t) r)
      else '(c, r) ← call_step choice c r; Some (set_loop (LCalling t c) r)
  | LSub t panicked =>
      Some (set_loop (if panicked then LReport t else LSelect)
              (set_executing (wrap_int32 (executingCount r - 1)) r))
  | LReport t => Some (set_loop LSelect r)
  | LClose => Some (set_loop LStopped (set_stopped r))
  | LStopped => None
  end.

Inductive Label :=
| LCall (c : Call)
| LStep (i : nat) (choice : bool)
| LLoop (choice : bool) (call : option Call)
| LTimer (k : nat)                    (** the function of an armed timer starts *)
| LSetPolicy (p : QueuePolicy)
| LSetCallback (b : bool).

Definition step (l : Label) (r : SingleThreadTaskRunner) : option SingleThreadTaskRunner :=
  match l with
  | LCall c => if entry c then Some (set_calls (calls r ++ [c]) r) else None
  | LStep i choice =>
      c ← calls r !! i;
      '(c, r) ← call_step choice c r;
      Some (set_calls (<[i:=c]> (calls r)) r)
  | LLoop choice call => loop_step choice call r
  | LTimer k =>
      '(t, traits) ← timers r !! k;
      Some (set_calls (calls r ++ [DFire t traits]) (set_timers (delete k (timers r)) r))
  | LSetPolicy p => Some (set_policy p r)
  | LSetCallback b => Some (set_callback b r)
  end.
End single_thread.
Arguments SingleThreadTaskRunner T : clear implicits.
Arguments Call T : clear implicits.
Arguments LoopPc T : clear implicits.
Arguments Label T : clear implicits.

(** ** Invariants *)

Section st_lemmas.
Context {T : Type} `{EqDecision T}.
Implicit Types r : SingleThreadTaskRunner T.
Notation step := (step (T:=T)).
Notation reach r := (reachable step NewSingleThreadTaskRunner r).

(** The task the loop is executing. *)
Definition current (l : LoopPc T) : list T :=
  match l with LAdd t | LBody t | LCalling t _ => [t] | _ => [] end.
(** From [executingCount.Add(1)], before the body, to [executingCount.Add(-1)],
    in the deferred function after it. *)
Definition counted (l : LoopPc T) : bool :=
  match l with LBody _ | LCalling _ _ | LSub _ _ => true | _ => false end.

(** Inside the function of a [sync.Once]. *)
Definition w_shut (c : Call T) : Z := match c with SClosed | SChan | KChan => 1 | _ => 0 end.
Definition w_stop (c : Call T) : Z :=
  match c with KClosed | KShutOnce | KChan | KCancel | KWait => 1 | _ => 0 end.
Definition w_bad (c : Call T) : Z := match c with RPanicked => 1 | _ => 0 end.
Definition w_stopped (c : Call T) : Z := match c with RStopped => 1 | _ => 0 end.
Definition in_loop (w : Call T → Z) (l : LoopPc T) : Z :=
  match l with LCalling _ c => w c | _ => 0 end.
Definition count (w : Call T → Z) r : Z := (total w (calls r) + in_loop w (loop r))%Z.
Definition run1 (o : Once) : Z := match o with OnceRunning => 1 | _ => 0 end.

(** What a method's step can change. *)
Lemma call_step_frame choice c r c' r' :
  call_step choice c r = Some (c', r') →
  loop r' = loop r ∧ calls r' = calls r ∧ log r' = log r ∧
  executingCount r' = executingCount r ∧ stopped r' = stopped r.
Proof.
  intros E. destruct c; simpl in E; unfold send_step in E; repeat case_match; simplify_eq/=; done.
Qed.

Lemma call_step_queue choice c r c' r' :
  call_step choice c r = Some (c', r') →
  (workQueue r' = workQueue r ∧ enqueued r' = enqueued r) ∨
  (∃ t, workQueue r' = workQueue r ++ [t] ∧ enqueued r' = enqueued r ++ [t] ∧
        length (workQueue r) < queue_cap).
Proof.
  intros E. destruct c; simpl in E; unfold send_step in E; repeat case_match; simplify_eq/=;
    try (by left); right; eexists; (split; [done|]); (split; [done|]);
    by eapply bool_decide_eq_true.
Qed.

Lemma call_step_rejected choice c r c' r' :
  call_step choice c r = Some (c', r') →
  (rejectedCount r' = rejectedCount r ∧ rejected r' = rejected r) ∨
  (∃ t, rejectedCount r' = wrap_int64 (rejectedCount r + 1) ∧ rejected r' = rejected r ++ [t]).
Proof.
  intros E. destruct c; simpl in E; unfold send_step in E; repeat case_match; simplify_eq/=;
    eauto.
Qed.

(** The two [sync.Once]: who runs their function, and what is done after. *)
Record once_ok r : Prop := {
  oo_shut : count w_shut r = run1 (shutdownOnce r);
  oo_chan : shutdownChan r = true ↔ shutdownOnce r = OnceDone;
  oo_stop : count w_stop r = run1 (once r);
  oo_bad : count w_bad r = 0%Z;
  oo_stopped : (0 < count w_stopped r)%Z → once r = OnceDone;
  oo_done : once r = OnceDone → stopped r = true;
  oo_loop : stopped r = true ↔ loop r = LStopped;
}.

(** A step of the method at [c] keeps the balance, wherever it is called. *)
Lemma call_step_once choice c r c' r' :
  once_ok r → call_step choice c r = Some (c', r') →
  (w_shut c <= count w_shut r → w_stop c <= count w_stop r → w_bad c <= count w_bad r →
   count w_shut r - w_shut c + w_shut c' = run1 (shutdownOnce r') ∧
   (shutdownChan r' = true ↔ shutdownOnce r' = OnceDone) ∧
   count w_stop r - w_stop c + w_stop c' = run1 (once r') ∧
   count w_bad r - w_bad c + w_bad c' = 0 ∧
   w_stopped c = 0 ∧ (0 < w_stopped c' → once r' = OnceDone) ∧
   (once r' = OnceDone → stopped r' = true) ∧ (once r = OnceDone → once r' = OnceDone))%Z.
Proof.
  intros [Hsh Hch Hst Hb Hs Hd _] E.
  assert (A1 : (1 <= count w_shut r)%Z → shutdownOnce r = OnceRunning)
    by (rewrite Hsh; destruct (shutdownOnce r); simpl; done || lia).
  assert (A2 : (1 <= count w_stop r)%Z → once r = OnceRunning)
    by (rewrite Hst; destruct (once r); simpl; done || lia).
  destruct c; simpl in E; unfold send_step in E; repeat case_match; simplify_eq/=;
    unfold enqueue_return in *; repeat case_match; simplify_eq/=; intros ? ? ?;
    try (split_and!; [lia|done|lia|lia|done|lia|done|done]);
    repeat match goal with H : shutdownOnce _ = _ |- _ => rewrite H in * end;
    repeat match goal with H : once _ = _ |- _ => rewrite H in * end;
    try (rewrite (A1 ltac:(lia)) in * ); try (rewrite (A2 ltac:(lia)) in * ); simpl in *;
    split_and!; try lia; try done; try (intros; congruence); try (intros; lia);
    intuition congruence.
Qed.

Definition same_flags r r' : Prop :=
  shutdownOnce r' = shutdownOnce r ∧ shutdownChan r' = shutdownChan r ∧
  once r' = once r ∧ stopped r' = stopped r.

Lemma once_ok_moved choice r c c' r1 r' :
  once_ok r → call_step choice c r = Some (c', r1) →
  (∀ w, (∀ x, 0 <= w x)%Z → (w c <= count w r)%Z) →
  (∀ w, count w r' = (count w r - w c + w c')%Z) →
  same_flags r1 r' → (stopped r' = true ↔ loop r' = LStopped) → once_ok r'.
Proof.
  intros Hok Ec Hle Hcount (F1 & F2 & F3 & F4) Hl.
  destruct (call_step_once _ _ _ _ _ Hok Ec) as (H1 & H2 & H3 & H4 & H5 & H6 & H7 & H8);
    [apply Hle; by intros []..|].
  split; rewrite ?Hcount, ?F1, ?F2, ?F3, ?F4; try done.
  - intros Hpos. destruct (Z.lt_ge_cases 0 (w_stopped c')) as [?|?]; [by apply H6|].
    apply H8, (oo_stopped _ Hok). lia.
  - by rewrite <- F4.
Qed.

(** Steps that touch neither of the two [sync.Once]. *)
Lemma once_ok_same r r' :
  once_ok r →
  count w_shut r' = count w_shut r ∧ count w_stop r' = count w_stop r ∧
  count w_bad r' = count w_bad r ∧ (count w_stopped r' <= count w_stopped r)%Z →
  same_flags r r' → (stopped r' = true ↔ loop r' = LStopped) → once_ok r'.
Proof.
  intros [Hsh Hch Hst Hb Hs Hd Hl] (C1 & C2 & C3 & C4) (F1 & F2 & F3 & F4) Hl'.
  split; rewrite ?C1, ?C2, ?C3, ?F1, ?F2, ?F3, ?F4 by done; try done.
  - intros. apply Hs. lia.
  - by rewrite <- F4.
Qed.

Lemma once_step l r r' : once_ok r → step l r = Some r' → once_ok r'.
Proof.
  intros Hok E. pose proof (oo_loop _ Hok) as Hl.
  destruct l as [c|i choice|choice call|k|p|b]; simpl in E.
  - destruct (entry c) eqn:Hc; [|done]. simplify_eq.
    apply (once_ok_same r); [done| |done|done].
    unfold count; simpl; rewrite !total_snoc. destruct c; try discriminate Hc; simpl; lia.
  - destruct (calls r !! i) as [c|] eqn:Hi; [|done]. simpl in E.
    destruct (call_step choice c r) as [[c' r1]|] eqn:Ec; [|done]. simplify_eq/=.
    destruct (call_step_frame _ _ _ _ _ Ec) as (El & Ecs & _ & _ & Est).
    eapply once_ok_moved; [done|done| | |done|by simpl; rewrite Est, El].
    + intros w Hw. unfold count. pose proof (total_lookup_le w _ _ _ Hw Hi).
      destruct (loop r); simpl; try lia. pose proof (Hw c0). lia.
    + intros w. unfold count. simpl. rewrite El, Ecs, (total_insert w _ _ _ _ Hi). lia.
  - unfold loop_step in E. destruct (loop r) as [|t|t|t c|t pn|t| |] eqn:Eloop.
    4:{ destruct (returned c) eqn:Hret; simplify_eq/=.
        - apply (once_ok_same r); [done| |done|simpl; by rewrite Hl].
          unfold count. simpl. rewrite Eloop. destruct c; try discriminate Hret; simpl; lia.
        - destruct (call_step choice c r) as [[c' r1]|] eqn:Ec; [|done]. simplify_eq/=.
          destruct (call_step_frame _ _ _ _ _ Ec) as (El & Ecs & _ & _ & Est).
          eapply once_ok_moved; [done|done| | |done|simpl; by rewrite Est, Hl].
          + intros w Hw. unfold count. rewrite Eloop. simpl.
            pose proof (total_nonneg w (calls r) Hw). lia.
          + intros w. unfold count. simpl. rewrite Ecs, Eloop. simpl. lia. }
    6:{ simplify_eq. destruct Hok as [Hsh Hch Hst Hb Hs Hd _].
        split; unfold count in *; rewrite Eloop in *; simpl in *; done. }
    3:{ destruct call as [c|]; [destruct (entry c) eqn:Hc; [|done]|]; simplify_eq;
        apply (once_ok_same r); try done; unfold count; simpl; rewrite ?Eloop; simpl; try lia; try by rewrite Hl.
        destruct c; try discriminate Hc; simpl; lia. }
    3:{ simplify_eq. apply (once_ok_same r); try done; unfold count; simpl; rewrite ?Eloop;
        destruct pn; simpl; try lia; by rewrite Hl. }
    all: inv_step E; try done; apply (once_ok_same r); try done;
      unfold count; simpl; rewrite ?Eloop; simpl; try lia; by rewrite Hl.
  - destruct (timers r !! k) as [[t tr]|]; [|done]. simplify_eq/=.
    apply (once_ok_same r); try done. unfold count; simpl; rewrite !total_snoc; simpl; lia.
  - simplify_eq. by apply (once_ok_same r).
  - simplify_eq. by apply (once_ok_same r).
Qed.

Lemma once_reach r : reach r → once_ok r.
Proof.
  apply (reachable_invariant step once_ok).
  - by split.
  - intros; eauto using once_step.
Qed.

(** *** The queue, the loop and the counters *)

Record work_ok r : Prop := {
  wo_cap : length (workQueue r) ≤ queue_cap;
  wo_fifo : ∃ fin, enqueued r = fin ++ current (loop r) ++ workQueue r ∧
                   log r = brackets fin ++ (EStart <$> current (loop r));
  wo_exec : executingCount r = b2z (counted (loop r));
  wo_rej : rejectedCount r = wrap_int64 (Z.of_nat (length (rejected r)));
}.

Lemma wrap_int64_succ n :
  wrap_int64 (wrap_int64 (Z.of_nat n) + 1) = wrap_int64 (Z.of_nat (n + 1)).
Proof.
  unfold wrap_int64. f_equal.
  replace ((Z.of_nat n + 2 ^ 63) `mod` 2 ^ 64 - 2 ^ 63 + 1 + 2 ^ 63)%Z
    with ((Z.of_nat n + 2 ^ 63) `mod` 2 ^ 64 + 1)%Z by lia.
  rewrite Zplus_mod_idemp_l. f_equal. lia.
Qed.

(** A method's step, called by another goroutine or by the running task. *)
Lemma call_step_work choice c r c' r1 l' :
  work_ok r → call_step choice c r = Some (c', r1) →
  current l' = current (loop r) → counted l' = counted (loop r) →
  ∀ cs, work_ok (set_calls cs (set_loop l' r1)).
Proof.
  intros [Hcap (fin & Hf & Hlog) Hex Hrej] Ec El Ec' cs.
  destruct (call_step_frame _ _ _ _ _ Ec) as (_ & _ & Elog & Eex & _).
  split; simpl.
  - destruct (call_step_queue _ _ _ _ _ Ec) as [[-> _]|(t & -> & _ & ?)]; [done|].
    rewrite length_app. simpl. lia.
  - exists fin. rewrite Elog, El. split; [|done].
    destruct (call_step_queue _ _ _ _ _ Ec) as [[-> ->]|(t & -> & -> & ?)]; [done|].
    by rewrite Hf, <- !app_assoc.
  - by rewrite Eex, Ec'.
  - destruct (call_step_rejected _ _ _ _ _ Ec) as [[-> ->]|(t & -> & ->)]; [done|].
    by rewrite Hrej, wrap_int64_succ, length_app.
Qed.

Lemma set_loop_same r : set_loop (loop r) r = r.
Proof. by destruct r. Qed.
Lemma set_calls_same r : set_calls (calls r) r = r.
Proof. by destruct r. Qed.

Lemma work_step l r r' : work_ok r → step l r = Some r' → work_ok r'.
Proof.
  intros Hok E. destruct l as [c|i choice|choice call|k|p|b]; simpl in E.
  - destruct (entry c); [|done]. simplify_eq. by destruct Hok.
  - destruct (calls r !! i) as [c|] eqn:Hi; [|done]. simpl in E.
    destruct (call_step choice c r) as [[c' r1]|] eqn:Ec; [|done]. simplify_eq/=.
    destruct (call_step_frame _ _ _ _ _ Ec) as (El & _).
    pose proof (call_step_work _ _ _ _ _ (loop r) Hok Ec eq_refl eq_refl) as Hw.
    rewrite <- El, set_loop_same in Hw. apply Hw.
  - unfold loop_step in E. destruct (loop r) as [|t|t|t c|t pn|t| |] eqn:Eloop.
    4:{ destruct (returned c); simplify_eq/=.
        - destruct Hok as [? ? ? ?]. rewrite Eloop in *. by split.
        - destruct (call_step choice c r) as [[c' r1]|] eqn:Ec; [|done]. simplify_eq/=.
          destruct (call_step_frame _ _ _ _ _ Ec) as (_ & Ecs & _).
          rewrite <- (set_calls_same (set_loop _ r1)).
          eapply call_step_work; [done|done|by rewrite Eloop..]. }
    all: destruct Hok as [Hcap (fin & Hf & Hl) Hex Hrej]; rewrite Eloop in *; simpl in *;
      inv_step E; split; simpl; rewrite ?Hex; try done; try (by exists fin).
    + lia.
    + exists fin. rewrite Hl, app_nil_r. by split.
    + exists (fin ++ [t]). rewrite Hf, Hl, brackets_app, app_nil_r, <- !app_assoc. by split.
    + exists fin. by destruct pn.
    + by destruct pn.
  - destruct (timers r !! k) as [[t tr]|]; [|done]. simplify_eq/=. by destruct Hok.
  - simplify_eq. by destruct Hok.
  - simplify_eq. by destruct Hok.
Qed.

Lemma work_reach r : reach r → work_ok r.
Proof.
  apply (reachable_invariant step work_ok).
  - split; try done; [simpl; lia|by exists []].
  - intros; eauto using work_step.
Qed.

(** *** The loop stops for good *)

Lemma stopped_step l r r' :
  loop r = LStopped → step l r = Some r' → loop r' = LStopped ∧ log r' = log r.
Proof.
  intros Hl E. destruct l as [c|i choice|choice call|k|p|b]; simpl in E.
  - by destruct (entry c); simplify_eq/=.
  - destruct (calls r !! i) as [c|]; [|done]. simpl in E.
    destruct (call_step choice c r) as [[c' r1]|] eqn:Ec; [|done]. simplify_eq/=.
    destruct (call_step_frame _ _ _ _ _ Ec) as (-> & _ & -> & _). done.
  - unfold loop_step in E. by rewrite Hl in E.
  - by destruct (timers r !! k) as [[]|]; simplify_eq/=.
  - by simplify_eq.
  - by simplify_eq.
Qed.

(** *** The loop waits for itself *)

Lemma cancelled_mono_step l r r' : step l r = Some r' → cancelled r' = false → cancelled r = false.
Proof.
  assert (Hcall : ∀ choice c c' r1 r2, call_step choice c r1 = Some (c', r2) →
                  cancelled r2 = false → cancelled r1 = false).
  { intros choice c c' r1 r2 E Hc. destruct c; simpl in E; unfold send_step in E;
      repeat case_match; simplify_eq/=; congruence. }
  intros E Hc. destruct l as [c|i choice|choice call|k|p|b]; simpl in E.
  - by destruct (entry c); simplify_eq/=.
  - destruct (calls r !! i) as [c|]; [|done]. simpl in E.
    destruct (call_step choice c r) as [[c' r1]|] eqn:Ec; [|done]. simplify_eq/=. eauto.
  - unfold loop_step in E. destruct (loop r) as [|t|t|t c|t pn|t| |].
    4:{ destruct (returned c); [by simplify_eq/=|].
    destruct (call_step choice c r) as [[c' r1]|] eqn:Ec; [|done]. simplify_eq/=. eauto. }
    all: inv_step E; simpl in *; congruence.
  - by destruct (timers r !! k) as [[]|]; simplify_eq/=.
  - by simplify_eq.
  - by simplify_eq.
Qed.

(** Steps of the other goroutines while the loop is stuck in a method. *)
Lemma stuck_step l r r' t c :
  loop r = LCalling t c → (∀ choice, call_step choice c r = None) → returned c = false →
  step l r = Some r' →
  loop r' = LCalling t c ∧ stopped r' = stopped r ∧
  (length (workQueue r) = queue_cap → workQueue r' = workQueue r).
Proof.
  intros Hl Hst Hret E. destruct l as [c'|i choice|choice call|k|p|b]; simpl in E.
  - by destruct (entry c'); simplify_eq/=.
  - destruct (calls r !! i) as [c1|]; [|done]. simpl in E.
    destruct (call_step choice c1 r) as [[c' r1]|] eqn:Ec; [|done]. simplify_eq/=.
    destruct (call_step_frame _ _ _ _ _ Ec) as (-> & _ & _ & _ & ->). split; [done|].
    split; [done|]. intros Hlen.
    destruct (call_step_queue _ _ _ _ _ Ec) as [[-> _]|(? & _ & _ & ?)]; [done|lia].
  - unfold loop_step in E. rewrite Hl, Hret in E. by rewrite Hst in E.
  - by destruct (timers r !! k) as [[]|]; simplify_eq/=.
  - by simplify_eq.
  - by simplify_eq.
Qed.

(** *** Serving the queue *)

Notation serve n := (replicate n (LLoop true None)).

Lemma serve_one r t q :
  loop r = LSelect → workQueue r = t :: q →
  ∃ r', run step (serve 4) r = Some r' ∧
        loop r' = LSelect ∧ workQueue r' = q ∧ enqueued r' = enqueued r.
Proof.
  intros Hl Hq. simpl. unfold loop_step. rewrite Hl, Hq. simpl. eauto.
Qed.

Lemma finish_current r :
  match loop r with LAdd _ | LBody _ | LSub _ _ | LReport _ | LSelect => True | _ => False end →
  ∃ n r', run step (serve n) r = Some r' ∧
          loop r' = LSelect ∧ workQueue r' = workQueue r ∧ enqueued r' = enqueued r.
Proof.
  intros Hl. destruct (loop r) as [|t|t|t c|t [|]|t| |] eqn:El; try done.
  - by exists 0, r.
  - exists 3. simpl. unfold loop_step. rewrite El. simpl. eauto.
  - exists 2. simpl. unfold loop_step. rewrite El. simpl. eauto.
  - exists 2. simpl. unfold loop_step. rewrite El. simpl. eauto.
  - exists 1. simpl. unfold loop_step. rewrite El. simpl. eauto.
  - exists 1. simpl. unfold loop_step. rewrite El. simpl. eauto.
Qed.

Lemma serve_all r :
  loop r = LSelect →
  ∃ n r', run step (serve n) r = Some r' ∧
          loop r' = LSelect ∧ workQueue r' = [] ∧ enqueued r' = enqueued r.
Proof.
  remember (workQueue r) as q eqn:Hq. revert r Hq.
  induction q as [|t q IH]; intros r Hq Hl; [by exists 0, r|].
  destruct (serve_one r t q Hl (eq_sym Hq)) as (r1 & E1 & Hl1 & Hq1 & He1).
  destruct (IH r1 (eq_sym Hq1) Hl1) as (n & r2 & E2 & Hl2 & Hq2 & He2).
  exists (4 + n), r2. rewrite replicate_add, run_app, E1. simpl.
  by rewrite E2, Hl2, Hq2, He2, He1.
Qed.
End st_lemmas.

(** ** Theorems *)

Section st_theorems.
Context {T : Type} `{EqDecision T}.
Implicit Types r : SingleThreadTaskRunner T.
Notation step := (step (T:=T)).
Notation reach r := (reachable step NewSingleThreadTaskRunner r).

(** C25. A SingleThreadTaskRunner never holds more than 100 tasks and executes the enqueued
    tasks one at a time in order; its running count is 1 from the increment before a body
    until the decrement in the deferred function after it, and 0 otherwise, and its rejected
    count is the number of rejections (at 64-bit width). *)
Theorem st_sequential r :
  reach r →
  PendingTaskCount r ≤ queue_cap ∧
  RunningTaskCount r = b2z (counted (loop r)) ∧
  RejectedCount r = wrap_int64 (Z.of_nat (length (rejected r))) ∧
  ∃ fin, enqueued r = fin ++ current (loop r) ++ workQueue r ∧
         log r = brackets fin ++ (EStart <$> current (loop r)).
Proof. intros Hr. by destruct (work_reach r Hr). Qed.

(** The loop of a SingleThreadTaskRunner that is not inside a call of its own task and
    has not been stopped executes every enqueued task, in order, when it runs. *)
Theorem st_loop_drains r :
  reach r →
  match loop r with LCalling _ _ | LClose | LStopped => False | _ => True end →
  ∃ n r', run step (replicate n (LLoop true None)) r = Some r' ∧
          loop r' = LSelect ∧ workQueue r' = [] ∧ log r' = brackets (enqueued r).
Proof.
  intros Hr Hl.
  destruct (finish_current r) as (n & r1 & E1 & Hl1 & Hq1 & He1); [by destruct (loop r)|].
  destruct (serve_all r1 Hl1) as (m & r2 & E2 & Hl2 & Hq2 & He2).
  assert (run step (replicate (n + m) (LLoop true None)) r = Some r2) as E.
  { rewrite replicate_add, run_app, E1. done. }
  exists (n + m), r2. repeat split; [done..|].
  destruct (work_reach r2) as [_ (fin & Hf & Hlog) _ _].
  { eapply reachable_trans; [done|]. by eapply run_reachable. }
  rewrite Hl2, Hq2 in *. simpl in *. by rewrite Hlog, <- He1, <- He2, Hf, !app_nil_r.
Qed.

(** When Stop of a SingleThreadTaskRunner has returned, the loop has ended and no task
    starts or ends afterwards. *)
Theorem st_stop_returns r r' :
  reach r → RStopped ∈ calls r → reachable step r r' → loop r' = LStopped ∧ log r' = log r.
Proof.
  intros Hr Hin Hr'.
  assert (loop r = LStopped) as Hl.
  { destruct (once_reach r Hr) as [_ _ _ _ Hs Hd Hl]. apply Hl, Hd, Hs.
    apply list_elem_of_lookup in Hin as [i Hi]. unfold count.
    pose proof (total_lookup_le w_stopped _ _ _ ltac:(by intros []) Hi) as Hle. simpl in Hle.
    destruct (loop r); simpl; try lia. destruct c; simpl; lia. }
  induction Hr' as [|l r1 r2 _ [IH1 IH2] E]; [done|].
  destruct (stopped_step _ _ _ IH1 E) as [? ->]. done.
Qed.

(** No interleaving of Shutdown and Stop, from outside or from the running task, closes
    the shutdown channel twice (which would panic). *)
Theorem st_no_double_close r :
  reachable step NewSingleThreadTaskRunner r → RPanicked ∉ calls r ∧ (∀ t, loop r ≠ LCalling t RPanicked).
Proof.
  intros Hr. destruct (once_reach r Hr) as [_ _ _ Hb _ _ _]. unfold count in Hb.
  pose proof (total_nonneg w_bad (calls r) ltac:(by intros [])) as Hn. split.
  - intros Hin. apply list_elem_of_lookup in Hin as [i Hi].
    pose proof (total_lookup_le w_bad _ _ _ ltac:(by intros []) Hi) as Hle. simpl in Hle.
    destruct (loop r); simpl in Hb; try lia. destruct c; simpl in Hb; lia.
  - intros t Hl. rewrite Hl in Hb. simpl in Hb. lia.
Qed.

(** When WaitIdle returns nil, what was enqueued before its barrier has run. *)
Theorem st_WaitIdle_barrier r l1 l2 b x :
  reachable step NewSingleThreadTaskRunner r → NoDup (enqueued r) → enqueued r = l1 ++ b :: l2 → EStart b ∈ log r →
  x ∈ l1 → EEnd x ∈ log r.
Proof.
  intros Hr Hnd He Hb Hx. destruct (work_reach r Hr) as [_ (fin & Hf & Hl) _ _].
  rewrite Hl in *. rewrite elem_of_brackets. rewrite elem_of_brackets_start in Hb.
  assert (length (current (loop r)) ≤ 1) as H1 by (destruct (loop r); simpl; lia).
  rewrite app_assoc in Hf. apply (started_before fin (current (loop r)) l1 b x); [done| |done].
  apply list_elem_of_split in Hb as (f1 & f2 & Hb). rewrite Hb, He, <- app_assoc in *.
  simpl in Hf. destruct (nodup_split _ _ _ _ _ Hnd Hf) as [-> _]. by exists f2.
Qed.

(** What a post does for each queue policy: with room and a running loop the task is
    sent; with a full queue on a stopped runner it is dropped; with a full queue on a running
    loop Reject rejects it, and both Drop and Wait block the caller. *)
Theorem st_send_policies t traits w cb policy r :
  (* room, running: the task is sent, whatever the policy *)
  (length (workQueue r) < queue_cap → cancelled r = false → (∀ n, policy ≠ QueuePolicyOther n) →
     ∃ c r', send_step true t traits w policy cb r = Some (c, r') ∧
       workQueue r' = workQueue r ++ [t] ∧ send_step false t traits w policy cb r = None) ∧
  (* full, stopped: it is dropped *)
  (length (workQueue r) = queue_cap → cancelled r = true → (∀ n, policy ≠ QueuePolicyOther n) →
     send_step true t traits w policy cb r = None ∧
     send_step false t traits w policy cb r = Some (enqueue_return w t, r)) ∧
  (* full, running: rejected, or the caller blocks *)
  (length (workQueue r) = queue_cap → cancelled r = false → (∀ n, policy ≠ QueuePolicyOther n) →
     send_step true t traits w policy cb r = None ∧
     send_step false t traits w policy cb r =
       match policy with
       | QueuePolicyReject => Some (EReject t traits w cb, r)
       | _ => None
       end) ∧
  (* another value of the policy: it is dropped, with room or without *)
  (∀ n choice, policy = QueuePolicyOther n →
     send_step choice t traits w policy cb r = Some (enqueue_return w t, r)).
Proof.
  unfold send_step. split_and!; [intros Hlen Hc Hp; rewrite Hc..|by intros n choice ->].
  - rewrite bool_decide_true by done. destruct policy; eauto. by destruct (Hp n).
  - rewrite bool_decide_false by lia. destruct policy; try done. by destruct (Hp n).
  - rewrite bool_decide_false by lia. destruct policy; try done. by destruct (Hp n).
Qed.

(** QueuePolicyDrop behaves exactly as QueuePolicyWait. *)
Theorem st_drop_blocks choice t traits w cb r :
  send_step choice t traits w QueuePolicyDrop cb r = send_step choice t traits w QueuePolicyWait cb r.
Proof. done. Qed.

(** A task that posts to its own runner when the queue is full blocks the loop for ever
    under QueuePolicyDrop (unless the runner is stopped from outside). *)
Theorem st_self_post_deadlock r r' t t' traits w cb :
  loop r = LCalling t (ESend t' traits w QueuePolicyDrop cb) →
  length (workQueue r) = queue_cap →
  reachable step r r' → cancelled r' = false →
  loop r' = loop r ∧ workQueue r' = workQueue r.
Proof.
  intros Hl Hq. induction 1 as [|l r1 r2 _ IH E]; intros Hc; [done|].
  pose proof (cancelled_mono_step _ _ _ E Hc) as Hc1.
  destruct (IH Hc1) as [IH1 IH2]. rewrite Hl in *.
  assert (∀ choice, call_step choice (ESend t' traits w QueuePolicyDrop cb) r1 = None) as Hn.
  { intros choice. simpl. unfold send_step. rewrite Hc1, bool_decide_false by (rewrite IH2; lia).
    by destruct choice. }
  destruct (stuck_step _ _ _ _ _ IH1 Hn eq_refl E) as (-> & _ & ->); [done|by rewrite IH2].
Qed.

(** A task that calls Stop of its own runner waits for itself for ever. *)
Theorem st_stop_in_task_deadlock r r' t :
  loop r = LCalling t KWait → stopped r = false → reachable step r r' →
  loop r' = LCalling t KWait ∧ stopped r' = false.
Proof.
  intros Hl Hs. induction 1 as [|l r1 r2 _ [IH1 IH2] E]; [done|].
  assert (∀ choice, call_step choice KWait r1 = None) as Hn by (intros; simpl; by rewrite IH2).
  by destruct (stuck_step _ _ _ _ _ IH1 Hn eq_refl E) as (-> & -> & _).
Qed.
End st_theorems.

(** ** Concrete runs *)

Module StDemo.
Definition runner := SingleThreadTaskRunner nat.
Definition init : runner := NewSingleThreadTaskRunner.
(** Call [i] posts task [n]. *)
Definition post (i n : nat) : list (Label nat) :=
  LCall (EClosed n DefaultTaskTraits false) :: replicate 3 (LStep i true).
(** The loop's next [n] steps. *)
Definition loop_steps (n : nat) : list (Label nat) := replicate n (LLoop true None).
Definition posts (n : nat) : list (Label nat) := seq 0 n ≫= λ i, post i i.

Definition go_to (ls : list (Label nat)) : runner := default init (run step ls init).

Lemma st_go_to_reach ls :
  bool_decide (is_Some (run step ls init)) = true → reachable step init (go_to ls).
Proof.
  intros Hb. apply bool_decide_eq_true in Hb as [r E].
  unfold go_to. rewrite E. by eapply run_reachable.
Qed.
End StDemo.
Import StDemo.

Lemma st_sequential_witness :
  let r := go_to (posts 3 ++ loop_steps 5 ++ [LLoop true None]) in
  RunningTaskCount r = 1%Z ∧ log r = [EStart 0; EEnd 0; EStart 1] ∧ workQueue r = [2].
Proof.
  destruct (st_sequential (go_to (posts 3 ++ loop_steps 5 ++ [LLoop true None])))
    as (_ & H2 & _).
  - apply st_go_to_reach. vm_compute. reflexivity.
  - split; [rewrite H2; vm_compute; reflexivity|]. split; vm_compute; reflexivity.
Defined.

Lemma st_loop_drains_witness :
  let r := go_to (posts 3 ++ loop_steps 2) in
  ∃ n r', run step (replicate n (LLoop true None)) r = Some r' ∧
          loop r' = LSelect ∧ workQueue r' = [] ∧ log r' = brackets (enqueued r).
Proof.
  apply (st_loop_drains (go_to (posts 3 ++ loop_steps 2))).
  - apply st_go_to_reach. vm_compute. reflexivity.
  - vm_compute. exact I.
Defined.

(** [Stop] while a task is queued: the loop takes the context, not the task. *)
Definition stop_run : list (Label nat) :=
  posts 1 ++ [LCall KOnce] ++ replicate 5 (LStep 1 true) ++
  [LLoop false None; LLoop true None; LStep 1 true].

Lemma st_stop_returns_witness :
  let r := go_to stop_run in
  let r' := go_to (stop_run ++ [LCall (EClosed 8 DefaultTaskTraits false); LStep 2 true]) in
  (loop r' = LStopped ∧ log r' = log r) ∧ workQueue r' = [0] ∧ log r' = [].
Proof.
  split; [|split; vm_compute; reflexivity].
  apply (st_stop_returns (go_to stop_run)).
  - apply st_go_to_reach. vm_compute. reflexivity.
  - vm_compute. right. left.
  - eapply (run_reachable _ [LCall (EClosed 8 DefaultTaskTraits false); LStep 2 true]).
    vm_compute. reflexivity.
Defined.

Lemma st_no_double_close_witness :
  let r := go_to (stop_run ++ [LCall SOnce; LStep 2 true]) in RPanicked ∉ calls r.
Proof.
  apply (st_no_double_close (go_to (stop_run ++ [LCall SOnce; LStep 2 true]))).
  apply st_go_to_reach. vm_compute. reflexivity.
Defined.

Definition idle_run : list (Label nat) :=
  posts 2 ++ [LCall (WClosed 9)] ++ replicate 4 (LStep 2 true) ++ loop_steps 12 ++ [LStep 2 true].

Lemma st_WaitIdle_barrier_witness :
  let r := go_to idle_run in calls r !! 2 = Some (RDone (Some 9)) ∧ EEnd 1 ∈ log r.
Proof.
  split; [vm_compute; reflexivity|].
  apply (st_WaitIdle_barrier (go_to idle_run) [0; 1] [] 9).
  - apply st_go_to_reach. vm_compute. reflexivity.
  - apply (bool_decide_eq_true_1 _). vm_compute. reflexivity.
  - vm_compute. reflexivity.
  - apply (bool_decide_eq_true_1 _). vm_compute. reflexivity.
  - apply (bool_decide_eq_true_1 _). vm_compute. reflexivity.
Defined.

(** A task fills its own queue and posts once more. *)
Definition self_post_run : list (Label nat) :=
  post 0 0 ++ loop_steps 2 ++ (seq 1 100 ≫= λ i, post i i) ++
  [LLoop true (Some (EClosed 101 DefaultTaskTraits false)); LLoop true None; LLoop true None].

Lemma st_self_post_deadlock_witness :
  let r := go_to self_post_run in
  let r' := go_to (self_post_run ++ [LCall SOnce; LStep 101 true]) in
  loop r' = loop r ∧ workQueue r' = workQueue r.
Proof.
  apply (st_self_post_deadlock (go_to self_post_run) _ 0 101 DefaultTaskTraits false false).
  - vm_compute. reflexivity.
  - vm_compute. reflexivity.
  - eapply (run_reachable _ [LCall SOnce; LStep 101 true]). vm_compute. reflexivity.
  - vm_compute. reflexivity.
Defined.

Definition self_stop_run : list (Label nat) :=
  posts 1 ++ loop_steps 2 ++ [LLoop true (Some KOnce)] ++ loop_steps 5.

Lemma st_stop_in_task_deadlock_witness :
  let r' := go_to (self_stop_run ++ [LCall KOnce]) in
  loop r' = LCalling 0 KWait ∧ stopped r' = false.
Proof.
  apply (st_stop_in_task_deadlock (go_to self_stop_run)).
  - vm_compute. reflexivity.
  - vm_compute. reflexivity.
  - eapply (run_reachable _ [LCall KOnce]). vm_compute. reflexivity.
Defined.

Lemma st_send_policies_witness :
  send_step true 7 DefaultTaskTraits false QueuePolicyDrop false (go_to (posts 100)) = None ∧
  send_step false 7 DefaultTaskTraits false QueuePolicyDrop false (go_to (posts 100)) = None.
Proof.
  destruct (st_send_policies 7 DefaultTaskTraits false false QueuePolicyDrop (go_to (posts 100)))
    as (_ & _ & H3 & _).
  apply H3; [vm_compute; reflexivity..|discriminate].
Defined.
