(* ===== verification/RunnerSpec.v ===== *)
(** * What a client may rely on: a runner that executes its tasks one at a time
    (core/task.go: TaskRunner; core/sequenced_task_runner.go,
    core/single_thread_task_runner.go)

    The interface TaskRunner says nothing of order.  [AbstractRunner] is the
    machine that the comments of its sequential implementations describe: who
    posts tests a flag and then appends to a queue; one task at a time leaves
    the head of the queue and runs; a shutdown sets the flag, and only then the
    queue may be cleared.  [SequentialRunner] is the class of the machines that refine it,
    action by action; SequencedTaskRunner and SingleThreadTaskRunner are its
    instances.  A client proved against the class (EventBusRunner.v) does not
    see run loops, tokens, tickets, channels and workers. *)

From S2P Require Import Prelude GoSlice Task TaskQueue.
From S2P Require Sequenced SingleThread FIFOQueue.

(** ** The abstract runner *)

Section spec.
Context {A : Type}.

(** A goroutine: before the test of the flag, between the test and the append,
    or outside of a post. *)
Inductive Post := Testing (x : A) | Pushing (x : A) | Away.

Record AbstractRunner := MkAbstract {
  s_posts : list Post;
  s_queue : list A;
  s_closed : bool;
  s_running : option A;
}.

Inductive Action :=
| ACall (p : Post)            (** a new goroutine, about to post or not *)
| AEnter (i : nat) (x : A)    (** one that was elsewhere begins to post *)
| ATest (i : nat)             (** it reads the flag; a closed runner ignores the post *)
| APush (i : nat)
| AReject (i : nat)           (** the post is given up before the append *)
| AStart
| AEnd
| AClose
| AClear.

Definition set_post (i : nat) (p : Post) (s : AbstractRunner) : AbstractRunner :=
  MkAbstract (<[i := p]> (s_posts s)) (s_queue s) (s_closed s) (s_running s).
Definition set_work (q : list A) (x : option A) (s : AbstractRunner) : AbstractRunner :=
  MkAbstract (s_posts s) q (s_closed s) x.

(** [lossy]: the runner may reject a post although it is not closed. *)
Definition act (lossy : bool) (a : Action) (s : AbstractRunner) : option AbstractRunner :=
  match a with
  | ACall p =>
      match p with
      | Pushing _ => None
      | _ => Some (MkAbstract (s_posts s ++ [p]) (s_queue s) (s_closed s) (s_running s))
      end
  | AEnter i x =>
      match s_posts s !! i with Some Away => Some (set_post i (Testing x) s) | _ => None end
  | ATest i =>
      match s_posts s !! i with
      | Some (Testing x) => Some (set_post i (if s_closed s then Away else Pushing x) s)
      | _ => None
      end
  | APush i =>
      match s_posts s !! i with
      | Some (Pushing x) => Some (set_work (s_queue s ++ [x]) (s_running s) (set_post i Away s))
      | _ => None
      end
  | AReject i =>
      match s_posts s !! i with
      | Some (Pushing x) => if lossy then Some (set_post i Away s) else None
      | _ => None
      end
  | AStart =>
      match s_queue s, s_running s with
      | x :: q, None => Some (set_work q (Some x) s)
      | _, _ => None
      end
  | AEnd =>
      match s_running s with
      | Some _ => Some (set_work (s_queue s) None s)
      | None => None
      end
  | AClose => Some (MkAbstract (s_posts s) (s_queue s) true (s_running s))
  | AClear => if s_closed s then Some (set_work [] (s_running s) s) else None
  end.

Definition NewAbstractRunner (n : nat) : AbstractRunner :=
  MkAbstract (replicate n Away) [] false None.

(** The step from [s] to [s'] is this action, or is not seen. *)
Definition follows (lossy : bool) (a : option Action) (s s' : AbstractRunner) : Prop :=
  match a with Some a => act lossy a s = Some s' | None => s' = s end.
End spec.
Arguments Post A : clear implicits.
Arguments AbstractRunner A : clear implicits.
Arguments Action A : clear implicits.

(** ** The tasks of one client

    A runner may serve several clients.  [f] recognises the tasks of one of
    them; with the others left out, what remains of the runner is an abstract
    runner of this client's tasks. *)

Section own.
Context {A C : Type} (f : A → option C).
Implicit Types (v : AbstractRunner A) (p : Post A).

Definition own_post p : Post C :=
  match p with
  | Testing x => match f x with Some c => Testing c | None => Away end
  | Pushing x => match f x with Some c => Pushing c | None => Away end
  | Away => Away
  end.
Definition own v : AbstractRunner C :=
  MkAbstract (own_post <$> s_posts v) (omap f (s_queue v)) (s_closed v) (s_running v ≫= f).

Definition own_action (a : Action A) v : option (Action C) :=
  match a with
  | ACall p => Some (ACall (own_post p))
  | AEnter i x => AEnter i <$> f x
  | ATest i =>
      match own_post <$> s_posts v !! i with Some (Testing _) => Some (ATest i) | _ => None end
  | APush i =>
      match own_post <$> s_posts v !! i with Some (Pushing _) => Some (APush i) | _ => None end
  | AReject i =>
      match own_post <$> s_posts v !! i with Some (Pushing _) => Some (AReject i) | _ => None end
  | AStart => match head (s_queue v) ≫= f with Some _ => Some AStart | None => None end
  | AEnd => match s_running v ≫= f with Some _ => Some AEnd | None => None end
  | AClose => Some AClose
  | AClear => Some AClear
  end.

Lemma own_act lossy a v v' :
  act lossy a v = Some v' → follows lossy (own_action a v) (own v) (own v').
Proof.
  intros E. unfold follows. destruct a as [p|i x|i|i|i| | | |]; simpl in E; unfold own_action, act, own, set_post, set_work.
  - destruct p as [x|x|]; simplify_eq/=; rewrite fmap_app; simpl; [by destruct (f x)|done].
  - destruct (s_posts v !! i) as [[x'|x'|]|] eqn:Ei; simplify_eq/=.
    destruct (f x) as [c|] eqn:Hx; simpl.
    + rewrite list_lookup_fmap, Ei. simpl. by rewrite list_fmap_insert; simpl; rewrite Hx.
    + by rewrite (fmap_insert_same own_post _ _ _ _ Ei) by (simpl; by rewrite Hx).
  - destruct (s_posts v !! i) as [[x|x|]|] eqn:Ei; simplify_eq/=. destruct (f x) as [c|] eqn:Hx; simpl.
    + rewrite list_lookup_fmap, Ei. simpl. rewrite Hx, list_fmap_insert. simpl.
      destruct (s_closed v); simpl; by rewrite ?Hx.
    + rewrite (fmap_insert_same own_post _ _ _ _ Ei); [done|]. simpl. rewrite Hx.
      destruct (s_closed v); simpl; by rewrite ?Hx.
  - destruct (s_posts v !! i) as [[x|x|]|] eqn:Ei; simplify_eq/=. rewrite omap_app. simpl.
    destruct (f x) as [c|] eqn:Hx; simpl.
    + rewrite list_lookup_fmap, Ei. simpl. by rewrite Hx, list_fmap_insert.
    + rewrite app_nil_r, (fmap_insert_same own_post _ _ _ _ Ei); [done|]. simpl. by rewrite Hx.
  - destruct (s_posts v !! i) as [[x|x|]|] eqn:Ei; simplify_eq/=. destruct lossy; simplify_eq/=.
    destruct (f x) as [c|] eqn:Hx; simpl.
    + rewrite list_lookup_fmap, Ei. simpl. by rewrite Hx, list_fmap_insert.
    + rewrite (fmap_insert_same own_post _ _ _ _ Ei); [done|]. simpl. by rewrite Hx.
  - destruct (s_queue v) as [|x q], (s_running v); simplify_eq/=. by destruct (f x).
  - destruct (s_running v) as [x|]; simplify_eq/=. by destruct (f x).
  - by simplify_eq/=.
  - destruct (s_closed v) eqn:Hc; [|done]. injection E as <-. unfold follows. simpl. by rewrite Hc.
Qed.

Lemma own_follows lossy a v v' :
  follows lossy a v v' → follows lossy (a ≫= λ a, own_action a v) (own v) (own v').
Proof. destruct a as [a|]; simpl; [apply own_act|by intros ->]. Qed.
End own.

(** ** The class of the runners that refine it *)

Class SequentialRunnerOps (R L A : Type) := {
  sr_init : R;
  sr_step : L → R → option R;
  sr_view : R → AbstractRunner A;
  sr_action : L → R → option (Action A);
  sr_post : A → L;               (** some goroutine calls [PostTask] *)
  sr_returned : nat → R → bool;  (** goroutine [i] is back from its call *)
  sr_lossy : bool;
}.

Class SequentialRunner (R L A : Type) `{SequentialRunnerOps R L A} := {
  sr_new : ∃ n, sr_view (R:=R) sr_init = NewAbstractRunner n;
  sr_refines (l : L) (r r' : R) :
    reachable sr_step sr_init r → sr_step l r = Some r' →
    follows (sr_lossy (R:=R) (L:=L) (A:=A)) (sr_action l r) (sr_view r) (sr_view r');
  sr_posting x (r : R) : sr_action (sr_post x) r = Some (ACall (Testing x));
  sr_back i (r : R) : sr_returned i r = true → s_posts (sr_view r) !! i = Some Away;
}.

(** A runner that rejects nothing, with a goroutine per call. *)
Class StrictRunner (R L A : Type) `{SequentialRunner R L A} := {
  strict_lossless : sr_lossy (R:=R) (L:=L) (A:=A) = false;
  strict_enter (l : L) (r : R) i x : sr_action l r ≠ Some (AEnter i x);
}.

(** The actions of a run are a run of the abstract runner. *)
Section trace.
Context {R L A : Type} `{SequentialRunner R L A}.
Implicit Types (r : R) (ls : list L).

Fixpoint trace ls r : list (Action A) :=
  match ls with
  | [] => []
  | l :: ls =>
      option_list (sr_action l r) ++ match sr_step l r with Some r' => trace ls r' | None => [] end
  end.

Lemma trace_run ls r r' :
  reachable sr_step sr_init r → run sr_step ls r = Some r' →
  run (act (sr_lossy (R:=R) (L:=L) (A:=A))) (trace ls r) (sr_view r) = Some (sr_view r').
Proof.
  revert r. induction ls as [|l ls IH]; intros r Hr E; simpl in *; [by simplify_eq|].
  destruct (sr_step l r) as [r1|] eqn:E1; simplify_eq/=.
  pose proof (sr_refines l r r1 Hr E1) as Hf.
  assert (reachable sr_step sr_init r1) as Hr1 by (by econstructor).
  destruct (sr_action l r) as [a|]; simpl in *; [rewrite Hf|rewrite <- Hf]; by apply IH.
Qed.

(** What no step does is not in a trace. *)
Lemma trace_without a ls r : (∀ l r1, sr_action l r1 ≠ Some a) → a ∉ trace ls r.
Proof.
  intros Ha. revert r. induction ls as [|l ls IH]; intros r; simpl; [set_solver|].
  rewrite elem_of_app. intros [Hin|Hin].
  - destruct (sr_action l r) as [b|] eqn:Hb; simpl in Hin; [|set_solver].
    apply list_elem_of_singleton in Hin as ->. by apply (Ha l r).
  - destruct (sr_step l r) as [r1|]; [by apply (IH r1)|set_solver].
Qed.
End trace.

(** ** SequencedTaskRunner *)

Section sequenced.
Context {Q T : Type} `{FIFOOrder Q T}.
Notation Runner := (Sequenced.SequencedTaskRunner Q T).
Notation Item := (TaskItem T).
Import Sequenced.
Implicit Types r : Runner.

Definition seq_post (t : Thread T) : Post Item :=
  match t with
  | WClosed it | PClosed it _ => Testing it
  | PPush it _ => Pushing it
  | _ => Away
  end.
Definition seq_view r : AbstractRunner Item :=
  MkAbstract (seq_post <$> threads r) (tq_items (queue r)) (closed r) (head (threads r ≫= in_run)).

Definition seq_action (l : Label T) r : option (Action Item) :=
  match l with
  | LCall t => Some (ACall (seq_post t))
  | LTake _ => Some (ACall Away)
  | LThread i _ =>
      t ← threads r !! i;
      match t with
      | WClosed _ => if closed r then Some (ATest i) else None
      | PClosed _ _ => Some (ATest i)
      | PPush _ _ => Some (APush i)
      | RPop => match tq_items (queue r) with [] => None | _ => Some AStart end
      | RRun _ => Some AEnd
      | SClosed => Some AClose
      | SQueue => Some AClear
      | _ => None
      end
  end.

#[export] Instance sequenced_ops : SequentialRunnerOps Runner (Label T) Item := {
  sr_init := NewSequencedTaskRunner;
  sr_step := step;
  sr_view := seq_view;
  sr_action := seq_action;
  sr_post it := LCall (PClosed it false);
  sr_returned i r := match threads r !! i with Some TEnd => true | _ => false end;
  sr_lossy := false;
}.

#[local] Arguments follows : simpl never.
#[local] Arguments seq_action : simpl never.

(** Whoever holds the token runs the only task. *)
Lemma holder_running r i t t' :
  token_ok r → threads r !! i = Some t → w_token t = 1%Z →
  head (threads r ≫= in_run) = head (in_run t) ∧
  head (<[i:=t']> (threads r) ≫= in_run) = head (in_run t').
Proof.
  intros Htok Ht Hw. split.
  - f_equal. exact (current_token _ _ _ Htok Ht Hw).
  - by rewrite (current_alone _ _ _ _ Htok Ht Hw).
Qed.

Lemma seq_action_refines l r r' :
  tq_ok (queue r) → token_ok r → flag_ok r → step l r = Some r' →
  follows false (seq_action l r) (seq_view r) (seq_view r').
Proof.
  intros Hok Htok Hflag E.
  seq_cases E; unfold follows, seq_action, act, seq_view; simpl; rewrite ?Ht; simpl;
    rewrite ?list_lookup_fmap, ?Ht; simpl;
    repeat match goal with H : closed _ = _ |- _ => rewrite H end; simpl.
  all: unfold set_post, set_work; simpl; rewrite ?fmap_app, ?bind_app; simpl; rewrite ?app_nil_r.
  all: try (rewrite (bind_insert_same in_run _ _ _ _ Ht) by done).
  all: try (rewrite (fmap_insert_same seq_post _ _ _ _ Ht) by done); try done;
    try (by rewrite ?list_lookup_fmap, ?Ht, ?list_fmap_insert).
  - rewrite fo_push, list_fmap_insert by done. by destruct it.
  - rewrite fo_push, list_fmap_insert by done. by destruct it.
  - apply fo_pop_got in Hpop as [_ Hpop]; [|done]. rewrite Hpop.
    by destruct (holder_running _ _ _ (RRun it) Htok Ht eq_refl) as [-> ->].
  - apply tq_pop_none in Hpop as [Hnil ->]; [|done]. by rewrite Hnil.
  - by destruct (holder_running _ _ _ RAfter Htok Ht eq_refl) as [-> ->].
  - by destruct (holder_running _ _ _ RAfter Htok Ht eq_refl) as [-> ->].
  - destruct (closed r) eqn:Hc; [by rewrite tq_new_items|].
    pose proof (total_zero_lookup w_flagged _ _ _ ltac:(by intros []) (Hflag Hc) Ht). done.
Qed.

#[export] Instance sequenced_runner : SequentialRunner Runner (Label T) Item.
Proof.
  split; simpl.
  - exists 0. unfold seq_view. simpl. by rewrite tq_new_items.
  - intros l r r' Hr E. apply seq_action_refines; [|by apply token_reach|by apply flag_reach|done].
    by apply seq_queue_ok.
  - done.
  - intros i r Hi. rewrite list_lookup_fmap.
    destruct (threads r !! i) as [t|]; [|done]. by destruct t.
Qed.

#[export] Instance sequenced_strict : StrictRunner Runner (Label T) Item.
Proof.
  split; [done|]. intros l r i x. change (seq_action l r ≠ Some (AEnter i x)). unfold seq_action.
  destruct l as [t|j c|k]; [done| |done].
  destruct (threads r !! j) as [t|]; simpl; [|done]. by destruct t; repeat case_match.
Qed.
End sequenced.

(** ** SingleThreadTaskRunner *)

Section single_thread.
Context {T : Type} `{EqDecision T}.
Notation Runner := (SingleThread.SingleThreadTaskRunner T).
Import SingleThread.
Implicit Types r : Runner.

(** The loop's goroutine is the first one: its task may call methods. *)
Definition st_post (c : Call T) : Post T :=
  match c with
  | WClosed t | DFire t _ | EClosed t _ _ => Testing t
  | EPolicy t _ _ | ESend t _ _ _ _ => Pushing t
  | _ => Away
  end.
Definition loop_post (l : LoopPc T) : Post T :=
  match l with LCalling _ c => st_post c | _ => Away end.
Definition st_view r : AbstractRunner T :=
  MkAbstract (loop_post (loop r) :: (st_post <$> calls r)) (workQueue r) (closed r)
    (head (current (loop r))).

(** The action of goroutine [i] at [c]. *)
Definition call_action (i : nat) (choice : bool) (c : Call T) r : option (Action T) :=
  match c with
  | WClosed _ | DFire _ _ => if closed r then Some (ATest i) else None
  | EClosed _ _ _ => Some (ATest i)
  | ESend _ _ _ (QueuePolicyOther _) _ => Some (AReject i)
  | ESend _ _ _ _ _ => Some (if choice then APush i else AReject i)
  | SClosed | KClosed => Some AClose
  | _ => None
  end.
Definition st_action (l : Label T) r : option (Action T) :=
  match l with
  | LCall c => Some (ACall (st_post c))
  | LStep i choice => c ← calls r !! i; call_action (S i) choice c r
  | LLoop choice call =>
      match loop r, call with
      | LSelect, _ => if choice then Some AStart else None
      | LBody _, Some c => match st_post c with Testing t => Some (AEnter 0 t) | _ => None end
      | LBody _, None => Some AEnd
      | LCalling _ c, _ => if returned c then None else call_action 0 choice c r
      | _, _ => None
      end
  | LTimer k => '(t, _) ← timers r !! k; Some (ACall (Testing t))
  | LSetPolicy _ | LSetCallback _ => None
  end.

#[export] Instance single_thread_ops : SequentialRunnerOps Runner (Label T) T := {
  sr_init := NewSingleThreadTaskRunner;
  sr_step := step;
  sr_view := st_view;
  sr_action := st_action;
  sr_post t := LCall (EClosed t DefaultTaskTraits false);
  sr_returned i r :=
    match i with 0 => false | S i => match calls r !! i with Some (RDone _) => true | _ => false end end;
  sr_lossy := true;
}.

Lemma call_action_refines i choice c r c' r' ps x :
  ps !! i = Some (st_post c) → call_step choice c r = Some (c', r') →
  follows true (call_action i choice c r) (MkAbstract ps (workQueue r) (closed r) x)
    (MkAbstract (<[i := st_post c']> ps) (workQueue r') (closed r') x).
Proof.
  intros Hi E.
  destruct c; simpl in E; unfold send_step, enqueue_return in E; repeat case_match; simplify_eq/=;
    unfold follows, act, set_post, set_work; simpl; rewrite ?Hi; simpl;
    repeat match goal with H : closed _ = _ |- _ => rewrite H end; simpl;
    rewrite ?(list_insert_id _ _ _ Hi); try done;
    by rewrite Hi.
Qed.

Lemma st_action_refines l r r' :
  step l r = Some r' → follows true (st_action l r) (st_view r) (st_view r').
Proof.
  intros E. destruct l as [c|i choice|choice call|k|p|b]; simpl in E.
  - destruct (entry c) eqn:Hc; simplify_eq/=. unfold follows, act, st_view. simpl.
    rewrite fmap_app. by destruct c.
  - destruct (calls r !! i) as [c|] eqn:Hi; simplify_eq/=.
    destruct (call_step choice c r) as [[c' r1]|] eqn:E1; simplify_eq/=. rewrite Hi. simpl.
    pose proof (call_step_frame _ _ _ _ _ E1) as (Hl & Hcs & _). unfold st_view. simpl.
    rewrite list_fmap_insert, Hl, Hcs.
    apply (call_action_refines (S i) choice c r c' r1 (loop_post (loop r) :: (st_post <$> calls r))).
    + simpl. by rewrite list_lookup_fmap, Hi.
    + done.
  - unfold loop_step in E. unfold st_action.
    destruct (loop r) as [|t|t|t c|t b|t| |] eqn:El; simplify_eq/=.
    all: try (repeat case_match; simplify_eq/=; unfold follows, act, st_view, set_work, set_post; simpl;
      rewrite ?El; done).
    + destruct choice; [destruct (workQueue r) eqn:Eq|destruct (cancelled r)]; simplify_eq/=;
        unfold follows, act, st_view, set_work; simpl; by rewrite ?El, ?Eq.
    + destruct call as [c|]; [destruct (entry c) eqn:Hc|]; simplify_eq/=;
        [destruct c; try discriminate Hc|]; unfold follows, act, st_view, set_work, set_post; simpl;
        by rewrite El.
    + destruct (returned c) eqn:Hc; [|destruct (call_step choice c r) as [[c' r1]|] eqn:E1]; simplify_eq/=.
      { unfold follows, st_view. simpl. rewrite El. by destruct c. }
      pose proof (call_step_frame _ _ _ _ _ E1) as (_ & Hcs & _). unfold st_view. simpl.
      rewrite El, Hcs. by apply (call_action_refines 0 choice c r c' r1 (st_post c :: (st_post <$> calls r))).
  - destruct (timers r !! k) as [[t traits]|] eqn:Hk; simplify_eq/=. rewrite Hk. simpl.
    unfold follows, act, st_view. simpl. by rewrite fmap_app.
  - by simplify_eq/=.
  - by simplify_eq/=.
Qed.

#[export] Instance single_thread_runner : SequentialRunner Runner (Label T) T.
Proof.
  split; simpl; [by exists 1| |done|].
  - intros l r r' _. apply st_action_refines.
  - intros [|i] r Hi; [done|]. simpl. rewrite list_lookup_fmap.
    destruct (calls r !! i) as [c|]; [|done]. by destruct c.
Qed.

(** Nothing clears the channel of a SingleThreadTaskRunner. *)
Lemma st_no_clear l r : st_action l r ≠ Some AClear.
Proof.
  assert (∀ i choice c, call_action i choice c r ≠ Some AClear) as Hc.
  { intros i choice c. destruct c; simpl; repeat case_match; congruence. }
  destruct l as [c|i choice|choice call|k|p|b]; simpl; try done.
  - destruct (calls r !! i); simpl; [apply Hc|done].
  - destruct (loop r); repeat case_match; simpl; (done || congruence || apply Hc).
  - destruct (timers r !! k) as [[t tr]|]; simpl; congruence.
Qed.
End single_thread.

(** ** Both runners implement the abstract one *)

(** C19. SequencedTaskRunner and SingleThreadTaskRunner are sequential runners: every run of
    either, its posts, shutdowns, waits and panics included, is action by action a run of the
    abstract runner, whose posts test a flag and then append to a queue, whose tasks run one
    at a time from the head of the queue, and whose queue may be cleared only after the flag
    is set. The first clears its queue in Shutdown and never gives up a post that has passed
    the flag; the second never clears its queue, and may give up a post while it is open. *)
Theorem runners_refine_spec {Q T : Type} `{FIFOOrder Q T, EqDecision T}
    (ls : list (Sequenced.Label T)) (r : Sequenced.SequencedTaskRunner Q T)
    (ls' : list (SingleThread.Label T)) (r' : SingleThread.SingleThreadTaskRunner T) :
  run Sequenced.step ls Sequenced.NewSequencedTaskRunner = Some r →
  run SingleThread.step ls' SingleThread.NewSingleThreadTaskRunner = Some r' →
  run (act false) (trace ls (Sequenced.NewSequencedTaskRunner (Q:=Q))) (NewAbstractRunner 0)
    = Some (seq_view r) ∧
  run (act true) (trace ls' SingleThread.NewSingleThreadTaskRunner) (NewAbstractRunner 1)
    = Some (st_view r') ∧
  AClear ∉ trace ls' (SingleThread.NewSingleThreadTaskRunner (T:=T)).
Proof.
  intros E E'. split_and!.
  - pose proof (trace_run ls _ r ltac:(constructor) E) as Ht. simpl in Ht.
    unfold seq_view at 1 in Ht. simpl in Ht. by rewrite tq_new_items in Ht.
  - exact (trace_run ls' _ r' ltac:(constructor) E').
  - apply trace_without. exact st_no_clear.
Qed.

Import Sequenced.SeqDemo.

(** A barrier behind a task that panics on one runner; three posts and a stop on the other. *)
Lemma runners_refine_spec_witness :
  let r := Sequenced.SeqDemo.go_to Sequenced.barrier_run in
  let r' := SingleThread.StDemo.go_to SingleThread.stop_run in
  run (act false) (trace Sequenced.barrier_run Sequenced.SeqDemo.init) (NewAbstractRunner 0)
    = Some (seq_view r) ∧
  run (act true) (trace SingleThread.stop_run SingleThread.StDemo.init) (NewAbstractRunner 1)
    = Some (st_view r') ∧
  AClear ∉ trace SingleThread.stop_run SingleThread.StDemo.init.
Proof.
  apply (runners_refine_spec Sequenced.barrier_run (Sequenced.SeqDemo.go_to Sequenced.barrier_run)
    SingleThread.stop_run (SingleThread.StDemo.go_to SingleThread.stop_run));
    vm_compute; reflexivity.
Defined.
