(* ===== verification/Parallel.v ===== *)
(** * ParallelTaskRunner (core/parallel_task_runner.go)

    Up to [maxConcurrency] tasks at a time on a pool.  All scheduling runs as
    closures on an internal [SingleThreadTaskRunner]: that component is used
    here through what [SingleThread] proves of it, a bounded first-in-first-out
    channel of closures executed one after the other, which ignores posts once
    it is closed and blocks the poster while the channel is full.  The pool is
    a bag of posted run loops it may start in any order or turn away. *)

From S2P Require Import Prelude GoSlice Task TaskQueue.
From S2P Require FIFOQueue SingleThread.

Definition maxAllowedConcurrency : Z := 10000.

Inductive Once := OnceNew | OnceRunning | OnceDone.

(** A task of the queue: a user's, or the closure [WaitIdle] and [FlushAsync]
    build around a callback, which ends by posting [ClClear]. *)
Inductive PTask (T : Type) := TUser (t : T) | TBarrier (t : T).
Arguments TUser {T} t.
Arguments TBarrier {T} t.
#[export] Instance PTask_eq_dec `{EqDecision T} : EqDecision (PTask T).
Proof. solve_decision. Defined.
#[export] Instance PTask_zero `{GoZero T} : GoZero (PTask T) := TUser go_zero.

(** The closures posted to the internal scheduler. *)
Inductive Closure (T : Type) :=
| ClPost (t : T) (traits : TaskTraits)   (** [PostTaskWithTraitsNamed] *)
| ClBarrier (t : T)                      (** [WaitIdle], [FlushAsync] *)
| ClTry                                  (** [onTaskComplete] *)
| ClClear.                               (** [r.barrierTaskRunning.Store(false)] *)
Arguments ClPost {T} t traits.
Arguments ClBarrier {T} t.
Arguments ClTry {T}.
Arguments ClClear {T}.
#[export] Instance Closure_eq_dec `{EqDecision T} : EqDecision (Closure T).
Proof. solve_decision. Defined.

Section parallel.
Context {Q T : Type} `{EqDecision T} `{TaskQueue Q (PTask T)}.
Context (maxConcurrency : Z).
Notation Item := (TaskItem (PTask T)).

Definition is_barrier (it : Item) : bool :=
  match item_Task it with TBarrier _ => true | TUser _ => false end.

(** The goroutine of the internal scheduler, inside a closure. *)
Inductive SchedPc :=
| SIdle
| SPostCheck (t : T) (traits : TaskTraits)  (** before [r.closed.Load()] *)
| SPostPush (t : T) (traits : TaskTraits)
| SBarCheck (t : T)
| SBarPush (t : T)
| SMark (id : TaskID)                       (** before [markAsBarrier] *)
| SClear
(* [tryScheduleInternal] *)
| STry                                      (** before [barrierTaskRunning.Load()] *)
| SPending                                  (** [pendingBarrierTask] and [runningCount] *)
| SBFlag (it : Item)                        (** [postBarrierTaskInternal]: before [Store(true)] *)
| SLoop                                     (** the loop's condition *)
| SEmpty
| SPop
| SIsBarrier (it : Item)
| SRemove (it : Item)
| SBarrier (it : Item)                      (** before the test of [runningCount] *)
| SAdd (it : Item) (loops : bool)           (** before [runningCount.Add(1)] *)
| SPost (it : Item) (loops : bool).         (** before [threadPool.PostInternal] *)

(** A worker of the pool inside [runLoop]. *)
Inductive Worker :=
| WRun (it : Item)            (** the task's body *)
| WDefer (it : Item)          (** the barrier's deferred post of [ClClear] *)
| WDeferSend (it : Item)      (** ... before the send on the scheduler's channel *)
| WDec (it : Item)            (** before [runningCount.Add(-1)] *)
| WTry                        (** before the post of [ClTry] *)
| WTrySend                    (** ... before the send *)
| WEnd.

(** Callers. *)
Inductive Caller :=
| CPost (t : T) (traits : TaskTraits)     (** [PostTaskWithTraitsNamed] *)
| CFlush (t : T)                          (** [FlushAsync] *)
| CIdle (t : T)                           (** [WaitIdle], before [IsClosed] *)
| CIdlePost (t : T)
| CSend (c : Closure T) (w : option T)    (** in the scheduler's [PostTask], before the send;
                                              [w]: what the caller waits for afterwards *)
| CWait (t : T)                           (** its [select] *)
| CDelay (t : T) (traits : TaskTraits)    (** [PostDelayedTaskWithTraitsNamed] *)
| CDelayPool (t : T) (traits : TaskTraits)
| CReturned (waited : option T)
| CErr
| HOnce | HClosed | HClear | HChan | HSched | HReturn | HDone   (** [Shutdown] *)
| HWait.                                  (** [WaitShutdown] *)

Record ParallelTaskRunner := MkRunner {
  queue : Q;
  runningCount : Z;
  closed : bool;
  shutdownChan : bool;
  shutdownOnce : Once;
  pendingBarrierTask : option Item;
  barrierTaskRunning : bool;
  barrierTaskIDs : gset TaskID;
  sched : list (Closure T);       (** the scheduler's channel *)
  sched_closed : bool;
  pc : SchedPc;
  next_id : TaskID;               (** [uuid.New]: identifiers differ *)
  pool : list Item;               (** run loops waiting in the pool *)
  lost : list Item;               (** run loops the pool turned away *)
  pworkers : list Worker;
  callers : list Caller;
  delayed : list (T * TaskTraits);  (** handed to [PostDelayedInternal] *)
  obs : list nat;                 (** queue depths reported *)
  posted : list Item;             (** histories *)
  started : list Item;
  cleared : option (list Item);
  log : list (Event Item);
}.

Definition runner0 : ParallelTaskRunner :=
  MkRunner tq_new 0 false false OnceNew None false ∅ [] false SIdle 1%N [] [] [] [] [] [] [] [] None [].

Definition NewParallelTaskRunner (threadPool_nil : bool) : go ParallelTaskRunner :=
  if threadPool_nil then Panic "ParallelTaskRunner: threadPool must not be nil"
  else if (maxConcurrency <? 1)%Z then
    Panic "ParallelTaskRunner: maxConcurrency must be at least 1"
  else if (maxAllowedConcurrency <? maxConcurrency)%Z then
    Panic "ParallelTaskRunner: maxConcurrency must not exceed 10000"
  else Ret runner0.

(** Updates, grouped by what a step changes. *)
Definition set_queue q r := MkRunner q (runningCount r) (closed r) (shutdownChan r) (shutdownOnce r)
  (pendingBarrierTask r) (barrierTaskRunning r) (barrierTaskIDs r) (sched r) (sched_closed r) (pc r)
  (next_id r) (pool r) (lost r) (pworkers r) (callers r) (delayed r) (obs r) (posted r) (started r)
  (cleared r) (log r).
Definition set_running n r := MkRunner (queue r) n (closed r) (shutdownChan r) (shutdownOnce r)
  (pendingBarrierTask r) (barrierTaskRunning r) (barrierTaskIDs r) (sched r) (sched_closed r) (pc r)
  (next_id r) (pool r) (lost r) (pworkers r) (callers r) (delayed r) (obs r) (posted r) (started r)
  (cleared r) (log r).
Definition set_life c ch o r := MkRunner (queue r) (runningCount r) c ch o
  (pendingBarrierTask r) (barrierTaskRunning r) (barrierTaskIDs r) (sched r) (sched_closed r) (pc r)
  (next_id r) (pool r) (lost r) (pworkers r) (callers r) (delayed r) (obs r) (posted r) (started r)
  (cleared r) (log r).
Definition set_pending p r := MkRunner (queue r) (runningCount r) (closed r) (shutdownChan r)
  (shutdownOnce r) p (barrierTaskRunning r) (barrierTaskIDs r) (sched r) (sched_closed r) (pc r)
  (next_id r) (pool r) (lost r) (pworkers r) (callers r) (delayed r) (obs r) (posted r) (started r)
  (cleared r) (log r).
Definition set_flag b r := MkRunner (queue r) (runningCount r) (closed r) (shutdownChan r)
  (shutdownOnce r) (pendingBarrierTask r) b (barrierTaskIDs r) (sched r) (sched_closed r) (pc r)
  (next_id r) (pool r) (lost r) (pworkers r) (callers r) (delayed r) (obs r) (posted r) (started r)
  (cleared r) (log r).
Definition set_ids s r := MkRunner (queue r) (runningCount r) (closed r) (shutdownChan r)
  (shutdownOnce r) (pendingBarrierTask r) (barrierTaskRunning r) s (sched r) (sched_closed r) (pc r)
  (next_id r) (pool r) (lost r) (pworkers r) (callers r) (delayed r) (obs r) (posted r) (started r)
  (cleared r) (log r).
Definition set_sched s c r := MkRunner (queue r) (runningCount r) (closed r) (shutdownChan r)
  (shutdownOnce r) (pendingBarrierTask r) (barrierTaskRunning r) (barrierTaskIDs r) s c (pc r)
  (next_id r) (pool r) (lost r) (pworkers r) (callers r) (delayed r) (obs r) (posted r) (started r)
  (cleared r) (log r).
Definition set_pc p r := MkRunner (queue r) (runningCount r) (closed r) (shutdownChan r)
  (shutdownOnce r) (pendingBarrierTask r) (barrierTaskRunning r) (barrierTaskIDs r) (sched r)
  (sched_closed r) p (next_id r) (pool r) (lost r) (pworkers r) (callers r) (delayed r) (obs r)
  (posted r) (started r) (cleared r) (log r).
Definition set_pool p l r := MkRunner (queue r) (runningCount r) (closed r) (shutdownChan r)
  (shutdownOnce r) (pendingBarrierTask r) (barrierTaskRunning r) (barrierTaskIDs r) (sched r)
  (sched_closed r) (pc r) (next_id r) p l (pworkers r) (callers r) (delayed r) (obs r)
  (posted r) (started r) (cleared r) (log r).
Definition set_pworkers w r := MkRunner (queue r) (runningCount r) (closed r) (shutdownChan r)
  (shutdownOnce r) (pendingBarrierTask r) (barrierTaskRunning r) (barrierTaskIDs r) (sched r)
  (sched_closed r) (pc r) (next_id r) (pool r) (lost r) w (callers r) (delayed r) (obs r)
  (posted r) (started r) (cleared r) (log r).
Definition set_callers c r := MkRunner (queue r) (runningCount r) (closed r) (shutdownChan r)
  (shutdownOnce r) (pendingBarrierTask r) (barrierTaskRunning r) (barrierTaskIDs r) (sched r)
  (sched_closed r) (pc r) (next_id r) (pool r) (lost r) (pworkers r) c (delayed r) (obs r)
  (posted r) (started r) (cleared r) (log r).
Definition add_delayed d r := MkRunner (queue r) (runningCount r) (closed r) (shutdownChan r)
  (shutdownOnce r) (pendingBarrierTask r) (barrierTaskRunning r) (barrierTaskIDs r) (sched r)
  (sched_closed r) (pc r) (next_id r) (pool r) (lost r) (pworkers r) (callers r) (delayed r ++ [d])
  (obs r) (posted r) (started r) (cleared r) (log r).
Definition add_obs n r := MkRunner (queue r) (runningCount r) (closed r) (shutdownChan r)
  (shutdownOnce r) (pendingBarrierTask r) (barrierTaskRunning r) (barrierTaskIDs r) (sched r)
  (sched_closed r) (pc r) (next_id r) (pool r) (lost r) (pworkers r) (callers r) (delayed r)
  (obs r ++ [n]) (posted r) (started r) (cleared r) (log r).
Definition add_posted it r := MkRunner (queue r) (runningCount r) (closed r) (shutdownChan r)
  (shutdownOnce r) (pendingBarrierTask r) (barrierTaskRunning r) (barrierTaskIDs r) (sched r)
  (sched_closed r) (pc r) (next_id r + 1)%N (pool r) (lost r) (pworkers r) (callers r) (delayed r)
  (obs r) (posted r ++ [it]) (started r) (cleared r) (log r).
Definition add_started it r := MkRunner (queue r) (runningCount r) (closed r) (shutdownChan r)
  (shutdownOnce r) (pendingBarrierTask r) (barrierTaskRunning r) (barrierTaskIDs r) (sched r)
  (sched_closed r) (pc r) (next_id r) (pool r) (lost r) (pworkers r) (callers r) (delayed r)
  (obs r) (posted r) (started r ++ [it]) (cleared r) (log r).
Definition add_cleared its r := MkRunner (queue r) (runningCount r) (closed r) (shutdownChan r)
  (shutdownOnce r) (pendingBarrierTask r) (barrierTaskRunning r) (barrierTaskIDs r) (sched r)
  (sched_closed r) (pc r) (next_id r) (pool r) (lost r) (pworkers r) (callers r) (delayed r)
  (obs r) (posted r) (started r) (Some (default [] (cleared r) ++ its)) (log r).
Definition add_log e r := MkRunner (queue r) (runningCount r) (closed r) (shutdownChan r)
  (shutdownOnce r) (pendingBarrierTask r) (barrierTaskRunning r) (barrierTaskIDs r) (sched r)
  (sched_closed r) (pc r) (next_id r) (pool r) (lost r) (pworkers r) (callers r) (delayed r)
  (obs r) (posted r) (started r) (cleared r) (log r ++ [e]).

Definition MaxConcurrency : Z := maxConcurrency.
Definition PendingTaskCount (r : ParallelTaskRunner) : nat := tq_Len (queue r).
Definition RunningTaskCount (r : ParallelTaskRunner) : Z := runningCount r.
Definition IsClosed (r : ParallelTaskRunner) : bool := closed r.

Definition markAsBarrier (id : TaskID) (r : ParallelTaskRunner) : ParallelTaskRunner :=
  set_ids ({[id]} ∪ barrierTaskIDs r) r.
Definition isBarrierTaskID (id : TaskID) (r : ParallelTaskRunner) : bool :=
  bool_decide (id ∈ barrierTaskIDs r).
Definition removeBarrier (id : TaskID) (r : ParallelTaskRunner) : ParallelTaskRunner :=
  set_ids (barrierTaskIDs r ∖ {[id]}) r.

(** [r.scheduler.PostTask]: the test of its [closed] flag, which makes it ignore
    the post, and the send, which blocks while the channel is full. *)
Definition scheduler_check {A} (ignored accepted : A) (r : ParallelTaskRunner) : A :=
  if sched_closed r then ignored else accepted.
Definition scheduler_send (c : Closure T) (r : ParallelTaskRunner) : option ParallelTaskRunner :=
  if bool_decide (length (sched r) < SingleThread.queue_cap)
  then Some (set_sched (sched r ++ [c]) (sched_closed r) r) else None.

(** [r.queue.PushWithID] with a fresh identifier, and the depth reported. *)
Definition push (t : PTask T) (traits : TaskTraits) (r : ParallelTaskRunner) : ParallelTaskRunner :=
  let q := tq_PushWithID (next_id r) t traits (queue r) in
  add_obs (tq_Len q) (add_posted (MkTaskItem t traits (next_id r)) (set_queue q r)).

(** The closure of [PostTaskWithTraitsNamed], up to [tryScheduleInternal]. *)
Definition PostTask_closure (choice : bool) (r : ParallelTaskRunner)
  : option ParallelTaskRunner :=
  match pc r with
  | SPostCheck t traits => Some (set_pc (if closed r then SIdle else SPostPush t traits) r)
  | SPostPush t traits => Some (set_pc STry (push (TUser t) traits r))
  | _ => None
  end.

(** The closure of [FlushAsync] and [WaitIdle], likewise; and the one the
    barrier posts when it ends. *)
Definition barrier_closure (choice : bool) (r : ParallelTaskRunner)
  : option ParallelTaskRunner :=
  match pc r with
  | SBarCheck t => Some (set_pc (if closed r then SIdle else SBarPush t) r)
  | SBarPush t => Some (set_pc (SMark (next_id r)) (push (TBarrier t) TraitsUserBlocking r))
  | SMark id => Some (set_pc STry (markAsBarrier id r))
  | SClear => Some (set_pc SIdle (set_flag false r))
  | _ => None
  end.

(** [tryScheduleInternal] and [postBarrierTaskInternal]; the choice: the pool
    accepts the run loop. *)
Definition tryScheduleInternal_step (choice : bool) (r : ParallelTaskRunner)
  : option ParallelTaskRunner :=
  match pc r with
  | STry => Some (set_pc (if barrierTaskRunning r then SIdle else SPending) r)
  | SPending =>
      Some match pendingBarrierTask r with
           | None => set_pc SLoop r
           | Some it =>
               if (runningCount r =? 0)%Z
               then set_pc (SBFlag it) (set_pending None (removeBarrier (item_ID it) r))
               else set_pc SIdle r
           end
  | SBFlag it => Some (set_pc (SAdd it false) (set_flag true r))
  | SLoop => Some (set_pc (if (runningCount r <? maxConcurrency)%Z then SEmpty else SIdle) r)
  | SEmpty =>
      Some (set_pc (if tq_IsEmpty (queue r) && bool_decide (pendingBarrierTask r = None)
                    then SIdle else SPop) r)
  | SPop =>
      match tq_Pop (queue r) with
      | Ret (Some it, q) => Some (set_pc (SIsBarrier it) (add_obs (tq_Len q) (set_queue q r)))
      | Ret (None, q) => Some (set_pc SIdle (set_queue q r))
      | Panic _ => None
      end
  | SIsBarrier it => Some (set_pc (if isBarrierTaskID (item_ID it) r then SRemove it else SAdd it true) r)
  | SRemove it => Some (set_pc (SBarrier it) (removeBarrier (item_ID it) r))
  | SBarrier it =>
      Some (if (runningCount r =? 0)%Z then set_pc (SAdd it false) r
            else set_pc SIdle (set_pending (Some it) r))
  | SAdd it loops => Some (set_pc (SPost it loops) (set_running (wrap_int32 (runningCount r + 1)) r))
  | SPost it loops =>
      let r := add_started it (set_pc (if loops then SLoop else SIdle) r) in
      Some (if choice then set_pool (pool r ++ [it]) (lost r) r
            else set_pool (pool r) (lost r ++ [it]) r)
  | _ => None
  end.

(** The internal scheduler: it takes the next closure, or goes on with one. *)
Definition sched_step (choice : bool) (r : ParallelTaskRunner)
  : option ParallelTaskRunner :=
  match pc r with
  | SPostCheck _ _ | SPostPush _ _ => PostTask_closure choice r
  | SBarCheck _ | SBarPush _ | SMark _ | SClear => barrier_closure choice r
  | STry | SPending | SBFlag _ | SLoop | SEmpty | SPop | SIsBarrier _ | SRemove _ | SBarrier _
  | SAdd _ _ | SPost _ _ => tryScheduleInternal_step choice r
  | SIdle =>
      match sched r with
      | [] => None
      | c :: cs =>
          Some (set_pc match c with
                       | ClPost t traits => SPostCheck t traits
                       | ClBarrier t => SBarCheck t
                       | ClTry => STry
                       | ClClear => SClear
                       end (set_sched cs (sched_closed r) r))
      end
  end.

(** [runLoop], [onTaskComplete] and the barrier's deferred function. *)
Definition worker_step (w : Worker) (r : ParallelTaskRunner) : option (Worker * ParallelTaskRunner) :=
  match w with
  | WRun it => Some (if is_barrier it then WDefer it else WDec it, add_log (EEnd it) r)
  | WDefer it => Some (scheduler_check (WDec it) (WDeferSend it) r, r)
  | WDeferSend it => r ← scheduler_send ClClear r; Some (WDec it, r)
  | WDec it => Some (WTry, set_running (wrap_int32 (runningCount r - 1)) r)
  | WTry => Some (scheduler_check WEnd WTrySend r, r)
  | WTrySend => r ← scheduler_send ClTry r; Some (WEnd, r)
  | WEnd => None
  end.

(** A barrier closes its channel as soon as it starts. *)
Definition started_barrier (t : T) (e : Event Item) : bool :=
  match e with
  | EStart it => bool_decide (item_Task it = TBarrier t)
  | EEnd _ => false
  end.

(** The scheduler's [PostTask] has returned. *)
Definition enqueued (w : option T) : Caller :=
  match w with Some t => CWait t | None => CReturned None end.
Definition PostTask_call (c : Closure T) (w : option T) (r : ParallelTaskRunner)
  : option (Caller * ParallelTaskRunner) :=
  Some (scheduler_check (enqueued w) (CSend c w) r, r).

(** [WaitIdle]; the choice is the event ([true]), or the context or the
    shutdown channel. *)
Definition WaitIdle_step (choice : bool) (c : Caller) (r : ParallelTaskRunner)
  : option (Caller * ParallelTaskRunner) :=
  match c with
  | CIdle t => Some (if closed r then CErr else CIdlePost t, r)
  | CIdlePost t => PostTask_call (ClBarrier t) (Some t) r
  | CWait t =>
      if choice then
        if existsb (started_barrier t) (log r) then Some (CReturned (Some t), r) else None
      else Some (CErr, r)
  | _ => None
  end.

(** [PostDelayedTaskWithTraitsNamed]. *)
Definition PostDelayed_step (choice : bool) (c : Caller) (r : ParallelTaskRunner)
  : option (Caller * ParallelTaskRunner) :=
  match c with
  | CDelay t traits => Some (if closed r then CReturned None else CDelayPool t traits, r)
  | CDelayPool t traits => Some (CReturned None, add_delayed (t, traits) r)
  | _ => None
  end.

(** [Shutdown]. *)
Definition Shutdown_step (choice : bool) (c : Caller) (r : ParallelTaskRunner)
  : option (Caller * ParallelTaskRunner) :=
  match c with
  | HOnce =>
      match shutdownOnce r with
      | OnceNew => Some (HClosed, set_life (closed r) (shutdownChan r) OnceRunning r)
      | OnceRunning => None
      | OnceDone => Some (HDone, r)
      end
  | HClosed => Some (HClear, set_life true (shutdownChan r) (shutdownOnce r) r)
  | HClear =>
      Some (HChan, add_obs 0 (add_cleared (drain (tq_Len (queue r)) (queue r))
                                (set_queue (tq_Clear (queue r)) r)))
  | HChan => Some (HSched, set_life (closed r) true (shutdownOnce r) r)
  | HSched => Some (HReturn, set_sched (sched r) true r)
  | HReturn => Some (HDone, set_life (closed r) (shutdownChan r) OnceDone r)
  | _ => None
  end.

(** [WaitShutdown]. *)
Definition WaitShutdown_step (choice : bool) (c : Caller) (r : ParallelTaskRunner)
  : option (Caller * ParallelTaskRunner) :=
  match c with
  | HWait => if choice then (if shutdownChan r then Some (HDone, r) else None) else Some (CErr, r)
  | _ => None
  end.

(** The callers. *)
Definition caller_step (choice : bool) (c : Caller) (r : ParallelTaskRunner)
  : option (Caller * ParallelTaskRunner) :=
  match c with
  | CIdle _ | CIdlePost _ | CWait _ => WaitIdle_step choice c r
  | CDelay _ _ | CDelayPool _ _ => PostDelayed_step choice c r
  | HOnce | HClosed | HClear | HChan | HSched | HReturn => Shutdown_step choice c r
  | HWait => WaitShutdown_step choice c r
  | CPost t traits => PostTask_call (ClPost t traits) None r
  | CFlush t => PostTask_call (ClBarrier t) None r
  | CSend cl w => r ← scheduler_send cl r; Some (enqueued w, r)
  | CReturned _ | CErr | HDone => None
  end.

Inductive Label :=
| LCall (c : Caller)
| LCaller (i : nat) (choice : bool)
| LSched (choice : bool)
| LTake (k : nat)               (** a worker of the pool starts a run loop *)
| LWorker (i : nat).

Definition entry (c : Caller) : bool :=
  match c with CPost _ _ | CFlush _ | CIdle _ | CDelay _ _ | HOnce | HWait => true | _ => false end.

Definition step (l : Label) (r : ParallelTaskRunner) : option ParallelTaskRunner :=
  match l with
  | LCall c => if entry c then Some (set_callers (callers r ++ [c]) r) else None
  | LCaller i choice =>
      c ← callers r !! i;
      '(c, r) ← caller_step choice c r;
      Some (set_callers (<[i:=c]> (callers r)) r)
  | LSched choice => sched_step choice r
  | LTake k =>
      it ← pool r !! k;
      Some (add_log (EStart it)
              (set_pworkers (pworkers r ++ [WRun it]) (set_pool (delete k (pool r)) (lost r) r)))
  | LWorker i =>
      w ← pworkers r !! i;
      '(w, r) ← worker_step w r;
      Some (set_pworkers (<[i:=w]> (pworkers r)) r)
  end.
End parallel.
Arguments ParallelTaskRunner Q T : clear implicits.
Arguments SchedPc T : clear implicits.
Arguments Worker T : clear implicits.
Arguments Caller T : clear implicits.
Arguments Label T : clear implicits.

(** ** Invariants *)

Section par_weights.
Context {T : Type}.
Notation Item := (TaskItem (PTask T)).

(** Counted in [runningCount]. *)
Definition w_live (w : Worker T) : Z :=
  match w with WRun _ | WDefer _ | WDeferSend _ | WDec _ => 1 | _ => 0 end.
Definition pc_live (p : SchedPc T) : Z := match p with SPost _ _ => 1 | _ => 0 end.
(** The tasks whose body is running. *)
Definition in_body (w : Worker T) : list Item := match w with WRun it => [it] | _ => [] end.
(** The task the scheduler has taken off the queue and not handed over. *)
Definition hand (p : SchedPc T) : list Item :=
  match p with
  | SIsBarrier it | SRemove it | SBarrier it | SBFlag it | SAdd it _ | SPost it _ => [it]
  | _ => []
  end.
Definition ended (e : Event Item) : list Item := match e with EEnd it => [it] | _ => [] end.
(** Past the test of [pendingBarrierTask]. *)
Definition past_pending (p : SchedPc T) : bool :=
  match p with
  | SBFlag _ | SLoop | SEmpty | SPop | SIsBarrier _ | SRemove _ | SBarrier _ | SAdd _ _ | SPost _ _ => true
  | _ => false
  end.
End par_weights.

(** All the cases of a step [H : step l r = Some r']. *)
Ltac par_cases H :=
  let fin := repeat (first [ progress simplify_eq/= | case_match ]) in
  match type of H with
  | step _ ?l ?r = Some _ =>
      destruct l as [c|i choice|choice|k|i]; simpl in H;
      [ destruct (entry c) eqn:Hentry; [|discriminate H]; injection H as <-
      | destruct (callers r !! i) as [c|] eqn:Hi; [|discriminate H]; simpl in H;
        destruct c; try discriminate H; simpl in H;
        unfold PostTask_call, scheduler_check, scheduler_send in H; fin
      | unfold sched_step, PostTask_closure, barrier_closure, tryScheduleInternal_step in H;
        destruct (pc r) as [|t tr|t tr|t|t|id| | | |it| | | |it|it|it|it lp|it lp] eqn:Hpc;
        try (destruct (sched r) as [|cl cls] eqn:Hsched; [discriminate H|destruct cl]);
        try (let o := fresh "o" in let q := fresh "q" in
             destruct (tq_Pop (queue r)) as [[o q]|] eqn:Hpop; [|discriminate H];
             destruct o as [it|]; simpl in H);
        fin
      | destruct (pool r !! k) as [it|] eqn:Hk; [|discriminate H]; simpl in H; simplify_eq/=
      | destruct (pworkers r !! i) as [w|] eqn:Hi; [|discriminate H]; simpl in H;
        destruct w as [it|it|it|it| | |]; try discriminate H; simpl in H;
        unfold scheduler_check, scheduler_send in H; fin ]
  end.

Section par_lemmas.
Context {Q T : Type} `{EqDecision T} `{FIFOOrder Q (PTask T)}.
Context (maxConcurrency : Z).
Notation Item := (TaskItem (PTask T)).
Implicit Types r : ParallelTaskRunner Q T.
Notation step := (step (Q:=Q) (T:=T) maxConcurrency).
Notation reach r := (reachable step runner0 r).
Hypothesis Hmax : (1 <= maxConcurrency <= maxAllowedConcurrency)%Z.

Definition items r : list Item := tq_items (queue r).
Definition bodies r : list Item := pworkers r ≫= in_body.
Definition ends r : list Item := log r ≫= ended.
Definition pending_list r : list Item := option_list (pendingBarrierTask r).

Lemma par_queue_ok_step l r r' : tq_ok (queue r) → step l r = Some r' → tq_ok (queue r').
Proof.
  intros Hok E. par_cases E; simpl; try done; auto using tq_push_ok.
  - by apply tq_clear_ok.
  - by apply fo_pop_got in Hpop as [? ?].
  - by apply tq_pop_none in Hpop as [? ->].
Qed.

(** *** The count of running tasks *)

Definition live r : Z :=
  (Z.of_nat (length (pool r)) + total w_live (pworkers r) + pc_live (pc r)
   + Z.of_nat (length (lost r)))%Z.

(** What the scheduler knows of [runningCount] where it stands. *)
Definition pc_count (p : SchedPc T) (n : Z) : Prop :=
  match p with
  | SBFlag _ | SAdd _ false => n = 0%Z
  | SPost _ false => n = 1%Z
  | SEmpty | SPop | SIsBarrier _ | SRemove _ | SBarrier _ | SAdd _ true => (n < maxConcurrency)%Z
  | _ => True
  end.

Definition count_ok r : Prop :=
  runningCount r = live r ∧ (0 <= runningCount r <= maxConcurrency)%Z ∧ pc_count (pc r) (runningCount r).

Lemma w_live_nonneg (w : Worker T) : (0 <= w_live w)%Z.
Proof. by destruct w. Qed.

Lemma count_step l r r' : count_ok r → step l r = Some r' → count_ok r'.
Proof.
  intros (Hl & Hb & Hp) E. unfold count_ok, live in *. unfold maxAllowedConcurrency in Hmax.
  pose proof (total_nonneg w_live (pworkers r) w_live_nonneg) as Hn.
  par_cases E; simpl in *; try (rewrite Hpc in *; simpl in * ); rw_total; rewrite ?length_app;
    rewrite ?wrap_int32_id by lia; simpl; (split_and!; try lia; try done).
  - pose proof (length_delete_S _ _ _ Hk). lia.
  - pose proof (total_lookup_le w_live _ _ _ w_live_nonneg Hi) as Hle. simpl in Hle.
    destruct (pc r); simpl in *; lia.
  - pose proof (total_lookup_le w_live _ _ _ w_live_nonneg Hi) as Hle. simpl in Hle.
    destruct (pc r) as [| | | | | | | | | | | | | | | |? []|? []]; simpl in *; try done; lia.
Qed.

(** *** The order of tasks *)

Definition order_ok r : Prop :=
  posted r ≡ₚ started r ++ hand (pc r) ++ pending_list r ++ items r ++ default [] (cleared r) ∧
  (cleared r = None → posted r = started r ++ hand (pc r) ++ pending_list r ++ items r) ∧
  (past_pending (pc r) = true → pendingBarrierTask r = None).

Lemma order_step l r r' : tq_ok (queue r) → order_ok r → step l r = Some r' → order_ok r'.
Proof.
  intros Hok (Hp & Ho & Hn) E. unfold order_ok, items, pending_list in *.
  par_cases E; simpl in *; try (rewrite Hpc in *; simpl in * ); try done;
    try rewrite (Hn eq_refl) in *; simpl in *.
  all: split_and!; try discriminate; try (intros Hc; specialize (Ho Hc)); try done;
    rewrite <- ?app_assoc; try done;
    try (match goal with E : pendingBarrierTask ?x = _ |- _ => rewrite E in *; done end).
  - rewrite (proj2 (tq_clear_ok _ Hok)), drain_items, Hp by (done || by rewrite tq_len). perm_solve.
  - rewrite fo_push, Hp by done. perm_solve.
  - rewrite fo_push, Ho by done. by rewrite <- !app_assoc.
  - rewrite fo_push, Hp by done. perm_solve.
  - rewrite fo_push, Ho by done. by rewrite <- !app_assoc.
  - apply fo_pop_got in Hpop as [_ E]; [|done]. by rewrite Hp, E.
  - apply fo_pop_got in Hpop as [_ E]; [|done]. by rewrite Ho, E.
  - by apply tq_pop_none in Hpop as [_ ->].
  - by apply tq_pop_none in Hpop as [_ ->].
Qed.

Lemma new_bounds r0 :
  NewParallelTaskRunner (Q:=Q) (T:=T) maxConcurrency false = Ret r0 →
  (1 <= maxConcurrency <= maxAllowedConcurrency)%Z ∧ r0 = runner0.
Proof.
  clear Hmax. unfold NewParallelTaskRunner. intros E.
  destruct (Z.ltb_spec maxConcurrency 1); [done|].
  destruct (Z.ltb_spec maxAllowedConcurrency maxConcurrency); [done|].
  injection E as <-. done.
Qed.

Lemma bodies_live r : (Z.of_nat (length (bodies r)) <= total w_live (pworkers r))%Z.
Proof.
  unfold bodies. induction (pworkers r) as [|w ws IH]; [done|].
  rewrite bind_cons, total_cons, length_app. destruct w; simpl length; simpl w_live; lia.
Qed.

(** *** Barriers start when everything before them has ended *)

Definition is_bar (it : Item) : Prop := is_barrier it = true.

(** The queue's barriers are marked, nothing else is, and identifiers differ. *)
Record ids_inv (its : list Item) (ids : gset TaskID) (p : SchedPc T) (pend : list Item)
    (nid : TaskID) : Prop := {
  io_queue it : it ∈ its → is_barrier it = true → item_ID it ∈ ids ∨ p = SMark (item_ID it);
  io_hand it : p = SIsBarrier it → is_barrier it = true → item_ID it ∈ ids;
  io_loops it : p = SAdd it true ∨ p = SPost it true → is_barrier it = false;
  io_nodup : NoDup (item_ID <$> hand p ++ pend ++ its);
  io_fresh : Forall (λ it, (item_ID it < nid)%N) (hand p ++ pend ++ its);
}.
Definition ids_ok r : Prop :=
  ids_inv (items r) (barrierTaskIDs r) (pc r) (pending_list r) (next_id r).

(** Moves of the scheduler that keep the item in its hand, or swap it with
    the pending one. *)
Lemma ids_move its ids p p' pend pend' nid :
  ids_inv its ids p pend nid → hand p' ++ pend' = hand p ++ pend →
  (∀ id, p ≠ SMark id) → (∀ it, p' ≠ SIsBarrier it) →
  (∀ it, p' = SAdd it true ∨ p' = SPost it true → is_barrier it = false) →
  ids_inv its ids p' pend' nid.
Proof.
  intros [Hq Hh Hlp Hnd Hfr] Eh Hm Hi Hl.
  split; rewrite ?(app_assoc (hand p')), ?Eh, <- ?(app_assoc (hand p)); try done.
  - intros it Hin Hb. destruct (Hq it Hin Hb) as [?|E]; [by left|by destruct (Hm (item_ID it))].
  - intros it E. by destruct (Hi it).
Qed.

(** The oldest item is taken into the hand. *)
Lemma ids_pop it its ids p nid :
  ids_inv (it :: its) ids p [] nid → hand p = [] → (∀ id, p ≠ SMark id) →
  ids_inv its ids (SIsBarrier it) [] nid.
Proof.
  intros [Hq Hh Hlp Hnd Hfr] Eh Hm. rewrite Eh in *. simpl in *. split; try done.
  - intros it' Hin Hb. destruct (Hq it') as [?|E]; [by right|done|by left|by destruct (Hm (item_ID it'))].
  - intros it' [= <-] Hb. destruct (Hq it) as [?|E]; [left|done|done|by destruct (Hm (item_ID it))].
  - by intros it' [?|?].
Qed.

Lemma ids_clear its ids p pend nid : ids_inv its ids p pend nid → ids_inv [] ids p pend nid.
Proof.
  intros [Hq Hh Hlp Hnd Hfr]. split; try done.
  - by intros it Hin%not_elem_of_nil.
  - rewrite app_assoc, fmap_app in Hnd. apply NoDup_app in Hnd as [Hnd _]. by rewrite app_nil_r.
  - rewrite app_assoc in Hfr. apply Forall_app in Hfr as [Hfr _]. by rewrite app_nil_r.
Qed.

(** The pushed barrier is marked. *)
Lemma ids_mark its ids id pend nid :
  ids_inv its ids (SMark id) pend nid → ids_inv its ({[id]} ∪ ids) STry pend nid.
Proof.
  intros [Hq Hh Hlp Hnd Hfr]. split; try done.
  - intros it Hin Hb. left. destruct (Hq it Hin Hb) as [?|[= ->]]; set_solver.
  - by intros it [?|?].
Qed.

(** The item in hand is dropped: started. *)
Lemma ids_drop its ids p it pend nid p' :
  ids_inv its ids p pend nid → hand p = [it] → hand p' = [] →
  (∀ id, p ≠ SMark id) → ids_inv its ids p' pend nid.
Proof.
  intros [Hq Hh Hlp Hnd Hfr] Eh Eh' Hm. rewrite Eh in *. simpl in *.
  apply NoDup_cons in Hnd as [_ Hnd]. apply Forall_cons in Hfr as [_ Hfr].
  split; rewrite ?Eh'; try done.
  - intros it' Hin Hb. destruct (Hq it' Hin Hb) as [?|E]; [by left|by destruct (Hm (item_ID it'))].
  - intros it' ->. done.
  - intros it' [->| ->]; done.
Qed.

(** A mark that no queued item carries is removed. *)
Lemma ids_unmark its ids p it pend nid :
  ids_inv its ids p pend nid → it ∈ hand p ++ pend → (∀ it', p ≠ SIsBarrier it') →
  ids_inv its (ids ∖ {[item_ID it]}) p pend nid.
Proof.
  intros [Hq Hh Hlp Hnd Hfr] Hin Hi. split; try done.
  - intros it' Hin' Hb. destruct (Hq it' Hin' Hb) as [Hs|E]; [|by right]. left.
    apply elem_of_difference. split; [done|]. rewrite elem_of_singleton. intros E.
    rewrite app_assoc, fmap_app in Hnd. apply NoDup_app in Hnd as (_ & Hnd & _).
    apply (Hnd (item_ID it)); [by apply list_elem_of_fmap_2|].
    rewrite <- E. by apply list_elem_of_fmap_2.
  - intros it' E. by destruct (Hi it').
Qed.

(** A fresh item joins the queue. *)
Lemma ids_push its ids p p' it pend nid :
  ids_inv its ids p pend nid → hand p = [] → hand p' = [] → item_ID it = nid →
  (∀ id, p ≠ SMark id) → (is_barrier it = true → p' = SMark nid) →
  ids_inv (its ++ [it]) ids p' pend (nid + 1)%N.
Proof.
  intros [Hq Hh Hlp Hnd Hfr] Eh Eh' Eid Hm Hp. rewrite Eh in *. simpl in *. rewrite Forall_forall in Hfr.
  split; rewrite ?Eh'; simpl.
  - intros it' [Hin| ->%list_elem_of_singleton]%elem_of_app Hb.
    + destruct (Hq it' Hin Hb) as [?|E]; [by left|by destruct (Hm (item_ID it'))].
    + right. by rewrite Eid, Hp.
  - intros it' ->. done.
  - intros it' [->| ->]; done.
  - rewrite app_assoc, fmap_app. apply NoDup_app. split; [done|]. split; [|apply NoDup_singleton].
    intros x (y & -> & Hy)%list_elem_of_fmap E. simpl in E. apply list_elem_of_singleton in E.
    specialize (Hfr y Hy). unfold TaskID in *. lia.
  - apply Forall_forall. intros x Hx. rewrite app_assoc in Hx.
    apply elem_of_app in Hx as [Hx| ->%list_elem_of_singleton]; [specialize (Hfr x Hx)|]; unfold TaskID in *; lia.
Qed.

Lemma ids_step l r r' :
  tq_ok (queue r) → order_ok r → ids_ok r → step l r = Some r' → ids_ok r'.
Proof.
  intros Hok (_ & _ & Hpast) Hinv E. unfold ids_ok, items, pending_list in *.
  par_cases E; simpl in *; try (rewrite Hpc in *; simpl in * ); try done;
    try rewrite (Hpast eq_refl) in *; simpl in *;
    try (match goal with E : pendingBarrierTask ?x = _ |- _ => rewrite E in * end); simpl in *;
    try (by apply (ids_move _ _ _ _ _ _ _ Hinv); try done; naive_solver);
    try (by eapply ids_drop; [exact Hinv|done..]).
  - rewrite (proj2 (tq_clear_ok _ Hok)). by eapply ids_clear.
  - rewrite fo_push by done. by apply (ids_push _ _ _ _ _ _ _ Hinv).
  - rewrite fo_push by done. by apply (ids_push _ _ _ _ _ _ _ Hinv).
  - by apply ids_mark.
  - assert (Hun : ids_inv (tq_items (queue r)) (barrierTaskIDs r ∖ {[item_ID t]}) SPending [t]
                    (next_id r)) by (apply ids_unmark; [done|set_solver|done]).
    apply (ids_move _ _ _ _ _ _ _ Hun); try done. by intros ? [?|?].
  - apply fo_pop_got in Hpop as [_ E]; [|done]. rewrite E in Hinv. by eapply ids_pop.
  - apply tq_pop_none in Hpop as [_ ->]; [|done]. apply (ids_move _ _ _ _ _ _ _ Hinv); try done.
    by intros ? [?|?].
  - apply (ids_move _ _ _ _ _ _ _ Hinv); try done. intros it' [[= <-]|?]; [|done].
    match goal with E : isBarrierTaskID _ _ = false |- _ => apply bool_decide_eq_false in E as Hno end.
    destruct (is_barrier it) eqn:Eb; [|done]. destruct Hno. by apply (io_hand _ _ _ _ _ Hinv).
  - assert (Hun : ids_inv (tq_items (queue r)) (barrierTaskIDs r ∖ {[item_ID it]}) (SRemove it) []
                    (next_id r)) by (apply ids_unmark; [done|set_solver|done]).
    apply (ids_move _ _ _ _ _ _ _ Hun); try done. by intros ? [?|?].
  - apply (ids_move _ _ _ _ _ _ _ Hinv); try done.
    intros it' [?|[= <- ->]]; [done|]. apply (io_loops _ _ _ _ _ Hinv). by left.
Qed.

(** *** What has started has ended, or is live *)

Definition started_ok r : Prop :=
  started r ≡ₚ pool r ++ lost r ++ bodies r ++ ends r.

Lemma started_step l r r' : started_ok r → step l r = Some r' → started_ok r'.
Proof.
  intros Hs E. unfold started_ok, bodies, ends in *.
  par_cases E; simpl in *; rewrite ?bind_app; simpl; rewrite ?app_nil_r; try done;
    try (match goal with
      | Hi : pworkers ?x !! ?i = Some ?w |- context [<[?i:=?w']> (pworkers ?x) ≫= _] =>
        let H1 := fresh "Hr" in let H2 := fresh "Hr" in
        destruct (bind_insert in_body (pworkers x) i w w' Hi) as (rest & H1 & H2);
        rewrite H2; rewrite H1 in Hs; simpl in Hs
      end); rewrite ?Hs; try perm_solve.
  rewrite (list_delete_perm _ _ _ Hk) at 1. perm_solve.
Qed.

Definition barrier_ok r : Prop :=
  ∀ s1 b s2, started r = s1 ++ b :: s2 → is_barrier b = true → ∀ x, x ∈ s1 → x ∈ ends r.

(** A barrier is handed over when nothing else is live. *)
Lemma barrier_alone r it lp :
  count_ok r → ids_ok r → started_ok r → pc r = SPost it lp → is_barrier it = true →
  ∀ x, x ∈ started r → x ∈ ends r.
Proof.
  intros (Hl & _ & Hp) Hid Hs Hpc Hb x Hx. unfold live, ids_ok in *. rewrite Hpc in *.
  assert (lp = false) as ->.
  { destruct lp; [|done]. rewrite (io_loops _ _ _ _ _ Hid it) in Hb; [done|by right]. }
  simpl in Hl, Hp. pose proof (total_nonneg w_live (pworkers r) w_live_nonneg) as Hn.
  assert (bodies r = []) as Hbod.
  { apply length_zero_iff_nil. pose proof (bodies_live r). lia. }
  unfold started_ok in Hs. rewrite Hbod in Hs.
  destruct (pool r); [|simpl in *; lia]. destruct (lost r); [|simpl in *; lia].
  by rewrite Hs in Hx.
Qed.

Lemma barrier_step l r r' :
  count_ok r → ids_ok r → started_ok r → barrier_ok r → step l r = Some r' → barrier_ok r'.
Proof.
  intros Hc Hid Hs Hb E. unfold barrier_ok.
  assert (Hmono : ∀ x, x ∈ ends r → x ∈ ends r').
  { unfold ends. par_cases E; simpl; rewrite ?bind_app; set_solver. }
  assert (Hst : started r' = started r ∨
    ∃ it lp, pc r = SPost it lp ∧ started r' = started r ++ [it]).
  { par_cases E; simpl; eauto. }
  destruct Hst as [->|(it & lp & Hpc & ->)]; intros s1 b s2 Es Hbar x Hx.
  - apply Hmono. by eapply Hb.
  - destruct s2 as [|z s2 _] using rev_ind.
    + apply app_inj_tail in Es as [<- <-]. apply Hmono. by eapply barrier_alone.
    + rewrite app_comm_cons, app_assoc in Es. apply app_inj_tail in Es as [Es <-].
      apply Hmono. by eapply Hb.
Qed.

(** *** The invariants of reachable states *)

Record par_inv r : Prop := {
  pi_queue : tq_ok (queue r);
  pi_count : count_ok r;
  pi_order : order_ok r;
  pi_ids : ids_ok r;
  pi_started : started_ok r;
  pi_barrier : barrier_ok r;
}.

Lemma par_inv_step l r r' : par_inv r → step l r = Some r' → par_inv r'.
Proof.
  intros [H1' H2 H3 H4 H5 H6] E.
  split; eauto using par_queue_ok_step, count_step, order_step, ids_step, started_step, barrier_step.
Qed.

Lemma par_inv_reach r : reach r → par_inv r.
Proof.
  apply (reachable_invariant step par_inv).
  - split.
    + apply tq_new_ok.
    + unfold count_ok, live. simpl. lia.
    + unfold order_ok, items. simpl. by rewrite tq_new_items.
    + unfold ids_ok, items, pending_list. simpl. rewrite tq_new_items.
      split; simpl; [set_solver|done|naive_solver|constructor|constructor].
    + by unfold started_ok.
    + intros [|] ? ? Es; discriminate Es.
  - intros; eauto using par_inv_step.
Qed.

(** What has begun was handed over. *)
Definition begun_ok r : Prop := ∀ it, EStart it ∈ log r → it ∈ started r.

Lemma begun_step l r r' : started_ok r → begun_ok r → step l r = Some r' → begun_ok r'.
Proof.
  intros Hs Hb E y. specialize (Hb y). unfold started_ok in Hs.
  par_cases E; simpl in *; try exact Hb; rewrite ?elem_of_app; try (by left; auto);
    intros Hin; rewrite ?list_elem_of_singleton in Hin; try (by left; auto);
    (destruct Hin as [Hin|Hin]; [by auto|simplify_eq]).
  rewrite Hs. apply elem_of_app. left. by eapply list_elem_of_lookup_2.
Qed.

Lemma begun_reach r : reach r → begun_ok r.
Proof.
  apply (reachable_invariant_with step (λ r, started_ok r)).
  - intros r0 Hr. apply (pi_started _ (par_inv_reach r0 Hr)).
  - intros it. simpl. by intros ?%elem_of_nil.
  - intros l r0 r' Hs Hb E. eapply begun_step; eauto.
Qed.

(** *** Identifiers of the posted tasks, and a shut down runner *)

Definition fresh_ok r : Prop :=
  NoDup (posted r) ∧ Forall (λ it, (item_ID it < next_id r)%N) (posted r).

Lemma fresh_push r it :
  fresh_ok r → item_ID it = next_id r →
  NoDup (posted r ++ [it]) ∧ Forall (λ it, (item_ID it < next_id r + 1)%N) (posted r ++ [it]).
Proof.
  intros [Hnd Hf] Eid. rewrite Forall_forall in Hf. split.
  - apply NoDup_app. split; [done|]. split; [|apply NoDup_singleton].
    intros x Hx ->%list_elem_of_singleton. specialize (Hf it Hx). unfold TaskID in *. lia.
  - apply Forall_app. split; [|by constructor; [unfold TaskID in *; lia|]].
    apply Forall_forall. intros x Hx. specialize (Hf x Hx). unfold TaskID in *. lia.
Qed.

Lemma fresh_step l r r' : fresh_ok r → step l r = Some r' → fresh_ok r'.
Proof.
  intros Hf E. par_cases E; simpl in *; try exact Hf; by apply (fresh_push r _ Hf).
Qed.

Lemma fresh_reach r : reach r → fresh_ok r.
Proof.
  apply (reachable_invariant step fresh_ok).
  - split; constructor.
  - intros; eauto using fresh_step.
Qed.

Lemma barrier_waits r l1 b l2 x :
  reach r → cleared r = None → posted r = l1 ++ b :: l2 → is_barrier b = true → b ∈ started r →
  x ∈ l1 → EEnd x ∈ log r.
Proof.
  intros Hr Hc Hp Hb Hin Hx. pose proof (par_inv_reach r Hr) as Hinv.
  destruct (pi_order _ Hinv) as (_ & Ho & _). specialize (Ho Hc).
  destruct (fresh_reach r Hr) as [Hnd _].
  apply list_elem_of_split in Hin as (s1 & s2 & Hs).
  rewrite Hs, Hp, <- app_assoc in Ho. rewrite Hp in Hnd. simpl in Ho.
  destruct (nodup_split _ _ _ _ _ Hnd Ho) as [-> _].
  pose proof (pi_barrier _ Hinv s1 b s2 Hs Hb x Hx) as He.
  unfold ends in He. apply list_elem_of_bind in He as ([y|y] & Hy & Hin'); [set_solver|].
  apply list_elem_of_singleton in Hy as ->. done.
Qed.

(** Past the test of the scheduler's [closed] flag. *)
Definition caller_sending (c : Caller T) : bool := match c with CSend _ _ => true | _ => false end.
Definition worker_sending (w : Worker T) : bool :=
  match w with WDeferSend _ | WTrySend => true | _ => false end.
Definition no_sender r : Prop :=
  Forall (λ c, caller_sending c = false) (callers r) ∧
  Forall (λ w, worker_sending w = false) (pworkers r).
Definition at_rest r : Prop :=
  sched_closed r = true ∧ sched r = [] ∧ pc r = SIdle ∧ no_sender r.

Lemma at_rest_step l r r' :
  at_rest r → step l r = Some r' → at_rest r' ∧ started r' = started r.
Proof.
  intros (Hc & Hs & Hp & Hf & Hw) E. unfold at_rest, no_sender.
  par_cases E; simpl in *; try congruence; unfold enqueued;
    try (match goal with Hf : Forall ?P ?l, Hi : ?l !! _ = Some _ |- _ =>
           pose proof (proj1 (Forall_lookup P l) Hf _ _ Hi) end; simplify_eq/=);
    split_and!; try done; repeat case_match; auto using Forall_insert.
  all: apply Forall_app; split; [done|]; repeat constructor; by destruct c.
Qed.
End par_lemmas.

(** ** Theorems *)

Section par_theorems.
Context {Q T : Type} `{EqDecision T} `{FIFOOrder Q (PTask T)}.
Context (maxConcurrency : Z).
Notation Item := (TaskItem (PTask T)).
Implicit Types r : ParallelTaskRunner Q T.
Notation step := (step (Q:=Q) (T:=T) maxConcurrency).

(** C15. A ParallelTaskRunner never runs more than maxConcurrency task bodies at once, and
    runningCount is exactly the number of run loops posted and not yet completed. *)
Theorem par_concurrency r0 r :
  NewParallelTaskRunner maxConcurrency false = Ret r0 → reachable step r0 r →
  RunningTaskCount r = live r ∧ (0 <= RunningTaskCount r <= maxConcurrency)%Z ∧
  (Z.of_nat (length (pworkers r ≫= in_body)) <= maxConcurrency)%Z.
Proof.
  intros Hnew Hr. apply new_bounds in Hnew as [Hmax ->].
  destruct (pi_count _ _ (par_inv_reach maxConcurrency Hmax r Hr)) as (Hl & Hb & _).
  split; [done|]. split; [done|]. pose proof (bodies_live r). unfold live, bodies in *.
  unfold pc_live in Hl. destruct (pc r); lia.
Qed.

(** A ParallelTaskRunner hands tasks to the pool in the order they were pushed: what was
    pushed is what was handed over, then the item in the scheduler, the pending barrier and
    the queue, in this order (with what Shutdown cleared, as a multiset). *)
Theorem par_fifo_start r0 r :
  NewParallelTaskRunner maxConcurrency false = Ret r0 → reachable step r0 r →
  posted r ≡ₚ started r ++ hand (pc r) ++ option_list (pendingBarrierTask r)
              ++ tq_items (queue r) ++ default [] (cleared r) ∧
  (cleared r = None → posted r = started r ++ hand (pc r) ++
                       option_list (pendingBarrierTask r) ++ tq_items (queue r)).
Proof.
  intros Hnew Hr. apply new_bounds in Hnew as [Hmax ->].
  by destruct (pi_order _ _ (par_inv_reach maxConcurrency Hmax r Hr)) as (? & ? & _).
Qed.

(** C9. When the barrier task of FlushAsync or WaitIdle has been handed to the pool, every
    task posted before it has run to its end, for every interleaving of the scheduler, the
    workers and the callers (as long as Shutdown did not clear the queue). *)
Theorem par_barrier_waits r0 r l1 b l2 x :
  NewParallelTaskRunner maxConcurrency false = Ret r0 → reachable step r0 r →
  cleared r = None → posted r = l1 ++ b :: l2 → is_barrier b = true → b ∈ started r →
  x ∈ l1 → EEnd x ∈ log r.
Proof.
  intros Hnew Hr. apply new_bounds in Hnew as [Hmax ->]. by apply (barrier_waits maxConcurrency Hmax).
Qed.

(** Once Shutdown is through, no post is on its way and the scheduler is idle, nothing starts
    any more. *)
Theorem par_shutdown_stops r r' :
  sched_closed r = true → sched r = [] → pc r = SIdle → no_sender r → reachable step r r' →
  started r' = started r.
Proof.
  intros Hc Hs Hp Hf Hr.
  assert (at_rest r' ∧ started r' = started r) as [_ ?]; [|done].
  induction Hr as [|l r1 r2 _ [IH1 IH2] E]; [by split|].
  destruct (at_rest_step _ _ _ _ IH1 E) as [? ->]. done.
Qed.

(** The constructor accepts exactly a pool and a concurrency of 1 to 10000. *)
Theorem par_constructor_validates (threadPool_nil : bool) :
  (∃ r, NewParallelTaskRunner (Q:=Q) (T:=T) maxConcurrency threadPool_nil = Ret r) ↔
  threadPool_nil = false ∧ (1 <= maxConcurrency <= 10000)%Z.
Proof.
  unfold NewParallelTaskRunner, maxAllowedConcurrency. destruct threadPool_nil.
  - split; [by intros [? ?]|by intros [? ?]].
  - destruct (Z.ltb_spec maxConcurrency 1); [split; [by intros [? ?]|lia]|].
    destruct (Z.ltb_spec 10000 maxConcurrency); [split; [by intros [? ?]|lia]|].
    split; [done|eauto].
Qed.
End par_theorems.

(** ** Concrete runs, with the FIFO queue of the code and two slots *)

Module ParDemo.
#[export] Instance demo_queue : TaskQueue (FIFOQueue.FIFOTaskQueue (PTask nat)) (PTask nat) :=
  FIFOQueue.FIFO_TaskQueue grow_double.
#[export] Instance demo_laws : TaskQueueLaws (FIFOQueue.FIFOTaskQueue (PTask nat)) (PTask nat) :=
  FIFOQueue.FIFO_Laws grow_double grow_double_ok.
#[export] Instance demo_order : FIFOOrder (FIFOQueue.FIFOTaskQueue (PTask nat)) (PTask nat) :=
  FIFOQueue.FIFO_Order grow_double grow_double_ok.

Definition runner := ParallelTaskRunner (FIFOQueue.FIFOTaskQueue (PTask nat)) nat.
Definition init : runner := runner0.
Definition user (n : nat) (id : TaskID) : TaskItem (PTask nat) :=
  MkTaskItem (TUser n) DefaultTaskTraits id.
Definition barrier (n : nat) (id : TaskID) : TaskItem (PTask nat) :=
  MkTaskItem (TBarrier n) TraitsUserBlocking id.

(** Caller [i] posts task [n], calls [FlushAsync], calls [Shutdown]. *)
Definition post (i n : nat) : list (Label nat) := [LCall (CPost n DefaultTaskTraits); LCaller i true; LCaller i true].
Definition flush (i n : nat) : list (Label nat) := [LCall (CFlush n); LCaller i true; LCaller i true].
Definition shutdown (i : nat) : list (Label nat) := LCall HOnce :: replicate 6 (LCaller i true).
(** The scheduler's next [n] steps. *)
Definition sched_steps (n : nat) : list (Label nat) := replicate n (LSched true).

Definition go_to (ls : list (Label nat)) : runner := default init (run (step 2) ls init).

Lemma par_go_to_reach ls :
  bool_decide (is_Some (run (step 2) ls init)) = true → reachable (step 2) init (go_to ls).
Proof.
  intros Hb. apply bool_decide_eq_true in Hb as [r E].
  unfold go_to. rewrite E. by eapply run_reachable.
Qed.
End ParDemo.
Import ParDemo.

(** Worker [i]'s next [n] steps. *)
Definition work (i n : nat) : list (Label nat) := replicate n (LWorker i).

(** Three tasks on two slots, then a barrier. *)
Definition two_running : list (Label nat) :=
  post 0 7 ++ post 1 8 ++ post 2 9 ++ flush 3 1 ++ sched_steps 38 ++ [LTake 0; LTake 0].
(** ... and all of them run to their end. *)
Definition barrier_run : list (Label nat) :=
  two_running ++ work 0 4 ++ sched_steps 10 ++ work 1 4 ++ sched_steps 9 ++ [LTake 0] ++
  work 2 4 ++ sched_steps 6 ++ [LTake 0] ++ work 3 6.

Lemma par_concurrency_witness :
  let r := go_to two_running in
  (Z.of_nat (length (pworkers r ≫= in_body)) <= 2)%Z ∧
  RunningTaskCount r = 2%Z ∧ PendingTaskCount r = 2.
Proof.
  split; [|split; vm_compute; reflexivity].
  apply (par_concurrency 2 init (go_to two_running)).
  - reflexivity.
  - apply par_go_to_reach. vm_compute. reflexivity.
Defined.

Lemma par_fifo_start_witness :
  let r := go_to two_running in
  posted r = started r ++ hand (pc r) ++ option_list (pendingBarrierTask r) ++ tq_items (queue r)
  ∧ started r = [user 7 1%N; user 8 2%N] ∧ tq_items (queue r) = [user 9 3%N; barrier 1 4%N].
Proof.
  split; [|split; vm_compute; reflexivity].
  apply (par_fifo_start 2 init (go_to two_running)).
  - reflexivity.
  - apply par_go_to_reach. vm_compute. reflexivity.
  - vm_compute. reflexivity.
Defined.

Lemma par_barrier_waits_witness :
  let r := go_to barrier_run in EEnd (user 9 3%N) ∈ log r ∧ RunningTaskCount r = 0%Z.
Proof.
  split; [|vm_compute; reflexivity].
  apply (par_barrier_waits 2 init (go_to barrier_run) [user 7 1%N; user 8 2%N; user 9 3%N]
           (barrier 1 4%N) []).
  - reflexivity.
  - apply par_go_to_reach. vm_compute. reflexivity.
  - vm_compute. reflexivity.
  - vm_compute. reflexivity.
  - vm_compute. reflexivity.
  - apply (bool_decide_eq_true_1 _). vm_compute. reflexivity.
  - apply (bool_decide_eq_true_1 _). vm_compute. reflexivity.
Defined.

Definition shut_run : list (Label nat) := two_running ++ shutdown 4.

Lemma par_shutdown_stops_witness :
  let r' := go_to (shut_run ++ work 0 3 ++ work 1 3) in
  started r' = started (go_to shut_run) ∧ RunningTaskCount r' = 0%Z ∧
  cleared r' = Some [user 9 3%N; barrier 1 4%N].
Proof.
  split; [|split; vm_compute; reflexivity].
  apply (par_shutdown_stops 2 (go_to shut_run)).
  - vm_compute. reflexivity.
  - vm_compute. reflexivity.
  - vm_compute. reflexivity.
  - apply (bool_decide_eq_true_1 _). vm_compute. reflexivity.
  - eapply (run_reachable _ (work 0 3 ++ work 1 3)). vm_compute. reflexivity.
Defined.

(** There is a run in which a task posted after FlushAsync starts and ends before the
    callback of FlushAsync has started. *)
Theorem par_barrier_overtaken :
  ∃ r : runner, reachable (step 2) init r ∧
    posted r = [barrier 1 1%N; user 8 2%N] ∧ pool r = [barrier 1 1%N] ∧
    log r = [EStart (user 8 2%N); EEnd (user 8 2%N)].
Proof.
  exists (go_to (flush 0 1 ++ post 1 8 ++ sched_steps 26 ++ [LTake 1] ++ work 0 1)).
  split; [apply par_go_to_reach; vm_compute; reflexivity|]. vm_compute. repeat split.
Qed.

(** The clearing of one barrier's flag can let tasks overtake the next barrier. *)
Theorem par_stale_clear :
  ∃ r1 r2 : runner, reachable (step 2) init r1 ∧ reachable (step 2) r1 r2 ∧
    barrierTaskRunning r1 = true ∧ started r1 = [barrier 1 1%N; barrier 2 2%N] ∧
    pool r2 = [barrier 2 2%N] ∧ barrierTaskRunning r2 = false ∧
    posted r2 = [barrier 1 1%N; barrier 2 2%N; user 8 3%N] ∧
    EEnd (user 8 3%N) ∈ log r2.
Proof.
  exists (go_to (flush 0 1 ++ sched_steps 14 ++ flush 1 2 ++ sched_steps 12 ++ [LTake 0] ++
                 post 2 8 ++ sched_steps 4 ++ work 0 4 ++ sched_steps 4)).
  exists (go_to (flush 0 1 ++ sched_steps 14 ++ flush 1 2 ++ sched_steps 12 ++ [LTake 0] ++
                 post 2 8 ++ sched_steps 4 ++ work 0 4 ++ sched_steps 4 ++
                 sched_steps 2 ++ work 0 2 ++ sched_steps 10 ++ [LTake 1] ++ work 1 1)).
  split; [apply par_go_to_reach; vm_compute; reflexivity|]. split.
  - eapply (run_reachable _ (sched_steps 2 ++ work 0 2 ++ sched_steps 10 ++ [LTake 1] ++ work 1 1)).
    vm_compute. reflexivity.
  - split_and!; try (vm_compute; reflexivity).
    apply (bool_decide_eq_true_1 _). vm_compute. reflexivity.
Qed.

(** A task can still be started from the queue after Shutdown returned. *)
Theorem par_started_after_shutdown :
  ∃ r1 r2 : runner, reachable (step 2) init r1 ∧ reachable (step 2) r1 r2 ∧
    callers r1 !! 1 = Some HDone ∧ closed r1 = true ∧ started r1 = [] ∧
    started r2 = [user 7 1%N].
Proof.
  exists (go_to (post 0 7 ++ sched_steps 2 ++ shutdown 1)).
  exists (go_to (post 0 7 ++ sched_steps 2 ++ shutdown 1 ++ sched_steps 9)).
  split; [apply par_go_to_reach; vm_compute; reflexivity|]. split.
  - eapply (run_reachable _ (sched_steps 9)). vm_compute. reflexivity.
  - split_and!; vm_compute; reflexivity.
Qed.
