(* ===== verification/ParallelSched.v ===== *)
(** * A ParallelTaskRunner with the SingleThreadTaskRunner it contains
    (core/parallel_task_runner.go over core/single_thread_task_runner.go)

    Parallel.v keeps the internal scheduler as a channel of closures with a
    [closed] flag.  Here it is the machine of SingleThread.v: whoever posts a
    closure (a caller, a worker of the pool) or shuts the scheduler down is
    inside a call of that machine, one access at a time, and the closures are
    executed by its loop.  A refinement mapping sends every state of the two to
    a state of Parallel.v. *)

From S2P Require Import Prelude GoSlice Task TaskQueue Parallel.
From S2P Require SingleThread FIFOQueue.
Import SingleThread(SingleThreadTaskRunner, EClosed, EPolicy, ESend, RDone, RPanicked, SOnce,
  SClosed, SChan, LSelect, LAdd, LBody, LSub).

Section composition.
Context {Q T : Type} `{EqDecision T} `{TaskQueue Q (PTask T)}.
Context (maxConcurrency : Z).
Notation Runner := (ParallelTaskRunner Q T).
Notation Single := (SingleThreadTaskRunner (Closure T)).
Implicit Types r : Runner.

(** Who calls the scheduler: a caller of the runner, or a worker of the pool. *)
Definition Poster : Type := nat + nat.

(** In [par] the fields [sched] and [sched_closed] are unused.  [pcalls]: the
    goroutines inside a method of the scheduler, with the number of the call. *)
Record System := MkSystem {
  par : Runner;
  single : Single;
  pcalls : gmap Poster nat;
}.
Definition NewSystem : System := MkSystem runner0 SingleThread.NewSingleThreadTaskRunner ∅.
Definition set_par r (s : System) : System := MkSystem r (single s) (pcalls s).
Definition set_single x (s : System) : System := MkSystem (par s) x (pcalls s).
Definition set_pcalls m (s : System) : System := MkSystem (par s) (single s) m.

(** The call of the scheduler a goroutine is about to make: [PostTask] of a
    closure, or [Shutdown]. *)
Definition post_closure (c : Closure T) : SingleThread.Call (Closure T) :=
  EClosed c DefaultTaskTraits false.
Definition caller_call (c : Caller T) : option (SingleThread.Call (Closure T)) :=
  match c with
  | CPost t traits => Some (post_closure (ClPost t traits))
  | CFlush t | CIdlePost t => Some (post_closure (ClBarrier t))
  | HSched => Some SOnce
  | _ => None
  end.
Definition worker_call (w : Worker T) : option (SingleThread.Call (Closure T)) :=
  match w with
  | WDefer _ => Some (post_closure ClClear)
  | WTry => Some (post_closure ClTry)
  | _ => None
  end.
Definition poster_call (p : Poster) r : option (SingleThread.Call (Closure T)) :=
  match p with
  | inl i => callers r !! i ≫= caller_call
  | inr i => pworkers r !! i ≫= worker_call
  end.

(** ... and where it is when the call has returned. *)
Definition caller_after (c : Caller T) : Caller T :=
  match c with
  | CPost _ _ | CFlush _ => CReturned None
  | CIdlePost t => CWait t
  | HSched => HReturn
  | c => c
  end.
Definition worker_after (w : Worker T) : Worker T :=
  match w with WDefer it => WDec it | WTry => WEnd | w => w end.
Definition poster_return (p : Poster) r : Runner :=
  match p with
  | inl i => set_callers (alter caller_after i (callers r)) r
  | inr i => set_pworkers (alter worker_after i (pworkers r)) r
  end.

(** A step of the runner that does not involve the scheduler's channel. *)
Definition caller_alone (c : Caller T) : bool :=
  match c with CPost _ _ | CFlush _ | CIdlePost _ | CSend _ _ | HSched => false | _ => true end.
Definition worker_alone (w : Worker T) : bool :=
  match w with WDefer _ | WDeferSend _ | WTry | WTrySend => false | _ => true end.
Definition in_closure (s : System) : bool :=
  match SingleThread.loop (single s), pc (par s) with
  | LBody _, SIdle => false
  | LBody _, _ => true
  | _, _ => false
  end.
Definition par_alone (l : Parallel.Label T) (s : System) : bool :=
  match l with
  | LCall _ | LTake _ => true
  | LCaller i _ => match callers (par s) !! i with Some c => caller_alone c | None => false end
  | LWorker i => match pworkers (par s) !! i with Some w => worker_alone w | None => false end
  | LSched _ => in_closure s
  end.

Definition enter_scheduler (p : Poster) (s : System) : option System :=
  match poster_call p (par s), pcalls s !! p with
  | Some c, None =>
      x ← SingleThread.step (SingleThread.LCall c) (single s);
      Some (set_pcalls (<[p := length (SingleThread.calls (single s))]> (pcalls s)) (set_single x s))
  | _, _ => None
  end.
Definition leave_scheduler (p : Poster) (s : System) : option System :=
  j ← pcalls s !! p;
  match SingleThread.calls (single s) !! j with
  | Some (RDone _) => Some (set_pcalls (delete p (pcalls s)) (set_par (poster_return p (par s)) s))
  | _ => None
  end.

(** Where a closure begins. *)
Definition closure_pc (c : Closure T) : SchedPc T :=
  match c with
  | ClPost t traits => SPostCheck t traits
  | ClBarrier t => SBarCheck t
  | ClTry => STry
  | ClClear => SClear
  end.

(** The scheduler's loop: it receives a closure, executes it (the steps of the
    runner's [pc]) and goes on when it has returned; [false]: the context.  The
    closures call no method of the scheduler. *)
Definition loop_step (choice : bool) (s : System) : option System :=
  let go := SingleThread.step (SingleThread.LLoop choice None) (single s) in
  match SingleThread.loop (single s), pc (par s) with
  | LSelect, SIdle =>
      x ← go;
      Some (set_single x (match SingleThread.loop x with
                          | LAdd c => set_par (set_pc (closure_pc c) (par s)) s
                          | _ => s
                          end))
  | LBody _, SIdle => if choice then x ← go; Some (set_single x s) else None
  | LSelect, _ | LBody _, _ | SingleThread.LCalling _ _, _ => None
  | _, _ => x ← go; Some (set_single x s)
  end.

Inductive Label :=
| LPar (l : Parallel.Label T)
| LEnter (p : Poster)
| LSingle (i : nat) (choice : bool)
| LLeave (p : Poster)
| LLoop (choice : bool).

Definition step (l : Label) (s : System) : option System :=
  match l with
  | LPar l =>
      if par_alone l s then r ← Parallel.step maxConcurrency l (par s); Some (set_par r s) else None
  | LEnter p => enter_scheduler p s
  | LSingle i choice =>
      x ← SingleThread.step (SingleThread.LStep i choice) (single s); Some (set_single x s)
  | LLeave p => leave_scheduler p s
  | LLoop choice => loop_step choice s
  end.
End composition.
Arguments System Q T : clear implicits.
Arguments Label T : clear implicits.

(** ** The refinement mapping *)

(** Two maps over an updated list. *)
Lemma imap_update {A B} (f g : nat → A → B) l i x :
  (∀ j z, j ≠ i → f j z = g j z) → i < length l →
  imap g (<[i := x]> l) = <[i := g i x]> (imap f l).
Proof.
  intros Hfg Hi. apply list_eq. intros j. rewrite list_lookup_imap.
  destruct (decide (j = i)) as [->|Hne].
  - rewrite !list_lookup_insert_eq by (rewrite ?length_imap; done). done.
  - rewrite !list_lookup_insert_ne, list_lookup_imap by done.
    destruct (l !! j); simpl; [|done]. by rewrite Hfg.
Qed.

Section mapping.
Context {Q T : Type} `{EqDecision T} `{TaskQueue Q (PTask T)}.
Context (maxConcurrency : Z).
Notation Runner := (ParallelTaskRunner Q T).
Notation Single := (SingleThreadTaskRunner (Closure T)).
Notation System := (System Q T).
Notation step := (step (Q:=Q) (T:=T) maxConcurrency).
Notation pstep := (Parallel.step (Q:=Q) (T:=T) maxConcurrency).
Notation SCall := (SingleThread.Call (Closure T)).
Implicit Types (s : System) (r : Runner) (x : Single) (p : Poster).

(** How far a call of the scheduler is: before the test of [closed] (or its
    setting), past it, or done. *)
Inductive Stage := Before | Sending | Over.
Definition call_stage (c : SCall) : Stage :=
  match c with
  | EClosed _ _ _ | SOnce | SClosed => Before
  | EPolicy _ _ _ | ESend _ _ _ _ _ => Sending
  | _ => Over
  end.
Definition stage s p : Stage :=
  match pcalls s !! p with
  | Some j => from_option call_stage Over (SingleThread.calls (single s) !! j)
  | None => Before
  end.

(** The abstract position of a goroutine whose call is at that stage *)
Definition abs_caller (g : Stage) (c : Caller T) : Caller T :=
  match g with
  | Before => c
  | Sending =>
      match c with
      | CPost t traits => CSend (ClPost t traits) None
      | CFlush t => CSend (ClBarrier t) None
      | CIdlePost t => CSend (ClBarrier t) (Some t)
      | c => c
      end
  | Over => caller_after c
  end.
Definition abs_worker (g : Stage) (w : Worker T) : Worker T :=
  match g with
  | Before => w
  | Sending => match w with WDefer it => WDeferSend it | WTry => WTrySend | w => w end
  | Over => worker_after w
  end.

Definition with_sched (cs : list (Caller T)) (ws : list (Worker T)) (q : list (Closure T)) (cl : bool) r : Runner :=
  Parallel.MkRunner (queue r) (runningCount r) (closed r) (shutdownChan r) (shutdownOnce r)
    (pendingBarrierTask r) (barrierTaskRunning r) (barrierTaskIDs r) q cl (pc r) (next_id r)
    (pool r) (lost r) ws cs (delayed r) (obs r) (posted r) (started r) (cleared r) (log r).
Definition abs_callers s : list (Caller T) :=
  imap (λ i, abs_caller (stage s (inl i))) (callers (par s)).
Definition abs_workers s : list (Worker T) :=
  imap (λ i, abs_worker (stage s (inr i))) (pworkers (par s)).
Definition abs s : Runner :=
  with_sched (abs_callers s) (abs_workers s) (SingleThread.workQueue (single s))
    (SingleThread.closed (single s)) (par s).

(** What a call made as [c] has become *)
Definition call_moved (c c' : SCall) : Prop :=
  match c, c' with
  | EClosed t tr false, EClosed t' tr' false | EClosed t tr false, EPolicy t' tr' false
  | EClosed t tr false, ESend t' tr' false SingleThread.QueuePolicyDrop _ => t' = t ∧ tr' = tr
  | EClosed _ _ false, RDone None => True
  | SOnce, SOnce | SOnce, SClosed | SOnce, SChan | SOnce, RDone None | SOnce, RPanicked => True
  | _, _ => False
  end.
Definition call_done (c : SCall) : bool := match c with RDone _ | RPanicked => true | _ => false end.

Record sched_inv s : Prop := {
  vi_policy : SingleThread.queuePolicy (single s) = SingleThread.QueuePolicyDrop;
  vi_cancelled : SingleThread.cancelled (single s) = false;
  vi_once : SingleThread.shutdownOnce (single s) = SingleThread.OnceDone →
            SingleThread.closed (single s) = true;
  vi_chan : SChan ∈ SingleThread.calls (single s) → SingleThread.closed (single s) = true;
  vi_call p j : pcalls s !! p = Some j →
    ∃ c c', poster_call p (par s) = Some c ∧ SingleThread.calls (single s) !! j = Some c' ∧ call_moved c c';
  vi_inj p p' j : pcalls s !! p = Some j → pcalls s !! p' = Some j → p = p';
  vi_own j c : SingleThread.calls (single s) !! j = Some c → call_done c = false →
    ∃ p, pcalls s !! p = Some j;
}.

(** *** Steps of the runner that leave the scheduler alone *)

Lemma caller_step_frame choice c r c' r' cs ws q cl :
  caller_alone c = true → caller_step choice c r = Some (c', r') →
  caller_step choice c (with_sched cs ws q cl r) = Some (c', with_sched cs ws q cl r') ∧
  callers r' = callers r ∧ pworkers r' = pworkers r.
Proof.
  intros Ha E. destruct c; try discriminate Ha; simpl in *; unfold PostTask_call in *;
    repeat (case_match || (progress simplify_eq/=)); try discriminate; done.
Qed.

Lemma worker_step_frame w r w' r' cs ws q cl :
  worker_alone w = true → worker_step w r = Some (w', r') →
  worker_step w (with_sched cs ws q cl r) = Some (w', with_sched cs ws q cl r') ∧
  callers r' = callers r ∧ pworkers r' = pworkers r.
Proof. intros Ha E. destruct w; try discriminate Ha; simpl in *; by simplify_eq. Qed.

Lemma sched_step_frame choice r r' cs ws q cl :
  pc r ≠ SIdle → sched_step maxConcurrency choice r = Some r' →
  sched_step maxConcurrency choice (with_sched cs ws q cl r) = Some (with_sched cs ws q cl r') ∧
  callers r' = callers r ∧ pworkers r' = pworkers r.
Proof.
  intros Hne E.
  unfold sched_step, PostTask_closure, barrier_closure, tryScheduleInternal_step,
    isBarrierTaskID in *; simpl; destruct (pc r) eqn:Hpc; try done; simpl in *;
    repeat (case_match || (progress simplify_eq/=)); try discriminate; done.
Qed.

Lemma poster_call_ext p r r' :
  callers r' = callers r → pworkers r' = pworkers r → poster_call p r' = poster_call p r.
Proof. intros Hc Hw. unfold poster_call. by rewrite Hc, Hw. Qed.

Lemma caller_alone_call (c : Caller T) : caller_alone c = true → caller_call c = None.
Proof. by destruct c. Qed.
Lemma worker_alone_call (w : Worker T) : worker_alone w = true → worker_call w = None.
Proof. by destruct w. Qed.

Lemma stage_none s p : sched_inv s → poster_call p (par s) = None → stage s p = Before.
Proof.
  intros Hi Hp. unfold stage. destruct (pcalls s !! p) as [j|] eqn:Hj; [|done].
  destruct (vi_call _ Hi _ _ Hj) as (c & c' & Hc & _). by rewrite Hc in Hp.
Qed.

Lemma stage_par s r p : stage (set_par r s) p = stage s p.
Proof. done. Qed.

(** The same calls, posters that make them still *)
Lemma sched_inv_par s r :
  sched_inv s → (∀ p c, poster_call p (par s) = Some c → poster_call p r = Some c) →
  sched_inv (set_par r s).
Proof.
  intros [H1' H2 H3 H4 H5 H6 H7] Hp. split; try done. simpl. intros p j Hj.
  destruct (H5 p j Hj) as (c & c' & ? & ?). exists c, c'. auto.
Qed.

Lemma poster_call_caller i c c' r p y :
  callers r !! i = Some c → caller_alone c = true → poster_call p r = Some y →
  poster_call p (set_callers (<[i:=c']> (callers r)) r) = Some y.
Proof.
  intros Hi Ha Hp. destruct p as [j|j]; simpl in *; [|done].
  rewrite list_lookup_insert_ne; [done|]. intros ->. rewrite Hi in Hp. simpl in Hp.
  by rewrite caller_alone_call in Hp.
Qed.
Lemma poster_call_worker i w w' r p y :
  pworkers r !! i = Some w → worker_alone w = true → poster_call p r = Some y →
  poster_call p (set_pworkers (<[i:=w']> (pworkers r)) r) = Some y.
Proof.
  intros Hi Ha Hp. destruct p as [j|j]; simpl in *; [done|].
  rewrite list_lookup_insert_ne; [done|]. intros ->. rewrite Hi in Hp. simpl in Hp.
  by rewrite worker_alone_call in Hp.
Qed.
Lemma poster_call_lt p r y :
  poster_call p r = Some y →
  match p with inl i => i < length (callers r) | inr i => i < length (pworkers r) end.
Proof. destruct p; simpl; intros (z & Hz & _)%bind_Some; by eapply lookup_lt_Some. Qed.

Lemma stage_caller s i c :
  sched_inv s → callers (par s) !! i = Some c → caller_alone c = true → stage s (inl i) = Before.
Proof. intros Hi Hc Ha. apply stage_none; [done|]. simpl. rewrite Hc. by apply caller_alone_call. Qed.
Lemma stage_worker s i w :
  sched_inv s → pworkers (par s) !! i = Some w → worker_alone w = true → stage s (inr i) = Before.
Proof. intros Hi Hc Ha. apply stage_none; [done|]. simpl. rewrite Hc. by apply worker_alone_call. Qed.

Lemma abs_callers_lookup s i :
  abs_callers s !! i = abs_caller (stage s (inl i)) <$> callers (par s) !! i.
Proof. unfold abs_callers, abs_workers. by rewrite list_lookup_imap. Qed.
Lemma abs_workers_lookup s i :
  abs_workers s !! i = abs_worker (stage s (inr i)) <$> pworkers (par s) !! i.
Proof. unfold abs_callers, abs_workers. by rewrite list_lookup_imap. Qed.

(** A goroutine outside the scheduler moves, or none does. *)
Lemma abs_callers_alone s r i c c' :
  sched_inv s → callers (par s) !! i = Some c → caller_alone c = true →
  callers r = <[i:=c']> (callers (par s)) → abs_callers (set_par r s) = <[i := c']> (abs_callers s).
Proof.
  intros Hi Hc Ha Hr. unfold abs_callers. simpl. rewrite Hr.
  rewrite (imap_update (λ j, abs_caller (stage s (inl j)))) by (done || by eapply lookup_lt_Some).
  by rewrite stage_par, (stage_caller _ _ _ Hi Hc Ha).
Qed.
Lemma abs_workers_alone s r i w w' :
  sched_inv s → pworkers (par s) !! i = Some w → worker_alone w = true →
  pworkers r = <[i:=w']> (pworkers (par s)) → abs_workers (set_par r s) = <[i := w']> (abs_workers s).
Proof.
  intros Hi Hc Ha Hr. unfold abs_workers. simpl. rewrite Hr.
  rewrite (imap_update (λ j, abs_worker (stage s (inr j)))) by (done || by eapply lookup_lt_Some).
  by rewrite stage_par, (stage_worker _ _ _ Hi Hc Ha).
Qed.
Lemma abs_callers_same s r : callers r = callers (par s) → abs_callers (set_par r s) = abs_callers s.
Proof. intros Hr. unfold abs_callers. simpl. by rewrite Hr. Qed.
Lemma abs_workers_same s r : pworkers r = pworkers (par s) → abs_workers (set_par r s) = abs_workers s.
Proof. intros Hr. unfold abs_workers. simpl. by rewrite Hr. Qed.

(** The mapping after a step of the runner *)
Lemma abs_par_eq s r cs ws :
  abs_callers (set_par r s) = cs → abs_workers (set_par r s) = ws →
  abs (set_par r s) =
    with_sched cs ws (SingleThread.workQueue (single s)) (SingleThread.closed (single s)) r.
Proof. by intros <- <-. Qed.

Lemma abs_par s l r :
  sched_inv s → par_alone l s = true → pstep l (par s) = Some r →
  pstep l (abs s) = Some (abs (set_par r s)) ∧ sched_inv (set_par r s).
Proof.
  intros Hi Ha E. destruct l as [c|i choice|choice|k|i]; cbn in Ha, E.
  - destruct (entry c) eqn:He; [|done]. injection E as <-. split.
    + cbn. rewrite He. f_equal.
      rewrite (abs_par_eq s _ (abs_callers s ++ [c]) (abs_workers s)); [done| |by apply abs_workers_same].
      unfold abs_callers. simpl. rewrite imap_app. simpl.
      by rewrite stage_par, (stage_none s) by (done || (simpl; by rewrite lookup_ge_None_2 by lia)).
    + apply sched_inv_par; [done|]. intros [j|j] y Hy; [|done]. simpl in *.
      apply bind_Some in Hy as (c0 & Hc0 & Hy). by rewrite (lookup_app_l_Some _ _ _ _ Hc0).
  - destruct (callers (par s) !! i) as [c|] eqn:Hc; [|done]. cbn in E.
    destruct (caller_step choice c (par s)) as [[c' r']|] eqn:Es; [|done]. injection E as <-.
    destruct (caller_step_frame _ _ _ _ _ (abs_callers s) (abs_workers s)
      (SingleThread.workQueue (single s)) (SingleThread.closed (single s)) Ha Es) as (Ea & Hr & Hw).
    split.
    + cbn. rewrite abs_callers_lookup, Hc. cbn. rewrite (stage_caller _ _ _ Hi Hc Ha). cbn.
      unfold abs at 1. rewrite Ea. cbn. f_equal.
      rewrite (abs_par_eq s _ (<[i:=c']> (abs_callers s)) (abs_workers s)); [done| |].
      * apply (abs_callers_alone s _ i c c'); simpl; by rewrite ?Hr.
      * by apply abs_workers_same.
    + apply sched_inv_par; [done|]. intros p y Hy.
      apply (poster_call_caller i c c' _ _ _ Hc Ha) in Hy. destruct p; simpl in *; by rewrite ?Hr, ?Hw.
  - unfold in_closure in Ha.
    assert (pc (par s) ≠ SIdle) as Hne by (intros Hpc; rewrite Hpc in Ha; by case_match).
    destruct (sched_step_frame choice (par s) r (abs_callers s) (abs_workers s)
      (SingleThread.workQueue (single s)) (SingleThread.closed (single s)) Hne E) as (Ea & Hr & Hw).
    split.
    + cbn. unfold abs at 1. rewrite Ea. f_equal.
      rewrite (abs_par_eq s r (abs_callers s) (abs_workers s)); [done| |];
        [by apply abs_callers_same|by apply abs_workers_same].
    + apply sched_inv_par; [done|]. intros p y. by rewrite (poster_call_ext p (par s) r).
  - destruct (pool (par s) !! k) as [it|] eqn:Hk; [|done]. cbn in E. injection E as <-. split.
    + cbn. rewrite Hk. cbn. f_equal.
      rewrite (abs_par_eq s _ (abs_callers s) (abs_workers s ++ [WRun it])); [done| |];
        [by apply abs_callers_same|].
      unfold abs_workers. simpl. rewrite imap_app. simpl.
      by rewrite stage_par, (stage_none s) by (done || (simpl; by rewrite lookup_ge_None_2 by lia)).
    + apply sched_inv_par; [done|]. intros [j|j] y Hy; [done|]. simpl in *.
      apply bind_Some in Hy as (c0 & Hc0 & Hy). by rewrite (lookup_app_l_Some _ _ _ _ Hc0).
  - destruct (pworkers (par s) !! i) as [w|] eqn:Hc; [|done]. cbn in E.
    destruct (worker_step w (par s)) as [[w' r']|] eqn:Es; [|done]. injection E as <-.
    destruct (worker_step_frame _ _ _ _ (abs_callers s) (abs_workers s)
      (SingleThread.workQueue (single s)) (SingleThread.closed (single s)) Ha Es) as (Ea & Hr & Hw).
    split.
    + cbn. rewrite abs_workers_lookup, Hc. cbn. rewrite (stage_worker _ _ _ Hi Hc Ha). cbn.
      unfold abs at 1. rewrite Ea. cbn. f_equal.
      rewrite (abs_par_eq s _ (abs_callers s) (<[i:=w']> (abs_workers s))); [done| |].
      * by apply abs_callers_same.
      * apply (abs_workers_alone s _ i w w'); simpl; by rewrite ?Hw.
    + apply sched_inv_par; [done|]. intros p y Hy.
      apply (poster_call_worker i w w' _ _ _ Hc Ha) in Hy. destruct p; simpl in *; by rewrite ?Hr, ?Hw.
Qed.

(** *** Calls of the scheduler *)

Lemma poster_call_entry p r c : poster_call p r = Some c → c = SOnce ∨ ∃ cl, c = post_closure cl.
Proof.
  intros Hp. destruct p; simpl in Hp; apply bind_Some in Hp as (z & _ & Hz);
    destruct z; try discriminate Hz; simpl in Hz; simplify_eq; eauto.
Qed.

Lemma entry_facts c :
  c = SOnce ∨ (∃ cl, c = post_closure cl) →
  SingleThread.entry c = true ∧ call_stage c = Before ∧ call_moved c c ∧ c ≠ SChan.
Proof. intros [->|[cl ->]]; by split_and!. Qed.

(** Two states with the same runner and the same positions *)
Lemma abs_same s s' :
  par s' = par s → (∀ p, stage s' p = stage s p) →
  SingleThread.workQueue (single s') = SingleThread.workQueue (single s) →
  SingleThread.closed (single s') = SingleThread.closed (single s) → abs s' = abs s.
Proof.
  intros Hp Hst Hq Hc. unfold abs, abs_callers, abs_workers. rewrite Hp, Hq, Hc. f_equal;
    apply imap_ext; intros i z _; by rewrite Hst.
Qed.

Lemma abs_enter s s' p : sched_inv s → enter_scheduler p s = Some s' → abs s' = abs s ∧ sched_inv s'.
Proof.
  intros Hi E. unfold enter_scheduler in E.
  destruct (poster_call p (par s)) as [c|] eqn:Hp; [|done].
  destruct (pcalls s !! p) as [j|] eqn:Hc; [done|].
  destruct (entry_facts c (poster_call_entry _ _ _ Hp)) as (He & Hst & Hmv & Hch).
  cbn in E. rewrite He in E. cbn in E. injection E as <-.
  assert (∀ p' j, pcalls s !! p' = Some j → j < length (SingleThread.calls (single s))) as Hlt.
  { intros p' j Hj. destruct (vi_call _ Hi _ _ Hj) as (_ & c' & _ & Hl & _). by eapply lookup_lt_Some. }
  assert (∀ p', stage (set_pcalls (<[p:=length (SingleThread.calls (single s))]> (pcalls s))
     (set_single (SingleThread.set_calls (SingleThread.calls (single s) ++ [c]) (single s)) s)) p' = stage s p') as Hstage.
  { intros p'. unfold stage. simpl. destruct (decide (p' = p)) as [->|Hne].
    - rewrite lookup_insert_eq, lookup_snoc_length, Hc. simpl. by rewrite Hst.
    - rewrite lookup_insert_ne by done. destruct (pcalls s !! p') as [j|] eqn:Hj; [|done].
      by rewrite lookup_app_l by eauto. }
  split; [by apply abs_same|]. destruct Hi as [H1' H2 H3 H4 H5 H6 H7]. split; simpl; try done.
  - intros [?|Hin%list_elem_of_singleton]%elem_of_app; [auto|congruence].
  - intros p' j [[<- <-]|[Hne Hj]]%lookup_insert_Some.
    + exists c, c. by rewrite lookup_snoc_length.
    + destruct (H5 _ _ Hj) as (y & y' & ? & ? & ?). exists y, y'. split_and!; [done|by apply lookup_app_l_Some|done].
  - intros p1 p2 j [[<- <-]|[Hn1 Hj1]]%lookup_insert_Some [[<- Hj]|[Hn2 Hj2]]%lookup_insert_Some;
      [done|apply Hlt in Hj2; lia|subst; apply Hlt in Hj1; lia|eauto].
  - intros j y Hj Hd. apply lookup_snoc_Some in Hj as [[_ Hj]|[<- <-]].
    + destruct (H7 _ _ Hj Hd) as [p' Hp']. exists p'. rewrite lookup_insert_ne; [done|]. congruence.
    + exists p. by rewrite lookup_insert_eq.
Qed.

(** What returns from the scheduler was over before. *)
Lemma poster_return_call p p' r y :
  p' ≠ p → poster_call p' r = Some y → poster_call p' (poster_return p r) = Some y.
Proof.
  intros Hne Hp. destruct p as [i|i], p' as [i'|i']; simpl in *; try done;
    by rewrite list_lookup_alter_ne by congruence.
Qed.
Lemma abs_leave s s' p : sched_inv s → leave_scheduler p s = Some s' → abs s' = abs s ∧ sched_inv s'.
Proof.
  intros Hi E. unfold leave_scheduler in E.
  destruct (pcalls s !! p) as [j|] eqn:Hj; [|done]. cbn in E.
  destruct (SingleThread.calls (single s) !! j) as [c|] eqn:Hc; [|done].
  destruct c as [| | | | | | | | | | | | | | | | | | | |w| | |]; try discriminate E. injection E as <-.
  assert (stage s p = Over) as Hst by (unfold stage; by rewrite Hj; simpl; rewrite Hc).
  set (s' := set_pcalls _ _).
  assert (stage s' p = Before) as Hst' by (unfold stage; simpl; by rewrite lookup_delete_eq).
  assert (∀ p', p' ≠ p → stage s' p' = stage s p') as Hne.
  { intros p' Hne. unfold stage. simpl. by rewrite lookup_delete_ne. }
  split.
  - unfold abs. assert (abs_callers s' = abs_callers s ∧ abs_workers s' = abs_workers s) as [-> ->].
    { split; apply list_eq; intros k; rewrite ?abs_callers_lookup, ?abs_workers_lookup;
        destruct p as [i|i]; simpl;
        try (rewrite Hne by done; done);
        (destruct (decide (k = i)) as [->|Hk];
           [|by rewrite list_lookup_alter_ne, Hne by congruence]).
      - rewrite list_lookup_alter_eq, Hst, Hst'. by destruct (callers (par s) !! i).
      - rewrite list_lookup_alter_eq, Hst, Hst'. by destruct (pworkers (par s) !! i). }
    by destruct p.
  - destruct Hi as [H1' H2 H3 H4 H5 H6 H7]. split; simpl; try done.
    + intros p' j' [Hn Hj']%lookup_delete_Some. destruct (H5 _ _ Hj') as (y & y' & ? & ?).
      exists y, y'. split; [|done]. by apply poster_return_call.
    + intros p1 p2 j' [_ ?]%lookup_delete_Some [_ ?]%lookup_delete_Some. eauto.
    + intros j' y Hy Hd. destruct (H7 _ _ Hy Hd) as [p' Hp']. exists p'.
      apply lookup_delete_Some. split; [|done]. intros <-. rewrite Hj in Hp'. simplify_eq.
Qed.

(** *** Steps of the calls *)

(** The other calls are as they were. *)
Lemma stage_single s x p j c :
  pcalls s !! p = Some j → SingleThread.calls x = <[j := c]> (SingleThread.calls (single s)) →
  j < length (SingleThread.calls (single s)) → sched_inv s →
  stage (set_single x s) p = call_stage c ∧ (∀ p', p' ≠ p → stage (set_single x s) p' = stage s p').
Proof.
  intros Hj Hx Hlt Hi. split.
  - unfold stage. simpl. rewrite Hj, Hx. by rewrite list_lookup_insert_eq.
  - intros p' Hne. unfold stage. simpl. destruct (pcalls s !! p') as [j'|] eqn:Hj'; [|done].
    rewrite Hx, list_lookup_insert_ne; [done|]. intros ->. by destruct Hne; eapply (vi_inj _ Hi).
Qed.

Lemma sched_inv_single s x p j c c0 :
  sched_inv s → pcalls s !! p = Some j → poster_call p (par s) = Some c0 → call_moved c0 c →
  SingleThread.calls x = <[j := c]> (SingleThread.calls (single s)) →
  SingleThread.queuePolicy x = SingleThread.queuePolicy (single s) →
  SingleThread.cancelled x = SingleThread.cancelled (single s) →
  (SingleThread.closed (single s) = true → SingleThread.closed x = true) →
  (SingleThread.shutdownOnce x = SingleThread.OnceDone → SingleThread.closed x = true) →
  (c = SChan → SingleThread.closed x = true) →
  sched_inv (set_single x s).
Proof.
  intros Hi Hj Hp Hm Hx Hq Hca Hcl Ho Hch. destruct Hi as [H1' H2 H3 H4 H5 H6 H7].
  split; simpl; rewrite ?Hq, ?Hca; try done.
  - rewrite Hx. intros [k Hk]%list_elem_of_lookup.
    apply list_lookup_insert_Some in Hk as [(-> & E & _)|[_ Hk]]; [by apply Hch|].
    apply Hcl, H4. by eapply list_elem_of_lookup_2.
  - intros p' j' Hj'. rewrite Hx. destruct (decide (p' = p)) as [->|Hne].
    + simplify_eq. exists c0, c. destruct (H5 _ _ Hj) as (_ & y & _ & Hy & _).
      rewrite list_lookup_insert_eq by (by eapply lookup_lt_Some). done.
    + destruct (H5 _ _ Hj') as (y & y' & ? & ? & ?). exists y, y'.
      rewrite list_lookup_insert_ne; [done|]. intros ->. by destruct Hne; eapply H6.
  - intros j' y Hy Hd. rewrite Hx in Hy.
    apply list_lookup_insert_Some in Hy as [(-> & <- & _)|[_ Hy]]; eauto.
Qed.
(** *** What a call does to the abstract runner *)

Definition poster_label p : Parallel.Label T :=
  match p with inl i => LCaller i true | inr i => LWorker i end.
(** The abstract runner with the goroutine at another stage *)
Definition at_stage p (g : Stage) (q : list (Closure T)) (cl : bool) s : Runner :=
  match p with
  | inl i => with_sched (from_option (λ c, <[i := abs_caller g c]> (abs_callers s)) [] (callers (par s) !! i))
               (abs_workers s) q cl (par s)
  | inr i => with_sched (abs_callers s)
               (from_option (λ w, <[i := abs_worker g w]> (abs_workers s)) [] (pworkers (par s) !! i))
               q cl (par s)
  end.

Lemma abs_at_stage s x p g y :
  poster_call p (par s) = Some y → stage (set_single x s) p = g →
  (∀ p', p' ≠ p → stage (set_single x s) p' = stage s p') →
  abs (set_single x s) = at_stage p g (SingleThread.workQueue x) (SingleThread.closed x) s.
Proof.
  intros Hp Hg Hne. unfold abs, at_stage.
  destruct p as [i|i]; simpl in Hp; apply bind_Some in Hp as (z & Hz & _); rewrite Hz; simpl; f_equal.
  - unfold abs_callers. simpl.
    rewrite <- (list_insert_id (callers (par s)) i z Hz) at 1.
    rewrite (imap_update (λ j, abs_caller (stage s (inl j)))); [by rewrite Hg| |by eapply lookup_lt_Some].
    intros k c Hk. rewrite Hne; [done|congruence].
  - unfold abs_workers. apply imap_ext. intros k w _. by rewrite Hne.
  - unfold abs_callers. apply imap_ext. intros k w _. by rewrite Hne.
  - unfold abs_workers. simpl.
    rewrite <- (list_insert_id (pworkers (par s)) i z Hz) at 1.
    rewrite (imap_update (λ j, abs_worker (stage s (inr j)))); [by rewrite Hg| |by eapply lookup_lt_Some].
    intros k c Hk. rewrite Hne; [done|congruence].
Qed.

(** The test of [closed] *)
Lemma abs_check s p cl :
  poster_call p (par s) = Some (post_closure cl) → stage s p = Before →
  pstep (poster_label p) (abs s) =
    Some (at_stage p (if SingleThread.closed (single s) then Over else Sending)
            (SingleThread.workQueue (single s)) (SingleThread.closed (single s)) s).
Proof.
  intros Hp Hst. destruct p as [i|i]; simpl in Hp; apply bind_Some in Hp as (z & Hz & Hc); cbn;
    rewrite ?abs_callers_lookup, ?abs_workers_lookup, Hz, Hst; cbn;
    destruct z; try discriminate Hc; unfold PostTask_call, scheduler_check, abs, with_sched; cbn;
    by destruct (SingleThread.closed (single s)).
Qed.

(** The send *)
Lemma abs_send s p cl :
  poster_call p (par s) = Some (post_closure cl) → stage s p = Sending →
  length (SingleThread.workQueue (single s)) < SingleThread.queue_cap →
  pstep (poster_label p) (abs s) =
    Some (at_stage p Over (SingleThread.workQueue (single s) ++ [cl]) (SingleThread.closed (single s)) s).
Proof.
  intros Hp Hst Hroom. destruct p as [i|i]; simpl in Hp; apply bind_Some in Hp as (z & Hz & Hc); cbn;
    rewrite ?abs_callers_lookup, ?abs_workers_lookup, Hz, Hst; cbn;
    destruct z; try discriminate Hc; injection Hc as <-; cbn;
    unfold scheduler_send; cbn -[SingleThread.queue_cap]; by rewrite bool_decide_true by exact Hroom.
Qed.

(** [Shutdown] of the scheduler *)
Lemma abs_close s p :
  poster_call p (par s) = Some SOnce → stage s p = Before →
  pstep (poster_label p) (abs s) = Some (at_stage p Over (SingleThread.workQueue (single s)) true s).
Proof.
  intros Hp Hst. destruct p as [i|i]; simpl in Hp; apply bind_Some in Hp as (z & Hz & Hc);
    destruct z; try discriminate Hc. cbn. by rewrite abs_callers_lookup, Hz, Hst.
Qed.

Lemma at_stage_same s p y :
  poster_call p (par s) = Some y →
  at_stage p (stage s p) (SingleThread.workQueue (single s)) (SingleThread.closed (single s)) s = abs s.
Proof. intros Hp. symmetry. rewrite <- (abs_at_stage s (single s) p (stage s p) y); by destruct s. Qed.
(** A call that moves to another stage, with its invariant *)
Lemma single_moved s j p x c c0 :
  sched_inv s → pcalls s !! p = Some j → poster_call p (par s) = Some c0 → call_moved c0 c →
  SingleThread.calls x = <[j := c]> (SingleThread.calls (single s)) →
  SingleThread.queuePolicy x = SingleThread.queuePolicy (single s) →
  SingleThread.cancelled x = SingleThread.cancelled (single s) →
  (SingleThread.closed (single s) = true → SingleThread.closed x = true) →
  (SingleThread.shutdownOnce x = SingleThread.OnceDone → SingleThread.closed x = true) →
  (c = SChan → SingleThread.closed x = true) →
  sched_inv (set_single x s) ∧
  abs (set_single x s) =
    at_stage p (call_stage c) (SingleThread.workQueue x) (SingleThread.closed x) s.
Proof.
  intros Hi Hj Hp Hm Hx Hq Hca Hcl Ho Hch. split; [by eapply sched_inv_single|].
  destruct (vi_call _ Hi _ _ Hj) as (_ & y & _ & Hy & _). apply lookup_lt_Some in Hy.
  destruct (stage_single s x p j c Hj Hx Hy Hi). by eapply abs_at_stage.
Qed.

(** The call [j] of [p] has moved to [c]. *)
Ltac single_to s j p c Ha :=
  match goal with
  | Hi : sched_inv s, Hp : poster_call p (par s) = Some ?c0 |- context [set_single ?x s] =>
      destruct (single_moved s j p x c c0) as [? Ha]; simpl;
        [(done || exact (vi_once _ Hi))..|]
  end.

(** The call stays where it is for the abstract runner. *)
Lemma abs_stutter s p y x :
  poster_call p (par s) = Some y →
  abs (set_single x s) = at_stage p (stage s p) (SingleThread.workQueue x) (SingleThread.closed x) s →
  SingleThread.workQueue x = SingleThread.workQueue (single s) →
  SingleThread.closed x = SingleThread.closed (single s) →
  run pstep [] (abs s) = Some (abs (set_single x s)).
Proof. intros Hp -> -> ->. cbn. by rewrite (at_stage_same _ _ _ Hp). Qed.

Lemma run_one (l : Parallel.Label T) (a a' : Runner) : pstep l a = Some a' → run pstep [l] a = Some a'.
Proof. intros E. cbn [run]. by rewrite E. Qed.

Lemma single_shutdown s j p c choice x :
  sched_inv s → pcalls s !! p = Some j → poster_call p (par s) = Some SOnce →
  SingleThread.calls (single s) !! j = Some c → call_moved SOnce c →
  SingleThread.step (SingleThread.LStep j choice) (single s) = Some x →
  ∃ ls, run pstep ls (abs s) = Some (abs (set_single x s)) ∧ sched_inv (set_single x s).
Proof.
  intros Hi Hj Hp Hc Hm E.
  assert (stage s p = call_stage c) as Hst by (unfold stage; by rewrite Hj; simpl; rewrite Hc).
  pose proof (vi_once _ Hi) as Ho. cbn in E. rewrite Hc in E.
  destruct c; try done; cbn in E.
  - destruct (SingleThread.shutdownOnce (single s)) eqn:Hs; simplify_eq/=.
    + single_to s j p (SClosed (T:=Closure T)) Ha.
      exists []. split; [|done]. eapply abs_stutter; eauto. by rewrite Hst.
    + single_to s j p (RDone (T:=Closure T) None) Ha.
      exists [poster_label p]. split; [|done]. apply run_one. rewrite (abs_close s p) by done.
      rewrite Ha. simpl. by rewrite Ho.
  - injection E as <-. single_to s j p (SChan (T:=Closure T)) Ha.
    exists [poster_label p]. split; [|done]. apply run_one. rewrite (abs_close s p) by done.
    by rewrite Ha.
  - assert (SingleThread.closed (single s) = true) as Hcl.
    { apply (vi_chan _ Hi). by eapply list_elem_of_lookup_2. }
    exists []. destruct (SingleThread.shutdownChan (single s)); injection E as <-.
    + single_to s j p (RPanicked (T:=Closure T)) Ha. split; [|done].
      eapply abs_stutter; eauto. by rewrite Hst.
    + single_to s j p (RDone (T:=Closure T) None) Ha. split; [|done].
      eapply abs_stutter; eauto. by rewrite Hst.
Qed.

Lemma single_post s j p c cl choice x :
  sched_inv s → pcalls s !! p = Some j → poster_call p (par s) = Some (post_closure cl) →
  SingleThread.calls (single s) !! j = Some c → call_moved (post_closure cl) c →
  SingleThread.step (SingleThread.LStep j choice) (single s) = Some x →
  ∃ ls, run pstep ls (abs s) = Some (abs (set_single x s)) ∧ sched_inv (set_single x s).
Proof.
  intros Hi Hj Hp Hc Hm E.
  assert (stage s p = call_stage c) as Hst by (unfold stage; by rewrite Hj; simpl; rewrite Hc).
  pose proof (vi_cancelled _ Hi) as Hca. pose proof (vi_policy _ Hi) as Hpol. cbn in E. rewrite Hc in E.
  destruct c as [|t tr w|t tr w|t tr w pol cb| | | | | | | | | | | | | | | | |w| | |]; try done;
    try (destruct w; try done); cbn in E.
  - destruct Hm as [-> ->]. injection E as <-.
    exists [poster_label p]. rewrite (run_one _ _ _ (abs_check s p cl Hp Hst)).
    destruct (SingleThread.closed (single s)) eqn:Hcl.
    + single_to s j p (RDone (T:=Closure T) None) Ha. by rewrite Ha; simpl; rewrite Hcl.
    + single_to s j p (EPolicy cl DefaultTaskTraits false) Ha. by rewrite Ha; simpl; rewrite Hcl.
  - destruct Hm as [-> ->]. injection E as <-. rewrite Hpol.
    single_to s j p (ESend cl DefaultTaskTraits false SingleThread.QueuePolicyDrop
      (SingleThread.rejectionCallback (single s))) Ha.
    exists []. split; [|done]. eapply abs_stutter; eauto. by rewrite Hst.
  - destruct pol; try done. destruct Hm as [-> ->]. cbn -[SingleThread.queue_cap] in E. rewrite Hca in E.
    destruct choice; [|done]. case_bool_decide as Hroom; [|done]. injection E as <-.
    single_to s j p (RDone (T:=Closure T) None) Ha.
    exists [poster_label p]. split; [|done]. apply run_one. rewrite (abs_send s p cl) by done.
    by rewrite Ha.
Qed.

Lemma abs_single s j choice x :
  sched_inv s → SingleThread.step (SingleThread.LStep j choice) (single s) = Some x →
  ∃ ls, run pstep ls (abs s) = Some (abs (set_single x s)) ∧ sched_inv (set_single x s).
Proof.
  intros Hi E. destruct (SingleThread.calls (single s) !! j) as [c|] eqn:Hc; [|cbn in E; by rewrite Hc in E].
  destruct (call_done c) eqn:Hd; [cbn in E; rewrite Hc in E; by destruct c|].
  destruct (vi_own _ Hi _ _ Hc Hd) as [p Hj].
  destruct (vi_call _ Hi _ _ Hj) as (c0 & c' & Hp & Hc' & Hm). simplify_eq.
  destruct (poster_call_entry _ _ _ Hp) as [->|[cl ->]];
    eauto using single_shutdown, single_post.
Qed.

(** *** The loop *)

Lemma sched_inv_loop s x r :
  sched_inv s → SingleThread.calls x = SingleThread.calls (single s) →
  SingleThread.queuePolicy x = SingleThread.queuePolicy (single s) →
  SingleThread.cancelled x = SingleThread.cancelled (single s) →
  SingleThread.closed x = SingleThread.closed (single s) →
  SingleThread.shutdownOnce x = SingleThread.shutdownOnce (single s) →
  callers r = callers (par s) → pworkers r = pworkers (par s) →
  sched_inv (set_single x (set_par r s)) ∧
  abs (set_single x (set_par r s)) =
    with_sched (abs_callers s) (abs_workers s) (SingleThread.workQueue x) (SingleThread.closed (single s)) r.
Proof.
  intros [H1' H2 H3 H4 H5 H6 H7] Hc Hq Hca Hcl Ho Hr Hw. split.
  - split; simpl; rewrite ?Hc, ?Hq, ?Hca, ?Hcl, ?Ho; try done. intros p j Hj.
    rewrite (poster_call_ext p (par s)) by done. by apply H5.
  - assert (∀ p, stage (set_single x (set_par r s)) p = stage s p) as Hst.
    { intros p. unfold stage. simpl. by rewrite Hc. }
    unfold abs. simpl. rewrite Hcl. f_equal.
    + unfold abs_callers. simpl. rewrite Hr. apply imap_ext. intros. by rewrite Hst.
    + unfold abs_workers. simpl. rewrite Hw. apply imap_ext. intros. by rewrite Hst.
Qed.

Lemma abs_loop s s' choice :
  sched_inv s → loop_step choice s = Some s' →
  ∃ ls, run pstep ls (abs s) = Some (abs s') ∧ sched_inv s'.
Proof.
  intros Hi E. unfold loop_step in E. pose proof (vi_cancelled _ Hi) as Hca.
  assert (∀ x, SingleThread.loop_step choice None (single s) = Some x →
    SingleThread.calls x = SingleThread.calls (single s) →
    SingleThread.queuePolicy x = SingleThread.queuePolicy (single s) →
    SingleThread.cancelled x = SingleThread.cancelled (single s) →
    SingleThread.closed x = SingleThread.closed (single s) →
    SingleThread.shutdownOnce x = SingleThread.shutdownOnce (single s) →
    SingleThread.workQueue x = SingleThread.workQueue (single s) →
    s' = set_single x s → ∃ ls, run pstep ls (abs s) = Some (abs s') ∧ sched_inv s') as Hquiet.
  { intros x _ E1 E2 E3 E4 E5 E6 ->. exists [].
    destruct (sched_inv_loop s x (par s)) as [Hi' Ha]; try done.
    rewrite E6 in Ha. cbn [run]. split; [|by destruct s]. f_equal. symmetry. by destruct s. }
  cbn [SingleThread.step] in E.
  destruct (SingleThread.loop_step choice None (single s)) as [x|] eqn:Ex;
    [|by repeat case_match].
  pose proof Ex as Ex'. unfold SingleThread.loop_step in Ex'.
  destruct (SingleThread.loop (single s)) as [|c|c|c y|c [|]|c| |] eqn:Hloop; try done;
    try (simplify_eq/=; by eapply (Hquiet _ eq_refl)).
  - destruct (pc (par s)) eqn:Hpc; try done. rewrite Hca in Ex'. destruct choice; [|done].
    destruct (SingleThread.workQueue (single s)) as [|c q] eqn:Hq; [done|]. simplify_eq/=.
    destruct (sched_inv_loop s (SingleThread.add_log (EStart c)
        (SingleThread.set_loop (LAdd c) (SingleThread.set_work q (single s))))
      (set_pc (closure_pc c) (par s))) as [Hi' Ha]; try done.
    exists [LSched true]. split; [|exact Hi']. apply run_one. rewrite Ha. cbn.
    unfold sched_step. cbn. by rewrite Hpc, Hq.
  - destruct (pc (par s)) eqn:Hpc; try done. destruct choice; [|done]. simplify_eq/=.
    by eapply (Hquiet _ eq_refl).
Qed.

(** Every step of the two is mapped to steps of Parallel.v. *)
Lemma abs_step s l s' :
  sched_inv s → step l s = Some s' → ∃ ls, run pstep ls (abs s) = Some (abs s') ∧ sched_inv s'.
Proof.
  intros Hi E. destruct l as [l|p|j choice|p|choice]; cbn [step ParallelSched.step] in E.
  - destruct (par_alone l s) eqn:Ha; [|done].
    destruct (Parallel.step maxConcurrency l (par s)) as [r|] eqn:Er; [|done]. injection E as <-.
    destruct (abs_par s l r Hi Ha Er) as [Ea Hi']. exists [l]. split; [by apply run_one|done].
  - destruct (abs_enter s s' p Hi E) as [Ha Hi']. exists []. cbn. by rewrite Ha.
  - destruct (SingleThread.step (SingleThread.LStep j choice) (single s)) as [x|] eqn:Ex; [|done].
    injection E as <-. by eapply abs_single.
  - destruct (abs_leave s s' p Hi E) as [Ha Hi']. exists []. cbn. by rewrite Ha.
  - by eapply abs_loop.
Qed.

Lemma sched_inv_init : sched_inv NewSystem.
Proof. split; try done. simpl. by intros ?%elem_of_nil. Qed.

(** What Parallel.v proves holds of the runner with its scheduler. *)
Lemma sched_refines s :
  reachable step NewSystem s → reachable pstep runner0 (abs s) ∧ sched_inv s.
Proof.
  induction 1 as [|l s s' _ [IH Hi] E]; [split; [constructor|apply sched_inv_init]|].
  destruct (abs_step _ _ _ Hi E) as (ls & Ha & Hi'). split; [|done].
  eapply reachable_trans; [exact IH|]. by eapply run_reachable.
Qed.

(** Between two closures the scheduler is idle: the guards of [loop_step] on
    [pc] never hold the loop up. *)
Definition idle_ok s : Prop :=
  match SingleThread.loop (single s) with
  | LAdd _ | LBody _ => True
  | SingleThread.LCalling _ _ => False
  | _ => pc (par s) = SIdle
  end.

Lemma par_alone_pc s l r :
  par_alone l s = true → pstep l (par s) = Some r → (∀ t, SingleThread.loop (single s) ≠ LBody t) →
  pc r = pc (par s).
Proof.
  intros Ha E Hl. destruct l as [c|i choice|choice|k|i]; cbn in Ha, E.
  - destruct (entry c); by simplify_eq/=.
  - destruct (callers (par s) !! i) as [c|]; [|done]. cbn in E.
    destruct c; try discriminate Ha; cbn in E; repeat (case_match || simplify_eq/=); done.
  - unfold in_closure in Ha. destruct (SingleThread.loop (single s)) as [| |t| | | | |] eqn:E1; try done.
    by destruct (Hl t).
  - destruct (pool (par s) !! k); [|done]. by simplify_eq/=.
  - destruct (pworkers (par s) !! i) as [w|]; [|done]. cbn in E.
    destruct w; try discriminate Ha; by simplify_eq/=.
Qed.

Lemma idle_ok_step s l s' : idle_ok s → step l s = Some s' → idle_ok s'.
Proof.
  intros Hi E. unfold idle_ok in *.
  destruct l as [l|p|j choice|p|choice]; cbn [step ParallelSched.step] in E.
  - destruct (par_alone l s) eqn:Ha; [|done].
    destruct (Parallel.step maxConcurrency l (par s)) as [r|] eqn:Er; [|done]. injection E as <-. cbn.
    pose proof (par_alone_pc s l r Ha Er) as Hpc.
    destruct (SingleThread.loop (single s)); try done; by rewrite Hpc.
  - unfold enter_scheduler in E. destruct (poster_call p (par s)) as [c|]; [|done].
    destruct (pcalls s !! p); [done|]. cbn in E. destruct (SingleThread.entry c); by simplify_eq/=.
  - cbn in E. destruct (SingleThread.calls (single s) !! j) as [c|]; [|done]. cbn in E.
    destruct (SingleThread.call_step choice c (single s)) as [[c' x]|] eqn:Ec; [|done].
    injection E as <-. cbn. apply SingleThread.call_step_frame in Ec as (-> & _). done.
  - unfold leave_scheduler in E. destruct (pcalls s !! p) as [n|]; [|done]. cbn in E.
    destruct (SingleThread.calls (single s) !! n) as [[]|]; try discriminate E. injection E as <-.
    by destruct p.
  - unfold loop_step in E. cbn in E. unfold SingleThread.loop_step in E.
    destruct (SingleThread.loop (single s)); destruct (pc (par s)) eqn:Hpc; try done;
      repeat (case_match || simplify_eq/=); done.
Qed.

Lemma loop_idle s : reachable step NewSystem s → idle_ok s.
Proof. apply (reachable_invariant step); [done|]. intros l s1 s2. apply idle_ok_step. Qed.

(** Nothing ever ends the loop of the internal scheduler. *)
Definition loop_lives s : Prop :=
  SingleThread.stopped (single s) = false ∧
  match SingleThread.loop (single s) with
  | SingleThread.LClose | SingleThread.LStopped => False
  | _ => True
  end.

Lemma lives_step s l s' : sched_inv s → loop_lives s → step l s = Some s' → loop_lives s'.
Proof.
  intros Hi [Hs Hl] E. unfold loop_lives in *.
  destruct l as [l|p|j choice|p|choice]; cbn [step ParallelSched.step] in E.
  - destruct (par_alone l s); [|done].
    destruct (Parallel.step maxConcurrency l (par s)); by simplify_eq/=.
  - unfold enter_scheduler in E. destruct (poster_call p (par s)) as [c|]; [|done].
    destruct (pcalls s !! p); [done|]. cbn in E. destruct (SingleThread.entry c); by simplify_eq/=.
  - cbn in E. destruct (SingleThread.calls (single s) !! j) as [c|]; [|done]. cbn in E.
    destruct (SingleThread.call_step choice c (single s)) as [[c' x]|] eqn:Ec; [|done].
    injection E as <-. cbn. apply SingleThread.call_step_frame in Ec as (-> & _ & _ & _ & ->). done.
  - unfold leave_scheduler in E. destruct (pcalls s !! p) as [n|]; [|done]. cbn in E.
    destruct (SingleThread.calls (single s) !! n) as [[]|]; try discriminate E. by injection E as <-.
  - unfold loop_step in E. cbn in E. unfold SingleThread.loop_step in E.
    rewrite (vi_cancelled _ Hi) in E.
    destruct (SingleThread.loop (single s)); destruct (pc (par s)); try done;
      repeat (case_match || simplify_eq/=); done.
Qed.

(** The goroutine of the internal scheduler never ends, whatever is called, [Shutdown]
    included. *)
Theorem par_scheduler_stays s :
  reachable step NewSystem s →
  SingleThread.stopped (single s) = false ∧ SingleThread.loop (single s) ≠ SingleThread.LStopped.
Proof.
  intros Hr. assert (loop_lives s) as [? Hl]; [|split; [done|by intros E; rewrite E in Hl]].
  revert s Hr. apply (reachable_invariant_with step sched_inv); [|done|].
  - intros s Hr. by apply sched_refines.
  - intros l s1 s2. apply lives_step.
Qed.
End mapping.
