(* ===== verification/ParallelPool.v ===== *)
(** * A ParallelTaskRunner on a GoroutineThreadPool
    (core/parallel_task_runner.go over pool.go, core/task_scheduler.go and
    core/single_thread_task_runner.go)

    The runner of ParallelSched.v, which already executes its scheduling
    closures on a SingleThreadTaskRunner, is a client of the pool of
    Scheduler.v ([PoolClient]): the scheduler's goroutine calls [PostInternal]
    for every task it hands over, and the workers of the pool execute the
    closures of [runLoop].  Nothing of the runner's surroundings is abstract
    any more: the state holds its queue and counters, its internal runner with
    channel and loop, and the pool with queue, signal channel and workers. *)

From S2P Require Import Prelude GoSlice Task TaskQueue PoolClient Parallel ParallelSched.
From stdpp Require Import functions.
From S2P Require SingleThread Scheduler FIFOQueue.

(** ** The runner as a client of the pool *)

Section client.
Context {Q T : Type} `{EqDecision T} `{TaskQueue Q (PTask T)}.
Context (maxConcurrency : Z).
Notation Item := (TaskItem (PTask T)).
Notation Runner := (ParallelTaskRunner Q T).
Notation System := (ParallelSched.System Q T).
Notation step := (ParallelSched.step (Q:=Q) (T:=T) maxConcurrency).
Implicit Types (r : Runner) (s a : System).

(** [r.threadPool.PostInternal(r.runLoop(item.Task), item.Traits)]; the only
    goroutine that posts is the scheduler's, inside a closure. *)
Definition post_item (i : nat) s : option (Item * TaskTraits) :=
  match i, pc (par s) with
  | 0, SPost it _ => if in_closure s then Some (it, item_Traits it) else None
  | _, _ => None
  end.
Definition pc_posted (p : SchedPc T) : SchedPc T :=
  match p with SPost _ true => SLoop | SPost _ false => SIdle | p => p end.
Definition posting (p : SchedPc T) : list Item := match p with SPost it _ => [it] | _ => [] end.
Definition posted_item (i : nat) s : System :=
  match i, pc (par s) with
  | 0, SPost it _ => set_par (add_started it (set_pc (pc_posted (pc (par s))) (par s))) s
  | _, _ => s
  end.

(** A worker calls the closure of [runLoop], and is back from it. *)
Definition enter_item (it : Item) s : nat * System :=
  (length (pworkers (par s)),
   set_par (add_log (EStart it) (set_pworkers (pworkers (par s) ++ [WRun it]) (par s))) s).
Definition left_item (i : nat) s : option bool :=
  match pworkers (par s) !! i with Some WEnd => Some true | _ => None end.
Definition runner_alone (l : ParallelSched.Label T) s : bool :=
  match l with
  | LPar (LTake _) => false
  | LPar (LSched _) => match pc (par s) with SPost _ _ => false | _ => true end
  | _ => true
  end.

#[local] Instance Parallel_PoolClientOps : PoolClientOps System (ParallelSched.Label T) Item := {
  pc_step := step;
  pc_init := ParallelSched.NewSystem;
  pc_alone := runner_alone;
  pc_call := post_item;
  pc_post _ accept := LPar (LSched accept);
  pc_return := posted_item;
  pc_take k := LPar (LTake k);
  pc_enter := enter_item;
  pc_left := left_item;
  pc_bag s := (λ it, (it, item_Traits it)) <$> pool (par s);
}.

(** ** The laws *)

(** The runner whose scheduler is back from the call ([d]), with another view of
    the pool *)
Definition runner_ahead (d : bool) (pl ls : list Item) r : Runner :=
  Parallel.MkRunner (queue r) (runningCount r) (closed r) (shutdownChan r) (shutdownOnce r)
    (pendingBarrierTask r) (barrierTaskRunning r) (barrierTaskIDs r) (sched r) (sched_closed r)
    (if d then pc_posted (pc r) else pc r) (next_id r) pl ls (pworkers r) (callers r) (delayed r)
    (obs r) (posted r) (started r ++ (if d then posting (pc r) else [])) (cleared r) (log r).
Definition ahead (d : bool) (pl ls : list Item) s : System := set_par (runner_ahead d pl ls (par s)) s.
Definition par_view (D : nat → bool) s a : Prop := ∃ pl ls, a = ahead (D 0) pl ls s.

Lemma post_item_some i s x :
  post_item i s = Some x →
  i = 0 ∧ ∃ it lp, pc (par s) = SPost it lp ∧ x = (it, item_Traits it) ∧ in_closure s = true.
Proof.
  unfold post_item. intros E. destruct i; [|done]. destruct (pc (par s)) eqn:Hpc; try done.
  destruct (in_closure s); [|done]. simplify_eq. eauto 10.
Qed.
Lemma post_item_is s it lp :
  pc (par s) = SPost it lp → in_closure s = true → post_item 0 s = Some (it, item_Traits it).
Proof. intros Hp Hc. unfold post_item. by rewrite Hp, Hc. Qed.

Lemma caller_step_ahead choice c r c' r' d pl ls :
  caller_alone c = true → caller_step choice c r = Some (c', r') →
  caller_step choice c (runner_ahead d pl ls r) = Some (c', runner_ahead d pl ls r') ∧
  pc r' = pc r.
Proof.
  intros Ha E. destruct c; try discriminate Ha; simpl in *; unfold PostTask_call in *;
    repeat (case_match || (progress simplify_eq/=)); try discriminate; done.
Qed.

Lemma worker_step_ahead w r w' r' d pl ls :
  worker_alone w = true → worker_step w r = Some (w', r') →
  worker_step w (runner_ahead d pl ls r) = Some (w', runner_ahead d pl ls r') ∧ pc r' = pc r.
Proof. intros Ha E. destruct w; try discriminate Ha; simpl in *; by simplify_eq. Qed.

Lemma sched_step_ahead choice r r' pl ls :
  (∀ it lp, pc r ≠ SPost it lp) → pc r ≠ SIdle → sched_step maxConcurrency choice r = Some r' →
  sched_step maxConcurrency choice (runner_ahead false pl ls r) = Some (runner_ahead false pl ls r').
Proof.
  intros Hp Hne E.
  unfold sched_step, PostTask_closure, barrier_closure, tryScheduleInternal_step,
    isBarrierTaskID in *; simpl; destruct (pc r) eqn:Hpc; try done; simpl in *;
    try (by destruct (Hp it loops));
    repeat (case_match || (progress simplify_eq/=)); try discriminate; done.
Qed.

(** A step of the runner alone does the same to the runner that is ahead. *)
Lemma par_step_ahead l s r d pl ls :
  runner_alone (LPar l) s = true → par_alone l s = true → (d = true → ∃ it lp, pc (par s) = SPost it lp) →
  Parallel.step maxConcurrency l (par s) = Some r →
  par_alone l (ahead d pl ls s) = true ∧
  Parallel.step maxConcurrency l (runner_ahead d pl ls (par s)) = Some (runner_ahead d pl ls r).
Proof.
  intros Hr Ha Hd E. destruct l as [c|i choice|choice|k|i]; cbn in Hr, Ha, E |- *; [| | |done|].
  - destruct (entry c); by simplify_eq.
  - destruct (callers (par s) !! i) as [c|] eqn:Hc; [|done]. cbn in E |- *. split; [done|].
    destruct (caller_step choice c (par s)) as [[c' r']|] eqn:Es; [|done]. injection E as <-.
    destruct (caller_step_ahead _ _ _ _ _ d pl ls Ha Es) as [-> _]. done.
  - assert (∀ it lp, pc (par s) ≠ SPost it lp) as Hp by (intros it lp Hp; by rewrite Hp in Hr).
    assert (pc (par s) ≠ SIdle) as Hne.
    { intros Hp'. unfold in_closure in Ha. rewrite Hp' in Ha. by case_match. }
    destruct d; [destruct Hd as (it & lp & Hx); [done|by destruct (Hp it lp)]|].
    split; [exact Ha|]. by apply sched_step_ahead.
  - destruct (pworkers (par s) !! i) as [w|] eqn:Hc; [|done]. cbn in E |- *. split; [done|].
    destruct (worker_step w (par s)) as [[w' r']|] eqn:Es; [|done]. injection E as <-.
    destruct (worker_step_ahead _ _ _ _ d pl ls Ha Es) as [-> _]. done.
Qed.

Lemma leave_ahead p s s' d pl ls :
  leave_scheduler p s = Some s' → leave_scheduler p (ahead d pl ls s) = Some (ahead d pl ls s').
Proof.
  unfold leave_scheduler. simpl. destruct (pcalls s !! p) as [j|]; [|done]. simpl.
  destruct (SingleThread.calls (single s) !! j) as [[]|]; try done. intros [= <-]. by destruct p.
Qed.

Lemma enter_ahead p s s' d pl ls :
  enter_scheduler p s = Some s' → enter_scheduler p (ahead d pl ls s) = Some (ahead d pl ls s').
Proof.
  unfold enter_scheduler. assert (poster_call p (par (ahead d pl ls s)) = poster_call p (par s)) as ->
    by (by destruct p). simpl.
  destruct (poster_call p (par s)) as [c|]; [|done]. destruct (pcalls s !! p); [done|]. simpl.
  destruct (SingleThread.entry c); [|done]. simpl. by intros [= <-].
Qed.

Lemma loop_ahead choice s s' pl ls :
  loop_step choice s = Some s' → loop_step choice (ahead false pl ls s) = Some (ahead false pl ls s').
Proof.
  unfold loop_step. simpl. intros E.
  destruct (SingleThread.loop_step choice None (single s)) as [x|] eqn:Ex;
    [|by repeat case_match].
  destruct (SingleThread.loop (single s)) eqn:Hl, (pc (par s)) eqn:Hpc; try done; simpl in *;
    try (by simplify_eq/=); try (destruct choice; [|done]; by simplify_eq/=).
  simplify_eq/=. by destruct (SingleThread.loop x).
Qed.

(** The loop does not move while its closure posts. *)
Lemma loop_posting choice s s' it lp :
  pc (par s) = SPost it lp → in_closure s = true → loop_step choice s ≠ Some s'.
Proof.
  unfold in_closure, loop_step. intros -> Hc. by destruct (SingleThread.loop (single s)).
Qed.

Lemma par_pv_alone D l s s' a :
  par_view D s a → (∀ i, D i = true → is_Some (post_item i s)) →
  runner_alone l s = true → step l s = Some s' →
  ∃ a', step l a = Some a' ∧ par_view D s' a' ∧ pool (par a') = pool (par a).
Proof.
  intros (pl & ls & ->) HD Ha E.
  assert (D 0 = true → ∃ it lp, pc (par s) = SPost it lp ∧ in_closure s = true) as Hd.
  { intros [x (_ & it & lp & ? & _ & ?)%post_item_some]%HD. eauto. }
  exists (ahead (D 0) pl ls s'). split; [|split; [by exists pl, ls|done]].
  destruct l as [l|p|j choice|p|choice]; cbn [step ParallelSched.step] in E |- *.
  - destruct (par_alone l s) eqn:Hpa; [|done].
    destruct (Parallel.step maxConcurrency l (par s)) as [r|] eqn:Er; [|done]. injection E as <-.
    destruct (par_step_ahead l s r (D 0) pl ls Ha Hpa) as [-> Ea]; [naive_solver|done|].
    simpl. by rewrite Ea.
  - by apply enter_ahead.
  - destruct (SingleThread.step (SingleThread.LStep j choice) (single s)) as [x|] eqn:Ex; [|done].
    injection E as <-. simpl in Ex |- *. by rewrite Ex.
  - by apply leave_ahead.
  - destruct (D 0); [destruct Hd as (it & lp & Hp & Hc); [done|]; by eapply loop_posting in E|].
    by apply loop_ahead.
Qed.

(** The scheduler's goroutine stays in its call. *)
Lemma par_pv_alone_call l s s' i x :
  runner_alone l s = true → step l s = Some s' → post_item i s = Some x → post_item i s' = Some x.
Proof.
  intros Ha E (-> & it & lp & Hp & -> & Hc)%post_item_some.
  assert (pc (par s') = pc (par s) ∧ SingleThread.loop (single s') = SingleThread.loop (single s)) as [Hpc Hl].
  { destruct l as [l|p|j choice|p|choice]; cbn [step ParallelSched.step] in E.
    - destruct (par_alone l s) eqn:Hpa; [|done].
      destruct (Parallel.step maxConcurrency l (par s)) as [r|] eqn:Er; [|done]. injection E as <-.
      split; [|done]. simpl. destruct l as [c|i choice|choice|k|i]; cbn in Ha, Hpa, Er; [| | |done|].
      + destruct (entry c); by simplify_eq/=.
      + destruct (callers (par s) !! i) as [c|]; [|done]. cbn in Er.
        destruct (caller_step choice c (par s)) as [[c' r']|] eqn:Es; [|done]. injection Er as <-.
        by destruct (caller_step_ahead _ _ _ _ _ false [] [] Hpa Es) as [_ ?].
      + by rewrite Hp in Ha.
      + destruct (pworkers (par s) !! i) as [w|]; [|done]. cbn in Er.
        destruct (worker_step w (par s)) as [[c' r']|] eqn:Es; [|done]. injection Er as <-.
        by destruct (worker_step_ahead _ _ _ _ false [] [] Hpa Es) as [_ ?].
    - unfold enter_scheduler in E. destruct (poster_call p (par s)) as [c|]; [|done].
      destruct (pcalls s !! p); [done|]. simpl in E. destruct (SingleThread.entry c); by simplify_eq/=.
    - simpl in E. destruct (SingleThread.calls (single s) !! j) as [c|]; [|done]. cbn in E.
      destruct (SingleThread.call_step choice c (single s)) as [[c' y]|] eqn:Ec; [|done].
      injection E as <-. cbn. by apply SingleThread.call_step_frame in Ec as (-> & _).
    - unfold leave_scheduler in E. destruct (pcalls s !! p) as [n|]; [|done]. cbn in E.
      destruct (SingleThread.calls (single s) !! n) as [[]|]; try discriminate E.
      injection E as <-. by destruct p.
    - by eapply loop_posting in E. }
  apply (post_item_is _ _ lp); [by rewrite Hpc|]. unfold in_closure in *. by rewrite Hl, Hpc.
Qed.

Lemma par_pv_post D i s a x (accept : bool) :
  par_view D s a → D i = false → post_item i s = Some x →
  ∃ a', step (LPar (LSched accept)) a = Some a' ∧ par_view (<[i := true]> D) s a' ∧
    pool (par a') = pool (par a) ++ (if accept then [x.1] else []) ∧ x = (x.1, item_Traits x.1).
Proof.
  intros (pl & ls & ->) Hd (-> & it & lp & Hp & -> & Hc)%post_item_some.
  assert (in_closure (ahead (D 0) pl ls s) = true) as Hc'.
  { rewrite Hd. exact Hc. }
  exists (ahead true (if accept then pl ++ [it] else pl) (if accept then ls else ls ++ [it]) s).
  split; [|split_and!; [|by destruct accept; rewrite ?app_nil_r|done]].
  - cbn [ParallelSched.step par_alone]. rewrite Hc', Hd. cbn. unfold sched_step, tryScheduleInternal_step.
    cbn. rewrite Hp. unfold ahead, runner_ahead, set_par. cbn. rewrite Hp, app_nil_r. cbn.
    by destruct accept, lp.
  - eexists _, _. by rewrite fn_lookup_insert.
Qed.

Lemma par_pv_return D i s a x :
  par_view D s a → D i = true → post_item i s = Some x →
  par_view (<[i := false]> D) (posted_item i s) a.
Proof.
  intros (pl & ls & ->) Hd (-> & it & lp & Hp & _ & Hc)%post_item_some. exists pl, ls.
  rewrite fn_lookup_insert, Hd. unfold posted_item. rewrite Hp.
  unfold ahead, runner_ahead, set_par. cbn. rewrite Hp, app_nil_r. by destruct lp.
Qed.

#[local] Instance Parallel_PoolClient : PoolClient System (ParallelSched.Label T) Item.
Proof.
  refine {| pc_view := par_view |}; simpl.
  - by exists [], [].
  - done.
  - intros D D' s a HD (pl & ls & ->). exists pl, ls. by rewrite HD.
  - intros D l s s' a Hv HD Ha E. destruct (par_pv_alone _ _ _ _ _ Hv HD Ha E) as (a' & ? & ? & Hb).
    exists a'. by rewrite Hb.
  - exact par_pv_alone_call.
  - intros D i s a x accept Hv Hd Hx.
    destruct (par_pv_post _ _ _ _ _ accept Hv Hd Hx) as (a' & ? & ? & Hb & Ex). exists a'.
    split_and!; [done..|]. rewrite Hb, fmap_app, Permutation_app_comm.
    destruct accept; simpl; by rewrite <- ?Ex.
  - exact par_pv_return.
  - intros i i' s x Hne Hx. destruct (post_item_some _ _ _ Hx) as (-> & _). by destruct i.
  - intros D k it tr s a (pl & ls & ->) Hk. simpl in Hk. rewrite list_lookup_fmap in Hk.
    apply fmap_Some in Hk as (it' & Hk & [= -> ->]).
    eexists. split; [cbn; by rewrite Hk|]. split; [by eexists _, _|].
    simpl. by rewrite list_fmap_delete.
  - intros i it s x (-> & it' & lp & Hp & -> & Hc)%post_item_some. by apply (post_item_is _ _ lp).
Defined.
End client.

(** ** Theorems *)

Section theorems.
Context {Q T QP R : Type} `{EqDecision T} `{FIFOOrder Q (PTask T)}.
Notation Item := (TaskItem (PTask T)).
Context `{TaskQueueLaws QP (PoolTask Item)}.
Context (maxConcurrency : Z) (workerCount : nat).
Notation SSystem := (ParallelSched.System Q T).
Notation FullSystem := (PoolClient.System SSystem Item QP R).

#[local] Instance ops : PoolClientOps SSystem (ParallelSched.Label T) Item :=
  Parallel_PoolClientOps maxConcurrency.
#[local] Instance laws : PoolClient SSystem (ParallelSched.Label T) Item :=
  Parallel_PoolClient maxConcurrency.
Notation step := (PoolClient.step (C:=SSystem) (QP:=QP) (R:=R) workerCount).
Implicit Types s : FullSystem.

(** The runner of the composition, and the abstract runners it stands for *)
Definition runner s : ParallelTaskRunner Q T := par (client s).
Definition represents s (a : ParallelTaskRunner Q T) : Prop :=
  ∃ d pl ls, a = abs (ahead d pl ls (client s)).

Lemma imap_bind {A B C} (f : nat → A → B) (g : B → list C) (h : A → list C) (l : list A) :
  (∀ i x, g (f i x) = h x) → imap f l ≫= g = l ≫= h.
Proof.
  revert f; induction l as [|x l IH]; intros f Hf; [done|]. rewrite imap_cons, !bind_cons, Hf.
  f_equal. apply IH. intros i y. apply Hf.
Qed.

Lemma represents_bodies s a :
  represents s a → pworkers a ≫= in_body = pworkers (runner s) ≫= in_body.
Proof.
  intros (d & pl & ls & ->). apply imap_bind. intros i w. by destruct (stage _ _), w.
Qed.

Lemma parpool_simulates r0 t0 s :
  NewParallelTaskRunner (Q:=Q) (T:=T) maxConcurrency false = Ret r0 →
  reachable step (PoolClient.NewSystem t0) s →
  ∃ a, reachable (Parallel.step maxConcurrency) r0 a ∧ represents s a ∧
    (λ it, (it, item_Traits it)) <$> pool a ≡ₚ jobs (waiting (PoolClient.pool s)).
Proof.
  intros [_ ->]%new_bounds Hr.
  destruct (pool_refines _ _ _ Hr) as (c & Hc & (pl & ls & ->) & Hb).
  exists (abs (ahead (decided_calls s 0) pl ls (client s))). split_and!; [|by eexists _, _, _|exact Hb].
  by apply (sched_refines maxConcurrency _ Hc).
Qed.

(** C3. A ParallelTaskRunner with its internal SingleThreadTaskRunner on a
    GoroutineThreadPool, every access of the three interleaved with each other and with the
    other clients of the pool (its shutdown included), refines the abstract runner of
    Parallel.v; so at most maxConcurrency of its tasks run at once, the pool never holds more
    than maxConcurrency of its run loops, and when the barrier of FlushAsync or WaitIdle
    starts, every task posted before it has run to its end (as long as Shutdown did not clear
    the queue). *)
Theorem parpool_refines r0 t0 s :
  NewParallelTaskRunner (Q:=Q) (T:=T) maxConcurrency false = Ret r0 →
  reachable step (PoolClient.NewSystem t0) s →
  (∃ a, reachable (Parallel.step maxConcurrency) r0 a ∧ represents s a ∧
     (λ it, (it, item_Traits it)) <$> pool a ≡ₚ jobs (waiting (PoolClient.pool s))) ∧
  (Z.of_nat (length (pworkers (runner s) ≫= in_body)) <= maxConcurrency)%Z ∧
  (Z.of_nat (length (jobs (waiting (PoolClient.pool s)))) <= maxConcurrency)%Z ∧
  (cleared (runner s) = None → ∀ l1 b l2 x, posted (runner s) = l1 ++ b :: l2 →
     is_barrier b = true → EStart b ∈ log (runner s) → x ∈ l1 → EEnd x ∈ log (runner s)).
Proof.
  intros Hnew Hr. destruct (parpool_simulates _ _ _ Hnew Hr) as (a & Ha & Hrep & Hb).
  split; [eauto|]. destruct (new_bounds _ _ Hnew) as [Hmax ->].
  destruct (pi_count _ _ (par_inv_reach _ Hmax a Ha)) as (Hl & Hc & _).
  unfold live in Hl. pose proof (total_nonneg w_live (pworkers a) w_live_nonneg).
  pose proof (bodies_live a) as Hbod. unfold bodies in Hbod.
  rewrite (represents_bodies s a Hrep) in Hbod.
  assert (0 <= pc_live (pc a))%Z by (by destruct (pc a)).
  split_and!; [lia|rewrite <- Hb, length_fmap; lia|].
  destruct Hrep as (d & pl & ls & ->). intros Hcl l1 b l2 x Hp Hbar Hs Hx.
  eapply (barrier_waits maxConcurrency Hmax _ l1 b l2 x Ha); try done.
  by apply (begun_reach _ Hmax _ Ha).
Qed.
End theorems.

(** ** A concrete run: two slots, one worker *)

Module ParPoolDemo.
Notation Item := (TaskItem (PTask nat)).
#[export] Instance q1 : TaskQueue (FIFOQueue.FIFOTaskQueue (PTask nat)) (PTask nat) :=
  FIFOQueue.FIFO_TaskQueue grow_double.
#[export] Instance q1_laws : TaskQueueLaws (FIFOQueue.FIFOTaskQueue (PTask nat)) (PTask nat) :=
  FIFOQueue.FIFO_Laws grow_double grow_double_ok.
#[export] Instance q1_order : FIFOOrder (FIFOQueue.FIFOTaskQueue (PTask nat)) (PTask nat) :=
  FIFOQueue.FIFO_Order grow_double grow_double_ok.
#[export] Instance q2 : TaskQueue (FIFOQueue.FIFOTaskQueue (PoolTask Item)) (PoolTask Item) :=
  FIFOQueue.FIFO_TaskQueue grow_double.
#[export] Instance q2_laws : TaskQueueLaws (FIFOQueue.FIFOTaskQueue (PoolTask Item)) (PoolTask Item) :=
  FIFOQueue.FIFO_Laws grow_double grow_double_ok.
#[export] Instance demo_ops : PoolClientOps
    (ParallelSched.System (FIFOQueue.FIFOTaskQueue (PTask nat)) nat) (ParallelSched.Label nat) Item :=
  Parallel_PoolClientOps 2.

Definition sys := PoolClient.System (ParallelSched.System (FIFOQueue.FIFOTaskQueue (PTask nat)) nat)
  Item (FIFOQueue.FIFOTaskQueue (PoolTask Item)) unit.
Definition init : sys := PoolClient.NewSystem 0.
Notation L := (PoolClient.Label (ParallelSched.Label nat) Item unit).
Definition user (n : nat) (id : TaskID) : Item := MkTaskItem (TUser n) DefaultTaskTraits id.
Definition barrier (n : nat) (id : TaskID) : Item := MkTaskItem (TBarrier n) TraitsUserBlocking id.

(** The worker starts and goes to sleep. *)
Definition boot : list L :=
  LPool <$> [Scheduler.LSpawn Scheduler.CStart; Scheduler.LClose 0 true; Scheduler.LWorker 0 true].
(** Goroutine [p] is inside the scheduler's [PostTask], as call [j] of it. *)
Definition in_scheduler (p : Poster) (j : nat) : list L :=
  LClient <$> ParallelSched.LEnter p :: replicate 3 (LSingle j true) ++ [ParallelSched.LLeave p].
Definition call (i : nat) (c : Caller nat) : list L :=
  LClient (LPar (LCall c)) :: in_scheduler (inl i) i.
(** The scheduler takes a closure and moves [n] times; the closure returns. *)
Definition sched_steps (n : nat) : list L := LClient <$> replicate n (LPar (LSched true)).
Definition closure (n : nat) : list L := (LClient <$> replicate 2 (LLoop true)) ++ sched_steps n.
Definition closure_end : list L := LClient <$> replicate 2 (LLoop true).
(** The scheduler posts to the pool, as thread [j] of it. *)
Definition post (j : nat) : list L :=
  LPostCall 0 1%N :: (LPool <$> replicate 4 (Scheduler.LPost j)) ++ [LPostReturn 0].
Definition worker (n : nat) : list L := LPool <$> replicate n (Scheduler.LWorker 0 true).
Definition body (i n : nat) : list L := LClient <$> replicate n (LPar (LWorker i)).

Definition schedule : list L :=
  boot ++ call 0 (CPost 7 DefaultTaskTraits) ++ call 1 (CFlush 1) ++
  closure 9 ++ post 1 ++ sched_steps 2 ++ closure_end ++
  closure 11 ++ closure_end ++
  worker 3 ++ [PoolClient.LEnter 0] ++ body 0 2 ++ in_scheduler (inr 0) 2 ++ [PoolClient.LLeave 0] ++
  closure 4 ++ post 2 ++ closure_end ++
  worker 4 ++ [PoolClient.LEnter 0].
Definition final : sys := default init (run (PoolClient.step 1) schedule init).
End ParPoolDemo.
Import ParPoolDemo.

(** The barrier runs on the worker; the task posted before it has ended. *)
Lemma parpool_refines_witness :
  log (runner final) = [EStart (user 7 1%N); EEnd (user 7 1%N); EStart (barrier 1 2%N)] ∧
  EEnd (user 7 1%N) ∈ log (runner final) ∧
  (Z.of_nat (length (pworkers (runner final) ≫= in_body)) <= 2)%Z.
Proof.
  destruct (parpool_refines (R:=unit) 2 1 runner0 0 final) as (_ & H1 & _ & H3).
  - reflexivity.
  - apply (run_reachable (PoolClient.step 1) schedule). vm_compute. reflexivity.
  - split; [vm_compute; reflexivity|]. split; [|exact H1].
    apply (H3 ltac:(vm_compute; reflexivity) [user 7 1%N] (barrier 1 2%N) []).
    + vm_compute. reflexivity.
    + reflexivity.
    + apply (bool_decide_eq_true_1 _). vm_compute. reflexivity.
    + left.
Defined.
