(* ===== verification/ParallelSpec.v ===== *)
(** * What a client may rely on: a runner that executes its tasks at once
    (core/task.go: TaskRunner; core/parallel_task_runner.go)

    [AbstractBag] keeps the tasks that were accepted and not started in no
    particular order: any of them may start next, next to those that run, and
    some may be lost (the runner is shut down, or its pool turns a run loop
    away).  [ConcurrentRunner] is the class of the machines that refine it;
    ParallelTaskRunner, whose posts go through its internal scheduler, its
    queue and the pool, is the instance. *)

From S2P Require Import Prelude GoSlice Task TaskQueue RunnerSpec.
From S2P Require Parallel SingleThread.

(** ** Selecting tasks from a list *)

(** Task [k] of a list, counted among those that [f] keeps. *)
Lemma omap_lookup_delete {X Y} (f : X → option Y) (l : list X) k x :
  l !! k = Some x →
  match f x with
  | Some y => omap f l !! length (omap f (take k l)) = Some y ∧
              omap f (delete k l) = delete (length (omap f (take k l))) (omap f l)
  | None => omap f (delete k l) = omap f l
  end.
Proof.
  revert k. induction l as [|z l IH]; intros [|k] Hk; simplify_eq/=.
  - by destruct (f x).
  - specialize (IH k Hk). destruct (f x) as [y|]; csimpl in *.
    + destruct IH as [H1 H2]. destruct (f z); simpl; by rewrite ?H1, ?H2.
    + destruct (f z); simpl; by rewrite IH.
Qed.

Lemma delete_app_l {X} (l l' : list X) k : k < length l → delete k (l ++ l') = delete k l ++ l'.
Proof. revert k. induction l as [|x l IH]; intros [|k] Hk; simpl in *; [lia..|done|]. by rewrite IH by lia. Qed.

Lemma omap_submseteq {X Y} (f : X → option Y) (l l' : list X) : l ⊆+ l' → omap f l ⊆+ omap f l'.
Proof.
  intros (k & ->)%submseteq_Permutation. rewrite omap_app. apply submseteq_inserts_r. done.
Qed.

(** ** The abstract runner *)

Section spec.
Context {A : Type}.

Record AbstractBag := MkBag {
  b_posts : list (Post A);
  b_queue : list A;
  b_closed : bool;
  b_running : list (option A);   (** goroutine by goroutine *)
}.

(** The order of the queue does not matter. *)
#[export] Instance bag_equiv : Equiv AbstractBag := λ v w,
  b_posts v = b_posts w ∧ b_queue v ≡ₚ b_queue w ∧ b_closed v = b_closed w ∧
  b_running v = b_running w.
#[export] Instance bag_equivalence : Equivalence (≡@{AbstractBag}).
Proof.
  split.
  - done.
  - intros v w (? & ? & ? & ?). repeat split; congruence || by symmetry.
  - intros v w x (E1 & E2 & E3 & E4) (F1 & F2 & F3 & F4).
    repeat split; [congruence|by etransitivity|congruence..].
Qed.

Inductive BagAction :=
| BCall (p : Post A)          (** a new goroutine, about to post or not *)
| BTest (i : nat)
| BPush (i : nat)
| BStart (k : nat)            (** task [k] of the queue starts on a new goroutine *)
| BStartOther                 (** ... something that no caller posted *)
| BEnd (w : nat)
| BClose.

Definition set_bposts (l : list (Post A)) (v : AbstractBag) : AbstractBag :=
  MkBag l (b_queue v) (b_closed v) (b_running v).

Definition bag_act (a : BagAction) (v : AbstractBag) : option AbstractBag :=
  match a with
  | BCall p => match p with Pushing _ => None | _ => Some (set_bposts (b_posts v ++ [p]) v) end
  | BTest i =>
      match b_posts v !! i with
      | Some (Testing x) =>
          Some (set_bposts (<[i := if b_closed v then Away else Pushing x]> (b_posts v)) v)
      | _ => None
      end
  | BPush i =>
      match b_posts v !! i with
      | Some (Pushing x) =>
          Some (MkBag (<[i := Away]> (b_posts v)) (b_queue v ++ [x]) (b_closed v) (b_running v))
      | _ => None
      end
  | BStart k =>
      x ← b_queue v !! k;
      Some (MkBag (b_posts v) (delete k (b_queue v)) (b_closed v) (b_running v ++ [Some x]))
  | BStartOther => Some (MkBag (b_posts v) (b_queue v) (b_closed v) (b_running v ++ [None]))
  | BEnd w =>
      match b_running v !! w with
      | Some (Some _) =>
          Some (MkBag (b_posts v) (b_queue v) (b_closed v) (<[w := None]> (b_running v)))
      | _ => None
      end
  | BClose => Some (MkBag (b_posts v) (b_queue v) true (b_running v))
  end.

(** The step from [v] to [v'] is this action, or only loses tasks. *)
Definition bag_follows (a : option BagAction) (v v' : AbstractBag) : Prop :=
  match a with
  | Some a => ∃ w, bag_act a v = Some w ∧ v' ≡ w
  | None =>
      b_posts v' = b_posts v ∧ b_closed v' = b_closed v ∧ b_running v' = b_running v ∧
      b_queue v' ⊆+ b_queue v
  end.
End spec.
Arguments AbstractBag A : clear implicits.
Arguments BagAction A : clear implicits.

(** ** The tasks of one client *)

Section own_bag.
Context {A C : Type} (f : A → option C).
Implicit Types (v : AbstractBag A).

Definition own_bag v : AbstractBag C :=
  MkBag (own_post f <$> b_posts v) (omap f (b_queue v)) (b_closed v) ((λ x, x ≫= f) <$> b_running v).

Definition own_bag_action (a : BagAction A) v : option (BagAction C) :=
  match a with
  | BCall p => Some (BCall (own_post f p))
  | BTest i =>
      match own_post f <$> b_posts v !! i with Some (Testing _) => Some (BTest i) | _ => None end
  | BPush i =>
      match own_post f <$> b_posts v !! i with Some (Pushing _) => Some (BPush i) | _ => None end
  | BStart k =>
      Some match b_queue v !! k ≫= f with
           | Some _ => BStart (length (omap f (take k (b_queue v))))
           | None => BStartOther
           end
  | BStartOther => Some BStartOther
  | BEnd w => match b_running v !! w ≫= λ x, x ≫= f with Some _ => Some (BEnd w) | None => None end
  | BClose => Some BClose
  end.

#[local] Instance own_bag_proper : Proper ((≡) ==> (≡)) own_bag.
Proof.
  intros v v' (E1 & E2 & E3 & E4). repeat split; simpl; rewrite ?E1, ?E3, ?E4; try done. by rewrite E2.
Qed.

Lemma own_bag_act a v w :
  bag_act a v = Some w →
  match own_bag_action a v with
  | Some a' => bag_act a' (own_bag v) = Some (own_bag w)
  | None => own_bag w = own_bag v
  end.
Proof.
  intros E. destruct a as [p|i|i|k| |i|]; simpl in E; unfold own_bag_action, bag_act, own_bag, set_bposts.
  - destruct p as [x|x|]; simplify_eq/=; rewrite fmap_app; simpl; [by destruct (f x)|done].
  - destruct (b_posts v !! i) as [[x|x|]|] eqn:Ei; simplify_eq/=. destruct (f x) as [c|] eqn:Hx; simpl.
    + rewrite list_lookup_fmap, Ei. simpl. rewrite Hx, list_fmap_insert. simpl.
      destruct (b_closed v); simpl; by rewrite ?Hx.
    + rewrite (fmap_insert_same (own_post f) _ _ _ _ Ei); [done|]. simpl. rewrite Hx.
      destruct (b_closed v); simpl; by rewrite ?Hx.
  - destruct (b_posts v !! i) as [[x|x|]|] eqn:Ei; simplify_eq/=. rewrite omap_app. simpl.
    destruct (f x) as [c|] eqn:Hx; simpl.
    + rewrite list_lookup_fmap, Ei. simpl. by rewrite Hx, list_fmap_insert.
    + rewrite app_nil_r, (fmap_insert_same (own_post f) _ _ _ _ Ei); [done|]. simpl. by rewrite Hx.
  - destruct (b_queue v !! k) as [x|] eqn:Ek; simplify_eq/=.
    pose proof (omap_lookup_delete f _ _ _ Ek) as Hd. destruct (f x) as [c|] eqn:Hx; simpl.
    + destruct Hd as [-> ->]. simpl. by rewrite fmap_app; simpl; rewrite Hx.
    + rewrite Hd, fmap_app. simpl. by rewrite Hx.
  - simplify_eq/=. by rewrite fmap_app.
  - destruct (b_running v !! i) as [[x|]|] eqn:Ei; simplify_eq/=. destruct (f x) as [c|] eqn:Hx; simpl.
    + rewrite list_lookup_fmap, Ei. simpl. by rewrite Hx, list_fmap_insert.
    + by rewrite (fmap_insert_same (λ x, x ≫= f) _ _ _ _ Ei) by (simpl; by rewrite Hx).
  - by simplify_eq/=.
Qed.

Lemma own_bag_follows a v v' :
  bag_follows a v v' →
  bag_follows (a ≫= λ a, own_bag_action a v) (own_bag v) (own_bag v').
Proof.
  destruct a as [a|]; simpl.
  - intros (w & E & Hw). apply own_bag_act in E. pose proof (own_bag_proper _ _ Hw) as Hp.
    destruct (own_bag_action a v) as [a'|]; simpl; [by exists (own_bag w)|].
    rewrite E in Hp. destruct Hp as (E1 & E2 & E3 & E4). simpl in *.
    split_and!; [done..|]. by rewrite E2.
  - intros (-> & -> & -> & Hq). split_and!; [done..|]. by apply omap_submseteq.
Qed.
End own_bag.

(** ** The class of the runners that refine it *)

Class ConcurrentRunnerOps (R L A : Type) := {
  cr_init : R;
  cr_step : L → R → option R;
  cr_view : R → AbstractBag A;
  cr_action : L → R → option (BagAction A);
  cr_post : A → L;               (** some goroutine calls [PostTask] *)
  cr_returned : nat → R → bool;  (** goroutine [i] is back from its call *)
}.

Class ConcurrentRunner (R L A : Type) `{ConcurrentRunnerOps R L A} := {
  cr_new : cr_view (R:=R) cr_init ≡ MkBag [] [] false [];
  cr_refines (l : L) (r r' : R) :
    reachable cr_step cr_init r → cr_step l r = Some r' →
    bag_follows (cr_action l r) (cr_view r) (cr_view r');
  cr_posting x (r : R) : cr_action (cr_post x) r = Some (BCall (Testing x));
  cr_back i (r : R) : cr_returned i r = true → b_posts (cr_view r) !! i = Some Away;
}.

(** ** ParallelTaskRunner *)

Section parallel.
Context {Q T : Type} `{EqDecision T} `{!TaskQueue Q (Parallel.PTask T)}
  `{!TaskQueueLaws Q (Parallel.PTask T)} `{!FIFOOrder Q (Parallel.PTask T)} (maxConcurrency : Z).
Notation Runner := (Parallel.ParallelTaskRunner Q T).
Notation Item := (TaskItem (Parallel.PTask T)).
Import Parallel.
Implicit Types r : Runner.

Definition user (it : Item) : option T :=
  match item_Task it with TUser t => Some t | TBarrier _ => None end.
Definition par_post (c : Caller T) : Post T :=
  match c with
  | CPost t _ => Testing t
  | CSend (ClPost t _) _ => Pushing t
  | _ => Away
  end.
(** Where a posted task is until its run loop starts: in the pool, in the hand
    of the scheduler, in the queue, in a closure. *)
Definition pc_task (p : SchedPc T) : option T :=
  match p with SPostCheck t _ | SPostPush t _ => Some t | _ => None end.
Definition closure_task (c : Closure T) : option T :=
  match c with ClPost t _ => Some t | _ => None end.
Definition waiting r : list T :=
  omap user (pool r) ++ omap user (hand (pc r)) ++ omap user (option_list (pendingBarrierTask r)) ++
  omap user (tq_items (queue r)) ++ option_list (pc_task (pc r)) ++ omap closure_task (sched r).
Definition running_task (w : Worker T) : option T :=
  match w with WRun it => user it | _ => None end.

Definition par_view r : AbstractBag T :=
  MkBag (par_post <$> callers r) (waiting r) (sched_closed r) (running_task <$> pworkers r).

Definition par_action (l : Label T) r : option (BagAction T) :=
  match l with
  | LCall c => Some (BCall (par_post c))
  | LCaller i _ =>
      match callers r !! i with
      | Some (CPost _ _) => Some (BTest i)
      | Some (CSend (ClPost _ _) _) => Some (BPush i)
      | Some HSched => Some BClose
      | _ => None
      end
  | LTake k =>
      it ← pool r !! k;
      Some match user it with
           | Some _ => BStart (length (omap user (take k (pool r))))
           | None => BStartOther
           end
  | LWorker w =>
      match pworkers r !! w with
      | Some (WRun it) => match user it with Some _ => Some (BEnd w) | None => None end
      | _ => None
      end
  | LSched _ => None
  end.

#[export] Instance parallel_ops : ConcurrentRunnerOps Runner (Label T) T := {
  cr_init := runner0;
  cr_step := step maxConcurrency;
  cr_view := par_view;
  cr_action := par_action;
  cr_post t := LCall (CPost t DefaultTaskTraits);
  cr_returned i r := match callers r !! i with Some (CReturned _) => true | _ => false end;
}.

#[local] Arguments bag_follows : simpl never.
#[local] Arguments par_action : simpl never.

Lemma par_call_refines c r :
  entry c = true →
  bag_follows (par_action (LCall c) r) (par_view r) (par_view (set_callers (callers r ++ [c]) r)).
Proof.
  intros Hc. unfold bag_follows, par_view. simpl. eexists. split; [by destruct c|].
  repeat split; simpl; [by rewrite fmap_app|done].
Qed.

Lemma par_take_refines k it r :
  pool r !! k = Some it →
  bag_follows (par_action (LTake k) r) (par_view r)
    (par_view (add_log (EStart it)
       (set_pworkers (pworkers r ++ [WRun it]) (set_pool (delete k (pool r)) (lost r) r)))).
Proof.
  intros Hk. unfold bag_follows, par_action, par_view, waiting. rewrite Hk. simpl.
  pose proof (omap_lookup_delete user _ _ _ Hk) as Hu.
  destruct (user it) as [t|] eqn:Hit; simpl.
  - destruct Hu as [Hu Hd]. pose proof (lookup_lt_Some _ _ _ Hu) as Hlt.
    rewrite lookup_app_l, Hu by done. simpl.
    eexists. split; [reflexivity|]. repeat split; simpl; [|by rewrite fmap_app; simpl; rewrite Hit].
    by rewrite Hd, delete_app_l.
  - eexists. split; [reflexivity|]. repeat split; simpl; [by rewrite Hu|].
    by rewrite fmap_app; simpl; rewrite Hit.
Qed.

Lemma par_end_refines i it w r :
  pworkers r !! i = Some (WRun it) → running_task w = None →
  bag_follows (par_action (LWorker i) r) (par_view r)
    (par_view (set_pworkers (<[i:=w]> (pworkers r)) (add_log (EEnd it) r))).
Proof.
  intros Hi Hw. unfold bag_follows, par_action, par_view, bag_act. rewrite Hi. simpl.
  destruct (user it) as [t|] eqn:Hit; simpl.
  - rewrite list_lookup_fmap, Hi. simpl. rewrite Hit.
    eexists. split; [reflexivity|]. by rewrite list_fmap_insert, Hw.
  - by rewrite (fmap_insert_same running_task _ _ _ _ Hi) by (by rewrite Hw; simpl).
Qed.

Lemma par_action_refines l r r' :
  tq_ok (queue r) → step maxConcurrency l r = Some r' →
  bag_follows (par_action l r) (par_view r) (par_view r').
Proof.
  intros Hok E.
  par_cases E; try (by apply par_call_refines); try (by apply par_take_refines);
    try (by apply par_end_refines);
    try match goal with w : option T, c : Closure T |- _ => destruct c, w end;
    unfold bag_follows, par_action, bag_act; rewrite ?Hi; simpl;
    rewrite ?list_lookup_fmap, ?Hi; simpl;
    repeat match goal with H : sched_closed _ = _ |- _ => rewrite H end;
    unfold par_view, waiting, push; simpl; try rewrite Hpc; try rewrite Hsched; simpl;
    try (rewrite (fmap_insert_same par_post _ _ _ _ Hi) by done);
    try (rewrite (fmap_insert_same running_task _ _ _ _ Hi) by done);
    try done.
  all: try (eexists; split; [reflexivity|]); rewrite ?list_fmap_insert, ?fmap_app, ?omap_app; simpl;
     rewrite ?app_nil_r; try done.
  all: try match goal with H : pendingBarrierTask _ = _ |- _ => rewrite H end.
  all: try match type of Hpop with _ = Ret (Some _, _) => 
         apply tq_pop_got in Hpop as (_ & Hpop & _); [|done]; rewrite Hpop
       | _ => apply tq_pop_none in Hpop as [_ ->]; [|done] end.
  all: try (rewrite tq_push_items by done); csimpl.
  all: try (rewrite (proj2 (tq_clear_ok _ Hok))).
  all: repeat split; simpl; try done; rewrite <- ?app_assoc; repeat case_match; (done || solve_submseteq).
Qed.

#[export] Instance parallel_runner : ConcurrentRunner Runner (Label T) T.
Proof.
  split; simpl.
  - repeat split; simpl. unfold waiting. simpl. by rewrite tq_new_items.
  - intros l r r' Hr E. apply par_action_refines; [|done].
    clear E. revert Hr.
    apply (reachable_invariant (step maxConcurrency) (λ r, tq_ok (queue r)));
      [apply tq_new_ok|eauto using par_queue_ok_step].
  - done.
  - intros i r Hi. rewrite list_lookup_fmap. destruct (callers r !! i) as [c|]; [|done]. by destruct c.
Qed.
End parallel.
