(* ===== verification/Observability.v ===== *)
(** * What is observed of runners and pools (core/observability.go, and the
    Stats methods)

    The statistics are read field by field from the states of the other
    machines; names and metadata are those of [Sequenced.Meta]. *)

From S2P Require Import Prelude GoSlice Task TaskQueue.
From S2P Require Scheduler Sequenced SingleThread Parallel.

Record RunnerStats := MkRunnerStats {
  rs_Name : string;
  rs_Type : string;
  rs_Pending : nat;
  rs_Running : Z;
  rs_Rejected : Z;
  rs_Closed : bool;
  rs_BarrierPending : bool;
}.

Record PoolStats := MkPoolStats {
  ps_ID : string;
  ps_Workers : nat;
  ps_Queued : Z;
  ps_Active : Z;
  ps_Delayed : nat;
  ps_Running : bool;
}.

Section stats.
Context {V : Type}.

Definition single_thread_name (m : Sequenced.Meta V) : string :=
  if String.eqb (Sequenced.m_name m) "" then "single-thread" else Sequenced.m_name m.
Definition parallel_name (m : Sequenced.Meta V) : string :=
  if String.eqb (Sequenced.m_name m) "" then "parallel" else Sequenced.m_name m.

Definition sequenced_stats {Q T} `{TaskQueue Q T} (m : Sequenced.Meta V)
  (r : Sequenced.SequencedTaskRunner Q T) : RunnerStats :=
  MkRunnerStats (Sequenced.observabilityName m) "sequenced" (Sequenced.PendingTaskCount r)
    (Sequenced.RunningTaskCount r) 0 (Sequenced.IsClosed r) false.

Definition single_thread_stats {T} (m : Sequenced.Meta V) (r : SingleThread.SingleThreadTaskRunner T)
  : RunnerStats :=
  MkRunnerStats (single_thread_name m) "single-thread" (SingleThread.PendingTaskCount r)
    (SingleThread.RunningTaskCount r) (SingleThread.RejectedCount r) (SingleThread.IsClosed r) false.

Definition parallel_stats {Q T} `{TaskQueue Q (Parallel.PTask T)} (m : Sequenced.Meta V)
  (r : Parallel.ParallelTaskRunner Q T) : RunnerStats :=
  MkRunnerStats (parallel_name m) "parallel" (Parallel.PendingTaskCount r)
    (Parallel.RunningTaskCount r) 0 (Parallel.IsClosed r) (Parallel.barrierTaskRunning r).

Definition pool_stats {Q T R} (id : string) (workers : nat) (p : Scheduler.Pool Q T R) : PoolStats :=
  let s := Scheduler.scheduler p in
  MkPoolStats id workers (Scheduler.QueuedTaskCount s) (Scheduler.ActiveTaskCount s)
    (Scheduler.DelayedTaskCount s) (Scheduler.running p).
End stats.

(** A runner is never reported without a name. *)
Lemma runner_named {V Q T} `{TaskQueue Q T, TaskQueue Q' (Parallel.PTask T)} (m : Sequenced.Meta V)
  (r1 : Sequenced.SequencedTaskRunner Q T) (r2 : SingleThread.SingleThreadTaskRunner T)
  (r3 : Parallel.ParallelTaskRunner Q' T) :
  rs_Name (sequenced_stats m r1) ≠ "" ∧ rs_Name (single_thread_stats m r2) ≠ "" ∧
  rs_Name (parallel_stats m r3) ≠ "".
Proof.
  unfold sequenced_stats, single_thread_stats, parallel_stats, Sequenced.observabilityName,
    single_thread_name, parallel_name; simpl.
  destruct (String.eqb_spec (Sequenced.m_name m) ""); done.
Qed.
