(* ===== verification/Reporting.v ===== *)
(** * Handlers and loggers (core/interfaces.go, job/logger.go)

    The interfaces through which the library reports: panic handlers, metrics
    and rejection handlers of a scheduler, with the defaults that a scheduler
    falls back to, and the logger of a JobManager.  A call returns the lines it
    prints; [%v] and stack traces are parameters. *)

From stdpp Require Import pretty.
From S2P Require Import Prelude Task.

(** ** The handlers of a scheduler *)

Section handlers.
Context {V : Type} (sprint_v : V → string).

(** The interfaces, as what their methods print *)
Record PanicHandler := MkPanicHandler {
  HandlePanic : string → Z → V → string → list string;
}.
Record Metrics := MkMetrics {
  RecordTaskDuration : string → TaskPriority → Z → list string;
  RecordTaskPanic : string → V → list string;
  RecordQueueDepth : string → Z → list string;
  RecordTaskRejected : string → string → list string;
}.
Record RejectedTaskHandler := MkRejectedTaskHandler {
  HandleRejectedTask : string → string → list string;
}.

Definition DefaultPanicHandler : PanicHandler :=
  MkPanicHandler (λ runnerName workerID panicInfo stackTrace,
    [ (if (0 <=? workerID)%Z then "[Worker " +:+ pretty workerID +:+ " @ " +:+ runnerName
       else "[Runner " +:+ runnerName) +:+
      "] Panic: " +:+ sprint_v panicInfo +:+ nl +:+ "Stack trace:" +:+ nl +:+ stackTrace +:+ nl ]).
Definition NilMetrics : Metrics :=
  MkMetrics (λ _ _ _, []) (λ _ _, []) (λ _ _, []) (λ _ _, []).
Definition DefaultRejectedTaskHandler : RejectedTaskHandler :=
  MkRejectedTaskHandler (λ runnerName reason,
    ["[Runner " +:+ runnerName +:+ "] Task rejected: " +:+ reason +:+ nl]).

(** [None]: nil *)
Record TaskSchedulerConfig := MkConfig {
  cfg_panic : option PanicHandler;
  cfg_metrics : option Metrics;
  cfg_rejected : option RejectedTaskHandler;
}.
Definition DefaultTaskSchedulerConfig : TaskSchedulerConfig :=
  MkConfig (Some DefaultPanicHandler) (Some NilMetrics) (Some DefaultRejectedTaskHandler).

(** The handlers of a scheduler, as its constructors set them *)
Record Handlers := MkHandlers {
  panicHandler : PanicHandler; metrics : Metrics; rejectedTaskHandler : RejectedTaskHandler;
}.
Definition apply_config (config : option TaskSchedulerConfig) : Handlers :=
  let '(p, m, r) :=
    match config with
    | Some c => (cfg_panic c, cfg_metrics c, cfg_rejected c)
    | None => (None, None, None)
    end in
  MkHandlers (match p with Some p => p | None => DefaultPanicHandler end)
    (match m with Some m => m | None => NilMetrics end)
    (match r with Some r => r | None => DefaultRejectedTaskHandler end).
Definition NewPriorityTaskScheduler_handlers : Handlers := apply_config (Some DefaultTaskSchedulerConfig).
Definition GetPanicHandler (h : Handlers) : PanicHandler := panicHandler h.
Definition GetMetrics (h : Handlers) : Metrics := metrics h.

(** A scheduler has all its handlers, those it was given, and without a
    configuration the same as with the default one. *)
Lemma config_defaults :
  apply_config None = NewPriorityTaskScheduler_handlers ∧
  ∀ c, (∀ p, cfg_panic c = Some p → GetPanicHandler (apply_config (Some c)) = p) ∧
       (∀ m, cfg_metrics c = Some m → GetMetrics (apply_config (Some c)) = m) ∧
       (∀ r, cfg_rejected c = Some r → rejectedTaskHandler (apply_config (Some c)) = r).
Proof. split; [done|]. intros c. split_and!; intros x E; unfold apply_config; simpl; by rewrite E. Qed.
End handlers.

(** ** The loggers of a JobManager *)

Section loggers.
Context {V : Type} (sprint_v : V → string).

Record Field := MkField { Key : string; Value : V }.
Definition F (key : string) (value : V) : Field := MkField key value.

Class Logger := {
  Debug : string → list Field → list string;
  Info : string → list Field → list string;
  Warn : string → list Field → list string;
  Error : string → list Field → list string;
}.

Fixpoint log_fields (i : nat) (fields : list Field) (logMsg : string) : string :=
  match fields with
  | [] => logMsg
  | f :: fields =>
      let logMsg := if 0 <? i then logMsg +:+ ", " else logMsg in
      log_fields (S i) fields (logMsg +:+ Key f +:+ ": " +:+ sprint_v (Value f))
  end.
Definition log (level msg : string) (fields : list Field) : list string :=
  let logMsg := "[" +:+ level +:+ "] " +:+ msg in
  [ (if 0 <? length fields then log_fields 0 fields (logMsg +:+ " {") +:+ "}" else logMsg) +:+ nl ].

Definition NewDefaultLogger : Logger :=
  {| Debug := log "DEBUG"; Info := log "INFO"; Warn := log "WARN"; Error := log "ERROR" |}.
Definition NewNoOpLogger : Logger :=
  {| Debug _ _ := []; Info _ _ := []; Warn _ _ := []; Error _ _ := [] |}.

Definition field_text (f : Field) : string := Key f +:+ ": " +:+ sprint_v (Value f).
Lemma log_fields_rest i fields s :
  log_fields (S i) fields s = s +:+ String.concat "" ((λ f, ", " +:+ field_text f) <$> fields).
Proof.
  revert i s. induction fields as [|f fields IH]; intros i s; simpl; [by rewrite str_app_nil|].
  rewrite IH, !str_app_assoc. f_equal. destruct fields; simpl; [by rewrite str_app_nil|].
  unfold field_text. by rewrite !str_app_assoc.
Qed.
Lemma concat_cons sep x l : String.concat sep (x :: l) = x +:+ String.concat "" ((λ y, sep +:+ y) <$> l).
Proof.
  revert x. induction l as [|y l IH]; intros x; [by rewrite str_app_nil|].
  transitivity (x +:+ sep +:+ String.concat sep (y :: l)); [done|]. rewrite IH. f_equal.
  rewrite <- str_app_assoc. destruct l; [by rewrite str_app_nil|done].
Qed.

(** The loop of [log] separates the fields with commas. *)
Lemma log_format level msg fields :
  log level msg fields =
  [("[" +:+ level +:+ "] " +:+ msg) +:+
   match fields with [] => "" | _ => " {" +:+ String.concat ", " (field_text <$> fields) +:+ "}" end +:+ nl].
Proof.
  unfold log. destruct fields as [|f fields]; [done|].
  rewrite fmap_cons, concat_cons, <- list_fmap_compose. simpl. rewrite log_fields_rest.
  unfold field_text at 2. by rewrite !str_app_assoc.
Qed.
End loggers.
