(* ===== verification/Repeating.v ===== *)
(** * Repeating tasks
    (the handles and PostRepeatingTask* of core/sequenced_task_runner.go,
    core/single_thread_task_runner.go and core/parallel_task_runner.go)

    The closure that [createRepeatingTask] returns runs the task and posts a
    new copy of itself with the interval as delay.  [Pc] names its program
    points; each runner has its own text, a function from the flags it reads
    to the next point ([None]: the closure has returned).  [Chain] is one
    handle with all the copies of its closure: waiting for their delay, queued,
    running, returning.  A post adds a copy beside the one that makes it, which
    has still to return: the machine itself limits neither the copies nor the
    executions, only the texts do.  Time passes in steps of any length; a
    waiting or queued copy may be lost (the runner shut down, a full queue of a
    SingleThreadTaskRunner with the drop policy). *)

From S2P Require Import Prelude Task.

(** ** The closure *)

Inductive RunnerType := TSequenced | TSingleThread | TParallel.
#[export] Instance RunnerType_eq_dec : EqDecision RunnerType.
Proof. solve_decision. Defined.

Inductive Pc :=
| PClosed1     (** [if r.IsClosed() { return }] *)
| PStopped1    (** [if h.IsStopped() { return }] *)
| PTask        (** [h.task(ctx)] is called *)
| PRunning     (** the task runs *)
| PStopped2    (** [if !h.IsStopped() && ...] *)
| PClosed2     (** [if r.IsClosed() { return }] *)
| PRepost      (** [PostDelayedTaskWithTraits(h.createRepeatingTask(), ...)] *)
| PReturn.     (** the end of the closure *)

Record Handle := MkHandle { interval : Z; traits : TaskTraits; stopped : bool }.

(** How PostRepeatingTask* posts the first copy. *)
Inductive First := FDelayed (delay : Z) (traits : TaskTraits) | FNow (traits : TaskTraits).

Module SequencedRep.
Definition Stop (h : Handle) : Handle := MkHandle (interval h) (traits h) true.
Definition IsStopped (h : Handle) : bool := stopped h.

(** [runner] is the dynamic type of the runner found in the context. *)
Definition createRepeatingTask (runner : option RunnerType) (closed stopped : bool) (pc : Pc)
  : option Pc :=
  match pc with
  | PClosed1 => if bool_decide (runner = Some TSequenced) && closed then None else Some PStopped1
  | PStopped1 => if stopped then None else Some PTask
  | PTask => Some PRunning
  | PRunning => Some PStopped2
  | PStopped2 => if negb stopped && bool_decide (runner ≠ None) then Some PClosed2 else None
  | PClosed2 => if bool_decide (runner = Some TSequenced) && closed then None else Some PRepost
  | PRepost => Some PReturn
  | PReturn => None
  end.

(** [PostDelayedTaskWithTraits] hands the task to the pool without a look at
    the flag. *)
Definition accepts (closed : bool) : bool := true.

Definition PostRepeatingTaskWithInitialDelay (initialDelay interval : Z) (traits : TaskTraits)
  : Handle * First :=
  (MkHandle interval traits false,
   if (0 <? initialDelay)%Z then FDelayed initialDelay traits else FNow traits).
Definition PostRepeatingTaskWithTraits (interval : Z) (traits : TaskTraits) : Handle * First :=
  PostRepeatingTaskWithInitialDelay 0 interval traits.
Definition PostRepeatingTask (interval : Z) : Handle * First :=
  PostRepeatingTaskWithTraits interval DefaultTaskTraits.
End SequencedRep.

Module SingleThreadRep.
Definition Stop (h : Handle) : Handle := MkHandle (interval h) (traits h) true.
Definition IsStopped (h : Handle) : bool := stopped h.

(** The handle has its runner: the context is not asked. *)
Definition createRepeatingTask (closed stopped : bool) (pc : Pc) : option Pc :=
  match pc with
  | PClosed1 => if closed then None else Some PStopped1
  | PStopped1 => if stopped then None else Some PTask
  | PTask => Some PRunning
  | PRunning => Some PStopped2
  | PStopped2 => if negb stopped then Some PClosed2 else None
  | PClosed2 => if negb closed then Some PRepost else None
  | PRepost => Some PReturn
  | PReturn => None
  end.

Definition accepts (closed : bool) : bool := negb closed.

Definition PostRepeatingTaskWithInitialDelay (initialDelay interval : Z) (traits : TaskTraits)
  : Handle * First :=
  (MkHandle interval traits false,
   if (0 <? initialDelay)%Z then FDelayed initialDelay traits else FNow traits).
Definition PostRepeatingTaskWithTraits (interval : Z) (traits : TaskTraits) : Handle * First :=
  PostRepeatingTaskWithInitialDelay 0 interval traits.
Definition PostRepeatingTask (interval : Z) : Handle * First :=
  PostRepeatingTaskWithTraits interval DefaultTaskTraits.
End SingleThreadRep.

Module ParallelRep.
Definition Stop (h : Handle) : Handle := MkHandle (interval h) (traits h) true.
Definition IsStopped (h : Handle) : bool := stopped h.

Definition createRepeatingTask (runner : option RunnerType) (closed stopped : bool) (pc : Pc)
  : option Pc :=
  match pc with
  | PClosed1 => if bool_decide (runner = Some TParallel) && closed then None else Some PStopped1
  | PStopped1 => if stopped then None else Some PTask
  | PTask => Some PRunning
  | PRunning => Some PStopped2
  | PStopped2 => if negb stopped && bool_decide (runner ≠ None) then Some PClosed2 else None
  | PClosed2 => if bool_decide (runner = Some TParallel) && closed then None else Some PRepost
  | PRepost => Some PReturn
  | PReturn => None
  end.

(** [PostDelayedTaskWithTraitsNamed] looks at the flag first. *)
Definition accepts (closed : bool) : bool := negb closed.

Definition PostRepeatingTaskWithInitialDelay (initialDelay interval : Z) (traits : TaskTraits)
  : Handle * First :=
  (MkHandle interval traits false,
   if (0 <? initialDelay)%Z then FDelayed initialDelay traits else FNow traits).
Definition PostRepeatingTaskWithTraits (interval : Z) (traits : TaskTraits) : Handle * First :=
  PostRepeatingTaskWithInitialDelay 0 interval traits.
Definition PostRepeatingTask (interval : Z) : Handle * First :=
  PostRepeatingTaskWithTraits interval DefaultTaskTraits.
End ParallelRep.

(** ** What the machine asks of a runner

    The runner's text with its own type in the context, and whether its
    delayed post takes the copy.  [repeats_next] is the one text the three
    amount to. *)

Class Repeats := {
  next_pc : bool → bool → Pc → option Pc;
  post_accepts : bool → bool;
  repeats_next closed stopped pc :
    next_pc closed stopped pc =
    match pc with
    | PClosed1 => if closed then None else Some PStopped1
    | PStopped1 => if stopped then None else Some PTask
    | PTask => Some PRunning
    | PRunning => Some PStopped2
    | PStopped2 => if stopped then None else Some PClosed2
    | PClosed2 => if closed then None else Some PRepost
    | PRepost => Some PReturn
    | PReturn => None
    end;
  repeats_accepts : post_accepts false = true;
  post_repeating : Z → Z → TaskTraits → Handle * First;
  repeats_first initialDelay interval traits :
    post_repeating initialDelay interval traits =
      (MkHandle interval traits false,
       if (0 <? initialDelay)%Z then FDelayed initialDelay traits else FNow traits);
}.

Program Definition sequenced_repeats : Repeats := {|
  next_pc := SequencedRep.createRepeatingTask (Some TSequenced);
  post_accepts := SequencedRep.accepts;
  post_repeating := SequencedRep.PostRepeatingTaskWithInitialDelay |}.
Next Obligation. by intros [] [] []. Qed.
Next Obligation. done. Qed.
Next Obligation. done. Qed.
Program Definition single_thread_repeats : Repeats := {|
  next_pc := SingleThreadRep.createRepeatingTask; post_accepts := SingleThreadRep.accepts;
  post_repeating := SingleThreadRep.PostRepeatingTaskWithInitialDelay |}.
Next Obligation. by intros [] [] []. Qed.
Next Obligation. done. Qed.
Next Obligation. done. Qed.
Program Definition parallel_repeats : Repeats := {|
  next_pc := ParallelRep.createRepeatingTask (Some TParallel);
  post_accepts := ParallelRep.accepts;
  post_repeating := ParallelRep.PostRepeatingTaskWithInitialDelay |}.
Next Obligation. by intros [] [] []. Qed.
Next Obligation. done. Qed.
Next Obligation. done. Qed.

(** ** The machine *)

#[export] Instance Pc_eq_dec : EqDecision Pc.
Proof. solve_decision. Defined.
Inductive Place := InDelay (due : Z) | InQueue | At (pc : Pc).
#[export] Instance Place_eq_dec : EqDecision Place.
Proof. solve_decision. Defined.

Inductive Ev :=
| EvStart (t : Z)
| EvEnd (t : Z) (panicked : bool)
| EvLost.

Record Chain := MkChain {
  handle : Handle;
  closed : bool;
  clock : Z;
  places : list Place;
  log : list Ev;
}.

Definition NewChain (start : Handle * First) : Chain :=
  MkChain start.1 false 0
    [match start.2 with FDelayed delay _ => InDelay delay | FNow _ => InQueue end] [].

Inductive Label :=
| LStop                            (** handle.Stop() *)
| LClose                           (** the runner's Shutdown or Stop *)
| LTick (d : Z)
| LDue (k : nat)                   (** a delay is over: the copy is queued *)
| LLost (k : nat)
| LRun (k : nat)                   (** the runner takes the copy *)
| LStep (k : nat)
| LReturn (k : nat)                (** the closure returns to its caller *)
| LEnd (k : nat) (panics : bool).  (** the task ends *)

Section machine.
Context {R : Repeats}.

Definition set_places (ps : list Place) (c : Chain) : Chain :=
  MkChain (handle c) (closed c) (clock c) ps (log c).
Definition log_ev (e : Ev) (c : Chain) : Chain :=
  MkChain (handle c) (closed c) (clock c) (places c) (log c ++ [e]).
Definition move (k : nat) (p : Place) (c : Chain) : Chain := set_places (<[k := p]> (places c)) c.
Definition leave (k : nat) (c : Chain) : Chain := set_places (delete k (places c)) c.

(** What a copy at a program point does there. *)
Definition act_at (pc : Pc) (c : Chain) : Chain :=
  match pc with
  | PTask => log_ev (EvStart (clock c)) c
  | PRepost =>
      if post_accepts (closed c)
      then set_places (places c ++ [InDelay (clock c + interval (handle c))]) c
      else c
  | _ => c
  end.
(** The copy goes on to the next point of the text, or is gone. *)
Definition advance (k : nat) (pc : Pc) (c : Chain) : Chain :=
  match next_pc (closed c) (stopped (handle c)) pc with
  | Some pc => move k (At pc) c
  | None => leave k c
  end.

Definition step (l : Label) (c : Chain) : option Chain :=
  match l with
  | LStop => Some (MkChain (SequencedRep.Stop (handle c)) (closed c) (clock c) (places c) (log c))
  | LClose => Some (MkChain (handle c) true (clock c) (places c) (log c))
  | LTick d =>
      if (0 <? d)%Z then Some (MkChain (handle c) (closed c) (clock c + d) (places c) (log c)) else None
  | LDue k =>
      match places c !! k with
      | Some (InDelay due) => if (due <=? clock c)%Z then Some (move k InQueue c) else None
      | _ => None
      end
  | LLost k =>
      match places c !! k with
      | Some (InDelay _) | Some InQueue => Some (log_ev EvLost (leave k c))
      | _ => None
      end
  | LRun k =>
      match places c !! k with Some InQueue => Some (move k (At PClosed1) c) | _ => None end
  | LStep k =>
      match places c !! k with
      | Some (At PRunning) | Some (At PReturn) => None
      | Some (At pc) => Some (advance k pc (act_at pc c))
      | _ => None
      end
  | LReturn k =>
      match places c !! k with Some (At PReturn) => Some (advance k PReturn c) | _ => None end
  | LEnd k panics =>
      match places c !! k with
      | Some (At PRunning) =>
          let c := log_ev (EvEnd (clock c) panics) c in
          Some (if panics then leave k c else advance k PRunning c)
      | _ => None
      end
  end.

(** ** Counting, times *)

Definition w_start (e : Ev) : Z := match e with EvStart _ => 1 | _ => 0 end.
Definition w_end (e : Ev) : Z := match e with EvEnd _ _ => 1 | _ => 0 end.
Definition starts (c : Chain) : Z := total w_start (log c).
Definition ends (c : Chain) : Z := total w_end (log c).
Definition w_running (p : Place) : Z := match p with At PRunning => 1 | _ => 0 end.
Definition running_now (c : Chain) : Z := total w_running (places c).

(** Copies that can still do something, and copies that only have to return. *)
Definition live (p : Place) : Z := match p with At PReturn => 0 | _ => 1 end.
Definition returning (p : Place) : Z := match p with At PReturn => 1 | _ => 0 end.

(** When the task may start next: the interval after its last end. *)
Definition release_after (i : Z) (r : Z) (e : Ev) : Z :=
  match e with EvEnd t _ => (t + i)%Z | _ => r end.
Definition release (d0 i : Z) (l : list Ev) : Z := fold_left (release_after i) l d0.
Definition first_delay (f : First) : Z := match f with FDelayed d _ => d | FNow _ => 0%Z end.

Lemma release_snoc d0 i l e : release d0 i (l ++ [e]) = release_after i (release d0 i l) e.
Proof. unfold release. by rewrite fold_left_app. Qed.

(** The copies of the closure that are late enough. *)
Definition timely (d0 i now : Z) (l : list Ev) (p : Place) : Prop :=
  match p with
  | InDelay due => (release d0 i l <= due)%Z
  | InQueue | At PClosed1 | At PStopped1 | At PTask => (release d0 i l <= now)%Z
  | At PRunning | At PReturn => True
  | At PStopped2 | At PClosed2 | At PRepost => (release d0 i l <= now + i)%Z
  end.

Record chain_inv (start : Handle * First) (c : Chain) : Prop := {
  ci_interval : interval (handle c) = interval start.1;
  ci_live : (total live (places c) <= 1)%Z;
  ci_open : (starts c - ends c = running_now c)%Z;
  ci_timely : Forall (timely (first_delay start.2) (interval start.1) (clock c) (log c)) (places c);
  ci_past l1 t l2 : log c = l1 ++ EvStart t :: l2 →
    (release (first_delay start.2) (interval start.1) l1 <= t)%Z;
  ci_alive : stopped (handle c) = false → closed c = false → EvLost ∉ log c →
    (∀ t, EvEnd t true ∉ log c) → total live (places c) = 1%Z;
}.

Lemma timely_tick d0 i now d l p : (0 < d)%Z → timely d0 i now l p → timely d0 i (now + d) l p.
Proof. intros Hd. destruct p as [| |[]]; simpl; lia. Qed.

Lemma past_start (P : list Ev → Z → Prop) l y :
  (∀ l1 t l2, l = l1 ++ EvStart t :: l2 → P l1 t) → (∀ t, y = EvStart t → P l t) →
  ∀ l1 t l2, l ++ [y] = l1 ++ EvStart t :: l2 → P l1 t.
Proof.
  intros Hl Hy l1 t l2. destruct l2 as [|z l2 _] using rev_ind.
  - intros [-> [= ->]]%app_inj_2; [|done]. by apply Hy.
  - rewrite app_comm_cons, app_assoc. intros [E0 _]%app_inj_2; [|done]. by eapply Hl.
Qed.

Lemma live_nonneg p : (0 <= live p)%Z.
Proof. by destruct p as [| |[]]. Qed.
Lemma not_live p : live p = 0%Z → p = At PReturn.
Proof. by destruct p as [| |[]]. Qed.

Lemma chain_inv_init h f : (0 <= first_delay f)%Z → chain_inv (h, f) (NewChain (h, f)).
Proof.
  intros Hf. split; simpl; try done; try lia.
  - by destruct f.
  - by destruct f.
  - apply Forall_singleton. destruct f; simpl in *; unfold release; simpl; lia.
  - by destruct l1.
  - by destruct f.
Qed.

(** Beside a live copy, the others are returning. *)
Lemma live_alone start c k p j q :
  chain_inv start c → places c !! k = Some p → live p = 1%Z →
  j ≠ k → places c !! j = Some q → q = At PReturn.
Proof.
  intros Hi Hk Hp Hjk Hj. apply not_live. pose proof (ci_live _ _ Hi) as H1.
  pose proof (total_lookup2_le live (places c) j k q p live_nonneg Hjk Hj Hk) as H2.
  pose proof (live_nonneg q). lia.
Qed.

Lemma Forall_delete_others {A} (P : A → Prop) k l :
  (∀ j q, j ≠ k → l !! j = Some q → P q) → Forall P (delete k l).
Proof.
  intros H. apply Forall_lookup. intros j q Hj. destruct (decide (j < k)) as [Hlt|Hge].
  - rewrite list_lookup_delete_lt in Hj by done. apply (H j); [lia|done].
  - rewrite list_lookup_delete_ge in Hj by lia. apply (H (S j)); [lia|done].
Qed.

(** The copies change and the log does not. *)
Lemma chain_inv_places start c ps :
  chain_inv start c →
  total w_running ps = total w_running (places c) →
  Forall (timely (first_delay start.2) (interval start.1) (clock c) (log c)) ps →
  (total live ps = total live (places c) ∨
   (total live ps <= total live (places c))%Z ∧ (closed c = true ∨ stopped (handle c) = true)) →
  chain_inv start (set_places ps c).
Proof.
  intros [H1 H2 H3 H4 H5 H6] Hr Ht Hl. split; simpl; try done.
  - destruct Hl as [->|[? _]]; lia.
  - unfold running_now in *. unfold starts, ends in *. simpl. lia.
  - intros E1 E2 E3 E4. destruct Hl as [->|[_ [E|E]]]; [by apply H6|congruence..].
Qed.

Lemma chain_inv_move start c k p p' :
  chain_inv start c → places c !! k = Some p →
  w_running p' = w_running p → live p' = live p →
  timely (first_delay start.2) (interval start.1) (clock c) (log c) p' →
  chain_inv start (move k p' c).
Proof.
  intros Hi Hk Hr Hl Ht. pose proof (ci_timely _ _ Hi). apply chain_inv_places; [done|..].
  - rw_total. lia.
  - by apply Forall_insert.
  - left. rw_total. lia.
Qed.

Lemma chain_inv_leave start c k p :
  chain_inv start c → places c !! k = Some p → w_running p = 0%Z →
  live p = 0%Z ∨ closed c = true ∨ stopped (handle c) = true →
  chain_inv start (leave k c).
Proof.
  intros Hi Hk Hr Hd. pose proof (ci_timely _ _ Hi). pose proof (live_nonneg p).
  apply chain_inv_places; [done|..].
  - rw_total. lia.
  - by apply Forall_delete.
  - destruct Hd as [Hd|Hd]; [left|right; split; [|done]]; rw_total; lia.
Qed.

Lemma chain_inv_repost start c k :
  chain_inv start c → places c !! k = Some (At PRepost) →
  chain_inv start (advance k PRepost (act_at PRepost c)).
Proof.
  intros Hi Hk. pose proof (ci_timely _ _ Hi) as H4. pose proof (ci_interval _ _ Hi) as H1.
  pose proof (proj1 (Forall_lookup _ _) H4 _ _ Hk) as Hp. simpl in Hp.
  unfold advance, act_at. rewrite repeats_next.
  destruct (post_accepts (closed c)) eqn:Ea; simpl.
  - apply (chain_inv_places start c (<[k := At PReturn]> (places c ++ _))); [done|..].
    + rewrite insert_app_l by (by eapply lookup_lt_Some). rw_total. simpl. lia.
    + apply Forall_insert; [|done]. apply Forall_app. split; [done|].
      apply Forall_singleton. simpl. lia.
    + left. rewrite insert_app_l by (by eapply lookup_lt_Some). rw_total. simpl. lia.
  - apply (chain_inv_places start c); [done|..].
    + rw_total. simpl. lia.
    + by apply Forall_insert.
    + right. rw_total. simpl. split; [lia|]. left.
      destruct (closed c); [done|]. by rewrite repeats_accepts in Ea.
Qed.

Lemma chain_inv_lost start c k p :
  chain_inv start c → places c !! k = Some p → w_running p = 0%Z →
  chain_inv start (log_ev EvLost (leave k c)).
Proof.
  intros [H1 H2 H3 H4 H5 H6] Hk Hr. pose proof (live_nonneg p). split; simpl; try done.
  - rw_total. lia.
  - unfold starts, ends, running_now in *. simpl. rw_total. simpl. lia.
  - eapply Forall_impl; [by apply Forall_delete|]. intros [| |[]]; simpl; by rewrite ?release_snoc.
  - by apply (past_start (λ l1 t, (release _ _ l1 <= t)%Z)).
  - intros _ _ Hl. set_solver.
Qed.

Lemma chain_inv_start start c k :
  chain_inv start c → places c !! k = Some (At PTask) →
  chain_inv start (advance k PTask (act_at PTask c)).
Proof.
  intros Hi Hk. pose proof Hi as [H1 H2 H3 H4 H5 H6].
  pose proof (proj1 (Forall_lookup _ _) H4 _ _ Hk) as Hp. simpl in Hp.
  unfold advance, act_at. rewrite repeats_next. split; simpl; try done.
  - rw_total. simpl. lia.
  - unfold starts, ends, running_now in *. simpl. rw_total. simpl. lia.
  - apply Forall_insert; [|done].
    eapply Forall_impl; [done|]. intros [| |[]]; simpl; by rewrite ?release_snoc.
  - apply (past_start (λ l1 t, (release _ _ l1 <= t)%Z)); [done|]. by intros t [= <-].
  - intros E1 E2 E3 E4. rw_total. simpl. rewrite H6; [done..|set_solver|set_solver].
Qed.

Lemma chain_inv_end start c k (panics : bool) :
  chain_inv start c → places c !! k = Some (At PRunning) →
  chain_inv start (let c := log_ev (EvEnd (clock c) panics) c in
                   if panics then leave k c else advance k PRunning c).
Proof.
  intros Hi Hk. pose proof Hi as [H1 H2 H3 H4 H5 H6].
  unfold advance. rewrite repeats_next.
  assert (∀ P : Place → Prop, P (At PReturn) → ∀ j q, j ≠ k → places c !! j = Some q → P q) as Hothers.
  { intros P HP j q Hjk Hj. by rewrite (live_alone _ _ _ _ _ _ Hi Hk eq_refl Hjk Hj). }
  cbv zeta. split; simpl.
  - by destruct panics.
  - destruct panics; simpl; rw_total; simpl; lia.
  - unfold starts, ends, running_now in *. destruct panics; simpl; rw_total; simpl; lia.
  - destruct panics; simpl.
    + by apply Forall_delete_others, Hothers.
    + apply Forall_lookup. intros j q Hj. destruct (decide (j = k)) as [->|Hjk].
      * rewrite list_lookup_insert_eq in Hj by (by eapply lookup_lt_Some). simplify_eq. simpl.
        rewrite release_snoc. simpl. lia.
      * rewrite list_lookup_insert_ne in Hj by done. by eapply Hothers.
  - destruct panics; simpl; by apply (past_start (λ l1 t, (release _ _ l1 <= t)%Z)).
  - destruct panics; simpl; intros E1 E2 E3 E4.
    + destruct (E4 (clock c)). set_solver.
    + rw_total. simpl. rewrite H6; [done..|set_solver|set_solver].
Qed.

Lemma chain_inv_step start l c c' : chain_inv start c → step l c = Some c' → chain_inv start c'.
Proof.
  intros Hi E0. pose proof Hi as [H1 H2 H3 H4 H5 H6].
  destruct l as [| |d|k|k|k|k|k|k panics]; cbn [step] in E0.
  1, 2: simplify_eq; split; simpl; done.
  { destruct (Z.ltb_spec 0 d); simplify_eq. split; simpl; try done.
    eapply Forall_impl; [done|]. intros. by apply timely_tick. }
  all: destruct (places c !! k) as [p|] eqn:Ek; [|done];
    pose proof (proj1 (Forall_lookup _ _) H4 _ _ Ek) as Hp.
  - destruct p as [due| |pc]; try done. destruct (Z.leb_spec due (clock c)); simplify_eq.
    eapply chain_inv_move; [done..|]. simpl in *. lia.
  - destruct p as [due| |pc]; simplify_eq; by eapply chain_inv_lost.
  - destruct p as [due| |pc]; simplify_eq. by eapply chain_inv_move.
  - destruct p as [due| |pc]; try done.
    destruct pc; simplify_eq; try (by apply chain_inv_start); try (by apply chain_inv_repost).
    all: unfold advance, act_at; rewrite repeats_next;
      destruct (closed c) eqn:?, (stopped (handle c)) eqn:?;
      first [(eapply chain_inv_leave; [exact Hi|exact Ek|done|by auto])|(eapply chain_inv_move; [exact Hi|exact Ek|done..])].
  - destruct p as [due| |[]]; simplify_eq. unfold advance. rewrite repeats_next.
    eapply chain_inv_leave; [done..|by left].
  - destruct p as [due| |[]]; simplify_eq. by apply chain_inv_end.
Qed.

Lemma chain_inv_reach h f c :
  (0 <= first_delay f)%Z → reachable step (NewChain (h, f)) c → chain_inv (h, f) c.
Proof.
  intros Hf. apply reachable_invariant; [by apply chain_inv_init|]. intros; by eapply chain_inv_step.
Qed.

(** ** After Stop or Shutdown *)

(** Steps of the closure's copies, returns apart *)
Definition w_move (l : Label) : Z :=
  match l with LStop | LClose | LTick _ | LReturn _ => 0 | _ => 1 end.
Definition w_return (l : Label) : Z := match l with LReturn _ => 1 | _ => 0 end.

(** How far a copy can still get once the handle is stopped, once the runner
    is closed. *)
Definition left_stopped (p : Place) : Z :=
  match p with
  | At PTask => 9 | At PRunning => 8 | At PStopped2 => 7 | At PClosed2 => 6 | At PRepost => 5
  | InDelay _ => 4 | InQueue => 3 | At PClosed1 => 2 | At PStopped1 => 1 | At PReturn => 0
  end.
Definition left_closed (p : Place) : Z :=
  match p with
  | At PStopped1 => 9 | At PTask => 8 | At PRunning => 7 | At PStopped2 => 6 | At PClosed2 => 5
  | At PRepost => 4 | InDelay _ => 3 | InQueue => 2 | At PClosed1 => 1 | At PReturn => 0
  end.
(** Copies past the last check before the task. *)
Definition past_stopped (p : Place) : Z := match p with At PTask => 1 | _ => 0 end.
Definition past_closed (p : Place) : Z := match p with At PTask | At PStopped1 => 1 | _ => 0 end.
(** Copies that return from the end of the closure, now or later. *)
Definition return_stopped (p : Place) : Z :=
  match p with At PReturn | At PRepost | At PClosed2 => 1 | _ => 0 end.
Definition return_closed (p : Place) : Z := match p with At PReturn | At PRepost => 1 | _ => 0 end.

(** [ends_chain flag left past ret]: with the flag set, [left] bounds the moves,
    [past] the starts and [ret] the returns to come. *)
Definition ends_chain (flag : Chain → bool) (left past ret : Place → Z) : Prop :=
  ∀ l c c', flag c = true → step l c = Some c' →
    flag c' = true ∧
    (total left (places c') + w_move l <= total left (places c))%Z ∧
    (starts c' + total past (places c') <= starts c + total past (places c))%Z ∧
    (total ret (places c') + w_return l <= total ret (places c))%Z.

Ltac chain_done Ek :=
  unfold advance, act_at, move, leave; rewrite ?repeats_next;
  repeat case_match; simplify_eq; simpl in *; rewrite ?insert_app_l by (by eapply lookup_lt_Some);
  rw_total; simpl; try congruence; repeat split; try (done || lia).
Ltac chain_cases E0 :=
  match type of E0 with step ?l ?c = _ =>
    destruct l as [| |d|k|k|k|k|k|k panics]; cbn [step] in E0; unfold starts in *;
    [simplify_eq; simpl; repeat split; (done || lia)
    |simplify_eq; simpl; repeat split; (done || lia)
    |destruct (Z.ltb_spec 0 d); simplify_eq; simpl; repeat split; (done || lia)|..];
    (destruct (places c !! k) as [p|] eqn:Ek; [|done]);
    destruct p as [due| |[]]; try discriminate E0;
    [repeat case_match; simplify_eq; chain_done Ek ..]
  end.

Lemma stopped_ends_chain : 
  ends_chain (λ c, stopped (handle c)) left_stopped past_stopped return_stopped.
Proof. intros l c c' Hf E0. chain_cases E0. Qed.

Lemma closed_ends_chain : ends_chain closed left_closed past_closed return_closed.
Proof. intros l c c' Hf E0. chain_cases E0. Qed.

Lemma ends_chain_run flag left past ret ls c c' :
  ends_chain flag left past ret →
  (∀ p, 0 <= left p)%Z → (∀ p, 0 <= past p)%Z → (∀ p, 0 <= ret p)%Z →
  flag c = true → run step ls c = Some c' →
  (total w_move ls <= total left (places c))%Z ∧
  (starts c' <= starts c + total past (places c))%Z ∧
  (total w_return ls <= total ret (places c))%Z.
Proof.
  intros He Hl Hp Hret. revert c. induction ls as [|l ls IH]; intros c Hf; cbn [run].
  - intros [= ->]. pose proof (total_nonneg left (places c') Hl).
    pose proof (total_nonneg past (places c') Hp).
    pose proof (total_nonneg ret (places c') Hret). simpl. lia.
  - destruct (step l c) as [c1|] eqn:E1; [|done]. cbn [mbind option_bind]. intros E2.
    destruct (He _ _ _ Hf E1) as (Hf1 & H1 & H2 & H3).
    destruct (IH c1) as (H4 & H5 & H6); [done..|]. simpl. lia.
Qed.

(** What at most one live copy makes of the bounds. *)
Lemma live_bound (w : Place → Z) b ps :
  (total live ps <= 1)%Z → (0 <= b)%Z → (∀ p, w p <= b * live p)%Z → (total w ps <= b)%Z.
Proof.
  intros H1 Hb Hw. etrans; [exact (total_le _ _ _ Hw)|]. rewrite total_scale. nia.
Qed.
Lemma live_past (past : Place → Z) (P : Prop) `{Decision P} ps :
  (total live ps <= 1)%Z → (∀ p, past p <= 1 * live p)%Z →
  (∀ p, p ∈ ps → (0 < past p)%Z → P) → (total past ps <= b2z (bool_decide P))%Z.
Proof.
  intros H1 Hw HP. pose proof (live_bound past 1 ps H1 ltac:(lia) Hw) as H2.
  destruct (decide (0 < total past ps)%Z) as [Hpos|]; [|case_bool_decide; simpl; lia].
  destruct (total_pos_lookup _ _ Hpos) as (i & p & Hi & Hp).
  rewrite bool_decide_true; [simpl; lia|]. eapply HP; [by eapply list_elem_of_lookup_2|done].
Qed.

Lemma returns_bound ret ps :
  (total live ps <= 1)%Z → (∀ p, ret p - returning p <= 1 * live p)%Z →
  (total ret ps <= total returning ps + 1)%Z.
Proof.
  intros H1 Hw. pose proof (live_bound (λ p, ret p - returning p)%Z 1 ps H1 ltac:(lia) Hw) as H2.
  pose proof (total_add (λ p, ret p - returning p)%Z returning ps) as H3.
  rewrite (total_ext (λ p, ret p - returning p + returning p)%Z ret) in H3 by (intros; lia). lia.
Qed.

Definition posted (d0 i : Z) (tr : TaskTraits) : Chain := NewChain (post_repeating d0 i tr).

Lemma posted_reach d0 i tr c :
  reachable step (posted d0 i tr) c → chain_inv (post_repeating d0 i tr) c.
Proof.
  unfold posted. rewrite repeats_first. apply chain_inv_reach.
  destruct (Z.ltb_spec 0 d0); simpl; lia.
Qed.

(** ** Theorems *)

(** C24. A repeating task never overlaps itself, on any of the three runners: although a
    closure posts its next copy before it returns, in every reachable state at most one copy
    is more than just returning (waiting, queued or running), and at most one execution has
    started without having ended. *)
Theorem rep_one_at_a_time d0 i tr c :
  reachable step (posted d0 i tr) c →
  (total live (places c) <= 1)%Z ∧ (0 <= starts c - ends c <= 1)%Z.
Proof.
  intros Hr. destruct (posted_reach _ _ _ _ Hr) as [_ H2 H3 _ _ _]. split; [done|].
  rewrite H3. unfold running_now. split.
  - apply total_nonneg. by intros [| |[]].
  - apply live_bound; [done|lia|by intros [| |[]]].
Qed.

(** C26. Repeating tasks have a fixed delay: the first execution starts no earlier than the
    initial delay, and each later one no earlier than one interval after the end of the one
    before. *)
Theorem rep_fixed_delay d0 i tr c l1 t l2 :
  reachable step (posted d0 i tr) c →
  log c = l1 ++ EvStart t :: l2 → (release (Z.max 0 d0) i l1 <= t)%Z.
Proof.
  intros Hr Hl. pose proof (ci_past _ _ (posted_reach _ _ _ _ Hr) _ _ _ Hl) as Ht.
  rewrite repeats_first in Ht. destruct (Z.ltb_spec 0 d0) as [H1|H1]; simpl in Ht.
  - by rewrite Z.max_r by lia.
  - by rewrite Z.max_l by lia.
Qed.

(** C20. A repeating task goes on: as long as nobody stopped the handle or closed the runner,
    no post of it was lost and its task has not panicked, exactly one copy of its closure is
    waiting, queued or running (others may be returning). *)
Theorem rep_keeps_going d0 i tr c :
  reachable step (posted d0 i tr) c →
  SequencedRep.IsStopped (handle c) = false → closed c = false → EvLost ∉ log c →
  (∀ t, EvEnd t true ∉ log c) →
  total live (places c) = 1%Z.
Proof. intros Hr E1 E2 E3 E4. exact (ci_alive _ _ (posted_reach _ _ _ _ Hr) E1 E2 E3 E4). Qed.

(** C29. A repeating task ends: once its handle is stopped, or its runner closed, the copies
    of its closure make at most nine more moves, beside the returns of those that are
    returning and of one more, and only an execution that was past its check still starts. *)
Theorem rep_stops d0 i tr c ls c' :
  reachable step (posted d0 i tr) c → run step ls c = Some c' →
  (SequencedRep.IsStopped (handle c) = true →
     (total w_move ls <= 9)%Z ∧ (starts c' <= starts c + b2z (bool_decide (At PTask ∈ places c)))%Z ∧
     (total w_return ls <= total returning (places c) + 1)%Z) ∧
  (closed c = true →
     (total w_move ls <= 9)%Z ∧
     (starts c' <= starts c +
        b2z (bool_decide (At PTask ∈ places c ∨ At PStopped1 ∈ places c)))%Z ∧
     (total w_return ls <= total returning (places c) + 1)%Z).
Proof.
  intros Hr Hrun. pose proof (ci_live _ _ (posted_reach _ _ _ _ Hr)) as Hs.
  split; intros Hflag.
  - destruct (ends_chain_run _ _ _ _ _ _ _ stopped_ends_chain
      ltac:(by intros [| |[]]) ltac:(by intros [| |[]]) ltac:(by intros [| |[]]) Hflag Hrun) as (H1 & H2 & H3).
    pose proof (returns_bound return_stopped _ Hs ltac:(by intros [| |[]])).
    pose proof (live_bound left_stopped 9 _ Hs ltac:(lia) ltac:(by intros [| |[]])).
    pose proof (live_past past_stopped (At PTask ∈ places c) _ Hs ltac:(by intros [| |[]])
      ltac:(by intros [| |[]])). lia.
  - destruct (ends_chain_run _ _ _ _ _ _ _ closed_ends_chain
      ltac:(by intros [| |[]]) ltac:(by intros [| |[]]) ltac:(by intros [| |[]]) Hflag Hrun) as (H1 & H2 & H3).
    pose proof (returns_bound return_closed _ Hs ltac:(by intros [| |[]])).
    pose proof (live_bound left_closed 9 _ Hs ltac:(lia) ltac:(by intros [| |[]])).
    pose proof (live_past past_closed (At PTask ∈ places c ∨ At PStopped1 ∈ places c) _ Hs
      ltac:(by intros [| |[]]) ltac:(intros [| |[]]; simpl; auto; lia)). lia.
Qed.
End machine.

(** ** Concrete runs *)

Module RepeatDemo.
#[local] Existing Instance parallel_repeats.
(** Two executions; the first copy is still returning when the second is
    queued; Stop comes when the third is past its check. *)
Definition schedule : list Label :=
  [LTick 5; LDue 0; LRun 0; LStep 0; LStep 0; LStep 0; LTick 3; LEnd 0 false; LStep 0; LStep 0; LStep 0;
   LTick 20; LDue 1; LReturn 0; LRun 0; LStep 0; LStep 0; LStep 0; LEnd 0 false; LStep 0; LStep 0;
   LStep 0; LTick 10; LDue 1; LRun 1; LStep 1; LStep 1; LStop].
Definition rest : list Label := [LStep 1; LReturn 0; LTick 1; LEnd 0 false; LStep 0].
Definition start : Chain := posted 5 10 DefaultTaskTraits.
Definition stopping : Chain := default start (run step schedule start).
Definition over : Chain := default start (run step rest stopping).
Lemma stopping_reach : reachable step start stopping.
Proof. apply (run_reachable step schedule). vm_compute. reflexivity. Qed.
Definition again : list Label :=
  take 11 schedule ++ [LTick 20; LDue 1; LRun 1; LStep 1; LStep 1; LStep 1].
Definition going : Chain := default start (run step again start).
Lemma going_reach : reachable step start going.
Proof. apply (run_reachable step again). vm_compute. reflexivity. Qed.
End RepeatDemo.
Import RepeatDemo.

Lemma rep_one_at_a_time_witness :
  ((total live (places stopping) <= 1)%Z ∧ (0 <= starts stopping - ends stopping <= 1)%Z) ∧
  places stopping = [At PReturn; At PTask].
Proof.
  split; [|vm_compute; reflexivity].
  apply (rep_one_at_a_time (R:=parallel_repeats) 5 10 DefaultTaskTraits stopping).
  exact stopping_reach.
Defined.

Lemma rep_fixed_delay_witness :
  (release 5 10 (take 2 (log stopping)) <= 28)%Z ∧ release 5 10 (take 2 (log stopping)) = 18%Z.
Proof.
  split; [|vm_compute; reflexivity].
  apply (rep_fixed_delay (R:=parallel_repeats) 5 10 DefaultTaskTraits stopping
    (take 2 (log stopping)) 28 (drop 3 (log stopping))).
  - exact stopping_reach.
  - vm_compute. reflexivity.
Defined.

(** The first copy is returning, the second runs. *)
Lemma rep_keeps_going_witness :
  total live (places going) = 1%Z ∧ places going = [At PReturn; At PRunning].
Proof.
  assert (log going = [EvStart 5; EvEnd 8 false; EvStart 28]) as E by (vm_compute; reflexivity).
  split; [|vm_compute; reflexivity].
  apply (rep_keeps_going (R:=parallel_repeats) 5 10 DefaultTaskTraits going).
  - exact going_reach.
  - vm_compute. reflexivity.
  - vm_compute. reflexivity.
  - rewrite E. set_solver.
  - intros t. rewrite E. set_solver.
Defined.

Lemma rep_stops_witness :
  ((total w_move rest <= 9)%Z ∧
   (starts over <= starts stopping + b2z (bool_decide (At PTask ∈ places stopping)))%Z ∧
   (total w_return rest <= total returning (places stopping) + 1)%Z) ∧
  places over = [] ∧ starts over = 3%Z.
Proof.
  split; [|split; vm_compute; reflexivity].
  apply (proj1 (rep_stops (R:=parallel_repeats) 5 10 DefaultTaskTraits stopping rest over
    stopping_reach ltac:(vm_compute; reflexivity))).
  vm_compute. reflexivity.
Defined.
