(* ===== verification/TaskAndReply.v ===== *)
(** * Tasks with a reply (core/task_and_reply.go)

    A Go closure is the datum of the variables it captures: [Wrapped] and
    [Closure] have one constructor per closure of the file.  [result] and
    [err], the variables a task and its reply share, are heap cells, one pair
    per call.  The runners are seen through their interface: what is posted
    may be run by any runner in any order, several at once, or be dropped (a
    closed runner); the other files prove what each runner does with it.  The
    API functions and the closures' bodies are written with the primitives
    [post], [log_ev] and the cells.  A call is named by its number. *)

From S2P Require Import Prelude GoSlice Task.

(** ** Data *)

(** What a runner's [GetThreadPool] returns, as [getPanicRecovery] sees it. *)
Inductive ThreadPool :=
| NilPool
| NoAccessor                                  (** no method GetScheduler *)
| WithScheduler (s : option (bool * bool)).   (** nil, or has it a handler, metrics *)

Record TaskRunner := MkTaskRunner { GetThreadPool : ThreadPool; Name : string }.

Record panicRecoveryContext := MkPRC {
  handler : bool; metrics : bool; runnerName : string; workerID : Z
}.

Definition getPanicRecovery (tp : ThreadPool) (runnerName : string) : panicRecoveryContext :=
  match tp with
  | NilPool => MkPRC false false "" 0
  | NoAccessor | WithScheduler None => MkPRC false false "" 0
  | WithScheduler (Some (h, m)) => MkPRC h m runnerName (-1)
  end.

(** The calls of the API *)
Inductive Call :=
| PlainCall (r : nat) (replyRunner : option nat)
| PlainTraitsCall (r : nat) (taskTraits replyTraits : TaskTraits) (replyRunner : option nat)
| ResultCall (r : nat) (replyRunner : option nat)
| ResultTraitsCall (r : nat) (taskTraits replyTraits : TaskTraits) (replyRunner : option nat)
| DelayedCall (r : nat) (delay : Z) (replyRunner : option nat)
| DelayedTraitsCall (r : nat) (delay : Z) (taskTraits replyTraits : TaskTraits)
    (replyRunner : option nat).

Section task_and_reply.
Context {T E : Type} `{GoZero T}.

(** The user's task ends with a result (without one it is the zero value), or
    panics; then the panic handler may panic as well. *)
Inductive Outcome :=
| Returns (result : T) (err : option E)
| Panics (handler_panics : bool).

(** A task: the user's, or [result, err = task(ctx)]. *)
Inductive Wrapped := WUser (n : nat) | WCapture (n : nat).
(** A reply: the user's, or [reply(ctx, result, err)]. *)
Inductive Reply := RUser (n : nat) | RDeliver (n : nat).

Inductive Closure :=
| CNoReply (task : Wrapped) (prc : panicRecoveryContext)
| CTask (task : Wrapped) (prc : panicRecoveryContext) (reply : Reply) (replyTraits : TaskTraits)
    (replyRunner : nat)
| CDelayed (targetRunner : nat) (task : Wrapped) (reply : Reply) (replyTraits : TaskTraits)
    (replyRunner : option nat)
| CReply (reply : Reply).

Inductive Ev :=
| EvPost (r : nat) (traits : TaskTraits) (n : nat)        (** the call posts to the target *)
| EvEnd (n : nat) (o : Outcome)                           (** the user's task ended *)
| EvHandle (n : nat) (prc : panicRecoveryContext)         (** HandlePanic *)
| EvPrint (n : nat)                                       (** fmt.Printf *)
| EvMetric (n : nat) (prc : panicRecoveryContext)         (** RecordTaskPanic *)
| EvPostReply (r : nat) (traits : TaskTraits) (n : nat)
| EvReply (n : nat) (seen : option (T * option E)).       (** the user's reply runs *)

Record Posted := MkPosted {
  p_runner : nat; p_closure : Closure; p_traits : TaskTraits; p_delay : Z
}.

Record World := MkWorld {
  runners : list TaskRunner;
  cells : gmap nat (T * option E);
  posted : list Posted;                           (** not yet started *)
  running : list (Closure * panicRecoveryContext);  (** the user's part has not ended *)
  log : list Ev;
  next : nat;                                     (** number of calls *)
  dropped : list Closure;
  requests : list Call;                           (** history: the calls *)
}.
Definition NewWorld (rs : list TaskRunner) : World := MkWorld rs ∅ [] [] [] 0 [] [].

Definition log_ev (e : Ev) (w : World) : World :=
  MkWorld (runners w) (cells w) (posted w) (running w) (log w ++ [e]) (next w) (dropped w) (requests w).
Definition set_cell (n : nat) (x : T * option E) (w : World) : World :=
  MkWorld (runners w) (<[n := x]> (cells w)) (posted w) (running w) (log w) (next w) (dropped w) (requests w).
(** [runner.PostDelayedTaskWithTraits]; [PostTaskWithTraits] has no delay. *)
Definition post (r : nat) (c : Closure) (traits : TaskTraits) (delay : Z) (w : World) : World :=
  MkWorld (runners w) (cells w) (posted w ++ [MkPosted r c traits delay]) (running w) (log w) (next w)
    (dropped w) (requests w).
Definition set_running (l : list (Closure * panicRecoveryContext)) (w : World) : World :=
  MkWorld (runners w) (cells w) (posted w) l (log w) (next w) (dropped w) (requests w).
Definition new_call (w : World) : World :=
  MkWorld (runners w) (cells w) (posted w) (running w) (log w) (S (next w)) (dropped w) (requests w).

(** ** What the closures do *)

Definition task_of (task : Wrapped) : nat := match task with WUser n | WCapture n => n end.
Definition reply_of (reply : Reply) : nat := match reply with RUser n | RDeliver n => n end.

(** A task that ends with [o]: its effects, and the panic it leaves. *)
Definition run_wrapped (task : Wrapped) (o : Outcome) (w : World) : World :=
  let w := log_ev (EvEnd (task_of task) o) w in
  match task, o with
  | WCapture n, Returns result err => set_cell n (result, err) w
  | _, _ => w
  end.

(** [executeTaskWithRecovery] returns [panicked]; the panic of the handler
    leaves it ([None]). *)
Definition executeTaskWithRecovery (task : Wrapped) (prc : panicRecoveryContext) (o : Outcome)
  (w : World) : World * option bool :=
  let w := run_wrapped task o w in
  match o with
  | Returns _ _ => (w, Some false)
  | Panics handler_panics =>
      let n := task_of task in
      if handler prc then
        let w := log_ev (EvHandle n prc) w in
        if handler_panics then (w, None)
        else ((if metrics prc then log_ev (EvMetric n prc) w else w), Some true)
      else
        let w := log_ev (EvPrint n) w in
        ((if metrics prc then log_ev (EvMetric n prc) w else w), Some true)
  end.

(** The end of a running closure whose task ended with [o]. *)
Definition finish (c : Closure) (prc : panicRecoveryContext) (o : Outcome) (w : World) : World :=
  match c with
  | CNoReply task _ => (executeTaskWithRecovery task prc o w).1
  | CTask task _ reply replyTraits replyRunner =>
      let '(w, panicked) := executeTaskWithRecovery task prc o w in
      match panicked with
      | Some false => post replyRunner (CReply reply) replyTraits 0
                        (log_ev (EvPostReply replyRunner replyTraits (reply_of reply)) w)
      | _ => w
      end
  | CDelayed _ task reply replyTraits replyRunner =>
      let '(w, panicked) := executeTaskWithRecovery task prc o w in
      match panicked, replyRunner with
      | Some false, Some replyRunner =>
          post replyRunner (CReply reply) replyTraits 0
            (log_ev (EvPostReply replyRunner replyTraits (reply_of reply)) w)
      | _, _ => w
      end
  | CReply _ => w
  end.

(** The start of a closure: a delayed one computes its recovery context now,
    the others captured theirs; a reply reads the variables and runs. *)
Definition start (c : Closure) (w : World) : World :=
  match c with
  | CNoReply _ prc | CTask _ prc _ _ _ => set_running (running w ++ [(c, prc)]) w
  | CDelayed targetRunner _ _ _ _ =>
      let prc := match runners w !! targetRunner with
                 | Some r => getPanicRecovery (GetThreadPool r) (Name r)
                 | None => MkPRC false false "" 0
                 end in
      set_running (running w ++ [(c, prc)]) w
  | CReply (RUser n) => log_ev (EvReply n None) w
  | CReply (RDeliver n) => log_ev (EvReply n (Some (default (go_zero, None) (cells w !! n)))) w
  end.

(** ** The API *)

Definition postTaskAndReplyInternalWithTraits (targetRunner : nat) (task : Wrapped)
  (taskTraits : TaskTraits) (reply : Reply) (replyTraits : TaskTraits) (replyRunner : option nat)
  (w : World) : go World :=
  match runners w !! targetRunner with
  | None => Panic "nil pointer dereference"
  | Some r =>
      let prc := getPanicRecovery (GetThreadPool r) (Name r) in
      let w := log_ev (EvPost targetRunner taskTraits (task_of task)) w in
      match replyRunner with
      | None => Ret (post targetRunner (CNoReply task prc) taskTraits 0 w)
      | Some replyRunner =>
          Ret (post targetRunner (CTask task prc reply replyTraits replyRunner) taskTraits 0 w)
      end
  end.

Definition postTaskAndReplyInternal (targetRunner : nat) (task : Wrapped) (taskTraits : TaskTraits)
  (reply : Reply) (replyRunner : option nat) (w : World) : go World :=
  postTaskAndReplyInternalWithTraits targetRunner task taskTraits reply DefaultTaskTraits replyRunner w.

(** The runners' methods: the same in the three of them. *)
Definition PostTaskAndReplyWithTraits (r : nat) (taskTraits replyTraits : TaskTraits)
  (replyRunner : option nat) (w : World) : go World :=
  let n := next w in
  postTaskAndReplyInternalWithTraits r (WUser n) taskTraits (RUser n) replyTraits replyRunner (new_call w).
Definition PostTaskAndReply (r : nat) (replyRunner : option nat) (w : World) : go World :=
  let n := next w in
  postTaskAndReplyInternal r (WUser n) DefaultTaskTraits (RUser n) replyRunner (new_call w).

Definition PostTaskAndReplyWithResultAndTraits (targetRunner : nat)
  (taskTraits replyTraits : TaskTraits) (replyRunner : option nat) (w : World) : go World :=
  let n := next w in
  let w := set_cell n (go_zero, None) (new_call w) in
  postTaskAndReplyInternalWithTraits targetRunner (WCapture n) taskTraits (RDeliver n) replyTraits
    replyRunner w.
Definition PostTaskAndReplyWithResult (targetRunner : nat) (replyRunner : option nat) (w : World)
  : go World :=
  PostTaskAndReplyWithResultAndTraits targetRunner DefaultTaskTraits DefaultTaskTraits replyRunner w.

Definition PostDelayedTaskAndReplyWithResultAndTraits (targetRunner : nat) (delay : Z)
  (taskTraits replyTraits : TaskTraits) (replyRunner : option nat) (w : World) : go World :=
  let n := next w in
  let w := set_cell n (go_zero, None) (new_call w) in
  match runners w !! targetRunner with
  | None => Panic "nil pointer dereference"
  | Some _ =>
      let w := log_ev (EvPost targetRunner taskTraits n) w in
      Ret (post targetRunner (CDelayed targetRunner (WCapture n) (RDeliver n) replyTraits replyRunner)
             taskTraits delay w)
  end.
Definition PostDelayedTaskAndReplyWithResult (targetRunner : nat) (delay : Z)
  (replyRunner : option nat) (w : World) : go World :=
  PostDelayedTaskAndReplyWithResultAndTraits targetRunner delay DefaultTaskTraits DefaultTaskTraits
    replyRunner w.

(** ** The system *)

Definition call (c : Call) (w : World) : go World :=
  match c with
  | PlainCall r rr => PostTaskAndReply r rr w
  | PlainTraitsCall r t1 t2 rr => PostTaskAndReplyWithTraits r t1 t2 rr w
  | ResultCall r rr => PostTaskAndReplyWithResult r rr w
  | ResultTraitsCall r t1 t2 rr => PostTaskAndReplyWithResultAndTraits r t1 t2 rr w
  | DelayedCall r d rr => PostDelayedTaskAndReplyWithResult r d rr w
  | DelayedTraitsCall r d t1 t2 rr => PostDelayedTaskAndReplyWithResultAndTraits r d t1 t2 rr w
  end.

Inductive Label :=
| LCall (c : Call)
| LStart (k : nat)                 (** a runner starts a posted closure *)
| LEnd (k : nat) (o : Outcome)     (** the task of a running closure ends *)
| LDrop (k : nat).                 (** a closed runner drops a posted closure *)

Definition unpost (k : nat) (w : World) : World :=
  MkWorld (runners w) (cells w) (delete k (posted w)) (running w) (log w) (next w) (dropped w) (requests w).
Definition drop_closure (c : Closure) (w : World) : World :=
  MkWorld (runners w) (cells w) (posted w) (running w) (log w) (next w) (dropped w ++ [c])
    (requests w).

Definition note (c : Call) (w : World) : World :=
  MkWorld (runners w) (cells w) (posted w) (running w) (log w) (next w) (dropped w)
    (requests w ++ [c]).

Definition step (l : Label) (w : World) : option World :=
  match l with
  | LCall c => match call c (note c w) with Ret w => Some w | Panic _ => None end
  | LStart k => p ← posted w !! k; Some (start (p_closure p) (unpost k w))
  | LEnd k o =>
      cp ← running w !! k;
      Some (finish cp.1 cp.2 o (set_running (delete k (running w)) w))
  | LDrop k => p ← posted w !! k; Some (drop_closure (p_closure p) (unpost k w))
  end.

(** ** What a call asks for *)

Definition target (c : Call) : nat :=
  match c with
  | PlainCall r _ | PlainTraitsCall r _ _ _ | ResultCall r _ | ResultTraitsCall r _ _ _
  | DelayedCall r _ _ | DelayedTraitsCall r _ _ _ _ => r
  end.
Definition reply_runner (c : Call) : option nat :=
  match c with
  | PlainCall _ rr | PlainTraitsCall _ _ _ rr | ResultCall _ rr | ResultTraitsCall _ _ _ rr
  | DelayedCall _ _ rr | DelayedTraitsCall _ _ _ _ rr => rr
  end.
Definition task_traits (c : Call) : TaskTraits :=
  match c with
  | PlainTraitsCall _ t _ _ | ResultTraitsCall _ t _ _ | DelayedTraitsCall _ _ t _ _ => t
  | _ => DefaultTaskTraits
  end.
Definition reply_traits (c : Call) : TaskTraits :=
  match c with
  | PlainTraitsCall _ _ t _ | ResultTraitsCall _ _ t _ | DelayedTraitsCall _ _ _ t _ => t
  | _ => DefaultTaskTraits
  end.
Definition captures (c : Call) : bool :=
  match c with PlainCall _ _ | PlainTraitsCall _ _ _ _ => false | _ => true end.
Definition delay_of (c : Call) : option Z :=
  match c with DelayedCall _ d _ | DelayedTraitsCall _ d _ _ _ => Some d | _ => None end.
Definition wrapped (c : Call) (n : nat) : Wrapped := if captures c then WCapture n else WUser n.
Definition reply (c : Call) (n : nat) : Reply := if captures c then RDeliver n else RUser n.

(** The closure of call [n], whatever its recovery context. *)
Definition built (q : Call) (n : nat) (prc : panicRecoveryContext) : Closure :=
  match delay_of q, reply_runner q with
  | Some _, rr => CDelayed (target q) (wrapped q n) (reply q n) (reply_traits q) rr
  | None, Some rr => CTask (wrapped q n) prc (reply q n) (reply_traits q) rr
  | None, None => CNoReply (wrapped q n) prc
  end.

Definition returned (o : Outcome) : bool := match o with Returns _ _ => true | Panics _ => false end.

(** ** Counting *)

Definition w_task (n : nat) (c : Closure) : Z :=
  match c with
  | CNoReply t _ | CTask t _ _ _ _ | CDelayed _ t _ _ _ => b2z (bool_decide (task_of t = n))
  | CReply _ => 0
  end.
Definition w_reply (n : nat) (c : Closure) : Z :=
  match c with CReply r => b2z (bool_decide (reply_of r = n)) | _ => 0 end.
Definition w_end (n : nat) (e : Ev) : Z :=
  match e with EvEnd m _ => b2z (bool_decide (m = n)) | _ => 0 end.
Definition w_returned (n : nat) (e : Ev) : Z :=
  match e with EvEnd m o => b2z (bool_decide (m = n) && returned o) | _ => 0 end.
Definition w_reply_posted (n : nat) (e : Ev) : Z :=
  match e with EvPostReply _ _ m => b2z (bool_decide (m = n)) | _ => 0 end.
Definition w_reply_run (n : nat) (e : Ev) : Z :=
  match e with EvReply m _ => b2z (bool_decide (m = n)) | _ => 0 end.

Definition waiting (w : Closure → Z) (s : World) : Z :=
  (total (λ p, w (p_closure p)) (posted s) + total w (dropped s))%Z.
Definition in_flight (n : nat) (s : World) : Z := total (λ cp, w_task n cp.1) (running s).

(** ** The steps in closed form *)

Definition panic_events (n : nat) (prc : panicRecoveryContext) (o : Outcome) : list Ev :=
  match o with
  | Returns _ _ => []
  | Panics handler_panics =>
      if handler prc then
        EvHandle n prc :: (if negb handler_panics && metrics prc then [EvMetric n prc] else [])
      else EvPrint n :: (if metrics prc then [EvMetric n prc] else [])
  end.
Definition reply_events (q : Call) (n : nat) (o : Outcome) : list Ev :=
  match o, reply_runner q with
  | Returns _ _, Some rr => [EvPostReply rr (reply_traits q) n]
  | _, _ => []
  end.
Definition reply_posts (q : Call) (n : nat) (o : Outcome) : list Posted :=
  match o, reply_runner q with
  | Returns _ _, Some rr => [MkPosted rr (CReply (reply q n)) (reply_traits q) 0]
  | _, _ => []
  end.
Definition captured (q : Call) (n : nat) (o : Outcome) (m : gmap nat (T * option E))
  : gmap nat (T * option E) :=
  match o with Returns v e => if captures q then <[n := (v, e)]> m else m | _ => m end.

Lemma finish_eq q n prc0 prc o s :
  finish (built q n prc0) prc o s =
    MkWorld (runners s) (captured q n o (cells s)) (posted s ++ reply_posts q n o) (running s)
      (log s ++ EvEnd n o :: panic_events n prc o ++ reply_events q n o) (next s) (dropped s)
      (requests s).
Proof.
  destruct s as [rs m ps rn lg nx dr qs]. destruct prc as [h mt nm wid].
  unfold built, reply_events, reply_posts, captured, panic_events, finish, wrapped, reply, posted.
  destruct (delay_of q), (reply_runner q), (captures q); destruct o as [v e|[]]; destruct h, mt; cbn;
    unfold post, log_ev, set_cell; cbn; rewrite ?app_nil_r, <- ?app_assoc; reflexivity.
Qed.

Lemma call_eq c s s' :
  call c (note c s) = Ret s' →
  ∃ prc m, s' = MkWorld (runners s) m
      (posted s ++ [MkPosted (target c) (built c (next s) prc) (task_traits c)
                      (default 0%Z (delay_of c))])
      (running s) (log s ++ [EvPost (target c) (task_traits c) (next s)]) (S (next s)) (dropped s)
      (requests s ++ [c]) ∧
    (m = cells s ∨ m = <[next s := (go_zero, None)]> (cells s)).
Proof.
  destruct s as [rs m ps rn lg nx dr qs].
  destruct c as [r rr|r t1 t2 rr|r rr|r t1 t2 rr|r d rr|r d t1 t2 rr]; 
    cbn [call target]; unfold PostTaskAndReply, PostTaskAndReplyWithTraits, PostTaskAndReplyWithResult,
      PostTaskAndReplyWithResultAndTraits, PostDelayedTaskAndReplyWithResult,
      PostDelayedTaskAndReplyWithResultAndTraits, postTaskAndReplyInternal,
      postTaskAndReplyInternalWithTraits; cbn;
    destruct (rs !! r) as [x|]; try discriminate; try destruct rr; intros [= <-];
    solve [exists (MkPRC false false "" 0); eexists; split; [reflexivity|auto]
          |eexists _, _; split; [reflexivity|auto]].
Qed.

(** ** The invariant *)

Definition posted_ok (qs : list Call) (l : list Ev) (p : Posted) : Prop :=
  ∃ n q, qs !! n = Some q ∧
    ((∃ prc, p = MkPosted (target q) (built q n prc) (task_traits q) (default 0%Z (delay_of q))) ∨
     (p = MkPosted (p_runner p) (CReply (reply q n)) (reply_traits q) 0 ∧
      reply_runner q = Some (p_runner p) ∧ EvPostReply (p_runner p) (reply_traits q) n ∈ l)).
Definition running_ok (qs : list Call) (cp : Closure * panicRecoveryContext) : Prop :=
  ∃ n q prc, qs !! n = Some q ∧ cp.1 = built q n prc.

(** What an event says of the events before it. *)
Definition past_ok (qs : list Call) (past : list Ev) (x : Ev) : Prop :=
  match x with
  | EvReply n seen => ∃ q v e r, qs !! n = Some q ∧ reply_runner q = Some r ∧
      EvEnd n (Returns v e) ∈ past ∧ EvPostReply r (reply_traits q) n ∈ past ∧
      seen = if captures q then Some (v, e) else None
  | EvPostReply r traits n => ∃ q v e, qs !! n = Some q ∧ reply_runner q = Some r ∧
      traits = reply_traits q ∧ EvEnd n (Returns v e) ∈ past
  | _ => True
  end.

Record reply_inv (s : World) : Prop := {
  ri_next : next s = length (requests s);
  (** one task closure per call, until its end *)
  ri_task n : (waiting (w_task n) s + in_flight n s + total (w_end n) (log s) =
               b2z (bool_decide (n < next s)%nat))%Z;
  (** one reply closure per posted reply, until it runs *)
  ri_reply n : (waiting (w_reply n) s + total (w_reply_run n) (log s) =
                total (w_reply_posted n) (log s))%Z;
  (** one reply is posted per return of a task that has a reply runner *)
  ri_posted n q : requests s !! n = Some q →
    total (w_reply_posted n) (log s) =
      if reply_runner q then total (w_returned n) (log s) else 0%Z;
  (** the closures are those of their calls *)
  ri_closures : Forall (posted_ok (requests s) (log s)) (posted s);
  ri_running : Forall (running_ok (requests s)) (running s);
  (** a task that returned has left its result in the variables *)
  ri_cells n q v e : requests s !! n = Some q → captures q = true →
    EvEnd n (Returns v e) ∈ log s → cells s !! n = Some (v, e);
  ri_log l1 x l2 : log s = l1 ++ x :: l2 → past_ok (requests s) l1 x;
}.

(** Calls are only added, and events only appended. *)
Lemma posted_ok_mono qs l p qs' l' :
  posted_ok qs l p → posted_ok (qs ++ qs') (l ++ l') p.
Proof.
  intros (n & q & Hq & Hp). exists n, q. split; [by apply lookup_app_l_Some|].
  destruct Hp as [Hp|(E0 & Hr & Hl)]; [by left|right]. split_and!; [done..|]. set_solver.
Qed.
Lemma running_ok_mono qs cp qs' : running_ok qs cp → running_ok (qs ++ qs') cp.
Proof.
  intros (n & q & prc & Hq & Hp). exists n, q, prc. split; [by apply lookup_app_l_Some|done].
Qed.
Lemma past_ok_mono qs past x qs' : past_ok qs past x → past_ok (qs ++ qs') past x.
Proof.
  destruct x; try done.
  - intros (q & v & e & Hq & H2). exists q, v, e. split; [by apply lookup_app_l_Some|done].
  - intros (q & v & e & r & Hq & H2). exists q, v, e, r. split; [by apply lookup_app_l_Some|done].
Qed.

Lemma past_snoc (P : list Ev → Ev → Prop) l y :
  (∀ l1 x l2, l = l1 ++ x :: l2 → P l1 x) → P l y →
  ∀ l1 x l2, l ++ [y] = l1 ++ x :: l2 → P l1 x.
Proof.
  intros Hl Hy l1 x l2. destruct l2 as [|z l2 _] using rev_ind.
  - intros [-> [= ->]]%app_inj_2; done.
  - rewrite app_comm_cons, app_assoc. intros [E0 _]%app_inj_2; [|done]. by eapply Hl.
Qed.

Lemma past_app (P : list Ev → Ev → Prop) l k :
  (∀ l1 x l2, l = l1 ++ x :: l2 → P l1 x) →
  (∀ k1 x k2, k = k1 ++ x :: k2 → P (l ++ k1) x) →
  ∀ l1 x l2, l ++ k = l1 ++ x :: l2 → P l1 x.
Proof.
  intros Hl. induction k as [|y k IH] using rev_ind; intros Hk; [by rewrite app_nil_r|].
  rewrite app_assoc. apply past_snoc.
  - apply IH. intros k1 x k2 ->. apply (Hk k1 x (k2 ++ [y])). by rewrite <- app_assoc.
  - by apply (Hk k y []).
Qed.

Lemma total_absent {A} (w : A → Z) l : (∀ x, x ∈ l → w x = 0%Z) → total w l = 0%Z.
Proof.
  induction l as [|x l IH]; intros Hw; [done|]. simpl. rewrite IH by (intros; apply Hw; by right).
  rewrite (Hw x) by left. done.
Qed.

Lemma total_present {A} (w : A → Z) l x :
  (∀ x, 0 <= w x)%Z → x ∈ l → (w x <= total w l)%Z.
Proof. intros Hw [i Hi]%list_elem_of_lookup_1. by eapply total_lookup_le. Qed.

Lemma b2z_nonneg b : (0 <= b2z b)%Z.
Proof. destruct b; simpl; lia. Qed.
Lemma w_task_nonneg n c : (0 <= w_task n c)%Z.
Proof. destruct c; simpl; auto using b2z_nonneg with lia. Qed.
Lemma w_end_nonneg n (e : Ev) : (0 <= w_end n e)%Z.
Proof. destruct e; simpl; auto using b2z_nonneg with lia. Qed.
Lemma w_returned_nonneg n (e : Ev) : (0 <= w_returned n e)%Z.
Proof. destruct e; simpl; auto using b2z_nonneg with lia. Qed.
Lemma w_returned_le n (e : Ev) : (w_returned n e <= w_end n e)%Z.
Proof. destruct e as [|? []| | | | |]; simpl; try lia; destruct (bool_decide _); simpl; lia. Qed.

Lemma waiting_task_nonneg n s : (0 <= waiting (w_task n) s)%Z.
Proof.
  unfold waiting. pose proof (total_nonneg (w_task n) (dropped s) (w_task_nonneg n)).
  pose proof (total_nonneg (λ p, w_task n (p_closure p)) (posted s) (λ p, w_task_nonneg n _)). lia.
Qed.
Lemma in_flight_nonneg n s : (0 <= in_flight n s)%Z.
Proof. apply total_nonneg. intros. apply w_task_nonneg. Qed.

Lemma task_of_wrapped q n : task_of (wrapped q n) = n.
Proof. unfold wrapped. by destruct (captures q). Qed.
Lemma reply_of_reply q n : reply_of (reply q n) = n.
Proof. unfold reply. by destruct (captures q). Qed.
Lemma w_task_built n q m prc : w_task n (built q m prc) = b2z (bool_decide (m = n)).
Proof. unfold built. destruct (delay_of q), (reply_runner q); simpl; by rewrite task_of_wrapped. Qed.
Lemma w_reply_built n q m prc : w_reply n (built q m prc) = 0%Z.
Proof. unfold built. by destruct (delay_of q), (reply_runner q). Qed.
Lemma w_reply_reply n q m : w_reply n (CReply (reply q m)) = b2z (bool_decide (m = n)).
Proof. simpl. by rewrite reply_of_reply. Qed.

(** Events of a call exist only once it was made. *)
Lemma fresh_end s n : reply_inv s → next s <= n → total (w_end n) (log s) = 0%Z.
Proof.
  intros Hi Hn. pose proof (ri_task _ Hi n) as Ht. rewrite bool_decide_eq_false_2 in Ht by lia.
  pose proof (waiting_task_nonneg n s). pose proof (in_flight_nonneg n s).
  pose proof (total_nonneg (w_end n) (log s) (w_end_nonneg n)). simpl in Ht. lia.
Qed.
Lemma fresh_returned s n : reply_inv s → total (w_end n) (log s) = 0%Z →
  total (w_returned n) (log s) = 0%Z.
Proof.
  intros Hi Hn. pose proof (total_le _ _ (log s) (w_returned_le n)).
  pose proof (total_nonneg (w_returned n) (log s) (w_returned_nonneg n)). lia.
Qed.
Lemma end_total s n o : EvEnd n o ∈ log s → (0 < total (w_end n) (log s))%Z.
Proof.
  intros Hin. pose proof (total_present (w_end n) (log s) _ (w_end_nonneg n) Hin) as Hp.
  simpl in Hp. rewrite bool_decide_eq_true_2 in Hp by done. simpl in Hp. lia.
Qed.
Lemma fresh_posted s n : reply_inv s → next s <= n → total (w_reply_posted n) (log s) = 0%Z.
Proof.
  intros Hi Hn. apply total_absent. intros [| | | | |r t m|] Hx; simpl; try done.
  rewrite bool_decide_eq_false_2; [done|]. intros ->.
  apply list_elem_of_split in Hx as (l1 & l2 & Hl).
  destruct (ri_log _ Hi _ _ _ Hl) as (q & ? & ? & Hq & _). apply lookup_lt_Some in Hq.
  pose proof (ri_next _ Hi). lia.
Qed.

Lemma reply_inv_init rs : reply_inv (NewWorld rs).
Proof.
  split; simpl; try done; intros; try constructor; try set_solver.
  by destruct l1.
Qed.

Lemma reply_inv_call c s s' : reply_inv s → call c (note c s) = Ret s' → reply_inv s'.
Proof.
  intros Hi (prc & m & -> & Hm)%call_eq. pose proof (ri_next _ Hi) as Hn. split; simpl.
  - rewrite length_app, Hn. simpl. lia.
  - intros n. pose proof (ri_task _ Hi n) as Ht. unfold waiting, in_flight in *. simpl.
    autorewrite with golist. simpl. rewrite w_task_built.
    destruct (decide (n = next s)) as [->|Hne].
    + rewrite bool_decide_eq_false_2 in Ht by lia. rewrite !bool_decide_eq_true_2 by lia. simpl in *. lia.
    + rewrite (bool_decide_eq_false_2 (_ = n)) by lia.
      rewrite (bool_decide_ext (n < S (next s))%nat (n < next s)%nat) by lia. simpl in *. lia.
  - intros n. pose proof (ri_reply _ Hi n) as Ht. unfold waiting in *. simpl.
    autorewrite with golist. simpl. rewrite w_reply_built. lia.
  - intros n q Hq. autorewrite with golist. simpl.
    destruct (decide (n = next s)) as [->|Hne].
    + rewrite (fresh_posted s) by auto. rewrite fresh_returned by (auto using fresh_end).
      by destruct (reply_runner q).
    + rewrite lookup_app_l in Hq.
      * rewrite (ri_posted _ Hi n q Hq). destruct (reply_runner q); lia.
      * apply lookup_lt_Some in Hq. rewrite length_app in Hq. simpl in Hq. lia.
  - apply Forall_app. split.
    + eapply Forall_impl; [exact (ri_closures _ Hi)|]. intros p. apply posted_ok_mono.
    + apply Forall_singleton. exists (next s), c. split; [|left; by exists prc].
      rewrite Hn. apply lookup_snoc_length.
  - eapply Forall_impl; [exact (ri_running _ Hi)|]. intros cp. apply running_ok_mono.
  - intros n q v e Hq Hc Hin. rewrite elem_of_app in Hin. destruct Hin as [Hin|Hin]; [|set_solver].
    assert (n < next s) as Hlt.
    { destruct (decide (n < next s)); [done|]. pose proof (end_total _ _ _ Hin) as Hp.
      rewrite (fresh_end s) in Hp by (auto; lia). lia. }
    rewrite lookup_app_l in Hq by lia. pose proof (ri_cells _ Hi n q v e Hq Hc Hin).
    destruct Hm as [->| ->]; [done|]. by rewrite lookup_insert_ne by lia.
  - apply past_snoc; [|done]. intros l1 x l2 E0. eapply past_ok_mono, (ri_log _ Hi), E0.
Qed.

(** A posted closure leaves the queue of its runner. *)
Lemma waiting_unpost (w : Closure → Z) k s p :
  posted s !! k = Some p → waiting w (unpost k s) = (waiting w s - w (p_closure p))%Z.
Proof. intros Hp. unfold waiting. simpl. rewrite (total_delete _ _ _ _ Hp). lia. Qed.

Lemma reply_inv_drop k p s :
  reply_inv s → posted s !! k = Some p → reply_inv (drop_closure (p_closure p) (unpost k s)).
Proof.
  intros Hi Hp. destruct Hi as [H1 H2 H3 H4 H5 H6 H7 H8]. split; simpl; try done.
  - intros n. specialize (H2 n). unfold waiting, in_flight in *. simpl. rw_total. lia.
  - intros n. specialize (H3 n). unfold waiting in *. simpl. rw_total. lia.
  - by apply Forall_delete.
Qed.

Lemma reply_inv_start_task k p q n prc prc' s :
  reply_inv s → posted s !! k = Some p → requests s !! n = Some q → p_closure p = built q n prc →
  reply_inv (set_running (running (unpost k s) ++ [(p_closure p, prc')]) (unpost k s)).
Proof.
  intros Hi Hp Hq Hb. destruct Hi as [H1 H2 H3 H4 H5 H6 H7 H8]. split; simpl; try done.
  - intros m. specialize (H2 m). unfold waiting, in_flight in *. simpl. rw_total. simpl. lia.
  - intros m. specialize (H3 m). unfold waiting in *. simpl. rw_total. rewrite Hb, w_reply_built. lia.
  - by apply Forall_delete.
  - apply Forall_app. split; [done|]. apply Forall_singleton. by exists n, q, prc.
Qed.

Lemma reply_inv_start_reply k p q n s :
  reply_inv s → posted s !! k = Some p → requests s !! n = Some q →
  p_closure p = CReply (reply q n) → reply_runner q = Some (p_runner p) →
  EvPostReply (p_runner p) (reply_traits q) n ∈ log s →
  reply_inv (start (p_closure p) (unpost k s)).
Proof.
  intros Hi Hp Hq Hc Hr Hin. pose proof Hi as [H1 H2 H3 H4 H5 H6 H7 H8].
  pose proof Hin as (l1 & l2 & Hl)%list_elem_of_split.
  destruct (H8 _ _ _ Hl) as (q' & v & e & Hq' & _ & _ & He).
  rewrite Hq in Hq'. injection Hq' as <-.
  assert (EvEnd n (Returns v e) ∈ log s) as He' by (rewrite Hl; set_solver).
  assert (start (p_closure p) (unpost k s) =
    log_ev (EvReply n (if captures q then Some (v, e) else None)) (unpost k s)) as ->.
  { rewrite Hc. unfold reply. destruct (captures q) eqn:Ec; simpl; [|done].
    by rewrite (H7 n q v e Hq Ec He'). }
  split; simpl; try done.
  - intros m. specialize (H2 m). unfold waiting, in_flight in *. simpl. rw_total. simpl.
    rewrite Hc. simpl. lia.
  - intros m. specialize (H3 m). unfold waiting in *. simpl. rw_total. rewrite Hc, w_reply_reply.
    simpl. lia.
  - intros m q' Hq'. rw_total. simpl. rewrite (H4 _ _ Hq'). destruct (reply_runner q'); lia.
  - apply Forall_delete. eapply Forall_impl; [done|]. intros p' Hp'.
    rewrite <- (app_nil_r (requests s)). by apply posted_ok_mono.
  - intros m q' v' e' Hq' Hc' Hm. apply (H7 m q'); [done..|]. set_solver.
  - apply past_snoc; [done|]. exists q, v, e, (p_runner p). done.
Qed.

Lemma quiet_total (w : Ev → Z) n prc o :
  (∀ m p, w (EvHandle m p) = 0%Z) → (∀ m, w (EvPrint m) = 0%Z) → (∀ m p, w (EvMetric m p) = 0%Z) →
  total w (panic_events n prc o) = 0%Z.
Proof.
  intros E1 E2 E3. destruct o as [|hp]; [done|]. unfold panic_events.
  destruct (handler prc), hp, (metrics prc); simpl; rewrite ?E1, ?E2, ?E3; done.
Qed.

Lemma quiet_past qs n prc o l k1 x k2 :
  panic_events n prc o = k1 ++ x :: k2 → past_ok qs (l ++ k1) x.
Proof.
  intros E0. assert (x ∈ panic_events n prc o) as Hx by (rewrite E0; set_solver).
  destruct o as [|hp]; [by apply elem_of_nil in Hx|]. unfold panic_events in Hx.
  destruct (handler prc), hp, (metrics prc); simpl in Hx; set_solver.
Qed.

Lemma reply_inv_finish k q n prc0 prc o s :
  reply_inv s → running s !! k = Some (built q n prc0, prc) → requests s !! n = Some q →
  reply_inv (finish (built q n prc0) prc o (set_running (delete k (running s)) s)).
Proof.
  intros Hi Hk Hq. pose proof Hi as [H1 H2 H3 H4 H5 H6 H7 H8].
  assert (total (w_end n) (log s) = 0)%Z as Hfirst.
  { specialize (H2 n). pose proof (waiting_task_nonneg n s).
    pose proof (total_nonneg (w_end n) (log s) (w_end_nonneg n)).
    pose proof (total_lookup_le (λ cp, w_task n cp.1) (running s) k _
      (λ cp, w_task_nonneg n cp.1) Hk) as Hle. simpl in Hle. fold (in_flight n s) in Hle.
    rewrite w_task_built, bool_decide_eq_true_2 in Hle by done.
    destruct (bool_decide (n < next s)); simpl in *; lia. }
  rewrite finish_eq. simpl. split; simpl; try done.
  - intros m. specialize (H2 m). unfold waiting, in_flight in *. simpl. rw_total. simpl.
    rewrite w_task_built. autorewrite with golist.
    rewrite quiet_total by done. unfold reply_posts, reply_events.
    destruct o, (reply_runner q); simpl; lia.
  - intros m. specialize (H3 m). unfold waiting in *. simpl. autorewrite with golist.
    rewrite !quiet_total by done. unfold reply_posts, reply_events.
    destruct o, (reply_runner q); simpl; rewrite ?reply_of_reply; lia.
  - intros m q' Hq'. specialize (H4 m q' Hq'). autorewrite with golist.
    rewrite !quiet_total by done. unfold reply_events.
    destruct (decide (n = m)) as [->|Hne].
    + rewrite Hq in Hq'. injection Hq' as <-. rewrite H4.
      destruct o, (reply_runner q); simpl; rewrite ?bool_decide_eq_true_2 by done; simpl; lia.
    + rewrite H4. destruct o, (reply_runner q), (reply_runner q'); simpl;
        rewrite ?(bool_decide_eq_false_2 (n = m)) by done; simpl; lia.
  - apply Forall_app. split.
    + eapply Forall_impl; [done|]. intros p Hp. rewrite <- (app_nil_r (requests s)).
      by apply posted_ok_mono.
    + unfold reply_posts, reply_events. destruct o as [v e|hp]; [|done].
      destruct (reply_runner q) as [rr|] eqn:Er; [|done]. apply Forall_singleton.
      exists n, q. split; [done|]. right. simpl. split_and!; [done..|]. set_solver.
  - by apply Forall_delete.
  - intros m q' v e Hq' Hc Hin. rewrite elem_of_app in Hin. destruct Hin as [Hin|Hin].
    + assert (m ≠ n) as Hne by (intros ->; apply end_total in Hin; lia).
      specialize (H7 m q' v e Hq' Hc Hin). unfold captured.
      destruct o; [|done]. destruct (captures q); [by rewrite lookup_insert_ne|done].
    + assert (EvEnd m (Returns v e) = EvEnd n o) as [= -> <-].
      { apply elem_of_cons in Hin as [Hin|Hin]; [done|].
        unfold panic_events, reply_events in Hin.
        destruct o as [|hp], (reply_runner q), (handler prc), (metrics prc); try destruct hp;
          simpl in Hin; set_solver. }
      rewrite Hq in Hq'. injection Hq' as <-. unfold captured. rewrite Hc. apply lookup_insert_eq.
  - change (EvEnd n o :: panic_events n prc o ++ reply_events q n o)
      with ([EvEnd n o] ++ panic_events n prc o ++ reply_events q n o).
    rewrite !app_assoc. apply past_app; [apply past_app; [apply past_snoc; [done|done]|]|].
    + intros k1 x k2. apply quiet_past.
    + intros k1 x k2 E0. unfold reply_events in E0. destruct o as [v e|hp]; [|by destruct k1].
      destruct (reply_runner q) as [rr|] eqn:Er; [|by destruct k1].
      destruct k1 as [|? k1]; [|by destruct k1]. injection E0 as <- _.
      exists q, v, e. split_and!; [done..|]. set_solver.
Qed.

Lemma reply_inv_step l s s' : reply_inv s → step l s = Some s' → reply_inv s'.
Proof.
  intros Hi E0. destruct l as [c|k|k o|k]; cbn [step] in E0.
  - destruct (call c (note c s)) eqn:Ec; simplify_eq. by eapply reply_inv_call.
  - destruct (posted s !! k) as [p|] eqn:Ep; simplify_eq/=.
    pose proof (ri_closures _ Hi) as Hcl. rewrite Forall_forall in Hcl.
    destruct (Hcl p) as (n & q & Hq & [[prc E0]|(E0 & Hr & Hin)]); [by eapply list_elem_of_lookup_2| |].
    + assert (p_closure p = built q n prc) as Hb by (by rewrite E0).
      pose proof (reply_inv_start_task k p q n prc) as Hst. unfold start. rewrite Hb in *.
      unfold built in *. destruct (delay_of q), (reply_runner q); by apply (Hst _ s).
    + eapply reply_inv_start_reply; [done..| | |]; [by rewrite E0|done|done].
  - destruct (running s !! k) as [[c prc]|] eqn:Ek; simplify_eq/=.
    pose proof (ri_running _ Hi) as Hrn. rewrite Forall_forall in Hrn.
    destruct (Hrn (c, prc)) as (n & q & prc0 & Hq & E0); [by eapply list_elem_of_lookup_2|].
    simpl in E0. subst c. by apply reply_inv_finish.
  - destruct (posted s !! k) as [p|] eqn:Ep; simplify_eq/=. by apply reply_inv_drop.
Qed.

Lemma reply_inv_reach rs s : reachable step (NewWorld rs) s → reply_inv s.
Proof. apply reachable_invariant; [apply reply_inv_init|intros; by eapply reply_inv_step]. Qed.

Lemma total_unique {A} (w : A → Z) l x y :
  (∀ x, 0 <= w x)%Z → (total w l <= 1)%Z → x ∈ l → y ∈ l → w x = 1%Z → w y = 1%Z → x = y.
Proof.
  intros Hw Hl (l1 & l2 & ->)%list_elem_of_split Hy Ex Ey.
  rewrite total_app, total_cons in Hl.
  pose proof (total_nonneg w l1 Hw). pose proof (total_nonneg w l2 Hw).
  apply elem_of_app in Hy as [Hy|[Hy|Hy]%elem_of_cons]; [|done|];
    apply (total_present w _ _ Hw) in Hy; lia.
Qed.

Lemma w_reply_run_nonneg n (e : Ev) : (0 <= w_reply_run n e)%Z.
Proof. destruct e; simpl; auto using b2z_nonneg with lia. Qed.

Lemma end_once s n : reply_inv s → (total (w_end n) (log s) <= 1)%Z.
Proof.
  intros Hi. pose proof (ri_task _ Hi n). pose proof (waiting_task_nonneg n s).
  pose proof (in_flight_nonneg n s). destruct (bool_decide _); simpl in *; lia.
Qed.

Lemma w_reply_nonneg n (c : Closure) : (0 <= w_reply n c)%Z.
Proof. destruct c; simpl; auto using b2z_nonneg with lia. Qed.

Lemma reply_once s n q :
  reply_inv s → requests s !! n = Some q → (total (w_reply_run n) (log s) <= 1)%Z.
Proof.
  intros Hi Hq. pose proof (ri_reply _ Hi n) as Hr. rewrite (ri_posted _ Hi n q Hq) in Hr.
  unfold waiting in Hr. pose proof (total_nonneg _ (dropped s) (w_reply_nonneg n)).
  pose proof (total_nonneg (λ p, w_reply n (p_closure p)) (posted s) (λ p, w_reply_nonneg n _)).
  pose proof (total_le _ _ (log s) (w_returned_le n)). pose proof (end_once s n Hi).
  destruct (reply_runner q); lia.
Qed.

Lemma end_weight n o : w_end n (EvEnd n o) = 1%Z.
Proof. simpl. by rewrite bool_decide_eq_true_2. Qed.

Lemma end_unique s n o o' :
  reply_inv s → EvEnd n o ∈ log s → EvEnd n o' ∈ log s → o = o'.
Proof.
  intros Hi H1 H2.
  enough (EvEnd n o = EvEnd n o') as [= ->] by done.
  eapply (total_unique (w_end n)); eauto using w_end_nonneg, end_once, end_weight.
Qed.

Lemma returned_total s n o :
  reply_inv s → EvEnd n o ∈ log s → total (w_returned n) (log s) = b2z (returned o).
Proof.
  intros Hi Hin. pose proof (end_once s n Hi) as H1.
  apply list_elem_of_split in Hin as (l1 & l2 & E0). rewrite E0 in *.
  rewrite total_app, total_cons, end_weight in H1. rewrite total_app, total_cons.
  pose proof (total_le _ _ l1 (w_returned_le n)). pose proof (total_le _ _ l2 (w_returned_le n)).
  pose proof (total_nonneg _ l1 (w_returned_nonneg n)). pose proof (total_nonneg _ l2 (w_returned_nonneg n)).
  pose proof (total_nonneg _ l1 (w_end_nonneg n)). pose proof (total_nonneg _ l2 (w_end_nonneg n)).
  simpl. rewrite bool_decide_eq_true_2 by done. simpl. lia.
Qed.

(** ** Theorems *)

(** C22. A reply runs at most once and only after its own task returned, on the runner given
    for it and with its traits, and a reply with result is called with exactly the value and
    the error the task returned, although both are passed through variables shared between
    goroutines. *)
Theorem tr_reply_sees_result rs s l1 l2 n seen :
  reachable step (NewWorld rs) s → log s = l1 ++ EvReply n seen :: l2 →
  ∃ q r v e, requests s !! n = Some q ∧ reply_runner q = Some r ∧
    EvEnd n (Returns v e) ∈ l1 ∧ EvPostReply r (reply_traits q) n ∈ l1 ∧
    seen = (if captures q then Some (v, e) else None) ∧
    (∀ seen', EvReply n seen' ∉ l1 ++ l2) ∧ (∀ o, EvEnd n o ∈ log s → o = Returns v e).
Proof.
  intros Hi%reply_inv_reach Hl.
  destruct (ri_log _ Hi _ _ _ Hl) as (q & v & e & r & Hq & Hr & He & Hp & Hs).
  exists q, r, v, e. split_and!; [done..| |].
  - intros seen' Hin. pose proof (reply_once _ _ _ Hi Hq) as H1.
    rewrite Hl, total_app, total_cons in H1.
    pose proof (total_present _ _ _ (w_reply_run_nonneg n) Hin) as H2. rewrite total_app in H2.
    simpl in H1, H2. rewrite bool_decide_eq_true_2 in H1, H2 by done. simpl in *. lia.
  - intros o Ho. eapply end_unique; [done..|]. rewrite Hl. set_solver.
Qed.

(** C28. A reply is posted exactly when the task returned and a reply runner was given (never
    after a panic), for every function of the family, and with the reply traits of the call. *)
Theorem tr_reply_iff_returned rs s n q :
  reachable step (NewWorld rs) s → requests s !! n = Some q →
  (∀ r traits, EvPostReply r traits n ∈ log s → reply_runner q = Some r ∧ traits = reply_traits q) ∧
  ((∃ r traits, EvPostReply r traits n ∈ log s) ↔
   is_Some (reply_runner q) ∧ ∃ v e, EvEnd n (Returns v e) ∈ log s).
Proof.
  intros Hi%reply_inv_reach Hq.
  assert (∀ r traits, EvPostReply r traits n ∈ log s →
    reply_runner q = Some r ∧ traits = reply_traits q ∧ ∃ v e, EvEnd n (Returns v e) ∈ log s) as Hp.
  { intros r traits (l1 & l2 & Hl)%list_elem_of_split.
    destruct (ri_log _ Hi _ _ _ Hl) as (q' & v & e & Hq' & Hr & Ht & He). simplify_eq.
    split_and!; [done..|]. exists v, e. rewrite Hl. set_solver. }
  split; [intros r t Hin; by destruct (Hp r t Hin) as (? & ? & _)|]. split.
  - intros (r & t & Hin). destruct (Hp r t Hin) as (-> & _ & ?). done.
  - intros [[rr Hrr] (v & e & He)].
    pose proof (ri_posted _ Hi n q Hq) as Hc. rewrite Hrr, (returned_total s n _ Hi He) in Hc.
    destruct (total_pos_lookup (w_reply_posted n) (log s)) as (i & x & Hx & Hpos); [simpl in Hc; lia|].
    destruct x as [| | | | |r t m|]; simpl in Hpos; try lia.
    destruct (bool_decide_reflect (m = n)) as [->|]; simpl in Hpos; [|lia].
    exists r, t. by eapply list_elem_of_lookup_2.
Qed.

(** When the runners dropped nothing and nothing is posted or running any more, the task
    of every call has ended exactly once, and its reply has run exactly once if the task
    returned and a reply runner was given, and never otherwise. *)
Theorem tr_quiescent rs s n q :
  reachable step (NewWorld rs) s → requests s !! n = Some q →
  posted s = [] → running s = [] → dropped s = [] →
  ∃ o, EvEnd n o ∈ log s ∧ total (w_end n) (log s) = 1%Z ∧
       total (w_reply_run n) (log s) =
         b2z (returned o && bool_decide (is_Some (reply_runner q))).
Proof.
  intros Hi%reply_inv_reach Hq Hp Hr Hd. pose proof (ri_task _ Hi n) as Ht.
  pose proof (ri_reply _ Hi n) as Hrep. unfold waiting, in_flight in *.
  rewrite Hp, Hd, ?Hr in *. simpl in *. rewrite bool_decide_eq_true_2 in Ht.
  2:{ rewrite (ri_next _ Hi). by eapply lookup_lt_Some. }
  destruct (total_pos_lookup (w_end n) (log s)) as (i & x & Hx & Hpos); [simpl in Ht; lia|].
  destruct x as [|m o| | | | |]; simpl in Hpos; try lia.
  destruct (bool_decide_reflect (m = n)) as [->|]; simpl in Hpos; [|lia].
  apply list_elem_of_lookup_2 in Hx. exists o. split_and!; [done|simpl in Ht; lia|].
  rewrite (ri_posted _ Hi n q Hq), (returned_total s n o Hi Hx) in Hrep.
  destruct (reply_runner q), (returned o); simpl in *; lia.
Qed.
End task_and_reply.

(** ** Concrete runs *)

Module ReplyDemo.
Definition pool : list TaskRunner :=
  [MkTaskRunner (WithScheduler (Some (true, true))) "background"; MkTaskRunner NilPool "ui"].
Notation W := (World (T:=Z) (E:=string)).
#[global] Instance z_zero : GoZero Z := 0%Z.
Definition go_to (ls : list (Label (T:=Z) (E:=string))) : W := default (NewWorld pool) (run step ls (NewWorld pool)).
(** Call 0: a result with a reply on the ui runner; call 1: delayed, its task
    panics; call 2: no reply runner. *)
Definition schedule : list (Label (T:=Z) (E:=string)) :=
  [LCall (ResultTraitsCall 0 TraitsBestEffort TraitsUserBlocking (Some 1));
   LCall (DelayedCall 0 50 (Some 1)); LCall (PlainCall 1 None);
   LStart 0; LStart 0; LEnd 1 (Panics false); LEnd 0 (Returns 42%Z (Some "late"));
   LStart 1; LStart 0; LEnd 0 (Returns 0%Z None)].
Definition done_world : W := go_to schedule.
Lemma done_reach : reachable step (NewWorld pool) done_world.
Proof. apply (run_reachable step schedule). vm_compute. reflexivity. Qed.
End ReplyDemo.
Import ReplyDemo.

Lemma tr_reply_sees_result_witness :
  ∃ q r v e, requests done_world !! 0 = Some q ∧ reply_runner q = Some r ∧
    EvEnd 0 (Returns v e) ∈ take 8 (log done_world) ∧
    EvPostReply r (reply_traits q) 0 ∈ take 8 (log done_world) ∧
    Some (42%Z, Some "late") = (if captures q then Some (v, e) else None) ∧
    (∀ seen', EvReply 0 seen' ∉ take 8 (log done_world) ++ drop 9 (log done_world)) ∧
    (∀ o, EvEnd 0 o ∈ log done_world → o = Returns v e).
Proof.
  apply (tr_reply_sees_result pool done_world (take 8 (log done_world)) (drop 9 (log done_world)) 0).
  - exact done_reach.
  - vm_compute. reflexivity.
Defined.

Lemma tr_reply_iff_returned_witness :
  (∀ r traits, EvPostReply r traits 1 ∈ log done_world → Some 1 = Some r ∧ traits = DefaultTaskTraits) ∧
  ((∃ r traits, EvPostReply r traits 1 ∈ log done_world) ↔
   is_Some (Some 1) ∧ ∃ v e, EvEnd 1 (Returns v e) ∈ log done_world).
Proof.
  apply (tr_reply_iff_returned pool done_world 1 (DelayedCall 0 50 (Some 1))).
  - exact done_reach.
  - vm_compute. reflexivity.
Defined.

Lemma tr_quiescent_witness :
  (∃ o, EvEnd 0 o ∈ log done_world ∧ total (w_end 0) (log done_world) = 1%Z ∧
        total (w_reply_run 0) (log done_world) = b2z (returned o && bool_decide (is_Some (Some 1)))) ∧
  total (w_reply_run 0) (log done_world) = 1%Z.
Proof.
  split; [|vm_compute; reflexivity].
  apply (tr_quiescent pool done_world 0
    (ResultTraitsCall 0 TraitsBestEffort TraitsUserBlocking (Some 1))).
  - exact done_reach.
  - vm_compute. reflexivity.
  - vm_compute. reflexivity.
  - vm_compute. reflexivity.
  - vm_compute. reflexivity.
Defined.
