(* ===== verification/RunnerAPI.v ===== *)
(** * The small methods of the three runners
    (core/sequenced_task_runner.go, core/single_thread_task_runner.go,
    core/parallel_task_runner.go; the TaskRunner interface of core/task.go)

    The methods that post a task are written down to the call that enters the
    machine of the runner; the display names they take go nowhere.  Names and
    metadata are those of [Sequenced.Meta], behind a lock, so a method is one
    step. *)

From S2P Require Import Prelude GoSlice Task TaskQueue.
From S2P Require Scheduler Sequenced SingleThread Parallel Observability TaskAndReply.

Module SequencedAPI.
Section api.
Context {T : Type} (id : TaskID).

(** A goroutine of the runner, or one of the pool: [PostDelayedInternal] with
    the runner as target. *)
Inductive Entry := Enter (t : Sequenced.Thread T) | EnterPool (t : Scheduler.Thread T unit).

Definition PostTaskWithTraitsNamed (name : string) (task : T) (traits : TaskTraits) : Entry :=
  Enter (Sequenced.PClosed (MkTaskItem task traits id) false).
Definition PostTaskWithTraits (task : T) (traits : TaskTraits) : Entry :=
  PostTaskWithTraitsNamed "" task traits.
Definition PostTask (task : T) : Entry := PostTaskWithTraits task DefaultTaskTraits.
Definition PostTaskNamed (name : string) (task : T) : Entry :=
  PostTaskWithTraitsNamed name task DefaultTaskTraits.
Definition PostDelayedTaskWithTraitsNamed (name : string) (task : T) (delay : Z) (traits : TaskTraits)
  : Entry := EnterPool (Scheduler.DCheck task delay traits ()).
Definition PostDelayedTaskWithTraits (task : T) (delay : Z) (traits : TaskTraits) : Entry :=
  PostDelayedTaskWithTraitsNamed "" task delay traits.
Definition PostDelayedTask (task : T) (delay : Z) : Entry :=
  PostDelayedTaskWithTraits task delay DefaultTaskTraits.
Definition PostDelayedTaskNamed (name : string) (task : T) (delay : Z) : Entry :=
  PostDelayedTaskWithTraitsNamed name task delay DefaultTaskTraits.
(** The closure that calls [callback] is the callback here. *)
Definition FlushAsync (callback : T) : Entry := PostTask callback.
End api.

Definition Name {V} (m : Sequenced.Meta V) : string := Sequenced.m_name m.
Definition GetThreadPool (threadPool : TaskAndReply.ThreadPool) : TaskAndReply.ThreadPool := threadPool.

(** The depth is recorded when the pool has a scheduler with metrics. *)
Definition emitQueueDepth {V} (threadPool : TaskAndReply.ThreadPool) (m : Sequenced.Meta V) (depth : nat)
  : list (string * nat) :=
  match threadPool with
  | TaskAndReply.WithScheduler (Some (_, true)) => [(Sequenced.observabilityName m, depth)]
  | _ => []
  end.
End SequencedAPI.

Module SingleThreadAPI.
Section api.
Context {T : Type}.

Definition PostTaskWithTraitsNamed (name : string) (task : T) (traits : TaskTraits)
  : SingleThread.Call T := SingleThread.EClosed task traits false.
Definition PostTaskWithTraits (task : T) (traits : TaskTraits) : SingleThread.Call T :=
  PostTaskWithTraitsNamed "" task traits.
Definition PostTask (task : T) : SingleThread.Call T := PostTaskWithTraits task DefaultTaskTraits.
Definition PostTaskNamed (name : string) (task : T) : SingleThread.Call T :=
  PostTaskWithTraitsNamed name task DefaultTaskTraits.
(** The timer of the runner fires at any later time: the delay is not kept. *)
Definition PostDelayedTaskWithTraits (task : T) (delay : Z) (traits : TaskTraits) : SingleThread.Call T :=
  SingleThread.DClosed task traits.
Definition PostDelayedTask (task : T) (delay : Z) : SingleThread.Call T :=
  PostDelayedTaskWithTraits task delay DefaultTaskTraits.
Definition FlushAsync (callback : T) : SingleThread.Call T := PostTask callback.
End api.

Section meta.
Context {V : Type}.
Definition Name (m : Sequenced.Meta V) : string := Sequenced.m_name m.
Definition SetName (name : string) (m : Sequenced.Meta V) : Sequenced.Meta V :=
  Sequenced.MkMeta name (Sequenced.m_metadata m).
Definition Metadata (m : Sequenced.Meta V) : gmap string V := Sequenced.m_metadata m.
Definition SetMetadata (key : string) (value : V) (m : Sequenced.Meta V) : Sequenced.Meta V :=
  Sequenced.MkMeta (Sequenced.m_name m) (<[key := value]> (Sequenced.m_metadata m)).
Definition GetThreadPool : TaskAndReply.ThreadPool := TaskAndReply.NilPool.
End meta.
End SingleThreadAPI.

Module ParallelAPI.
Section api.
Context {T : Type}.

Definition PostTaskWithTraitsNamed (name : string) (task : T) (traits : TaskTraits)
  : Parallel.Caller T := Parallel.CPost task traits.
Definition PostTaskWithTraits (task : T) (traits : TaskTraits) : Parallel.Caller T :=
  PostTaskWithTraitsNamed "" task traits.
Definition PostTask (task : T) : Parallel.Caller T := PostTaskWithTraits task DefaultTaskTraits.
Definition PostTaskNamed (name : string) (task : T) : Parallel.Caller T :=
  PostTaskWithTraitsNamed name task DefaultTaskTraits.
Definition PostDelayedTaskWithTraitsNamed (name : string) (task : T) (delay : Z) (traits : TaskTraits)
  : Parallel.Caller T := Parallel.CDelay task traits.
Definition PostDelayedTaskWithTraits (task : T) (delay : Z) (traits : TaskTraits) : Parallel.Caller T :=
  PostDelayedTaskWithTraitsNamed "" task delay traits.
Definition PostDelayedTask (task : T) (delay : Z) : Parallel.Caller T :=
  PostDelayedTaskWithTraits task delay DefaultTaskTraits.
Definition PostDelayedTaskNamed (name : string) (task : T) (delay : Z) : Parallel.Caller T :=
  PostDelayedTaskWithTraitsNamed name task delay DefaultTaskTraits.
End api.

Section meta.
Context {V : Type}.
Definition Name (m : Sequenced.Meta V) : string := Sequenced.m_name m.
Definition SetName (name : string) (m : Sequenced.Meta V) : Sequenced.Meta V :=
  Sequenced.MkMeta name (Sequenced.m_metadata m).
Definition Metadata (m : Sequenced.Meta V) : gmap string V := Sequenced.m_metadata m.
Definition SetMetadata (key : string) (value : V) (m : Sequenced.Meta V) : Sequenced.Meta V :=
  Sequenced.MkMeta (Sequenced.m_name m) (<[key := value]> (Sequenced.m_metadata m)).
Definition GetThreadPool (threadPool : TaskAndReply.ThreadPool) : TaskAndReply.ThreadPool := threadPool.
Definition emitQueueDepth (threadPool : TaskAndReply.ThreadPool) (m : Sequenced.Meta V) (depth : nat)
  : list (string * nat) :=
  match threadPool with
  | TaskAndReply.WithScheduler (Some (_, true)) => [(Observability.parallel_name m, depth)]
  | _ => []
  end.
End meta.
End ParallelAPI.
