(* ===== verification/EventBus.v ===== *)
(** * EventBus (eventbus/eventbus.go)

    Every access to the subscription tables is a closure on the bus's own
    [SequencedTaskRunner]; these run one at a time in the order they were
    posted, so the bus is a queue of closures, the effect of each on the tables
    and the posts it makes (EventBusRunner.v proves this view against the
    runner's machine).  A closure that panics is recovered by the runner and
    keeps what it had already written.  [reflect.Type] is the parameter [Typ],
    handlers and events are opaque. *)

From S2P Require Import Prelude.
From stdpp Require Import pretty.

Section eventbus.
Context {Typ H E : Type} `{Countable Typ}.
Context (TypeOf : E → Typ). (** [reflect.TypeOf] *)

Record subscriber := MkSub { sub_id : string; sub_handler : option H }.
Definition zero_subscriber : subscriber := MkSub "" None.

Record subLocator := MkLoc { loc_type : Typ; loc_index : nat }.

Inductive Closure :=
| ClSubscribe (id : string) (typ : Typ) (handler : H)
| ClPublish (event : E)
| ClUnsubscribe (id : string)
| ClCall (handler : option H) (event : E).   (** one handler's task *)

(** What the closure that is running still has to post: [Push]: it is inside
    [PostTask], past the runner's closed check. *)
Inductive Work := Emit (l : list Closure) | Push (c : Closure) (l : list Closure).

(** [posting]: closures of calls that have not reached the closed check of
    [PostTask] yet; [pushing]: past it.  [current]: a closure is running. *)
Record EventBus := MkBus {
  subs : gmap Typ (list subscriber);
  byID : gmap string subLocator;
  nextID : Z;
  closed : bool;
  runner : list Closure;
  runner_closed : bool;
  posting : list Closure;
  pushing : list Closure;
  current : option Work;
  issued : nat;                           (** history: subscriptions *)
  delivered : list (option H * E);        (** history: handler calls *)
  panics : list string;                   (** history: recovered panics *)
}.

Definition NewEventBus : EventBus := MkBus ∅ ∅ 0 false [] false [] [] None 0 [] [].

Definition set_subs s b := MkBus s (byID b) (nextID b) (closed b) (runner b) (runner_closed b)
  (posting b) (pushing b) (current b) (issued b) (delivered b) (panics b).
Definition set_byID m b := MkBus (subs b) m (nextID b) (closed b) (runner b) (runner_closed b)
  (posting b) (pushing b) (current b) (issued b) (delivered b) (panics b).
Definition set_runner q c b := MkBus (subs b) (byID b) (nextID b) (closed b) q c
  (posting b) (pushing b) (current b) (issued b) (delivered b) (panics b).
Definition set_posting p q b := MkBus (subs b) (byID b) (nextID b) (closed b) (runner b)
  (runner_closed b) p q (current b) (issued b) (delivered b) (panics b).
Definition set_current c b := MkBus (subs b) (byID b) (nextID b) (closed b) (runner b)
  (runner_closed b) (posting b) (pushing b) c (issued b) (delivered b) (panics b).
Definition add_delivered d b := MkBus (subs b) (byID b) (nextID b) (closed b) (runner b)
  (runner_closed b) (posting b) (pushing b) (current b) (issued b) (delivered b ++ [d]) (panics b).
Definition add_panic e b := MkBus (subs b) (byID b) (nextID b) (closed b) (runner b)
  (runner_closed b) (posting b) (pushing b) (current b) (issued b) (delivered b) (panics b ++ [e]).

(** [fmt.Sprintf("sub-%d", n)] *)
Definition sub_name (n : Z) : string := String.append "sub-" (pretty n).

(** [Subscribe]: the identifier it returns, the closure it is about to post. *)
Definition Subscribe (typ : Typ) (handler : H) (b : EventBus) : string * EventBus :=
  let n := wrap_int64 (nextID b + 1) in
  let id := sub_name n in
  (id, MkBus (subs b) (byID b) n (closed b) (runner b) (runner_closed b)
         (posting b ++ [ClSubscribe id typ handler]) (pushing b) (current b) (S (issued b))
         (delivered b) (panics b)).

Definition Publish (event : E) (b : EventBus) : EventBus :=
  if closed b then b else set_posting (posting b ++ [ClPublish event]) (pushing b) b.

Definition Unsubscribe (id : string) (b : EventBus) : EventBus :=
  set_posting (posting b ++ [ClUnsubscribe id]) (pushing b) b.

(** The closures.  A panic comes with the state reached when it was raised. *)
Definition run_subscribe (id : string) (typ : Typ) (handler : H) (b : EventBus) : EventBus :=
  let l := default [] (subs b !! typ) ++ [MkSub id (Some handler)] in
  set_byID (<[id := MkLoc typ (length l - 1)]> (byID b)) (set_subs (<[typ := l]> (subs b)) b).

(** The calls the closure of [Publish] posts, one per subscriber. *)
Definition run_publish (event : E) (b : EventBus) : list Closure :=
  (λ sub, ClCall (sub_handler sub) event) <$> default [] (subs b !! TypeOf event).

(** [subs[i] = subs[n-1]; subs[n-1] = subscriber{}; subs = subs[:n-1]] *)
Definition swap_remove (i : nat) (last : subscriber) (l : list subscriber) : list subscriber :=
  let n := length l in
  take (pred n) (<[pred n := zero_subscriber]> (<[i := last]> l)).

Definition run_unsubscribe (id : string) (b : EventBus) : EventBus * option string :=
  match byID b !! id with
  | None => (b, None)
  | Some loc =>
      let l := default [] (subs b !! loc_type loc) in
      match l !! pred (length l) with
      | None => (b, Some "index out of range [-1]")
      | Some last =>
          if decide (loc_index loc < length l) then
            let l := swap_remove (loc_index loc) last l in
            if decide (length l = 0) then
              (set_byID (delete id (byID b)) (set_subs (delete (loc_type loc) (subs b)) b), None)
            else
              let b := set_subs (<[loc_type loc := l]> (subs b)) b in
              match l !! loc_index loc with
              | None => (b, Some "index out of range")
              | Some s =>
                  (set_byID (delete id (<[sub_id s := MkLoc (loc_type loc) (loc_index loc)]>
                                          (byID b))) b, None)
              end
          else (b, Some "index out of range")
      end
  end.

Definition run_closure (c : Closure) (b : EventBus) : EventBus * option string :=
  match c with
  | ClSubscribe id typ handler => (run_subscribe id typ handler b, None)
  | ClPublish event => (b, None)
  | ClUnsubscribe id => run_unsubscribe id b
  | ClCall handler event => (add_delivered (handler, event) b, None)
  end.

Definition posts (c : Closure) (b : EventBus) : list Closure :=
  match c with ClPublish event => run_publish event b | _ => [] end.

(** [b.runner.PostTask] by the running closure: the test of the runner's
    [closed] flag and the push, then the next one; the closure returns. *)
Definition work_step (w : Work) (b : EventBus) : EventBus :=
  match w with
  | Emit [] => set_current None b
  | Emit (c :: l) => set_current (Some (if runner_closed b then Emit l else Push c l)) b
  | Push c l => set_current (Some (Emit l)) (set_runner (runner b ++ [c]) (runner_closed b) b)
  end.

Inductive Label :=
| LSubscribe (typ : Typ) (handler : H)
| LPublish (event : E)
| LUnsubscribe (id : string)
| LPost (k : nat)              (** a call tests the runner's closed flag in [PostTask] *)
| LPush (k : nat)              (** ... and pushes its closure *)
| LRun                         (** the runner's next closure *)
| LWork                        (** its posts, and its end *)
| LClose                       (** [b.closed.Store(true)] *)
| LRunnerClose                 (** [Shutdown] of the runner, by [Close] or its owner: the flag *)
| LRunnerClear.                (** ... and the clearing of the queue *)

Definition step (l : Label) (b : EventBus) : option EventBus :=
  match l with
  | LSubscribe typ handler => Some (Subscribe typ handler b).2
  | LPublish event => Some (Publish event b)
  | LUnsubscribe id => Some (Unsubscribe id b)
  | LPost k =>
      c ← posting b !! k;
      Some (set_posting (delete k (posting b))
              (if runner_closed b then pushing b else pushing b ++ [c]) b)
  | LPush k =>
      c ← pushing b !! k;
      Some (set_runner (runner b ++ [c]) (runner_closed b)
              (set_posting (posting b) (delete k (pushing b)) b))
  | LRun =>
      match runner b, current b with
      | c :: cs, None =>
          let b := set_current (Some (Emit (posts c b))) (set_runner cs (runner_closed b) b) in
          let '(b, p) := run_closure c b in
          Some (match p with Some e => add_panic e b | None => b end)
      | _, _ => None
      end
  | LWork => w ← current b; Some (work_step w b)
  | LClose =>
      Some (MkBus (subs b) (byID b) (nextID b) true (runner b) (runner_closed b) (posting b)
              (pushing b) (current b) (issued b) (delivered b) (panics b))
  | LRunnerClose => Some (set_runner (runner b) true b)
  | LRunnerClear => Some (set_runner [] (runner_closed b) b)
  end.
End eventbus.
Arguments EventBus Typ H E {_ _}.
Arguments Closure Typ H E : clear implicits.
Arguments Work Typ H E : clear implicits.
Arguments subscriber H : clear implicits.
Arguments subLocator Typ : clear implicits.
Arguments Label Typ H E : clear implicits.

(** ** The two tables agree *)

Section eventbus_lemmas.
Context {Typ H E : Type} `{Countable Typ}.
Context (TypeOf : E → Typ).
Implicit Types b : EventBus Typ H E.
Notation step := (step TypeOf).

(** [byID] locates exactly the subscribers of [subs]; no type keeps an empty
    list. *)
Definition located (m : gmap Typ (list (subscriber H))) (id : string) (typ : Typ) (i : nat) : Prop :=
  ∃ l s, m !! typ = Some l ∧ l !! i = Some s ∧ sub_id s = id.

Record tables_ok (m : gmap Typ (list (subscriber H))) (ids : gmap string (subLocator Typ)) : Prop := {
  to_loc id typ i : ids !! id = Some (MkLoc typ i) ↔ located m id typ i;
  to_ne typ l : m !! typ = Some l → l ≠ [];
}.

Lemma tables_empty : tables_ok ∅ ∅.
Proof.
  split.
  - intros id typ i. split; [by rewrite lookup_empty|]. intros (l & s & E1 & _).
    by rewrite lookup_empty in E1.
  - intros typ l E1. by rewrite lookup_empty in E1.
Qed.

Lemma tables_subscribe m ids id typ (h : H) :
  tables_ok m ids → ids !! id = None →
  let l := default [] (m !! typ) ++ [MkSub id (Some h)] in
  tables_ok (<[typ := l]> m) (<[id := MkLoc typ (length l - 1)]> ids).
Proof.
  intros [Hl Hne] Hid l. split.
  - intros id' typ' i. unfold located.
    assert (Hlen : length l - 1 = length (default [] (m !! typ))).
    { unfold l. rewrite length_app. simpl. lia. }
    destruct (decide (id' = id)) as [->|Hid'].
    + rewrite lookup_insert_eq. split.
      * intros [= <- <-]. exists l, (MkSub id (Some h)). rewrite lookup_insert_eq.
        split; [done|]. split; [|done]. rewrite Hlen. unfold l. apply lookup_snoc_length.
      * intros (l0 & s & E1 & E2 & Es). f_equal.
        assert (¬ located m id typ' i) as Hno by (rewrite <- Hl, Hid; done).
        apply lookup_insert_Some in E1 as [[<- <-]|[_ E1]]; [|destruct Hno; by exists l0, s].
        unfold l in E2. apply lookup_app_Some in E2 as [E2|[Hge E2]].
        -- destruct (m !! typ) as [l1|] eqn:Em; simpl in E2; [|by rewrite lookup_nil in E2].
           destruct Hno. by exists l1, s.
        -- apply lookup_lt_Some in E2 as Hlt. simpl in Hlt. f_equal. lia.
    + rewrite lookup_insert_ne by done. rewrite Hl. unfold located. split.
      * intros (l0 & s & E1 & E2 & Es). destruct (decide (typ' = typ)) as [->|Hty].
        -- exists l, s. rewrite lookup_insert_eq. split; [done|]. split; [|done].
           unfold l. rewrite E1. simpl. by apply lookup_app_l_Some.
        -- exists l0, s. by rewrite lookup_insert_ne.
      * intros (l0 & s & E1 & E2 & Es).
        apply lookup_insert_Some in E1 as [[<- <-]|[Hty E1]]; [|by exists l0, s].
        unfold l in E2. apply lookup_app_Some in E2 as [E2|[Hge E2]].
        -- destruct (m !! typ) as [l1|] eqn:Em; simpl in E2; [|by rewrite lookup_nil in E2].
           by exists l1, s.
        -- apply list_lookup_singleton_Some in E2 as [_ <-]. by simpl in Es.
  - intros typ' l0 E1. apply lookup_insert_Some in E1 as [[<- <-]|[_ E1]]; [|by eapply Hne].
    unfold l. by destruct (default [] (m !! typ)).
Qed.

(** The only subscriber of its type leaves. *)
Lemma tables_delete_type m ids id typ l i :
  tables_ok m ids → ids !! id = Some (MkLoc typ i) → m !! typ = Some l → length l = 1 →
  tables_ok (delete typ m) (delete id ids).
Proof.
  intros [Hl Hne] Hid Hm Hlen. apply Hl in Hid as (l' & s & E1 & E2 & Es). simplify_eq.
  destruct l' as [|s' [|]]; simplify_eq/=. destruct i; [|done]. simplify_eq/=.
  split.
  - intros id' typ' i. rewrite lookup_delete_Some, Hl. unfold located. split.
    + intros (Hne' & l0 & s0 & E1' & E2' & Es'). exists l0, s0. rewrite lookup_delete_Some.
      split_and!; try done. intros <-. simplify_eq. destruct i; simplify_eq/=.
    + intros (l0 & s0 & E1' & E2' & Es'). apply lookup_delete_Some in E1' as [Hty E1'].
      split; [|by exists l0, s0]. intros <-.
      assert (ids !! sub_id s0 = Some (MkLoc typ' i)) as X by (apply Hl; by exists l0, s0).
      rewrite Es' in X.
      assert (ids !! sub_id s = Some (MkLoc typ 0)) as Y by (apply Hl; by exists [s], s).
      simplify_eq.
  - intros typ' l0 E0. apply lookup_delete_Some in E0 as [_ E0]. by eapply Hne.
Qed.

(** One location per identifier. *)
Lemma located_unique m ids id typ i typ' i' :
  tables_ok m ids → located m id typ i → located m id typ' i' → typ = typ' ∧ i = i'.
Proof. intros [Hl _] H1%Hl H2%Hl. by simplify_eq. Qed.

(** The last subscriber takes the place of the one that leaves. *)
Lemma tables_swap m ids id typ l i last :
  tables_ok m ids → ids !! id = Some (MkLoc typ i) → m !! typ = Some l →
  l !! pred (length l) = Some last → i < pred (length l) →
  tables_ok (<[typ := <[i := last]> (take (pred (length l)) l)]> m)
            (delete id (<[sub_id last := MkLoc typ i]> ids)).
Proof.
  intros Hok Hid Hm Hlast Hi. pose proof (λ id typ i typ' i', located_unique _ _ id typ i typ' i' Hok) as Hu.
  pose proof Hok as [Hl Hne].
  assert (Hloc : located m id typ i) by by apply Hl.
  assert (Hlocl : located m (sub_id last) typ (pred (length l))) by by exists l, last.
  assert (sub_id last ≠ id) as Hnl.
  { intros Eid. rewrite Eid in Hlocl. destruct (Hu _ _ _ _ _ Hloc Hlocl). lia. }
  assert (Hlen : i < length (take (pred (length l)) l)) by (rewrite length_take; lia).
  split.
  - intros id' typ' j. rewrite lookup_delete_Some, lookup_insert_Some, Hl. unfold located. split.
    + intros (Hne' & [[<- [= <- <-]]|[Hnl' (l0 & s & E1 & E2 & Es)]]).
      * eexists _, last. rewrite lookup_insert_eq. split; [done|]. split; [|done].
        by apply list_lookup_insert_eq.
      * destruct (decide (typ' = typ)) as [->|Hty].
        -- simplify_eq. eexists _, s. rewrite lookup_insert_eq. split; [done|]. split; [|done].
           assert (i ≠ j).
           { intros ->. destruct Hloc as (l1 & s1 & ? & ? & ?). simplify_eq. }
           assert (j ≠ pred (length l)) by (intros ->; simplify_eq).
           apply lookup_lt_Some in E2 as Hj. rewrite list_lookup_insert_ne by done.
           rewrite lookup_take_lt by lia. done.
        -- exists l0, s. by rewrite lookup_insert_ne.
    + intros (l0 & s & E1 & E2 & Es).
      apply lookup_insert_Some in E1 as [[<- <-]|[Hty E1]].
      * destruct (decide (j = i)) as [->|Hj].
        -- rewrite list_lookup_insert_eq in E2 by done. simplify_eq. split; [done|]. by left.
        -- rewrite list_lookup_insert_ne in E2 by done. apply lookup_take_Some in E2 as [E2 Hjl].
           assert (located m id' typ j) as Hlj by by exists l, s.
           split; [|right; split].
           ++ intros <-. destruct (Hu _ _ _ _ _ Hloc Hlj). lia.
           ++ intros <-. destruct (Hu _ _ _ _ _ Hlocl Hlj). lia.
           ++ by exists l, s.
      * assert (located m id' typ' j) as Hlj by by exists l0, s.
        split; [|right; split].
        -- intros <-. by destruct (Hu _ _ _ _ _ Hloc Hlj).
        -- intros <-. by destruct (Hu _ _ _ _ _ Hlocl Hlj).
        -- by exists l0, s.
  - intros typ' l0 E1. apply lookup_insert_Some in E1 as [[<- <-]|[_ E1]]; [|by eapply Hne].
    intros Hnil. apply (f_equal length) in Hnil. rewrite length_insert in Hnil. simpl in Hnil. lia.
Qed.

(** *** What [Unsubscribe] does *)

Lemma swap_remove_eq (l : list (subscriber H)) i last :
  i < pred (length l) → swap_remove i last l = <[i := last]> (take (pred (length l)) l).
Proof.
  intros Hi. unfold swap_remove. rewrite take_insert_ge by lia. by rewrite take_insert_lt.
Qed.

Lemma length_swap_remove (l : list (subscriber H)) i last :
  length (swap_remove i last l) = pred (length l).
Proof. unfold swap_remove. rewrite length_take, !length_insert. lia. Qed.

Lemma swap_remove_perm (l : list (subscriber H)) i last :
  i < pred (length l) → l !! pred (length l) = Some last →
  swap_remove i last l ≡ₚ delete i l.
Proof.
  intros Hi Hlast. rewrite swap_remove_eq by done.
  assert (l = take (pred (length l)) l ++ [last]) as El.
  { rewrite <- (take_drop (pred (length l)) l) at 1. f_equal.
    rewrite (drop_S _ _ _ Hlast), drop_ge by lia. done. }
  set (k := take (pred (length l)) l) in *.
  assert (Hk : i < length k) by (unfold k; rewrite length_take; lia).
  destruct (lookup_lt_is_Some_2 k i Hk) as [x Hx].
  assert (Hlx : l !! i = Some x) by (rewrite El; by apply lookup_app_l_Some).
  rewrite (list_insert_perm k i x last Hx). apply (Permutation_cons_inv (a:=x)).
  rewrite <- (list_delete_perm l i x Hlx), El, Permutation_swap, <- (list_delete_perm k i x Hx).
  by rewrite Permutation_cons_append.
Qed.

Definition of_type b typ : list (subscriber H) := default [] (subs b !! typ).
Definition bus_ok b : Prop := tables_ok (subs b) (byID b).

Lemma of_type_located b id typ i :
  bus_ok b → byID b !! id = Some (MkLoc typ i) →
  ∃ s, subs b !! typ = Some (of_type b typ) ∧ of_type b typ !! i = Some s ∧ sub_id s = id.
Proof.
  intros [Hl _] Hid. apply Hl in Hid as (l & s & E1 & E2 & Es).
  unfold of_type. rewrite E1. by exists s.
Qed.

(** The subscriber is not the last of several: it is removed, the last one
    takes its place. *)
Lemma unsubscribe_ok b id typ i :
  bus_ok b → byID b !! id = Some (MkLoc typ i) →
  length (of_type b typ) = 1 ∨ i < pred (length (of_type b typ)) →
  ∃ b', run_unsubscribe id b = (b', None) ∧ bus_ok b' ∧
        of_type b' typ ≡ₚ delete i (of_type b typ) ∧
        (∀ typ', typ' ≠ typ → of_type b' typ' = of_type b typ').
Proof.
  intros Hok Hid Hcase. destruct (of_type_located b id typ i Hok Hid) as (s & Hm & Hs & Es).
  pose proof (lookup_lt_Some _ _ _ Hs) as Hi.
  unfold run_unsubscribe. rewrite Hid. cbn [loc_type loc_index].
  fold (of_type b typ). set (l := of_type b typ) in *.
  destruct (lookup_lt_is_Some_2 l (pred (length l)) ltac:(lia)) as [last Hlast]. rewrite Hlast.
  rewrite decide_True by done. rewrite length_swap_remove.
  destruct (decide (pred (length l) = 0)) as [H1|H1].
  - eexists. split; [done|]. assert (length l = 1) as Hlen by lia. split.
    + by apply (tables_delete_type _ _ _ _ l i).
    + unfold of_type. simpl. rewrite lookup_delete_eq. split.
      * destruct l as [|x [|]]; simplify_eq/=. by destruct i; [|lia].
      * intros typ' Hne. by rewrite lookup_delete_ne.
  - assert (i < pred (length l)) as Hlt by lia.
    assert (swap_remove i last l !! i = Some last) as ->.
    { rewrite swap_remove_eq by done. apply list_lookup_insert_eq. rewrite length_take. lia. }
    eexists. split; [done|]. split.
    + unfold bus_ok. simpl. rewrite swap_remove_eq by done. by apply tables_swap.
    + unfold of_type. simpl. rewrite lookup_insert_eq. split; [by apply swap_remove_perm|].
      intros typ' Hne. by rewrite lookup_insert_ne.
Qed.

(** The subscriber is the last of several: the closure panics after it has
    shortened the list and before it forgets the identifier. *)
Lemma unsubscribe_last b id typ :
  bus_ok b → byID b !! id = Some (MkLoc typ (pred (length (of_type b typ)))) →
  2 ≤ length (of_type b typ) →
  ∃ b', run_unsubscribe id b = (b', Some "index out of range") ∧
        of_type b' typ = take (pred (length (of_type b typ))) (of_type b typ) ∧
        byID b' = byID b.
Proof.
  intros Hok Hid H2. destruct (of_type_located b id typ _ Hok Hid) as (s & Hm & Hs & Es).
  unfold run_unsubscribe. rewrite Hid. cbn [loc_type loc_index].
  fold (of_type b typ). set (l := of_type b typ) in *. rewrite Hs.
  rewrite decide_True by lia. rewrite length_swap_remove, decide_False by lia.
  assert (swap_remove (pred (length l)) s l = take (pred (length l)) l) as ->.
  { unfold swap_remove. rewrite take_insert_ge by lia. rewrite take_insert_ge by lia. done. }
  rewrite lookup_take_ge by lia. eexists. split; [done|]. split; [|done].
  unfold of_type. simpl. by rewrite lookup_insert_eq.
Qed.

(** *** Identifiers are fresh *)

Definition sub_ids (c : Closure Typ H E) : list string :=
  match c with ClSubscribe id _ _ => [id] | _ => [] end.
(** The subscriptions on their way to the tables. *)
Definition working b : list (Closure Typ H E) :=
  match current b with Some (Emit l) => l | Some (Push c l) => c :: l | None => [] end.
Definition coming b : list string := (posting b ++ pushing b ++ working b ++ runner b) ≫= sub_ids.
Definition named (n : nat) (id : string) : Prop := ∃ k, 1 ≤ k ≤ n ∧ id = sub_name (Z.of_nat k).

Record fresh_ok b : Prop := {
  fo_next : nextID b = Z.of_nat (issued b);
  fo_nodup : NoDup (coming b);
  fo_new id : id ∈ coming b → byID b !! id = None;
  fo_named id : id ∈ coming b ∨ is_Some (byID b !! id) → named (issued b) id;
}.

Lemma sub_name_inj n m : sub_name n = sub_name m → n = m.
Proof. unfold sub_name. intros E0. apply (inj (String.append "sub-")) in E0. by apply (inj pretty) in E0. Qed.

Lemma named_mono n m id : n ≤ m → named n id → named m id.
Proof. intros Hle (k & ? & ->). exists k. split; [lia|done]. Qed.

(** Steps that add no identifier. *)
Lemma fresh_fewer b b' :
  fresh_ok b → nextID b' = nextID b → issued b' = issued b →
  coming b' ⊆+ coming b → (∀ id, is_Some (byID b' !! id) → is_Some (byID b !! id)) →
  fresh_ok b'.
Proof.
  intros [Hn Hnd Hnew Hnm] En Ei Hsub Hby.
  assert (Hin : ∀ id, id ∈ coming b' → id ∈ coming b) by (intros id Hid; by eapply elem_of_submseteq).
  split.
  - by rewrite En, Ei.
  - destruct (submseteq_Permutation _ _ Hsub) as [k Hk]. rewrite Hk in Hnd.
    by apply NoDup_app in Hnd as [? _].
  - intros id Hid. destruct (byID b' !! id) as [loc|] eqn:E0; [|done].
    destruct (Hby id) as [loc' E1]; [by eexists|]. rewrite (Hnew id (Hin id Hid)) in E1. done.
  - intros id Hid. rewrite Ei. apply Hnm. destruct Hid; auto.
Qed.

(** The calls of handlers carry no identifier. *)
Lemma calls_no_ids event b : run_publish TypeOf event b ≫= sub_ids = [].
Proof. unfold run_publish. by induction (default [] (subs b !! TypeOf event)). Qed.

Lemma posts_no_ids c b : posts TypeOf c b ≫= sub_ids = [].
Proof. destruct c; simpl; try done. apply calls_no_ids. Qed.

Definition bus_inv b : Prop :=
  (Z.of_nat (issued b) < 2 ^ 63)%Z → panics b = [] → bus_ok b ∧ fresh_ok b.

Lemma coming_subscribe b typ h :
  coming (Subscribe typ h b).2 ≡ₚ sub_name (wrap_int64 (nextID b + 1)) :: coming b.
Proof.
  unfold coming, working. simpl. rewrite !bind_app. simpl. perm_solve.
Qed.

Lemma fresh_subscribe b typ h :
  (Z.of_nat (S (issued b)) < 2 ^ 63)%Z → fresh_ok b → fresh_ok (Subscribe typ h b).2.
Proof.
  intros Hlt [Hn Hnd Hnew Hnm].
  assert (wrap_int64 (nextID b + 1) = Z.of_nat (S (issued b))) as Hw.
  { rewrite Hn, wrap_int64_id; lia. }
  assert (Hno : ∀ id, named (issued b) id → id ≠ sub_name (Z.of_nat (S (issued b)))).
  { intros id (k & Hk & ->) E0%sub_name_inj. lia. }
  split.
  - by simpl; rewrite Hw.
  - rewrite coming_subscribe, Hw. apply NoDup_cons. split; [|done].
    intros Hin. by apply (Hno _ (Hnm _ (or_introl Hin))).
  - intros id. rewrite coming_subscribe, Hw, elem_of_cons. intros [->|Hin]; [|by apply Hnew].
    simpl. apply eq_None_not_Some. intros Hs. by apply (Hno _ (Hnm _ (or_intror Hs))).
  - intros id. rewrite coming_subscribe, Hw, elem_of_cons. simpl. intros [[->|Hin]|Hs].
    + exists (S (issued b)). split; [lia|done].
    + apply (named_mono (issued b)); auto.
    + apply (named_mono (issued b)); auto.
Qed.

Lemma of_type_some b typ j s : of_type b typ !! j = Some s → located (subs b) (sub_id s) typ j.
Proof.
  unfold of_type. intros Hs. destruct (subs b !! typ) as [l|] eqn:E0; [|done]. by exists l, s.
Qed.

Lemma unsubscribe_frame b id b' p :
  bus_ok b → run_unsubscribe id b = (b', p) →
  nextID b' = nextID b ∧ issued b' = issued b ∧ coming b' = coming b ∧ panics b' = panics b ∧
  (∀ id', is_Some (byID b' !! id') → is_Some (byID b !! id')).
Proof.
  intros Hok. unfold run_unsubscribe. destruct (byID b !! id) as [[typ i]|] eqn:Hid.
  2:{ by intros [= <- <-]. }
  cbn [loc_type loc_index]. fold (of_type b typ). set (l := of_type b typ).
  destruct (l !! pred (length l)) as [last|] eqn:Hlast; [|by intros [= <- <-]].
  destruct (decide (i < length l)); [|by intros [= <- <-]].
  assert (Hkeys : ∀ id' (m : gmap string (subLocator Typ)), is_Some (delete id m !! id') → is_Some (m !! id')).
  { intros id' m [x Hx]. apply lookup_delete_Some in Hx as [_ Hx]. by eexists. }
  destruct (decide (length (swap_remove i last l) = 0)).
  { intros [= <- <-]. split_and!; try done. simpl. intros id'. apply Hkeys. }
  destruct (swap_remove i last l !! i) as [s|] eqn:Es; [|by intros [= <- <-]].
  intros [= <- <-]. split_and!; try done. simpl. intros id' Hs%Hkeys.
  destruct (decide (id' = sub_id s)) as [->|Hne]; [|by rewrite lookup_insert_ne in Hs].
  assert (s = last) as ->.
  { assert (i < pred (length l)).
    { apply lookup_lt_Some in Es. by rewrite length_swap_remove in Es. }
    rewrite swap_remove_eq in Es by done.
    rewrite list_lookup_insert_eq in Es by (rewrite length_take; lia). by simplify_eq. }
  apply of_type_some, (to_loc _ _ Hok) in Hlast. by eexists.
Qed.

(** The state in which the closure that was first in the queue starts *)
Definition started c cs b : EventBus Typ H E :=
  set_current (Some (Emit (posts TypeOf c b))) (set_runner cs (runner_closed b) b).

Lemma coming_started c cs b :
  runner b = c :: cs → current b = None → coming b ≡ₚ sub_ids c ++ coming (started c cs b).
Proof.
  intros Hr Hcur. unfold coming, working, started. simpl. rewrite Hr, Hcur, !bind_app, bind_cons.
  rewrite posts_no_ids. simpl. perm_solve.
Qed.

(** One closure: what it does to the tables and to the identifiers. *)
Lemma run_closure_inv c cs b b' :
  bus_ok b → fresh_ok b → runner b = c :: cs → current b = None →
  run_closure c (started c cs b) = (b', None) → bus_ok b' ∧ fresh_ok b'.
Proof.
  intros Hok Hf Hr Hcur E0. pose proof (coming_started c cs b Hr Hcur) as Hcome.
  set (b0 := started c cs b) in *. assert (Hok0 : bus_ok b0) by done.
  destruct c as [id typ h|event|id|h event]; simpl in E0.
  - injection E0 as <-. simpl in Hcome. split.
    + unfold bus_ok, run_subscribe. simpl. apply tables_subscribe; [done|].
      apply (fo_new _ Hf). rewrite Hcome. left.
    + destruct Hf as [Hn Hnd Hnew Hnm]. split; [done| | |].
      * rewrite Hcome in Hnd. by apply NoDup_cons in Hnd as [_ Hnd].
      * intros id' Hin. change (id' ∈ coming b0) in Hin.
        rewrite Hcome in Hnd. apply NoDup_cons in Hnd as [Hnotin _].
        simpl. rewrite lookup_insert_ne by (intros ->; done). apply Hnew.
        rewrite Hcome. by right.
      * intros id' [Hin|Hin].
        -- change (id' ∈ coming b0) in Hin. apply Hnm. left. rewrite Hcome. by right.
        -- simpl in Hin. destruct (decide (id' = id)) as [->|Hne].
           ++ apply Hnm. left. rewrite Hcome. left.
           ++ rewrite lookup_insert_ne in Hin by done. apply Hnm. by right.
  - injection E0 as <-. split; [done|]. apply (fresh_fewer b); try done. by rewrite Hcome.
  - simpl in Hcome. destruct (unsubscribe_frame _ _ _ _ Hok0 E0) as (F1 & F2 & F3 & _ & F5).
    assert (Hf' : fresh_ok b') by (apply (fresh_fewer b); [done..| |done]; by rewrite F3, Hcome).
    split; [|done]. destruct (byID b0 !! id) as [[typ i]|] eqn:Hid.
    + destruct (of_type_located b0 id typ i Hok0 Hid) as (s & Hm & Hs & Es).
      pose proof (lookup_lt_Some _ _ _ Hs) as Hi.
      destruct (decide (length (of_type b0 typ) = 1 ∨ i < pred (length (of_type b0 typ)))) as [Hc|Hc].
      * destruct (unsubscribe_ok b0 id typ i Hok0 Hid Hc) as (b1 & E1 & Hok1 & _).
        rewrite E1 in E0. by injection E0 as <-.
      * assert (i = pred (length (of_type b0 typ))) as -> by lia.
        destruct (unsubscribe_last b0 id typ Hok0 Hid) as (b1 & E1 & _); [lia|].
        by rewrite E1 in E0.
    + unfold run_unsubscribe in E0. rewrite Hid in E0. by injection E0 as <-.
  - injection E0 as <-. split; [done|]. apply (fresh_fewer b); try done. by rewrite Hcome.
Qed.

Lemma run_closure_history c b b' p :
  run_closure c b = (b', p) → panics b' = panics b ∧ issued b' = issued b.
Proof.
  destruct c as [id typ h|event|id|h event]; simpl; try (by intros [= <- <-]).
  unfold run_unsubscribe. intros E0. repeat case_match; simplify_eq/=; done.
Qed.

(** Steps that move closures about and leave the tables alone *)
Lemma bus_inv_moved b b' :
  bus_inv b → subs b' = subs b → byID b' = byID b → nextID b' = nextID b → issued b' = issued b →
  panics b' = panics b → coming b' ⊆+ coming b → bus_inv b'.
Proof.
  intros Hinv F1 F2 F3 F4 F5 F6 Hlt Hpan.
  destruct Hinv as [Hok Hf]; [by rewrite F4 in Hlt|by rewrite F5 in Hpan|].
  split; [unfold bus_ok; by rewrite F1, F2|]. apply (fresh_fewer b); try done. by rewrite F2.
Qed.

Lemma coming_fewer b b' k :
  posting b ++ pushing b ++ working b ++ runner b ≡ₚ
    k ++ posting b' ++ pushing b' ++ working b' ++ runner b' → coming b' ⊆+ coming b.
Proof. intros Hp. unfold coming. rewrite Hp, (bind_app _ k). by apply submseteq_inserts_l. Qed.

(** A call that is about to post something that is no subscription *)
Lemma coming_call b c : sub_ids c = [] → coming (set_posting (posting b ++ [c]) (pushing b) b) ⊆+ coming b.
Proof.
  intros Hc. unfold coming, working. simpl. rewrite !bind_app. simpl. by rewrite Hc, !app_nil_r.
Qed.

Lemma bus_inv_step l b b' : bus_inv b → step l b = Some b' → bus_inv b'.
Proof.
  intros Hinv E0. destruct l as [typ h|event|id|k|k| | | | |]; simpl in E0.
  - injection E0 as <-. intros Hlt Hpan. destruct Hinv as [Hok Hf]; [simpl in Hlt; lia|done|].
    split; [done|]. by apply fresh_subscribe.
  - injection E0 as <-. unfold Publish. destruct (closed b); [done|].
    apply (bus_inv_moved b); try done. by apply coming_call.
  - injection E0 as <-. apply (bus_inv_moved b); try done. by apply coming_call.
  - destruct (posting b !! k) as [c|] eqn:Hk; [|done]. simpl in E0. injection E0 as <-.
    apply (bus_inv_moved b); try done.
    apply (coming_fewer _ _ (if runner_closed b then [c] else [])). unfold working. simpl.
    rewrite (list_delete_perm _ _ _ Hk) at 1. destruct (runner_closed b); perm_solve.
  - destruct (pushing b !! k) as [c|] eqn:Hk; [|done]. simpl in E0. injection E0 as <-.
    apply (bus_inv_moved b); try done. apply (coming_fewer _ _ []). unfold working. simpl.
    rewrite (list_delete_perm _ _ _ Hk) at 1. perm_solve.
  - destruct (runner b) as [|c cs] eqn:Hr; [done|]. destruct (current b) eqn:Hcur; [done|].
    change (set_current _ _) with (started c cs b) in E0. intros Hlt Hpan.
    destruct (run_closure c (started c cs b)) as [b1 [e|]] eqn:Ec.
    + injection E0 as <-. simpl in Hpan. by apply app_eq_nil in Hpan as [_ ?].
    + injection E0 as <-. destruct (run_closure_history _ _ _ _ Ec) as [Hp Hi]. simpl in Hp, Hi.
      rewrite Hp in Hpan. rewrite Hi in Hlt. destruct (Hinv Hlt Hpan) as [Hok Hf].
      by eapply run_closure_inv.
  - destruct (current b) as [w|] eqn:Hcur; [|done]. injection E0 as <-. simpl.
    destruct w as [[|c l]|c l]; simpl; apply (bus_inv_moved b); try done.
    + apply (coming_fewer _ _ []). unfold working. simpl. by rewrite Hcur.
    + apply (coming_fewer _ _ (if runner_closed b then [c] else [])). unfold working.
      simpl. rewrite Hcur. destruct (runner_closed b); simpl; perm_solve.
    + apply (coming_fewer _ _ []). unfold working. simpl. rewrite Hcur. perm_solve.
  - injection E0 as <-. by apply (bus_inv_moved b).
  - injection E0 as <-. by apply (bus_inv_moved b).
  - injection E0 as <-. apply (bus_inv_moved b); try done.
    apply (coming_fewer _ _ (runner b)). unfold working. simpl. rewrite app_nil_r. perm_solve.
Qed.

Lemma bus_inv_reach b : reachable step NewEventBus b → bus_inv b.
Proof.
  apply (reachable_invariant step bus_inv).
  - intros _ _. split; [apply tables_empty|]. split; try done.
    + constructor.
    + intros id [Hin|[x Hx]]; [by apply not_elem_of_nil in Hin|].
      simpl in Hx. by rewrite lookup_empty in Hx.
  - intros; eauto using bus_inv_step.
Qed.
End eventbus_lemmas.

(** ** Handlers get events of their own type *)

Section typing.
Context {Typ H E : Type} `{Countable Typ}.
Context (TypeOf : E → Typ).
(** [reflect.TypeFor[T]()] for the [T] of a [HandlerFunc[T]] *)
Context (TypeFor : H → Typ).
Implicit Types b : EventBus Typ H E.
Notation step := (step TypeOf).

(** What the type parameter of [Subscribe] guarantees *)
Definition label_typed (l : Label Typ H E) : Prop :=
  match l with LSubscribe typ h => typ = TypeFor h | _ => True end.
(** [reflect.Value.Call] accepts the event. *)
Definition call_typed (h : option H) (event : E) : Prop :=
  ∃ h', h = Some h' ∧ TypeFor h' = TypeOf event.
Definition closure_typed (c : Closure Typ H E) : Prop :=
  match c with
  | ClSubscribe _ typ h => typ = TypeFor h
  | ClCall h event => call_typed h event
  | _ => True
  end.
Definition subs_typed (m : gmap Typ (list (subscriber H))) : Prop :=
  ∀ typ l s, m !! typ = Some l → s ∈ l → ∃ h, sub_handler s = Some h ∧ TypeFor h = typ.
Definition closures b : list (Closure Typ H E) := posting b ++ pushing b ++ working b ++ runner b.
Record bus_typed b : Prop := {
  bt_subs : subs_typed (subs b);
  bt_closures : Forall closure_typed (closures b);
  bt_delivered : Forall (λ d, call_typed d.1 d.2) (delivered b);
}.

Lemma swap_remove_elem (l : list (subscriber H)) i last s :
  l !! pred (length l) = Some last → s ∈ swap_remove i last l → s ∈ l.
Proof.
  intros Hlast [k Hk]%list_elem_of_lookup. unfold swap_remove in Hk.
  apply lookup_take_Some in Hk as [Hk Hlt]. rewrite list_lookup_insert_ne in Hk by lia.
  apply list_lookup_insert_Some in Hk as [(-> & <- & _)|[_ Hk]]; by eapply list_elem_of_lookup_2.
Qed.

Lemma unsubscribe_typed b id b' p :
  subs_typed (subs b) → run_unsubscribe id b = (b', p) →
  subs_typed (subs b') ∧ closures b' = closures b ∧ delivered b' = delivered b.
Proof.
  intros Hs. unfold run_unsubscribe. destruct (byID b !! id) as [[typ i]|]; [|by intros [= <- <-]].
  cbn [loc_type loc_index]. destruct (subs b !! typ) as [l|] eqn:Hl; [|by intros [= <- <-]].
  simpl. destruct (l !! pred (length l)) as [last|] eqn:Hlast; [|by intros [= <- <-]].
  destruct (decide (i < length l)); [|by intros [= <- <-]].
  assert (subs_typed (<[typ := swap_remove i last l]> (subs b))) as Hins.
  { intros typ' l' s [[<- <-]|[_ Hl']]%lookup_insert_Some Hin; [|by eapply Hs].
    eapply Hs; [exact Hl|]. by eapply swap_remove_elem. }
  destruct (decide (length (swap_remove i last l) = 0)).
  - intros [= <- <-]. split; [|done]. simpl. intros typ' l' s [_ Hl']%lookup_delete_Some. by apply Hs.
  - destruct (swap_remove i last l !! i); by intros [= <- <-].
Qed.

Lemma run_publish_typed event b :
  subs_typed (subs b) → Forall closure_typed (run_publish TypeOf event b).
Proof.
  intros Hs. unfold run_publish. apply Forall_fmap, Forall_forall. intros s Hin. simpl.
  destruct (subs b !! TypeOf event) as [l|] eqn:Hl; [|by apply elem_of_nil in Hin].
  destruct (Hs _ _ _ Hl Hin) as (h & -> & Ht). by exists h.
Qed.

Lemma run_closure_typed c b b' p :
  closure_typed c → bus_typed b → run_closure c b = (b', p) → bus_typed b'.
Proof.
  intros Hc [Hs Hcl Hd] E0. destruct c as [id typ h|event|id|h event]; simpl in E0.
  - injection E0 as <- <-. split; [|done..]. simpl.
    intros typ' l s [[<- <-]|[_ Hl]]%lookup_insert_Some Hin; [|by eapply Hs].
    apply elem_of_app in Hin as [Hin| ->%list_elem_of_singleton]; [|by exists h].
    destruct (subs b !! typ) as [l|] eqn:Hl; [by eapply Hs|by apply elem_of_nil in Hin].
  - by injection E0 as <- <-.
  - destruct (unsubscribe_typed _ _ _ _ Hs E0) as (? & Ec & Ed). split; by rewrite ?Ec, ?Ed.
  - injection E0 as <- <-. split; [done..|]. simpl. apply Forall_app. by repeat constructor.
Qed.

(** Closures only move. *)
Lemma typed_moved b b' :
  bus_typed b → subs b' = subs b → delivered b' = delivered b →
  closures b' ⊆+ closures b → bus_typed b'.
Proof.
  intros [Hs Hcl Hd] E1 E2 Hsub. split; rewrite ?E1, ?E2; try done.
  rewrite Forall_forall in *. intros c Hin. apply Hcl. by eapply elem_of_submseteq.
Qed.

Lemma bus_typed_step l b b' : label_typed l → bus_typed b → step l b = Some b' → bus_typed b'.
Proof.
  intros Hl Hb E0. pose proof Hb as [Hs Hcl Hd]. unfold closures, working in Hcl.
  assert (∀ c, closure_typed c → bus_typed (set_posting (posting b ++ [c]) (pushing b) b)) as Hcall.
  { intros c Hc. split; [done| |done]. unfold closures, working. simpl.
    rewrite !Forall_app, Forall_singleton. rewrite !Forall_app in Hcl. tauto. }
  destruct l as [typ h|event|id|k|k| | | | |]; simpl in E0.
  - injection E0 as <-. split; [done| |done]. unfold closures, working. simpl.
    rewrite !Forall_app, Forall_singleton. rewrite !Forall_app in Hcl. simpl. tauto.
  - injection E0 as <-. unfold Publish. destruct (closed b); [done|]. by apply Hcall.
  - injection E0 as <-. by apply Hcall.
  - destruct (posting b !! k) as [c|] eqn:Hk; [|done]. simpl in E0. injection E0 as <-.
    apply (typed_moved b); try done. unfold closures, working. simpl.
    rewrite (list_delete_perm _ _ _ Hk) at 2. destruct (runner_closed b).
    + by apply submseteq_cons.
    + apply Permutation_submseteq. perm_solve.
  - destruct (pushing b !! k) as [c|] eqn:Hk; [|done]. simpl in E0. injection E0 as <-.
    apply (typed_moved b); try done. unfold closures, working. simpl.
    rewrite (list_delete_perm _ _ _ Hk) at 2. apply Permutation_submseteq. perm_solve.
  - destruct (runner b) as [|c cs] eqn:Hr; [done|]. destruct (current b) eqn:Hcur; [done|].
    change (set_current _ _) with (started TypeOf c cs b) in E0.
    rewrite !Forall_app, Forall_cons in Hcl. destruct Hcl as (H1' & H2 & H3 & Hc & H5).
    assert (bus_typed (started TypeOf c cs b)) as Hst.
    { split; [done| |done]. unfold closures, working. simpl. rewrite !Forall_app. split_and!; try done.
      destruct c; simpl; try done. by apply run_publish_typed. }
    destruct (run_closure c (started TypeOf c cs b)) as [b1 p] eqn:Ec.
    assert (bus_typed b1) as [? ? ?] by (by eapply run_closure_typed).
    injection E0 as <-. by destruct p.
  - destruct (current b) as [w|] eqn:Hcur; [|done]. injection E0 as <-.
    destruct w as [[|c l]|c l]; simpl; apply (typed_moved b); try done;
      unfold closures, working; simpl; rewrite Hcur; try done.
    + destruct (runner_closed b); [|done]. simpl. do 2 (apply submseteq_app; [done|]).
      by apply submseteq_cons.
    + apply Permutation_submseteq. perm_solve.
  - by injection E0 as <-.
  - by injection E0 as <-.
  - injection E0 as <-. apply (typed_moved b); try done.
    unfold closures, working. simpl. rewrite app_nil_r, !app_assoc. by apply submseteq_inserts_r.
Qed.

Lemma bus_typed_run ls b b' :
  Forall label_typed ls → bus_typed b → run step ls b = Some b' → bus_typed b'.
Proof.
  intros Hls. revert b. induction Hls as [|l ls Hl _ IH]; intros b Hb E0; simpl in E0; [by simplify_eq|].
  destruct (step l b) as [b1|] eqn:E1; [|done]. eapply IH; [|done]. by eapply bus_typed_step.
Qed.
End typing.

(** ** Theorems *)

Section eventbus_theorems.
Context {Typ H E : Type} `{Countable Typ}.
Context (TypeOf : E → Typ).
Implicit Types b : EventBus Typ H E.

(** Until a closure panics, the two tables of the bus agree: an identifier is located at
    a type and position exactly when the subscriber list of the type has it there. *)
Theorem bus_tables_consistent b id typ i :
  reachable (step TypeOf) NewEventBus b → (Z.of_nat (issued b) < 2 ^ 63)%Z → panics b = [] →
  byID b !! id = Some (MkLoc typ i) ↔
  ∃ l s, subs b !! typ = Some l ∧ l !! i = Some s ∧ sub_id s = id.
Proof. intros Hr Hlt Hp. by destruct (bus_inv_reach TypeOf b Hr Hlt Hp) as [[Hl _] _]. Qed.

(** C38. Every call of a handler through reflection is well typed: whatever subscriptions,
    publications, cancellations and panics of cancelling closures interleave, a handler that
    Publish calls was subscribed for exactly the dynamic type of the event, also after a
    cancellation has panicked, so the call is made with a real handler and an event of its
    parameter type. *)
Theorem bus_calls_well_typed (TypeFor : H → Typ) ls b h event :
  Forall (label_typed TypeFor) ls → run (step TypeOf) ls NewEventBus = Some b →
  (h, event) ∈ delivered b → ∃ h', h = Some h' ∧ TypeFor h' = TypeOf event.
Proof.
  intros Hls Hr Hin. assert (bus_typed TypeOf TypeFor NewEventBus) as Hb.
  { by split. }
  pose proof (bt_delivered _ _ _ (bus_typed_run _ _ _ _ _ Hls Hb Hr)) as Hd.
  rewrite Forall_forall in Hd. exact (Hd _ Hin).
Qed.

(** The closure of [Publish] leaves the tables alone and has to post one call per subscriber of
    the event's type, in the order of the table at the moment it starts. *)
Theorem bus_publish_snapshot b b' event cs :
  runner b = ClPublish event :: cs → step TypeOf LRun b = Some b' →
  current b' = Some (Emit ((λ s, ClCall (sub_handler s) event) <$> default [] (subs b !! TypeOf event))) ∧
  subs b' = subs b ∧ byID b' = byID b ∧ runner b' = cs.
Proof. intros Hr E0. simpl in E0. rewrite Hr in E0. by destruct (current b); simplify_eq/=. Qed.

(** What cancelling a subscription does: it removes exactly that subscriber, unless it is
    the last of several of its type; then the closure panics after the subscriber was removed,
    and its identifier keeps pointing at the freed position. *)
Theorem bus_unsubscribe b id typ i :
  reachable (step TypeOf) NewEventBus b → (Z.of_nat (issued b) < 2 ^ 63)%Z → panics b = [] →
  byID b !! id = Some (MkLoc typ i) →
  let l := default [] (subs b !! typ) in
  if decide (length l = 1 ∨ i < pred (length l)) then
    ∃ b', run_unsubscribe id b = (b', None) ∧ default [] (subs b' !! typ) ≡ₚ delete i l ∧
          ∀ typ', typ' ≠ typ → default [] (subs b' !! typ') = default [] (subs b !! typ')
  else
    ∃ b', run_unsubscribe id b = (b', Some "index out of range") ∧
          default [] (subs b' !! typ) = take (pred (length l)) l ∧
          byID b' !! id = Some (MkLoc typ i).
Proof.
  intros Hr Hlt Hp Hid. destruct (bus_inv_reach TypeOf b Hr Hlt Hp) as [Hok _].
  destruct (of_type_located b id typ i Hok Hid) as (s & Hm & Hs & _).
  pose proof (lookup_lt_Some _ _ _ Hs) as Hi. cbn zeta. fold (of_type b typ).
  case_decide as Hc.
  - destruct (unsubscribe_ok b id typ i Hok Hid Hc) as (b' & E0 & _ & E1 & E2). by exists b'.
  - assert (i = pred (length (of_type b typ))) as -> by lia.
    destruct (unsubscribe_last b id typ Hok Hid) as (b' & E0 & E1 & E2); [lia|].
    exists b'. by rewrite E2.
Qed.
End eventbus_theorems.

(** ** Concrete runs: events are numbers, their parity is their type *)

Module BusDemo.
Definition bus := EventBus bool nat nat.
Definition init : bus := NewEventBus.
Definition step := step (Typ:=bool) (H:=nat) Nat.even.
(** [Subscribe], whose closure runs at once; [Unsubscribe], likewise. *)
Definition sub (typ : bool) (h : nat) : list (Label bool nat nat) := [LSubscribe typ h; LPost 0; LPush 0; LRun; LWork].
Definition unsub (id : string) : list (Label bool nat nat) := [LUnsubscribe id; LPost 0; LPush 0; LRun; LWork].
Definition go_to (ls : list (Label bool nat nat)) : bus := default init (run step ls init).

Lemma bus_go_to_reach ls :
  bool_decide (is_Some (run step ls init)) = true → reachable step init (go_to ls).
Proof.
  intros Hb. apply bool_decide_eq_true in Hb as [r E].
  unfold go_to. rewrite E. by eapply run_reachable.
Qed.
End BusDemo.
Import BusDemo.

Definition three_subs : list (Label bool nat nat) := sub true 10 ++ sub true 11 ++ sub true 12.

Lemma bus_tables_consistent_witness :
  let b := go_to (three_subs ++ sub false 13 ++ unsub "sub-1") in
  (byID b !! "sub-3" = Some (MkLoc true 0) ↔
   ∃ l s, subs b !! true = Some l ∧ l !! 0 = Some s ∧ sub_id s = "sub-3") ∧
  sub_id <$> default [] (subs b !! true) = ["sub-3"; "sub-2"].
Proof.
  split; [|vm_compute; reflexivity].
  apply (bus_tables_consistent Nat.even (go_to (three_subs ++ sub false 13 ++ unsub "sub-1"))).
  - apply bus_go_to_reach. vm_compute. reflexivity.
  - vm_compute. reflexivity.
  - vm_compute. reflexivity.
Defined.

(** An odd handler and two even ones; an even event is published. *)
Definition typed_run : list (Label bool nat nat) :=
  sub true 10 ++ sub false 11 ++ sub true 12 ++ [LPublish 4; LPost 0; LPush 0; LRun] ++
  replicate 5 LWork ++ [LRun; LWork; LRun; LWork].

Lemma bus_calls_well_typed_witness :
  delivered (go_to typed_run) = [(Some 10, 4); (Some 12, 4)] ∧
  ∃ h', Some 12 = Some h' ∧ Nat.even h' = Nat.even 4.
Proof.
  split; [vm_compute; reflexivity|].
  apply (bus_calls_well_typed Nat.even Nat.even typed_run (go_to typed_run)).
  - repeat constructor.
  - vm_compute. reflexivity.
  - apply (bool_decide_eq_true_1 _). vm_compute. reflexivity.
Defined.

Lemma bus_publish_snapshot_witness :
  let ls := three_subs ++ [LPublish 4; LPost 0; LPush 0] in
  current (go_to (ls ++ [LRun])) = Some (Emit [ClCall (Some 10) 4; ClCall (Some 11) 4; ClCall (Some 12) 4]).
Proof.
  destruct (bus_publish_snapshot Nat.even (go_to (three_subs ++ [LPublish 4; LPost 0; LPush 0]))
    (go_to (three_subs ++ [LPublish 4; LPost 0; LPush 0; LRun])) 4 []) as [H1 _].
  - vm_compute. reflexivity.
  - vm_compute. reflexivity.
  - etransitivity; [exact H1|]. vm_compute. reflexivity.
Defined.

Lemma bus_unsubscribe_witness :
  let b := go_to three_subs in
  let l := default [] (subs b !! true) in
  (if decide (length l = 1 ∨ 2 < pred (length l)) then
    ∃ b', run_unsubscribe "sub-3" b = (b', None) ∧ default [] (subs b' !! true) ≡ₚ delete 2 l ∧
          ∀ typ', typ' ≠ true → default [] (subs b' !! typ') = default [] (subs b !! typ')
  else
    ∃ b', run_unsubscribe "sub-3" b = (b', Some "index out of range") ∧
          default [] (subs b' !! true) = take (pred (length l)) l ∧
          byID b' !! "sub-3" = Some (MkLoc true 2)) ∧
  bool_decide (length l = 1 ∨ 2 < pred (length l)) = false.
Proof.
  split; [|vm_compute; reflexivity].
  apply (bus_unsubscribe Nat.even (go_to three_subs) "sub-3" true 2).
  - apply bus_go_to_reach. vm_compute. reflexivity.
  - vm_compute. reflexivity.
  - vm_compute. reflexivity.
  - vm_compute. reflexivity.
Defined.

(** There is a run in which one subscription of five is cancelled (twice), a closure has
    panicked, and two subscriptions are gone. *)
Theorem bus_unsubscribe_removes_other :
  ∃ b : bus, reachable step init b ∧
    (* subscriptions 1 to 5, of which only the third was cancelled, twice *)
    issued b = 5 ∧
    sub_id <$> default [] (subs b !! true) = ["sub-1"; "sub-2"; "sub-5"] ∧
    panics b = ["index out of range"].
Proof.
  exists (go_to (three_subs ++ unsub "sub-3" ++ sub true 13 ++ sub true 14 ++ unsub "sub-3")).
  split; [apply bus_go_to_reach; vm_compute; reflexivity|]. vm_compute. repeat split.
Qed.
