(* ===== verification/EventBusRunner.v ===== *)
(** * The EventBus on its runner (eventbus/eventbus.go over
    core/sequenced_task_runner.go)

    EventBus.v takes closures to be atomic and one at a time.  Here the bus is a
    client of a runner's machine (any [StrictRunner] of RunnerSpec.v, of which
    SequencedTaskRunner is the instance): its calls, and the posts its closures
    make, are calls of [PostTask] interleaved with everything else, and the
    closures are programs that touch the tables one access at a time.  The two
    together refine EventBus.v, so its theorems hold of the tables between two
    closures. *)

From S2P Require Import Prelude GoSlice Task TaskQueue EventBus RunnerSpec.
From S2P Require Sequenced FIFOQueue.

(** ** The closures, one access at a time *)

(** All the cases of the accesses of a body. *)
Ltac body_cases pc :=
  destruct pc; simpl in *;
  repeat first
    [ progress simplify_eq/=
    | match goal with
      | |- context [match ?x with _ => _ end] => destruct x eqn:?
      | H : context [match ?x with _ => _ end] |- _ => destruct x eqn:?
      end ].

Section bodies.
Context {Typ H E : Type} `{Countable Typ}.
Context (TypeOf : E → Typ).
Notation Bus := (EventBus Typ H E).
Notation Cl := (Closure Typ H E).
Implicit Types b : Bus.

Inductive Body :=
(* [b.subs[typ] = append(b.subs[typ], ...)]; [b.byID[id] = ... len(b.subs[typ]) - 1] *)
| BSubRead (id : string) (typ : Typ) (handler : H)
| BSubWrite (id : string) (typ : Typ) (l : list (subscriber H))
| BSubLen (id : string) (typ : Typ)
| BSubByID (id : string) (typ : Typ) (index : nat)
(* [for _, sub := range subs]: before subscriber [k] of [n]; inside the call of
   [PostTask] for it, made by goroutine [j] *)
| BPubRead (event : E)
| BLoop (event : E) (k n : nat)
| BPosting (event : E) (k n j : nat)
(* [Unsubscribe], with the length of [subs] *)
| BUnsFind (id : string)
| BUnsRead (id : string) (loc : subLocator Typ)
| BUnsMove (id : string) (loc : subLocator Typ) (n : nat)
| BUnsZero (id : string) (loc : subLocator Typ) (n : nat)
| BUnsStore (id : string) (loc : subLocator Typ) (n : nat)
| BUnsByID (id : string) (loc : subLocator Typ)
| BUnsDelete (id : string)
(* a handler's task *)
| BCall (handler : option H) (event : E)
| BHandler
| BEnd (panicked : option string).

Definition start (c : Cl) : Body :=
  match c with
  | ClSubscribe id typ handler => BSubRead id typ handler
  | ClPublish event => BPubRead event
  | ClUnsubscribe id => BUnsFind id
  | ClCall handler event => BCall handler event
  end.

Definition of_type b (typ : Typ) : list (subscriber H) := default [] (subs b !! typ).

(** [None]: it calls the runner, or has returned. *)
Definition body_step (pc : Body) b : option (Body * Bus) :=
  match pc with
  | BSubRead id typ handler =>
      Some (BSubWrite id typ (of_type b typ ++ [MkSub id (Some handler)]), b)
  | BSubWrite id typ l => Some (BSubLen id typ, set_subs (<[typ := l]> (subs b)) b)
  | BSubLen id typ => Some (BSubByID id typ (length (of_type b typ) - 1), b)
  | BSubByID id typ i => Some (BEnd None, set_byID (<[id := MkLoc typ i]> (byID b)) b)
  | BPubRead event => Some (BLoop event 0 (length (of_type b (TypeOf event))), b)
  | BLoop event k n => if k <? n then None else Some (BEnd None, b)
  | BPosting _ _ _ _ => None
  | BUnsFind id =>
      Some (match byID b !! id with None => BEnd None | Some loc => BUnsRead id loc end, b)
  | BUnsRead id loc => Some (BUnsMove id loc (length (of_type b (loc_type loc))), b)
  | BUnsMove id loc n =>
      match of_type b (loc_type loc) !! pred n with
      | None => Some (BEnd (Some "index out of range [-1]"), b)
      | Some last =>
          if loc_index loc <? n then
            Some (BUnsZero id loc n,
                  set_subs (<[loc_type loc := <[loc_index loc := last]> (of_type b (loc_type loc))]>
                              (subs b)) b)
          else Some (BEnd (Some "index out of range"), b)
      end
  | BUnsZero id loc n =>
      Some (BUnsStore id loc n,
            set_subs (<[loc_type loc := <[pred n := zero_subscriber]> (of_type b (loc_type loc))]>
                        (subs b)) b)
  | BUnsStore id loc n =>
      Some (if pred n =? 0 then (BUnsDelete id, set_subs (delete (loc_type loc) (subs b)) b)
            else (BUnsByID id loc,
                  set_subs (<[loc_type loc := take (pred n) (of_type b (loc_type loc))]> (subs b)) b))
  | BUnsByID id loc =>
      Some match of_type b (loc_type loc) !! loc_index loc with
           | None => (BEnd (Some "index out of range"), b)
           | Some sub =>
               (BUnsDelete id,
                set_byID (<[sub_id sub := MkLoc (loc_type loc) (loc_index loc)]> (byID b)) b)
           end
  | BUnsDelete id => Some (BEnd None, set_byID (delete id (byID b)) b)
  | BCall handler event => Some (BHandler, add_delivered (handler, event) b)
  | BHandler => Some (BEnd None, b)
  | BEnd _ => None
  end.

(** What a body still does to the tables. *)
Fixpoint finish (fuel : nat) (pc : Body) b : Bus :=
  match fuel with
  | 0 => b
  | S fuel =>
      match body_step pc b with
      | Some (pc, b) => finish fuel pc b
      | None => match pc with BEnd (Some e) => add_panic e b | _ => b end
      end
  end.
Definition after (pc : Body) b : Bus := finish 8 pc b.

(** The accesses a body has left, its return included. *)
Definition left (pc : Body) : nat :=
  match pc with
  | BSubRead _ _ _ => 5 | BSubWrite _ _ _ => 4 | BSubLen _ _ => 3 | BSubByID _ _ _ => 2
  | BPubRead _ => 3 | BLoop _ _ _ | BPosting _ _ _ _ => 2
  | BUnsFind _ => 8 | BUnsRead _ _ => 7 | BUnsMove _ _ _ => 6 | BUnsZero _ _ _ => 5
  | BUnsStore _ _ _ => 4 | BUnsByID _ _ => 3 | BUnsDelete _ => 2
  | BCall _ _ => 3 | BHandler => 2 | BEnd _ => 1
  end.

Lemma body_step_left pc b pc' b' : body_step pc b = Some (pc', b') → left pc' < left pc.
Proof. intros E0. body_cases pc; lia. Qed.

Lemma finish_more n pc b : left pc ≤ n → finish (S n) pc b = finish n pc b.
Proof.
  revert pc b. induction n as [|n IH]; intros pc b Hn; [by destruct pc; simpl in Hn; lia|].
  cbn [finish]. destruct (body_step pc b) as [[pc' b']|] eqn:E0; [|done].
  apply IH. apply body_step_left in E0. lia.
Qed.

Lemma after_step pc b pc' b' : body_step pc b = Some (pc', b') → after pc b = after pc' b'.
Proof.
  intros E0. unfold after. pose proof (body_step_left _ _ _ _ E0) as Hl.
  assert (left pc ≤ 8) by (destruct pc; simpl; lia).
  rewrite (finish_more 7 pc') by lia. cbn [finish]. by rewrite E0.
Qed.

(** The closures of EventBus.v are these programs run without interruption. *)
Definition effect (c : Cl) b : Bus :=
  let '(b, p) := run_closure c b in match p with Some e => add_panic e b | None => b end.

Lemma after_start c b : after (start c) b = effect c b.
Proof.
  unfold after, effect. destruct c as [id typ h|event|id|h event]; simpl.
  - unfold run_subscribe, of_type. simpl. rewrite lookup_insert_eq. simpl. done.
  - by destruct (0 <? _).
  - unfold run_unsubscribe. destruct (byID b !! id) as [loc|]; simpl; [|done].
    unfold of_type. simpl. set (l := default [] (subs b !! loc_type loc)).
    destruct (l !! pred (length l)) as [last|]; [|done].
    destruct (Nat.ltb_spec (loc_index loc) (length l)); [rewrite decide_True by done|by rewrite decide_False by lia].
    simpl. unfold of_type. simpl. rewrite !lookup_insert_eq. simpl.
    rewrite length_swap_remove, !delete_insert_eq, !insert_insert_eq.
    destruct (Nat.eqb_spec (pred (length l)) 0) as [E0|E0];
      [rewrite decide_True by done|rewrite decide_False by done]; simpl; [done|].
    unfold of_type. simpl. rewrite lookup_insert_eq. fold (swap_remove (loc_index loc) last l). simpl.
    by destruct (swap_remove (loc_index loc) last l !! loc_index loc).
  - done.
Qed.
End bodies.
Arguments Body Typ H E : clear implicits.

(** ** The bus and its runner *)

Section composition.
Context {Typ H E R L A : Type} `{Countable Typ, SequentialRunnerOps R L A}.
Context (TypeOf : E → Typ).
Notation Bus := (EventBus Typ H E).
Notation Cl := (Closure Typ H E).

(** A task of the runner is a closure of the bus, or of somebody else: the
    barrier of [WaitIdle], what the owner of the runner posts. *)
Context (task_of : nat → Cl → A) (closure_of : A → option Cl).

(** Of [bus], the tables, the counter, the flag and the histories are used;
    [bodies]: the closures of the bus that the runner is executing. *)
Record System := MkSystem { bus : Bus; rn : R; bodies : list (Body Typ H E) }.
Definition NewSystem : System := MkSystem NewEventBus sr_init [].
Definition set_bus b s := MkSystem b (rn s) (bodies s).
Definition set_rn r s := MkSystem (bus s) r (bodies s).
Definition set_bodies l s := MkSystem (bus s) (rn s) l.

(** [b.runner.PostTask(c)], as a new goroutine of the runner *)
Definition PostTask (n : nat) (c : Cl) (s : System) : option System :=
  r ← sr_step (sr_post (task_of n c)) (rn s); Some (set_rn r s).

(** A method of the bus: its own part, then its post, if it makes one. *)
Definition method (n : nat) (b : Bus) (s : System) : option System :=
  let s' := set_bus (set_posting [] (pushing b) b) s in
  match posting b with [] => Some s' | c :: _ => PostTask n c s' end.

Definition foreign (x : A) : bool := match closure_of x with Some _ => false | None => true end.
Definition entering (p : Post A) : bool :=
  match p with Testing x | Pushing x => foreign x | Away => true end.

(** The runner moves: a goroutine that does not call for the bus, a post that
    goes on, a task that starts, a task of somebody else that returns. *)
Definition runner_step (l : L) (s : System) : option System :=
  let v := sr_view (rn s) in
  r ← sr_step l (rn s);
  match sr_action l (rn s) with
  | Some (ACall p) => if entering p then Some (set_rn r s) else None
  | Some (AEnter _ x) => if foreign x then Some (set_rn r s) else None
  | Some AStart =>
      let c := head (s_queue v) ≫= closure_of in
      Some (set_bodies (bodies s ++ option_list (start <$> c)) (set_rn r s))
  | Some AEnd =>
      match s_running v with
      | Some x => if foreign x then Some (set_rn r s) else None
      | None => None
      end
  | _ => Some (set_rn r s)
  end.

(** A closure of the bus moves: an access to the tables, a post of [Publish],
    or its return from there. *)
Definition closure_step (k n : nat) (s : System) : option System :=
  pc ← bodies s !! k;
  match body_step TypeOf pc (bus s), pc with
  | Some (pc, b), _ => Some (set_bodies (<[k := pc]> (bodies s)) (set_bus b s))
  | None, BLoop event i len =>
      sub ← of_type (bus s) (TypeOf event) !! i;
      let j := length (s_posts (sr_view (rn s))) in
      PostTask n (ClCall (sub_handler sub) event)
        (set_bodies (<[k := BPosting event i len j]> (bodies s)) s)
  | None, BPosting event i len j =>
      if sr_returned j (rn s)
      then Some (set_bodies (<[k := BLoop event (S i) len]> (bodies s)) s) else None
  | None, _ => None
  end.

(** It returns to the runner; a panic is recovered there. *)
Definition return_step (k : nat) (l : L) (s : System) : option System :=
  match bodies s !! k, sr_action l (rn s) with
  | Some (BEnd p), Some AEnd =>
      r ← sr_step l (rn s);
      Some (set_bodies (delete k (bodies s))
              (set_rn r (set_bus (match p with Some e => add_panic e (bus s) | None => bus s end) s)))
  | _, _ => None
  end.

Inductive BusLabel :=
| LBusSubscribe (typ : Typ) (handler : H) (n : nat)
| LBusPublish (event : E) (n : nat)
| LBusUnsubscribe (id : string) (n : nat)
| LBusClose
| LRunner (l : L)
| LClosure (k n : nat)
| LReturned (k : nat) (l : L).

Definition bus_step (l : BusLabel) (s : System) : option System :=
  match l with
  | LBusSubscribe typ handler n => method n (Subscribe typ handler (bus s)).2 s
  | LBusPublish event n => method n (Publish event (bus s)) s
  | LBusUnsubscribe id n => method n (Unsubscribe id (bus s)) s
  | LBusClose =>
      let b := bus s in
      Some (set_bus (MkBus (subs b) (byID b) (nextID b) true (runner b) (runner_closed b) (posting b)
                       (pushing b) (EventBus.current b) (issued b) (delivered b) (panics b)) s)
  | LRunner l => runner_step l s
  | LClosure k n => closure_step k n s
  | LReturned k l => return_step k l s
  end.
End composition.
Arguments System Typ H E R {_ _}.
Arguments BusLabel Typ H E L : clear implicits.

(** ** The simulation *)

Section simulation.
Context {Typ H E A : Type} `{Countable Typ}.
Context (TypeOf : E → Typ) (closure_of : A → option (Closure Typ H E)).
Notation Bus := (EventBus Typ H E).
Notation Cl := (Closure Typ H E).
Notation Body := (Body Typ H E).
Notation step := (EventBus.step (Typ:=Typ) (H:=H) (E:=E) TypeOf).
Notation foreign := (foreign closure_of).
Implicit Types (b : Bus) (v : AbstractRunner A) (pc : Body) (ps : list (Post A)).

Definition tables b : gmap Typ (list (subscriber H)) * gmap string (subLocator Typ) *
    list (option H * E) * list string :=
  (subs b, byID b, delivered b, panics b).

Lemma tables_step pc b1 b2 :
  tables b1 = tables b2 →
  match body_step TypeOf pc b1, body_step TypeOf pc b2 with
  | Some (pc1, b1'), Some (pc2, b2') => pc1 = pc2 ∧ tables b1' = tables b2'
  | None, None => True
  | _, _ => False
  end.
Proof.
  destruct b1, b2. unfold tables. simpl. intros [= -> -> -> ->].
  destruct pc; simpl; unfold of_type; simpl; repeat case_match; simplify_eq/=; done.
Qed.

Lemma tables_finish n pc b1 b2 :
  tables b1 = tables b2 → tables (finish TypeOf n pc b1) = tables (finish TypeOf n pc b2).
Proof.
  revert pc b1 b2. induction n as [|n IH]; intros pc b1 b2 Ht; simpl; [done|].
  pose proof (tables_step pc b1 b2 Ht) as Hs.
  destruct (body_step TypeOf pc b1) as [[pc1 b1']|], (body_step TypeOf pc b2) as [[pc2 b2']|]; try done.
  - destruct Hs as [<- Hs]. by apply IH.
  - destruct pc; try done. destruct panicked as [e|]; [|done].
    unfold tables in *. simpl. by injection Ht as -> -> -> ->.
Qed.

(** The closures of the bus among the goroutines that post; the goroutine that
    the running closure waits for is left out. *)
Definition hide (bd : list Body) ps : list (Post A) :=
  match bd with [BPosting _ _ _ j] => <[j := Away]> ps | _ => ps end.
Definition testing (p : Post A) : list Cl :=
  match p with Testing x => option_list (closure_of x) | _ => [] end.
Definition pushes (p : Post A) : list Cl :=
  match p with Pushing x => option_list (closure_of x) | _ => [] end.

(** What the running closure has to post. *)
Definition todo ps b pc : Work Typ H E :=
  match pc with
  | BPubRead event => Emit (run_publish TypeOf event b)
  | BLoop event k _ => Emit (drop k (run_publish TypeOf event b))
  | BPosting event k _ j =>
      match ps !! j, drop k (run_publish TypeOf event b) with
      | Some (Testing _), l => Emit l
      | Some (Pushing _), c :: l => Push c l
      | _, l => Emit (tail l)
      end
  | _ => Emit []
  end.
Definition body_ok ps b pc : Prop :=
  match pc with
  | BLoop event k n => k ≤ n ∧ n = length (run_publish TypeOf event b)
  | BPosting event k n j =>
      k < n ∧ n = length (run_publish TypeOf event b) ∧
      ∃ p, ps !! j = Some p ∧
           match p with
           | Testing x | Pushing x => closure_of x = run_publish TypeOf event b !! k
           | Away => True
           end
  | _ => True
  end.

Definition rest bs (bd : list Body) : Bus := foldr (after TypeOf) bs bd.

(** A state of the bus on its runner ([bs]: the tables as they are, [v]: the
    runner, [bd]: the running closures) and a state of EventBus.v. *)
Record sim v bs (bd : list Body) b : Prop := {
  sim_tables : tables b = tables (rest bs bd);
  sim_frame : (nextID b, issued b, closed b) = (nextID bs, issued bs, closed bs);
  sim_flag : runner_closed b = s_closed v;
  sim_queue : runner b = omap closure_of (s_queue v);
  sim_posting : posting b ≡ₚ hide bd (s_posts v) ≫= testing;
  sim_pushing : pushing b ≡ₚ hide bd (s_posts v) ≫= pushes;
  sim_current : EventBus.current b = head (todo (s_posts v) bs <$> bd);
  sim_running : match s_running v with
                | Some x => if foreign x then bd = [] else ∃ pc, bd = [pc]
                | None => bd = []
                end;
  sim_body : Forall (body_ok (s_posts v) bs) bd;
}.

Lemma sim_one v bs bd b : sim v bs bd b → bd = [] ∨ ∃ pc, bd = [pc].
Proof.
  intros [_ _ _ _ _ _ _ Hr _]. destruct (s_running v) as [x|]; [|by left].
  destruct (foreign x); [by left|]. by right.
Qed.

Lemma hide_app bd ps p bs :
  Forall (body_ok ps bs) bd → hide bd (ps ++ [p]) = hide bd ps ++ [p].
Proof.
  intros Hok. destruct bd as [|pc [|]]; try done; destruct pc; try done. simpl.
  apply Forall_cons in Hok as [(_ & _ & q & Hq & _) _]. apply lookup_lt_Some in Hq.
  by rewrite insert_app_l.
Qed.

Lemma body_ok_app ps p b bd : Forall (body_ok ps b) bd → Forall (body_ok (ps ++ [p]) b) bd.
Proof.
  intros Hf. eapply Forall_impl; [exact Hf|]. intros pc Hok. destruct pc; simpl in *; try done.
  destruct Hok as (? & ? & q & Hq & ?). split_and!; [done..|]. exists q. split; [|done].
  by apply lookup_app_l_Some.
Qed.

Lemma todo_app ps p b pc : body_ok ps b pc → todo (ps ++ [p]) b pc = todo ps b pc.
Proof.
  intros Hok. destruct pc; simpl in *; try done. destruct Hok as (_ & _ & q & Hq & _).
  by rewrite (lookup_app_l_Some _ _ _ _ Hq), Hq.
Qed.

(** The parts of the bus that methods outside of closures change *)
Lemma rest_tables bs bs' bd : tables bs' = tables bs → tables (rest bs' bd) = tables (rest bs bd).
Proof. intros Ht. induction bd as [|pc bd IH]; simpl; [done|]. by apply tables_finish. Qed.
Lemma publish_tables e bs bs' :
  tables bs' = tables bs → run_publish TypeOf e bs' = run_publish TypeOf e bs.
Proof. unfold tables, run_publish. by intros [= -> _ _ _]. Qed.
Lemma body_tables ps bs bs' pc :
  tables bs' = tables bs → todo ps bs' pc = todo ps bs pc ∧ (body_ok ps bs' pc ↔ body_ok ps bs pc).
Proof. intros Ht. destruct pc; simpl; rewrite ?(publish_tables _ _ _ Ht); done. Qed.
Lemma bodies_tables ps bs bs' bd :
  tables bs' = tables bs →
  todo ps bs' <$> bd = todo ps bs <$> bd ∧ (Forall (body_ok ps bs') bd ↔ Forall (body_ok ps bs) bd).
Proof.
  intros Ht. split.
  - apply list_fmap_ext. intros i pc _. by apply body_tables.
  - apply Forall_iff. intros pc. by apply body_tables.
Qed.

(** *** A new goroutine *)

Definition add_post (p : Post A) v : AbstractRunner A :=
  MkAbstract (s_posts v ++ [p]) (s_queue v) (s_closed v) (s_running v).

Lemma sim_add v bs bd b p bs' b' :
  sim v bs bd b → tables bs' = tables bs → tables b' = tables b →
  (nextID b', issued b', EventBus.closed b') = (nextID bs', issued bs', EventBus.closed bs') →
  (runner b', runner_closed b', EventBus.current b') = (runner b, runner_closed b, EventBus.current b) →
  posting b' ≡ₚ posting b ++ testing p → pushing b' = pushing b → pushes p = [] →
  sim (add_post p v) bs' bd b'.
Proof.
  intros [Ht _ Hfl Hq Hpo Hpu Hc Hr Hb] Hbs Hb' Hf [= E1 E2 E3] E4 E5 E6.
  destruct (bodies_tables (s_posts v ++ [p]) _ _ bd Hbs) as [Htd Hok].
  split; simpl; try done.
  - by rewrite Hb', Ht, (rest_tables bs bs').
  - by rewrite E2.
  - by rewrite E1.
  - rewrite (hide_app _ _ _ _ Hb), bind_app, E4, Hpo. simpl. by rewrite app_nil_r.
  - rewrite (hide_app _ _ _ _ Hb), bind_app, E5, Hpu. simpl. by rewrite E6, !app_nil_r.
  - rewrite E3, Hc, Htd. f_equal. apply list_fmap_ext. intros j pc Hj. symmetry. apply todo_app.
    rewrite Forall_lookup in Hb. by apply (Hb j).
  - apply Hok. by apply body_ok_app.
Qed.

(** The closure of [Publish] posts the next call. *)
Lemma sim_add_nested v bs event k n b x :
  sim v bs [BLoop event k n] b → k < n → closure_of x = run_publish TypeOf event bs !! k →
  sim (add_post (Testing x) v) bs [BPosting event k n (length (s_posts v))] b.
Proof.
  intros [Ht Hf Hfl Hq Hpo Hpu Hc Hr Hb] Hk Hx. apply Forall_singleton in Hb as [Hkn Hn].
  split; simpl in *; try done.
  - rewrite Ht. unfold after. simpl. by rewrite (proj2 (Nat.ltb_lt _ _) Hk).
  - by rewrite insert_app_r_alt, Nat.sub_diag, bind_app, Hpo, !app_nil_r by done.
  - by rewrite insert_app_r_alt, Nat.sub_diag, bind_app, Hpu, !app_nil_r by done.
  - by rewrite lookup_snoc_length.
  - destruct (s_running v) as [y|]; [|done]. destruct (foreign y); [done|]. by eexists.
  - apply Forall_singleton. simpl. split_and!; [done..|]. exists (Testing x).
    by rewrite lookup_snoc_length.
Qed.

(** *** A post goes on *)

(** Goroutine [i] is the one the running closure waits for, or one of the
    others, which the closure does not look at. *)
Lemma hide_cases bd ps i p :
  bd = [] ∨ (∃ pc, bd = [pc]) → ps !! i = Some p →
  (∃ event k n, bd = [BPosting event k n i] ∧ ∀ q, hide bd (<[i := q]> ps) = hide bd ps) ∨
  (hide bd ps !! i = Some p ∧
   ∀ q, hide bd (<[i := q]> ps) = <[i := q]> (hide bd ps) ∧
        ∀ b, todo (<[i := q]> ps) b <$> bd = todo ps b <$> bd ∧
             (Forall (body_ok ps b) bd → Forall (body_ok (<[i := q]> ps) b) bd)).
Proof.
  intros Hbd Hi. destruct Hbd as [->|[pc ->]]; [by right|].
  destruct pc; try (right; split; [exact Hi|]; intros q; split; [reflexivity|]; intros b;
                    split; [reflexivity|rewrite !Forall_singleton; intros Hok; exact Hok]).
  destruct (decide (j = i)) as [->|Hne].
  - left. eexists _, _, _. split; [done|]. intros q. simpl. apply list_insert_insert_eq.
  - right. simpl. rewrite list_lookup_insert_ne by done. split; [done|]. intros q.
    split; [by apply list_insert_insert_ne|]. intros b.
    rewrite list_lookup_insert_ne by done. split; [done|].
    rewrite !Forall_singleton. simpl. by rewrite list_lookup_insert_ne by done.
Qed.

(** ... and one of the others moves. *)
Lemma sim_others v bs bd b i p q w b' :
  sim v bs bd b → s_posts v !! i = Some p → hide bd (s_posts v) !! i = Some p →
  (∀ q, hide bd (<[i := q]> (s_posts v)) = <[i := q]> (hide bd (s_posts v)) ∧
        ∀ b, todo (<[i := q]> (s_posts v)) b <$> bd = todo (s_posts v) b <$> bd ∧
             (Forall (body_ok (s_posts v) b) bd → Forall (body_ok (<[i := q]> (s_posts v)) b) bd)) →
  tables b' = tables b → (nextID b', issued b', EventBus.closed b') = (nextID b, issued b, EventBus.closed b) →
  (runner_closed b', EventBus.current b') = (runner_closed b, EventBus.current b) →
  posting b' ≡ₚ (<[i := q]> (hide bd (s_posts v)) ≫= testing) →
  pushing b' ≡ₚ (<[i := q]> (hide bd (s_posts v)) ≫= pushes) →
  runner b' = omap closure_of w →
  sim (set_work w (s_running v) (set_post i q v)) bs bd b'.
Proof.
  intros [Ht Hf Hfl Hq Hpo Hpu Hc Hr Hb] Hi Hh Ho Hb' Hf' [= E2 E3] Hpo' Hpu' E1.
  destruct (Ho q) as [Hhq Htd]. destruct (Htd bs) as [Htodo Hok].
  split; simpl; try done; rewrite ?Hhq; try done.
  - by rewrite Hb'.
  - by rewrite Hf'.
  - by rewrite E2.
  - by rewrite E3, Hc, Htodo.
  - by apply Hok.
Qed.

Notation sims v bs bd b := (∃ ls b', run step ls b = Some b' ∧ sim v bs bd b').

Lemma sim_test v bs bd b i x :
  sim v bs bd b → s_posts v !! i = Some (Testing x) →
  sims (set_post i (if s_closed v then Away else Pushing x) v) bs bd b.
Proof.
  intros Hs Hi. destruct (hide_cases bd _ _ _ (sim_one _ _ _ _ Hs) Hi) as [(e & k & n & -> & Hh)|[Hh Ho]].
  - destruct Hs as [Ht Hf Hfl Hq Hpo Hpu Hc Hr Hb].
    apply Forall_singleton in Hb as (Hk & Hn & q & Hq' & Hx). rewrite Hi in Hq'. injection Hq' as <-.
    simpl in Hc. rewrite Hi in Hc.
    destruct (drop k (run_publish TypeOf e bs)) as [|c l] eqn:El.
    { apply (f_equal length) in El. rewrite length_drop in El. simpl in El. lia. }
    exists [LWork], (set_current (Some (if runner_closed b then Emit l else Push c l)) b).
    simpl. rewrite Hc. simpl. split; [done|].
    split; simpl; rewrite ?list_insert_insert_eq; try done.
    + rewrite list_lookup_insert_eq, El by (by eapply lookup_lt_Some). simpl. rewrite Hfl. by destruct (s_closed v).
    + apply Forall_singleton. simpl. split_and!; [done..|].
      eexists. rewrite list_lookup_insert_eq by (by eapply lookup_lt_Some). split; [done|].
      by destruct (s_closed v).
  - set (q := if s_closed v then Away else Pushing x).
    destruct (bind_insert testing _ _ _ q Hh) as (r1 & E1 & E1').
    destruct (bind_insert pushes _ _ _ q Hh) as (r2 & E2 & E2').
    assert (testing q = []) as Eq by (by unfold q; destruct (s_closed v)).
    rewrite Eq in E1'. simpl in E1, E1', E2.
    destruct (closure_of x) as [c|] eqn:Hx; simpl in E1.
    + pose proof (sim_posting _ _ _ _ Hs) as Hpo. rewrite E1 in Hpo.
      destruct (perm_delete _ _ _ Hpo) as (m & Hm & Hd).
      exists [LPost m], (set_posting (delete m (posting b))
        (if runner_closed b then pushing b else pushing b ++ [c]) b).
      simpl. rewrite Hm. simpl. split; [done|].
      apply (sim_others v bs bd b i (Testing x) q (s_queue v)); try done; simpl.
      * by rewrite Hd, E1'.
      * rewrite E2', (sim_flag _ _ _ _ Hs), <- E2, <- (sim_pushing _ _ _ _ Hs). unfold q.
        destruct (s_closed v); simpl; rewrite ?Hx; simpl; [done|]. by rewrite Permutation_app_comm.
      * by rewrite (sim_queue _ _ _ _ Hs).
    + exists [], b. split; [done|].
      apply (sim_others v bs bd b i (Testing x) q (s_queue v)); try done; simpl.
      * by rewrite E1', <- E1, (sim_posting _ _ _ _ Hs).
      * rewrite E2', (sim_pushing _ _ _ _ Hs), E2. unfold q. destruct (s_closed v); simpl; by rewrite ?Hx.
      * by rewrite (sim_queue _ _ _ _ Hs).
Qed.

Lemma sim_push v bs bd b i x :
  sim v bs bd b → s_posts v !! i = Some (Pushing x) →
  sims (set_work (s_queue v ++ [x]) (s_running v) (set_post i Away v)) bs bd b.
Proof.
  intros Hs Hi. destruct (hide_cases bd _ _ _ (sim_one _ _ _ _ Hs) Hi) as [(e & k & n & -> & Hh)|[Hh Ho]].
  - destruct Hs as [Ht Hf Hfl Hq Hpo Hpu Hc Hr Hb].
    apply Forall_singleton in Hb as (Hk & Hn & q & Hq' & Hx). rewrite Hi in Hq'. injection Hq' as <-.
    simpl in Hc. rewrite Hi in Hc.
    destruct (drop k (run_publish TypeOf e bs)) as [|c l] eqn:El.
    { apply (f_equal length) in El. rewrite length_drop in El. simpl in El. lia. }
    exists [LWork], (set_current (Some (Emit l)) (set_runner (runner b ++ [c]) (runner_closed b) b)).
    simpl. rewrite Hc. simpl. split; [done|].
    assert (closure_of x = Some c) as Hxc.
    { rewrite Hx. rewrite <- (Nat.add_0_r k), <- lookup_drop, El. done. }
    split; simpl; rewrite ?list_insert_insert_eq; try done.
    + rewrite Hq, omap_app. simpl. by rewrite Hxc.
    + by rewrite list_lookup_insert_eq, El by (by eapply lookup_lt_Some).
    + apply Forall_singleton. simpl. split_and!; [done..|]. exists Away.
      by rewrite list_lookup_insert_eq by (by eapply lookup_lt_Some).
  - destruct (bind_insert testing _ _ _ Away Hh) as (r1 & E1 & E1').
    destruct (bind_insert pushes _ _ _ Away Hh) as (r2 & E2 & E2'). simpl in E1, E1', E2, E2'.
    destruct (closure_of x) as [c|] eqn:Hx; simpl in E2.
    + pose proof (sim_pushing _ _ _ _ Hs) as Hpu. rewrite E2 in Hpu.
      destruct (perm_delete _ _ _ Hpu) as (m & Hm & Hd).
      exists [LPush m], (set_runner (runner b ++ [c]) (runner_closed b)
        (set_posting (posting b) (delete m (pushing b)) b)).
      simpl. rewrite Hm. simpl. split; [done|].
      apply (sim_others v bs bd b i (Pushing x) Away); try done; simpl.
      * by rewrite E1', <- E1, (sim_posting _ _ _ _ Hs).
      * by rewrite Hd, E2'.
      * rewrite (sim_queue _ _ _ _ Hs), omap_app. simpl. by rewrite Hx.
    + exists [], b. split; [done|].
      apply (sim_others v bs bd b i (Pushing x) Away); try done; simpl.
      * by rewrite E1', <- E1, (sim_posting _ _ _ _ Hs).
      * by rewrite E2', <- E2, (sim_pushing _ _ _ _ Hs).
      * rewrite (sim_queue _ _ _ _ Hs), omap_app. simpl. by rewrite Hx, app_nil_r.
Qed.

(** *** Starts, ends, shutdown *)

Lemma effect_frame c b :
  let b' := effect c b in
  nextID b' = nextID b ∧ issued b' = issued b ∧ EventBus.closed b' = EventBus.closed b ∧
  runner b' = runner b ∧ runner_closed b' = runner_closed b ∧ posting b' = posting b ∧
  pushing b' = pushing b ∧ EventBus.current b' = EventBus.current b.
Proof.
  unfold effect. destruct c; simpl; try done. unfold run_unsubscribe.
  by repeat (case_match; simplify_eq/=).
Qed.
Lemma tables_effect c b1 b2 : tables b1 = tables b2 → tables (effect c b1) = tables (effect c b2).
Proof. intros Ht. rewrite <- !(after_start TypeOf). by apply tables_finish. Qed.

Lemma sim_start v bs b x q :
  sim v bs [] b → s_running v = None → s_queue v = x :: q →
  sims (set_work q (Some x) v) bs (option_list (start <$> closure_of x)) b.
Proof.
  intros [Ht Hf Hfl Hq Hpo Hpu Hc Hr Hb] Hrun Hqx. rewrite Hqx in Hq. simpl in Hq.
  destruct (closure_of x) as [c|] eqn:Hx; simpl.
  - set (b1 := set_current (Some (Emit (posts TypeOf c b)))
                 (set_runner (omap closure_of q) (runner_closed b) b)).
    exists [LRun], (effect c b1). simpl. rewrite Hq, Hc. split.
    { simpl. change (set_current _ (set_runner _ _ b)) with b1. unfold effect.
      by destruct (run_closure c b1) as [b2 [e|]]. }
    destruct (effect_frame c b1) as (E1 & E2 & E3 & E4 & E5 & E6 & E7 & E8).
    split; simpl.
    + rewrite after_start. by apply tables_effect.
    + by rewrite E1, E2, E3.
    + by rewrite E5.
    + by rewrite E4.
    + rewrite E6. destruct c; exact Hpo.
    + rewrite E7. destruct c; exact Hpu.
    + rewrite E8. simpl. f_equal. destruct c; simpl; f_equal. by apply publish_tables.
    + unfold foreign. rewrite Hx. by eexists.
    + apply Forall_singleton. by destruct c.
  - exists [], b. split; [done|]. split; simpl; try done. unfold foreign. by rewrite Hx.
Qed.

Lemma sim_end_foreign v bs bd b x :
  sim v bs bd b → s_running v = Some x → foreign x = true →
  sim (set_work (s_queue v) None v) bs bd b.
Proof.
  intros [Ht Hf Hfl Hq Hpo Hpu Hc Hr Hb] Hrun Hx. rewrite Hrun, Hx in Hr. by split.
Qed.

Lemma sim_close v bs bd b :
  sim v bs bd b → sims (MkAbstract (s_posts v) (s_queue v) true (s_running v)) bs bd b.
Proof. intros []. exists [LRunnerClose]. eexists. split; [done|]. by split. Qed.

(** [Close] of the bus *)
Lemma sim_closed v bs bd b :
  sim v bs bd b →
  let close b := MkBus (subs b) (byID b) (nextID b) true (runner b) (runner_closed b) (posting b)
                   (pushing b) (EventBus.current b) (issued b) (delivered b) (panics b) in
  sim v (close bs) bd (close b).
Proof.
  intros [Ht [= E1 E2 E3] Hfl Hq Hpo Hpu Hc Hr Hb] close.
  destruct (bodies_tables (s_posts v) bs (close bs) bd eq_refl) as [Htd Hok]. split; try done.
  - change (tables (close b)) with (tables b). by rewrite Ht, (rest_tables bs (close bs)).
  - unfold close. simpl. by rewrite E1, E2.
Qed.

Lemma sim_clear v bs bd b : sim v bs bd b → sims (set_work [] (s_running v) v) bs bd b.
Proof. intros []. exists [LRunnerClear]. eexists. split; [done|]. by split. Qed.

(** *** A closure moves *)

Lemma sim_access v bs pc pc' bs' b :
  sim v bs [pc] b → body_step TypeOf pc bs = Some (pc', bs') → sim v bs' [pc'] b.
Proof.
  intros [Ht Hf Hfl Hq Hpo Hpu Hc Hr Hb] Est. rewrite Forall_singleton in Hb. simpl in *.
  assert (Hfr : (nextID bs', issued bs', EventBus.closed bs') = (nextID bs, issued bs, EventBus.closed bs))
    by (clear - Est; body_cases pc; done).
  split; simpl.
  - by rewrite Ht, (after_step _ _ _ _ _ Est).
  - by rewrite Hfr.
  - done.
  - done.
  - clear - Est Hpo. body_cases pc; done.
  - clear - Est Hpu. body_cases pc; done.
  - rewrite Hc. clear - Est Hb.
    body_cases pc; try done. rewrite drop_ge; [done|]. 
    match goal with Hlt : (_ <? _) = false |- _ => apply Nat.ltb_ge in Hlt end. lia.
  - destruct (s_running v) as [x|]; [|done]. destruct (foreign x); [done|]. by eexists.
  - apply Forall_singleton. clear - Est Hb. body_cases pc; try done.
    split; [lia|]. unfold run_publish, of_type. by rewrite length_fmap.
Qed.

(** It is back from [PostTask], and goes on with the next subscriber. *)
Lemma sim_posted v bs event k n j b :
  sim v bs [BPosting event k n j] b → s_posts v !! j = Some Away →
  sim v bs [BLoop event (S k) n] b.
Proof.
  intros [Ht Hf Hfl Hq Hpo Hpu Hc Hr Hb] Hj. rewrite Forall_singleton in Hb.
  destruct Hb as (Hk & Hn & _). simpl in *. rewrite Hj in Hc. rewrite list_insert_id in * by done.
  split; simpl; try done.
  - rewrite Ht. unfold after. simpl. by destruct (S k <? n).
  - rewrite Hc. do 2 f_equal. by rewrite <- (Nat.add_1_r k), <- drop_drop.
  - destruct (s_running v) as [x|]; [|done]. destruct (foreign x); [done|]. by eexists.
  - apply Forall_singleton. simpl. split; [lia|done].
Qed.

Lemma sim_return v bs p b :
  sim v bs [BEnd p] b →
  sims (set_work (s_queue v) None v) (match p with Some e => add_panic e bs | None => bs end) [] b.
Proof.
  intros [Ht Hf Hfl Hq Hpo Hpu Hc Hr Hb]. simpl in Hc.
  exists [LWork], (set_current None b). simpl. rewrite Hc. split; [done|].
  split; simpl; try done. rewrite Hf. by destruct p.
Qed.
End simulation.

(** ** The refinement *)

Section refinement.
Context {Typ H E R L A : Type} `{Countable Typ, StrictRunner R L A}.
Context (TypeOf : E → Typ).
Context (task_of : nat → Closure Typ H E → A) (closure_of : A → option (Closure Typ H E)).
Context (closure_task : ∀ n c, closure_of (task_of n c) = Some c).
Notation System := (System Typ H E R).
Notation bus_step := (bus_step (L:=L) TypeOf task_of closure_of).
Notation step := (EventBus.step (Typ:=Typ) (H:=H) (E:=E) TypeOf).
Notation rstep := (sr_step (R:=R) (L:=L) (A:=A)).
Notation rreach r := (reachable rstep sr_init r).
Notation view r := (sr_view (R:=R) (L:=L) (A:=A) r).
Implicit Types s : System.

Lemma foreign_none x : foreign closure_of x = true → closure_of x = None.
Proof. unfold foreign. by destruct (closure_of x). Qed.

Definition implements s (b : EventBus Typ H E) : Prop :=
  rreach (rn s) ∧ posting (bus s) = [] ∧ sim TypeOf closure_of (view (rn s)) (bus s) (bodies s) b.

(** A post of the bus: a new goroutine of the runner. *)
Lemma post_view n c r r' :
  rreach r → rstep (sr_post (task_of n c)) r = Some r' →
  rreach r' ∧ view r' = add_post (Testing (task_of n c)) (view r).
Proof.
  intros Hr E0. split; [by econstructor|]. pose proof (sr_refines _ _ _ Hr E0) as Hf.
  rewrite sr_posting in Hf. simpl in Hf. by injection Hf as <-.
Qed.

Lemma sim_method n b1 c s b b' :
  implements s b → posting b1 = [c] →
  tables b1 = tables (bus s) → tables b' = tables b →
  (nextID b', issued b', EventBus.closed b') = (nextID b1, issued b1, EventBus.closed b1) →
  (runner b', runner_closed b', EventBus.current b') = (runner b, runner_closed b, EventBus.current b) →
  posting b' = posting b ++ [c] → pushing b' = pushing b →
  ∀ s', method task_of n b1 s = Some s' → implements s' b'.
Proof.
  intros (Hr & _ & Hs) Hp Ht Ht' Hf Hf' Hpo Hpu s' E0. unfold method in E0. rewrite Hp in E0.
  unfold PostTask in E0. simpl in E0.
  destruct (rstep (sr_post (task_of n c)) (rn s)) as [r'|] eqn:E1; [injection E0 as <-|done].
  destruct (post_view _ _ _ _ Hr E1) as [Hr' Hv]. split_and!; simpl; [done|done|]. rewrite Hv.
  apply (sim_add TypeOf closure_of _ _ _ _ _ _ _ Hs); try done; simpl.
  by rewrite closure_task, Hpo.
Qed.

(** The methods of the bus *)
Lemma method_step s b s' l b1 n :
  implements s b →
  match l with
  | LSubscribe typ handler => b1 = (Subscribe typ handler (bus s)).2
  | LPublish event => b1 = Publish event (bus s)
  | LUnsubscribe id => b1 = Unsubscribe id (bus s)
  | _ => False
  end →
  method task_of n b1 s = Some s' → ∃ b', step l b = Some b' ∧ implements s' b'.
Proof.
  intros Hi Hl E0. pose proof Hi as (Hr & Hp & Hs).
  pose proof (sim_frame _ _ _ _ _ _ Hs) as [= E1 E2 E3].
  destruct l as [typ handler|event|id| | | | | | |]; try done; subst b1; simpl; eexists; (split; [done|]).
  - eapply sim_method; try exact E0; try done; simpl; rewrite ?Hp, ?E1, ?E2, ?E3; done.
  - unfold Publish in *. rewrite E3 in *. destruct (EventBus.closed (bus s)) eqn:Ec.
    + unfold method in E0. rewrite Hp in E0. injection E0 as <-.
      replace (set_posting [] (pushing (bus s)) (bus s)) with (bus s); [by split_and!|].
      clear - Hp. destruct (bus s). simpl in *. by subst.
    + eapply sim_method; try exact E0; try done; simpl; rewrite ?Hp, ?E1, ?E2, ?E3, ?Ec; done.
  - eapply sim_method; try exact E0; try done; simpl; rewrite ?Hp, ?E1, ?E2, ?E3; done.
Qed.

(** The runner by itself *)
Lemma runner_sim l s b s' :
  implements s b → runner_step closure_of l s = Some s' →
  ∃ ls b', run step ls b = Some b' ∧ implements s' b'.
Proof.
  intros (Hr & Hp & Hs) E0. unfold runner_step in E0.
  destruct (rstep l (rn s)) as [r'|] eqn:E1; simpl in E0; [|done].
  assert (rreach r') as Hr' by (by econstructor).
  pose proof (sr_refines _ _ _ Hr E1) as Hf. rewrite strict_lossless in Hf.
  assert (∀ bs bd, (∃ ls b', run step ls b = Some b' ∧ sim TypeOf closure_of (view r') bs bd b') →
    posting bs = [] → s' = MkSystem bs r' bd →
    ∃ ls b', run step ls b = Some b' ∧ implements s' b') as Hgo.
  { intros bs bd (ls & b' & Hrun & Hs') Hp' ->. exists ls, b'. by split_and!. }
  destruct (sr_action l (rn s)) as [a|] eqn:Ea; simpl in Hf.
  2:{ injection E0 as <-. apply (Hgo (bus s) (bodies s)); [|done|done]. exists [], b. by rewrite Hf. }
  destruct a as [p|i x|i|i|i| | | |]; simpl in Hf.
  - destruct (entering closure_of p) eqn:He; [injection E0 as <-|done].
    apply (Hgo (bus s) (bodies s)); [|done|done]. exists [], b. split; [done|].
    destruct p as [x|x|]; [|done|]; injection Hf as <-;
      apply (sim_add TypeOf closure_of _ _ _ _ _ _ _ Hs); try done; try exact (sim_frame _ _ _ _ _ _ Hs).
    + simpl. by rewrite (foreign_none _ He), app_nil_r.
    + by rewrite app_nil_r.
  - by destruct (strict_enter l (rn s) i x).
  - destruct (s_posts (view (rn s)) !! i) as [[x| |]|] eqn:Ei; try done. injection Hf as Hf.
    injection E0 as <-. apply (Hgo (bus s) (bodies s)); [|done|done]. rewrite <- Hf.
    by apply (sim_test TypeOf closure_of).
  - destruct (s_posts (view (rn s)) !! i) as [[|x|]|] eqn:Ei; try done. injection Hf as Hf.
    injection E0 as <-. apply (Hgo (bus s) (bodies s)); [|done|done]. rewrite <- Hf.
    by apply (sim_push TypeOf closure_of).
  - by destruct (s_posts (view (rn s)) !! i) as [[| |]|].
  - destruct (s_queue (view (rn s))) as [|x q] eqn:Eq; [done|].
    destruct (s_running (view (rn s))) eqn:Erun; [done|]. injection Hf as Hf. injection E0 as <-. simpl.
    pose proof (sim_running _ _ _ _ _ _ Hs) as Hbd. rewrite Erun in Hbd. rewrite Hbd in *.
    apply (Hgo (bus s) (option_list (start <$> closure_of x))); [|done|done]. rewrite <- Hf.
    by apply (sim_start TypeOf closure_of).
  - destruct (s_running (view (rn s))) as [x|] eqn:Erun; [|done].
    destruct (foreign closure_of x) eqn:Hx; [|done]. injection Hf as Hf. injection E0 as <-.
    apply (Hgo (bus s) (bodies s)); [|done|done]. exists [], b. split; [done|]. rewrite <- Hf.
    by apply (sim_end_foreign TypeOf closure_of _ _ _ _ x).
  - injection Hf as Hf. injection E0 as <-. apply (Hgo (bus s) (bodies s)); [|done|done].
    rewrite <- Hf. by apply (sim_close TypeOf closure_of).
  - destruct (s_closed (view (rn s))); [|done].
    injection Hf as Hf. injection E0 as <-. apply (Hgo (bus s) (bodies s)); [|done|done].
    rewrite <- Hf. by apply (sim_clear TypeOf closure_of).
Qed.

(** A closure of the bus *)
Lemma closure_sim k n s b s' :
  implements s b → closure_step TypeOf task_of k n s = Some s' →
  ∃ ls b', run step ls b = Some b' ∧ implements s' b'.
Proof.
  intros (Hr & Hp & Hs) E0. unfold closure_step in E0.
  destruct (bodies s !! k) as [pc|] eqn:Ek; simpl in E0; [|done].
  assert (bodies s = [pc] ∧ k = 0) as [Hbd ->].
  { destruct (sim_one _ _ _ _ _ _ Hs) as [Hb|[pc' Hb]]; rewrite Hb in Ek; [done|].
    destruct k; [|done]. by injection Ek as ->. }
  rewrite Hbd in Hs, E0. destruct (body_step TypeOf pc (bus s)) as [[pc' bs']|] eqn:Est.
  - injection E0 as <-. exists [], b. split; [done|]. split_and!; simpl; [done| |].
    + clear - Est Hp. body_cases pc; done.
    + by apply (sim_access TypeOf closure_of _ (bus s) pc).
  - destruct pc; try done.
    + destruct (of_type (bus s) (TypeOf event) !! k) as [sub|] eqn:Esub; simpl in E0; [|done].
      unfold PostTask in E0. simpl in E0.
      destruct (rstep _ (rn s)) as [r'|] eqn:E1; [injection E0 as <-|done].
      destruct (post_view _ _ _ _ Hr E1) as [Hr' Hv].
      exists [], b. split; [done|]. split_and!; simpl; [done|done|]. rewrite Hv.
      apply (sim_add_nested TypeOf closure_of); [done| |].
      * simpl in Est. destruct (Nat.ltb_spec k n0); [done|done].
      * rewrite closure_task. unfold run_publish, of_type in *. by rewrite list_lookup_fmap, Esub.
    + destruct (sr_returned j (rn s)) eqn:Eb; [injection E0 as <-|done].
      exists [], b. split; [done|]. split_and!; simpl; [done|done|].
      apply (sim_posted TypeOf closure_of _ _ _ _ _ j); [done|]. by apply sr_back.
Qed.

Lemma return_sim k l s b s' :
  implements s b → return_step k l s = Some s' → ∃ ls b', run step ls b = Some b' ∧ implements s' b'.
Proof.
  intros (Hr & Hp & Hs) E0. unfold return_step in E0.
  destruct (bodies s !! k) as [pc|] eqn:Ek; [|done].
  assert (bodies s = [pc] ∧ k = 0) as [Hbd ->].
  { destruct (sim_one _ _ _ _ _ _ Hs) as [Hb|[pc' Hb]]; rewrite Hb in Ek; [done|].
    destruct k; [|done]. by injection Ek as ->. }
  destruct pc; try done. destruct (sr_action l (rn s)) as [a|] eqn:Ea; [|done]. destruct a; try done.
  destruct (rstep l (rn s)) as [r'|] eqn:E1; simpl in E0; [injection E0 as <-|done].
  pose proof (sr_refines _ _ _ Hr E1) as Hf. rewrite Ea in Hf. simpl in Hf.
  destruct (s_running (view (rn s))) as [x|] eqn:Erun; [|done]. injection Hf as Hf.
  rewrite Hbd in Hs. destruct (sim_return _ _ _ _ _ _ Hs) as (ls & b' & Hrun & Hs').
  exists ls, b'. split; [done|]. split_and!; simpl.
  - by econstructor.
  - by destruct panicked.
  - rewrite Hbd, <- Hf. by destruct panicked.
Qed.

(** The bus on its runner refines EventBus.v. *)
Lemma bus_simulates : simulates bus_step step implements.
Proof.
  intros l s s' b Hi E0. destruct l as [typ handler n|event n|id n| |l|k n|k l]; simpl in E0.
  - destruct (method_step s b s' (LSubscribe typ handler) _ n Hi eq_refl E0) as (b' & Hb & Hi').
    exists [LSubscribe typ handler], b'. simpl in *. by rewrite Hb.
  - destruct (method_step s b s' (LPublish event) _ n Hi eq_refl E0) as (b' & Hb & Hi').
    exists [LPublish event], b'. simpl in *. by rewrite Hb.
  - destruct (method_step s b s' (LUnsubscribe id) _ n Hi eq_refl E0) as (b' & Hb & Hi').
    exists [LUnsubscribe id], b'. simpl in *. by rewrite Hb.
  - injection E0 as <-. exists [LClose]. eexists. split; [done|].
    destruct Hi as (Hr & Hp & Hs). split_and!; simpl; [done|done|].
    apply (sim_closed TypeOf closure_of _ _ _ _ Hs).
  - by eapply runner_sim.
  - by eapply closure_sim.
  - by eapply return_sim.
Qed.

Lemma implements_init : implements NewSystem NewEventBus.
Proof.
  split_and!; [constructor|done|]. simpl. destruct (sr_new (R:=R) (L:=L) (A:=A)) as [n ->].
  assert (∀ f : Post A → list (Closure Typ H E), f Away = [] → replicate n Away ≫= f = []) as Hn.
  { intros f Hf. induction n as [|n IH]; [done|]. simpl. by rewrite Hf. }
  split; simpl; try done; by rewrite Hn.
Qed.

Lemma bus_reach s :
  reachable bus_step NewSystem s → ∃ b, reachable step NewEventBus b ∧ implements s b.
Proof. apply (simulation_reachable _ _ _ _ _ _ bus_simulates implements_init). Qed.

(** The loop of [Publish] always finds its next subscriber. *)
Lemma publish_finds s event k n :
  reachable bus_step NewSystem s → BLoop event k n ∈ bodies s → k < n →
  is_Some (of_type (bus s) (TypeOf event) !! k).
Proof.
  intros (b & _ & _ & _ & Hs)%bus_reach Hin Hk. pose proof (sim_body _ _ _ _ _ _ Hs) as Hok.
  rewrite Forall_forall in Hok. destruct (Hok _ Hin) as [_ Hn]. apply lookup_lt_is_Some.
  unfold run_publish, of_type in *. rewrite length_fmap in Hn. lia.
Qed.

(** C5. An EventBus on a SequencedTaskRunner, every access of its closures to the tables and
    every step of the runner interleaved, refines the bus of EventBus.v, whose closures are
    atomic: two closures never overlap, and between closures, until one has panicked or 2^63
    identifiers were issued, an identifier is located at a type and position exactly when the
    subscriber list of the type has it there. *)
Theorem bus_on_runner s :
  reachable bus_step NewSystem s →
  (∃ b, reachable step NewEventBus b ∧ sim TypeOf closure_of (view (rn s)) (bus s) (bodies s) b) ∧
  length (bodies s) ≤ 1 ∧
  (bodies s = [] → (Z.of_nat (issued (bus s)) < 2 ^ 63)%Z → panics (bus s) = [] →
   ∀ id typ i,
     byID (bus s) !! id = Some (MkLoc typ i) ↔
     ∃ l x, subs (bus s) !! typ = Some l ∧ l !! i = Some x ∧ sub_id x = id).
Proof.
  intros (b & Hb & _ & _ & Hs)%bus_reach. split; [by exists b|]. split.
  { by destruct (sim_one _ _ _ _ _ _ Hs) as [->|[pc ->]]; simpl; lia. }
  intros Hbd Hlt Hp id typ i. pose proof (sim_tables _ _ _ _ _ _ Hs) as Ht.
  rewrite Hbd in Ht. simpl in Ht. injection Ht as Es Ei _ Ep.
  pose proof (sim_frame _ _ _ _ _ _ Hs) as [= _ En _].
  rewrite <- En in Hlt. rewrite <- Ep in Hp. rewrite <- Es, <- Ei.
  by destruct (bus_inv_reach TypeOf b Hb Hlt Hp) as [[Hl _] _].
Qed.
End refinement.

(** ** A concrete run on a SequencedTaskRunner *)

Module BusRunnerDemo.
Notation Task := (option (Closure bool nat nat)).
#[export] Instance task_zero : GoZero Task := None.
#[export] Instance q1 : TaskQueue (FIFOQueue.FIFOTaskQueue Task) Task := FIFOQueue.FIFO_TaskQueue grow_double.
#[export] Instance q1_laws : TaskQueueLaws (FIFOQueue.FIFOTaskQueue Task) Task :=
  FIFOQueue.FIFO_Laws grow_double grow_double_ok.
#[export] Instance q1_order : FIFOOrder (FIFOQueue.FIFOTaskQueue Task) Task :=
  FIFOQueue.FIFO_Order grow_double grow_double_ok.

Definition runner := Sequenced.SequencedTaskRunner (FIFOQueue.FIFOTaskQueue Task) Task.
Definition sys := System bool nat nat runner.
Definition init : sys := NewSystem.
Definition task_of (n : nat) (c : Closure bool nat nat) : TaskItem Task :=
  MkTaskItem (Some c) DefaultTaskTraits (N.of_nat n).
Definition L := BusLabel bool nat nat (Sequenced.Label Task).
Definition step : L → sys → option sys := bus_step Nat.even task_of item_Task.
Definition go_to (ls : list L) : sys := default init (run step ls init).

(** Goroutine [i] of the runner moves [n] times; run loop [i] starts its task. *)
Definition thread (i n : nat) : list L := LRunner <$> replicate n (Sequenced.LThread i true).
Definition take (i : nat) : list L := LRunner (Sequenced.LTake 0) :: thread i 2.
(** The closure makes [n] accesses; it returns, and the loop goes on. *)
Definition accesses (n : nat) : list L := replicate n (LClosure 0 9).
Definition leave (i n : nat) : list L := LReturned 0 (Sequenced.LThread i true) :: thread i n.

(** Two subscriptions; an event is published while the second one is between
    its two writes; its closure posts two calls. *)
Definition half : list L :=
  [LBusSubscribe true 10 1] ++ thread 0 4 ++ take 1 ++ [LBusSubscribe true 11 2] ++ thread 2 3 ++
  accesses 4 ++ leave 1 2 ++ take 3 ++ accesses 2.
Definition subscribing : list L :=
  half ++ [LBusPublish 4 3] ++ thread 4 3 ++ accesses 2 ++ leave 3 2.
Definition publishing : list L :=
  subscribing ++ take 5 ++ accesses 2 ++ thread 6 3 ++ accesses 2 ++ thread 7 3 ++ accesses 2.
Definition delivering : list L :=
  publishing ++ leave 5 2 ++ take 8 ++ accesses 2 ++ leave 8 2 ++ take 9 ++ accesses 2 ++
  leave 9 3.
End BusRunnerDemo.
Import BusRunnerDemo.

(** In the middle of the second subscription the table of identifiers lags behind. *)
Example between_two_writes :
  let s := go_to half in
  length (of_type (bus s) true) = 2 ∧ byID (bus s) !! "sub-2" = None ∧ length (bodies s) = 1.
Proof. vm_compute. repeat split. Qed.

Lemma bus_on_runner_witness :
  let s := go_to delivering in
  (length (bodies s) ≤ 1 ∧
   (byID (bus s) !! "sub-2" = Some (MkLoc true 1) ↔
    ∃ l x, subs (bus s) !! true = Some l ∧ l !! 1 = Some x ∧ sub_id x = "sub-2")) ∧
  delivered (bus s) = [(Some 10, 4); (Some 11, 4)] ∧ byID (bus s) !! "sub-2" = Some (MkLoc true 1).
Proof.
  assert (reachable step init (go_to delivering)) as Hr.
  { apply (run_reachable step delivering). vm_compute. reflexivity. }
  split; [|vm_compute; split; reflexivity].
  destruct (bus_on_runner Nat.even task_of item_Task (λ _ _, eq_refl) _ Hr) as (_ & Hl & Ht).
  split; [exact Hl|]. apply Ht; vm_compute; reflexivity.
Defined.
