(* ===== verification/LockFree.v ===== *)
(** * State owned by a runner (skills/templates/lock-free-state.go)

    The template replaces a mutex by a SequencedTaskRunner: the methods of
    LockFreeCounter and LockFreeCache only post closures, and nothing but the
    closures touches the fields.  An [Object] is such a type: its operations,
    the accesses their closures make one by one, and what each operation means
    when it runs alone.  Any object on any [StrictRunner] of RunnerSpec.v, of
    which SequencedTaskRunner is the instance, is linearizable in the order of
    its posts, whatever else the runner executes.  CounterWithMutex, the code
    the template starts from, is a machine of its own with the same meaning. *)

From S2P Require Import Prelude GoSlice Task TaskQueue RunnerSpec.
From S2P Require Sequenced FIFOQueue.

(** ** Objects *)

(** [Body]: what a closure has left to do; [Out]: what it passes to a
    callback. *)
Class Object (St Op Out Body : Type) := {
  obj_new : St;
  obj_start : Op → Body;
  obj_step : Body → St → option (Body * St * option Out);   (** [None]: it has returned *)
  obj_apply : Op → St → St * list Out;
}.

Section meaning.
Context {St Op Out Body : Type} `{Object St Op Out Body}.

(** A body that nobody disturbs runs to its end. *)
Inductive runs : Body → St → list Out → St → Prop :=
| runs_done b st : obj_step b st = None → runs b st [] st
| runs_step b st b' st' o os st'' :
    obj_step b st = Some (b', st', o) → runs b' st' os st'' →
    runs b st (option_list o ++ os) st''.

(** The same by evaluation; [None]: out of fuel *)
Fixpoint finish (fuel : nat) (b : Body) (st : St) : option (St * list Out) :=
  match fuel with
  | 0 => None
  | S fuel =>
      match obj_step b st with
      | None => Some (st, [])
      | Some (b, st, o) => '(st, os) ← finish fuel b st; Some (st, option_list o ++ os)
      end
  end.
Lemma finish_runs fuel b st st' os : finish fuel b st = Some (st', os) → runs b st os st'.
Proof.
  revert b st os. induction fuel as [|fuel IH]; intros b st os E; simpl in E; [done|].
  destruct (obj_step b st) as [[[b1 st1] o]|] eqn:Hs; [|simplify_eq; by apply runs_done].
  destruct (finish fuel b1 st1) as [[st2 os2]|] eqn:Ef; simplify_eq/=. eapply runs_step; eauto.
Qed.

(** The operations one after the other *)
Fixpoint replay (ops : list Op) (st : St) : St * list Out :=
  match ops with
  | [] => (st, [])
  | op :: ops =>
      let '(st, os) := obj_apply op st in
      let '(st, os') := replay ops st in (st, os ++ os')
  end.

Lemma replay_app ops1 ops2 st :
  replay (ops1 ++ ops2) st =
  let '(st1, os1) := replay ops1 st in
  let '(st2, os2) := replay ops2 st1 in (st2, os1 ++ os2).
Proof.
  revert st. induction ops1 as [|op ops1 IH]; intros st; simpl; [by destruct (replay ops2 st)|].
  destruct (obj_apply op st) as [st1 os1]. rewrite IH. destruct (replay ops1 st1) as [st2 os2].
  destruct (replay ops2 st2) as [st3 os3]. by rewrite app_assoc.
Qed.

Lemma replay_snoc ops op st :
  replay (ops ++ [op]) st =
  ((obj_apply op (replay ops st).1).1, (replay ops st).2 ++ (obj_apply op (replay ops st).1).2).
Proof.
  rewrite replay_app. destruct (replay ops st) as [st1 os1]. simpl.
  destruct (obj_apply op st1) as [st2 os2]. simpl. by rewrite app_nil_r.
Qed.
End meaning.

(** The accesses of an operation add up to its meaning. *)
Class ObjectLaws (St Op Out Body : Type) `{Object St Op Out Body} :=
  obj_runs op st : runs (obj_start op) st (obj_apply op st).2 (obj_apply op st).1.

(** ** An object on its runner *)

Section owned.
Context {St Op Out Body R L A : Type} `{Object St Op Out Body, SequentialRunnerOps R L A}.
Context (task_of : nat → Op → A) (op_of : A → option Op).

(** [bodies]: the closures that are running; [log]: the values passed to
    callbacks; [called], [pushed], [started]: the operations whose method was
    called, that entered the queue of the runner and that left it, in order;
    [cleared]: a shutdown emptied it. *)
Record Owned := MkOwned {
  obj : St; rn : R; bodies : list Body;
  log : list Out; called : list Op; pushed : list Op; started : list Op; cleared : bool;
}.
Definition NewOwned : Owned := MkOwned obj_new sr_init [] [] [] [] [] false.
Definition set_rn r s := MkOwned (obj s) r (bodies s) (log s) (called s) (pushed s) (started s) (cleared s).
Definition ops_view (s : Owned) : AbstractRunner Op := own op_of (sr_view (L:=L) (rn s)).

(** A method: [runner.PostTask] of a closure, by some goroutine *)
Definition post_op (n : nat) (op : Op) (s : Owned) : option Owned :=
  r ← sr_step (sr_post (task_of n op)) (rn s);
  Some (MkOwned (obj s) r (bodies s) (log s) (called s ++ [op]) (pushed s) (started s) (cleared s)).

(** What a move of the runner is to the object *)
Definition react (a : option (Action Op)) (s : Owned) : option Owned :=
  match a with
  | Some (ACall (Testing _)) => None   (* only the methods post operations *)
  | Some (APush i) =>
      match s_posts (ops_view s) !! i with
      | Some (Pushing op) =>
          Some (MkOwned (obj s) (rn s) (bodies s) (log s) (called s) (pushed s ++ [op]) (started s)
                  (cleared s))
      | _ => None
      end
  | Some AStart =>
      op ← head (s_queue (ops_view s));
      Some (MkOwned (obj s) (rn s) (bodies s ++ [obj_start op]) (log s) (called s) (pushed s) (started s ++ [op])
        (cleared s))
  | Some AEnd =>
      match bodies s with
      | [b] =>
          match obj_step b (obj s) with
          | None => Some (MkOwned (obj s) (rn s) [] (log s) (called s) (pushed s) (started s) (cleared s))
          | Some _ => None
          end
      | _ => None
      end
  | Some AClear => Some (MkOwned (obj s) (rn s) (bodies s) (log s) (called s) (pushed s) (started s) true)
  | _ => Some s
  end.
Definition runner_move (l : L) (s : Owned) : option Owned :=
  r ← sr_step l (rn s);
  s ← react (sr_action l (rn s) ≫= λ a, own_action op_of a (sr_view (L:=L) (rn s))) s;
  Some (set_rn r s).

(** A running closure makes its next access, or calls its callback. *)
Definition access (k : nat) (s : Owned) : option Owned :=
  b ← bodies s !! k;
  '(b, st, o) ← obj_step b (obj s);
  Some (MkOwned st (rn s) (<[k := b]> (bodies s)) (log s ++ option_list o) (called s) (pushed s) (started s)
          (cleared s)).

Inductive OwnedLabel := LMethod (op : Op) (n : nat) | LRunner (l : L) | LAccess (k : nat).
Definition owned_step (l : OwnedLabel) (s : Owned) : option Owned :=
  match l with
  | LMethod op n => post_op n op s
  | LRunner l => runner_move l s
  | LAccess k => access k s
  end.
End owned.
Arguments Owned St Op Out Body R : clear implicits.
Arguments OwnedLabel Op L : clear implicits.

(** ** Linearizability *)

Section linearizable.
Context {St Op Out Body R L A : Type} `{ObjectLaws St Op Out Body, StrictRunner R L A}.
Context (task_of : nat → Op → A) (op_of : A → option Op).
Context (op_task : ∀ n op, op_of (task_of n op) = Some op).
Notation Owned := (Owned St Op Out Body R).
Notation step := (owned_step (L:=L) task_of op_of).
Notation rreach r := (reachable (sr_step (R:=R) (L:=L) (A:=A)) sr_init r).
Notation view s := (ops_view (L:=L) op_of s).
Implicit Types s : Owned.

(** What the running closure still adds to the meaning of [started] *)
Definition pending (bd : list Body) (st : St) (os : list Out) (st' : St) : Prop :=
  match bd with [] => os = [] ∧ st' = st | b :: _ => runs b st os st' end.

(** The operation of a goroutine inside [PostTask] *)
Definition post_ops (p : Post Op) : list Op :=
  match p with Testing op | Pushing op => [op] | Away => [] end.

Record ok_at (v : AbstractRunner Op) s : Prop := {
  ok_running : length (bodies s) = length (option_list (s_running v));
  ok_meaning : ∃ os st, pending (bodies s) (obj s) os st ∧ replay (started s) obj_new = (st, log s ++ os);
  ok_order : started s ++ s_queue v `sublist_of` pushed s;
  ok_calls : s_closed v = false → called s ≡ₚ (s_posts v ≫= post_ops) ++ pushed s;
  ok_kept : cleared s = false → pushed s = started s ++ s_queue v;
  ok_flag : cleared s = true → s_closed v = true;
}.
Definition owned_ok s : Prop := rreach (rn s) ∧ ok_at (view s) s.

Lemma owned_one v s : ok_at v s → bodies s = [] ∨ ∃ b, bodies s = [b].
Proof.
  intros [Hr _ _ _ _ _]. destruct (bodies s) as [|b [|]]; [by left|right; by exists b|].
  destruct (s_running v); simpl in Hr; lia.
Qed.

(** The runner moves and the object does not. *)
Lemma ok_posts v s ps c :
  ok_at v s → (c = false → s_closed v = false ∧ ps ≫= post_ops ≡ₚ s_posts v ≫= post_ops) →
  ok_at (MkAbstract ps (s_queue v) c (s_running v)) s.
Proof.
  intros [Hrn Hmn Hor Hca Hop Hfl] Hc. split; try done; simpl.
  - intros Ho. destruct (Hc Ho) as [Ho' ->]. by apply Hca.
  - intros Hcl. destruct c; [done|]. destruct (Hc eq_refl) as [Ho _]. rewrite Hfl in Ho; done.
Qed.

Lemma access_ok v k s s' : ok_at v s → access k s = Some s' → ok_at v s'.
Proof.
  intros Hok E. unfold access in E. destruct (bodies s !! k) as [b|] eqn:Hk; simplify_eq/=.
  destruct (obj_step b (obj s)) as [[[b' st'] o]|] eqn:Hb; simplify_eq/=.
  destruct (owned_one v s Hok) as [Hn|[b0 Hn]]; rewrite Hn in Hk; [done|].
  destruct k; [|done]. injection Hk as ->. destruct Hok as [Hrn (os & st & Hp & Hm) Hor Hca Hop Hfl].
  rewrite Hn in *. simpl in Hp. split; simpl; try done.
  destruct Hp as [b st Hd|b st b1 st1 o1 os st2 Hs Hp]; [congruence|].
  rewrite Hs in Hb. simplify_eq. exists os, st2. split; [done|]. by rewrite <- app_assoc.
Qed.

Lemma start_ok v s op q :
  ok_at v s → s_queue v = op :: q → s_running v = None →
  ok_at (set_work q (Some op) v)
    (MkOwned (obj s) (rn s) (bodies s ++ [obj_start op]) (log s) (called s) (pushed s) (started s ++ [op]) (cleared s)).
Proof.
  intros [Hrn (os & st & Hp & Hm) Hor Hca Hop Hfl] Hq Hrun. rewrite Hrun in Hrn. simpl in Hrn.
  destruct (bodies s); [|done]. destruct Hp as [-> ->]. rewrite app_nil_r in Hm. rewrite Hq in Hor, Hop.
  split; simpl; rewrite <- ?app_assoc; try done.
  exists (obj_apply op (obj s)).2, (obj_apply op (obj s)).1. split; [apply obj_runs|].
  by rewrite replay_snoc, Hm.
Qed.

Lemma end_ok v s b x :
  ok_at v s → bodies s = [b] → obj_step b (obj s) = None → s_running v = Some x →
  ok_at (set_work (s_queue v) None v)
    (MkOwned (obj s) (rn s) [] (log s) (called s) (pushed s) (started s) (cleared s)).
Proof.
  intros [Hrn (os & st & Hp & Hm) Hor Hca Hop Hfl] Hb Hd Hrun. rewrite Hb in Hp. simpl in Hp.
  split; simpl; try done. destruct Hp; [by exists [], st|congruence].
Qed.

(** Each move of the runner *)
Lemma react_ok a v v' s s' :
  ok_at v s → v = view s → (∀ i x, a ≠ Some (AEnter i x)) →
  follows false a v v' → react op_of a s = Some s' → ok_at v' s'.
Proof.
  intros Hok Hv Hne Hf E. destruct a as [a|]; [|by simplify_eq/=].
  destruct a as [p|i x|i|i|i| | | |]; simpl in Hf; cbn [react] in E; rewrite <- ?Hv in E; clear Hv;
    try (by destruct (Hne i x)).
  - destruct p; simplify_eq/=. apply ok_posts; [done|]. intros Hc. by rewrite bind_app, app_nil_r.
  - destruct (s_posts v !! i) as [[op| |]|] eqn:Hi; simplify_eq/=. apply ok_posts; [done|]. intros Hc.
    rewrite Hc. by rewrite (bind_insert_same post_ops _ _ _ _ Hi).
  - destruct (s_posts v !! i) as [[|op|]|] eqn:Hi; simplify_eq/=.
    destruct Hok as [Hrn Hmn Hor Hca Hop Hfl]. split; simpl in *; try done; rewrite ?app_assoc.
    + by apply sublist_app.
    + intros Hc. destruct (bind_insert post_ops _ _ _ Away Hi) as (rest & E1 & E2). rewrite E2, Hca, E1 by done.
      simpl. solve_Permutation.
    + intros Hc. by rewrite Hop.
  - by destruct (s_posts v !! i) as [[| |]|].
  - destruct (s_queue v) as [|op q] eqn:Hq; [done|].
    destruct (s_running v) eqn:Hrun; simplify_eq/=. by apply start_ok.
  - destruct (bodies s) as [|b [|]] eqn:Hb; try done. destruct (obj_step b (obj s)) eqn:Hs; simplify_eq/=.
    destruct (s_running v) eqn:Hrun; simplify_eq/=. by eapply end_ok.
  - simplify_eq/=. by apply ok_posts.
  - destruct (s_closed v) eqn:Hcl; simplify_eq/=. destruct Hok as [Hrn Hmn Hor Hca Hop Hfl].
    split; simpl; try done. rewrite app_nil_r. etransitivity; [|exact Hor]. by apply sublist_inserts_r.
Qed.

Lemma step_ok l s s' : owned_ok s → step l s = Some s' → owned_ok s'.
Proof.
  intros [Hr Hok] E. destruct l as [op n|l|k]; simpl in E.
  - unfold post_op in E. destruct (sr_step _ (rn s)) as [r|] eqn:E1; simplify_eq/=.
    split; simpl; [by econstructor|]. pose proof (sr_refines _ _ _ Hr E1) as Hf.
    rewrite sr_posting in Hf. simpl in Hf. injection Hf as Hf. unfold ops_view. simpl. rewrite <- Hf.
    destruct Hok as [Hrn Hmn Hor Hca Hop Hfl]. split; simpl in *; try done. intros Hc.
    rewrite fmap_app, bind_app. simpl. rewrite op_task, Hca by done. simpl. solve_Permutation.
  - unfold runner_move in E. destruct (sr_step l (rn s)) as [r|] eqn:E1; [|done]. cbn [mbind option_bind] in E.
    destruct (react _ _ s) as [s1|] eqn:Ea; simplify_eq/=. split; simpl; [by econstructor|].
    pose proof (own_follows op_of _ _ _ _ (sr_refines l _ _ Hr E1)) as Hf. rewrite strict_lossless in Hf.
    assert (ok_at (own op_of (sr_view (L:=L) r)) s1) as Hs1.
    { eapply react_ok; [exact Hok|done| |exact Hf|exact Ea]. intros i x.
      destruct (sr_action l (rn s)) as [b|] eqn:Eb; [|done]. simpl.
      destruct b; simpl; try (by repeat case_match). by destruct (strict_enter l (rn s) i0 x0). }
    by destruct Hs1.
  - pose proof E as E'. unfold access in E'. destruct (bodies s !! k); simplify_eq/=.
    destruct (obj_step _ _) as [[[? ?] ?]|]; simplify_eq/=. split; [done|].
    exact (access_ok _ _ _ _ Hok E).
Qed.

Lemma owned_reach s : reachable step NewOwned s → owned_ok s.
Proof.
  apply (reachable_invariant step owned_ok); [|eauto using step_ok].
  split; [constructor|]. unfold ops_view. simpl. destruct (sr_new (R:=R) (L:=L) (A:=A)) as [n ->].
  split; simpl; try done; [by exists [], obj_new|]. intros _. rewrite app_nil_r.
  by induction n.
Qed.

(** C18. State owned by a runner needs no lock: for every object whose fields are touched by
    closures on one sequential runner only, whatever the callers, the other clients of the
    runner and the pool do, at most one closure is between two accesses; between closures the
    fields and the values passed to callbacks are those of the executed operations one after
    the other; what was executed, followed by what is queued, is a subsequence of what was
    posted, in the order of the posts, also after a Shutdown, and all of it as long as no
    Shutdown cleared the queue; and while the runner is not closed the queue was not cleared
    and every call is inside its post or among what was posted. *)
Theorem lockfree_linearizable s :
  reachable step NewOwned s →
  length (bodies s) ≤ 1 ∧
  (bodies s = [] → replay (started s) obj_new = (obj s, log s)) ∧
  log s `prefix_of` (replay (started s) obj_new).2 ∧
  started s ++ s_queue (view s) `sublist_of` pushed s ∧
  (cleared s = false → pushed s = started s ++ s_queue (view s)) ∧
  (s_closed (view s) = false →
     cleared s = false ∧ called s ≡ₚ (s_posts (view s) ≫= post_ops) ++ pushed s).
Proof.
  intros [_ Hok]%owned_reach. pose proof (owned_one _ _ Hok) as Hone.
  destruct Hok as [_ (os & st & Hp & Hm) Hor Hca Hop Hfl].
  split_and!; [..|done|done|intros Hc; split; [destruct (cleared s); [by rewrite Hfl in Hc|done]|by apply Hca]].
  - destruct Hone as [->|[b ->]]; simpl; lia.
  - intros Hb. rewrite Hb in Hp. destruct Hp as [-> ->]. by rewrite Hm, app_nil_r.
  - rewrite Hm. by exists os.
Qed.
End linearizable.

(** ** LockFreeCounter *)

Inductive CounterOp := OpIncrement | OpGet.
Inductive CounterBody := CLoad | CStore (v : Z) | CGet | CCallback (v : Z) | CReturn.

(** [c.count++] is a load and a store. *)
Definition counter_access (b : CounterBody) (count : Z) : option (CounterBody * Z * option Z) :=
  match b with
  | CLoad => Some (CStore (wrap_int64 (count + 1)), count, None)
  | CStore v => Some (CReturn, v, None)
  | CGet => Some (CCallback count, count, None)
  | CCallback v => Some (CReturn, count, Some v)
  | CReturn => None
  end.
Definition counter_apply (op : CounterOp) (count : Z) : Z * list Z :=
  match op with
  | OpIncrement => (wrap_int64 (count + 1), [])
  | OpGet => (count, [count])
  end.
#[export] Instance LockFreeCounter : Object Z CounterOp Z CounterBody := {
  obj_new := 0%Z;
  obj_start op := match op with OpIncrement => CLoad | OpGet => CGet end;
  obj_step := counter_access;
  obj_apply := counter_apply;
}.

#[export] Instance LockFreeCounter_laws : ObjectLaws Z CounterOp Z CounterBody.
Proof. intros [] n; by apply (finish_runs 4). Qed.

Section counter_methods.
Context {R L A : Type} `{SequentialRunnerOps R L A}.
Context (task_of : nat → CounterOp → A).
Notation Counter := (Owned Z CounterOp Z CounterBody R).
Definition NewLockFreeCounter : Counter := NewOwned (L:=L) (A:=A).
Definition Increment (n : nat) : Counter → option Counter := post_op task_of n OpIncrement.
Definition Get (n : nat) : Counter → option Counter := post_op task_of n OpGet.
End counter_methods.

(** ** LockFreeCache *)

Inductive CacheOp := OpSet (key value : string) | OpLookup (key : string) | OpStats.
Inductive CacheOut := OutGet (val : string) (ok : bool) | OutStats (hits misses : Z).
Record CacheState := MkCache { data : gmap string string; hits : Z; misses : Z }.
Inductive CacheBody :=
| KSet (key value : string)
| KRead (key : string)
| KHit (val : string) | KHitStore (val : string) (n : Z)
| KMiss (val : string) | KMissStore (val : string) (n : Z)
| KHits | KMisses (h : Z)
| KCallback (o : CacheOut)
| KReturn.

Definition cache_access (b : CacheBody) (c : CacheState) : option (CacheBody * CacheState * option CacheOut) :=
  match b with
  | KSet key value => Some (KReturn, MkCache (<[key := value]> (data c)) (hits c) (misses c), None)
  | KRead key => Some (match data c !! key with Some val => KHit val | None => KMiss "" end, c, None)
  | KHit val => Some (KHitStore val (wrap_int64 (hits c + 1)), c, None)
  | KHitStore val n => Some (KCallback (OutGet val true), MkCache (data c) n (misses c), None)
  | KMiss val => Some (KMissStore val (wrap_int64 (misses c + 1)), c, None)
  | KMissStore val n => Some (KCallback (OutGet val false), MkCache (data c) (hits c) n, None)
  | KHits => Some (KMisses (hits c), c, None)
  | KMisses h => Some (KCallback (OutStats h (misses c)), c, None)
  | KCallback o => Some (KReturn, c, Some o)
  | KReturn => None
  end.
Definition cache_apply (op : CacheOp) (c : CacheState) : CacheState * list CacheOut :=
  match op with
  | OpSet key value => (MkCache (<[key := value]> (data c)) (hits c) (misses c), [])
  | OpLookup key =>
      match data c !! key with
      | Some val => (MkCache (data c) (wrap_int64 (hits c + 1)) (misses c), [OutGet val true])
      | None => (MkCache (data c) (hits c) (wrap_int64 (misses c + 1)), [OutGet "" false])
      end
  | OpStats => (c, [OutStats (hits c) (misses c)])
  end.
#[export] Instance LockFreeCache : Object CacheState CacheOp CacheOut CacheBody := {
  obj_new := MkCache ∅ 0 0;
  obj_start op :=
    match op with OpSet key value => KSet key value | OpLookup key => KRead key | OpStats => KHits end;
  obj_step := cache_access;
  obj_apply := cache_apply;
}.
#[export] Instance LockFreeCache_laws : ObjectLaws CacheState CacheOp CacheOut CacheBody.
Proof.
  intros [key value|key|] c; apply (finish_runs 5); simpl; [by destruct c| |by destruct c].
  by destruct (data c !! key).
Qed.

Section cache_methods.
Context {R L A : Type} `{SequentialRunnerOps R L A}.
Context (task_of : nat → CacheOp → A).
Notation Cache := (Owned CacheState CacheOp CacheOut CacheBody R).
Definition NewLockFreeCache : Cache := NewOwned (L:=L) (A:=A).
Definition CacheSet (n : nat) (key value : string) : Cache → option Cache := post_op task_of n (OpSet key value).
Definition CacheGet (n : nat) (key : string) : Cache → option Cache := post_op task_of n (OpLookup key).
Definition GetStats (n : nat) : Cache → option Cache := post_op task_of n OpStats.
End cache_methods.

(** Every lookup is a hit or a miss. *)
Definition is_lookup (op : CacheOp) : bool := match op with OpLookup _ => true | _ => false end.

Lemma wrap_int64_plus a b : wrap_int64 (wrap_int64 a + b) = wrap_int64 (a + b).
Proof.
  unfold wrap_int64. f_equal.
  replace ((a + 2 ^ 63) `mod` 2 ^ 64 - 2 ^ 63 + b + 2 ^ 63)%Z with ((a + 2 ^ 63) `mod` 2 ^ 64 + b)%Z by lia.
  rewrite Zplus_mod_idemp_l. f_equal. lia.
Qed.

Lemma wrap_int64_idem z : wrap_int64 (wrap_int64 z) = wrap_int64 z.
Proof. pose proof (wrap_int64_plus z 0) as E. by rewrite !Z.add_0_r in E. Qed.

Lemma cache_stats ops c :
  wrap_int64 (hits (replay ops c).1 + misses (replay ops c).1) =
  wrap_int64 (hits c + misses c + Z.of_nat (length (filter is_lookup ops))).
Proof.
  revert c. induction ops as [|op ops IH]; intros c; [simpl; by rewrite Z.add_0_r|].
  rewrite filter_cons. simpl. destruct (cache_apply op c) as [c1 os] eqn:Ea. specialize (IH c1).
  destruct (replay ops c1) as [c2 os2]. simpl in *. rewrite IH. clear IH.
  destruct op as [key value|key|]; simpl in *; [simplify_eq/=; done| |by simplify_eq].
  destruct (data c !! key); simplify_eq/=.
  - rewrite <- Z.add_assoc, wrap_int64_plus. f_equal. lia.
  - rewrite (Z.add_comm (hits c)), <- Z.add_assoc, wrap_int64_plus. f_equal. lia.
Qed.

(** ** CounterWithMutex *)

Module CounterWithMutex.

(** A goroutine in one of the two methods; [defer c.mu.Unlock()] runs last. *)
Inductive Pc :=
| MLock (op : CounterOp)
| MLoad | MStore (v : Z)          (** [c.count++] *)
| MGet                            (** [return c.count] *)
| MUnlock (ret : option Z)
| MReturn (ret : option Z).

(** [order]: the operations in the order in which they took the mutex;
    [answers]: what the calls of [Get] read. *)
Record Counter := MkCounter {
  mu : bool; count : Z; goroutines : list Pc; order : list CounterOp; answers : list Z;
}.
Definition NewCounter : Counter := MkCounter false 0 [] [] [].

Definition body (op : CounterOp) : Pc := match op with OpIncrement => MLoad | OpGet => MGet end.
Definition method_step (p : Pc) (c : Counter) : option (Pc * Counter) :=
  match p with
  | MLock op =>
      if mu c then None
      else Some (body op, MkCounter true (count c) (goroutines c) (order c ++ [op]) (answers c))
  | MLoad => Some (MStore (wrap_int64 (count c + 1)), c)
  | MStore v => Some (MUnlock None, MkCounter (mu c) v (goroutines c) (order c) (answers c))
  | MGet =>
      Some (MUnlock (Some (count c)),
            MkCounter (mu c) (count c) (goroutines c) (order c) (answers c ++ [count c]))
  | MUnlock ret => Some (MReturn ret, MkCounter false (count c) (goroutines c) (order c) (answers c))
  | MReturn _ => None
  end.

Inductive Label := LCall (op : CounterOp) | LStep (i : nat).
Definition step (l : Label) (c : Counter) : option Counter :=
  match l with
  | LCall op => Some (MkCounter (mu c) (count c) (goroutines c ++ [MLock op]) (order c) (answers c))
  | LStep i =>
      p ← goroutines c !! i;
      '(p, c) ← method_step p c;
      Some (MkCounter (mu c) (count c) (<[i := p]> (goroutines c)) (order c) (answers c))
  end.

(** The goroutine that holds the mutex *)
Definition holding (p : Pc) : list Pc :=
  match p with MLoad | MStore _ | MGet | MUnlock _ => [p] | _ => [] end.
(** What it still adds to the operations that took the mutex *)
Definition halfway (p : Pc) (c : Counter) : Prop :=
  match p with
  | MLoad => ∃ ops, order c = ops ++ [OpIncrement] ∧ replay ops 0%Z = (count c, answers c)
  | MStore v => v = wrap_int64 (count c + 1) ∧
                ∃ ops, order c = ops ++ [OpIncrement] ∧ replay ops 0%Z = (count c, answers c)
  | MGet => ∃ ops, order c = ops ++ [OpGet] ∧ replay ops 0%Z = (count c, answers c)
  | _ => replay (order c) 0%Z = (count c, answers c)
  end.
Definition meaning (h : option Pc) (c : Counter) : Prop :=
  match h with
  | Some p => mu c = true ∧ halfway p c
  | None => mu c = false ∧ replay (order c) 0%Z = (count c, answers c)
  end.
Definition locked_ok (c : Counter) : Prop :=
  ∃ h, goroutines c ≫= holding ≡ₚ option_list h ∧ meaning h c.

Lemma method_frame p c p' c' gs :
  method_step p c = Some (p', c') →
  goroutines c' = goroutines c ∧
  method_step p (MkCounter (mu c) (count c) gs (order c) (answers c)) =
    Some (p', MkCounter (mu c') (count c') gs (order c') (answers c')).
Proof. destruct p; simpl; intros E; repeat case_match; by simplify_eq/=. Qed.

(** The mutex passes from nobody to [p'], stays with it, or is given back. *)
Lemma method_meaning p c p' c' h rest :
  method_step p c = Some (p', c') → option_list h ≡ₚ holding p ++ rest → meaning h c →
  ∃ h', option_list h' ≡ₚ holding p' ++ rest ∧ meaning h' c'.
Proof.
  intros E Hp Hm.
  assert (match holding p with [] => rest = option_list h | q :: _ => h = Some q ∧ rest = [] end) as Hh.
  { destruct p; simpl in *; destruct h; simpl in Hp;
      try (by apply Permutation_nil in Hp); try (by apply Permutation_singleton_l in Hp; simplify_eq/=);
      by apply Permutation_nil_cons in Hp. }
  destruct p; simpl in *; repeat case_match; simplify_eq/=.
  - destruct h; destruct Hm as [Hmu Hm]; [congruence|]. exists (Some (body op)).
    split; [by destruct op|]. split; [done|]. destruct op; simpl; by exists (order c).
  - destruct Hh as [-> ->], Hm. by exists (Some (MStore (wrap_int64 (count c' + 1)))).
  - destruct Hh as [-> ->], Hm as (Hmu & -> & ops & Ho & Hr). exists (Some (MUnlock None)). split; [done|].
    split; [done|]. simpl. by rewrite Ho, replay_snoc, Hr, app_nil_r.
  - destruct Hh as [-> ->], Hm as (Hmu & ops & Ho & Hr). exists (Some (MUnlock (Some (count c)))). split; [done|].
    split; [done|]. simpl. by rewrite Ho, replay_snoc, Hr.
  - destruct Hh as [-> ->], Hm. exists None. by split.
Qed.

Lemma locked_step l c c' : locked_ok c → step l c = Some c' → locked_ok c'.
Proof.
  intros (h & Hh & Hm) E. destruct l as [op|i]; simpl in E.
  { simplify_eq. exists h. split; simpl; rewrite ?bind_app, ?app_nil_r; [done|]. destruct h; done. }
  destruct (goroutines c !! i) as [p|] eqn:Hi; simplify_eq/=.
  destruct (method_step p c) as [[p' c1]|] eqn:Ep; simplify_eq/=.
  destruct (bind_insert holding _ _ _ p' Hi) as (rest & E1 & E2).
  rewrite Hh in E1. destruct (method_meaning _ _ _ _ _ _ Ep E1 Hm) as (h' & Hh' & Hm').
  exists h'. split; simpl.
  - by rewrite (proj1 (method_frame _ _ _ _ [] Ep)), E2, Hh'.
  - by destruct h' as [[]|].
Qed.

Lemma locked_reach c : reachable step NewCounter c → locked_ok c.
Proof.
  apply (reachable_invariant step locked_ok); [|eauto using locked_step]. by exists None.
Qed.
End CounterWithMutex.

(** ** Both counters count *)

Definition is_increment (op : CounterOp) : bool := match op with OpIncrement => true | _ => false end.
Definition increments (ops : list CounterOp) : Z := Z.of_nat (length (filter is_increment ops)).

Lemma increments_perm ops ops' : ops ≡ₚ ops' → increments ops = increments ops'.
Proof. intros E. unfold increments. by rewrite E. Qed.

Lemma replay_count ops n : wrap_int64 n = n → (replay ops n).1 = wrap_int64 (n + increments ops).
Proof.
  unfold increments. revert n. induction ops as [|op ops IH]; intros n Hn; [simpl; by rewrite Z.add_0_r|].
  rewrite filter_cons. simpl. destruct (counter_apply op n) as [n1 os] eqn:Ea. specialize (IH n1).
  destruct (replay ops n1) as [n2 os2]. simpl in *. destruct op; simplify_eq/=.
  - rewrite IH by apply wrap_int64_idem. rewrite wrap_int64_plus. f_equal. lia.
  - by apply IH.
Qed.

Section counters.
Context {R L A : Type} `{StrictRunner R L A}.
Context (task_of : nat → CounterOp → A) (op_of : A → option CounterOp).
Context (op_task : ∀ n op, op_of (task_of n op) = Some op).
Notation Counter := (Owned Z CounterOp Z CounterBody R).
Notation step := (owned_step (L:=L) task_of op_of).
Notation view s := (ops_view (L:=L) op_of s).

(** C27. LockFreeCounter does what CounterWithMutex does: when both are at rest and have
    executed the same operations in the same order, in the order of its posts the one and in
    that of the mutex the other, they hold the same count and have answered every Get alike;
    and neither loses an update, however its callers interleave: the count is the number of
    increments (at 64-bit width), for the runner once all calls have returned and the queue is
    empty and as long as it is not shut down. *)
Theorem counters_agree (s : Counter) (c : CounterWithMutex.Counter) :
  reachable step (NewLockFreeCounter (L:=L) (A:=A)) s → bodies s = [] →
  reachable CounterWithMutex.step CounterWithMutex.NewCounter c → CounterWithMutex.mu c = false →
  (CounterWithMutex.order c = started s →
   CounterWithMutex.count c = obj s ∧ CounterWithMutex.answers c = log s) ∧
  (CounterWithMutex.count c = wrap_int64 (increments (CounterWithMutex.order c))) ∧
  (s_closed (view s) = false → cleared s = false → s_queue (view s) = [] →
   s_posts (view s) ≫= post_ops = [] → obj s = wrap_int64 (increments (called s))).
Proof.
  intros Hs Hb (h & _ & Hm)%CounterWithMutex.locked_reach Hmu.
  destruct (owned_reach task_of op_of op_task s Hs) as [_ Hok].
  destruct Hok as [_ (os & st & Hp & Hr) _ Hca Hop]. rewrite Hb in Hp. destruct Hp as [-> ->].
  rewrite app_nil_r in Hr.
  destruct h as [p|]; [by destruct Hm; congruence|]. destruct Hm as [_ Hm]. split_and!.
  - intros E. rewrite E in Hm. simpl in Hr. rewrite Hr in Hm. by injection Hm as -> ->.
  - by rewrite <- (replay_count _ 0 eq_refl : _ = wrap_int64 (increments _)), Hm.
  - intros Hc Hcl Hq Hpo. rewrite (increments_perm _ _ (Hca Hc)), Hpo, Hop, Hq, app_nil_r by done. simpl.
    simpl in Hr. by rewrite <- (replay_count _ 0 eq_refl : _ = wrap_int64 (increments _)), Hr.
Qed.
End counters.

(** [Shutdown] of either type is that of its runner. *)
Section shutdown.
Context {St Op Out Body Q T : Type} `{Object St Op Out Body, FIFOOrder Q T}.
Context (task_of : nat → Op → TaskItem T) (op_of : TaskItem T → option Op).
Definition Shutdown : Owned St Op Out Body (Sequenced.SequencedTaskRunner Q T) → option _ :=
  owned_step task_of op_of 
    (LRunner (Sequenced.LCall (T:=T) Sequenced.SOnce)).
End shutdown.

(** ** Concrete runs on a SequencedTaskRunner *)

Module LockFreeDemo.
Section demo.
Context {Op : Type}.
Notation Task := (option Op).
#[export] Instance task_zero : GoZero Task := None.
#[export] Instance q3 : TaskQueue (FIFOQueue.FIFOTaskQueue Task) Task := FIFOQueue.FIFO_TaskQueue grow_double.
#[export] Instance q3_laws : TaskQueueLaws (FIFOQueue.FIFOTaskQueue Task) Task :=
  FIFOQueue.FIFO_Laws grow_double grow_double_ok.
#[export] Instance q3_order : FIFOOrder (FIFOQueue.FIFOTaskQueue Task) Task :=
  FIFOQueue.FIFO_Order grow_double grow_double_ok.
Definition task (n : nat) (op : Op) : TaskItem Task := MkTaskItem (Some op) DefaultTaskTraits (N.of_nat n).
End demo.
Arguments task {Op} n op.
Notation runner Op := (Sequenced.SequencedTaskRunner (FIFOQueue.FIFOTaskQueue (option Op)) (option Op)).
Notation RL Op := (Sequenced.Label (option Op)).

(** The closures first, then the goroutines of the runner and its pool. *)
Definition moves {Op} : list (OwnedLabel Op (RL Op)) :=
  LAccess 0 :: ((λ i, LRunner (Sequenced.LThread i true)) <$> rev (seq 0 12)) ++ [LRunner (Sequenced.LTake 0)].

Definition counter := Owned Z CounterOp Z CounterBody (runner CounterOp).
Definition counter0 : counter := NewLockFreeCounter (L:=RL CounterOp) (A:=TaskItem (option CounterOp)).
Definition counter_step : OwnedLabel CounterOp (RL CounterOp) → counter → option counter :=
  owned_step task item_Task.
(** Three goroutines increment at the same time; then one reads. *)
Definition counting : list (OwnedLabel CounterOp (RL CounterOp)) :=
  let calls := [LMethod OpIncrement 1; LMethod OpIncrement 2; LMethod OpIncrement 3] in
  let l := calls ++ drive counter_step 100 moves (default counter0 (run counter_step calls counter0)) in
  let l := l ++ [LMethod OpGet 4] in
  l ++ drive counter_step 100 moves (default counter0 (run counter_step l counter0)).
Definition counted : counter := default counter0 (run counter_step counting counter0).

Definition cache := Owned CacheState CacheOp CacheOut CacheBody (runner CacheOp).
Definition cache0 : cache := NewLockFreeCache (L:=RL CacheOp) (A:=TaskItem (option CacheOp)).
Definition cache_step : OwnedLabel CacheOp (RL CacheOp) → cache → option cache :=
  owned_step task item_Task.
Definition caching : list (OwnedLabel CacheOp (RL CacheOp)) :=
  let move i := LRunner (Sequenced.LThread i true) in
  let calls := [LMethod (OpSet "key1" "value1") 1; move 0; move 0; LMethod (OpLookup "key1") 2; move 1; move 1;
                LMethod (OpLookup "key3") 3; move 2; move 2; LMethod OpStats 4] in
  calls ++ drive cache_step 100 moves (default cache0 (run cache_step calls cache0)).
Definition cached : cache := default cache0 (run cache_step caching cache0).

(** The same with the mutex *)
Definition locking : list CounterWithMutex.Label :=
  [CounterWithMutex.LCall OpIncrement; CounterWithMutex.LCall OpIncrement; CounterWithMutex.LCall OpIncrement;
   CounterWithMutex.LCall OpGet] ++
  (CounterWithMutex.LStep <$> [1; 1; 1; 1; 0; 0; 0; 0; 2; 2; 2; 2; 3; 3; 3]).
Definition locked : CounterWithMutex.Counter :=
  default CounterWithMutex.NewCounter (run CounterWithMutex.step locking CounterWithMutex.NewCounter).
End LockFreeDemo.
Import LockFreeDemo.

Example cache_demo :
  log cached = [OutGet "value1" true; OutGet "" false; OutStats 1 1] ∧
  log counted = [3%Z] ∧ CounterWithMutex.answers locked = [3%Z].
Proof. vm_compute. repeat split. Qed.


Lemma lockfree_linearizable_witness :
  replay (started cached) obj_new = (obj cached, log cached) ∧
  started cached = [OpSet "key1" "value1"; OpLookup "key1"; OpLookup "key3"; OpStats] ∧
  log cached = [OutGet "value1" true; OutGet "" false; OutStats 1 1].
Proof.
  split; [|vm_compute; split; reflexivity].
  apply (lockfree_linearizable task item_Task (λ _ _, eq_refl) cached).
  - apply (run_reachable cache_step caching). vm_compute. reflexivity.
  - vm_compute. reflexivity.
Defined.

Lemma counters_agree_witness :
  (CounterWithMutex.count locked = obj counted ∧ CounterWithMutex.answers locked = log counted) ∧
  obj counted = wrap_int64 (increments (called counted)) ∧ obj counted = 3%Z.
Proof.
  assert (reachable counter_step counter0 counted) as Hc.
  { apply (run_reachable counter_step counting). vm_compute. reflexivity. }
  assert (reachable CounterWithMutex.step CounterWithMutex.NewCounter locked) as Hl.
  { apply (run_reachable CounterWithMutex.step locking). vm_compute. reflexivity. }
  destruct (counters_agree task item_Task (λ _ _, eq_refl) counted locked Hc ltac:(vm_compute; reflexivity)
    Hl ltac:(vm_compute; reflexivity)) as (Ha & _ & Hn).
  split; [apply Ha; vm_compute; reflexivity|]. split; [apply Hn|]; vm_compute; reflexivity.
Defined.
