(* ===== verification/JobStore.v ===== *)
(** * Job data, the JobStore interface and MemoryJobStore
    (job/job_store.go)

    [sync.Map] is a finite map whose operations are atomic; [Range] visits the
    entries in an order that the runtime chooses, an argument here.
    [time.Time] is a number with zero value 0; [time.Now] is an argument.
    [cloneJobEntity] and the copies made by the other methods are the identity
    on values. *)

From S2P Require Import Prelude.

(** ** Data models *)

Definition JobStatus := string.
Definition JobStatusPending : JobStatus := "PENDING".
Definition JobStatusRunning : JobStatus := "RUNNING".
Definition JobStatusCompleted : JobStatus := "COMPLETED".
Definition JobStatusFailed : JobStatus := "FAILED".
Definition JobStatusCanceled : JobStatus := "CANCELED".

Definition IsValid (s : JobStatus) : bool :=
  bool_decide (s = JobStatusPending ∨ s = JobStatusRunning ∨ s = JobStatusCompleted ∨
               s = JobStatusFailed ∨ s = JobStatusCanceled).

Record JobEntity := MkJobEntity {
  ID : string;
  Type_ : string;
  ArgsData : list Byte.byte;
  Status : JobStatus;
  Result : string;
  Priority : Z;
  CreatedAt : Z;
  UpdatedAt : Z;
}.
#[export] Instance byte_eq_dec : EqDecision Byte.byte := Byte.byte_eq_dec.
#[export] Instance JobEntity_eq_dec : EqDecision JobEntity.
Proof. solve_decision. Defined.

Record JobFilter := MkJobFilter {
  f_Status : JobStatus;
  f_Type : string;
  f_Limit : Z;
  f_Offset : Z;
}.

(** Go errors: sentinels, texts, and [%w] wrapping ([ctx.Err()] is [ErrCtx],
    [sql.ErrNoRows] is [ErrNoRows], a [*sqlite.Error] is [ErrSqlite] with its
    code). *)
Inductive Error :=
| ErrText (msg : string)
| ErrJobAlreadyExists
| ErrJobNotFound
| ErrCtx
| ErrNoRows
| ErrSqlite (code : Z) (msg : string)
| ErrWrap (msg : string) (e : Error).
#[export] Instance Error_eq_dec : EqDecision Error.
Proof. solve_decision. Defined.

(** [errors.Is] *)
Fixpoint Is (e target : Error) : bool :=
  bool_decide (e = target) || match e with ErrWrap _ e => Is e target | _ => false end.

Definition set_times (created updated : Z) (j : JobEntity) : JobEntity :=
  MkJobEntity (ID j) (Type_ j) (ArgsData j) (Status j) (Result j) (Priority j) created updated.

Definition cloneJobEntity (j : JobEntity) : JobEntity :=
  MkJobEntity (ID j) (Type_ j) ([] ++ ArgsData j) (Status j) (Result j) (Priority j)
    (CreatedAt j) (UpdatedAt j).

(** ** MemoryJobStore *)

Notation MemoryJobStore := (gmap string JobEntity).
Definition NewMemoryJobStore : MemoryJobStore := ∅.

(** The caller's entity gets its timestamps before the insertion is tried:
    the results are the entity, the store and the error. *)
Definition stamp (now1 now2 : Z) (job : JobEntity) : JobEntity :=
  set_times (if (CreatedAt job =? 0)%Z then now1 else CreatedAt job) now2 job.

Definition CreateJob (now1 now2 : Z) (job : JobEntity) (m : MemoryJobStore)
  : JobEntity * MemoryJobStore * option Error :=
  if decide (ID job = "") then (job, m, Some (ErrText "job ID cannot be empty")) else
  let job := stamp now1 now2 job in
  match m !! ID job with
  | Some _ => (job, m, Some ErrJobAlreadyExists)
  | None => (job, <[ID job := cloneJobEntity job]> m, None)
  end.

Definition SaveJob (now1 now2 : Z) (job : JobEntity) (m : MemoryJobStore)
  : JobEntity * MemoryJobStore * option Error :=
  if decide (ID job = "") then (job, m, Some (ErrText "job ID cannot be empty")) else
  let job := stamp now1 now2 job in
  (job, <[ID job := cloneJobEntity job]> m, None).

(** [UpdateStatus] loads, builds the new entity, stores it: the two accesses
    are separate steps of [step] below. *)
Definition updated (now : Z) (status : JobStatus) (result : string) (job : JobEntity) : JobEntity :=
  MkJobEntity (ID job) (Type_ job) ([] ++ ArgsData job) status result (Priority job)
    (CreatedAt job) now.

Definition UpdateStatus (now : Z) (id : string) (status : JobStatus) (result : string)
  (m : MemoryJobStore) : MemoryJobStore * option Error :=
  match m !! id with
  | None => (m, Some (ErrText ("job " +:+ id +:+ " not found")))
  | Some job => (<[id := updated now status result job]> m, None)
  end.

Definition GetJob (id : string) (m : MemoryJobStore) : JobEntity + Error :=
  match m !! id with
  | None => inr (ErrWrap ("job " +:+ id) ErrJobNotFound)
  | Some job => inl (cloneJobEntity job)
  end.

(** The callback of [Range], over the entities it visits. *)
Fixpoint list_loop (f : JobFilter) (visited : list JobEntity) (skipped count : Z)
  (jobs : list JobEntity) : list JobEntity :=
  match visited with
  | [] => jobs
  | job :: rest =>
      if bool_decide (f_Status f ≠ "") && bool_decide (Status job ≠ f_Status f)
      then list_loop f rest skipped count jobs
      else if bool_decide (f_Type f ≠ "") && bool_decide (Type_ job ≠ f_Type f)
      then list_loop f rest skipped count jobs
      else if (skipped <? f_Offset f)%Z then list_loop f rest (skipped + 1) count jobs
      else if (0 <? f_Limit f)%Z && (f_Limit f <=? count)%Z then jobs
      else list_loop f rest skipped (count + 1) (jobs ++ [cloneJobEntity job])
  end.

(** No match: the nil slice, where [rowsToEntities] of the SQLite stores makes
    an empty one; both are [[]] here. *)
Definition ListJobs (f : JobFilter) (visited : list JobEntity) : list JobEntity :=
  list_loop f visited 0 0 [].

Definition GetRecoverableJobs (visited : list JobEntity) : list JobEntity :=
  ListJobs (MkJobFilter JobStatusPending "" 0 0) visited.

Definition DeleteJob (id : string) (m : MemoryJobStore) : MemoryJobStore * option Error :=
  (delete id m, None).
Definition Clear (m : MemoryJobStore) : MemoryJobStore := ∅.

Fixpoint count_loop (visited : list JobEntity) (count : Z) : Z :=
  match visited with [] => count | _ :: rest => count_loop rest (count + 1) end.
Definition Count (visited : list JobEntity) : Z := count_loop visited 0.

(** ** Concurrent use: what runs between the two accesses of UpdateStatus *)

Record Update := MkUpdate {
  up_id : string; up_status : JobStatus; up_result : string; up_raw : JobEntity
}.

Record Conc := MkConc {
  data : MemoryJobStore;
  updating : list Update;            (** calls between Load and Store *)
  acked : list string;               (** history: successful CreateJob calls *)
  removed : list string;             (** history: DeleteJob calls *)
}.
Definition NewConc : Conc := MkConc NewMemoryJobStore [] [] [].

Inductive Label :=
| LCreate (now1 now2 : Z) (job : JobEntity)
| LSave (now1 now2 : Z) (job : JobEntity)
| LUpdateLoad (id : string) (status : JobStatus) (result : string)
| LUpdateStore (k : nat) (now : Z)
| LDelete (id : string).

Definition step (l : Label) (c : Conc) : option Conc :=
  match l with
  | LCreate now1 now2 job =>
      let '(_, m, e) := CreateJob now1 now2 job (data c) in
      Some (MkConc m (updating c)
              (match e with None => acked c ++ [ID job] | Some _ => acked c end) (removed c))
  | LSave now1 now2 job =>
      let '(_, m, _) := SaveJob now1 now2 job (data c) in
      Some (MkConc m (updating c) (acked c) (removed c))
  | LUpdateLoad id status result =>
      match data c !! id with
      | None => Some c
      | Some job =>
          Some (MkConc (data c) (updating c ++ [MkUpdate id status result job]) (acked c) (removed c))
      end
  | LUpdateStore k now =>
      u ← updating c !! k;
      Some (MkConc (<[up_id u := updated now (up_status u) (up_result u) (up_raw u)]> (data c))
              (delete k (updating c)) (acked c) (removed c))
  | LDelete id => Some (MkConc (DeleteJob id (data c)).1 (updating c) (acked c) (removed c ++ [id]))
  end.

(** ** What a JobManager asks of its store

    A store is a state with the operations the manager calls; its contents are
    a map from identifiers to entities.  Timestamps are the store's own. *)

Class JobStoreOps (S : Type) := {
  store_create : JobEntity → S → S * option Error;      (** [DurableJobStore] *)
  store_get : string → S → S * (JobEntity + Error);
  store_save : JobEntity → S → S * option Error;
  store_update : string → JobStatus → string → S → S * option Error;
  store_list : JobFilter → S → S * (list JobEntity + Error);
  store_recoverable : S → S * (list JobEntity + Error); (** [GetRecoverableJobs] *)
}.

(** The parts of an entity that a store keeps as they are. *)
Definition payload (j : JobEntity) : string * string * list Byte.byte * Z :=
  (ID j, Type_ j, ArgsData j, Priority j).
Definition status_of (j : JobEntity) : JobStatus * string := (Status j, Result j).

Definition matches (f : JobFilter) (j : JobEntity) : Prop :=
  (f_Status f ≠ "" → Status j = f_Status f) ∧ (f_Type f ≠ "" → Type_ j = f_Type f).
#[export] Instance matches_dec f j : Decision (matches f j).
Proof. unfold matches. apply _. Defined.

Class JobStoreLaws (S : Type) `{JobStoreOps S} (contents : S → gmap string JobEntity) := {
  create_nil job s s' :
    store_create job s = (s', None) →
    contents s !! ID job = None ∧
    ∃ j, contents s' = <[ID job := j]> (contents s) ∧ payload j = payload job ∧
         status_of j = status_of job;
  create_err job s s' e :
    store_create job s = (s', Some e) → contents s' = contents s;
  get_contents id s s' r :
    store_get id s = (s', r) → contents s' = contents s;
  save_nil job s s' :
    store_save job s = (s', None) →
    ∃ j, contents s' = <[ID job := j]> (contents s) ∧ payload j = payload job ∧
         status_of j = status_of job;
  save_err job s s' e :
    store_save job s = (s', Some e) → contents s' = contents s;
  update_nil id st r s s' :
    store_update id st r s = (s', None) →
    ∃ j j', contents s !! id = Some j ∧ contents s' = <[id := j']> (contents s) ∧
            payload j' = payload j ∧ status_of j' = (st, r);
  update_err id st r s s' e :
    store_update id st r s = (s', Some e) → contents s' = contents s;
  list_contents f s s' r :
    store_list f s = (s', r) → contents s' = contents s;
  list_nil f s s' js :
    store_list f s = (s', inl js) → f_Limit f = 0%Z → f_Offset f = 0%Z →
    js ≡ₚ filter (matches f) (map_to_list (contents s)).*2;
  recoverable_contents s s' r :
    store_recoverable s = (s', r) → contents s' = contents s;
  recoverable_nil s s' js :
    store_recoverable s = (s', inl js) →
    js ≡ₚ filter (λ j, Status j = JobStatusPending) (map_to_list (contents s)).*2;
}.

(** A store that behaves as another one, under a view of its state, keeps the
    same laws. *)
Record SameStore (S S' : Type) `{JobStoreOps S, JobStoreOps S'} (view : S' → S) : Prop := {
  same_create job s : prod_map view id (store_create job s) = store_create job (view s);
  same_get i s : prod_map view id (store_get i s) = store_get i (view s);
  same_save job s : prod_map view id (store_save job s) = store_save job (view s);
  same_update i st r s : prod_map view id (store_update i st r s) = store_update i st r (view s);
  same_list f s : prod_map view id (store_list f s) = store_list f (view s);
  same_recoverable s : prod_map view id (store_recoverable s) = store_recoverable (view s);
}.

Lemma same_store_laws {S S'} `{JobStoreOps S, JobStoreOps S'} (view : S' → S) contents :
  SameStore S S' view → JobStoreLaws S contents → JobStoreLaws S' (λ s, contents (view s)).
Proof.
  intros [Hcreate Hget Hsave Hupdate Hlist Hrec] HL. split.
  - intros job s s' E. apply create_nil. by rewrite <- Hcreate, E.
  - intros job s s' e E. apply (create_err job _ _ e). by rewrite <- Hcreate, E.
  - intros i s s' r E. apply (get_contents i _ _ r). by rewrite <- Hget, E.
  - intros job s s' E. apply save_nil. by rewrite <- Hsave, E.
  - intros job s s' e E. apply (save_err job _ _ e). by rewrite <- Hsave, E.
  - intros i st r s s' E. apply update_nil. by rewrite <- Hupdate, E.
  - intros i st r s s' e E. apply (update_err i st r _ _ e). by rewrite <- Hupdate, E.
  - intros f s s' r E. apply (list_contents f _ _ r). by rewrite <- Hlist, E.
  - intros f s s' js E. apply (list_nil f _ (view s')). by rewrite <- Hlist, E.
  - intros s s' r E. apply (recoverable_contents _ _ r). by rewrite <- Hrec, E.
  - intros s s' js E. apply (recoverable_nil _ (view s')). by rewrite <- Hrec, E.
Qed.

(** ** Lemmas *)

Lemma cloneJobEntity_id j : cloneJobEntity j = j.
Proof. by destruct j. Qed.

Section list_jobs.
Context (f : JobFilter).
Implicit Types l : list JobEntity.

(** The listed page: what is left after the offset, up to the limit. *)
Definition page (skipped count : Z) (l : list JobEntity) : list JobEntity :=
  let rest := drop (Z.to_nat (f_Offset f - skipped)) l in
  if (0 <? f_Limit f)%Z then take (Z.to_nat (f_Limit f - count)) rest else rest.

Lemma list_loop_page l skipped count jobs :
  list_loop f l skipped count jobs = jobs ++ page skipped count (filter (matches f) l).
Proof.
  revert skipped count jobs. induction l as [|j l IH]; intros skipped count jobs; cbn [list_loop].
  - unfold page. rewrite filter_nil, drop_nil. destruct (0 <? f_Limit f)%Z;
      by rewrite ?take_nil, app_nil_r.
  - destruct (decide (matches f j)) as [Hm|Hm].
    + rewrite filter_cons_True by done. destruct Hm as [Hs Ht].
      destruct (bool_decide (f_Status f ≠ "") && bool_decide (Status j ≠ f_Status f)) eqn:E1.
      { apply andb_prop in E1 as [E1%bool_decide_eq_true E2%bool_decide_eq_true].
        by destruct E2; apply Hs. }
      destruct (bool_decide (f_Type f ≠ "") && bool_decide (Type_ j ≠ f_Type f)) eqn:E2.
      { apply andb_prop in E2 as [E2%bool_decide_eq_true E3%bool_decide_eq_true].
        by destruct E3; apply Ht. }
      rewrite !IH. unfold page. destruct (Z.ltb_spec skipped (f_Offset f)).
      * replace (Z.to_nat (f_Offset f - skipped))
          with (S (Z.to_nat (f_Offset f - (skipped + 1)))) by lia. done.
      * replace (Z.to_nat (f_Offset f - skipped)) with 0 by lia.
        rewrite !drop_0. destruct (Z.ltb_spec 0 (f_Limit f)); simpl.
        -- destruct (Z.leb_spec (f_Limit f) count).
           ++ replace (Z.to_nat (f_Limit f - count)) with 0 by lia. by rewrite app_nil_r.
           ++ replace (Z.to_nat (f_Limit f - count))
                with (S (Z.to_nat (f_Limit f - (count + 1)))) by lia.
              rewrite cloneJobEntity_id. simpl. by rewrite <- app_assoc.
        -- rewrite cloneJobEntity_id. by rewrite <- app_assoc.
    + rewrite filter_cons_False by done. rewrite !IH.
      destruct (bool_decide (f_Status f ≠ "") && bool_decide (Status j ≠ f_Status f)) eqn:E1; [done|].
      destruct (bool_decide (f_Type f ≠ "") && bool_decide (Type_ j ≠ f_Type f)) eqn:E2; [done|].
      destruct Hm. apply andb_false_iff in E1, E2. split; intros Hne.
      * destruct E1 as [E1|E1]; apply bool_decide_eq_false in E1; [done|].
        destruct (decide (Status j = f_Status f)); [done|by destruct E1].
      * destruct E2 as [E2|E2]; apply bool_decide_eq_false in E2; [done|].
        destruct (decide (Type_ j = f_Type f)); [done|by destruct E2].
Qed.
End list_jobs.

Lemma ListJobs_all f l :
  f_Limit f = 0%Z → f_Offset f = 0%Z → ListJobs f l = filter (matches f) l.
Proof.
  intros E1 E2. unfold ListJobs. rewrite list_loop_page. unfold page. by rewrite E1, E2.
Qed.

Lemma GetRecoverableJobs_all l : GetRecoverableJobs l = filter (λ j, Status j = JobStatusPending) l.
Proof.
  unfold GetRecoverableJobs. rewrite ListJobs_all by done. apply list_filter_iff.
  intros j. unfold matches. simpl. naive_solver.
Qed.

Lemma CreateJob_cases now1 now2 job m job' m' e :
  CreateJob now1 now2 job m = (job', m', e) →
  (e = None ∧ ID job ≠ "" ∧ m !! ID job = None ∧ m' = <[ID job := stamp now1 now2 job]> m) ∨
  (is_Some e ∧ m' = m ∧ (ID job = "" ∨ e = Some ErrJobAlreadyExists ∧ is_Some (m !! ID job))).
Proof.
  unfold CreateJob. case_decide as He; intros E0.
  - simplify_eq. right. split_and!; eauto.
  - cbn zeta in E0. rewrite cloneJobEntity_id in E0.
    change (ID (stamp now1 now2 job)) with (ID job) in E0.
    destruct (m !! ID job) eqn:Em; simplify_eq; [right|left]; split_and!; eauto.
Qed.

(** ** MemoryJobStore is such a store

    Its state with the time the next call reads; [Range] visits the entries in
    the order of [map_to_list]. *)

#[export] Instance memory_ops : JobStoreOps (MemoryJobStore * Z) := {
  store_create job s :=
    let '(_, m, e) := CreateJob s.2 s.2 job s.1 in ((m, s.2), e);
  store_get id s := (s, GetJob id s.1);
  store_save job s :=
    let '(_, m, e) := SaveJob s.2 s.2 job s.1 in ((m, s.2), e);
  store_update id st r s :=
    let '(m, e) := UpdateStatus s.2 id st r s.1 in ((m, s.2), e);
  store_list f s := (s, inl (ListJobs f (map_to_list s.1).*2));
  store_recoverable s := (s, inl (GetRecoverableJobs (map_to_list s.1).*2));
}.

#[export] Instance memory_laws : JobStoreLaws (MemoryJobStore * Z) fst.
Proof.
  split; simpl.
  - intros job [m now] s' E0. simpl in E0. destruct (CreateJob now now job m) as [[j' m'] e] eqn:E1.
    simplify_eq. destruct (CreateJob_cases _ _ _ _ _ _ _ E1) as [(_ & _ & Hm & ->)|([? ?] & _)]; [|done].
    split; [done|]. by eexists.
  - intros job [m now] s' e E0. simpl in E0. destruct (CreateJob now now job m) as [[j' m'] e'] eqn:E1.
    simplify_eq. by destruct (CreateJob_cases _ _ _ _ _ _ _ E1) as [(? & _)|(_ & -> & _)].
  - intros id s s' r E0. by simplify_eq.
  - intros job [m now] s' E0. simpl in E0. unfold SaveJob in E0. case_decide; simplify_eq.
    rewrite cloneJobEntity_id. by eexists.
  - intros job [m now] s' e E0. simpl in E0. unfold SaveJob in E0. by case_decide; simplify_eq.
  - intros id st r [m now] s' E0. simpl in E0. unfold UpdateStatus in E0.
    destruct (m !! id) as [j|] eqn:Ej; simplify_eq/=. by exists j; eexists.
  - intros id st r [m now] s' e E0. simpl in E0. unfold UpdateStatus in E0.
    by destruct (m !! id) as [j|] eqn:Ej; simplify_eq/=.
  - intros f s s' r E0. by simplify_eq.
  - intros f s s' js E0 H1 H2. simplify_eq. by rewrite ListJobs_all.
  - intros s s' r E0. by simplify_eq.
  - intros s s' js E0. simplify_eq. by rewrite GetRecoverableJobs_all.
Qed.

(** ** Invariants of the concurrent store *)

Definition conc_ok (c : Conc) : Prop :=
  map_Forall (λ id j, ID j = id ∧ id ≠ "") (data c) ∧
  Forall (λ u, ID (up_raw u) = up_id u ∧ up_id u ≠ "") (updating c) ∧
  (removed c = [] →
    Forall (λ u, is_Some (data c !! up_id u)) (updating c) ∧
    NoDup (acked c) ∧ Forall (λ id, is_Some (data c !! id)) (acked c)).

Lemma insert_is_Some (m : MemoryJobStore) id j k : is_Some (m !! k) → is_Some (<[id:=j]> m !! k).
Proof. intros H. apply lookup_insert_is_Some'. by right. Qed.

Lemma conc_insert c id j :
  conc_ok c → ID j = id → id ≠ "" →
  conc_ok (MkConc (<[id:=j]> (data c)) (updating c) (acked c) (removed c)).
Proof.
  intros (H1 & H2 & H3) E0 Hne. split_and!; simpl.
  - by apply map_Forall_insert_2.
  - done.
  - intros Hr. destruct (H3 Hr) as (H4 & H5 & H6). split_and!; [|done|].
    + eapply Forall_impl; [done|]. intros u. apply insert_is_Some.
    + eapply Forall_impl; [done|]. intros u. apply insert_is_Some.
Qed.

Lemma conc_step l c c' : conc_ok c → step l c = Some c' → conc_ok c'.
Proof.
  intros Hc E0. pose proof Hc as (H1 & H2 & H3). destruct l as [n1 n2 job|n1 n2 job|id st r|k now|id]; cbn [step] in E0.
  - destruct (CreateJob n1 n2 job (data c)) as [[j' m'] e] eqn:E1. injection E0 as <-.
    destruct (CreateJob_cases _ _ _ _ _ _ _ E1) as [(-> & Hne & Hnone & ->)|([e' ->] & -> & _)]; [|done].
    destruct (conc_insert c (ID job) (stamp n1 n2 job) Hc eq_refl Hne) as (G1 & G2 & G3).
    split_and!; [done..|]. simpl. intros Hr. destruct (G3 Hr) as (G4 & G5 & G6). split; [done|].
    destruct (H3 Hr) as (_ & _ & H6). split.
    + apply NoDup_app. split_and!; [done| |apply NoDup_singleton].
      intros x Hx ->%list_elem_of_singleton. rewrite Forall_forall in H6.
      destruct (H6 _ Hx) as [y Hy]. simplify_eq.
    + apply Forall_app. split; [done|]. apply Forall_singleton.
      apply lookup_insert_is_Some'. by left.
  - destruct (SaveJob n1 n2 job (data c)) as [[j' m'] e] eqn:E1. injection E0 as <-.
    unfold SaveJob in E1. case_decide; simplify_eq; [done|].
    apply conc_insert; [done|by rewrite cloneJobEntity_id|done].
  - destruct (data c !! id) as [job|] eqn:Ej; simplify_eq; [|done].
    destruct (H1 _ _ Ej) as [Hid Hne]. split_and!; simpl; [done| |].
    + apply Forall_app. split; [done|]. by apply Forall_singleton.
    + intros Hr. destruct (H3 Hr) as (H4 & H5 & H6). split_and!; try done.
      apply Forall_app. split; [done|]. apply Forall_singleton. simpl. by eexists.
  - destruct (updating c !! k) as [u|] eqn:Eu; simplify_eq/=.
    rewrite Forall_forall in H2. destruct (H2 u) as [Hid Hne]; [by eapply list_elem_of_lookup_2|].
    destruct (conc_insert c (up_id u) (updated now (up_status u) (up_result u) (up_raw u)) Hc Hid Hne)
      as (G1 & G2 & G3). split_and!; simpl; [done| |].
    + by apply Forall_delete.
    + intros Hr. destruct (G3 Hr) as (G4 & G5). split; [by apply Forall_delete|done].
  - simplify_eq. split_and!; simpl; [by apply map_Forall_delete|done|].
    intros Hr. by apply app_eq_nil in Hr as [_ ?].
Qed.

Lemma conc_reach c : reachable step NewConc c → conc_ok c.
Proof.
  apply (reachable_invariant step conc_ok); [|intros; eauto using conc_step].
  split_and!; simpl; [apply map_Forall_empty|done|]. intros _. repeat constructor.
Qed.

(** ** Theorems *)

(** MemoryJobStore creates an identifier at most once under concurrent use: as long as
    nothing is deleted, the acknowledged creations are distinct, and creating one of them
    again fails with ErrJobAlreadyExists. *)
Theorem js_create_once c now1 now2 job :
  reachable step NewConc c → removed c = [] →
  NoDup (acked c) ∧
  (ID job ∈ acked c → (CreateJob now1 now2 job (data c)).2 = Some ErrJobAlreadyExists).
Proof.
  intros Hr%conc_reach Hd. destruct Hr as (H1 & _ & H3).
  destruct (H3 Hd) as (_ & H5 & H6). split; [done|]. intros Hin.
  rewrite Forall_forall in H6. destruct (H6 _ Hin) as [j Hj].
  unfold CreateJob. destruct (H1 _ _ Hj) as [_ Hne]. rewrite decide_False by done.
  cbn zeta. change (ID (stamp now1 now2 job)) with (ID job). by rewrite Hj.
Qed.

(** ListJobs returns the entries that match the filter, in visiting order, less the first
    Offset ones and up to Limit (no limit when it is not positive); GetRecoverableJobs returns
    exactly the pending ones. *)
Theorem js_ListJobs f visited :
  let found := drop (Z.to_nat (f_Offset f)) (filter (matches f) visited) in
  ListJobs f visited = (if (0 <? f_Limit f)%Z then take (Z.to_nat (f_Limit f)) found else found) ∧
  GetRecoverableJobs visited = filter (λ j, Status j = JobStatusPending) visited.
Proof.
  split.
  - unfold ListJobs. rewrite list_loop_page. unfold page. by rewrite !Z.sub_0_r.
  - apply GetRecoverableJobs_all.
Qed.

(** UpdateStatus changes the status, the result and the update time of one
    existing job, and nothing else. *)
Theorem js_UpdateStatus now id status result m m' e :
  UpdateStatus now id status result m = (m', e) →
  match m !! id with
  | None => e = Some (ErrText ("job " +:+ id +:+ " not found")) ∧ m' = m
  | Some j =>
      e = None ∧ (∀ k, k ≠ id → m' !! k = m !! k) ∧
      ∃ j', GetJob id m' = inl j' ∧ payload j' = payload j ∧ status_of j' = (status, result) ∧
            CreatedAt j' = CreatedAt j ∧ UpdatedAt j' = now
  end.
Proof.
  unfold UpdateStatus. destruct (m !! id) as [j|] eqn:Ej; intros [= <- <-]; [|done].
  split_and!; [done|intros k Hk; by rewrite lookup_insert_ne|].
  unfold GetJob. rewrite lookup_insert_eq, cloneJobEntity_id. by eexists.
Qed.

(** UpdateStatus is not atomic: it can re-create a job deleted between its load
    and its store. *)
Theorem js_update_resurrects job :
  ID job ≠ "" →
  ∃ c, reachable step NewConc c ∧ removed c = [ID job] ∧ updating c = [] ∧
       (∃ j, data c !! ID job = Some j ∧ Status j = JobStatusRunning) ∧
       run step [LCreate 1 1 job; LUpdateLoad (ID job) JobStatusRunning "";
                 LDelete (ID job); LUpdateStore 0 2] NewConc = Some c.
Proof.
  intros Hne.
  set (ls := [LCreate 1 1 job; LUpdateLoad (ID job) JobStatusRunning "";
              LDelete (ID job); LUpdateStore 0 2]).
  set (j := stamp 1 1 job).
  assert (run step ls NewConc =
    Some (MkConc {[ID job := updated 2 JobStatusRunning "" j]} [] [ID job] [ID job])) as Hrun.
  { assert (step (LCreate 1 1 job) NewConc = Some (MkConc {[ID job := j]} [] [ID job] [])) as E1.
    { unfold step, CreateJob. rewrite decide_False by done. cbn zeta. fold j.
      cbn [data NewConc]. unfold NewMemoryJobStore. rewrite lookup_empty, cloneJobEntity_id. done. }
    unfold ls. cbn [run]. rewrite E1. cbn [mbind option_bind].
    assert (step (LUpdateLoad (ID job) JobStatusRunning "") (MkConc {[ID job := j]} [] [ID job] []) =
      Some (MkConc {[ID job := j]} [MkUpdate (ID job) JobStatusRunning "" j] [ID job] [])) as E2.
    { unfold step. cbn [data]. by rewrite lookup_singleton_eq. }
    rewrite E2. cbn -[insert singletonM delete]. by rewrite delete_singleton_eq. }
  eexists. split_and!; [by eapply run_reachable|done|done| |done].
  eexists. split; [apply lookup_singleton_eq|done].
Qed.

(** ** Concrete runs *)

Module StoreDemo.
Definition a_job (id : string) : JobEntity := MkJobEntity id "email" [] JobStatusPending "" 1 0 0.
Definition go_to (ls : list Label) : Conc := default NewConc (run step ls NewConc).
Definition racy : Conc :=
  go_to [LCreate 5 6 (a_job "a"); LUpdateLoad "a" JobStatusRunning ""; LSave 7 7 (a_job "b");
         LCreate 8 8 (a_job "c"); LCreate 9 9 (a_job "a")].
End StoreDemo.
Import StoreDemo.

Lemma js_create_once_witness :
  (CreateJob 9 9 (a_job "c") (data racy)).2 = Some ErrJobAlreadyExists ∧ acked racy = ["a"; "c"].
Proof.
  split; [|vm_compute; reflexivity].
  apply (js_create_once racy 9 9 (a_job "c")).
  - apply (run_reachable step
      [LCreate 5 6 (a_job "a"); LUpdateLoad "a" JobStatusRunning ""; LSave 7 7 (a_job "b");
       LCreate 8 8 (a_job "c"); LCreate 9 9 (a_job "a")]). vm_compute. reflexivity.
  - vm_compute. reflexivity.
  - vm_compute. right. left.
Defined.

Lemma js_UpdateStatus_witness :
  let m := (UpdateStatus 11 "b" JobStatusFailed "boom" (data racy)).1 in
  ∃ j', GetJob "b" m = inl j' ∧ payload j' = ("b", "email", [], 1%Z) ∧
        status_of j' = (JobStatusFailed, "boom") ∧ CreatedAt j' = 7%Z ∧ UpdatedAt j' = 11%Z.
Proof.
  pose proof (js_UpdateStatus 11 "b" JobStatusFailed "boom" (data racy)
    (UpdateStatus 11 "b" JobStatusFailed "boom" (data racy)).1
    (UpdateStatus 11 "b" JobStatusFailed "boom" (data racy)).2) as Hth.
  specialize (Hth ltac:(vm_compute; reflexivity)). cbv zeta. vm_compute in Hth.
  destruct Hth as (_ & _ & j' & E1 & E2). exists j'. split; [|exact E2]. vm_compute. exact E1.
Defined.

Lemma js_update_resurrects_witness :
  ∃ c, reachable step NewConc c ∧ removed c = ["a"] ∧ updating c = [] ∧
       (∃ j, data c !! "a" = Some j ∧ Status j = JobStatusRunning).
Proof.
  destruct (js_update_resurrects (a_job "a")) as (c & H1 & H2 & H3 & H4 & _); [done|].
  exists c. exact (conj H1 (conj H2 (conj H3 H4))).
Defined.
