(* ===== verification/JobSerializer.v ===== *)
(** * The job serializer and the typed handlers
    (job/job_serializer.go, and the functions of job/job_manager.go that call
    it)

    [any] is a type with a nil; [json.Marshal] and [json.Unmarshal] are the
    operations of [JSON], with the law of encoding/json that a value it encodes
    is decoded to the same value.  [submit_entity] is what SubmitDelayedJob
    hands to the JobManager of JobManager.v: the entity and the error of the
    serialization; [adapter] is the closure that RegisterHandler registers. *)

From S2P Require Import Prelude GoSlice Task JobStore.

Class JSON (A : Type) := {
  Marshal : A → list Byte.byte + Error;
  Unmarshal : list Byte.byte → A + Error;
}.
Class JSONLaws (A : Type) `{JSON A} := {
  unmarshal_marshal a data : Marshal a = inl data → Unmarshal data = inl a;
  marshal_nonempty a data : Marshal a = inl data → data ≠ [];
}.

Definition null : list Byte.byte := [Byte.x6e; Byte.x75; Byte.x6c; Byte.x6c].

Module JSONSerializer.
Section json.
Context {A : Type} `{JSON A}.

Definition Serialize (args : option A) : list Byte.byte + Error :=
  match args with
  | None => inl null
  | Some args =>
      match Marshal args with
      | inr err => inr (ErrWrap "json marshal failed" err)
      | inl data => inl data
      end
  end.

(** The target is nil ([false]) or a pointer; the result is what it points to. *)
Definition Deserialize (data : list Byte.byte) (target : bool) : A + Error :=
  if negb target then inr (ErrText "deserialize target cannot be nil")
  else if decide (length data = 0) then inr (ErrText "data is empty")
  else match Unmarshal data with
       | inr err => inr (ErrWrap "json unmarshal failed" err)
       | inl a => inl a
       end.

Definition Name : string := "json".
End json.
End JSONSerializer.

Section typed_jobs.
Context {A : Type} `{JSON A}.

Definition adapter (handler : A → option Error) (rawArgs : list Byte.byte) : option Error :=
  match JSONSerializer.Deserialize rawArgs true with
  | inr err => Some (ErrWrap "deserialize failed" err)
  | inl args => handler args
  end.

Definition submit_entity (id jobType : string) (args : option A) (traits : TaskTraits) (now : Z)
  : JobEntity * option Error :=
  match JSONSerializer.Serialize args with
  | inr err => (MkJobEntity id jobType [] JobStatusPending "" (Task.Priority traits) now 0, Some err)
  | inl argsBytes =>
      (MkJobEntity id jobType argsBytes JobStatusPending "" (Task.Priority traits) now 0, None)
  end.
End typed_jobs.

Section theorems.
Context {A : Type} `{JSONLaws A}.

(** The handler gets the arguments of the submission. *)
Theorem args_roundtrip id jobType (args : A) traits now entity handler :
  submit_entity id jobType (Some args) traits now = (entity, None) →
  adapter handler (ArgsData entity) = handler args ∧
  ID entity = id ∧ Type_ entity = jobType ∧ JobStore.Priority entity = Task.Priority traits ∧
  Status entity = JobStatusPending ∧ CreatedAt entity = now.
Proof.
  unfold submit_entity, adapter, JSONSerializer.Serialize, JSONSerializer.Deserialize.
  destruct (Marshal args) as [data|] eqn:Em; intros [= <-]. simpl. split; [|done].
  pose proof (marshal_nonempty _ _ Em) as Hne. destruct data as [|b data]; [done|].
  simpl. by rewrite (unmarshal_marshal _ _ Em).
Qed.

(** Without arguments the job has the text null, and what is not JSON for the
    handler's type never reaches the handler. *)
Theorem args_errors handler rawArgs :
  (∀ err, Unmarshal rawArgs = inr err →
     ∃ e, adapter handler rawArgs = Some (ErrWrap "deserialize failed" e)) ∧
  adapter handler [] = Some (ErrWrap "deserialize failed" (ErrText "data is empty")) ∧
  JSONSerializer.Serialize (None : option A) = inl null.
Proof.
  unfold adapter, JSONSerializer.Deserialize. split_and!; [|done|done].
  intros err E0. simpl. case_decide; [by eexists|]. rewrite E0. by eexists.
Qed.
End theorems.

(** ** A concrete codec: booleans *)

Module SerializerDemo.
Definition true_bytes : list Byte.byte := [Byte.x74; Byte.x72; Byte.x75; Byte.x65].
Definition false_bytes : list Byte.byte := [Byte.x66; Byte.x61; Byte.x6c; Byte.x73; Byte.x65].
#[global] Instance bool_json : JSON bool := {
  Marshal b := inl (if b then true_bytes else false_bytes);
  Unmarshal data := if decide (data = true_bytes) then inl true
                    else if decide (data = false_bytes) then inl false
                    else inr (ErrText "invalid character");
}.
#[global] Instance bool_laws : JSONLaws bool.
Proof. split; intros [] data; simpl; intros [= <-]; done. Defined.
Definition job : JobEntity * option Error :=
  submit_entity "a" "flag" (Some true) TraitsUserBlocking 5.
End SerializerDemo.
Import SerializerDemo.

Lemma args_roundtrip_witness :
  adapter (λ b : bool, if b then None else Some (ErrText "off")) (ArgsData job.1) = None ∧
  JobStore.Priority job.1 = 2%Z.
Proof.
  destruct (args_roundtrip "a" "flag" true TraitsUserBlocking 5 job.1
    (λ b : bool, if b then None else Some (ErrText "off"))) as (H1 & _ & _ & H2 & _);
    [vm_compute; reflexivity|].
  exact (conj H1 H2).
Defined.

Lemma args_errors_witness :
  ∃ e, adapter (λ b : bool, None) null = Some (ErrWrap "deserialize failed" e).
Proof.
  apply (args_errors (λ b : bool, None) null) with (err := ErrText "invalid character").
  vm_compute. reflexivity.
Defined.
