(* ===== verification/SQLiteStore.v ===== *)
(** * SQLiteJobStore: the store over database/sql
    (job/sqlite_job_store.go, job/db; the second copy, job/sqlite, is in SQLiteModule.v)

    Module [jobdb] has the generated queries, Module [SQLite] the store's
    methods.  The database is a parameter: a state with [ExecContext] and
    [QueryContext], which get the SQL text and the bound values.  [SqlLaws]
    states what the SQL of the eight statements promises about the table;
    Module [Engine] of SQLiteMemory.v is a database that keeps them, with failures
    injected.
    A nil and an empty [ArgsData] are the same value here. *)

From S2P Require Import Prelude JobStore.

Notation "'let*' x := r 'in' k" :=
  (match r with inl x => k | inr e => inr e end)
  (at level 200, x name, r at level 100, k at level 200) : go_scope.
Local Open Scope go_scope.

(** ** database/sql *)

Inductive Value :=
| VNull
| VText (s : string)
| VBlob (b : list Byte.byte)
| VInt (z : Z)
| VTime (t : Z).

Record SqlResult := MkSqlResult { RowsAffected : Z + Error }.

(** What an open result set delivers: the rows, and the errors of [Close] and
    [Err] after the last one. *)
Record Rows := MkRows {
  rs_next : list (list Value);
  rs_close : option Error;
  rs_err : option Error;
}.

Class DBTX (D : Type) := {
  ExecContext : string → list Value → D → D * (SqlResult + Error);
  QueryContext : string → list Value → D → D * (Rows + Error);
}.

Definition scan_error (column : string) : Error :=
  ErrText ("sql: Scan error on column " +:+ column).
Definition scan_string (column : string) (v : Value) : string + Error :=
  match v with VText s => inl s | _ => inr (scan_error column) end.
Definition scan_bytes (column : string) (v : Value) : list Byte.byte + Error :=
  match v with VBlob b => inl b | VNull => inl [] | _ => inr (scan_error column) end.
Definition scan_int64 (column : string) (v : Value) : Z + Error :=
  match v with VInt z => inl z | _ => inr (scan_error column) end.
Definition scan_time (column : string) (v : Value) : Z + Error :=
  match v with VTime t => inl t | _ => inr (scan_error column) end.

Module jobdb.

Record Job := MkJob {
  r_ID : string;
  r_Type : string;
  r_ArgsData : list Byte.byte;
  r_Status : string;
  r_Result : string;
  r_Priority : Z;
  r_CreatedAt : Z;
  r_UpdatedAt : Z;
}.

(** [InsertJobParams] and [UpsertJobParams] have the fields of [Job]; the
    values are bound in the order of the columns. *)
Definition InsertJobParams : Type := Job.
Definition UpsertJobParams : Type := Job.
Definition bind_job (arg : Job) : list Value :=
  [VText (r_ID arg); VText (r_Type arg); VBlob (r_ArgsData arg); VText (r_Status arg);
   VText (r_Result arg); VInt (r_Priority arg); VTime (r_CreatedAt arg); VTime (r_UpdatedAt arg)].

(** [rows.Scan(&i.ID, ...)] *)
Definition scan_job (row : list Value) : Job + Error :=
  match row with
  | [v1; v2; v3; v4; v5; v6; v7; v8] =>
      let* id := scan_string "id" v1 in
      let* type := scan_string "type" v2 in
      let* args_data := scan_bytes "args_data" v3 in
      let* status := scan_string "status" v4 in
      let* result := scan_string "result" v5 in
      let* priority := scan_int64 "priority" v6 in
      let* created_at := scan_time "created_at" v7 in
      let* updated_at := scan_time "updated_at" v8 in
      inl (MkJob id type args_data status result priority created_at updated_at)
  | _ => inr (ErrText "sql: expected 8 destination arguments in Scan")
  end.

(** The SQL texts *)
Definition deleteJob : string := "-- name: DeleteJob :exec
DELETE FROM jobs WHERE id = ?
".
Definition getJob : string := "-- name: GetJob :one
SELECT id, type, args_data, status, result, priority, created_at, updated_at
FROM jobs
WHERE id = ?
".
Definition getPendingJobs : string := "-- name: GetPendingJobs :many
SELECT id, type, args_data, status, result, priority, created_at, updated_at
FROM jobs
WHERE status = 'PENDING'
ORDER BY created_at ASC
".
Definition insertJob : string := "-- name: InsertJob :exec
INSERT INTO jobs (id, type, args_data, status, result, priority, created_at, updated_at)
VALUES (?, ?, ?, ?, ?, ?, ?, ?)
".
Definition listAllJobs : string := "-- name: ListAllJobs :many
SELECT id, type, args_data, status, result, priority, created_at, updated_at
FROM jobs
ORDER BY created_at ASC
LIMIT CASE WHEN ? = 0 THEN -1 ELSE ? END
OFFSET ?
".
Definition listJobsByStatus : string := "-- name: ListJobsByStatus :many
SELECT id, type, args_data, status, result, priority, created_at, updated_at
FROM jobs
WHERE status = ?
ORDER BY created_at ASC
LIMIT CASE WHEN ? = 0 THEN -1 ELSE ? END
OFFSET ?
".
Definition listJobsByStatusAndType : string := "-- name: ListJobsByStatusAndType :many
SELECT id, type, args_data, status, result, priority, created_at, updated_at
FROM jobs
WHERE status = ? AND type = ?
ORDER BY created_at ASC
LIMIT CASE WHEN ? = 0 THEN -1 ELSE ? END
OFFSET ?
".
Definition listJobsByType : string := "-- name: ListJobsByType :many
SELECT id, type, args_data, status, result, priority, created_at, updated_at
FROM jobs
WHERE type = ?
ORDER BY created_at ASC
LIMIT CASE WHEN ? = 0 THEN -1 ELSE ? END
OFFSET ?
".
Definition updateJobStatus : string := "-- name: UpdateJobStatus :execresult
UPDATE jobs
SET status = ?, result = ?, updated_at = ?
WHERE id = ?
".
Definition upsertJob : string := "-- name: UpsertJob :exec
INSERT OR REPLACE INTO jobs (id, type, args_data, status, result, priority, created_at, updated_at)
VALUES (?, ?, ?, ?, ?, ?, ?, ?)
".

(** [column] and [column'] are bound to the two question marks of CASE. *)
Record ListJobsByStatusAndTypeParams := MkBoth {
  b_Status : string; b_Type : string; b_Column3 : Z; b_Column4 : Z; b_Offset : Z }.
Record ListJobsByStatusParams := MkByStatus {
  s_Status : string; s_Column2 : Z; s_Column3 : Z; s_Offset : Z }.
Record ListJobsByTypeParams := MkByType {
  t_Type : string; t_Column2 : Z; t_Column3 : Z; t_Offset : Z }.
Record ListAllJobsParams := MkAll { a_Column1 : Z; a_Column2 : Z; a_Offset : Z }.
Record UpdateJobStatusParams := MkUpdateStatus {
  u_Status : string; u_Result : string; u_UpdatedAt : Z; u_ID : string }.

(** [for rows.Next()]: the first row that does not scan ends the loop. *)
Fixpoint next_loop (next : list (list Value)) (items : list Job) : list Job + Error :=
  match next with
  | [] => inl items
  | row :: next => let* i := scan_job row in next_loop next (items ++ [i])
  end.
Definition collect (rows : Rows) : list Job + Error :=
  let* items := next_loop (rs_next rows) [] in
  match rs_close rows with
  | Some err => inr err
  | None => match rs_err rows with Some err => inr err | None => inl items end
  end.

(** [row.Scan] of the row that QueryRowContext defers *)
Definition scan_row (rows : Rows + Error) : Job + Error :=
  let* rows := rows in
  match rs_next rows with
  | [] => match rs_err rows with Some err => inr err | None => inr ErrNoRows end
  | row :: _ =>
      let* i := scan_job row in
      match rs_close rows with Some err => inr err | None => inl i end
  end.

Section queries.
Context {D : Type} `{DBTX D}.

Definition err_of {A} (r : D * (A + Error)) : D * option Error :=
  (r.1, match r.2 with inl _ => None | inr err => Some err end).
Definition many (r : D * (Rows + Error)) : D * (list Job + Error) :=
  (r.1, let* rows := r.2 in collect rows).

Definition DeleteJob (id : string) (db : D) : D * option Error :=
  err_of (ExecContext deleteJob [VText id] db).
Definition GetJob (id : string) (db : D) : D * (Job + Error) :=
  let r := QueryContext getJob [VText id] db in (r.1, scan_row r.2).
Definition GetPendingJobs (db : D) : D * (list Job + Error) :=
  many (QueryContext getPendingJobs [] db).
Definition InsertJob (arg : InsertJobParams) (db : D) : D * option Error :=
  err_of (ExecContext insertJob (bind_job arg) db).
Definition ListAllJobs (arg : ListAllJobsParams) (db : D) : D * (list Job + Error) :=
  many (QueryContext listAllJobs [VInt (a_Column1 arg); VInt (a_Column2 arg); VInt (a_Offset arg)] db).
Definition ListJobsByStatus (arg : ListJobsByStatusParams) (db : D) : D * (list Job + Error) :=
  many (QueryContext listJobsByStatus
    [VText (s_Status arg); VInt (s_Column2 arg); VInt (s_Column3 arg); VInt (s_Offset arg)] db).
Definition ListJobsByStatusAndType (arg : ListJobsByStatusAndTypeParams) (db : D)
  : D * (list Job + Error) :=
  many (QueryContext listJobsByStatusAndType
    [VText (b_Status arg); VText (b_Type arg); VInt (b_Column3 arg); VInt (b_Column4 arg);
     VInt (b_Offset arg)] db).
Definition ListJobsByType (arg : ListJobsByTypeParams) (db : D) : D * (list Job + Error) :=
  many (QueryContext listJobsByType
    [VText (t_Type arg); VInt (t_Column2 arg); VInt (t_Column3 arg); VInt (t_Offset arg)] db).
Definition UpdateJobStatus (arg : UpdateJobStatusParams) (db : D) : D * (SqlResult + Error) :=
  ExecContext updateJobStatus
    [VText (u_Status arg); VText (u_Result arg); VTime (u_UpdatedAt arg); VText (u_ID arg)] db.
Definition UpsertJob (arg : UpsertJobParams) (db : D) : D * option Error :=
  err_of (ExecContext upsertJob (bind_job arg) db).
End queries.
End jobdb.
Import jobdb(Job, MkJob, r_ID, r_Type, r_ArgsData, r_Status, r_Result, r_Priority,
  r_CreatedAt, r_UpdatedAt).
#[export] Instance Job_eq_dec : EqDecision Job.
Proof. solve_decision. Defined.

(** ** The store's methods *)

Module SQLite.

Definition sqliteSchema : string := "
CREATE TABLE IF NOT EXISTS jobs (
    id         TEXT     NOT NULL PRIMARY KEY,
    type       TEXT     NOT NULL,
    args_data  BLOB,
    status     TEXT     NOT NULL DEFAULT 'PENDING',
    result     TEXT     NOT NULL DEFAULT '',
    priority   INTEGER  NOT NULL DEFAULT 0,
    created_at DATETIME NOT NULL,
    updated_at DATETIME NOT NULL
);
CREATE INDEX IF NOT EXISTS idx_jobs_status ON jobs (status);
CREATE INDEX IF NOT EXISTS idx_jobs_type   ON jobs (type);
".

Definition SQLITE_CONSTRAINT : Z := 19.

(** [errors.As(err, &sqliteErr)] and the code of the error found *)
Fixpoint As_sqlite (err : Error) : option Z :=
  match err with
  | ErrSqlite code _ => Some code
  | ErrWrap _ err => As_sqlite err
  | _ => None
  end.
Definition isUniqueConstraintError (err : Error) : bool :=
  match As_sqlite err with
  | Some code => (Z.land code 0xFF =? SQLITE_CONSTRAINT)%Z
  | None => false
  end.

Definition rowToEntity (r : Job) : JobEntity :=
  MkJobEntity (r_ID r) (r_Type r) (r_ArgsData r) (r_Status r) (r_Result r) (r_Priority r)
    (r_CreatedAt r) (r_UpdatedAt r).
Fixpoint rowsToEntities (rows : list Job) : list JobEntity :=
  match rows with [] => [] | r :: rows => rowToEntity r :: rowsToEntities rows end.

(** The parameters of InsertJob and UpsertJob *)
Definition job_params (job : JobEntity) : Job :=
  MkJob (ID job) (Type_ job) (ArgsData job) (Status job) (Result job) (Priority job)
    (CreatedAt job) (UpdatedAt job).

Section store.
Context {D : Type} `{DBTX D}.

Definition NewSQLiteJobStore (db : D) : D * (unit + Error) :=
  let r := ExecContext sqliteSchema [] db in
  (r.1, match r.2 with inl _ => inl () | inr err => inr (ErrWrap "create jobs table" err) end).

(** The results are the caller's entity, the database and the error. *)
Definition CreateJob (now : Z) (job : JobEntity) (db : D) : JobEntity * D * option Error :=
  if decide (ID job = "") then (job, db, Some (ErrText "job ID cannot be empty")) else
  let job := set_times (if (CreatedAt job =? 0)%Z then now else CreatedAt job) now job in
  let '(db, err) := jobdb.InsertJob (job_params job) db in
  match err with
  | Some err => (job, db, Some (if isUniqueConstraintError err then ErrJobAlreadyExists else err))
  | None => (job, db, None)
  end.

Definition SaveJob (now : Z) (job : JobEntity) (db : D) : JobEntity * D * option Error :=
  if decide (ID job = "") then (job, db, Some (ErrText "job ID cannot be empty")) else
  let job := set_times (if (CreatedAt job =? 0)%Z then now else CreatedAt job) now job in
  let '(db, err) := jobdb.UpsertJob (job_params job) db in
  (job, db, err).

Definition UpdateStatus (now : Z) (id : string) (status : JobStatus) (result : string) (db : D)
  : D * option Error :=
  let '(db, res) := jobdb.UpdateJobStatus (jobdb.MkUpdateStatus status result now id) db in
  match res with
  | inr err => (db, Some err)
  | inl res =>
      match RowsAffected res with
      | inr err => (db, Some err)
      | inl n =>
          if (n =? 0)%Z then (db, Some (ErrWrap ("job " +:+ id) ErrJobNotFound)) else (db, None)
      end
  end.

Definition GetJob (id : string) (db : D) : D * (JobEntity + Error) :=
  let '(db, row) := jobdb.GetJob id db in
  match row with
  | inr err =>
      if Is err ErrNoRows then (db, inr (ErrWrap ("job " +:+ id) ErrJobNotFound)) else (db, inr err)
  | inl row => (db, inl (rowToEntity row))
  end.

Definition to_entities (r : D * (list Job + Error)) : D * (list JobEntity + Error) :=
  (r.1, let* rows := r.2 in inl (rowsToEntities rows)).

Definition ListJobs (filter : JobFilter) (db : D) : D * (list JobEntity + Error) :=
  let limit := f_Limit filter in
  let offset := f_Offset filter in
  let hasStatus := bool_decide (f_Status filter ≠ "") in
  let hasType := bool_decide (f_Type filter ≠ "") in
  if hasStatus && hasType then
    to_entities (jobdb.ListJobsByStatusAndType
      (jobdb.MkBoth (f_Status filter) (f_Type filter) limit limit offset) db)
  else if hasStatus then
    to_entities (jobdb.ListJobsByStatus (jobdb.MkByStatus (f_Status filter) limit limit offset) db)
  else if hasType then
    to_entities (jobdb.ListJobsByType (jobdb.MkByType (f_Type filter) limit limit offset) db)
  else
    to_entities (jobdb.ListAllJobs (jobdb.MkAll limit limit offset) db).

Definition GetRecoverableJobs (db : D) : D * (list JobEntity + Error) :=
  to_entities (jobdb.GetPendingJobs db).
Definition DeleteJob (id : string) (db : D) : D * option Error := jobdb.DeleteJob id db.
End store.
End SQLite.

(** ** What the statements mean

    [effect] is the table after INSERT, INSERT OR REPLACE, UPDATE and DELETE
    with the number of affected rows, [None] where the PRIMARY KEY forbids the
    statement; [selection] is what a SELECT asks for: the WHERE clause and the
    values of LIMIT and OFFSET. *)

Definition row_of (vs : list Value) : option Job :=
  match jobdb.scan_job vs with inl j => Some j | inr _ => None end.

Definition without (id : string) (t : list Job) : list Job := filter (λ j, r_ID j ≠ id) t.
Definition set_status (status result : string) (now : Z) (id : string) (j : Job) : Job :=
  if decide (r_ID j = id)
  then MkJob (r_ID j) (r_Type j) (r_ArgsData j) status result (r_Priority j) (r_CreatedAt j) now
  else j.

Definition effect (q : string) (vs : list Value) (t : list Job) : option (list Job * Z) :=
  if decide (q = jobdb.insertJob) then
    j ← row_of vs; if decide (r_ID j ∈ r_ID <$> t) then None else Some (t ++ [j], 1%Z)
  else if decide (q = jobdb.upsertJob) then
    j ← row_of vs; Some (without (r_ID j) t ++ [j], 1%Z)
  else if decide (q = jobdb.updateJobStatus) then
    match vs with
    | [VText status; VText result; VTime now; VText id] =>
        Some (set_status status result now id <$> t,
              Z.of_nat (length (filter (λ j, r_ID j = id) t)))
    | _ => None
    end
  else if decide (q = jobdb.deleteJob) then
    match vs with
    | [VText id] => Some (without id t, Z.of_nat (length (filter (λ j, r_ID j = id) t)))
    | _ => None
    end
  else if decide (q = SQLite.sqliteSchema) then Some (t, 0%Z)
  else None.

Record Selection := MkSelection { sel_where : Job → bool; sel_limit : Z; sel_offset : Z }.
Definition no_limit (column column' : Z) : Z := if (column =? 0)%Z then -1 else column'.

Definition selection (q : string) (vs : list Value) : option Selection :=
  if decide (q = jobdb.getJob) then
    match vs with
    | [VText id] => Some (MkSelection (λ j, bool_decide (r_ID j = id)) (-1) 0)
    | _ => None
    end
  else if decide (q = jobdb.getPendingJobs) then
    Some (MkSelection (λ j, bool_decide (r_Status j = "PENDING")) (-1) 0)
  else if decide (q = jobdb.listAllJobs) then
    match vs with
    | [VInt c; VInt c'; VInt o] => Some (MkSelection (λ _, true) (no_limit c c') o)
    | _ => None
    end
  else if decide (q = jobdb.listJobsByStatus) then
    match vs with
    | [VText s; VInt c; VInt c'; VInt o] =>
        Some (MkSelection (λ j, bool_decide (r_Status j = s)) (no_limit c c') o)
    | _ => None
    end
  else if decide (q = jobdb.listJobsByStatusAndType) then
    match vs with
    | [VText s; VText ty; VInt c; VInt c'; VInt o] =>
        Some (MkSelection (λ j, bool_decide (r_Status j = s ∧ r_Type j = ty)) (no_limit c c') o)
    | _ => None
    end
  else if decide (q = jobdb.listJobsByType) then
    match vs with
    | [VText ty; VInt c; VInt c'; VInt o] =>
        Some (MkSelection (λ j, bool_decide (r_Type j = ty)) (no_limit c c') o)
    | _ => None
    end
  else None.

(** A negative LIMIT is none, a negative OFFSET is 0. *)
Definition sql_page {A} (limit offset : Z) (l : list A) : list A :=
  let rest := drop (Z.to_nat offset) l in
  if (limit <? 0)%Z then rest else take (Z.to_nat limit) rest.

(** The errors of the database know nothing of this package's. *)
Definition driver_error (e : Error) : Prop :=
  Is e ErrJobAlreadyExists = false ∧ Is e ErrJobNotFound = false.

(** A listing is in the order of [created_at] as the engine compares it. *)
Class SqlLaws (D : Type) `{DBTX D} (jobs : D → list Job) (before : relation Z) := {
  primary_key d : NoDup (r_ID <$> jobs d);
  exec_inl q vs d d' res :
    ExecContext q vs d = (d', inl res) →
    ∃ t n, effect q vs (jobs d) = Some (t, n) ∧ jobs d' ≡ₚ t ∧ RowsAffected res = inl n;
  exec_inr q vs d d' e :
    ExecContext q vs d = (d', inr e) →
    jobs d' = jobs d ∧ driver_error e ∧
    (SQLite.isUniqueConstraintError e = true → effect q vs (jobs d) = None);
  query_jobs q vs d d' r : QueryContext q vs d = (d', r) → jobs d' = jobs d;
  query_inl q vs d d' rows :
    QueryContext q vs d = (d', inl rows) →
    ∃ sel l, selection q vs = Some sel ∧
      l ≡ₚ filter (λ j, sel_where sel j = true) (jobs d) ∧
      StronglySorted (λ i j, before (r_CreatedAt i) (r_CreatedAt j)) l ∧
      rs_next rows `prefix_of` (jobdb.bind_job <$> sql_page (sel_limit sel) (sel_offset sel) l) ∧
      (rs_err rows = None →
       rs_next rows = jobdb.bind_job <$> sql_page (sel_limit sel) (sel_offset sel) l);
}.

(** A state in which no statement fails for another reason than the PRIMARY
    KEY, now or later. *)
Class SqlHealthy (D : Type) `{DBTX D} (jobs : D → list Job) (healthy : D → Prop) := {
  healthy_exec q vs d d' r :
    healthy d → ExecContext q vs d = (d', r) →
    healthy d' ∧
    ∀ e, r = inr e → effect q vs (jobs d) = None ∧ SQLite.isUniqueConstraintError e = true;
  healthy_query q vs d d' r :
    healthy d → QueryContext q vs d = (d', r) → is_Some (selection q vs) →
    healthy d' ∧ ∃ rows, r = inl rows ∧ rs_close rows = None ∧ rs_err rows = None;
}.

(** ** The table as a map *)

Section table.
Implicit Types (t : list Job) (j : Job).

Definition tbl t : gmap string JobEntity :=
  list_to_map ((λ j, (r_ID j, SQLite.rowToEntity j)) <$> t).

Lemma scan_bind j : jobdb.scan_job (jobdb.bind_job j) = inl j.
Proof. by destruct j. Qed.
Lemma rowToEntity_params job : SQLite.rowToEntity (SQLite.job_params job) = job.
Proof. by destruct job. Qed.
Lemma rowsToEntities_fmap t : SQLite.rowsToEntities t = SQLite.rowToEntity <$> t.
Proof. induction t as [|j t IH]; simpl; [done|]. by rewrite IH. Qed.

Lemma next_loop_bind t items : jobdb.next_loop (jobdb.bind_job <$> t) items = inl (items ++ t).
Proof.
  revert items. induction t as [|j t IH]; intros items; [by rewrite app_nil_r|].
  cbn [fmap list_fmap jobdb.next_loop]. rewrite scan_bind, IH. by rewrite <- app_assoc.
Qed.

Lemma entries_keys t : ((λ j, (r_ID j, SQLite.rowToEntity j)) <$> t).*1 = r_ID <$> t.
Proof. rewrite <- list_fmap_compose. by apply list_fmap_ext. Qed.

Lemma tbl_perm t t' : NoDup (r_ID <$> t) → t ≡ₚ t' → tbl t = tbl t'.
Proof. intros Hnd E. apply list_to_map_proper; [by rewrite entries_keys|by rewrite E]. Qed.

Lemma tbl_lookup t id e :
  NoDup (r_ID <$> t) →
  tbl t !! id = Some e ↔ ∃ j, j ∈ t ∧ r_ID j = id ∧ SQLite.rowToEntity j = e.
Proof.
  intros Hnd. unfold tbl. rewrite <- elem_of_list_to_map by (by rewrite entries_keys).
  rewrite list_elem_of_fmap. split.
  - intros (j & [= -> ->] & Hj). by exists j.
  - intros (j & Hj & <- & <-). by exists j.
Qed.

Lemma tbl_lookup_None t id : tbl t !! id = None ↔ id ∉ r_ID <$> t.
Proof. unfold tbl. by rewrite <- not_elem_of_list_to_map, entries_keys. Qed.

Lemma tbl_cons j t : tbl (j :: t) = <[r_ID j := SQLite.rowToEntity j]> (tbl t).
Proof. done. Qed.

Lemma tbl_snoc t j :
  NoDup (r_ID <$> t ++ [j]) → tbl (t ++ [j]) = <[r_ID j := SQLite.rowToEntity j]> (tbl t).
Proof. intros Hnd. rewrite (tbl_perm _ (j :: t)); [done..|]. by rewrite Permutation_app_comm. Qed.

Lemma tbl_without t id : tbl (without id t) = delete id (tbl t).
Proof.
  unfold without. induction t as [|j t IH]; [symmetry; apply (delete_empty id)|].
  destruct (decide (r_ID j = id)) as [E|E].
  - rewrite filter_cons_False by tauto. rewrite IH, tbl_cons, E. by rewrite delete_insert_eq.
  - rewrite filter_cons_True by done. rewrite !tbl_cons, IH. by rewrite delete_insert_ne by done.
Qed.

Lemma set_status_ID status result now id j : r_ID (set_status status result now id j) = r_ID j.
Proof. unfold set_status. by case_decide. Qed.

Lemma set_status_keys status result now id t :
  r_ID <$> (set_status status result now id <$> t) = r_ID <$> t.
Proof. rewrite <- list_fmap_compose. apply list_fmap_ext. intros. apply set_status_ID. Qed.

Lemma tbl_update status result now id t :
  NoDup (r_ID <$> t) →
  tbl (set_status status result now id <$> t) =
    match tbl t !! id with
    | Some j => <[id := updated now status result j]> (tbl t)
    | None => tbl t
    end.
Proof.
  induction t as [|j t IH]; intros Hnd; [done|].
  rewrite fmap_cons in Hnd. apply NoDup_cons in Hnd as [Hj Hnd]. specialize (IH Hnd).
  rewrite fmap_cons, !tbl_cons, set_status_ID, IH. unfold set_status. case_decide as E.
  - subst id. rewrite lookup_insert_eq.
    assert (tbl t !! r_ID j = None) as -> by (by apply tbl_lookup_None).
    by rewrite insert_insert_eq.
  - rewrite lookup_insert_ne by done. destruct (tbl t !! id); [|done].
    by rewrite insert_insert_ne by done.
Qed.

Lemma tbl_count id t :
  (Z.of_nat (length (filter (λ j, r_ID j = id) t)) =? 0)%Z = bool_decide (tbl t !! id = None).
Proof.
  apply Bool.eq_iff_eq_true. rewrite Z.eqb_eq, bool_decide_eq_true, tbl_lookup_None. split.
  - intros E [j [-> Hj]]%list_elem_of_fmap.
    assert (filter (λ j0, r_ID j0 = r_ID j) t = []) as E' by (apply nil_length_inv; lia).
    assert (j ∈ filter (λ j0, r_ID j0 = r_ID j) t) as H by (by apply list_elem_of_filter).
    rewrite E' in H. by apply elem_of_nil in H.
  - intros Hn. destruct (filter (λ j, r_ID j = id) t) as [|j l] eqn:E; [done|].
    assert (j ∈ filter (λ j, r_ID j = id) t) as [Hid Hj]%list_elem_of_filter by (rewrite E; left).
    destruct Hn. apply list_elem_of_fmap. by exists j.
Qed.

Lemma tbl_values t : NoDup (r_ID <$> t) → (map_to_list (tbl t)).*2 ≡ₚ SQLite.rowToEntity <$> t.
Proof.
  intros Hnd. unfold tbl. rewrite map_to_list_to_map by (by rewrite entries_keys).
  rewrite <- list_fmap_compose. done.
Qed.

Lemma filter_rows (P : JobEntity → Prop) `{!∀ e, Decision (P e)} (Q : Job → Prop)
  `{!∀ j, Decision (Q j)} t :
  (∀ j, Q j ↔ P (SQLite.rowToEntity j)) →
  SQLite.rowToEntity <$> filter Q t = filter P (SQLite.rowToEntity <$> t).
Proof.
  intros HPQ. induction t as [|j t IH]; [done|]. rewrite fmap_cons.
  destruct (decide (Q j)) as [E|E].
  - rewrite (filter_cons_True Q), (filter_cons_True P) by (by rewrite <- ?HPQ). by rewrite fmap_cons, IH.
  - rewrite (filter_cons_False Q), (filter_cons_False P) by (by rewrite <- ?HPQ). done.
Qed.

Lemma sql_page_fmap {A B} (f : A → B) limit offset l :
  f <$> sql_page limit offset l = sql_page limit offset (f <$> l).
Proof.
  unfold sql_page. destruct (limit <? 0)%Z; by rewrite <- ?fmap_drop, <- ?fmap_take, <- ?fmap_drop.
Qed.
End table.

(** ** The methods on a lawful database *)

Ltac sql_eval := unfold effect, selection;
  repeat first [rewrite decide_True by done | rewrite decide_False by discriminate].

Lemma effect_insert j t :
  effect jobdb.insertJob (jobdb.bind_job j) t =
    if decide (r_ID j ∈ r_ID <$> t) then None else Some (t ++ [j], 1%Z).
Proof. sql_eval. unfold row_of. by rewrite scan_bind. Qed.
Lemma effect_upsert j t :
  effect jobdb.upsertJob (jobdb.bind_job j) t = Some (without (r_ID j) t ++ [j], 1%Z).
Proof. sql_eval. unfold row_of. by rewrite scan_bind. Qed.
Lemma effect_update status result now id t :
  effect jobdb.updateJobStatus [VText status; VText result; VTime now; VText id] t =
    Some (set_status status result now id <$> t,
          Z.of_nat (length (filter (λ j, r_ID j = id) t))).
Proof. by sql_eval. Qed.
Lemma effect_delete id t :
  effect jobdb.deleteJob [VText id] t =
    Some (without id t, Z.of_nat (length (filter (λ j, r_ID j = id) t))).
Proof. by sql_eval. Qed.

Lemma stamp_params now job :
  SQLite.rowToEntity (SQLite.job_params
    (set_times (if (CreatedAt job =? 0)%Z then now else CreatedAt job) now job)) = stamp now now job.
Proof. apply rowToEntity_params. Qed.

Section methods.
Context {D : Type} `{!DBTX D} (jobs : D → list Job) (before : relation Z).
Context `{!SqlLaws D jobs before}.
Implicit Types d : D.

Definition contents d : gmap string JobEntity := tbl (jobs d).

Lemma contents_perm d t : jobs d ≡ₚ t → contents d = tbl t.
Proof. intros E. apply tbl_perm; [|done]. apply (primary_key (D:=D)). Qed.

Lemma contents_exec_err q vs d d' e :
  ExecContext q vs d = (d', inr e) → contents d' = contents d ∧ driver_error e.
Proof. intros (E & He & _)%exec_inr. unfold contents. by rewrite E. Qed.

Lemma InsertJob_spec j d d' e :
  jobdb.InsertJob j d = (d', e) →
  match e with
  | None => contents d !! r_ID j = None ∧
            contents d' = <[r_ID j := SQLite.rowToEntity j]> (contents d)
  | Some e => contents d' = contents d ∧ driver_error e ∧
              (SQLite.isUniqueConstraintError e = true → is_Some (contents d !! r_ID j))
  end.
Proof.
  unfold jobdb.InsertJob, jobdb.err_of.
  destruct (ExecContext jobdb.insertJob (jobdb.bind_job j) d) as [d1 [res|e1]] eqn:E;
    intros [= <- <-]; cbn [fst snd] in *.
  - destruct (exec_inl _ _ _ _ _ E) as (t & n & Ef & Ht & _). rewrite effect_insert in Ef.
    case_decide as Hin; simplify_eq. split; [by apply tbl_lookup_None|].
    rewrite (contents_perm _ _ Ht). apply tbl_snoc. rewrite <- Ht. apply primary_key.
  - destruct (exec_inr _ _ _ _ _ E) as (Ej & He & Hu). split_and!; [by unfold contents; rewrite Ej|done|].
    intros Hc. specialize (Hu Hc). rewrite effect_insert in Hu. case_decide as Hin; simplify_eq.
    destruct (contents d !! r_ID j) eqn:El; [done|]. by apply tbl_lookup_None in El.
Qed.

Lemma UpsertJob_spec j d d' e :
  jobdb.UpsertJob j d = (d', e) →
  match e with
  | None => contents d' = <[r_ID j := SQLite.rowToEntity j]> (contents d)
  | Some e => contents d' = contents d ∧ driver_error e
  end.
Proof.
  unfold jobdb.UpsertJob, jobdb.err_of.
  destruct (ExecContext jobdb.upsertJob (jobdb.bind_job j) d) as [d1 [res|e1]] eqn:E;
    intros [= <- <-]; cbn [fst snd] in *; [|by eapply contents_exec_err].
  destruct (exec_inl _ _ _ _ _ E) as (t & n & Ef & Ht & _). rewrite effect_upsert in Ef. simplify_eq.
  rewrite (contents_perm _ _ Ht), tbl_snoc, tbl_without by (rewrite <- Ht; apply primary_key).
  by rewrite insert_delete_eq.
Qed.

Lemma create_spec now job d job' d' e :
  SQLite.CreateJob now job d = (job', d', e) →
  match e with
  | None => ID job ≠ "" ∧ contents d !! ID job = None ∧ job' = stamp now now job ∧
            contents d' = <[ID job := job']> (contents d)
  | Some e => contents d' = contents d ∧
              (e = ErrJobAlreadyExists → is_Some (contents d !! ID job))
  end.
Proof.
  unfold SQLite.CreateJob. case_decide as Hne; [by intros [= <- <- <-]|]. cbn zeta.
  set (j := set_times _ _ _).
  destruct (jobdb.InsertJob (SQLite.job_params j) d) as [d1 e1] eqn:E.
  pose proof (InsertJob_spec _ _ _ _ E) as Hs. destruct e1 as [e1|]; intros [= <- <- <-].
  - destruct Hs as (Hc & [He _] & Hu). split; [done|].
    destruct (SQLite.isUniqueConstraintError e1); [by eauto|].
    intros ->. by vm_compute in He.
  - rewrite rowToEntity_params in Hs. by destruct Hs.
Qed.

Lemma save_spec now job d job' d' e :
  SQLite.SaveJob now job d = (job', d', e) →
  match e with
  | None => ID job ≠ "" ∧ job' = stamp now now job ∧ contents d' = <[ID job := job']> (contents d)
  | Some e => contents d' = contents d
  end.
Proof.
  unfold SQLite.SaveJob. case_decide as Hne; [by intros [= <- <- <-]|]. cbn zeta.
  set (j := set_times _ _ _).
  destruct (jobdb.UpsertJob (SQLite.job_params j) d) as [d1 e1] eqn:E.
  pose proof (UpsertJob_spec _ _ _ _ E) as Hs. intros [= <- <- <-].
  destruct e1 as [e1|]; [by destruct Hs|]. by rewrite rowToEntity_params in Hs.
Qed.

Lemma update_spec now id st r d d' e :
  SQLite.UpdateStatus now id st r d = (d', e) →
  match e with
  | None => ∃ j, contents d !! id = Some j ∧ contents d' = <[id := updated now st r j]> (contents d)
  | Some e => contents d' = contents d ∧ (contents d !! id = None ∨ driver_error e) ∧
              (Is e ErrJobNotFound = true → contents d !! id = None)
  end.
Proof.
  unfold SQLite.UpdateStatus, jobdb.UpdateJobStatus. simpl.
  destruct (ExecContext _ _ d) as [d1 [res|e1]] eqn:E.
  - destruct (exec_inl _ _ _ _ _ E) as (t & n & Ef & Ht & ->). rewrite effect_update in Ef. simplify_eq.
    rewrite tbl_count. pose proof (contents_perm _ _ Ht) as Hc.
    rewrite tbl_update in Hc by apply primary_key. fold (contents d) in *.
    destruct (contents d !! id) as [j|]; simpl; intros [= <- <-]; [by exists j|by auto].
  - intros [= <- <-]. destruct (contents_exec_err _ _ _ _ _ E) as [Ec He]. split_and!; [done|by right|].
    destruct He as [_ He]. by rewrite He.
Qed.

Lemma delete_spec id d d' e :
  SQLite.DeleteJob id d = (d', e) →
  contents d' = match e with None => delete id (contents d) | Some _ => contents d end.
Proof.
  unfold SQLite.DeleteJob, jobdb.DeleteJob, jobdb.err_of.
  destruct (ExecContext _ _ d) as [d1 [res|e1]] eqn:E; intros [= <- <-];
    [|by destruct (contents_exec_err _ _ _ _ _ E)].
  destruct (exec_inl _ _ _ _ _ E) as (t & n & Ef & Ht & _). rewrite effect_delete in Ef. simplify_eq.
  by rewrite (contents_perm _ _ Ht), tbl_without.
Qed.

(** What a listing or a GetJob asks for, and that its answer is the page. *)
Definition asks (f : JobFilter) (q : string) (vs : list Value) : Prop :=
  ∃ sel, selection q vs = Some sel ∧
    (∀ j, sel_where sel j = true ↔ matches f (SQLite.rowToEntity j)) ∧
    sel_limit sel = no_limit (f_Limit f) (f_Limit f) ∧ sel_offset sel = f_Offset f.

Lemma list_asks f :
  ∃ q vs, (∀ d, SQLite.ListJobs f d = SQLite.to_entities (jobdb.many (QueryContext q vs d))) ∧
          asks f q vs.
Proof.
  unfold SQLite.ListJobs, asks. destruct f as [st ty lim off]. simpl.
  destruct (decide (st = "")) as [Es|Es]; destruct (decide (ty = "")) as [Et|Et].
  all: repeat first [rewrite (bool_decide_eq_true_2 (_ ≠ "")) by done
                    |rewrite (bool_decide_eq_false_2 (_ ≠ "")) by tauto]; simpl.
  all: eexists _, _; split; [intros d; reflexivity|];
    eexists; split; [sql_eval; reflexivity|]; simpl; split; [|done].
  all: intros j; rewrite ?bool_decide_eq_true; unfold matches; simpl; naive_solver.
Qed.

Definition pending : JobFilter := MkJobFilter JobStatusPending "" 0 0.
Lemma pending_asks : asks pending jobdb.getPendingJobs [].
Proof.
  eexists. split; [sql_eval; reflexivity|]. split; [|done].
  intros j. simpl. rewrite bool_decide_eq_true. unfold matches. simpl. naive_solver.
Qed.

Lemma page_sql {A} lim off (l : list A) :
  sql_page (no_limit lim lim) off l =
    (let found := drop (Z.to_nat off) l in
     if (0 <? lim)%Z then take (Z.to_nat lim) found else found).
Proof.
  unfold sql_page, no_limit. destruct (Z.eqb_spec lim 0); [by subst|].
  destruct (Z.ltb_spec lim 0), (Z.ltb_spec 0 lim); try done; lia.
Qed.

Lemma StronglySorted_page {A} (R : relation A) lim off l :
  StronglySorted R l → StronglySorted R (sql_page lim off l).
Proof.
  unfold sql_page. intros H. rewrite <- (take_drop (Z.to_nat off) l) in H.
  apply StronglySorted_app in H as (_ & _ & H). destruct (lim <? 0)%Z; [done|].
  rewrite <- (take_drop (Z.to_nat lim) (drop (Z.to_nat off) l)) in H.
  by apply StronglySorted_app in H as (_ & ? & _).
Qed.

Lemma collect_inl rows items t :
  (rs_err rows = None → rs_next rows = jobdb.bind_job <$> t) →
  jobdb.collect rows = inl items → items = t.
Proof.
  intros Hall. unfold jobdb.collect. destruct (jobdb.next_loop (rs_next rows) []) eqn:El; [|done].
  destruct (rs_close rows); [done|]. destruct (rs_err rows); [done|]. intros [= <-].
  rewrite Hall, next_loop_bind in El by done. by injection El.
Qed.

Lemma collect_healthy rows t :
  rs_next rows = jobdb.bind_job <$> t → rs_close rows = None → rs_err rows = None →
  jobdb.collect rows = inl t.
Proof. unfold jobdb.collect. intros -> -> ->. by rewrite next_loop_bind. Qed.

(** A listing that succeeds is the page that MemoryJobStore would build if it
    visited its entries in the table's order. *)
Lemma asks_spec f q vs d d' r :
  asks f q vs → SQLite.to_entities (jobdb.many (QueryContext q vs d)) = (d', r) →
  contents d' = contents d ∧
  ∀ js, r = inl js →
    StronglySorted (λ i j, before (CreatedAt i) (CreatedAt j)) js ∧
    ∃ visited, visited ≡ₚ (map_to_list (contents d)).*2 ∧ js = ListJobs f visited.
Proof.
  intros (sel & Hsel & Hw & Hlim & Hoff). unfold SQLite.to_entities, jobdb.many.
  destruct (QueryContext q vs d) as [d1 r1] eqn:E. cbn [fst snd]. intros [= <- <-].
  split; [by unfold contents; rewrite (query_jobs _ _ _ _ _ E)|]. intros js Hjs.
  destruct r1 as [rows|]; [|done]. destruct (jobdb.collect rows) as [items|] eqn:Ec; simplify_eq.
  destruct (query_inl _ _ _ _ _ E) as (sel' & l & Hsel' & Hl & Hs & _ & Hall).
  rewrite Hsel in Hsel'. injection Hsel' as <-.
  rewrite (collect_inl _ _ _ Hall Ec), rowsToEntities_fmap. split.
  - eapply StronglySorted_fmap; [|apply StronglySorted_page, Hs]. done.
  - set (P := λ j, sel_where sel j = true) in Hl.
    exists (SQLite.rowToEntity <$> l ++ filter (λ j, ¬ P j) (jobs d)). split.
    + rewrite Hl. unfold contents. rewrite tbl_values by apply primary_key. f_equiv.
      apply (filter_app_complement P).
    + destruct (js_ListJobs f (SQLite.rowToEntity <$> l ++ filter (λ j, ¬ P j) (jobs d))) as [-> _].
      rewrite sql_page_fmap, Hlim, Hoff, page_sql. cbn zeta.
      enough (filter (matches f) (SQLite.rowToEntity <$> l ++ filter (λ j, ¬ P j) (jobs d))
              = SQLite.rowToEntity <$> l) as -> by done.
      rewrite fmap_app, filter_app, <- !(filter_rows (matches f) P) by apply Hw.
      rewrite (filter_keeps P l), (filter_drops P), app_nil_r; [done| |].
      * apply Forall_forall. by intros j [? _]%list_elem_of_filter.
      * apply Forall_forall. intros j Hj. rewrite Hl in Hj. by apply list_elem_of_filter in Hj as [? _].
Qed.

Lemma getJob_selection id :
  selection jobdb.getJob [VText id] = Some (MkSelection (λ j, bool_decide (r_ID j = id)) (-1) 0).
Proof. by sql_eval. Qed.

(** The rows a GetJob can see: the one with that key, or none. *)
Lemma getJob_rows id d l :
  l ≡ₚ filter (λ j, bool_decide (r_ID j = id) = true) (jobs d) →
  match contents d !! id with
  | Some e => ∃ j, l = [j] ∧ SQLite.rowToEntity j = e
  | None => l = []
  end.
Proof.
  intros Hl. destruct (contents d !! id) as [e|] eqn:Ee.
  - unfold contents in Ee. apply tbl_lookup in Ee as (j & Hj & Hid & He); [|apply primary_key].
    exists j. split; [|done]. apply Permutation_singleton_r.
    rewrite Hl. apply elem_of_Permutation in Hj as [k Hk].
    pose proof (primary_key (D:=D) d) as Hnd. rewrite Hk in Hnd. rewrite Hk.
    rewrite fmap_cons in Hnd. apply NoDup_cons in Hnd as [Hn _].
    rewrite filter_cons_True by (by rewrite bool_decide_eq_true). f_equiv.
    rewrite filter_drops; [done|]. apply Forall_forall. intros i Hi [= E]%bool_decide_eq_true.
    destruct Hn. apply list_elem_of_fmap. exists i. by rewrite Hid, E.
  - apply tbl_lookup_None in Ee. rewrite filter_drops in Hl; [by apply Permutation_nil_r|].
    apply Forall_forall. intros i Hi E%bool_decide_eq_true. destruct Ee. apply list_elem_of_fmap.
    by exists i.
Qed.

Lemma get_spec id d d' r :
  SQLite.GetJob id d = (d', r) →
  contents d' = contents d ∧ ∀ j, r = inl j → contents d !! id = Some j.
Proof.
  unfold SQLite.GetJob, jobdb.GetJob.
  destruct (QueryContext jobdb.getJob [VText id] d) as [d1 r1] eqn:E. cbn [fst snd].
  assert (contents d1 = contents d) as Hc by (unfold contents; by rewrite (query_jobs _ _ _ _ _ E)).
  destruct r1 as [rows|e]; simpl.
  2:{ destruct (Is e ErrNoRows); by intros [= <- <-]. }
  destruct (query_inl _ _ _ _ _ E) as (sel & l & Hsel & Hl & _ & [rest Hp] & _).
  rewrite getJob_selection in Hsel. injection Hsel as <-. apply getJob_rows in Hl.
  change (sql_page _ _ l) with l in Hp.
  destruct (rs_next rows) as [|row next] eqn:En.
  - destruct (rs_err rows) as [e|]; simpl; [destruct (Is e ErrNoRows)|]; by intros [= <- <-].
  - destruct (contents d !! id) as [e|]; [|by subst l].
    destruct Hl as (j & -> & <-). simpl in Hp. simplify_eq. rewrite scan_bind.
    destruct (rs_close rows) as [e|]; simpl; [destruct (Is e ErrNoRows)|]; intros [= <- <-];
      (split; [done|]); intros j' Hj; by simplify_eq.
Qed.

Section healthy.
Context (healthy : D → Prop) `{!SqlHealthy D jobs healthy}.

Lemma get_healthy id d d' r :
  healthy d → SQLite.GetJob id d = (d', r) →
  healthy d' ∧ r = match contents d !! id with
                   | Some j => inl j
                   | None => inr (ErrWrap ("job " +:+ id) ErrJobNotFound)
                   end.
Proof.
  intros Hh. unfold SQLite.GetJob, jobdb.GetJob.
  destruct (QueryContext jobdb.getJob [VText id] d) as [d1 r1] eqn:E. cbn [fst snd].
  destruct (healthy_query _ _ _ _ _ Hh E) as (Hh' & rows & -> & Hc & He);
    [rewrite getJob_selection; by eexists|].
  destruct (query_inl _ _ _ _ _ E) as (sel & l & Hsel & Hl & _ & _ & Hall).
  rewrite getJob_selection in Hsel. injection Hsel as <-. apply getJob_rows in Hl.
  specialize (Hall He). change (sql_page _ _ l) with l in Hall.
  unfold jobdb.scan_row. rewrite Hall, He, Hc.
  destruct (contents d !! id) as [e|].
  - destruct Hl as (j & -> & <-). cbn [fmap list_fmap]. rewrite scan_bind. by intros [= <- <-].
  - rewrite Hl. simpl. by intros [= <- <-].
Qed.

Lemma asks_healthy f q vs d d' r :
  healthy d → asks f q vs → SQLite.to_entities (jobdb.many (QueryContext q vs d)) = (d', r) →
  healthy d' ∧ ∃ js, r = inl js.
Proof.
  intros Hh (sel & Hsel & _). unfold SQLite.to_entities, jobdb.many.
  destruct (QueryContext q vs d) as [d1 r1] eqn:E. cbn [fst snd]. intros [= <- <-].
  destruct (healthy_query _ _ _ _ _ Hh E) as (Hh' & rows & -> & Hc & He);
    [rewrite Hsel; by eexists|]. split; [done|].
  destruct (query_inl _ _ _ _ _ E) as (sel' & l & _ & _ & _ & _ & Hall).
  rewrite (collect_healthy _ _ (Hall He) Hc He). by eexists.
Qed.
End healthy.
End methods.

(** ** A store for the JobManager: it keeps the laws of JobStore *)

Record SQLiteJobStore (D : Type) := MkSQLiteJobStore { q : D; clock : Z }.
Arguments MkSQLiteJobStore {D} q clock.
Arguments q {D} s : rename.
Arguments clock {D} s : rename.

#[export] Instance sqlite_ops {D} `{DBTX D} : JobStoreOps (SQLiteJobStore D) := {
  store_create job s :=
    let '(_, db, e) := SQLite.CreateJob (clock s) job (q s) in (MkSQLiteJobStore db (clock s), e);
  store_get id s := let '(db, r) := SQLite.GetJob id (q s) in (MkSQLiteJobStore db (clock s), r);
  store_save job s :=
    let '(_, db, e) := SQLite.SaveJob (clock s) job (q s) in (MkSQLiteJobStore db (clock s), e);
  store_update id st r s :=
    let '(db, e) := SQLite.UpdateStatus (clock s) id st r (q s) in (MkSQLiteJobStore db (clock s), e);
  store_list f s := let '(db, r) := SQLite.ListJobs f (q s) in (MkSQLiteJobStore db (clock s), r);
  store_recoverable s :=
    let '(db, r) := SQLite.GetRecoverableJobs (q s) in (MkSQLiteJobStore db (clock s), r);
}.

Definition store_contents {D} (jobs : D → list Job) (s : SQLiteJobStore D) : gmap string JobEntity :=
  contents jobs (q s).

Section laws.
Context {D : Type} `{!DBTX D} (jobs : D → list Job) (before : relation Z).
Context `{!SqlLaws D jobs before}.

Lemma list_spec f d d' r :
  SQLite.ListJobs f d = (d', r) →
  contents jobs d' = contents jobs d ∧
  ∀ js, r = inl js →
    StronglySorted (λ i j, before (CreatedAt i) (CreatedAt j)) js ∧
    ∃ visited, visited ≡ₚ (map_to_list (contents jobs d)).*2 ∧ js = ListJobs f visited.
Proof.
  destruct (list_asks f) as (text & vs & E & Ha). rewrite E. by apply asks_spec.
Qed.

Lemma recoverable_spec d d' r :
  SQLite.GetRecoverableJobs d = (d', r) →
  contents jobs d' = contents jobs d ∧
  ∀ js, r = inl js → js ≡ₚ filter (λ j, Status j = JobStatusPending) (map_to_list (contents jobs d)).*2.
Proof.
  intros E. destruct (asks_spec jobs before pending _ _ _ _ _ pending_asks E) as [Hd Hjs].
  split; [done|]. intros js Hr. destruct (Hjs js Hr) as (_ & visited & Hv & ->).
  change (ListJobs pending visited) with (GetRecoverableJobs visited).
  by rewrite GetRecoverableJobs_all, Hv.
Qed.

#[export] Instance sqlite_laws : JobStoreLaws (SQLiteJobStore D) (store_contents jobs).
Proof.
  unfold store_contents. split; simpl.
  - intros job s s' E0. destruct (SQLite.CreateJob (clock s) job (q s)) as [[j d] e] eqn:E.
    simplify_eq. destruct (create_spec _ _ _ _ _ _ _ _ E) as (_ & Hn & -> & Hc).
    split; [done|]. by eexists.
  - intros job s s' e E0. destruct (SQLite.CreateJob (clock s) job (q s)) as [[j d] e'] eqn:E.
    simplify_eq. by destruct (create_spec _ _ _ _ _ _ _ _ E).
  - intros id s s' r E0. destruct (SQLite.GetJob id (q s)) as [d r'] eqn:E.
    simplify_eq. by destruct (get_spec _ _ _ _ _ _ E).
  - intros job s s' E0. destruct (SQLite.SaveJob (clock s) job (q s)) as [[j d] e] eqn:E.
    simplify_eq. destruct (save_spec _ _ _ _ _ _ _ _ E) as (_ & -> & Hc). by eexists.
  - intros job s s' e E0. destruct (SQLite.SaveJob (clock s) job (q s)) as [[j d] e'] eqn:E.
    simplify_eq. exact (save_spec _ _ _ _ _ _ _ _ E).
  - intros id st r s s' E0. destruct (SQLite.UpdateStatus (clock s) id st r (q s)) as [d e] eqn:E.
    simplify_eq. destruct (update_spec _ _ _ _ _ _ _ _ _ E) as (j & Hj & Hc). by exists j; eexists.
  - intros id st r s s' e E0. destruct (SQLite.UpdateStatus (clock s) id st r (q s)) as [d e'] eqn:E.
    simplify_eq. by destruct (update_spec _ _ _ _ _ _ _ _ _ E).
  - intros f s s' r E0. destruct (SQLite.ListJobs f (q s)) as [d r'] eqn:E.
    simplify_eq. by destruct (list_spec _ _ _ _ E).
  - intros f s s' js E0 H1 H2. destruct (SQLite.ListJobs f (q s)) as [d r'] eqn:E.
    simplify_eq. destruct (list_spec _ _ _ _ E) as [_ Hjs].
    destruct (Hjs js eq_refl) as (_ & visited & Hv & ->). rewrite ListJobs_all by done. by rewrite Hv.
  - intros s s' r E0. injection E0 as <- <-.
    exact (proj1 (recoverable_spec (q s) _ _ (surjective_pairing _))).
  - intros s s' js E0. injection E0 as <- Hr.
    exact (proj2 (recoverable_spec (q s) _ _ (surjective_pairing _)) js Hr).
Qed.
End laws.
