(* ===== verification/SQLiteMemory.v ===== *)
(** * SQLiteJobStore against MemoryJobStore

    One command language for both stores; on a healthy database SQLiteJobStore
    answers what MemoryJobStore may answer.  Module [Engine] is a database that
    keeps the laws of SQLiteStore.v, for the concrete runs. *)

From S2P Require Import Prelude JobStore SQLiteStore.
Import jobdb(Job, MkJob, r_ID, r_Type, r_ArgsData, r_Status, r_Result, r_Priority,
  r_CreatedAt, r_UpdatedAt).

(** ** Both stores behind one command language *)

Inductive Cmd :=
| CCreate (job : JobEntity)
| CSave (job : JobEntity)
| CUpdate (id : string) (status : JobStatus) (result : string)
| CGet (id : string)
| CList (f : JobFilter)
| CRecoverable
| CDelete (id : string).

Inductive Answer :=
| AEntity (job : JobEntity) (e : option Error)    (** the caller's entity, stamped *)
| ADone (e : option Error)
| AJob (r : JobEntity + Error)
| AJobs (r : list JobEntity + Error).

Definition sql_do {D} `{DBTX D} (now : Z) (c : Cmd) (d : D) : D * Answer :=
  match c with
  | CCreate job => let '(j, d, e) := SQLite.CreateJob now job d in (d, AEntity j e)
  | CSave job => let '(j, d, e) := SQLite.SaveJob now job d in (d, AEntity j e)
  | CUpdate id st r => let '(d, e) := SQLite.UpdateStatus now id st r d in (d, ADone e)
  | CGet id => let '(d, r) := SQLite.GetJob id d in (d, AJob r)
  | CList f => let '(d, r) := SQLite.ListJobs f d in (d, AJobs r)
  | CRecoverable => let '(d, r) := SQLite.GetRecoverableJobs d in (d, AJobs r)
  | CDelete id => let '(d, e) := SQLite.DeleteJob id d in (d, ADone e)
  end.

Fixpoint sql_run {D} `{DBTX D} (cs : list (Z * Cmd)) (d : D) : D * list Answer :=
  match cs with
  | [] => (d, [])
  | (now, c) :: cs =>
      let '(d, a) := sql_do now c d in
      let '(d, answers) := sql_run cs d in (d, a :: answers)
  end.

Definition mem_do (now : Z) (visited : list JobEntity) (c : Cmd) (m : MemoryJobStore)
  : MemoryJobStore * Answer :=
  match c with
  | CCreate job => let '(j, m, e) := CreateJob now now job m in (m, AEntity j e)
  | CSave job => let '(j, m, e) := SaveJob now now job m in (m, AEntity j e)
  | CUpdate id st r => let '(m, e) := UpdateStatus now id st r m in (m, ADone e)
  | CGet id => (m, AJob (GetJob id m))
  | CList f => (m, AJobs (inl (ListJobs f visited)))
  | CRecoverable => (m, AJobs (inl (GetRecoverableJobs visited)))
  | CDelete id => let '(m, e) := DeleteJob id m in (m, ADone e)
  end.

(** What MemoryJobStore may answer: [Range] visits the entries in any order. *)
Inductive mem_trace : MemoryJobStore → list (Z * Cmd) → MemoryJobStore → list Answer → Prop :=
| mem_trace_nil m : mem_trace m [] m []
| mem_trace_cons m now c visited m' a cs m'' answers :
    visited ≡ₚ (map_to_list m).*2 → mem_do now visited c m = (m', a) →
    mem_trace m' cs m'' answers → mem_trace m ((now, c) :: cs) m'' (a :: answers).

(** The answers agree, up to the error of an UpdateStatus that finds no job:
    SQLiteJobStore wraps ErrJobNotFound, MemoryJobStore has a text of its own. *)
Definition agree (c : Cmd) (sql mem : Answer) : Prop :=
  sql = mem ∨
  ∃ id st r, c = CUpdate id st r ∧ sql = ADone (Some (ErrWrap ("job " +:+ id) ErrJobNotFound)) ∧
             mem = ADone (Some (ErrText ("job " +:+ id +:+ " not found"))).

Section equivalence.
Context {D : Type} `{!DBTX D} (jobs : D → list Job) (before : relation Z).
Context `{!SqlLaws D jobs before} (healthy : D → Prop) `{!SqlHealthy D jobs healthy}.

Definition agrees_with_memory (now : Z) (c : Cmd) (d d' : D) (a : Answer) : Prop :=
  ∃ visited m', visited ≡ₚ (map_to_list (contents jobs d)).*2 ∧
    mem_do now visited c (contents jobs d) = (contents jobs d', m') ∧ agree c a m'.

(** Commands whose memory version lists nothing *)
Lemma agrees_eq now c d d' a :
  (∀ visited, mem_do now visited c (contents jobs d) = (contents jobs d', a)) →
  agrees_with_memory now c d d' a.
Proof. intros E. eexists _, a. split_and!; [reflexivity|apply E|by left]. Qed.

Lemma exec_healthy text vs d d' r :
  healthy d → ExecContext text vs d = (d', r) → is_Some (effect text vs (jobs d)) →
  healthy d' ∧ ∃ res, r = inl res.
Proof.
  intros Hh E [x Hx]. destruct (healthy_exec _ _ _ _ _ Hh E) as [Hh' He].
  split; [done|]. destruct r as [res|e]; [by eexists|].
  destruct (He e eq_refl) as [Hn _]. by rewrite Hn in Hx.
Qed.

Lemma create_healthy now job d d' a :
  healthy d → sql_do now (CCreate job) d = (d', a) →
  healthy d' ∧ agrees_with_memory now (CCreate job) d d' a.
Proof.
  intros Hh. cbn [sql_do].
  destruct (SQLite.CreateJob now job d) as [[j d1] e] eqn:E. intros [= <- <-].
  pose proof (create_spec _ _ _ _ _ _ _ _ E) as Hs. revert E. unfold SQLite.CreateJob.
  case_decide as Hne.
  { intros [= <- <- <-]. split; [done|]. apply agrees_eq. intros v. simpl. unfold CreateJob.
    by rewrite decide_True. }
  cbn zeta. unfold jobdb.InsertJob, jobdb.err_of.
  destruct (ExecContext _ _ d) as [d2 r2] eqn:E2. cbn [fst snd].
  destruct (healthy_exec _ _ _ _ _ Hh E2) as [Hh' He].
  destruct r2 as [res|e2]; intros [= <- <- <-]; (split; [done|]); apply agrees_eq; intros v;
    cbn [mem_do]; unfold CreateJob; rewrite decide_False by done; cbn zeta;
    change (ID (stamp now now job)) with (ID job).
  - destruct Hs as (_ & -> & -> & ->). by rewrite cloneJobEntity_id.
  - destruct (He e2 eq_refl) as [Hn Hu]. destruct Hs as [Hc Hd]. rewrite Hu in Hd |- *.
    destruct (Hd eq_refl) as [x ->]. by rewrite Hc.
Qed.

Lemma save_healthy now job d d' a :
  healthy d → sql_do now (CSave job) d = (d', a) →
  healthy d' ∧ agrees_with_memory now (CSave job) d d' a.
Proof.
  intros Hh. cbn [sql_do].
  destruct (SQLite.SaveJob now job d) as [[j d1] e] eqn:E. intros [= <- <-].
  pose proof (save_spec _ _ _ _ _ _ _ _ E) as Hs. revert E. unfold SQLite.SaveJob.
  case_decide as Hne.
  { intros [= <- <- <-]. split; [done|]. apply agrees_eq. intros v. simpl. unfold SaveJob.
    by rewrite decide_True. }
  cbn zeta. unfold jobdb.UpsertJob, jobdb.err_of.
  destruct (ExecContext _ _ d) as [d2 r2] eqn:E2. cbn [fst snd].
  destruct (exec_healthy _ _ _ _ _ Hh E2) as (Hh' & res & ->); [rewrite effect_upsert; by eexists|].
  intros [= <- <- <-]. split; [done|]. apply agrees_eq. intros v. cbn [mem_do]. unfold SaveJob.
  rewrite decide_False by done. destruct Hs as (_ & -> & ->). cbn zeta. by rewrite cloneJobEntity_id.
Qed.

Lemma update_healthy now id st r d d' a :
  healthy d → sql_do now (CUpdate id st r) d = (d', a) →
  healthy d' ∧ agrees_with_memory now (CUpdate id st r) d d' a.
Proof.
  intros Hh. cbn [sql_do].
  destruct (SQLite.UpdateStatus now id st r d) as [d1 e] eqn:E. intros [= <- <-].
  pose proof (update_spec _ _ _ _ _ _ _ _ _ E) as Hs. revert E.
  unfold SQLite.UpdateStatus, jobdb.UpdateJobStatus. simpl.
  destruct (ExecContext _ _ d) as [d2 r2] eqn:E2.
  destruct (exec_healthy _ _ _ _ _ Hh E2) as (Hh' & res & ->); [rewrite effect_update; by eexists|].
  destruct (exec_inl _ _ _ _ _ E2) as (t & n & Ef & _ & ->). rewrite effect_update in Ef.
  simplify_eq. rewrite tbl_count. change (tbl (jobs d)) with (contents jobs d).
  destruct (contents jobs d !! id) as [j|] eqn:Ej; simpl; intros [= <- <-]; (split; [done|]).
  - apply agrees_eq. intros v. simpl. unfold UpdateStatus. rewrite Ej.
    destruct Hs as (j' & Hj' & ->). by simplify_eq.
  - destruct Hs as (Hc & _). eexists _, _. split_and!; [reflexivity| |].
    + simpl. unfold UpdateStatus. rewrite Ej, Hc. reflexivity.
    + right. by eexists _, _, _.
Qed.

Lemma delete_healthy now id d d' a :
  healthy d → sql_do now (CDelete id) d = (d', a) →
  healthy d' ∧ agrees_with_memory now (CDelete id) d d' a.
Proof.
  intros Hh. cbn [sql_do].
  destruct (SQLite.DeleteJob id d) as [d1 e] eqn:E. intros [= <- <-].
  pose proof (delete_spec _ _ _ _ _ _ E) as Hs. revert E.
  unfold SQLite.DeleteJob, jobdb.DeleteJob, jobdb.err_of.
  destruct (ExecContext _ _ d) as [d2 r2] eqn:E2. cbn [fst snd].
  destruct (exec_healthy _ _ _ _ _ Hh E2) as (Hh' & res & ->); [rewrite effect_delete; by eexists|].
  intros [= <- <-]. split; [done|]. apply agrees_eq. intros v. simpl. by rewrite Hs.
Qed.

Lemma listing_healthy now f text vs d d' r c :
  healthy d → asks f text vs →
  SQLite.to_entities (jobdb.many (QueryContext text vs d)) = (d', r) →
  (∀ visited, mem_do now visited c (contents jobs d) =
    (contents jobs d, AJobs (inl (ListJobs f visited)))) →
  healthy d' ∧ agrees_with_memory now c d d' (AJobs r).
Proof.
  intros Hh Ha E Hm. destruct (asks_healthy jobs before healthy _ _ _ _ _ _ Hh Ha E) as (Hh' & js & ->).
  split; [done|]. destruct (asks_spec jobs before _ _ _ _ _ _ Ha E) as (Hc & Hjs).
  destruct (Hjs js eq_refl) as (_ & visited & Hv & ->).
  exists visited, (AJobs (inl (ListJobs f visited))). rewrite Hc. split_and!; [done|apply Hm|by left].
Qed.

Lemma do_healthy now c d d' a :
  healthy d → sql_do now c d = (d', a) → healthy d' ∧ agrees_with_memory now c d d' a.
Proof.
  destruct c as [job|job|id st r|id|f| |id]; intros Hh E;
    [by apply create_healthy|by apply save_healthy|by apply update_healthy| | | |by apply delete_healthy];
    cbn [sql_do] in E.
  - destruct (SQLite.GetJob id d) as [d1 r1] eqn:E1. simplify_eq.
    destruct (get_healthy jobs before healthy _ _ _ _ Hh E1) as [Hh' ->]. split; [done|].
    apply agrees_eq. intros v. simpl. destruct (get_spec jobs before _ _ _ _ E1) as [-> _].
    unfold GetJob. destruct (contents jobs d !! id); [by rewrite cloneJobEntity_id|done].
  - destruct (SQLite.ListJobs f d) as [d1 r1] eqn:E1. simplify_eq.
    destruct (list_asks f) as (text & vs & E & Ha). rewrite E in E1.
    by eapply listing_healthy.
  - destruct (SQLite.GetRecoverableJobs d) as [d1 r1] eqn:E1. simplify_eq.
    by eapply (listing_healthy _ pending); [|apply pending_asks|exact E1|].
Qed.
End equivalence.

(** ** A database that keeps the laws

    The table, and the statements that will fail for a reason of their own
    (the code of each failure). *)

Module Engine.
Record Engine := MkEngine { rows : list Job; faults : list (option Z) }.

Definition table (d : Engine) : list Job := if decide (NoDup (r_ID <$> rows d)) then rows d else [].
(** SQLITE_ERROR where the injected code would claim a constraint *)
Definition fault_code (code : Z) : Z := if (Z.land code 255 =? 19)%Z then 1 else code.
Definition SQLITE_CONSTRAINT_PRIMARYKEY : Z := 1555.

Definition fault (d : Engine) : Engine * option Error :=
  match faults d with
  | [] => (d, None)
  | c :: fs => (MkEngine (rows d) fs, (λ c, ErrSqlite (fault_code c) "injected") <$> c)
  end.

Definition exec (text : string) (vs : list Value) (d : Engine) : Engine * (SqlResult + Error) :=
  let '(d', e) := fault d in
  match e with
  | Some e => (d', inr e)
  | None =>
      match effect text vs (table d) with
      | Some (t, n) => (MkEngine t (faults d'), inl (MkSqlResult (inl n)))
      | None => (d', inr (ErrSqlite SQLITE_CONSTRAINT_PRIMARYKEY "UNIQUE constraint failed: jobs.id"))
      end
  end.

Definition older : relation Job := λ i j, (r_CreatedAt i <= r_CreatedAt j)%Z.
#[global] Instance older_dec i j : Decision (older i j).
Proof. unfold older. apply _. Defined.
#[global] Instance older_trans : Transitive older.
Proof. unfold older. intros ? ? ?. lia. Qed.
#[global] Instance older_total : Total older.
Proof. unfold older. intros ? ?. lia. Qed.

Definition query (text : string) (vs : list Value) (d : Engine) : Engine * (Rows + Error) :=
  let '(d', e) := fault d in
  match e with
  | Some e => (d', inr e)
  | None =>
      match selection text vs with
      | Some sel =>
          (d', inl (MkRows (jobdb.bind_job <$>
             sql_page (sel_limit sel) (sel_offset sel)
               (merge_sort older (filter (λ j, sel_where sel j = true) (table d)))) None None))
      | None => (d', inr (ErrSqlite 1 "SQL logic error"))
      end
  end.

#[global] Instance engine_dbtx : DBTX Engine := { ExecContext := exec; QueryContext := query }.

Lemma table_fault d d' e : fault d = (d', e) → table d' = table d.
Proof. unfold fault. destruct (faults d); by intros [= <- <-]. Qed.

Lemma fault_driver d d' e :
  fault d = (d', Some e) → driver_error e ∧ SQLite.isUniqueConstraintError e = false.
Proof.
  unfold fault. destruct (faults d) as [|[c|] fs]; intros [= <- <-]. split; [done|].
  unfold SQLite.isUniqueConstraintError, fault_code, SQLite.SQLITE_CONSTRAINT. simpl.
  by destruct (Z.land c 255 =? 19)%Z eqn:Ec.
Qed.

Lemma table_NoDup d : NoDup (r_ID <$> table d).
Proof. unfold table. case_decide; [done|constructor]. Qed.

Lemma without_NoDup id t : NoDup (r_ID <$> t) → NoDup (r_ID <$> without id t).
Proof. intros H. eapply sublist_NoDup; [exact H|]. apply (fmap_sublist r_ID), sublist_filter. Qed.

Lemma without_keys id t : id ∉ r_ID <$> without id t.
Proof. intros [j [-> [H _]%list_elem_of_filter]]%list_elem_of_fmap. done. Qed.

Lemma snoc_NoDup t j : NoDup (r_ID <$> t) → r_ID j ∉ r_ID <$> t → NoDup (r_ID <$> t ++ [j]).
Proof.
  intros Hnd Hn. rewrite fmap_app. apply NoDup_app. split_and!; [done| |apply NoDup_singleton].
  intros x Hx ->%list_elem_of_singleton. done.
Qed.

Lemma effect_NoDup text vs t t' n :
  NoDup (r_ID <$> t) → effect text vs t = Some (t', n) → NoDup (r_ID <$> t').
Proof.
  intros Hnd. unfold effect. repeat case_decide; [| | | |by intros [= <- _]|done].
  - destruct (row_of vs); simpl; [|done]. case_decide; intros [= <- _]. by apply snoc_NoDup.
  - destruct (row_of vs); simpl; [|done]. intros [= <- _].
    apply snoc_NoDup; [by apply without_NoDup|apply without_keys].
  - destruct vs as [|[] [|[] [|[] [|[] []]]]]; try done. intros [= <- _]. by rewrite set_status_keys.
  - destruct vs as [|[] []]; try done. intros [= <- _]. by apply without_NoDup.
Qed.

#[global] Instance engine_laws : SqlLaws Engine table Z.le.
Proof.
  split.
  - apply table_NoDup.
  - intros text vs d d' res. simpl. unfold exec. destruct (fault d) as [d1 [e|]] eqn:Ef; [done|].
    destruct (effect text vs (table d)) as [[t n]|] eqn:Et; [|done]. intros [= <- <-].
    exists t, n. split_and!; [done| |done]. unfold table at 1. simpl.
    rewrite decide_True; [done|]. eapply effect_NoDup; [apply table_NoDup|done].
  - intros text vs d d' e. simpl. unfold exec. destruct (fault d) as [d1 [e1|]] eqn:Ef.
    + intros [= <- <-]. apply fault_driver in Ef as Hd. destruct Hd as [Hd Hu].
      split_and!; [by eapply table_fault|done|by rewrite Hu].
    + destruct (effect text vs (table d)) as [[t n]|] eqn:Et; [done|]. intros [= <- <-].
      split_and!; [by eapply table_fault|done|done].
  - intros text vs d d' r. simpl. unfold query. destruct (fault d) as [d1 e] eqn:Ef.
    apply table_fault in Ef. destruct e; [by intros [= <- _]|].
    destruct (selection text vs); by intros [= <- _].
  - intros text vs d d' rs. simpl. unfold query. destruct (fault d) as [d1 [e|]] eqn:Ef; [done|].
    destruct (selection text vs) as [sel|]; [|done]. intros [= <- <-].
    eexists _, _. split_and!; [reflexivity|apply (merge_sort_Permutation older)| |done|done].
    apply (StronglySorted_merge_sort older).
Qed.

#[global] Instance engine_healthy : SqlHealthy Engine table (λ d, faults d = []).
Proof.
  split.
  - intros text vs [t fs] d' r Hf. simpl in Hf. subst fs. simpl. unfold exec, fault. simpl.
    destruct (effect text vs _) as [[t' n]|] eqn:Et; intros [= <- <-]; (split; [done|]).
    + done.
    + by intros e [= <-].
  - intros text vs [t fs] d' r Hf. simpl in Hf. subst fs. simpl. unfold query, fault. simpl.
    destruct (selection text vs); intros [= <- <-] [x Hx]; [|done]. split; [done|]. by eexists.
Qed.

Definition empty : Engine := MkEngine [] [].
End Engine.

(** ** Theorems *)

Section theorems.
Context {D : Type} `{!DBTX D} (jobs : D → list Job) (before : relation Z).
Context `{!SqlLaws D jobs before}.

(** C21. On a healthy database SQLiteJobStore is MemoryJobStore: every sequence of store
    commands is answered as MemoryJobStore may answer it (for some visiting order of its map),
    errors included, and leaves the table with the same jobs; only the error text of an
    UpdateStatus that finds no job differs. (A nil and an empty result slice of a listing are
    the same value.) *)
Theorem sqlite_memory_equiv (healthy : D → Prop) `{!SqlHealthy D jobs healthy} cs d d' answers :
  healthy d → sql_run cs d = (d', answers) →
  ∃ answers', mem_trace (contents jobs d) cs (contents jobs d') answers' ∧
              Forall3 agree (cs.*2) answers answers'.
Proof.
  revert d answers. induction cs as [|[now c] cs IH]; intros d answers Hh; cbn [sql_run].
  - intros [= <- <-]. exists []. split; constructor.
  - destruct (sql_do now c d) as [d1 a] eqn:E1. destruct (sql_run cs d1) as [d2 as2] eqn:E2.
    intros [= <- <-].
    destruct (do_healthy jobs before healthy _ _ _ _ _ Hh E1) as (Hh1 & visited & a' & Hv & Hm & Ha).
    destruct (IH _ _ Hh1 E2) as (as' & Ht & Hf). exists (a' :: as'). split.
    + by eapply mem_trace_cons.
    + by constructor.
Qed.

(** C30. A job created in SQLiteJobStore is read back by GetJob as it was stamped, field by
    field through the parameters of the insert and the scan of the row: whenever GetJob
    returns a job it is this one, on a healthy database it does return it, and the caller's
    identifier, type, arguments, priority and status are kept. *)
Theorem sqlite_roundtrip now job d job' d1 id d2 r :
  SQLite.CreateJob now job d = (job', d1, None) → id = ID job →
  SQLite.GetJob id d1 = (d2, r) →
  (∀ j, r = inl j → j = job') ∧
  (∀ healthy, SqlHealthy D jobs healthy → healthy d1 → r = inl job') ∧
  payload job' = payload job ∧ status_of job' = status_of job ∧ contents jobs d2 = contents jobs d1.
Proof.
  intros Hc -> Hg. destruct (create_spec jobs before _ _ _ _ _ _ Hc) as (_ & _ & -> & E).
  destruct (get_spec jobs before _ _ _ _ Hg) as [E2 Hj]. split_and!; [| |done..].
  - intros j Hr. specialize (Hj j Hr). rewrite E, lookup_insert_eq in Hj. by injection Hj.
  - intros healthy Hc' Hh. destruct (get_healthy jobs before healthy _ _ _ _ Hh Hg) as [_ ->].
    by rewrite E, lookup_insert_eq.
Qed.

Theorem sqlite_create_conflict (healthy : D → Prop) `{!SqlHealthy D jobs healthy} now job d job' d' e :
  SQLite.CreateJob now job d = (job', d', e) → ID job ≠ "" →
  (is_Some (contents jobs d !! ID job) → is_Some e ∧ contents jobs d' = contents jobs d) ∧
  (e = Some ErrJobAlreadyExists → is_Some (contents jobs d !! ID job)) ∧
  (healthy d → e = match contents jobs d !! ID job with
                   | Some _ => Some ErrJobAlreadyExists
                   | None => None
                   end).
Proof.
  intros Hc Hne. pose proof (create_spec jobs before _ _ _ _ _ _ Hc) as Hs. split_and!.
  - intros [x Hx]. destruct e as [e|]; [by destruct Hs|]. destruct Hs as (_ & Hn & _).
    by rewrite Hn in Hx.
  - intros ->. by destruct Hs as [_ Hs]; apply Hs.
  - intros Hh. destruct (create_healthy jobs before healthy now job d d' (AEntity job' e) Hh)
      as (_ & v & a & _ & Hm & [<-|(? & ? & ? & ? & _)]); [cbn [sql_do]; by rewrite Hc| |done].
    revert Hm. cbn [mem_do]. unfold CreateJob. rewrite decide_False by done. cbn zeta.
    change (ID (stamp now now job)) with (ID job).
    by destruct (contents jobs d !! ID job); intros [= _ _ <-].
Qed.
End theorems.

(** ** Concrete runs *)

Module SqliteDemo.
Definition a_job (id : string) : JobEntity := MkJobEntity id "email" [] JobStatusPending "" 1 0 0.
Definition cmds : list (Z * Cmd) :=
  [(5%Z, CCreate (a_job "b")); (6%Z, CCreate (a_job "a")); (7%Z, CCreate (a_job "b"));
   (8%Z, CUpdate "a" JobStatusRunning ""); (9%Z, CUpdate "c" JobStatusRunning "");
   (10%Z, CGet "a"); (11%Z, CList (MkJobFilter "" "email" 1 1)); (12%Z, CRecoverable);
   (13%Z, CDelete "b"); (14%Z, CSave (a_job "c"))].
Definition final : Engine.Engine * list Answer := sql_run cmds Engine.empty.
(** The third statement fails with SQLITE_BUSY. *)
Definition flaky : Engine.Engine := Engine.MkEngine [] [None; None; Some 5%Z].
Definition after_b : JobEntity * Engine.Engine * option Error :=
  SQLite.CreateJob 5 (a_job "b") flaky.
End SqliteDemo.
Import SqliteDemo.

Example cmds_answers :
  nth_error final.2 2 = Some (AEntity (stamp 7 7 (a_job "b")) (Some ErrJobAlreadyExists)) ∧
  nth_error final.2 4 = Some (ADone (Some (ErrWrap "job c" ErrJobNotFound))) ∧
  nth_error final.2 6 = Some (AJobs (inl [MkJobEntity "a" "email" [] "RUNNING" "" 1 6 8])) ∧
  nth_error final.2 7 = Some (AJobs (inl [stamp 5 5 (a_job "b")])).
Proof. vm_compute. done. Qed.

Lemma sqlite_memory_equiv_witness :
  ∃ answers', mem_trace ∅ cmds (contents Engine.table final.1) answers' ∧
              Forall3 agree (cmds.*2) final.2 answers'.
Proof.
  apply (sqlite_memory_equiv Engine.table Z.le (λ d, Engine.faults d = [])
           cmds Engine.empty final.1 final.2); vm_compute; reflexivity.
Defined.

Lemma sqlite_roundtrip_witness :
  (SQLite.GetJob "b" after_b.1.2).2 = inl (stamp 5 5 (a_job "b")) ∧
  (∀ j, (SQLite.GetJob "b" after_b.1.2).2 = inl j → j = after_b.1.1).
Proof.
  split; [vm_compute; reflexivity|].
  apply (sqlite_roundtrip Engine.table Z.le 5 (a_job "b") flaky after_b.1.1 after_b.1.2 "b"
    (SQLite.GetJob "b" after_b.1.2).1 (SQLite.GetJob "b" after_b.1.2).2); vm_compute; reflexivity.
Defined.

Lemma sqlite_create_conflict_witness :
  let r := SQLite.CreateJob 7 (a_job "b") (Engine.MkEngine (Engine.rows after_b.1.2) []) in
  r.2 = Some ErrJobAlreadyExists.
Proof.
  cbv zeta. set (d := Engine.MkEngine (Engine.rows after_b.1.2) []).
  set (r := SQLite.CreateJob 7 (a_job "b") d).
  destruct (sqlite_create_conflict Engine.table Z.le (λ d, Engine.faults d = []) 7 (a_job "b") d
    r.1.1 r.1.2 r.2) as (_ & _ & H); [vm_compute; reflexivity|vm_compute; discriminate|].
  rewrite H by reflexivity. vm_compute. reflexivity.
Defined.
