(* ===== verification/Retry.v ===== *)
(** * Retry policy and retry loop
    (job/logger.go [RetryPolicy]; job/job_manager.go [retryIOOperation])

    [float64] is IEEE binary64, executed by the Standard Library's [SpecFloat].
    A conversion to [int64] truncates; out of range its result is
    implementation-specific in Go, a parameter here. *)

From S2P Require Import Prelude JobStore.
From Stdlib Require Import SpecFloat.

(** ** float64 *)

Definition float64_of_int (z : Z) : spec_float := binary_normalize 53 1024 z 0 false.
Definition fmul64 (x y : spec_float) : spec_float := SFmul 53 1024 x y.

(** Truncation towards zero; [None]: infinite or not a number. *)
Definition trunc (x : spec_float) : option Z :=
  match x with
  | S754_zero _ => Some 0%Z
  | S754_finite s m e =>
      let a := (if (0 <=? e)%Z then Z.pos m * 2 ^ e else Z.pos m / 2 ^ (- e))%Z in
      Some (if s then - a else a)%Z
  | _ => None
  end.

(** ** RetryPolicy *)

Definition Duration := Z.
Definition Millisecond : Duration := 1000000%Z.
Definition Second : Duration := 1000000000%Z.

Record RetryPolicy := MkRetryPolicy {
  MaxRetries : Z;
  InitialDelay : Duration;
  MaxDelay : Duration;
  BackoffRatio : spec_float;
}.

Definition DefaultRetryPolicy : RetryPolicy :=
  MkRetryPolicy 3 (100 * Millisecond)%Z (5 * Second)%Z (float64_of_int 2).
Definition NoRetry : RetryPolicy := MkRetryPolicy 0 0%Z 0%Z (float64_of_int 1).

Section retry.
Context (int64_out_of_range : spec_float → Z).

Definition Duration_of_float (x : spec_float) : Duration :=
  match trunc x with
  | Some z => if decide (- 2 ^ 63 <= z < 2 ^ 63)%Z then z else int64_out_of_range x
  | None => int64_out_of_range x
  end.

(** [for i := 0; i < attempt; i++ { delay *= p.BackoffRatio }] *)
Fixpoint backoff (ratio delay : spec_float) (attempt : nat) : spec_float :=
  match attempt with O => delay | S n => backoff ratio (fmul64 delay ratio) n end.

Definition calculateDelay (p : RetryPolicy) (attempt : Z) : Duration :=
  if (InitialDelay p =? 0)%Z then 0%Z else
  let delay := backoff (BackoffRatio p) (float64_of_int (InitialDelay p)) (Z.to_nat attempt) in
  let delay := if SFltb (float64_of_int (MaxDelay p)) delay
               then float64_of_int (MaxDelay p) else delay in
  Duration_of_float delay.

(** ** retryIOOperation

    Where the loop is.  A step is told what [ctx.Err()] is at that moment and,
    in the [select], whether the timer has fired. *)

Inductive Retry :=
| RTry (attempt : Z) (lastErr : option Error)
| RWait (attempt : Z) (lastErr : option Error)
| RDone (err : option Error) (gave_up : bool).  (** [gave_up]: errorHandler runs *)

Definition retry_start : Retry := RTry 0 None.

Definition retry_step {W} (p : RetryPolicy) (fn : W → W * option Error)
  (ctx_err : option Error) (elapsed : bool) (pc : Retry) (w : W)
  : option (Retry * W * list (option Error)) :=
  match pc with
  | RTry attempt lastErr =>
      if (attempt <=? MaxRetries p)%Z then
        match ctx_err with
        | Some e => Some (RDone (Some e) false, w, [])
        | None =>
            let '(w, r) := fn w in
            Some (match r with
                  | None => RDone None false
                  | Some e =>
                      if Is e ErrJobAlreadyExists then RDone (Some e) false
                      else if (attempt <? MaxRetries p)%Z && (0 <? calculateDelay p attempt)%Z
                      then RWait attempt (Some e)
                      else RTry (wrap_int64 (attempt + 1)) (Some e)
                  end, w, [r])
        end
      else Some (RDone lastErr true, w, [])
  | RWait attempt lastErr =>
      if elapsed then Some (RTry (wrap_int64 (attempt + 1)) lastErr, w, [])
      else match ctx_err with
           | Some e => Some (RDone (Some e) false, w, [])
           | None => None
           end
  | RDone _ _ => None
  end.

(** The loop as a machine: the operation's state and what its calls returned. *)
Record Loop (W : Type) := MkLoop { pc : Retry; world : W; results : list (option Error) }.
Arguments MkLoop {W}.
Arguments pc {W}.
Arguments world {W}.
Arguments results {W}.

Definition loop_start {W} (w : W) : Loop W := MkLoop retry_start w [].

Definition loop_step {W} (p : RetryPolicy) (fn : W → W * option Error)
  (l : option Error * bool) (s : Loop W) : option (Loop W) :=
  '(pc', w, r) ← retry_step p fn l.1 l.2 (pc s) (world s);
  Some (MkLoop pc' w (results s ++ r)).

(** How many steps are left at most. *)
Definition retry_measure (p : RetryPolicy) (pc : Retry) : Z :=
  match pc with
  | RTry attempt _ => 2 * Z.max 0 (MaxRetries p + 1 - attempt) + 1
  | RWait attempt _ => 2 * Z.max 0 (MaxRetries p - attempt) + 2
  | RDone _ _ => 0
  end.
End retry.
Arguments Loop W : clear implicits.
Arguments MkLoop {W}.
Arguments pc {W}.
Arguments world {W}.
Arguments results {W}.

(** ** Lemmas *)

Section retry_lemmas.
Context (oor : spec_float → Z) {W : Type} (p : RetryPolicy) (fn : W → W * option Error).
Hypothesis Hmax : (MaxRetries p < 2 ^ 63 - 1)%Z.
Notation step := (loop_step oor p fn).

(** A failure that is retried. *)
Definition transient (r : option Error) : Prop :=
  ∃ e, r = Some e ∧ Is e ErrJobAlreadyExists = false.

(** The error the last call returned. *)
Definition last_error (l : list (option Error)) : option Error := default None (last l).

Definition loop_inv (s : Loop W) : Prop :=
  match pc s with
  | RTry attempt lastErr =>
      attempt = Z.of_nat (length (results s)) ∧ Forall transient (results s) ∧
      lastErr = last_error (results s) ∧ (attempt <= Z.max 0 (MaxRetries p + 1))%Z
  | RWait attempt lastErr =>
      (attempt + 1 = Z.of_nat (length (results s)))%Z ∧ Forall transient (results s) ∧
      lastErr = last_error (results s) ∧ (0 <= attempt < MaxRetries p)%Z
  | RDone err gave_up =>
      (Z.of_nat (length (results s)) <= Z.max 0 (MaxRetries p + 1))%Z ∧
      if gave_up then
        err = last_error (results s) ∧ Forall transient (results s) ∧
        Z.of_nat (length (results s)) = Z.max 0 (MaxRetries p + 1)
      else
        match err with
        | None => ∃ l, results s = l ++ [None] ∧ Forall transient l
        | Some e => (∃ l, results s = l ++ [Some e] ∧ Forall transient l ∧
                          Is e ErrJobAlreadyExists = true) ∨ Forall transient (results s)
        end
  end.

Lemma last_error_snoc l r : last_error (l ++ [r]) = r.
Proof. unfold last_error. by rewrite last_snoc. Qed.

Lemma transient_snoc l e :
  Forall transient l → Is e ErrJobAlreadyExists = false → Forall transient (l ++ [Some e]).
Proof. intros H1 H2. apply Forall_app. split; [done|]. apply Forall_singleton. by exists e. Qed.

Lemma loop_try_inv s s' ctx_err elapsed attempt lastErr :
  loop_inv s → pc s = RTry attempt lastErr → step (ctx_err, elapsed) s = Some s' → loop_inv s'.
Proof.
  unfold loop_inv, loop_step. intros Hi E0 E1. rewrite E0 in Hi, E1.
  destruct Hi as (Ha & Hf & Hl & Hle). cbn [retry_step fst snd] in E1.
  destruct (Z.leb_spec attempt (MaxRetries p)) as [Hm|Hm].
  - destruct ctx_err as [e|].
    { simplify_eq/=. rewrite app_nil_r. split; [lia|]. by right. }
    destruct (fn (world s)) as [w [e|]] eqn:Ef; cbn [mbind option_bind] in E1; simplify_eq; cbn [pc results].
    + destruct (Is e ErrJobAlreadyExists) eqn:Ee.
      { rewrite length_app. simpl. split; [lia|]. left. by eexists. }
      pose proof (transient_snoc _ e Hf Ee) as Hf'.
      assert (Hn : Z.of_nat (length (results s ++ [Some e])) = (Z.of_nat (length (results s)) + 1)%Z)
        by (rewrite length_app; simpl; lia).
      destruct (Z.ltb_spec (Z.of_nat (length (results s))) (MaxRetries p)); cbn [andb].
      * destruct (0 <? _)%Z; rewrite last_error_snoc, ?wrap_int64_id by lia; split_and!; try done; lia.
      * rewrite last_error_snoc, wrap_int64_id by lia. split_and!; try done; lia.
    + rewrite length_app. simpl. split; [lia|]. by eexists.
  - simplify_eq/=. rewrite app_nil_r. split_and!; try done; lia.
Qed.

Lemma loop_inv_step l s s' : loop_inv s → step l s = Some s' → loop_inv s'.
Proof.
  destruct l as [ctx_err elapsed]. intros Hi E1.
  destruct (pc s) as [attempt lastErr|attempt lastErr|err g] eqn:E0.
  - by eapply loop_try_inv.
  - unfold loop_inv, loop_step in *. rewrite E0 in Hi, E1.
    destruct Hi as (Ha & Hf & Hl & Hle). cbn [retry_step fst snd] in E1.
    destruct elapsed; [|destruct ctx_err]; simplify_eq/=; rewrite app_nil_r.
    + rewrite wrap_int64_id by lia. split_and!; try done; lia.
    + split; [lia|]. by right.
  - unfold loop_step in E1. by rewrite E0 in E1.
Qed.

Lemma loop_reach w s : reachable step (loop_start w) s → loop_inv s.
Proof.
  apply (reachable_invariant step loop_inv); [|intros; eauto using loop_inv_step].
  unfold loop_inv. simpl. split_and!; try done; lia.
Qed.

Lemma loop_measure l s s' :
  loop_inv s → step l s = Some s' →
  (0 <= retry_measure p (pc s') < retry_measure p (pc s))%Z.
Proof.
  destruct l as [ctx_err elapsed]. intros Hi E1. unfold loop_step in E1.
  destruct (pc s) as [attempt lastErr|attempt lastErr|err g] eqn:E0; cbn [retry_step fst snd] in E1; [..|done].
  - unfold loop_inv in Hi. rewrite E0 in Hi. destruct Hi as (Ha & _ & _ & Hle).
    destruct (Z.leb_spec attempt (MaxRetries p)) as [Hm|Hm]; [|simplify_eq/=; lia].
    destruct ctx_err as [e|]; [simplify_eq/=; lia|].
    destruct (fn (world s)) as [w [e|]]; cbn [mbind option_bind] in E1; simplify_eq; cbn [pc];
      [|simpl; lia].
    destruct (Is e ErrJobAlreadyExists); [simpl; lia|].
    destruct (_ && _); cbn [retry_measure]; [lia|]. rewrite wrap_int64_id by lia. lia.
  - unfold loop_inv in Hi. rewrite E0 in Hi. destruct Hi as (Ha & _ & _ & Hle).
    destruct elapsed; [|destruct ctx_err]; simplify_eq/=; [rewrite wrap_int64_id by lia|]; lia.
Qed.
End retry_lemmas.

(** What a client that drives the loop step by step needs of it. *)
Section retry_client.
Context (oor : spec_float → Z) {W : Type}.

(** With a sensible policy the loop never gives up without an error. *)
Definition retry_pc_ok (p : RetryPolicy) (pc : Retry) : Prop :=
  match pc with
  | RTry attempt lastErr =>
      (0 <= attempt <= MaxRetries p + 1)%Z ∧ ((0 < attempt)%Z → is_Some lastErr)
  | RWait attempt lastErr => (0 <= attempt < MaxRetries p)%Z ∧ is_Some lastErr
  | RDone err gave_up => gave_up = true → is_Some err
  end.

Lemma retry_pc_ok_start p : (0 <= MaxRetries p)%Z → retry_pc_ok p retry_start.
Proof. intros H. simpl. lia. Qed.

(** One step either calls the operation or leaves the world alone; it reports
    success exactly when the operation did. *)
Lemma retry_step_spec p (fn : W → W * option Error) ctx_err elapsed pc w pc' w' r :
  (0 <= MaxRetries p < 2 ^ 63 - 1)%Z → retry_pc_ok p pc →
  retry_step oor p fn ctx_err elapsed pc w = Some (pc', w', r) →
  retry_pc_ok p pc' ∧
  ((w' = w ∧ ∀ g, pc' ≠ RDone None g) ∨
   (∃ e, fn w = (w', e) ∧ ((∃ g, pc' = RDone None g) ↔ e = None))).
Proof.
  intros Hm Hok E0. destruct pc as [a e|a e|e g]; cbn [retry_step] in E0; [..|done].
  - destruct Hok as [Ha He]. destruct (Z.leb_spec a (MaxRetries p)) as [Hle|Hle].
    + destruct ctx_err as [ec|].
      { simplify_eq. split; [done|]. left. split; [done|]. by intros ?. }
      destruct (fn w) as [w1 [e1|]] eqn:Ef; simplify_eq; (split; [|right; eexists; split; [done|]]).
      * destruct (Is e1 ErrJobAlreadyExists); [done|].
        destruct (Z.ltb_spec a (MaxRetries p)); cbn [andb].
        -- destruct (_ <? _)%Z; simpl; [by eauto with lia|].
           rewrite wrap_int64_id by lia. split; [lia|by eexists].
        -- simpl. rewrite wrap_int64_id by lia. split; [lia|by eexists].
      * split; [|done]. intros [g Hg]. by repeat case_match.
      * done.
      * split; [done|]. by eexists.
    + simplify_eq. assert (is_Some e) as [e1 ->] by (apply He; lia).
      split; [by eexists|]. left. split; [done|]. by intros ?.
  - destruct Hok as [Ha [e1 ->]]. destruct elapsed; [|destruct ctx_err as [ec|]; [|done]]; simplify_eq.
    + split; [|left; split; [done|]; by intros ?]. simpl. rewrite wrap_int64_id by lia.
      split; [lia|by eexists].
    + split; [done|]. left. split; [done|]. by intros ?.
Qed.
End retry_client.

(** *** The delays of the default policy *)

Section default_delays.
Context (oor : spec_float → Z).

(** The delays as floats: after 1100 doublings the float is infinite and stays so. *)
Lemma backoff_snoc r x n : backoff r x (S n) = fmul64 (backoff r x n) r.
Proof. revert x. induction n as [|n IH]; intros x; [done|]. simpl in *. by rewrite IH. Qed.

Lemma backoff_infinite n :
  1100 ≤ n → backoff (float64_of_int 2) (float64_of_int (100 * Millisecond)%Z) n = S754_infinity false.
Proof.
  intros Hn. induction n as [|n IH]; [lia|].
  destruct (decide (S n = 1100)) as [->|Hne]; [vm_compute; reflexivity|].
  rewrite backoff_snoc, IH by lia. vm_compute. reflexivity.
Qed.

Definition default_delay (n : nat) : Z := Z.min (100 * Millisecond * 2 ^ Z.of_nat n)%Z (5 * Second)%Z.

Lemma default_delays_finite :
  forallb (λ n, calculateDelay oor DefaultRetryPolicy (Z.of_nat n) =? default_delay n)%Z
    (seq 0 1100) = true.
Proof. vm_compute. reflexivity. Qed.
End default_delays.

(** ** Theorems *)

Section retry_theorems.
Context (oor : spec_float → Z).

(** C35. What retryIOOperation returns (for MaxRetries < 2^63-1): at most max 0 (MaxRetries+1)
    calls, and none in its last step if that finds the context ended; nil only after a call
    that succeeded, all earlier ones having failed, or with no call at all if MaxRetries is
    negative; an error is either that of the last call, after the last attempt (and only then
    the error handler runs), or an already-exists error, at once, or the error the context has
    at that moment, and not that of an earlier call. *)
Theorem retry_result {W} p (fn : W → W * option Error) w s0 ctx_err elapsed s err gave_up :
  (MaxRetries p < 2 ^ 63 - 1)%Z →
  reachable (loop_step oor p fn) (loop_start w) s0 →
  loop_step oor p fn (ctx_err, elapsed) s0 = Some s → pc s = RDone err gave_up →
  (Z.of_nat (length (results s)) <= Z.max 0 (MaxRetries p + 1))%Z ∧
  (results s ≠ results s0 → ctx_err = None) ∧
  (gave_up = true → Forall transient (results s) ∧
     Z.of_nat (length (results s)) = Z.max 0 (MaxRetries p + 1)) ∧
  (err = None →
     (MaxRetries p < 0)%Z ∧ results s = [] ∨ ∃ l, results s = l ++ [None] ∧ Forall transient l) ∧
  (∀ e, err = Some e →
     gave_up = true ∧ last (results s) = Some (Some e) ∨
     gave_up = false ∧
       ((∃ l, results s = l ++ [Some e] ∧ Forall transient l ∧ Is e ErrJobAlreadyExists = true) ∨
        ctx_err = Some e ∧ results s = results s0 ∧ Forall transient (results s))).
Proof.
  intros Hm Hr E1 E0. pose proof (loop_reach oor p fn Hm w s0 Hr) as Hi.
  pose proof (loop_inv_step oor p fn Hm _ _ _ Hi E1) as Hi'.
  unfold loop_inv in Hi, Hi'. rewrite E0 in Hi'. destruct Hi' as [H1 H2].
  split; [done|]. unfold loop_step in E1.
  destruct (pc s0) as [a le|a le|e g] eqn:Ep; cbn [retry_step fst snd] in E1; [..|done].
  - destruct Hi as (Ha & Hf & Hl & Hle). destruct (Z.leb_spec a (MaxRetries p)) as [Hn|Hn].
    + destruct ctx_err as [e|].
      { simplify_eq/=. rewrite app_nil_r. split_and!; try done. intros e' [= <-]. right.
        split; [done|]. by right. }
      destruct (fn (world s0)) as [w1 [e|]]; cbn [mbind option_bind] in E1; simplify_eq; cbn [pc results] in *;
        [destruct (Is e ErrJobAlreadyExists) eqn:Ee; [|by repeat case_match]|]; simplify_eq.
      * split_and!; try done. intros e' [= <-]. right. split; [done|]. left. by eexists.
      * split_and!; try done. intros _. right. by eexists.
    + simplify_eq/=. rewrite app_nil_r in *. destruct H2 as (_ & _ & Hlen). split_and!; try done.
      * intros Hle0. destruct (last (results s0)) as [r|] eqn:Hlast.
        -- exfalso. unfold last_error in Hle0. rewrite Hlast in Hle0. simpl in Hle0. subst r.
           apply last_Some in Hlast as [l Hl]. rewrite Hl, Forall_app, Forall_singleton in Hf.
           by destruct Hf as [_ (e & [=] & _)].
        -- apply last_None in Hlast. rewrite Hlast in *. simpl in Hlen. left. split; [lia|done].
      * intros e He. left. split; [done|]. unfold last_error in He.
        destruct (last (results s0)); simpl in He; congruence.
  - destruct Hi as (Ha & Hf & Hl & Hle).
    destruct elapsed; [|destruct ctx_err as [e|]]; simplify_eq/=. rewrite app_nil_r. split_and!; try done.
    intros e' [= <-]. right. split; [done|]. by right.
Qed.

(** C36. For MaxRetries < 2^63-1 retryIOOperation ends: every run has at most 2*max(0,
    MaxRetries+1)+1 steps, and the loop is never stuck once its timer fires. (With MaxRetries
    = 2^63-1 the attempt counter wraps around.) *)
Theorem retry_terminates {W} p (fn : W → W * option Error) w ls s :
  (MaxRetries p < 2 ^ 63 - 1)%Z →
  run (loop_step oor p fn) ls (loop_start w) = Some s →
  (Z.of_nat (length ls) <= 2 * Z.max 0 (MaxRetries p + 1) + 1)%Z ∧
  ((∃ err gave_up, pc s = RDone err gave_up) ∨
   ∀ ctx_err, is_Some (loop_step oor p fn (ctx_err, true) s)).
Proof.
  intros Hm Hrun. split.
  - assert (∀ ls s0, loop_inv p s0 → run (loop_step oor p fn) ls s0 = Some s →
      (Z.of_nat (length ls) + retry_measure p (pc s) <= retry_measure p (pc s0))%Z) as Hgen.
    { clear Hrun ls. induction ls as [|l ls IH]; intros s0 Hi Hrun; simpl in *; [simplify_eq; lia|].
      destruct (loop_step oor p fn l s0) as [s1|] eqn:E1; [|done].
      pose proof (loop_inv_step oor p fn Hm _ _ _ Hi E1) as Hi1.
      pose proof (loop_measure oor p fn Hm _ _ _ Hi E1).
      specialize (IH s1 Hi1 Hrun). lia. }
    specialize (Hgen ls _ (loop_reach oor p fn Hm w _ (reach_refl _ _)) Hrun).
    change (retry_measure p (pc (loop_start w))) with
      (2 * Z.max 0 (MaxRetries p + 1 - 0) + 1)%Z in Hgen.
    assert (0 <= retry_measure p (pc s))%Z by (destruct (pc s); simpl; lia). lia.
  - unfold loop_step. destruct (pc s) as [a e|a e|e g]; [right|right|left; eauto];
      intros ctx_err; cbn [retry_step fst snd]; [|done].
    destruct (_ <=? _)%Z; [|done]. destruct ctx_err; [done|]. by destruct (fn (world s)).
Qed.

(** C37. The delays of the default policy, computed in float64 with rounding and overflow to
    infinity, are min(100ms * 2^n, 5s) for every attempt n. *)
Theorem retry_default_delays (n : nat) :
  calculateDelay oor DefaultRetryPolicy (Z.of_nat n) =
  Z.min (100 * Millisecond * 2 ^ Z.of_nat n)%Z (5 * Second)%Z.
Proof.
  destruct (decide (n < 1100)) as [Hn|Hn].
  - pose proof (default_delays_finite oor) as Hf. rewrite forallb_forall in Hf.
    specialize (Hf n). rewrite in_seq in Hf. apply Z.eqb_eq, Hf. lia.
  - unfold calculateDelay. cbn [InitialDelay DefaultRetryPolicy]. cbv zeta.
    rewrite Nat2Z.id. cbn [BackoffRatio DefaultRetryPolicy].
    rewrite backoff_infinite by lia. rewrite Z.min_r; [vm_compute; reflexivity|].
    assert (2 ^ 6 <= 2 ^ Z.of_nat n)%Z by (apply Z.pow_le_mono_r; lia).
    unfold Millisecond, Second. lia.
Qed.

(** With a negative MaxRetries the operation is not called at all and the loop
    reports success. *)
Theorem retry_negative_skips {W} p (fn : W → W * option Error) w :
  (MaxRetries p < 0)%Z →
  loop_step oor p fn (None, false) (loop_start w) = Some (MkLoop (RDone None true) w []).
Proof.
  intros Hm. unfold loop_step, loop_start, retry_start. cbn [pc world retry_step fst snd].
  destruct (Z.leb_spec 0 (MaxRetries p)); [lia|]. done.
Qed.

(** With MaxRetries at the largest int the attempt counter wraps around and the
    loop never gives up: it ends with a success, an already-exists error or the
    error of the context only. *)
Theorem retry_MaxInt64_never_gives_up {W} p (fn : W → W * option Error) w s err :
  MaxRetries p = (2 ^ 63 - 1)%Z →
  reachable (loop_step oor p fn) (loop_start w) s → pc s ≠ RDone err true.
Proof.
  intros Hm Hr.
  pose (ok := λ s : Loop W,
    match pc s with RTry a _ => (a <= MaxRetries p)%Z | RDone _ g => g = false | _ => True end).
  assert (ok s) as Hi; [|unfold ok in Hi; by intros E0; rewrite E0 in Hi].
  assert (∀ z, wrap_int64 z <= MaxRetries p)%Z as Hw.
  { intros z. rewrite Hm. unfold wrap_int64. pose proof (Z.mod_pos_bound (z + 2 ^ 63) (2 ^ 64)). lia. }
  revert Hr. apply (reachable_invariant (loop_step oor p fn) ok); [unfold ok; simpl; lia|].
  clear s. intros [c el] s s' Hi E0. unfold ok, loop_step in *.
  destruct (pc s) as [a le|a le|e g]; cbn [retry_step fst snd] in E0; [..|done].
  - destruct (Z.leb_spec a (MaxRetries p)); [|lia]. destruct c; [by simplify_eq/=|].
    destruct (fn (world s)) as [w1 [e|]]; cbn [mbind option_bind] in E0; simplify_eq; cbn [pc]; [|done].
    destruct (Is e ErrJobAlreadyExists); [done|]. by destruct (_ && _).
  - destruct el; [|destruct c]; by simplify_eq/=.
Qed.
End retry_theorems.

(** ** Concrete runs: an operation that fails [n] times *)

Module RetryDemo.
Definition flaky (n : nat) : nat * option Error :=
  match n with O => (O, None) | S n => (n, Some (ErrText "io")) end.
Definition oor (x : spec_float) : Z := (- 2 ^ 63)%Z.
Definition policy : RetryPolicy := DefaultRetryPolicy.
(** Attempts and waits alternate; the last step reports. *)
Definition go_to (n k : nat) : Loop nat :=
  default (loop_start n) (run (loop_step oor policy flaky) (replicate k (None, true)) (loop_start n)).
End RetryDemo.
Import RetryDemo.

Lemma retry_result_witness :
  let s := go_to 9 8 in
  pc s = RDone (Some (ErrText "io")) true ∧ Z.of_nat (length (results s)) = 4%Z.
Proof.
  split; [vm_compute; reflexivity|].
  destruct (retry_result oor policy flaky 9 (go_to 9 7) None true (go_to 9 8) (Some (ErrText "io")) true)
    as (_ & _ & Hg & _).
  - vm_compute. reflexivity.
  - apply (run_reachable _ (replicate 7 (None, true))). vm_compute. reflexivity.
  - vm_compute. reflexivity.
  - vm_compute. reflexivity.
  - exact (proj2 (Hg eq_refl)).
Defined.

(** The context ends during the second wait: its error is returned, not the
    operation's. *)
Example retry_context_error :
  (λ s, (pc s, results s)) <$> loop_step oor policy flaky (Some ErrCtx, false) (go_to 9 3) =
  Some (RDone (Some ErrCtx) false, replicate 2 (Some (ErrText "io"))).
Proof. vm_compute. reflexivity. Qed.

Lemma retry_terminates_witness :
  (Z.of_nat (length (replicate 5 (@None Error, true))) <= 9)%Z ∧ pc (go_to 2 5) = RDone None false.
Proof.
  split; [|vm_compute; reflexivity].
  apply (retry_terminates oor policy flaky 2 (replicate 5 (None, true)) (go_to 2 5)).
  - vm_compute. reflexivity.
  - vm_compute. reflexivity.
Defined.

Lemma retry_negative_skips_witness :
  loop_step oor (MkRetryPolicy (-1)%Z 0%Z 0%Z (float64_of_int 1)) flaky (None, false) (loop_start 5)
  = Some (MkLoop (RDone None true) 5 []).
Proof. apply retry_negative_skips. vm_compute. reflexivity. Defined.
