(* ===== verification/JobManager.v ===== *)
(** * JobManager (job/job_manager.go)

    The control runner and the I/O runner execute closures one at a time in
    the order they were posted; the execution runner starts its closures in any
    order, runs any number of them at once, and may lose those it has not
    started (it is shut down, or its pool is).  A closure that blocks (on a
    channel, on a retry delay) occupies its runner.  [PostTask] is two accesses
    of whoever posts, the test of the runner's flag and the append, and a
    runner's [Shutdown] is two, the flag and the clearing of the queue: posts
    and shutdowns interleave.  The store is any [JobStoreOps]; handlers are
    opaque, what one returns is chosen by the label.  A context is the chain of its cancellation scopes, the innermost
    first ([context.Background] is the empty chain).

    Channels are numbered; the job a submission's channel reports on is
    recorded beside the number. *)

From S2P Require Import Prelude JobStore Retry.

Inductive CtxId := CallerCtx (n : nat) | JobCtx (n : nat).
#[export] Instance CtxId_eq_dec : EqDecision CtxId.
Proof. solve_decision. Defined.
Definition Ctx := list CtxId.
Definition Background : Ctx := [].

Record Chan := MkChan { ch_num : nat; ch_job : option JobEntity }.
#[export] Instance Chan_eq_dec : EqDecision Chan.
Proof. solve_decision. Defined.

(** What was sent on a channel, the latest first. *)
Fixpoint lookup_chan (ch : Chan) (l : list (Chan * option Error)) : option (option Error) :=
  match l with
  | [] => None
  | (ch', e) :: l => if decide (ch' = ch) then Some e else lookup_chan ch l
  end.

(** [err.Error()] *)
Fixpoint error_text (e : Error) : string :=
  match e with
  | ErrText msg => msg
  | ErrJobAlreadyExists => "job already exists"
  | ErrJobNotFound => "job not found"
  | ErrCtx => "context canceled"
  | ErrNoRows => "sql: no rows in result set"
  | ErrSqlite _ msg => msg
  | ErrWrap msg e => msg +:+ ": " +:+ error_text e
  end.

Section job_manager.
Context {S Handler : Type} `{JobStoreOps S}.
Context (oor : SpecFloat.spec_float → Z).

(** What [submitJobControl] hands to [submitJobIO]. *)
Record Sub := MkSub {
  sub_entity : JobEntity;
  sub_ctx : Ctx;               (** the caller's context *)
  sub_jobCtx : Ctx;
  sub_handler : Handler;
  sub_delay : Z;
  sub_result : Chan;
}.

(** Closures on the I/O runner; [final]: counted by [pendingFinalize]. *)
Inductive IoTask :=
| ISubmit (u : Sub)
| IUpdate (ctx : Ctx) (id : string) (status : JobStatus) (msg : string) (final : bool)
| IRecover (ch : Chan) (ctx : Ctx).

(** Jobs on the execution runner, and the wrappers of [scheduleExecution] that
    it has started: one has begun, posts the update to RUNNING, is inside the
    handler, posts the finalization, has returned.  [pushing]: the poster is
    past the test of the flag. *)
Record Job := MkJob { job_entity : JobEntity; job_ctx : Ctx; job_handler : Handler }.
Inductive Exec :=
| EBegun (j : Job)
| EStatus (pushing : bool) (j : Job)
| ERunning (j : Job)
| EFinal (pushing : bool) (j : Job) (status : JobStatus) (msg : string)
| EDone.
Definition exec_job (x : Exec) : option Job :=
  match x with
  | EBegun j | EStatus _ j | ERunning j | EFinal _ j _ _ => Some j
  | EDone => None
  end.

(** Closures on the control runner. *)
Inductive ControlTask :=
| CRegister (ch : Chan) (jobType : string) (handler : Handler)
| CUnregister (ch : Chan) (jobType : string)
| CSubmit (ch : Chan) (ctx : Ctx) (entity : JobEntity) (delay : Z)
| CCancel (ch : Chan) (id : string)
| CFinalize (id : string) (status : JobStatus) (msg : string)
| CRecover (done : Chan) (job : JobEntity)
| CCancelAll (done : Chan).

(** A control closure that has not returned; what follows its post to the I/O
    runner. *)
Inductive After :=
| AfterSelect (u : Sub) (ch : Chan)
| AfterClose (done : Chan)
| AfterReturn.
Inductive ControlPc :=
| CtlStart (t : ControlTask)                     (** not begun *)
| CtlPostIo (pushing : bool) (t : IoTask) (k : After)
| CtlPostExec (pushing : bool) (j : Job) (done : Chan)
| CtlSubmitting (u : Sub) (ch : Chan)            (** select in submitJobIO *)
| CtlFinalizing (id : string) (status : JobStatus) (msg : string).
                                                 (** between the two counters *)

(** [errorHandler], [logger]: one was set; what they do is outside. *)
Record Config := MkConfig {
  retryPolicy : RetryPolicy; errorHandler : bool; shutdownRunners : bool; logger : bool
}.

(** [cfg]: the snapshot of the configuration that [retryIOOperation] takes when
    it is called. *)
Inductive IoPc :=
| IStart (t : IoTask)
| IPersist (u : Sub) (create : bool) (cfg : Config) (r : Retry)
| ISchedule (pushing : bool) (u : Sub)
| IUpd (ctx : Ctx) (id : string) (status : JobStatus) (msg : string) (final : bool)
       (cfg : Config) (r : Retry)
| IRecFail (ch : Chan) (ctx : Ctx) (running : list JobEntity)
| IRecUpd (ch : Chan) (ctx : Ctx) (job : JobEntity) (running : list JobEntity)
       (cfg : Config) (r : Retry)
| IRecPend (ch : Chan) (ctx : Ctx) (jobs : list JobEntity)
| IRecPost (pushing : bool) (ch : Chan) (ctx : Ctx) (job : JobEntity) (jobs : list JobEntity)
       (done : Chan)
| IRecWait (ch : Chan) (ctx : Ctx) (jobs : list JobEntity) (done : Chan).

Inductive Op :=
| OpRegister (jobType : string) (handler : Handler)
| OpUnregister (jobType : string)
| OpSubmit (entity : JobEntity) (serialize_err : option Error) (delay : Z)
| OpCancel (id : string)
| OpStart
| OpShutdown.

Definition SubmitJob (entity : JobEntity) (serialize_err : option Error) : Op :=
  OpSubmit entity serialize_err 0.

Inductive CallPc :=
| PcMake                       (** past the checks, before its channel is made *)
| PcPost (pushing : bool) (ch : Chan)
| PcWait (ch : Chan)
| PcDrain                      (** Shutdown's ticker loop *)
| PcCounted                    (** no active job seen, pendingFinalize not yet read *)
| PcRunners (n : nat)          (** shutting the runners down: [n] accesses made *)
| PcRet (err : option Error).
Record Call := MkCall { call_op : Op; call_ctx : Ctx; call_pc : CallPc }.

Record Runner (Q P : Type) := MkRunner { rq : list Q; rcur : option P; rclosed : bool }.
Arguments MkRunner {Q P}.
Arguments rq {Q P}.
Arguments rcur {Q P}.
Arguments rclosed {Q P}.

(** An access of [PostTask]: the test of the flag, which makes a closed runner
    ignore the task, or the append.  [None]: the poster is still inside. *)
Definition rpush {Q P} (t : Q) (r : Runner Q P) : Runner Q P :=
  MkRunner (rq r ++ [t]) (rcur r) (rclosed r).
Definition PostTask {Q P} (pushing : bool) (t : Q) (r : Runner Q P) : option (Runner Q P) :=
  if pushing then Some (rpush t r) else if rclosed r then Some r else None.

(** The accesses of [Shutdown]: it sets the flag, and clears what is queued. *)
Definition rclose {Q P} (r : Runner Q P) : Runner Q P := MkRunner (rq r) (rcur r) true.
Definition rclear {Q P} (r : Runner Q P) : Runner Q P := MkRunner [] (rcur r) (rclosed r).
Definition set_cur {Q P} (c : option P) (r : Runner Q P) : Runner Q P := MkRunner (rq r) c (rclosed r).

(** History: what was scheduled and started, the policies used, whether a
    recovery rescheduled a job that was already active, how many recoveries
    were asked for, and the calls of the error handler. *)
Record Hist := MkHist {
  scheduled : list string; started : list string; policies : list RetryPolicy;
  overlap : bool; recoveries : nat; reported : list (string * option Error)
}.

Record JobManager := MkJM {
  handlers : gmap string Handler;
  activeJobs : gmap string (Ctx * JobEntity);
  store : S;
  config : Config;
  closed : bool;
  pendingFinalize : Z;
  control : Runner ControlTask ControlPc;
  io : Runner IoTask IoPc;
  exec_queue : list Job;
  exec : list Exec;
  exec_closed : bool;
  cancelled : list CtxId;
  chans : list (Chan * option Error);
  next : nat;
  calls : list Call;
  hist : Hist;
}.

Definition NewJobManager (s : S) : JobManager :=
  MkJM ∅ ∅ s (MkConfig DefaultRetryPolicy false true false) false 0
    (MkRunner [] None false) (MkRunner [] None false) [] [] false [] [] 0 [] (MkHist [] [] [DefaultRetryPolicy] false 0 []).

Implicit Types r : JobManager.

Definition set_handlers x r := MkJM x (activeJobs r) (store r) (config r) (closed r)
  (pendingFinalize r) (control r) (io r) (exec_queue r) (exec r) (exec_closed r) (cancelled r) (chans r)
  (next r) (calls r) (hist r).
Definition set_active x r := MkJM (handlers r) x (store r) (config r) (closed r)
  (pendingFinalize r) (control r) (io r) (exec_queue r) (exec r) (exec_closed r) (cancelled r) (chans r)
  (next r) (calls r) (hist r).
Definition set_store x r := MkJM (handlers r) (activeJobs r) x (config r) (closed r)
  (pendingFinalize r) (control r) (io r) (exec_queue r) (exec r) (exec_closed r) (cancelled r) (chans r)
  (next r) (calls r) (hist r).
Definition set_config x r := MkJM (handlers r) (activeJobs r) (store r) x (closed r)
  (pendingFinalize r) (control r) (io r) (exec_queue r) (exec r) (exec_closed r) (cancelled r) (chans r)
  (next r) (calls r) (hist r).
Definition set_closed x r := MkJM (handlers r) (activeJobs r) (store r) (config r) x
  (pendingFinalize r) (control r) (io r) (exec_queue r) (exec r) (exec_closed r) (cancelled r) (chans r)
  (next r) (calls r) (hist r).
Definition set_pending x r := MkJM (handlers r) (activeJobs r) (store r) (config r) (closed r)
  x (control r) (io r) (exec_queue r) (exec r) (exec_closed r) (cancelled r) (chans r)
  (next r) (calls r) (hist r).
Definition set_control x r := MkJM (handlers r) (activeJobs r) (store r) (config r) (closed r)
  (pendingFinalize r) x (io r) (exec_queue r) (exec r) (exec_closed r) (cancelled r) (chans r)
  (next r) (calls r) (hist r).
Definition set_io x r := MkJM (handlers r) (activeJobs r) (store r) (config r) (closed r)
  (pendingFinalize r) (control r) x (exec_queue r) (exec r) (exec_closed r) (cancelled r) (chans r)
  (next r) (calls r) (hist r).
Definition set_exec x r := MkJM (handlers r) (activeJobs r) (store r) (config r) (closed r)
  (pendingFinalize r) (control r) (io r) (exec_queue r) x (exec_closed r) (cancelled r) (chans r)
  (next r) (calls r) (hist r).
Definition set_exec_queue q c r := MkJM (handlers r) (activeJobs r) (store r) (config r) (closed r)
  (pendingFinalize r) (control r) (io r) q (exec r) c (cancelled r) (chans r)
  (next r) (calls r) (hist r).
Definition set_cancelled x r := MkJM (handlers r) (activeJobs r) (store r) (config r) (closed r)
  (pendingFinalize r) (control r) (io r) (exec_queue r) (exec r) (exec_closed r) x (chans r)
  (next r) (calls r) (hist r).
Definition set_chans x n r := MkJM (handlers r) (activeJobs r) (store r) (config r) (closed r)
  (pendingFinalize r) (control r) (io r) (exec_queue r) (exec r) (exec_closed r) (cancelled r) x
  n (calls r) (hist r).
Definition set_calls x r := MkJM (handlers r) (activeJobs r) (store r) (config r) (closed r)
  (pendingFinalize r) (control r) (io r) (exec_queue r) (exec r) (exec_closed r) (cancelled r) (chans r)
  (next r) x (hist r).
Definition set_hist x r := MkJM (handlers r) (activeJobs r) (store r) (config r) (closed r)
  (pendingFinalize r) (control r) (io r) (exec_queue r) (exec r) (exec_closed r) (cancelled r) (chans r)
  (next r) (calls r) x.

Definition control_return r := set_control (set_cur None (control r)) r.
Definition control_goto (c : ControlPc) r := set_control (set_cur (Some c) (control r)) r.
Definition io_return r := set_io (set_cur None (io r)) r.
Definition io_goto (c : IoPc) r := set_io (set_cur (Some c) (io r)) r.
Definition send (ch : Chan) (e : option Error) r := set_chans ((ch, e) :: chans r) (next r) r.
Definition received (ch : Chan) r : option (option Error) := lookup_chan ch (chans r).
Definition cancel (c : Ctx) r :=
  match c with [] => r | i :: _ => set_cancelled (i :: cancelled r) r end.
Definition ctx_err (c : Ctx) r : option Error :=
  if bool_decide (Exists (λ i, i ∈ cancelled r) c) then Some ErrCtx else None.

Definition GetActiveJobCount r : nat := size (activeJobs r).
Definition GetActiveJobs r : list JobEntity := (map_to_list (activeJobs r)).*2.*2.

(** The reads go straight to the store, on the caller's goroutine. *)
Definition ListJobs (filter : JobFilter) r : JobManager * (list JobEntity + Error) :=
  let '(s, jobs) := store_list filter (store r) in (set_store s r, jobs).
Definition GetJob (id : string) r : JobManager * (JobEntity + Error) :=
  let '(s, job) := store_get id (store r) in (set_store s r, job).

(** [getRuntimeConfigSnapshotLocked] *)
Definition getRuntimeConfigSnapshot r : Config := config r.

Definition GetRetryPolicy r : RetryPolicy := retryPolicy (config r).
Definition SetRetryPolicy (p : RetryPolicy) r :=
  let h := hist r in
  set_hist (MkHist (scheduled h) (started h) (p :: policies h) (overlap h) (recoveries h) (reported h))
    (set_config (MkConfig p (errorHandler (config r)) (shutdownRunners (config r)) (logger (config r))) r).
Definition SetErrorHandler (b : bool) r :=
  set_config (MkConfig (retryPolicy (config r)) b (shutdownRunners (config r)) (logger (config r))) r.
Definition SetLogger (b : bool) r :=
  set_config (MkConfig (retryPolicy (config r)) (errorHandler (config r)) (shutdownRunners (config r)) b) r.
Definition SetShutdownRunners (b : bool) r :=
  set_config (MkConfig (retryPolicy (config r)) (errorHandler (config r)) b (logger (config r))) r.

(** What [updateStatusIO] and [finalizeJob] post. *)
Definition updateStatusIO (ctx : Ctx) (id : string) (st : JobStatus) (msg : string) : IoTask :=
  IUpdate ctx id st msg false.
Definition finalizeJob (id : string) (st : JobStatus) (msg : string) : ControlTask :=
  CFinalize id st msg.

(** An access of [scheduleExecution], which posts the wrapper, whatever the
    delay. *)
Definition scheduleExecution (pushing : bool) (j : Job) r : option JobManager :=
  if pushing then
    let hi := hist r in
    Some (set_hist (MkHist (scheduled hi ++ [ID (job_entity j)]) (started hi) (policies hi)
                      (overlap hi) (recoveries hi) (reported hi))
            (set_exec_queue (exec_queue r ++ [j]) (exec_closed r) r))
  else if exec_closed r then Some r else None.

(** *** Control runner *)

Definition submitJobControl (ch : Chan) (ctx : Ctx) (e : JobEntity) (delay : Z) r :=
  match activeJobs r !! ID e with
  | Some _ => send ch (Some (ErrText ("job " +:+ ID e +:+ " is already active"))) r
  | None =>
      match handlers r !! Type_ e with
      | None => send ch (Some (ErrText ("handler for job type " +:+ Type_ e +:+ " not found"))) r
      | Some h =>
          let jobCtx := JobCtx (next r) :: ctx in
          let u := MkSub e ctx jobCtx h delay (MkChan (next r) (Some e)) in
          let r := set_chans (chans r) (1 + next r) r in
          let r := set_active (<[ID e := (jobCtx, e)]> (activeJobs r)) r in
          control_goto (CtlPostIo false (ISubmit u) (AfterSelect u ch)) r
      end
  end.

Definition cancelJobControl (ch : Chan) (id : string) r :=
  match activeJobs r !! id with
  | None => send ch (Some (ErrText ("job " +:+ id +:+ " is not active"))) r
  | Some (c, _) => send ch None (cancel c r)
  end.

(** Up to [info.cancel()]; the rest of [finalizeJobControl] is [CtlFinalizing]. *)
Definition finalizeJobControl (id : string) (st : JobStatus) (msg : string) r :=
  match activeJobs r !! id with
  | None => r
  | Some (c, _) =>
      control_goto (CtlFinalizing id st msg) (cancel c (set_active (delete id (activeJobs r)) r))
  end.

Definition recoverJobControl (done : Chan) (job : JobEntity) r :=
  match handlers r !! Type_ job with
  | None =>
      control_goto
        (CtlPostIo false
           (updateStatusIO Background (ID job) JobStatusFailed "Missing handler during recovery")
           (AfterClose done)) r
  | Some h =>
      let jobCtx := [JobCtx (next r)] in
      let hi := hist r in
      let r := set_hist (MkHist (scheduled hi) (started hi) (policies hi)
                 (overlap hi || bool_decide (is_Some (activeJobs r !! ID job))) (recoveries hi)
                 (reported hi)) r in
      let r := set_chans (chans r) (1 + next r) r in
      let r := set_active (<[ID job := (jobCtx, job)]> (activeJobs r)) r in
      control_goto (CtlPostExec false (MkJob job jobCtx h) done) r
  end.

Definition cancelAllControl (done : Chan) r :=
  send done None (foldr (λ '(c, _), cancel c) r (map_to_list (activeJobs r)).*2).

(** The closures of [RegisterHandler] and [UnregisterHandler] *)
Definition registerControl (ch : Chan) (jobType : string) (handler : Handler) r :=
  send ch None (set_handlers (<[jobType := handler]> (handlers r)) r).
Definition unregisterControl (ch : Chan) (jobType : string) r :=
  send ch None (set_handlers (delete jobType (handlers r)) r).

Definition control_start (t : ControlTask) r : JobManager :=
  match t with
  | CRegister ch ty h => registerControl ch ty h r
  | CUnregister ch ty => unregisterControl ch ty r
  | CSubmit ch ctx e delay => submitJobControl ch ctx e delay r
  | CCancel ch id => cancelJobControl ch id r
  | CFinalize id st msg => finalizeJobControl id st msg r
  | CRecover done job => recoverJobControl done job r
  | CCancelAll done => cancelAllControl done r
  end.

Definition control_after (k : After) r : JobManager :=
  match k with
  | AfterSelect u ch => control_goto (CtlSubmitting u ch) r
  | AfterClose done => send done None (control_return r)
  | AfterReturn => control_return r
  end.

(** [by_ctx]: the [ctx.Done()] branch of the select. *)
Definition control_step (by_ctx : bool) r : option JobManager :=
  match rcur (control r) with
  | None =>
      if by_ctx then None else
      match rq (control r) with
      | [] => None
      | t :: q => Some (set_control (MkRunner q (Some (CtlStart t)) (rclosed (control r))) r)
      end
  | Some (CtlStart t) => if by_ctx then None else Some (control_start t (control_return r))
  | Some (CtlPostIo pushing t k) =>
      if by_ctx then None else
      Some match PostTask pushing t (io r) with
           | None => control_goto (CtlPostIo true t k) r
           | Some x => control_after k (set_io x r)
           end
  | Some (CtlPostExec pushing j done) =>
      if by_ctx then None else
      Some match scheduleExecution pushing j r with
           | None => control_goto (CtlPostExec true j done) r
           | Some r => control_after (AfterClose done) r
           end
  | Some (CtlSubmitting u ch) =>
      if by_ctx then e ← ctx_err (sub_ctx u) r; Some (send ch (Some e) (control_return r))
      else e ← received (sub_result u) r; Some (send ch e (control_return r))
  | Some (CtlFinalizing id st msg) =>
      if by_ctx then None else
      Some (control_goto (CtlPostIo false (IUpdate Background id st msg true) AfterReturn)
              (set_pending (wrap_int32 (pendingFinalize r + 1)) r))
  end.

(** *** I/O runner *)

(** The early exits of [submitJobIO]. *)
Definition abort (u : Sub) (e : Error) r :=
  send (sub_result u) (Some e)
    (cancel (sub_jobCtx u)
       (set_active (delete (ID (sub_entity u)) (activeJobs r)) (io_return r))).

(** [durable]: the store implements [DurableJobStore]. *)
Definition persist_start (durable : bool) (u : Sub) r : JobManager :=
  if durable then io_goto (IPersist u true (getRuntimeConfigSnapshot r) retry_start) r
  else
    let '(s, g) := store_get (ID (sub_entity u)) (store r) in
    let r := set_store s r in
    let taken := match g with
                 | inl j => bool_decide (Status j = JobStatusPending ∨ Status j = JobStatusRunning)
                 | inr _ => false
                 end in
    io_goto (IPersist u false (getRuntimeConfigSnapshot r)
               (if taken then RDone (Some ErrJobAlreadyExists) false else retry_start)) r.

Definition io_start (durable : bool) (t : IoTask) r : JobManager :=
  match t with
  | ISubmit u =>
      match ctx_err (sub_jobCtx u) r with
      | Some e => abort u e r
      | None => persist_start durable u r
      end
  | IUpdate ctx id st msg final =>
      io_goto (IUpd ctx id st msg final (getRuntimeConfigSnapshot r) retry_start) r
  | IRecover ch ctx =>
      let '(s, l) := store_list (MkJobFilter JobStatusRunning "" 0 0) (store r) in
      let r := set_store s r in
      match l with
      | inl running => io_goto (IRecFail ch ctx running) r
      | inr e => send ch (Some e) (io_return r)
      end
  end.

(** What follows [persistNewJobIO]. *)
Definition persist_end (u : Sub) (err : option Error) r : JobManager :=
  match err with
  | Some e =>
      abort u (if Is e ErrJobAlreadyExists
               then ErrText ("job " +:+ ID (sub_entity u) +:+ " already exists") else e) r
  | None =>
      match ctx_err (sub_jobCtx u) r with
      | Some e => abort u e r
      | None =>
          io_goto (ISchedule false u) r
      end
  end.

(** ... and its last accesses. *)
Definition sub_job (u : Sub) : Job := MkJob (sub_entity u) (sub_jobCtx u) (sub_handler u).
Definition schedule_step (pushing : bool) (u : Sub) r : JobManager :=
  match scheduleExecution pushing (sub_job u) r with
  | None => io_goto (ISchedule true u) r
  | Some r => send (sub_result u) None (io_return r)
  end.

(** The error handler of the snapshot is told about an operation that was given
    up. *)
Definition report (cfg : Config) (id : string) (err : option Error) (gave_up : bool) r :=
  let h := hist r in
  if gave_up && errorHandler cfg
  then set_hist (MkHist (scheduled h) (started h) (policies h) (overlap h) (recoveries h)
                   (reported h ++ [(id, err)])) r
  else r.

(** [persistNewJobIO] under [retryIOOperation], then the rest of the closure. *)
Definition persist_step (elapsed : bool) (u : Sub) (create : bool) (cfg : Config) (pc : Retry) r
  : option JobManager :=
  match pc with
  | RDone err g => Some (persist_end u err (report cfg (ID (sub_entity u)) err g r))
  | _ =>
      '(pc, s, _) ← retry_step oor (retryPolicy cfg)
         (if create then store_create (sub_entity u) else store_save (sub_entity u))
         (ctx_err (sub_ctx u) r) elapsed pc (store r);
      Some (io_goto (IPersist u create cfg pc) (set_store s r))
  end.

(** The closures of [updateStatusIO] and of [finalizeJobControl] ([final]). *)
Definition update_step (elapsed : bool) (ctx : Ctx) (id : string) (st : JobStatus) (msg : string)
  (final : bool) (cfg : Config) (pc : Retry) r : option JobManager :=
  match pc with
  | RDone err g =>
      let r := report cfg id err g (io_return r) in
      Some (if final then set_pending (wrap_int32 (pendingFinalize r - 1)) r else r)
  | _ =>
      '(pc, s, _) ← retry_step oor (retryPolicy cfg) (store_update id st msg) (ctx_err ctx r) elapsed pc (store r);
      Some (io_goto (IUpd ctx id st msg final cfg pc) (set_store s r))
  end.

(** [doRecoveryIO] after its first listing. *)
Definition recovery_step (elapsed by_ctx : bool) (c : IoPc) r : option JobManager :=
  match c with
  | IRecFail ch ctx (job :: running) =>
      Some (io_goto (IRecUpd ch ctx job running (getRuntimeConfigSnapshot r) retry_start) r)
  | IRecUpd ch ctx job running cfg pc =>
      match pc with
      | RDone err g => Some (report cfg (ID job) err g (io_goto (IRecFail ch ctx running) r))
      | _ =>
          '(pc, s, _) ← retry_step oor (retryPolicy cfg)
             (store_update (ID job) JobStatusFailed "Interrupted by restart")
             (ctx_err ctx r) elapsed pc (store r);
          Some (io_goto (IRecUpd ch ctx job running cfg pc) (set_store s r))
      end
  | IRecFail ch ctx [] =>
      let '(s, l) := store_recoverable (store r) in
      let r := set_store s r in
      Some match l with
           | inl jobs => io_goto (IRecPend ch ctx jobs) r
           | inr e => send ch (Some e) (io_return r)
           end
  | IRecPend ch ctx [] => Some (send ch None (io_return r))
  | IRecPend ch ctx (job :: jobs) =>
      let done := MkChan (next r) None in
      let r := set_chans (chans r) (1 + next r) r in
      Some (io_goto (IRecPost false ch ctx job jobs done) r)
  | IRecPost pushing ch ctx job jobs done =>
      Some match PostTask pushing (CRecover done job) (control r) with
           | None => io_goto (IRecPost true ch ctx job jobs done) r
           | Some x => io_goto (IRecWait ch ctx jobs done) (set_control x r)
           end
  | IRecWait ch ctx jobs done =>
      if by_ctx then e ← ctx_err ctx r; Some (send ch (Some e) (io_return r))
      else _ ← received done r; Some (io_goto (IRecPend ch ctx jobs) r)
  | _ => None
  end.

(** [by_ctx]: the [ctx.Done()] branch of a select. *)
Definition io_step (durable elapsed by_ctx : bool) r : option JobManager :=
  match rcur (io r) with
  | None =>
      match rq (io r) with
      | [] => None
      | t :: q => Some (set_io (MkRunner q (Some (IStart t)) (rclosed (io r))) r)
      end
  | Some (IStart t) => Some (io_start durable t (io_return r))
  | Some (IPersist u create cfg pc) => persist_step elapsed u create cfg pc r
  | Some (ISchedule pushing u) => Some (schedule_step pushing u r)
  | Some (IUpd ctx id st msg final cfg pc) => update_step elapsed ctx id st msg final cfg pc r
  | Some c => recovery_step elapsed by_ctx c r
  end.

(** *** Execution runner: the wrapper of [scheduleExecution] *)

Definition set_wrapper (k : nat) (x : Exec) r := set_exec (<[k := x]> (exec r)) r.

Definition exec_start (k : nat) r : option JobManager :=
  j ← exec_queue r !! k;
  Some (set_exec (exec r ++ [EBegun j])
          (set_exec_queue (delete k (exec_queue r)) (exec_closed r) r)).

(** The runner was shut down, or its pool turned the closure away. *)
Definition exec_lose (k : nat) r : option JobManager :=
  _ ← exec_queue r !! k; Some (set_exec_queue (delete k (exec_queue r)) (exec_closed r) r).

Definition add_started (id : string) r :=
  let h := hist r in
  set_hist (MkHist (scheduled h) (started h ++ [id]) (policies h) (overlap h) (recoveries h)
              (reported h)) r.

Definition exec_step (k : nat) r : option JobManager :=
  match exec r !! k with
  | Some (EBegun j) =>
      Some (set_wrapper k
              match ctx_err (job_ctx j) r with
              | Some _ => EFinal false j JobStatusCanceled "Canceled before execution"
              | None => EStatus false j
              end r)
  | Some (EStatus pushing j) =>
      let id := ID (job_entity j) in
      Some match PostTask pushing (updateStatusIO (job_ctx j) id JobStatusRunning "") (io r) with
           | None => set_wrapper k (EStatus true j) r
           | Some x => add_started id (set_wrapper k (ERunning j) (set_io x r))
           end
  | Some (EFinal pushing j st msg) =>
      Some match PostTask pushing (finalizeJob (ID (job_entity j)) st msg) (control r) with
           | None => set_wrapper k (EFinal true j st msg) r
           | Some x => set_wrapper k EDone (set_control x r)
           end
  | _ => None
  end.

(** How a handler ends: it returns, or panics with a value printed as [v]. *)
Inductive Outcome := HReturn (err : option Error) | HPanic (v : string).
Definition outcome_err (o : Outcome) : option Error :=
  match o with HReturn err => err | HPanic v => Some (ErrText ("panic: " +:+ v)) end.

Definition final_status (err ctx : option Error) : JobStatus * string :=
  match err with
  | None => (JobStatusCompleted, "")
  | Some e =>
      match ctx with
      | Some _ => (JobStatusCanceled, "Job canceled")
      | None => (JobStatusFailed, error_text e)
      end
  end.

Definition exec_end (k : nat) (o : Outcome) r : option JobManager :=
  match exec r !! k with
  | Some (ERunning j) =>
      let '(st, msg) := final_status (outcome_err o) (ctx_err (job_ctx j) r) in
      Some (set_wrapper k (EFinal false j st msg) r)
  | _ => None
  end.

(** *** Callers *)

Definition set_call (k : nat) (c : Call) (pc : CallPc) r :=
  set_calls (<[k := MkCall (call_op c) (call_ctx c) pc]> (calls r)) r.

(** A method, as its caller goes through it: the checks, what is posted to the
    control runner ([inl]) or to the I/O runner, and what is returned when the
    context ends before the result is there. *)
Record Method := MkMethod {
  m_checks : Ctx → JobManager → option Error;
  m_task : Chan → Ctx → ControlTask + IoTask;
  m_ctx_err : Error → Error;
}.

Definition check_closed (ctx : Ctx) r : option Error :=
  if closed r then Some (ErrText "JobManager is closed") else None.

Definition RegisterHandler (jobType : string) (handler : Handler) : Method :=
  MkMethod check_closed (λ ch _, inl (CRegister ch jobType handler))
    (ErrWrap ("register handler canceled for job type " +:+ jobType)).
Definition UnregisterHandler (jobType : string) : Method :=
  MkMethod check_closed (λ ch _, inl (CUnregister ch jobType)) id.
Definition SubmitDelayedJob (entity : JobEntity) (serialize_err : option Error) (delay : Z) : Method :=
  MkMethod
    (λ ctx r,
      match check_closed ctx r with
      | Some e => Some e
      | None => match ctx_err ctx r with Some e => Some e | None => serialize_err end
      end)
    (λ ch ctx, inl (CSubmit ch ctx entity delay)) id.
Definition CancelJob (jobid : string) : Method :=
  MkMethod check_closed (λ ch _, inl (CCancel ch jobid))
    (ErrWrap ("cancel job canceled for " +:+ jobid)).
Definition Start : Method := MkMethod (λ _ _, None) (λ ch ctx, inr (IRecover ch ctx)) id.
Definition Shutdown : Method :=
  MkMethod (λ _ r, if closed r then Some (ErrText "already closed") else None)
    (λ ch _, inl (CCancelAll ch)) id.

Definition method (op : Op) : Method :=
  match op with
  | OpRegister ty h => RegisterHandler ty h
  | OpUnregister ty => UnregisterHandler ty
  | OpSubmit e serialize_err delay => SubmitDelayedJob e serialize_err delay
  | OpCancel jobid => CancelJob jobid
  | OpStart => Start
  | OpShutdown => Shutdown
  end.

(** The checks at the beginning of a call; that of [Shutdown] is a
    compare-and-swap. *)
Definition call_entry (op : Op) (ctx : Ctx) r : JobManager :=
  let enter pc r := set_calls (calls r ++ [MkCall op ctx pc]) r in
  match m_checks (method op) ctx r with
  | Some e => enter (PcRet (Some e)) r
  | None => enter PcMake (match op with OpShutdown => set_closed true r | _ => r end)
  end.

Definition call_chan (c : Call) (n : nat) : Chan :=
  MkChan n (match call_op c with OpSubmit e _ _ => Some e | _ => None end).

Definition count_recovery r :=
  let h := hist r in
  set_hist (MkHist (scheduled h) (started h) (policies h) (overlap h) (1 + recoveries h)
              (reported h)) r.

(** An access of the post of a call. *)
Definition call_post (pushing : bool) (c : Call) (ch : Chan) r : option JobManager :=
  match m_task (method (call_op c)) ch (call_ctx c) with
  | inl t => x ← PostTask pushing t (control r); Some (set_control x r)
  | inr t => x ← PostTask pushing t (io r); Some (count_recovery (set_io x r))
  end.

Definition call_step (by_ctx : bool) (k : nat) r : option JobManager :=
  c ← calls r !! k;
  match call_pc c with
  | PcMake =>
      if by_ctx then None else
      Some (set_call k c (PcPost false (call_chan c (next r))) (set_chans (chans r) (1 + next r) r))
  | PcPost pushing ch =>
      if by_ctx then None else
      Some match call_post pushing c ch r with
           | None => set_call k c (PcPost true ch) r
           | Some r => set_call k c (PcWait ch) r
           end
  | PcWait ch =>
      if by_ctx then
        e ← ctx_err (call_ctx c) r; Some (set_call k c (PcRet (Some (m_ctx_err (method (call_op c)) e))) r)
      else
        e ← received ch r;
        Some (set_call k c (match call_op c with OpShutdown => PcDrain | _ => PcRet e end) r)
  | PcDrain =>
      if by_ctx then e ← ctx_err (call_ctx c) r; Some (set_call k c (PcRet (Some e)) r)
      else if decide (GetActiveJobCount r = 0) then Some (set_call k c PcCounted r)
      else Some r
  | PcCounted =>
      if by_ctx then None else
      Some (set_call k c
              (if (pendingFinalize r =? 0)%Z
               then if shutdownRunners (config r) then PcRunners 0 else PcRet None
               else PcDrain) r)
  | PcRunners n =>
      if by_ctx then None else
      Some match n with
           | 0 => set_call k c (PcRunners 1) (set_control (rclose (control r)) r)
           | 1 => set_call k c (PcRunners 2) (set_control (rclear (control r)) r)
           | 2 => set_call k c (PcRunners 3) (set_io (rclose (io r)) r)
           | 3 => set_call k c (PcRunners 4) (set_io (rclear (io r)) r)
           | _ => set_call k c (PcRet None) (set_exec_queue (exec_queue r) true r)
           end
  | PcRet _ => None
  end.

Inductive Label :=
| LCall (op : Op) (n : nat)              (** with the caller's context [n] *)
| LCallStep (by_ctx : bool) (k : nat)
| LControl (by_ctx : bool)
| LIo (elapsed by_ctx : bool)
| LExecStart (k : nat)
| LExecLose (k : nat)
| LExecStep (k : nat)
| LExecEnd (k : nat) (o : Outcome)
| LCancel (n : nat)                      (** the caller cancels its context [n] *)
| LSetRetryPolicy (p : RetryPolicy)
| LSetErrorHandler (b : bool)
| LSetLogger (b : bool)
| LSetShutdownRunners (b : bool).

Definition step (durable : bool) (l : Label) r : option JobManager :=
  match l with
  | LCall op n => Some (call_entry op [CallerCtx n] r)
  | LCallStep by_ctx k => call_step by_ctx k r
  | LControl by_ctx => control_step by_ctx r
  | LIo elapsed by_ctx => io_step durable elapsed by_ctx r
  | LExecStart k => exec_start k r
  | LExecLose k => exec_lose k r
  | LExecStep k => exec_step k r
  | LExecEnd k o => exec_end k o r
  | LCancel n => Some (cancel [CallerCtx n] r)
  | LSetRetryPolicy p => Some (SetRetryPolicy p r)
  | LSetErrorHandler b => Some (SetErrorHandler b r)
  | LSetLogger b => Some (SetLogger b r)
  | LSetShutdownRunners b => Some (SetShutdownRunners b r)
  end.
End job_manager.
Arguments Sub Handler : clear implicits.
Arguments ControlTask Handler : clear implicits.
Arguments ControlPc Handler : clear implicits.
Arguments After Handler : clear implicits.
Arguments IoTask Handler : clear implicits.
Arguments IoPc Handler : clear implicits.
Arguments Job Handler : clear implicits.
Arguments Exec Handler : clear implicits.
Arguments Op Handler : clear implicits.
Arguments Call Handler : clear implicits.
Arguments JobManager S Handler : clear implicits.
Arguments Label Handler : clear implicits.
Arguments MkRunner {Q P}.
Arguments rq {Q P}.
Arguments rcur {Q P}.
Arguments rclosed {Q P}.

(** ** Counting the phases of a job against a map of identifiers *)

Section bounded.
Context {A : Type}.
Implicit Types (t : string → Z) (m : gmap string A).
Local Open Scope Z_scope.

Definition here (id id' : string) : Z := b2z (bool_decide (id' = id)).

(** At most one token per identifier, and only for those of the map. *)
Definition bounded t m : Prop := ∀ id, t id <= b2z (bool_decide (is_Some (m !! id))).

Lemma here_range id id' : 0 <= here id id' <= 1.
Proof. unfold here. case_bool_decide; simpl; lia. Qed.
Lemma here_same id : here id id = 1.
Proof. unfold here. by rewrite bool_decide_true. Qed.

Lemma bounded_le t t' m : bounded t m → (∀ id, t' id <= t id) → bounded t' m.
Proof. intros Hb Hle id. specialize (Hb id). specialize (Hle id). lia. Qed.

Lemma bounded_delete t t' m id0 :
  bounded t m → (∀ id, t' id <= t id - here id id0) → bounded t' (delete id0 m).
Proof.
  intros Hb Hle id. specialize (Hb id). specialize (Hle id). unfold here in Hle.
  case_bool_decide; simplify_eq.
  - rewrite lookup_delete_eq. rewrite (bool_decide_false (is_Some None)) by (intros [? ?]; done).
    revert Hb. case_bool_decide; simpl in *; lia.
  - rewrite lookup_delete_ne by done. simpl in Hle. lia.
Qed.

Lemma bounded_insert t t' m id0 x :
  bounded t m → m !! id0 = None → (∀ id, t' id <= t id + here id id0) → bounded t' (<[id0:=x]> m).
Proof.
  intros Hb Hn Hle id. specialize (Hb id). specialize (Hle id). unfold here in Hle.
  case_bool_decide; simplify_eq.
  - rewrite lookup_insert_eq. rewrite bool_decide_true by by eexists.
    rewrite Hn, (bool_decide_false (is_Some None)) in Hb by (intros [? ?]; done). simpl in *. lia.
  - rewrite lookup_insert_ne by done. simpl in Hle. lia.
Qed.

Lemma bounded_dom t m id : bounded t m → 0 < t id → is_Some (m !! id).
Proof. intros Hb Hlt. specialize (Hb id). revert Hb. case_bool_decide; simpl; [done|lia]. Qed.
Lemma bounded_one t m id : bounded t m → t id <= 1.
Proof. intros Hb. specialize (Hb id). revert Hb. case_bool_decide; simpl; lia. Qed.
End bounded.

Section job_manager_lemmas.
Context {S Handler : Type} `{JobStoreOps S} (oor : SpecFloat.spec_float → Z) (durable : bool).
Implicit Types r : JobManager S Handler.
Notation step := (step oor durable).
Local Open Scope Z_scope.

Lemma cancel_same c r :
  activeJobs (cancel c r) = activeJobs r ∧ io (cancel c r) = io r ∧ control (cancel c r) = control r ∧
  exec (cancel c r) = exec r ∧ hist (cancel c r) = hist r ∧ store (cancel c r) = store r ∧
  calls (cancel c r) = calls r ∧ chans (cancel c r) = chans r ∧ exec_closed (cancel c r) = exec_closed r ∧
  exec_queue (cancel c r) = exec_queue r.
Proof. by destruct c. Qed.

Lemma cancel_all_same (l : list (Ctx * JobEntity)) r :
  let r' := foldr (λ '(c, _), cancel c) r l in
  activeJobs r' = activeJobs r ∧ io r' = io r ∧ control r' = control r ∧
  exec r' = exec r ∧ hist r' = hist r ∧ store r' = store r ∧
  calls r' = calls r ∧ chans r' = chans r ∧ exec_closed r' = exec_closed r ∧
  exec_queue r' = exec_queue r.
Proof.
  induction l as [|[c e] l IH]; [done|]. simpl in *.
  destruct (cancel_same c (foldr (λ '(c, _), cancel c) r l))
    as (-> & -> & -> & -> & -> & -> & -> & -> & -> & ->).
  done.
Qed.

(** *** Tokens: where an accepted job is *)

Definition w_iotask (id : string) (t : IoTask Handler) : Z :=
  match t with ISubmit u => here id (ID (sub_entity u)) | _ => 0 end.
Definition w_iopc (id : string) (pc : option (IoPc Handler)) : Z :=
  match pc with
  | Some (IStart t) => w_iotask id t
  | Some (IPersist u _ _ _) | Some (ISchedule _ u) => here id (ID (sub_entity u))
  | _ => 0
  end.
Definition w_job (id : string) (j : Job Handler) : Z := here id (ID (job_entity j)).
Definition w_exec (id : string) (x : Exec Handler) : Z :=
  match exec_job x with Some j => w_job id j | None => 0 end.
Definition w_ctl (id : string) (t : ControlTask Handler) : Z :=
  match t with CFinalize id' _ _ => here id id' | _ => 0 end.
Definition w_ctlpc (id : string) (pc : option (ControlPc Handler)) : Z :=
  match pc with
  | Some (CtlStart t) => w_ctl id t
  | Some (CtlPostIo _ t _) => w_iotask id t
  | Some (CtlPostExec _ j _) => w_job id j
  | _ => 0
  end.

Definition token r (id : string) : Z :=
  total (w_iotask id) (rq (io r)) + w_iopc id (rcur (io r)) + total (w_job id) (exec_queue r) +
  total (w_exec id) (exec r) + total (w_ctl id) (rq (control r)) + w_ctlpc id (rcur (control r)).

Lemma w_iotask_nonneg id t : 0 <= w_iotask id t.
Proof. destruct t; simpl; try lia. apply here_range. Qed.
Lemma w_iopc_nonneg id t : 0 <= w_iopc id t.
Proof. destruct t as [[]|]; simpl; try lia; first [apply w_iotask_nonneg|apply here_range]. Qed.
Lemma w_job_nonneg id j : 0 <= w_job id j.
Proof. apply here_range. Qed.
Lemma w_exec_nonneg id t : 0 <= w_exec id t.
Proof. unfold w_exec. destruct (exec_job t); [apply w_job_nonneg|lia]. Qed.
Lemma w_ctl_nonneg id t : 0 <= w_ctl id t.
Proof. destruct t; simpl; try lia. apply here_range. Qed.
Lemma w_ctlpc_nonneg id t : 0 <= w_ctlpc id t.
Proof.
  destruct t as [[]|]; simpl; try lia;
    first [apply w_ctl_nonneg|apply w_iotask_nonneg|apply w_job_nonneg].
Qed.

(** A post that has come to its end *)
Lemma PostTask_rq {Q P} b (t : Q) (x x' : Runner Q P) :
  PostTask b t x = Some x' → rcur x' = rcur x ∧ (rq x' = rq x ∨ rq x' = rq x ++ [t]).
Proof. unfold PostTask. destruct b, (rclosed x); intros ?; simplify_eq; simpl; auto. Qed.

Lemma total_PostTask {Q P} (w : Q → Z) b t (x x' : Runner Q P) :
  (∀ t, 0 <= w t) → PostTask b t x = Some x' → total w (rq x') <= total w (rq x) + w t.
Proof.
  intros Hw [_ [->| ->]]%PostTask_rq; [specialize (Hw t); lia|]. by rewrite total_snoc.
Qed.

Lemma token_post_io b t r x id :
  PostTask b t (io r) = Some x → token (set_io x r) id <= token r id + w_iotask id t.
Proof.
  intros E. pose proof (total_PostTask (w_iotask id) _ _ _ _ (w_iotask_nonneg id) E).
  apply PostTask_rq in E as [E _]. unfold token. simpl. rewrite E. lia.
Qed.
Lemma token_post_control b t r x id :
  PostTask b t (control r) = Some x → token (set_control x r) id <= token r id + w_ctl id t.
Proof.
  intros E. pose proof (total_PostTask (w_ctl id) _ _ _ _ (w_ctl_nonneg id) E).
  apply PostTask_rq in E as [E _]. unfold token. simpl. rewrite E. lia.
Qed.

Lemma schedule_cases b (j : Job Handler) r r' :
  scheduleExecution b j r = Some r' →
  (r' = r ∧ exec_closed r = true) ∨
  r' = set_hist (MkHist (scheduled (hist r) ++ [ID (job_entity j)]) (started (hist r))
                   (policies (hist r)) (overlap (hist r)) (recoveries (hist r)) (reported (hist r)))
         (set_exec_queue (exec_queue r ++ [j]) (exec_closed r) r).
Proof.
  unfold scheduleExecution. destruct b; [intros; simplify_eq; by right|].
  destruct (exec_closed r) eqn:Ec; intros; simplify_eq/=; by left.
Qed.
Lemma token_schedule b j r r' id :
  scheduleExecution b j r = Some r' → token r' id <= token r id + w_job id j.
Proof.
  pose proof (w_job_nonneg id j).
  intros [[-> _]| ->]%schedule_cases; unfold token; simpl; [lia|].
  rewrite total_snoc. lia.
Qed.
Lemma schedule_same b (j : Job Handler) r r' :
  scheduleExecution b j r = Some r' →
  activeJobs r' = activeJobs r ∧ overlap (hist r') = overlap (hist r) ∧
  control r' = control r ∧ io r' = io r ∧ store r' = store r ∧ calls r' = calls r ∧
  chans r' = chans r.
Proof. by intros [[-> _]| ->]%schedule_cases. Qed.
Lemma token_cancel c r id : token (cancel c r) id = token r id.
Proof.
  unfold token. by destruct (cancel_same c r) as (_ & -> & -> & -> & _ & _ & _ & _ & _ & ->).
Qed.

Definition token_inv r : Prop :=
  overlap (hist r) = false → bounded (token r) (activeJobs r).

Lemma token_inv_le r r' :
  token_inv r → (∀ id, token r' id <= token r id) → activeJobs r' = activeJobs r →
  overlap (hist r') = overlap (hist r) → token_inv r'.
Proof. intros Hi Hle Ha Ho Hov. rewrite Ha. rewrite Ho in Hov. eapply bounded_le; eauto. Qed.

(** What one access changes, as far as tokens are concerned. *)
Lemma token_send ch e r id : token (send ch e r) id = token r id.
Proof. done. Qed.
Lemma token_io_goto pc r id :
  token (io_goto pc r) id = token r id - w_iopc id (rcur (io r)) + w_iopc id (Some pc).
Proof. unfold token. simpl. lia. Qed.
Lemma token_io_return r id : token (io_return r) id = token r id - w_iopc id (rcur (io r)).
Proof. unfold token. simpl. lia. Qed.
Lemma token_control_goto pc r id :
  token (control_goto pc r) id = token r id - w_ctlpc id (rcur (control r)) + w_ctlpc id (Some pc).
Proof. unfold token. simpl. lia. Qed.
Lemma token_control_return r id :
  token (control_return r) id = token r id - w_ctlpc id (rcur (control r)).
Proof. unfold token. simpl. lia. Qed.
Lemma token_wrapper k x y r id :
  exec r !! k = Some x → exec_job y = exec_job x → token (set_wrapper k y r) id = token r id.
Proof. intros Hk E. unfold token. simpl. rw_total. unfold w_exec at 2 3. rewrite E. lia. Qed.
Lemma token_done k x r id :
  exec r !! k = Some x → token (set_wrapper k EDone r) id = token r id - w_exec id x.
Proof. intros Hk. unfold token. simpl. rw_total. unfold w_exec at 3. simpl. lia. Qed.

Lemma token_control_start r t :
  token_inv r → rcur (control r) = Some (CtlStart t) → token_inv (control_start t (control_return r)).
Proof.
  intros Hi Hc. set (r0 := control_return r).
  assert (Ht : ∀ id, token r0 id = token r id - w_ctl id t).
  { intros id. unfold r0. by rewrite token_control_return, Hc. }
  assert (H0 : token_inv r0).
  { apply (token_inv_le r); try done. intros id. rewrite Ht. pose proof (w_ctl_nonneg id t). lia. }
  assert (Hgo : ∀ pc id, token (control_goto pc r0) id = token r0 id + w_ctlpc id (Some pc)).
  { intros pc id. rewrite token_control_goto. simpl (w_ctlpc id (rcur _)). lia. }
  destruct t as [ch ty h|ch ty|ch ctx e delay|ch id|id st msg|done' job|done'];
    cbn [control_start]; try done.
  - unfold submitJobControl. destruct (activeJobs r0 !! ID e) eqn:Ea; [done|].
    destruct (handlers r0 !! Type_ e) as [h|]; [|done]. intros Hov. specialize (H0 Hov).
    eapply bounded_insert; [exact H0|exact Ea|]. intros id.
    etransitivity; [apply Z.eq_le_incl, Hgo|]. simpl. lia.
  - unfold cancelJobControl. destruct (activeJobs r0 !! id) as [[c0 e]|]; [|done].
    apply (token_inv_le r0); try done; [|by destruct c0..].
    intros id'. by rewrite token_send, token_cancel.
  - unfold finalizeJobControl. destruct (activeJobs r0 !! id) as [[c0 e]|] eqn:Ea; [|done].
    cbn zeta. destruct (cancel_same c0 (set_active (delete id (activeJobs r0)) r0))
      as (F1 & F2 & F3 & F4 & F5 & _).
    intros Hov. change (overlap (hist (cancel c0 (set_active (delete id (activeJobs r0)) r0))) = false) in Hov.
    rewrite F5 in Hov. specialize (Hi Hov). cbn [activeJobs control_goto set_control]. rewrite F1.
    apply (bounded_delete (token r)); [exact Hi|]. intros id'. specialize (Ht id'). simpl in Ht.
    rewrite <- Ht, token_control_goto, token_cancel, F3. simpl.
    change (token (set_active _ _) id') with (token r0 id'). lia.
  - unfold recoverJobControl. destruct (handlers r0 !! Type_ job) as [h|].
    + intros Hov. simpl in Hov. apply orb_false_iff in Hov as [Hov Hna%bool_decide_eq_false].
      specialize (H0 Hov). eapply bounded_insert; [exact H0|by apply eq_None_not_Some|].
      intros id. etransitivity; [apply Z.eq_le_incl, Hgo|]. simpl. unfold w_job. simpl. lia.
    + apply (token_inv_le r0); try done.
  - unfold cancelAllControl.
    destruct (cancel_all_same (map_to_list (activeJobs r0)).*2 r0)
      as (F1 & F2 & F3 & F4 & F5 & _ & _ & _ & _ & F6).
    apply (token_inv_le r0); [done| |exact F1|exact (f_equal overlap F5)].
    intros id. rewrite token_send. unfold token. by rewrite F2, F3, F4, F6.
Qed.

Lemma token_control_after k r id :
  token (control_after k r) id = token r id - w_ctlpc id (rcur (control r)).
Proof.
  destruct k; simpl; rewrite ?token_send, ?token_control_goto, ?token_control_return; simpl; lia.
Qed.
Lemma control_after_same k r :
  activeJobs (control_after k r) = activeJobs r ∧ hist (control_after k r) = hist r ∧
  io (control_after k r) = io r ∧ exec (control_after k r) = exec r ∧
  store (control_after k r) = store r ∧ calls (control_after k r) = calls r.
Proof. by destruct k. Qed.

Lemma token_control_step b r r' : token_inv r → control_step b r = Some r' → token_inv r'.
Proof.
  intros Hi E0. unfold control_step in E0.
  destruct (rcur (control r)) as [[t|p t k|p j dn|u ch|id st msg]|] eqn:Ec.
  - destruct b; simplify_eq. by apply token_control_start.
  - destruct b; simplify_eq. destruct (PostTask p t (io r)) as [x|] eqn:Ep.
    + destruct (control_after_same k (set_io x r)) as (F1 & F2 & _).
      apply (token_inv_le r); [done| |exact F1|exact (f_equal overlap F2)]. intros id.
      rewrite token_control_after. simpl. rewrite Ec. simpl.
      pose proof (token_post_io _ _ _ _ id Ep). lia.
    + apply (token_inv_le r); try done. intros id. rewrite token_control_goto, Ec. simpl. lia.
  - destruct b; simplify_eq. destruct (scheduleExecution p j r) as [r1|] eqn:Es.
    + destruct (schedule_same _ _ _ _ Es) as (F1 & F2 & F3 & _).
      apply (token_inv_le r); [done| |done|exact F2]. intros id.
      pose proof (token_schedule _ _ _ _ id Es).
      rewrite token_control_after, F3, Ec. simpl. lia.
    + apply (token_inv_le r); try done. intros id. rewrite token_control_goto, Ec. simpl. lia.
  - destruct b; inv_act E0; apply (token_inv_le r); try done; intros id;
      rewrite token_send, token_control_return, Ec; simpl; lia.
  - destruct b; simplify_eq. apply (token_inv_le r); try done. intros id'.
    rewrite token_control_goto. simpl. rewrite Ec. simpl. unfold token. simpl. rewrite Ec. simpl. lia.
  - destruct b; [done|]. destruct (rq (control r)) as [|t q] eqn:Eq; simplify_eq.
    apply (token_inv_le r); try done. intros id. unfold token. simpl. rewrite Eq, Ec. simpl. lia.
Qed.

Lemma token_abort u e r :
  token_inv r → (∀ id, w_iopc id (rcur (io r)) = here id (ID (sub_entity u))) →
  token_inv (abort u e r).
Proof.
  intros Hi Hw. unfold abort. set (r1 := io_return r). set (r2 := set_active _ r1).
  destruct (cancel_same (sub_jobCtx u) r2) as (F1 & F2 & F3 & F4 & F5 & _).
  intros Hov. cbn [send set_chans hist] in Hov. rewrite F5 in Hov. specialize (Hi Hov).
  cbn [send set_chans activeJobs]. rewrite F1.
  apply (bounded_delete (token r)); [exact Hi|]. intros id. rewrite token_send, token_cancel.
  change (token r2 id) with (token r1 id). unfold r1. rewrite token_io_return, Hw. lia.
Qed.

Lemma token_persist_end u err r :
  token_inv r → (∀ id, w_iopc id (rcur (io r)) = here id (ID (sub_entity u))) →
  token_inv (persist_end u err r).
Proof.
  intros Hi Hw. unfold persist_end. destruct err as [e|]; [by apply token_abort|].
  destruct (ctx_err (sub_jobCtx u) r) as [e|]; [by apply token_abort|].
  apply (token_inv_le r); try done. intros id. rewrite token_io_goto, Hw. simpl. lia.
Qed.

Lemma report_same cfg id e g r :
  activeJobs (report cfg id e g r) = activeJobs r ∧ io (report cfg id e g r) = io r ∧
  control (report cfg id e g r) = control r ∧ exec (report cfg id e g r) = exec r ∧
  overlap (hist (report cfg id e g r)) = overlap (hist r) ∧ store (report cfg id e g r) = store r ∧
  started (hist (report cfg id e g r)) = started (hist r) ∧
  scheduled (hist (report cfg id e g r)) = scheduled (hist r) ∧
  policies (hist (report cfg id e g r)) = policies (hist r) ∧
  recoveries (hist (report cfg id e g r)) = recoveries (hist r) ∧
  calls (report cfg id e g r) = calls r ∧ chans (report cfg id e g r) = chans r ∧
  exec_queue (report cfg id e g r) = exec_queue r.
Proof. unfold report. by destruct (g && _). Qed.

Lemma token_report cfg id e g r : token_inv r → token_inv (report cfg id e g r).
Proof.
  destruct (report_same cfg id e g r) as (F1 & F2 & F3 & F4 & F5 & _ & _ & _ & _ & _ & _ & _ & F6).
  intros Hi. apply (token_inv_le r); try done. intros id'. unfold token. by rewrite F2, F3, F4, F6.
Qed.

Lemma token_io_start t r :
  token_inv r → rcur (io r) = Some (IStart t) → token_inv (io_start durable t (io_return r)).
Proof.
  intros Hi Hc. set (r0 := io_return r).
  assert (Ht : ∀ id, token r id = token r0 id + w_iotask id t).
  { intros id. unfold r0. rewrite token_io_return, Hc. simpl. lia. }
  assert (Hgo : ∀ pc id, token (io_goto pc r0) id = token r0 id + w_iopc id (Some pc)).
  { intros pc id. rewrite token_io_goto. simpl (w_iopc id (rcur _)). lia. }
  destruct t as [u|ctx id st msg final|ch ctx]; cbn [io_start]; simpl in Ht.
  - (* the task is now the running closure *)
    set (rp := io_goto (IPersist u durable (getRuntimeConfigSnapshot r) retry_start) r0).
    assert (Hip : token_inv rp).
    { apply (token_inv_le r); try done. intros id. unfold rp. rewrite Hgo, Ht. simpl. lia. }
    destruct (ctx_err (sub_jobCtx u) r0) as [e|] eqn:Ee.
    + exact (token_abort u e rp Hip (λ _, eq_refl)).
    + unfold persist_start. destruct durable; [exact Hip|].
      destruct (store_get _ _) as [s g]. exact Hip.
  - apply (token_inv_le r); try done. intros id'. rewrite Hgo, Ht. simpl. lia.
  - destruct (store_list _ _) as [s [l|e]]; apply (token_inv_le r); try done; intros id';
      rewrite Ht; unfold token; simpl; lia.
Qed.

Lemma token_schedule_step b u r :
  token_inv r → rcur (io r) = Some (ISchedule b u) → token_inv (schedule_step b u r).
Proof.
  intros Hi Ec. unfold schedule_step. destruct (scheduleExecution _ _ _) as [r1|] eqn:Es.
  - destruct (schedule_same _ _ _ _ Es) as (F1 & F2 & _ & F4 & _).
    apply (token_inv_le r); [done| |done|exact F2]. intros id.
    pose proof (token_schedule _ _ _ _ id Es) as Hs. simpl in Hs.
    rewrite token_send, token_io_return, F4, Ec. unfold w_job in Hs. simpl in *. lia.
  - apply (token_inv_le r); try done. intros id. rewrite token_io_goto, Ec. simpl. lia.
Qed.

Lemma token_io_step el b r r' : token_inv r → io_step oor durable el b r = Some r' → token_inv r'.
Proof.
  intros Hi E0. unfold io_step, persist_step, update_step, recovery_step in E0. destruct (rcur (io r)) as [pc|] eqn:Ec.
  - assert (Hsame : ∀ pc' s, (∀ id, w_iopc id (Some pc') = w_iopc id (Some pc)) →
              token_inv (io_goto pc' (set_store s r))).
    { intros pc' s Hw. apply (token_inv_le r); try done. intros id.
      rewrite token_io_goto, Hw. simpl (rcur _). rewrite Ec. change (token (set_store s r) id) with (token r id).
      lia. }
    assert (Hgone : ∀ x, token_inv x → io x = io r → token_inv (io_return x)).
    { intros x Hx Hio. apply (token_inv_le x); try done. intros id. rewrite token_io_return.
      pose proof (w_iopc_nonneg id (rcur (io x))). lia. }
    destruct pc as [t|u create cfg rt|p u|ctx id st msg final cfg rt|ch ctx [|job l]|ch ctx job l cfg rt
                   |ch ctx [|job l]|p ch ctx job l d|ch ctx l d].
    + simplify_eq. by apply token_io_start.
    + destruct rt as [a e|a e|e g]; [inv_act E0; by apply Hsame..|]. simplify_eq.
      apply token_persist_end; [by apply token_report|]. intros id.
      destruct (report_same cfg (ID (sub_entity u)) e g r) as (_ & -> & _). by rewrite Ec.
    + simplify_eq. by apply token_schedule_step.
    + destruct rt as [a e|a e|e g]; [inv_act E0; by apply Hsame..|].
      assert (token_inv (report cfg id e g (io_return r))) as Hr by (apply token_report; by apply Hgone).
      simplify_eq. destruct final; [|done]. by apply (token_inv_le (report cfg id e g (io_return r))).
    + destruct (store_recoverable _) as [s [js|e]]; simplify_eq; [by apply Hsame|].
      apply (Hgone (set_store s r)); [|done]. by apply (token_inv_le r).
    + simplify_eq. by apply (Hsame _ (store r)).
    + destruct rt as [a e|a e|e g]; [inv_act E0; by apply Hsame..|]. simplify_eq.
      apply token_report. by apply (Hsame _ (store r)).
    + simplify_eq. by apply (Hgone r).
    + simplify_eq. by apply (Hsame _ (store r)).
    + destruct (PostTask p _ (control r)) as [x|] eqn:Ep; simplify_eq; [|by apply (Hsame _ (store r))].
      apply (token_inv_le r); try done. intros id. rewrite token_io_goto. simpl. rewrite Ec. simpl.
      pose proof (token_post_control _ _ _ _ id Ep) as Hp. simpl in Hp. lia.
    + destruct b; inv_act E0; [by apply (Hgone r)|by apply (Hsame _ (store r))].
  - destruct (rq (io r)) as [|t q] eqn:Eq; simplify_eq.
    apply (token_inv_le r); try done. intros id. unfold token. simpl. rewrite Eq, Ec. simpl. lia.
Qed.

Lemma token_exec_start k r r' : token_inv r → exec_start k r = Some r' → token_inv r'.
Proof.
  intros Hi E0. unfold exec_start in E0. inv_act E0. apply (token_inv_le r); try done. intros id.
  unfold token. simpl. rw_total. unfold w_exec at 2. simpl. lia.
Qed.
Lemma token_exec_lose k r r' : token_inv r → exec_lose k r = Some r' → token_inv r'.
Proof.
  intros Hi E0. unfold exec_lose in E0. inv_act E0. apply (token_inv_le r); try done. intros id.
  unfold token. simpl. rw_total. pose proof (w_job_nonneg id j). lia.
Qed.
Lemma token_exec_step k r r' : token_inv r → exec_step k r = Some r' → token_inv r'.
Proof.
  intros Hi E0. unfold exec_step in E0. destruct (exec r !! k) as [x|] eqn:Ek; [|done].
  destruct x as [j|p j|j|p j st msg|]; simplify_eq.
  - apply (token_inv_le r); try done. intros id. erewrite token_wrapper; [done|done|].
    by destruct (ctx_err _ _).
  - destruct (PostTask _ _ _) as [x|] eqn:Ep; (apply (token_inv_le r); try done); intros id.
    + change (token (set_wrapper k (ERunning j) (set_io x r)) id <= token r id).
      erewrite token_wrapper by done. pose proof (token_post_io _ _ _ _ id Ep) as Hp. simpl in Hp. lia.
    + by erewrite token_wrapper.
  - destruct (PostTask _ _ _) as [x|] eqn:Ep; (apply (token_inv_le r); try done); intros id.
    + erewrite token_done by done. pose proof (token_post_control _ _ _ _ id Ep) as Hp.
      unfold w_exec, w_job. simpl in *. lia.
    + by erewrite token_wrapper.
Qed.

Lemma token_exec_end k o r r' : token_inv r → exec_end k o r = Some r' → token_inv r'.
Proof.
  intros Hi E0. unfold exec_end in E0. inv_act E0. apply (token_inv_le r); try done. intros id.
  by erewrite token_wrapper.
Qed.

Lemma token_call_post p c ch r r' :
  call_post p c ch r = Some r' → (∀ id, token r' id <= token r id) ∧ activeJobs r' = activeJobs r ∧
  overlap (hist r') = overlap (hist r).
Proof.
  intros E0. unfold call_post in E0. destruct (call_op c); simpl in E0;
    (destruct (PostTask p _ _) as [x|] eqn:Ep; [|done]); cbn [mbind option_bind] in E0; simplify_eq;
    (split; [intros id0|done]);
    first [apply (token_post_control _ _ _ _ id0) in Ep|apply (token_post_io _ _ _ _ id0) in Ep];
    simpl in Ep; unfold token in *; simpl in *; lia.
Qed.

Lemma token_call_step b k r r' : token_inv r → call_step b k r = Some r' → token_inv r'.
Proof.
  intros Hi E0. unfold call_step in E0. destruct (calls r !! k) as [c|]; [|done]. cbn [mbind option_bind] in E0.
  destruct (call_pc c) as [|p ch|ch| | |n|e]; [..|done].
  - destruct b; [done|]. simplify_eq. by apply (token_inv_le r).
  - destruct b; [done|]. simplify_eq.
    destruct (call_post _ _ _ _) as [r1|] eqn:Ep; [|by apply (token_inv_le r)].
    apply token_call_post in Ep as (? & ? & ?). by apply (token_inv_le r).
  - destruct b; inv_act E0; by apply (token_inv_le r).
  - destruct b; inv_act E0; first [done|by apply (token_inv_le r)].
  - destruct b; [done|]. simplify_eq. by apply (token_inv_le r).
  - destruct b; [done|]. destruct n as [|[|[|[|n]]]]; simplify_eq; apply (token_inv_le r); try done; intros id.
    + unfold token. simpl. pose proof (total_nonneg (w_ctl id) (rq (control r)) (w_ctl_nonneg id)). lia.
    + unfold token. simpl. pose proof (total_nonneg (w_iotask id) (rq (io r)) (w_iotask_nonneg id)). lia.
Qed.

Lemma jm_token_step l r r' : token_inv r → step l r = Some r' → token_inv r'.
Proof.
  intros Hi E0. destruct l as [op n|b k|b|el b|k|k|k|k o|n|p|b|b|b]; cbn [JobManager.step] in E0.
  - simplify_eq. unfold call_entry. case_match; [by apply (token_inv_le r)|].
    destruct op; by apply (token_inv_le r).
  - by eapply token_call_step.
  - by eapply token_control_step.
  - by eapply token_io_step.
  - by eapply token_exec_start.
  - by eapply token_exec_lose.
  - by eapply token_exec_step.
  - by eapply token_exec_end.
  - simplify_eq. by apply (token_inv_le r).
  - simplify_eq. by apply (token_inv_le r).
  - simplify_eq. by apply (token_inv_le r).
  - simplify_eq. by apply (token_inv_le r).
  - simplify_eq. by apply (token_inv_le r).
Qed.

Lemma jm_token_reach s r : reachable step (NewJobManager s) r → token_inv r.
Proof.
  apply (reachable_invariant step token_inv); [|intros; eauto using jm_token_step].
  intros _ id. unfold token. simpl. case_bool_decide; simpl; lia.
Qed.
End job_manager_lemmas.
