(* ===== verification/JobPosts.v ===== *)
(** * What the JobManager asks of its runners (job/job_manager.go)

    JobManager.v has the queues of its three runners inside its state.  Here
    they are taken out: which goroutine of the manager is inside [PostTask] and
    with what ([wants]), which steps never touch a queue ([plain]), and that
    every step reads and changes the queues in no other way than posting to
    them, taking from them and shutting them down.  JobRunners.v puts the
    machines of the runners in their place. *)

From S2P Require Import Prelude JobStore Retry JobManager.

Section posts.
Context {S Handler : Type} `{JobStoreOps S}.
Context (oor : SpecFloat.spec_float → Z) (durable : bool).
Notation JM := (JobManager S Handler).
Notation step := (JobManager.step (S:=S) (Handler:=Handler) oor durable).
Implicit Types m : JM.

Record Queues := MkQueues {
  q_control : list (ControlTask Handler); q_control_closed : bool;
  q_io : list (IoTask Handler); q_io_closed : bool;
  q_exec : list (Job Handler); q_exec_closed : bool;
}.
Definition queues m : Queues :=
  MkQueues (rq (control m)) (rclosed (control m)) (rq (io m)) (rclosed (io m))
    (exec_queue m) (exec_closed m).
Definition with_queues (qs : Queues) m : JM :=
  set_exec_queue (q_exec qs) (q_exec_closed qs)
    (set_io (MkRunner (q_io qs) (rcur (io m)) (q_io_closed qs))
       (set_control (MkRunner (q_control qs) (rcur (control m)) (q_control_closed qs)) m)).

Lemma with_queues_id m : with_queues (queues m) m = m.
Proof. by destruct m as [? ? ? ? ? ? [] [] ? ? ? ? ? ? ? ?]. Qed.
Lemma with_queues_twice qs qs' m : with_queues qs (with_queues qs' m) = with_queues qs m.
Proof. done. Qed.
Lemma queues_with qs m : queues (with_queues qs m) = qs.
Proof. by destruct qs. Qed.

(** ** The goroutines of the manager, and their posts *)

Inductive Poster := PCall (k : nat) | PControl | PIo | PExec (k : nat).
#[export] Instance Poster_eq_dec : EqDecision Poster.
Proof. solve_decision. Defined.
#[export] Instance Poster_countable : Countable Poster.
Proof.
  refine (inj_countable'
    (λ p, match p with PCall k => inl (inl k) | PControl => inl (inr ()) | PIo => inr (inl ())
          | PExec k => inr (inr k) end)
    (λ x, match x with inl (inl k) => PCall k | inl (inr _) => PControl | inr (inl _) => PIo
          | inr (inr k) => PExec k end) _). by intros [].
Defined.

Inductive Which := ToControl | ToIo | ToExec.
#[export] Instance Which_eq_dec : EqDecision Which.
Proof. solve_decision. Defined.
Inductive Want := WControl (t : ControlTask Handler) | WIo (t : IoTask Handler) | WExec (j : Job Handler).
Definition which (w : Want) : Which :=
  match w with WControl _ => ToControl | WIo _ => ToIo | WExec _ => ToExec end.

Definition queue_closed (w : Which) (qs : Queues) : bool :=
  match w with
  | ToControl => q_control_closed qs | ToIo => q_io_closed qs | ToExec => q_exec_closed qs
  end.
Definition push (w : Want) (qs : Queues) : Queues :=
  let '(MkQueues c cc i ic e ec) := qs in
  match w with
  | WControl t => MkQueues (c ++ [t]) cc i ic e ec
  | WIo t => MkQueues c cc (i ++ [t]) ic e ec
  | WExec j => MkQueues c cc i ic (e ++ [j]) ec
  end.
Definition put_control q (qs : Queues) : Queues :=
  MkQueues q (q_control_closed qs) (q_io qs) (q_io_closed qs) (q_exec qs) (q_exec_closed qs).
Definition put_io q (qs : Queues) : Queues :=
  MkQueues (q_control qs) (q_control_closed qs) q (q_io_closed qs) (q_exec qs) (q_exec_closed qs).
Definition put_exec q (qs : Queues) : Queues :=
  MkQueues (q_control qs) (q_control_closed qs) (q_io qs) (q_io_closed qs) q (q_exec_closed qs).

(** Who is inside [PostTask]: past the test of the flag or not, and with what. *)
Definition wants (p : Poster) m : option (bool * Want) :=
  match p with
  | PCall k =>
      c ← calls m !! k;
      match call_pc c with
      | PcPost pushing ch =>
          Some (pushing, match m_task (S:=S) (method (call_op c)) ch (call_ctx c) with
                         | inl t => WControl t | inr t => WIo t end)
      | _ => None
      end
  | PControl =>
      match rcur (control m) with
      | Some (CtlPostIo pushing t _) => Some (pushing, WIo t)
      | Some (CtlPostExec pushing j _) => Some (pushing, WExec j)
      | _ => None
      end
  | PIo =>
      match rcur (io m) with
      | Some (ISchedule pushing u) => Some (pushing, WExec (sub_job u))
      | Some (IRecPost pushing _ _ job _ done) => Some (pushing, WControl (CRecover done job))
      | _ => None
      end
  | PExec k =>
      match exec m !! k with
      | Some (EStatus pushing j) =>
          Some (pushing, WIo (updateStatusIO (job_ctx j) (ID (job_entity j)) JobStatusRunning ""))
      | Some (EFinal pushing j st msg) =>
          Some (pushing, WControl (finalizeJob (ID (job_entity j)) st msg))
      | _ => None
      end
  end.

(** Whose step a label is, and the label with which it posts. *)
Definition actor (l : Label Handler) : option Poster :=
  match l with
  | LCallStep _ k => Some (PCall k)
  | LControl _ => Some PControl
  | LIo _ _ => Some PIo
  | LExecStep k | LExecEnd k _ => Some (PExec k)
  | _ => None
  end.
Definition label_of (p : Poster) : Label Handler :=
  match p with
  | PCall k => LCallStep false k
  | PControl => LControl false
  | PIo => LIo false false
  | PExec k => LExecStep k
  end.

(** A step that neither posts nor takes a task nor shuts a runner down. *)
Definition plain (l : Label Handler) m : bool :=
  match actor l with Some p => bool_decide (wants p m = None) | None => true end &&
  match l with
  | LCallStep _ k =>
      match calls m !! k with
      | Some c => match call_pc c with PcRunners _ => false | _ => true end
      | None => true
      end
  | LControl _ => match rcur (control m) with None => false | _ => true end
  | LIo _ _ => match rcur (io m) with None => false | _ => true end
  | LExecStart _ | LExecLose _ => false
  | _ => true
  end.
End posts.

(** ** Lemmas *)

Section posts_lemmas.
Context {S Handler : Type} `{JobStoreOps S}.
Context (oor : SpecFloat.spec_float → Z) (durable : bool).
Notation JM := (JobManager S Handler).
Notation step := (JobManager.step (S:=S) (Handler:=Handler) oor durable).
Notation Queues := (Queues (Handler:=Handler)).
Implicit Types (m : JM) (qs : Queues).

Lemma wants_with qs p m : wants p (with_queues qs m) = wants p m.
Proof. by destruct p. Qed.

Lemma ctx_err_with qs c m : ctx_err c (with_queues qs m) = ctx_err c m.
Proof. done. Qed.
Lemma cancel_with qs c m : cancel c (with_queues qs m) = with_queues qs (cancel c m).
Proof. by destruct c. Qed.
Lemma cancel_all_with qs (l : list (Ctx * JobEntity)) m :
  foldr (λ '(c, _), cancel c) (with_queues qs m) l = with_queues qs (foldr (λ '(c, _), cancel c) m l).
Proof. induction l as [|[c e] l IH]; simpl; [done|]. by rewrite IH, cancel_with. Qed.
Lemma report_with qs cfg id e g m :
  report cfg id e g (with_queues qs m) = with_queues qs (report cfg id e g m).
Proof. unfold report. simpl. by destruct (g && _). Qed.
Lemma abort_with qs u e m : abort u e (with_queues qs m) = with_queues qs (abort u e m).
Proof. unfold abort. by destruct (sub_jobCtx u). Qed.
Lemma persist_end_with qs u e m :
  persist_end u e (with_queues qs m) = with_queues qs (persist_end u e m).
Proof.
  unfold persist_end. destruct e as [e|]; [apply abort_with|]. rewrite ctx_err_with.
  destruct (ctx_err _ _); [apply abort_with|done].
Qed.

Lemma control_start_with qs t m :
  control_start t (control_return (with_queues qs m)) = with_queues qs (control_start t (control_return m)).
Proof.
  change (control_return (with_queues qs m)) with (with_queues qs (control_return m)).
  generalize (control_return m). clear m. intros m.
  destruct t as [ch ty h|ch ty|ch ctx e delay|ch id|id st msg|dn job|dn]; simpl; try done.
  - unfold submitJobControl. simpl. by repeat case_match.
  - unfold cancelJobControl. simpl. destruct (activeJobs m !! id) as [[c e]|]; [|done].
    by destruct c.
  - unfold finalizeJobControl. simpl. destruct (activeJobs m !! id) as [[c e]|]; [|done].
    by destruct c.
  - unfold recoverJobControl. simpl. by case_match.
  - unfold cancelAllControl. simpl. by rewrite cancel_all_with.
Qed.

Lemma io_start_with qs t m :
  io_start durable t (io_return (with_queues qs m)) = with_queues qs (io_start durable t (io_return m)).
Proof.
  change (io_return (with_queues qs m)) with (with_queues qs (io_return m)).
  generalize (io_return m). clear m. intros m.
  destruct t as [u|ctx id st msg final|ch ctx]; simpl; [|done|].
  - rewrite ctx_err_with. destruct (ctx_err _ _); [apply abort_with|].
    unfold persist_start. simpl. destruct durable; [done|]. by destruct (store_get _ _) as [s g].
  - by destruct (store_list _ _) as [s [l|e]].
Qed.

(** The steps of the two closures *)
Lemma control_step_with qs b m m' :
  plain (LControl b) m = true → control_step b m = Some m' →
  control_step b (with_queues qs m) = Some (with_queues qs m').
Proof.
  unfold plain, control_step. simpl.
  destruct (rcur (control m)) as [[t|p t k|p j dn|u ch|id st msg]|]; [|done|done| | |done];
    intros _; destruct b; intros E; simplify_eq/=.
  - by rewrite control_start_with.
  - rewrite ctx_err_with. destruct (ctx_err _ _); by simplify_eq/=.
  - unfold received in *. simpl. destruct (lookup_chan _ _); by simplify_eq/=.
  - done.
Qed.

Lemma retry_with (p : RetryPolicy) op e el pc (s : S) (k : Retry → S → JM) qs m' :
  ('(pc, s, _) ← retry_step oor p op e el pc s; Some (k pc s)) = Some m' →
  ('(pc, s, _) ← retry_step oor p op e el pc s; Some (with_queues qs (k pc s))) = Some (with_queues qs m').
Proof. destruct (retry_step _ _ _ _ _ _ _) as [[[? ?] ?]|]; intros E; by simplify_eq/=. Qed.

Lemma persist_step_with qs el u create p pc m m' :
  persist_step oor el u create p pc m = Some m' →
  persist_step oor el u create p pc (with_queues qs m) = Some (with_queues qs m').
Proof.
  unfold persist_step. destruct pc as [a e|a e|e g]; intros E; [by apply (retry_with _ _ _ _ _ _ _ qs) in E..|].
  simplify_eq. by rewrite report_with, persist_end_with.
Qed.
Lemma update_step_with qs el ctx id st msg final p pc m m' :
  update_step oor el ctx id st msg final p pc m = Some m' →
  update_step oor el ctx id st msg final p pc (with_queues qs m) = Some (with_queues qs m').
Proof.
  unfold update_step. destruct pc as [a e|a e|e g]; intros E; [by apply (retry_with _ _ _ _ _ _ _ qs) in E..|].
  simplify_eq. change (io_return (with_queues qs m)) with (with_queues qs (io_return m)).
  rewrite report_with. by destruct final.
Qed.
Lemma recovery_step_with qs el b c m m' :
  match c with IRecPost _ _ _ _ _ _ => False | _ => True end →
  recovery_step oor el b c m = Some m' →
  recovery_step oor el b c (with_queues qs m) = Some (with_queues qs m').
Proof.
  intros Hc E.
  destruct c as [| | | |ch ctx [|job l]|ch ctx job l p pc|ch ctx [|job l]| |ch ctx l d]; try done; simpl in *.
  - destruct (store_recoverable _) as [s [js|e]]; by simplify_eq/=.
  - by simplify_eq/=.
  - destruct pc as [a e|a e|e g]; [by apply (retry_with _ _ _ _ _ _ _ qs) in E..|]. simplify_eq.
    change (io_goto ?c (with_queues qs m)) with (with_queues qs (io_goto c m)). by rewrite report_with.
  - by simplify_eq/=.
  - by simplify_eq/=.
  - destruct b; [rewrite ctx_err_with; destruct (ctx_err _ _); by simplify_eq/=|].
    unfold received in *. simpl. destruct (lookup_chan _ _); by simplify_eq/=.
Qed.
Lemma io_step_with qs el b m m' :
  plain (LIo el b) m = true → io_step oor durable el b m = Some m' →
  io_step oor durable el b (with_queues qs m) = Some (with_queues qs m').
Proof.
  unfold plain, io_step. simpl. destruct (rcur (io m)) as [c|]; [|by rewrite andb_false_r].
  intros Hp E. destruct c; try done; try (by apply recovery_step_with).
  - simplify_eq. by rewrite io_start_with.
  - by apply persist_step_with.
  - by apply update_step_with.
Qed.

Lemma call_step_with qs b k m m' :
  plain (LCallStep b k) m = true → call_step b k m = Some m' →
  call_step b k (with_queues qs m) = Some (with_queues qs m').
Proof.
  unfold plain, call_step. simpl. destruct (calls m !! k) as [c|]; simpl; [|done].
  destruct (call_pc c) as [|p ch|ch| | |n|e]; simpl; try done; intros _ E.
  - destruct b; by simplify_eq/=.
  - destruct b; [rewrite ctx_err_with; destruct (ctx_err _ _); by simplify_eq/=|].
    unfold received in *. simpl. destruct (lookup_chan _ _); by simplify_eq/=.
  - destruct b; [rewrite ctx_err_with; destruct (ctx_err _ _); by simplify_eq/=|].
    unfold GetActiveJobCount in *. simpl. case_match; by simplify_eq/=.
  - destruct b; [done|]. simplify_eq. simpl. by repeat case_match.
Qed.

(** A plain step does not look at the queues and leaves them alone. *)
Lemma plain_with qs l m m' :
  plain l m = true → step l m = Some m' → step l (with_queues qs m) = Some (with_queues qs m').
Proof.
  intros Hp E. destruct l as [op n|b k|b|el b|k|k|k|k o|n|p|b|b|b]; try done; cbn [JobManager.step] in *.
  - simplify_eq. unfold call_entry.
    assert (m_checks (method op) [CallerCtx n] (with_queues qs m)
              = m_checks (method op) [CallerCtx n] m) as -> by (by destruct op).
    case_match; [done|]. by destruct op.
  - by apply call_step_with.
  - by apply control_step_with.
  - by apply io_step_with.
  - unfold exec_step, plain in *. simpl in *. destruct (exec m !! k) as [[j|pu j|j|pu j st msg|]|]; by simplify_eq/=.
  - unfold exec_end in *. simpl in *. destruct (exec m !! k) as [[j|pu j|j|pu j st msg|]|]; try done.
    rewrite ctx_err_with. destruct (final_status _ _) as [st msg]. by simplify_eq/=.
  - by simplify_eq/=.
  - by simplify_eq/=.
  - by simplify_eq/=.
  - by simplify_eq/=.
  - by simplify_eq/=.
Qed.

(** A post tests the flag or appends, and its poster goes on if it is through. *)
Definition post_effect (pushing : bool) (w : Want) qs : Queues := if pushing then push w qs else qs.
Definition add_scheduled (id : string) m : JM :=
  let h := hist m in
  set_hist (MkHist (scheduled h ++ [id]) (started h) (policies h) (overlap h) (recoveries h)
              (reported h)) m.
Definition past_post (p : Poster) (pushing closed : bool) m : JM :=
  let through := pushing || closed in
  match p with
  | PCall k =>
      match calls m !! k with
      | Some c =>
          match call_pc c with
          | PcPost _ ch =>
              if through then
                set_call k c (PcWait ch)
                  match m_task (S:=S) (method (call_op c)) ch (call_ctx c) with
                  | inl _ => m | inr _ => count_recovery m end
              else set_call k c (PcPost true ch) m
          | _ => m
          end
      | None => m
      end
  | PControl =>
      match rcur (control m) with
      | Some (CtlPostIo _ t k) =>
          if through then control_after k m else control_goto (CtlPostIo true t k) m
      | Some (CtlPostExec _ j dn) =>
          if through then
            control_after (AfterClose dn) (if pushing then add_scheduled (ID (job_entity j)) m else m)
          else control_goto (CtlPostExec true j dn) m
      | _ => m
      end
  | PIo =>
      match rcur (io m) with
      | Some (ISchedule _ u) =>
          if through then
            send (sub_result u) None
              (io_return (if pushing then add_scheduled (ID (sub_entity u)) m else m))
          else io_goto (ISchedule true u) m
      | Some (IRecPost _ ch ctx job jobs dn) =>
          if through then io_goto (IRecWait ch ctx jobs dn) m
          else io_goto (IRecPost true ch ctx job jobs dn) m
      | _ => m
      end
  | PExec k =>
      match exec m !! k with
      | Some (EStatus _ j) =>
          if through then add_started (ID (job_entity j)) (set_wrapper k (ERunning j) m)
          else set_wrapper k (EStatus true j) m
      | Some (EFinal _ j st msg) =>
          if through then set_wrapper k EDone m else set_wrapper k (EFinal true j st msg) m
      | _ => m
      end
  end.

Lemma post_with p pushing w m qs :
  wants p m = Some (pushing, w) →
  step (label_of p) (with_queues qs m)
    = Some (with_queues (post_effect pushing w qs)
              (past_post p pushing (queue_closed (which w) qs) m)).
Proof.
  intros Hw. destruct qs as [qc cc qi ic qe ec].
  destruct p as [k| | |k]; unfold wants, past_post in *; cbn [label_of JobManager.step].
  - unfold call_step. simpl. destruct (calls m !! k) as [c|]; [|done]. cbn [mbind option_bind] in Hw.
    simpl. destruct (call_pc c) as [|p ch| | | | |]; try done. unfold call_post.
    destruct (m_task (method (call_op c)) ch (call_ctx c)); simplify_eq; simpl;
      destruct pushing; simpl; [done|by destruct cc|done|by destruct ic].
  - unfold control_step. simpl.
    destruct (rcur (control m)) as [[t|p t k|p j dn|u ch|id st msg]|]; try done; simplify_eq; simpl;
      (destruct pushing; simpl; [by destruct k || done|]).
    + by destruct ic, k.
    + by destruct ec.
  - unfold io_step, schedule_step, recovery_step. simpl.
    destruct (rcur (io m)) as [[]|]; try done; simplify_eq; simpl; (destruct pushing; simpl; [done|]).
    + by destruct ec.
    + by destruct cc.
  - unfold exec_step. simpl. destruct (exec m !! k) as [[]|]; try done; simplify_eq; simpl;
      (destruct pushing; simpl; [done|]).
    + by destruct ic.
    + by destruct cc.
Qed.

Lemma past_test_wants p w m :
  wants p m = Some (false, w) → wants p (past_post p false false m) = Some (true, w).
Proof.
  intros Hw. destruct p as [k| | |k]; unfold wants, past_post in *.
  - destruct (calls m !! k) as [c|] eqn:Ek; [|done]. cbn [mbind option_bind] in Hw.
    destruct (call_pc c) eqn:Epc; try done. simplify_eq. simpl.
    by rewrite list_lookup_insert_eq by (by eapply lookup_lt_Some).
  - destruct (rcur (control m)) as [[]|]; by simplify_eq.
  - destruct (rcur (io m)) as [[]|]; by simplify_eq.
  - destruct (exec m !! k) as [[]|] eqn:Ek; simplify_eq; simpl;
      by rewrite list_lookup_insert_eq by (by eapply lookup_lt_Some).
Qed.

(** The other uses of the queues: a closure or a job is taken, a runner is
    shut down. *)
Lemma take_control_with t q m qs :
  rcur (control m) = None → q_control qs = t :: q →
  step (LControl false) (with_queues qs m)
    = Some (with_queues (put_control q qs) (control_goto (CtlStart t) m)).
Proof. intros Hc Hq. cbn [JobManager.step]. unfold control_step. simpl. by rewrite Hc, Hq. Qed.
Lemma take_io_with t q m qs :
  rcur (io m) = None → q_io qs = t :: q →
  step (LIo false false) (with_queues qs m)
    = Some (with_queues (put_io q qs) (io_goto (IStart t) m)).
Proof. intros Hc Hq. cbn [JobManager.step]. unfold io_step. simpl. by rewrite Hc, Hq. Qed.
Lemma take_exec_with k j m qs :
  q_exec qs !! k = Some j →
  step (LExecStart k) (with_queues qs m)
    = Some (with_queues (put_exec (delete k (q_exec qs)) qs) (set_exec (exec m ++ [EBegun j]) m)).
Proof. intros Hk. cbn [JobManager.step]. unfold exec_start. simpl. by rewrite Hk. Qed.
Lemma lose_exec_with k j m qs :
  q_exec qs !! k = Some j →
  step (LExecLose k) (with_queues qs m)
    = Some (with_queues (put_exec (delete k (q_exec qs)) qs) m).
Proof. intros Hk. cbn [JobManager.step]. unfold exec_lose. simpl. by rewrite Hk. Qed.

Definition shut_effect (n : nat) qs : Queues :=
  let '(MkQueues c cc i ic e ec) := qs in
  match n with
  | 0 => MkQueues c true i ic e ec
  | 1 => MkQueues [] cc i ic e ec
  | 2 => MkQueues c cc i true e ec
  | 3 => MkQueues c cc [] ic e ec
  | _ => MkQueues c cc i ic e true
  end.
Lemma shut_with k c n m qs :
  calls m !! k = Some c → call_pc c = PcRunners n →
  step (LCallStep false k) (with_queues qs m)
    = Some (with_queues (shut_effect n qs)
              (set_call k c (if n <? 4 then PcRunners (1 + n) else PcRet None) m)).
Proof.
  intros Hk Hc. destruct qs as [qc cc qi ic qe ec]. cbn [JobManager.step]. unfold call_step. simpl.
  rewrite Hk. simpl. rewrite Hc. by destruct n as [|[|[|[|n]]]].
Qed.

(** ** Who changes what

    Where a closure, a wrapper or a call stands is changed by its own steps
    only. *)

Definition keeps (a : option Poster) m m' : Prop :=
  (a ≠ Some PControl → rcur (control m') = rcur (control m)) ∧
  (a ≠ Some PIo → rcur (io m') = rcur (io m)) ∧
  (∀ k x, a ≠ Some (PExec k) → exec m !! k = Some x → exec m' !! k = Some x) ∧
  (∀ k c, a ≠ Some (PCall k) → calls m !! k = Some c → calls m' !! k = Some c) ∧
  length (exec m') = length (exec m).

Lemma keeps_wants a p m m' x : keeps a m m' → a ≠ Some p → wants p m = Some x → wants p m' = Some x.
Proof.
  intros (Hc & Hi & He & Hk & _) Hne Hw. destruct p as [k| | |k]; unfold wants in *.
  - destruct (calls m !! k) as [c|] eqn:Ek; [|done]. by rewrite (Hk k c Hne Ek).
  - by rewrite (Hc Hne).
  - by rewrite (Hi Hne).
  - destruct (exec m !! k) as [e|] eqn:Ek; [|done]. by rewrite (He k e Hne Ek).
Qed.

Lemma keeps_refl a m : keeps a m m.
Proof. by repeat split. Qed.
Lemma keeps_same a m m' :
  rcur (control m') = rcur (control m) → rcur (io m') = rcur (io m) → exec m' = exec m →
  calls m' = calls m → keeps a m m'.
Proof. intros H1 H2 H3 H4. unfold keeps. by rewrite H1, H2, H3, H4. Qed.
Lemma keeps_trans a m1 m2 m3 : keeps a m1 m2 → keeps a m2 m3 → keeps a m1 m3.
Proof.
  intros (A1 & A2 & A3 & A4 & A5) (B1 & B2 & B3 & B4 & B5). split_and!; eauto; [intros Hne..|].
  - by rewrite B1, A1.
  - by rewrite B2, A2.
  - by rewrite B5.
Qed.
Lemma keeps_with a qs m m' : keeps a m m' → keeps a m (with_queues qs m').
Proof. intros Hk. apply (keeps_trans _ _ _ _ Hk). by apply keeps_same. Qed.

Lemma keeps_control c m : keeps (Some PControl) m (control_goto c m).
Proof. by repeat split. Qed.
Lemma keeps_control_return m : keeps (Some PControl) m (control_return m).
Proof. by repeat split. Qed.
Lemma keeps_io c m : keeps (Some PIo) m (io_goto c m).
Proof. by repeat split. Qed.
Lemma keeps_io_return m : keeps (Some PIo) m (io_return m).
Proof. by repeat split. Qed.
Lemma keeps_wrapper k x m : keeps (Some (PExec k)) m (set_wrapper k x m).
Proof.
  repeat split; try done; [|by apply length_insert]. intros k' y Hne Hy. simpl.
  rewrite list_lookup_insert_ne; [done|]. congruence.
Qed.
Lemma keeps_set_call k c pc m : keeps (Some (PCall k)) m (set_call k c pc m).
Proof.
  repeat split; try done. intros k' y Hne Hy. simpl.
  rewrite list_lookup_insert_ne; [done|]. congruence.
Qed.
Lemma keeps_send a ch e m : keeps a m (send ch e m).
Proof. by apply keeps_same. Qed.
Lemma keeps_cancel a c m : keeps a m (cancel c m).
Proof. by destruct c; apply keeps_same. Qed.
Lemma keeps_cancel_all a (l : list (Ctx * JobEntity)) m :
  keeps a m (foldr (λ '(c, _), cancel c) m l).
Proof.
  induction l as [|[c e] l IH]; [apply keeps_refl|]. apply (keeps_trans _ _ _ _ IH), keeps_cancel.
Qed.
Lemma keeps_report a cfg id e g m : keeps a m (report cfg id e g m).
Proof. unfold report. destruct (g && _); by apply keeps_same. Qed.
Lemma keeps_store a s m : keeps a m (set_store s m).
Proof. by apply keeps_same. Qed.
Lemma keeps_store_then a s m m' : keeps a (set_store s m) m' → keeps a m m'.
Proof. apply keeps_trans. by apply keeps_same. Qed.

Lemma keeps_past_post p b c m : keeps (Some p) m (past_post p b c m).
Proof.
  destruct p as [k| | |k]; unfold past_post.
  - destruct (calls m !! k) as [x|]; [|apply keeps_refl].
    destruct (call_pc x); try apply keeps_refl. destruct (b || c); [|apply keeps_set_call].
    eapply keeps_trans; [|apply keeps_set_call]. by destruct (m_task _ _ _); apply keeps_same.
  - destruct (rcur (control m)) as [[]|]; try apply keeps_refl; destruct (b || c);
      try apply keeps_control; destruct b; try destruct k; by repeat split.
  - destruct (rcur (io m)) as [[]|]; try apply keeps_refl; destruct (b || c);
      try apply keeps_io; destruct b; by repeat split.
  - destruct (exec m !! k) as [[]|]; try apply keeps_refl; destruct (b || c); apply keeps_wrapper.
Qed.

Lemma keeps_abort u e m : keeps (Some PIo) m (abort u e m).
Proof.
  unfold abort. eapply keeps_trans; [|apply keeps_send]. eapply keeps_trans; [|apply keeps_cancel].
  by repeat split.
Qed.
Lemma keeps_persist_end u e m : keeps (Some PIo) m (persist_end u e m).
Proof.
  unfold persist_end. destruct e; [apply keeps_abort|]. destruct (ctx_err _ _); [apply keeps_abort|apply keeps_io].
Qed.
Lemma keeps_control_start t m : keeps (Some PControl) m (control_start t (control_return m)).
Proof.
  apply (keeps_trans _ _ _ _ (keeps_control_return m)). generalize (control_return m). clear m. intros m.
  destruct t as [ch ty h|ch ty|ch ctx e delay|ch id|id st msg|dn job|dn]; simpl; try by apply keeps_same.
  - unfold submitJobControl. repeat case_match; by repeat split.
  - unfold cancelJobControl. destruct (activeJobs m !! id) as [[c e]|]; [|apply keeps_send].
    eapply keeps_trans; [apply keeps_cancel|apply keeps_send].
  - unfold finalizeJobControl. destruct (activeJobs m !! id) as [[c e]|]; [|apply keeps_refl].
    eapply keeps_trans; [|apply keeps_control]. eapply keeps_trans; [|apply keeps_cancel]. by apply keeps_same.
  - unfold recoverJobControl. case_match; by repeat split.
  - unfold cancelAllControl. eapply keeps_trans; [apply keeps_cancel_all|apply keeps_send].
Qed.
Lemma keeps_io_start t m : keeps (Some PIo) m (io_start durable t (io_return m)).
Proof.
  apply (keeps_trans _ _ _ _ (keeps_io_return m)). generalize (io_return m). clear m. intros m.
  destruct t as [u|ctx id st msg final|ch ctx]; simpl; [|apply keeps_io|].
  - destruct (ctx_err _ _); [apply keeps_abort|]. unfold persist_start. destruct durable; [apply keeps_io|].
    destruct (store_get _ _) as [s g]. apply (keeps_store_then _ s), keeps_io.
  - destruct (store_list _ _) as [s [l|e]]; apply (keeps_store_then _ s); [apply keeps_io|by repeat split].
Qed.

Lemma keeps_call_step b k m m' :
  plain (LCallStep b k) m = true → call_step b k m = Some m' → keeps (Some (PCall k)) m m'.
Proof.
  unfold plain, call_step. simpl. destruct (calls m !! k) as [c|]; simpl; [|done].
  destruct (call_pc c); simpl; try done; intros _ E; destruct b; inv_act E; try apply keeps_set_call;
    try apply keeps_refl.
  by apply (keeps_trans _ _ (set_chans (chans m) (1 + next m) m)); [apply keeps_same|apply keeps_set_call].
Qed.

Lemma keeps_control_step b m m' :
  plain (LControl b) m = true → control_step b m = Some m' → keeps (Some PControl) m m'.
Proof.
  unfold plain, control_step. simpl. destruct (rcur (control m)) as [[]|]; simpl; try done;
    intros _ E; destruct b; inv_act E; try apply keeps_control_start; by repeat split.
Qed.

Lemma keeps_retry a (p : RetryPolicy) op e el pc (s : S) (k : Retry → S → JM) m m' :
  ('(pc, s, _) ← retry_step oor p op e el pc s; Some (k pc s)) = Some m' →
  (∀ pc s, keeps a m (k pc s)) → keeps a m m'.
Proof. intros E Hk. destruct (retry_step _ _ _ _ _ _ _) as [[[? ?] ?]|]; by simplify_eq/=. Qed.

Lemma keeps_io_step el b m m' :
  plain (LIo el b) m = true → io_step oor durable el b m = Some m' → keeps (Some PIo) m m'.
Proof.
  assert (∀ pc s x, keeps (Some PIo) m (io_goto pc (set_store s x)) ↔ keeps (Some PIo) m (io_goto pc x)) as Hs
    by done.
  unfold plain, io_step. simpl. destruct (rcur (io m)) as [c|]; [|by rewrite andb_false_r].
  intros Hp E. destruct c as [t|u cr p rt|pu u|ctx id st msg fin p rt|ch ctx [|job l]|ch ctx job l p rt
                             |ch ctx [|job l]|pu ch ctx job l dn|ch ctx l dn]; try done; simpl in E.
  - simplify_eq. apply keeps_io_start.
  - unfold persist_step in E. destruct rt as [a e|a e|e g];
      [by eapply keeps_retry; [exact E|intros; apply Hs, keeps_io]..|].
    simplify_eq. eapply keeps_trans; [apply keeps_report|apply keeps_persist_end].
  - unfold update_step in E. destruct rt as [a e|a e|e g];
      [by eapply keeps_retry; [exact E|intros; apply Hs, keeps_io]..|]. simplify_eq.
    eapply keeps_trans; [apply keeps_io_return|]. eapply keeps_trans; [apply keeps_report|].
    destruct fin; by apply keeps_same.
  - destruct (store_recoverable _) as [s [js|e]]; simplify_eq; by repeat split.
  - simplify_eq. apply keeps_io.
  - destruct rt as [a e|a e|e g]; [by eapply keeps_retry; [exact E|intros; apply Hs, keeps_io]..|].
    simplify_eq. eapply keeps_trans; [apply keeps_io|apply keeps_report].
  - simplify_eq. by repeat split.
  - simplify_eq. by repeat split.
  - destruct b; inv_act E; by repeat split.
Qed.

Lemma plain_keeps l m m' : plain l m = true → step l m = Some m' → keeps (actor l) m m'.
Proof.
  intros Hp E. destruct l as [op n|b k|b|el b|k|k|k|k o|n|p|b|b|b]; try done; cbn [JobManager.step actor] in *.
  - simplify_eq. unfold call_entry.
    assert (∀ pc m', calls m' = calls m → control m' = control m → io m' = io m → exec m' = exec m →
              keeps None m (set_calls (calls m' ++ [MkCall op [CallerCtx n] pc]) m')) as Hgo.
    { intros pc m' E1 E2 E3 E4. unfold keeps. simpl. rewrite E1, E2, E3, E4. repeat split; try done.
      intros k c _ Hk. by apply lookup_app_l_Some. }
    case_match; [by apply Hgo|]. destruct op; by apply Hgo.
  - by eapply keeps_call_step.
  - by eapply keeps_control_step.
  - by eapply keeps_io_step.
  - unfold exec_step, plain in *. simpl in *.
    destruct (exec m !! k) as [[]|]; simplify_eq; try done. apply keeps_wrapper.
  - unfold exec_end in *. destruct (exec m !! k) as [[]|]; simplify_eq.
    destruct (final_status _ _). simplify_eq. apply keeps_wrapper.
  - simplify_eq. apply keeps_cancel.
  - by simplify_eq.
  - by simplify_eq.
  - by simplify_eq.
  - by simplify_eq.
Qed.

(** A wrapper keeps its job until it has returned. *)
Definition keeps_jobs m m' : Prop :=
  length (exec m') = length (exec m) ∧
  ∀ i x' j, exec m' !! i = Some x' → exec_job x' = Some j →
    ∃ x, exec m !! i = Some x ∧ exec_job x = Some j.

Lemma keeps_jobs_of a m m' :
  keeps a m m' →
  (∀ k x' j, a = Some (PExec k) → exec m' !! k = Some x' → exec_job x' = Some j →
     ∃ x, exec m !! k = Some x ∧ exec_job x = Some j) → keeps_jobs m m'.
Proof.
  intros (_ & _ & He & _ & Hlen) Hk. split; [done|]. intros i x' j Hx Hj.
  destruct (decide (a = Some (PExec i))) as [Ha|Hne]; [by eapply Hk|].
  destruct (lookup_lt_is_Some_2 (exec m) i) as [x Hi].
  { rewrite <- Hlen. by eapply lookup_lt_Some. }
  exists x. split; [done|]. specialize (He i x Hne Hi). congruence.
Qed.

Lemma set_wrapper_job k x y m x' j :
  exec m !! k = Some y → (∀ j, exec_job x = Some j → exec_job y = Some j) →
  exec (set_wrapper k x m) !! k = Some x' → exec_job x' = Some j → ∃ z, Some y = Some z ∧ exec_job z = Some j.
Proof.
  intros Hk Hj Hx Hx'. simpl in Hx. rewrite list_lookup_insert_eq in Hx by (by eapply lookup_lt_Some).
  simplify_eq. eauto.
Qed.

Lemma past_post_follows p b c m : keeps_jobs m (past_post p b c m).
Proof.
  apply (keeps_jobs_of _ _ _ (keeps_past_post p b c m)). intros k x' j [= ->]. unfold past_post.
  destruct (exec m !! k) as [[]|] eqn:Ek; try (intros; simplify_eq; by eauto);
    destruct (b || c); by apply (set_wrapper_job k _ _ _ _ _ Ek).
Qed.

Lemma plain_follows l m m' : plain l m = true → step l m = Some m' → keeps_jobs m m'.
Proof.
  intros Hp E. apply (keeps_jobs_of _ _ _ (plain_keeps _ _ _ Hp E)). intros k x' j Ha.
  destruct l; try done; injection Ha as ->; cbn [JobManager.step] in E.
  - unfold exec_step, plain in *. simpl in *. destruct (exec m !! k) as [[]|] eqn:Ek; simplify_eq; try done.
    apply (set_wrapper_job k _ _ _ _ _ Ek). by destruct (ctx_err _ _).
  - unfold exec_end in E. destruct (exec m !! k) as [[]|] eqn:Ek; simplify_eq.
    destruct (final_status _ _). simplify_eq. by apply (set_wrapper_job k _ _ _ _ _ Ek).
Qed.

Lemma same_follows m m' : exec m' = exec m → keeps_jobs m m'.
Proof. intros E. unfold keeps_jobs. rewrite E. split; [done|]. eauto. Qed.

Lemma schedule_exec b j m r : scheduleExecution b j m = Some r → exec r = exec m.
Proof. unfold scheduleExecution. by destruct b, (exec_closed m); intros [= <-]. Qed.

Lemma set_wrapper_follows k x y m m' :
  exec m !! k = Some y → exec m' = exec (set_wrapper k x m) →
  (∀ j, exec_job x = Some j → exec_job y = Some j) → keeps_jobs m m'.
Proof.
  intros Hk E Hj. unfold keeps_jobs. rewrite E. split; [apply length_insert|]. intros i x' j Hi Hx.
  simpl in Hi. destruct (decide (i = k)) as [->|Hne].
  - rewrite list_lookup_insert_eq in Hi by (by eapply lookup_lt_Some). simplify_eq. eauto.
  - rewrite list_lookup_insert_ne in Hi by done. eauto.
Qed.

Lemma step_follows l m m' :
  (∀ k, l ≠ LExecStart k) → step l m = Some m' → keeps_jobs m m'.
Proof.
  intros Hl E. destruct (plain l m) eqn:Hp; [by eapply plain_follows|].
  destruct l as [op n|b k|b|el b|k|k|k|k o|n|p|b|b|b]; try done; cbn [JobManager.step] in E.
  - apply same_follows. unfold call_step in E. destruct (calls m !! k) as [c|]; [|done]. cbn in E.
    destruct (call_pc c) as [|pu ch| | | |n|]; destruct b; inv_act E; try done.
    + destruct (call_post _ _ _ _) as [r|] eqn:Ep; [|done]. unfold call_post in Ep.
      destruct (m_task _ _ _); inv_act Ep; done.
    + by destruct n as [|[|[|[|n]]]].
  - apply same_follows. unfold plain, control_step in *. simpl in Hp.
    destruct (rcur (control m)) as [[]|]; try done; destruct b; try done; inv_act E; try done.
    + destruct (PostTask _ _ _); [by destruct k|done].
    + destruct (scheduleExecution _ _ _) as [r|] eqn:Es; [by apply schedule_exec in Es|done].
  - apply same_follows. unfold plain, io_step in *. simpl in Hp.
    destruct (rcur (io m)) as [[]|]; try done; simpl in E; inv_act E; try done.
    + unfold schedule_step. destruct (scheduleExecution _ _ _) as [r|] eqn:Es; [by apply schedule_exec in Es|done].
    + by destruct (PostTask _ _ _).
  - by destruct (Hl k).
  - apply same_follows. unfold exec_lose in E. by inv_act E.
  - unfold plain, exec_step in *. simpl in Hp.
    destruct (exec m !! k) as [[]|] eqn:Ek; try done;
      destruct (PostTask _ _ _); simplify_eq; eapply set_wrapper_follows; done.
  - unfold plain, exec_end in *. simpl in Hp. by destruct (exec m !! k) as [[]|].
Qed.
End posts_lemmas.

(** ** Up to the order of the jobs

    The execution runner keeps its tasks in no order. *)

Section like.
Context {S Handler : Type} `{JobStoreOps S}.
Context (oor : SpecFloat.spec_float → Z) (durable : bool).
Notation JM := (JobManager S Handler).
Notation step := (JobManager.step (S:=S) (Handler:=Handler) oor durable).
Notation Queues := (Queues (Handler:=Handler)).
Implicit Types (m : JM) (qs : Queues).

(** [r] is the manager [m] on the queues [qs]. *)
Definition like qs m (r : JM) : Prop :=
  ∃ q, q ≡ₚ q_exec qs ∧ r = with_queues (put_exec q qs) m.

Lemma put_exec_id qs : put_exec (q_exec qs) qs = qs.
Proof. by destruct qs. Qed.
Lemma put_exec_twice q q' qs : put_exec q (put_exec q' qs) = put_exec q qs.
Proof. done. Qed.
Lemma like_refl qs m : like qs m (with_queues qs m).
Proof. exists (q_exec qs). by rewrite put_exec_id. Qed.
Lemma like_perm c cc i ic q q' ec m r :
  like (MkQueues c cc i ic q ec) m r → q ≡ₚ q' → like (MkQueues c cc i ic q' ec) m r.
Proof. intros (q0 & Hq & ->) Hp. exists q0. simpl in *. split; [by rewrite Hq|done]. Qed.

Lemma like_plain l qs m r m' :
  like qs m r → plain l m = true → step l (with_queues qs m) = Some m' →
  ∃ r', step l r = Some r' ∧ like qs m' r'.
Proof.
  intros (q & Hq & ->) Hp E.
  assert (plain l (with_queues qs m) = true) as Hp' by (rewrite <- Hp; by destruct l).
  apply (plain_with _ _ (put_exec q qs)) in E; [|done]. rewrite with_queues_twice in E.
  eexists. split; [exact E|]. by exists q.
Qed.

Lemma like_post p b v qs m r m' :
  like qs m r → wants p m = Some (b, v) → step (label_of p) (with_queues qs m) = Some m' →
  m' = with_queues (post_effect b v qs) (past_post p b (queue_closed (which v) qs) m) ∧
  ∃ r', step (label_of p) r = Some r' ∧ like (post_effect b v qs) m' r'.
Proof.
  intros (q & Hq & ->) Hw E. rewrite (post_with _ _ _ _ _ _ _ Hw) in E. simplify_eq. split; [done|].
  rewrite (post_with _ _ _ _ _ _ _ Hw). eexists. split; [done|].
  assert (queue_closed (which v) (put_exec q qs) = queue_closed (which v) qs) as ->
    by (by destruct v).
  destruct qs as [qc cc qi ic qe ec]. destruct b; [|by exists q].
  destruct v as [t|t|j]; [by exists q|by exists q|exists (q ++ [j])]. simpl in *.
  split; [by rewrite Hq|done].
Qed.

Lemma like_take_control t q qs m r m' :
  like qs m r → rcur (control m) = None → q_control qs = t :: q →
  step (LControl false) (with_queues qs m) = Some m' →
  m' = with_queues (put_control q qs) (control_goto (CtlStart t) m) ∧
  ∃ r', step (LControl false) r = Some r' ∧ like (put_control q qs) m' r'.
Proof.
  intros (q0 & Hq & ->) Hc Ht E. rewrite (take_control_with _ _ t q) in E by done. simplify_eq.
  split; [done|]. rewrite (take_control_with _ _ t q) by done. eexists. split; [done|]. by exists q0.
Qed.
Lemma like_take_io t q qs m r m' :
  like qs m r → rcur (io m) = None → q_io qs = t :: q →
  step (LIo false false) (with_queues qs m) = Some m' →
  m' = with_queues (put_io q qs) (io_goto (IStart t) m) ∧
  ∃ r', step (LIo false false) r = Some r' ∧ like (put_io q qs) m' r'.
Proof.
  intros (q0 & Hq & ->) Hc Ht E. rewrite (take_io_with _ _ t q) in E by done. simplify_eq.
  split; [done|]. rewrite (take_io_with _ _ t q) by done. eexists. split; [done|]. by exists q0.
Qed.

Lemma like_start k j qs m r m' :
  like qs m r → q_exec qs !! k = Some j → step (LExecStart k) (with_queues qs m) = Some m' →
  m' = with_queues (put_exec (delete k (q_exec qs)) qs) (set_exec (exec m ++ [EBegun j]) m) ∧
  ∃ k' r', step (LExecStart k') r = Some r' ∧ like (put_exec (delete k (q_exec qs)) qs) m' r'.
Proof.
  intros (q & Hq & ->) Hk E. rewrite (take_exec_with _ _ _ j) in E by done. simplify_eq. split; [done|].
  rewrite (list_delete_perm _ _ _ Hk) in Hq. destruct (perm_delete _ _ _ Hq) as (k' & Hk' & Hd).
  exists k'. rewrite (take_exec_with _ _ _ j) by done. eexists. split; [done|].
  by exists (delete k' q).
Qed.

Lemma like_lose c cc i ic q q' ec m r :
  like (MkQueues c cc i ic q ec) m r → q' ⊆+ q →
  ∃ ls r', run step ls r = Some r' ∧ like (MkQueues c cc i ic q' ec) m r'.
Proof.
  intros (q0 & Hq & ->) (k & Hk)%submseteq_Permutation. simpl in Hq. rewrite Hk in Hq. clear Hk.
  unfold put_exec. simpl. revert q0 Hq. induction k as [|j k IH]; intros q0 Hq.
  - exists [], (with_queues (MkQueues c cc i ic q0 ec) m). split; [done|]. exists q0.
    by rewrite app_nil_r in Hq.
  - assert (q0 ≡ₚ j :: q' ++ k) as Hq' by (by rewrite Hq, Permutation_middle).
    destruct (perm_delete _ _ _ Hq') as (n & Hn & Hd).
    destruct (IH (delete n q0) Hd) as (ls & r' & Hrun & Hl). exists (LExecLose n :: ls), r'.
    cbn [run]. rewrite (lose_exec_with _ _ _ j) by done. by split.
Qed.

Lemma like_shut k c n qs m r m' :
  like qs m r → calls m !! k = Some c → call_pc c = PcRunners n →
  step (LCallStep false k) (with_queues qs m) = Some m' →
  m' = with_queues (shut_effect n qs)
         (set_call k c (if n <? 4 then PcRunners (1 + n) else PcRet None) m) ∧
  ∃ r', step (LCallStep false k) r = Some r' ∧ like (shut_effect n qs) m' r'.
Proof.
  intros (q & Hq & ->) Hk Hc E. rewrite (shut_with _ _ _ c n) in E by done. simplify_eq. split; [done|].
  rewrite (shut_with _ _ _ c n) by done. eexists. split; [done|]. exists q.
  destruct qs as [qc cc qi ic qe ec]. by destruct n as [|[|[|[|n]]]].
Qed.
End like.
