(* ===== verification/JobDurability.v ===== *)
(** * What a JobManager promises about its store (job/job_manager.go)

    Against any store that keeps the laws of [JobStoreLaws] and implements
    [DurableJobStore]: a nil submission means a persisted and scheduled job,
    and a job runs at most once between recoveries. *)

From S2P Require Import Prelude JobStore Retry JobManager.

(** The outcome of one step of a retry loop *)
Ltac inv_retry H :=
  match type of H with
  | (?x ≫= _) = Some _ =>
      let E := fresh "Eretry" in
      destruct x as [[[? ?] ?]|] eqn:E; cbn [mbind option_bind] in H; [|discriminate H];
      injection H as <-
  end.

Section durability.
Context {S Handler : Type} `{Hops : JobStoreOps S} {contents : S → gmap string JobEntity}.
Context `{!JobStoreLaws S contents} (oor : SpecFloat.spec_float → Z).
Implicit Types r : JobManager S Handler.
Notation step := (step oor true).

Definition good_policy (p : RetryPolicy) : Prop := (0 <= MaxRetries p < 2 ^ 63 - 1)%Z.

(** The store holds the job of an entity. *)
Definition saved r (e : JobEntity) : Prop :=
  ∃ j, contents (store r) !! ID e = Some j ∧ payload j = payload e.

(** ... and its execution was posted (unless the execution runner was already
    shut down, which ignores it). *)
Definition acked r (e : JobEntity) : Prop :=
  saved r e ∧ (ID e ∈ scheduled (hist r) ∨ exec_closed r = true).

(** Jobs are added and updated, never lost or replaced. *)
Definition grows r r' : Prop :=
  ∀ id j, contents (store r) !! id = Some j →
  ∃ j', contents (store r') !! id = Some j' ∧ payload j' = payload j.

Lemma grows_same r r' : store r' = store r → grows r r'.
Proof. intros E id j Hj. rewrite E. by exists j. Qed.

Lemma saved_grows r r' e : grows r r' → saved r e → saved r' e.
Proof.
  intros Hg (j & Hj & Hp). destruct (Hg _ _ Hj) as (j' & Hj' & Hp'). exists j'.
  by rewrite Hp', Hp.
Qed.

Record progress r r' : Prop := {
  pg_store : grows r r';
  pg_scheduled id : id ∈ scheduled (hist r) → id ∈ scheduled (hist r');
  pg_closed : exec_closed r = true → exec_closed r' = true;
  pg_rec : recoveries (hist r) ≤ recoveries (hist r');
}.

Lemma progress_same r r' :
  store r' = store r → scheduled (hist r') = scheduled (hist r) →
  exec_closed r' = exec_closed r → recoveries (hist r') = recoveries (hist r) → progress r r'.
Proof.
  intros E1 E2 E3 E4. split; [by apply grows_same|by rewrite E2|by rewrite E3|by rewrite E4].
Qed.

Lemma acked_progress r r' e : progress r r' → acked r e → acked r' e.
Proof.
  intros [H1 H2 H3 _] [Hs Ho]. split; [by eapply saved_grows|]. destruct Ho; eauto.
Qed.

(** *** What the tasks and threads know *)

Definition recovering r : Prop := 0 < recoveries (hist r).

Definition tag_ok (rec : Prop) (t : ControlTask Handler) : Prop :=
  match t with
  | CSubmit ch _ e _ => ch_job ch = Some e
  | CRecover ch _ => ch_job ch = None ∧ rec
  | CRegister ch _ _ | CUnregister ch _ | CCancel ch _ | CCancelAll ch => ch_job ch = None
  | CFinalize _ _ _ => True
  end.
Definition sub_ok (u : Sub Handler) : Prop := ch_job (sub_result u) = Some (sub_entity u).
Definition iotask_ok (rec : Prop) (t : IoTask Handler) : Prop :=
  match t with
  | ISubmit u => sub_ok u
  | IRecover ch _ => ch_job ch = None ∧ rec
  | IUpdate _ _ _ _ _ => True
  end.
Definition after_ok (rec : Prop) (k : After Handler) : Prop :=
  match k with
  | AfterSelect u ch => ch_job ch = Some (sub_entity u) ∧ sub_ok u
  | AfterClose done => ch_job done = None ∧ rec
  | AfterReturn => True
  end.
Definition ctlpc_ok (rec : Prop) (pc : option (ControlPc Handler)) : Prop :=
  match pc with
  | Some (CtlStart t) => tag_ok rec t
  | Some (CtlPostIo _ t k) => iotask_ok rec t ∧ after_ok rec k
  | Some (CtlPostExec _ _ done) => ch_job done = None ∧ rec
  | Some (CtlSubmitting u ch) => ch_job ch = Some (sub_entity u) ∧ sub_ok u
  | _ => True
  end.
Definition iopc_ok (rec : Prop) (sv : JobEntity → Prop) (pc : option (IoPc Handler)) : Prop :=
  match pc with
  | None | Some (IUpd _ _ _ _ _ _ _) => True
  | Some (IPersist u create cfg rt) =>
      create = true ∧ good_policy (retryPolicy cfg) ∧ retry_pc_ok (retryPolicy cfg) rt ∧ sub_ok u ∧
      ∀ g, rt = RDone None g → sv (sub_entity u)
  | Some (IStart t) => iotask_ok rec t
  | Some (ISchedule _ u) => sub_ok u ∧ sv (sub_entity u)
  | Some (IRecFail ch _ _) | Some (IRecUpd ch _ _ _ _ _) | Some (IRecPend ch _ _) => ch_job ch = None ∧ rec
  | Some (IRecPost _ ch _ _ _ done) | Some (IRecWait ch _ _ done) =>
      (ch_job ch = None ∧ rec) ∧ ch_job done = None
  end.
Definition msg_ok (K : JobEntity → Prop) (x : Chan * option Error) : Prop :=
  x.2 = None → ∀ e, ch_job x.1 = Some e → K e.
Definition call_ok (K : JobEntity → Prop) (c : Call Handler) : Prop :=
  match call_op c with
  | OpSubmit e _ _ =>
      match call_pc c with
      | PcPost _ ch | PcWait ch => ch_job ch = Some e
      | PcRet None => K e
      | PcMake | PcRet (Some _) => True
      | _ => False
      end
  | _ => match call_pc c with PcPost _ ch => ch_job ch = None | _ => True end
  end.

Record ack_ok r : Prop := {
  ao_pol : good_policy (retryPolicy (config r));
  ao_ctl : Forall (tag_ok (recovering r)) (rq (control r));
  ao_ctlpc : ctlpc_ok (recovering r) (rcur (control r));
  ao_io : Forall (iotask_ok (recovering r)) (rq (io r));
  ao_iopc : iopc_ok (recovering r) (saved r) (rcur (io r));
  ao_chan : Forall (msg_ok (acked r)) (chans r);
  ao_call : Forall (call_ok (acked r)) (calls r);
}.

Lemma tag_mono (rec rec' : Prop) t : (rec → rec') → tag_ok rec t → tag_ok rec' t.
Proof. intros HR. destruct t; simpl; naive_solver. Qed.
Lemma iotask_mono (rec rec' : Prop) t : (rec → rec') → iotask_ok rec t → iotask_ok rec' t.
Proof. intros HR. destruct t; simpl; naive_solver. Qed.
Lemma ctlpc_mono (rec rec' : Prop) pc : (rec → rec') → ctlpc_ok rec pc → ctlpc_ok rec' pc.
Proof.
  intros HR. destruct pc as [[t|p t k| | |]|]; simpl; try naive_solver.
  - by apply tag_mono.
  - intros [H1 H2]. split; [by eapply iotask_mono|]. destruct k; naive_solver.
Qed.
Lemma iopc_mono (rec rec' : Prop) (K K' : JobEntity → Prop) pc :
  (rec → rec') → (∀ e, K e → K' e) → iopc_ok rec K pc → iopc_ok rec' K' pc.
Proof.
  intros HR HK. destruct pc as [[t| | | | | | | |]|]; simpl; try naive_solver. by apply iotask_mono.
Qed.
Lemma msg_mono (K K' : JobEntity → Prop) x : (∀ e, K e → K' e) → msg_ok K x → msg_ok K' x.
Proof. unfold msg_ok. naive_solver. Qed.
Lemma call_mono (K K' : JobEntity → Prop) c : (∀ e, K e → K' e) → call_ok K c → call_ok K' c.
Proof. unfold call_ok. intros HK. repeat case_match; naive_solver. Qed.

Lemma ack_progress r r' :
  ack_ok r → progress r r' →
  Forall (tag_ok (recovering r')) (rq (control r)) ∧
  ctlpc_ok (recovering r') (rcur (control r)) ∧ Forall (iotask_ok (recovering r')) (rq (io r)) ∧
  iopc_ok (recovering r') (saved r') (rcur (io r)) ∧ Forall (msg_ok (acked r')) (chans r) ∧
  Forall (call_ok (acked r')) (calls r).
Proof.
  intros Hi Hp. assert (HR : recovering r → recovering r') by (unfold recovering; pose proof (pg_rec _ _ Hp); lia).
  split_and!.
  - eapply Forall_impl; [apply (ao_ctl _ Hi)|]. intros t. by apply tag_mono.
  - eapply ctlpc_mono; [exact HR|apply (ao_ctlpc _ Hi)].
  - eapply Forall_impl; [apply (ao_io _ Hi)|]. intros t. by apply iotask_mono.
  - eapply iopc_mono; [exact HR| |apply (ao_iopc _ Hi)]. intros e. apply saved_grows, Hp.
  - eapply Forall_impl; [apply (ao_chan _ Hi)|]. intros x. apply msg_mono. intros e. by apply acked_progress.
  - eapply Forall_impl; [apply (ao_call _ Hi)|]. intros x. apply call_mono. intros e. by apply acked_progress.
Qed.

(** Nothing that matters moves. *)
Lemma ack_frame r r' :
  ack_ok r → progress r r' → retryPolicy (config r') = retryPolicy (config r) →
  control r' = control r → io r' = io r → chans r' = chans r → calls r' = calls r → ack_ok r'.
Proof.
  intros Hi Hp E1 E2 E3 E4 E5. destruct (ack_progress r r' Hi Hp) as (G1 & G2 & G3 & G4 & G5 & G6).
  destruct Hi. split; by rewrite ?E1, ?E2, ?E3, ?E4, ?E5.
Qed.

Lemma PostTask_ok {Q P} (I : Q → Prop) b t (x x' : Runner Q P) :
  Forall I (rq x) → I t → PostTask b t x = Some x' → Forall I (rq x') ∧ rcur x' = rcur x.
Proof.
  intros Hx Ht [-> [->| ->]]%PostTask_rq; (split; [|done]); [done|].
  apply Forall_app. split; [done|]. by apply Forall_singleton.
Qed.

Lemma ack_post_control b t r x :
  ack_ok r → tag_ok (recovering r) t → PostTask b t (control r) = Some x → ack_ok (set_control x r).
Proof.
  intros Hi Ht E. destruct (PostTask_ok _ _ _ _ _ (ao_ctl _ Hi) Ht E) as [H1 H2].
  destruct Hi. split; try done. simpl. by rewrite H2.
Qed.
Lemma ack_post_io b t r x :
  ack_ok r → iotask_ok (recovering r) t → PostTask b t (io r) = Some x → ack_ok (set_io x r).
Proof.
  intros Hi Ht E. destruct (PostTask_ok _ _ _ _ _ (ao_io _ Hi) Ht E) as [H1 H2].
  destruct Hi. split; try done. simpl. by rewrite H2.
Qed.
Lemma ack_send ch e r :
  ack_ok r → (e = None → ∀ j, ch_job ch = Some j → acked r j) → ack_ok (send ch e r).
Proof. intros Hi He. destruct Hi. split; try done. by apply Forall_cons. Qed.
Lemma ack_send_err ch e r : ack_ok r → ack_ok (send ch (Some e) r).
Proof. intros Hi. by apply ack_send. Qed.
Lemma ack_send_none ch e r : ack_ok r → ch_job ch = None → ack_ok (send ch e r).
Proof. intros Hi Hc. apply ack_send; [done|]. intros _ j Hj. by rewrite Hc in Hj. Qed.
Lemma ack_io_goto pc r : ack_ok r → iopc_ok (recovering r) (saved r) (Some pc) → ack_ok (io_goto pc r).
Proof. intros [] Hpc. by split. Qed.
Lemma ack_io_return r : ack_ok r → ack_ok (io_return r).
Proof. intros []. by split. Qed.
Lemma ack_control_goto pc r :
  ack_ok r → ctlpc_ok (recovering r) (Some pc) → ack_ok (control_goto pc r).
Proof. intros [] Hpc. by split. Qed.
Lemma ack_control_return r : ack_ok r → ack_ok (control_return r).
Proof. intros []. by split. Qed.
Lemma ack_set_call k c pc r :
  ack_ok r → call_ok (acked r) (MkCall (call_op c) (call_ctx c) pc) → ack_ok (set_call k c pc r).
Proof. intros [] Hc. split; try done. by apply Forall_insert. Qed.
Lemma ack_cancel c r : ack_ok r → ack_ok (cancel c r).
Proof. intros Hi. apply (ack_frame r); try done; try (by destruct c). apply progress_same; by destruct c. Qed.
Lemma ack_cancel_all (l : list (Ctx * JobEntity)) r :
  ack_ok r → ack_ok (foldr (λ '(c, _), cancel c) r l).
Proof. intros Hi. induction l as [|[c e] l IH]; [done|]. simpl. by apply ack_cancel. Qed.

Lemma schedule_progress b j r r' : scheduleExecution b j r = Some r' → progress r r'.
Proof.
  intros [[-> _]| ->]%schedule_cases; [by apply progress_same|].
  split; [by apply grows_same| |done|done].
  intros id Hin. simpl. apply elem_of_app. by left.
Qed.
Lemma ack_schedule b j r r' : ack_ok r → scheduleExecution b j r = Some r' → ack_ok r'.
Proof.
  intros Hi E. apply (ack_frame r); [done|by eapply schedule_progress|..];
    by apply schedule_cases in E as [[-> _]| ->].
Qed.
Lemma schedule_acked b j r r' :
  scheduleExecution b j r = Some r' → saved r (job_entity j) → acked r' (job_entity j).
Proof.
  intros E Hs. split.
  - eapply saved_grows; [by eapply schedule_progress|done].
  - apply schedule_cases in E as [[-> Ec]| ->]; [by right|left].
    simpl. apply elem_of_app. right. left.
Qed.
Lemma ack_report cfg id e g r : ack_ok r → ack_ok (report cfg id e g r).
Proof.
  intros Hi. unfold report. destruct (g && _); [|done].
  apply (ack_frame r); try done. by apply progress_same.
Qed.

(** The store is used through its operations only. *)
Lemma store_progress s r :
  (∀ id j, contents (store r) !! id = Some j →
     ∃ j', contents s !! id = Some j' ∧ payload j' = payload j) →
  progress r (set_store s r).
Proof. intros Hg. by split. Qed.
Lemma ack_store s r :
  ack_ok r → progress r (set_store s r) → ack_ok (set_store s r).
Proof. intros Hi Hp. by apply (ack_frame r). Qed.
Lemma contents_progress s r : contents s = contents (store r) → progress r (set_store s r).
Proof. intros E. apply store_progress. intros id j Hj. rewrite E. by exists j. Qed.

Lemma create_progress e r s err :
  store_create e (store r) = (s, err) → progress r (set_store s r).
Proof.
  intros E0. apply store_progress. destruct err as [err|].
  - rewrite (create_err (contents:=contents) _ _ _ _ E0). intros id j Hj. by exists j.
  - destruct (create_nil (contents:=contents) _ _ _ E0) as (Hn & j0 & -> & _ & _). intros id j Hj. exists j.
    rewrite lookup_insert_ne; [done|]. intros <-. by rewrite Hn in Hj.
Qed.
Lemma update_progress id st msg r s err :
  store_update id st msg (store r) = (s, err) → progress r (set_store s r).
Proof.
  intros E0. apply store_progress. destruct err as [err|].
  - rewrite (update_err (contents:=contents) _ _ _ _ _ _ E0). intros id' j Hj. by exists j.
  - destruct (update_nil (contents:=contents) _ _ _ _ _ E0) as (j0 & j1 & Hj0 & -> & Hp & _). intros id' j Hj.
    destruct (decide (id' = id)) as [->|Hne].
    + assert (j = j0) as -> by congruence. exists j1. by rewrite lookup_insert_eq.
    + exists j. by rewrite lookup_insert_ne.
Qed.

(** Accesses that leave all of this alone. *)
Ltac ack_same := match goal with
  Hi : ack_ok ?r |- ack_ok _ => by apply (ack_frame r _ Hi); [by apply progress_same|..] end.

Lemma ack_control_start t r :
  ack_ok r → tag_ok (recovering r) t → ack_ok (control_start t r).
Proof.
  intros Hi Ht.
  destruct t as [ch ty h|ch ty|ch ctx e delay|ch id|id st msg|dn job|dn]; cbn [control_start]; simpl in Ht.
  - apply ack_send_none; [|done]. ack_same.
  - apply ack_send_none; [|done]. ack_same.
  - unfold submitJobControl. destruct (activeJobs r !! ID e); [by apply ack_send_err|].
    destruct (handlers r !! Type_ e) as [h|]; [|by apply ack_send_err].
    cbn zeta. apply ack_control_goto; [|done]. ack_same.
  - unfold cancelJobControl. destruct (activeJobs r !! id) as [[c0 e]|]; [|by apply ack_send_err].
    apply ack_send_none; [by apply ack_cancel|done].
  - unfold finalizeJobControl. destruct (activeJobs r !! id) as [[c0 e]|]; [|done].
    cbn zeta. apply ack_control_goto; [|done]. apply ack_cancel. ack_same.
  - unfold recoverJobControl. destruct (handlers r !! Type_ job) as [h|].
    + apply ack_control_goto; [|done]. ack_same.
    + by apply ack_control_goto.
  - unfold cancelAllControl. apply ack_send_none; [by apply ack_cancel_all|done].
Qed.

Lemma lookup_chan_in ch e (l : list (Chan * option Error)) : lookup_chan ch l = Some e → (ch, e) ∈ l.
Proof.
  induction l as [|[ch' e'] l IH]; simpl; [done|]. case_decide as Hd.
  - intros [= <-]. subst. left.
  - intros Hl. right. auto.
Qed.

(** What is received on a job's channel. *)
Lemma received_acked ch e j r :
  ack_ok r → received ch r = Some e → e = None → ch_job ch = Some j → acked r j.
Proof.
  intros Hi Hr%lookup_chan_in He Hj. pose proof (ao_chan _ Hi) as Hall. rewrite Forall_forall in Hall.
  by apply (Hall _ Hr).
Qed.

Lemma ack_control_after k r : ack_ok r → after_ok (recovering r) k → ack_ok (control_after k r).
Proof.
  intros Hi Hk. destruct k; simpl in *.
  - by apply ack_control_goto.
  - apply ack_send_none; [by apply ack_control_return|apply Hk].
  - by apply ack_control_return.
Qed.

Lemma ack_control_step b r r' : ack_ok r → control_step b r = Some r' → ack_ok r'.
Proof.
  intros Hi E0. unfold control_step in E0. pose proof (ao_ctlpc _ Hi) as Hpc.
  pose proof (ack_control_return _ Hi) as Hret.
  destruct (rcur (control r)) as [[t|p t k|p j dn|u ch|id st msg]|] eqn:Ec; simpl in Hpc.
  - destruct b; simplify_eq. by apply ack_control_start.
  - destruct b; simplify_eq. destruct (PostTask p t (io r)) as [x|] eqn:Ep; [|by apply ack_control_goto].
    apply ack_control_after; [|apply Hpc]. by eapply ack_post_io; [exact Hi|apply Hpc|exact Ep].
  - destruct b; simplify_eq. destruct (scheduleExecution p j r) as [r1|] eqn:Es; [|by apply ack_control_goto].
    apply ack_send_none; [by apply ack_control_return; eapply ack_schedule; [exact Hi|]|apply Hpc].
  - destruct Hpc as [Hch Hu]. destruct b; inv_act E0; [by apply ack_send_err|].
    apply ack_send; [done|]. intros He j Hj. rewrite Hch in Hj. injection Hj as <-.
    eapply (received_acked _ _ _ r Hi); eauto.
  - destruct b; simplify_eq. apply ack_control_goto; [|done]. ack_same.
  - destruct b; [done|]. destruct (rq (control r)) as [|t q] eqn:Eq; simplify_eq.
    destruct Hi. rewrite Eq in *. apply Forall_cons in ao_ctl0 as [Ht Hq]. by split.
Qed.

Lemma ack_abort u e r : ack_ok r → ack_ok (abort u e r).
Proof.
  intros Hi. unfold abort. apply ack_send_err, ack_cancel.
  assert (H0 : ack_ok (io_return r)) by by apply ack_io_return. ack_same.
Qed.

Lemma ack_persist_end u err r :
  ack_ok r → sub_ok u → (err = None → saved r (sub_entity u)) → ack_ok (persist_end u err r).
Proof.
  intros Hi Hu Hs. unfold persist_end. destruct err as [e|]; [by apply ack_abort|].
  destruct (ctx_err (sub_jobCtx u) r) as [e|]; [by apply ack_abort|].
  apply ack_io_goto; [done|]. split; [done|]. by apply Hs.
Qed.

Lemma ack_schedule_step b u r :
  ack_ok r → sub_ok u → saved r (sub_entity u) → ack_ok (schedule_step b u r).
Proof.
  intros Hi Hu Hs. unfold schedule_step. destruct (scheduleExecution _ _ _) as [r1|] eqn:Es.
  - pose proof (schedule_acked _ (sub_job u) _ _ Es Hs) as Hk.
    apply ack_send; [by apply ack_io_return; eapply ack_schedule; [exact Hi|]|]. intros _ j Hj.
    rewrite Hu in Hj. injection Hj as <-. exact Hk.
  - by apply ack_io_goto.
Qed.

Lemma ack_io_start t r : ack_ok r → iotask_ok (recovering r) t → ack_ok (io_start true t r).
Proof.
  intros Hi Ht. pose proof (ao_pol _ Hi) as Hp.
  destruct t as [u|ctx id st msg final|ch ctx]; cbn [io_start].
  - destruct (ctx_err (sub_jobCtx u) r); [by apply ack_abort|]. unfold persist_start.
    apply ack_io_goto; [done|]. split_and!; try done. apply retry_pc_ok_start, Hp.
  - by apply ack_io_goto.
  - destruct (store_list _ (store r)) as [s l] eqn:Es.
    assert (H1 : ack_ok (set_store s r)).
    { apply ack_store; [done|]. apply contents_progress. by eapply list_contents. }
    destruct l; [by apply ack_io_goto|by apply ack_send_err, ack_io_return].
Qed.

(** One step of the retry loop of a submission. *)
Lemma persist_retry u cfg rt r ctx el rt' s res :
  ack_ok r → iopc_ok (recovering r) (saved r) (Some (IPersist u true cfg rt)) → (∀ err g, rt ≠ RDone err g) →
  retry_step oor (retryPolicy cfg) (store_create (sub_entity u)) ctx el rt (store r) = Some (rt', s, res) →
  ack_ok (io_goto (IPersist u true cfg rt') (set_store s r)).
Proof.
  intros Hi (_ & Hp & Hok & Hu & _) Hnd E0.
  destruct (retry_step_spec oor (retryPolicy cfg) _ _ _ _ _ _ _ _ Hp Hok E0) as [Hok' [[-> Hno]|(e & Hc & Hiff)]].
  - apply ack_io_goto.
    + apply ack_store; [done|]. by apply contents_progress.
    + split_and!; try done. intros g ->. by destruct (Hno g).
  - pose proof (create_progress _ _ _ _ Hc) as Hpr.
    apply ack_io_goto; [by apply ack_store|]. split_and!; try done.
    intros g Hg. assert (e = None) as -> by (apply Hiff; by exists g).
    destruct (create_nil (contents:=contents) _ _ _ Hc) as (_ & j & Ej & Hj & _). exists j.
    simpl. by rewrite Ej, lookup_insert_eq.
Qed.

(** A retried status update. *)
Lemma update_retry id st msg p rt r ctx el rt' s res :
  ack_ok r →
  retry_step oor p (store_update id st msg) ctx el rt (store r) = Some (rt', s, res) →
  ack_ok (set_store s r).
Proof.
  intros Hi E0. assert (s = store r ∨ ∃ e, store_update id st msg (store r) = (s, e)) as [->|[e He]].
  { destruct rt; cbn [retry_step] in E0; inv_act E0; eauto. }
  - apply ack_store; [done|]. by apply contents_progress.
  - apply ack_store; [done|]. by eapply update_progress.
Qed.

Lemma ack_io_step el b r r' : ack_ok r → io_step oor true el b r = Some r' → ack_ok r'.
Proof.
  intros Hi E0. unfold io_step, persist_step, update_step, recovery_step in E0.
  pose proof (ao_iopc _ Hi) as Hpc. pose proof (ack_io_return _ Hi) as Hret.
  destruct (rcur (io r)) as [pc|] eqn:Ec.
  - destruct pc as [t|u create cfg rt|p u|ctx id st msg final cfg rt|ch ctx [|job l]|ch ctx job l cfg rt
                   |ch ctx [|job l]|p ch ctx job l d|ch ctx l d].
    + simplify_eq. by apply ack_io_start.
    + pose proof Hpc as (-> & Hp & Hok & Hu & Hsv).
      destruct rt as [a e|a e|e g]; [inv_retry E0; by eapply persist_retry..|]. simplify_eq.
      apply ack_persist_end; [by apply ack_report|done|]. intros ->.
      eapply saved_grows; [|by apply (Hsv g)]. apply grows_same.
      by destruct (report_same cfg (ID (sub_entity u)) None g r) as (_ & _ & _ & _ & _ & -> & _).
    + simplify_eq. destruct Hpc. by apply ack_schedule_step.
    + destruct rt as [a e|a e|e g];
        [inv_retry E0; apply ack_io_goto; [by eapply update_retry|done]..|].
      assert (H0 : ack_ok (report cfg id e g (io_return r))) by by apply ack_report.
      simplify_eq. destruct final; [|done]. ack_same.
    + destruct (store_recoverable (store r)) as [s js] eqn:Es.
      assert (H1 : ack_ok (set_store s r)).
      { apply ack_store; [done|]. apply contents_progress. by eapply recoverable_contents. }
      destruct js; simplify_eq; [by apply ack_io_goto|by apply ack_send_err, ack_io_return].
    + simplify_eq. by apply ack_io_goto.
    + destruct rt as [a e|a e|e g];
        [inv_retry E0; apply ack_io_goto; [by eapply update_retry|done]..|].
      simplify_eq. by apply ack_report, ack_io_goto.
    + simplify_eq. by apply ack_send_none; [|apply Hpc].
    + simplify_eq. apply ack_io_goto; [|split; [exact Hpc|done]]. ack_same.
    + injection E0 as <-. destruct (PostTask p _ (control r)) as [x|] eqn:Ep; [|by apply ack_io_goto].
      apply ack_io_goto; [|done]. eapply ack_post_control; [done| |done]. split; apply Hpc.
    + destruct b; inv_act E0; [by apply ack_send_err|].
      by apply ack_io_goto; [|apply Hpc].
  - destruct (rq (io r)) as [|t q] eqn:Eq; simplify_eq.
    destruct Hi. rewrite Eq in *. apply Forall_cons in ao_io0 as [Ht Hq]. by split.
Qed.

Lemma ack_exec_start k r r' : ack_ok r → exec_start k r = Some r' → ack_ok r'.
Proof. intros Hi E0. unfold exec_start in E0. inv_act E0. ack_same. Qed.
Lemma ack_exec_lose k r r' : ack_ok r → exec_lose k r = Some r' → ack_ok r'.
Proof. intros Hi E0. unfold exec_lose in E0. inv_act E0. ack_same. Qed.
Lemma ack_exec_step k r r' : ack_ok r → exec_step k r = Some r' → ack_ok r'.
Proof.
  intros Hi E0. unfold exec_step in E0. destruct (exec r !! k) as [[j|p j|j|p j st msg|]|]; simplify_eq.
  - ack_same.
  - destruct (PostTask _ _ _) as [x|] eqn:Ep; [|ack_same].
    assert (H1 : ack_ok (set_io x r)) by (by eapply ack_post_io; [exact Hi| |exact Ep]). ack_same.
  - destruct (PostTask _ _ _) as [x|] eqn:Ep; [|ack_same].
    assert (H1 : ack_ok (set_control x r)) by (by eapply ack_post_control; [exact Hi| |exact Ep]). ack_same.
Qed.
Lemma ack_exec_end k o r r' : ack_ok r → exec_end k o r = Some r' → ack_ok r'.
Proof. intros Hi E0. unfold exec_end in E0. inv_act E0. ack_same. Qed.

Lemma ack_call_entry op ctx r : ack_ok r → ack_ok (call_entry op ctx r).
Proof.
  intros Hi.
  assert (Hin : ∀ x pc, ack_ok x → call_ok (acked x) (MkCall op ctx pc) →
            ack_ok (set_calls (calls x ++ [MkCall op ctx pc]) x)).
  { intros x pc [] Hc. split; try done. apply Forall_app. split; [done|]. by apply Forall_singleton. }
  unfold call_entry. case_match; [apply Hin; [done|by destruct op]|].
  apply Hin; [|by destruct op]. destruct op; try done. ack_same.
Qed.

Lemma ack_call_post b c ch r r' :
  ack_ok r → ch_job ch = match call_op c with OpSubmit e _ _ => Some e | _ => None end →
  call_post b c ch r = Some r' → ack_ok r'.
Proof.
  intros Hi Hch E0. unfold call_post in E0. destruct (call_op c); simpl in E0;
    (destruct (PostTask b _ _) as [x|] eqn:Ep; [|done]); cbn [mbind option_bind] in E0; simplify_eq;
    try (by eapply ack_post_control; [exact Hi| |exact Ep]).
  (* a recovery is counted *)
  set (h := hist r). set (r1 := set_hist (MkHist (scheduled h) (started h) (policies h) (overlap h)
    (Datatypes.S (recoveries h)) (reported h)) r).
  assert (ack_ok r1) as H1.
  { apply (ack_frame r); try done. split; try done; [by apply grows_same|unfold r1, h; simpl; lia]. }
  eapply (ack_post_io b _ r1 x H1); [|exact Ep]. split; [done|]. unfold recovering, r1. simpl. lia.
Qed.

Lemma ack_call_step b k r r' : ack_ok r → call_step b k r = Some r' → ack_ok r'.
Proof.
  intros Hi E0. unfold call_step in E0. destruct (calls r !! k) as [c|] eqn:Ek; [|done].
  cbn [mbind option_bind] in E0.
  assert (Hc : call_ok (acked r) c).
  { pose proof (ao_call _ Hi) as Hall. rewrite Forall_forall in Hall. apply Hall.
    by eapply list_elem_of_lookup_2. }
  unfold call_ok in Hc. destruct (call_pc c) as [|p ch|ch| | |n|e] eqn:Ep; [..|done].
  - destruct b; [done|]. injection E0 as <-. apply ack_set_call; [ack_same|].
    unfold call_ok, call_chan. simpl. by destruct (call_op c).
  - destruct b; [done|]. injection E0 as <-.
    destruct (call_post p c ch r) as [r1|] eqn:E1; apply ack_set_call; try done.
    + eapply ack_call_post; [exact Hi| |exact E1]. by destruct (call_op c).
    + unfold call_ok. simpl. by destruct (call_op c).
  - destruct b.
    + inv_act E0. apply ack_set_call; [done|]. unfold call_ok. simpl. by destruct (call_op c).
    + destruct (received ch r) as [e|] eqn:Er; [|done]. cbn [mbind option_bind] in E0.
      injection E0 as <-. apply ack_set_call; [done|]. unfold call_ok. simpl.
      destruct (call_op c); try done. destruct e; [done|]. by eapply (received_acked ch None).
  - destruct b; inv_act E0; try done; apply ack_set_call; try done;
      unfold call_ok; simpl; by destruct (call_op c).
  - destruct b; [done|]. injection E0 as <-. apply ack_set_call; [done|]. unfold call_ok. simpl.
    destruct (call_op c); repeat case_match; done.
  - destruct b; [done|]. destruct n as [|[|[|[|n]]]]; injection E0 as <-; apply ack_set_call;
      try (unfold call_ok; simpl; by destruct (call_op c)).
    1-4: destruct Hi; by split.
    apply (ack_frame r); try done. by split; [apply grows_same|..].
Qed.

(** The runners change neither the policies, nor (but for [exec_start]) what
    was started, nor the number of recoveries. *)
Definition key r := (policies (hist r), started (hist r), recoveries (hist r)).

Lemma key_schedule b j r r' : scheduleExecution b j r = Some r' → key r' = key r.
Proof. by intros [[-> _]| ->]%schedule_cases. Qed.
Lemma key_cancel c r : key (cancel c r) = key r.
Proof. by destruct c. Qed.
Lemma key_report cfg id e g r : key (report cfg id e g r) = key r.
Proof. unfold report. by destruct (g && _). Qed.
Lemma key_abort u e r : key (abort u e r) = key r.
Proof. unfold abort. exact (key_cancel _ _). Qed.
Lemma key_persist_end u e r : key (persist_end u e r) = key r.
Proof.
  unfold persist_end. destruct e; [apply key_abort|]. destruct (ctx_err _ _); [apply key_abort|done].
Qed.
Lemma key_cancel_all (l : list (Ctx * JobEntity)) r :
  key (foldr (λ '(c, _), cancel c) r l) = key r.
Proof. induction l as [|[c e] l IH]; [done|]. rewrite <- IH. exact (key_cancel _ _). Qed.

Lemma key_control_start t r : key (control_start t r) = key r.
Proof.
  destruct t; cbn [control_start]; try done.
  - unfold submitJobControl. by repeat case_match.
  - unfold cancelJobControl. case_match; [|done]. case_match. exact (key_cancel _ _).
  - unfold finalizeJobControl. case_match; [|done]. case_match. exact (key_cancel _ _).
  - unfold recoverJobControl. by case_match.
  - unfold cancelAllControl. exact (key_cancel_all _ _).
Qed.

Lemma key_control b r r' : control_step b r = Some r' → key r' = key r.
Proof.
  intros E0. unfold control_step in E0.
  destruct (rcur (control r)) as [[t|p t k|p j dn|u ch|id st msg]|].
  - destruct b; simplify_eq. exact (key_control_start t (control_return r)).
  - destruct b; simplify_eq. case_match; [by destruct k|done].
  - destruct b; simplify_eq. case_match eqn:Es; [|done]. exact (key_schedule _ _ _ _ Es).
  - destruct b; by inv_act E0.
  - by destruct b; simplify_eq.
  - destruct b; [done|]. by destruct (rq (control r)) as [|t q]; simplify_eq.
Qed.

Lemma key_io el b r r' : io_step oor true el b r = Some r' → key r' = key r.
Proof.
  intros E0. unfold io_step, persist_step, update_step, recovery_step in E0. destruct (rcur (io r)) as [pc|].
  - destruct pc as [t|u create cfg rt|p u|ctx id st msg final cfg rt|ch ctx [|job l]|ch ctx job l cfg rt
                   |ch ctx [|job l]|p ch ctx job l d|ch ctx l d].
    + simplify_eq. destruct t; cbn [io_start]; try done.
      * destruct (ctx_err _ _); [exact (key_abort _ _ _)|done].
      * by destruct (store_list _ _) as [s [js|e]].
    + destruct rt; [by inv_retry E0..|]. simplify_eq. rewrite key_persist_end. exact (key_report _ _ _ _ _).
    + simplify_eq. unfold schedule_step. case_match eqn:Es; [|done]. exact (key_schedule _ _ _ _ Es).
    + destruct rt; [by inv_retry E0..|]. simplify_eq. destruct final; exact (key_report _ _ _ _ _).
    + destruct (store_recoverable _) as [s [js|e]]; by simplify_eq.
    + by simplify_eq.
    + destruct rt; [by inv_retry E0..|]. simplify_eq. exact (key_report _ _ _ _ _).
    + by simplify_eq.
    + by simplify_eq.
    + injection E0 as <-. by case_match.
    + destruct b; by inv_act E0.
  - by destruct (rq (io r)) as [|t q]; simplify_eq.
Qed.

(** A call's post touches a runner and the count of recoveries. *)
Lemma call_post_same b c ch r r' :
  call_post b c ch r = Some r' →
  store r' = store r ∧ exec r' = exec r ∧ exec_closed r' = exec_closed r ∧ calls r' = calls r ∧
  rcur (io r') = rcur (io r) ∧ rcur (control r') = rcur (control r) ∧
  scheduled (hist r') = scheduled (hist r) ∧ started (hist r') = started (hist r) ∧
  policies (hist r') = policies (hist r) ∧ recoveries (hist r) ≤ recoveries (hist r') ∧
  chans r' = chans r ∧ cancelled r' = cancelled r ∧ exec_queue r' = exec_queue r.
Proof.
  unfold call_post. intros E0. destruct (call_op c); simpl in E0;
    (destruct (PostTask b _ _) as [x|] eqn:Ep; [|done]); cbn [mbind option_bind] in E0; simplify_eq;
    apply PostTask_rq in Ep as [Ep _]; simpl; split_and!; try done; lia.
Qed.
Lemma call_post_progress b c ch r r' : call_post b c ch r = Some r' → progress r r'.
Proof.
  intros (E1 & _ & E2 & _ & _ & _ & E3 & _ & _ & E4 & _)%call_post_same.
  split; [by apply grows_same|by rewrite E3|by rewrite E2|done].
Qed.

Lemma policies_grow l r r' p :
  step l r = Some r' → p ∈ policies (hist r) → p ∈ policies (hist r').
Proof.
  intros E0 Hin. destruct l as [op n|b k|b|el b|k|k|k|k o|n|q|b|b|b]; cbn [JobManager.step] in E0.
  - simplify_eq. unfold call_entry. by case_match; [|destruct op].
  - assert (policies (hist r') = policies (hist r)) as ->; [|done].
    unfold call_step in E0. destruct (calls r !! k) as [c|]; [|done]. cbn [mbind option_bind] in E0.
    destruct (call_pc c) as [|pu ch|ch| | |n|e]; [..|done].
    + by destruct b; simplify_eq.
    + destruct b; simplify_eq. case_match eqn:Ep; [|done].
      simpl. by apply call_post_same in Ep as (_ & _ & _ & _ & _ & _ & _ & _ & -> & _).
    + destruct b; by inv_act E0.
    + destruct b; by inv_act E0.
    + by destruct b; simplify_eq.
    + destruct b; [done|]. by destruct n as [|[|[|[|n]]]]; simplify_eq.
  - pose proof (key_control _ _ _ E0) as Hk. unfold key in Hk. congruence.
  - pose proof (key_io _ _ _ _ E0) as Hk. unfold key in Hk. congruence.
  - unfold exec_start in E0. by inv_act E0.
  - unfold exec_lose in E0. by inv_act E0.
  - unfold exec_step in E0. inv_act E0; by repeat case_match.
  - unfold exec_end in E0. by inv_act E0.
  - by simplify_eq.
  - simplify_eq. simpl. by right.
  - by simplify_eq.
  - by simplify_eq.
  - by simplify_eq.
Qed.

Definition ack_inv r : Prop := Forall good_policy (policies (hist r)) → ack_ok r.

Lemma ack_step l r r' : ack_inv r → step l r = Some r' → ack_inv r'.
Proof.
  intros Hi E0 Hpol. rewrite Forall_forall in Hpol.
  assert (H0 : ack_ok r) by (apply Hi, Forall_forall; eauto using policies_grow).
  destruct l as [op n|b k|b|el b|k|k|k|k o|n|p|b|b|b]; cbn [JobManager.step] in E0.
  - simplify_eq. by apply ack_call_entry.
  - by eapply ack_call_step.
  - by eapply ack_control_step.
  - by eapply ack_io_step.
  - by eapply ack_exec_start.
  - by eapply ack_exec_lose.
  - by eapply ack_exec_step.
  - by eapply ack_exec_end.
  - simplify_eq. by apply (ack_cancel [CallerCtx n]).
  - simplify_eq. assert (good_policy p) by (apply Hpol; left).
    assert (H1 : ack_ok (set_hist (hist (SetRetryPolicy p r)) r)) by ack_same.
    destruct H1. by split.
  - simplify_eq. ack_same.
  - simplify_eq. ack_same.
  - simplify_eq. ack_same.
Qed.

Lemma ack_reach s r : reachable step (NewJobManager s) r → ack_inv r.
Proof.
  apply (reachable_invariant step ack_inv); [|intros; eauto using ack_step].
  intros _. by split.
Qed.

(** *** Every step keeps what the store holds *)

Lemma progress_trans r1 r2 r3 : progress r1 r2 → progress r2 r3 → progress r1 r3.
Proof.
  intros [A1 A2 A3 A4] [B1 B2 B3 B4]. split; [|by auto..|lia]. intros id j Hj.
  destruct (A1 _ _ Hj) as (j1 & Hj1 & E1). destruct (B1 _ _ Hj1) as (j2 & Hj2 & E2).
  exists j2. by rewrite E2, E1.
Qed.
Lemma progress_cancel_all (l : list (Ctx * JobEntity)) r : progress r (foldr (λ '(c, _), cancel c) r l).
Proof.
  induction l as [|[c e] l IH]; [by apply progress_same|]. eapply progress_trans; [exact IH|].
  simpl. apply progress_same; by destruct c.
Qed.
Lemma progress_abort u e r : progress r (abort u e r).
Proof. unfold abort. apply progress_same; by destruct (sub_jobCtx u). Qed.
Lemma progress_report cfg id e g r : progress r (report cfg id e g r).
Proof. unfold report. by destruct (g && _); apply progress_same. Qed.

Lemma progress_control_start t r : progress r (control_start t r).
Proof.
  destruct t as [| | | | |dn job|dn]; cbn [control_start]; try by apply progress_same.
  - unfold submitJobControl. repeat case_match; by apply progress_same.
  - unfold cancelJobControl. case_match; [|by apply progress_same]. case_match.
    apply progress_same; by destruct c.
  - unfold finalizeJobControl. case_match; [|by apply progress_same]. case_match.
    apply progress_same; by destruct c.
  - unfold recoverJobControl. case_match; by apply progress_same.
  - unfold cancelAllControl.
    match goal with |- context [foldr _ ?x ?l] => destruct (progress_cancel_all l x) end. by split.
Qed.

Lemma progress_control b r r' : control_step b r = Some r' → progress r r'.
Proof.
  intros E0. unfold control_step in E0.
  destruct (rcur (control r)) as [[t|p t k|p j dn|u ch|id st msg]|].
  - destruct b; simplify_eq. eapply progress_trans; [|apply progress_control_start]. by apply progress_same.
  - destruct b; simplify_eq. case_match; [destruct k|]; by apply progress_same.
  - destruct b; simplify_eq. case_match eqn:Es; [|by apply progress_same].
    destruct (schedule_progress _ _ _ _ Es). by split.
  - destruct b; inv_act E0; by apply progress_same.
  - destruct b; simplify_eq. by apply progress_same.
  - destruct b; [done|]. destruct (rq (control r)) as [|t q]; simplify_eq. by apply progress_same.
Qed.

Lemma progress_persist_end u e r : progress r (persist_end u e r).
Proof.
  unfold persist_end. destruct e; [apply progress_abort|].
  destruct (ctx_err _ _); [apply progress_abort|by apply progress_same].
Qed.
Lemma progress_schedule_step b u r : progress r (schedule_step b u r).
Proof.
  unfold schedule_step. case_match eqn:Es; [|by apply progress_same].
  destruct (schedule_progress _ _ _ _ Es). by split.
Qed.
Lemma progress_io_start t r : progress r (io_start true t r).
Proof.
  destruct t; cbn [io_start].
  - destruct (ctx_err _ _); [apply progress_abort|by apply progress_same].
  - by apply progress_same.
  - destruct (store_list _ (store _)) as [s js] eqn:Es.
    apply (list_contents (contents:=contents)) in Es. apply (contents_progress s r) in Es.
    destruct js; by destruct Es.
Qed.

Lemma retry_progress id st msg p rt r ctx el rt' s res :
  retry_step oor p (store_update id st msg) ctx el rt (store r) = Some (rt', s, res) →
  progress r (set_store s r).
Proof.
  intros E0. assert (s = store r ∨ ∃ e, store_update id st msg (store r) = (s, e)) as [->|[e He]].
  { destruct rt; cbn [retry_step] in E0; inv_act E0; eauto. }
  - by apply contents_progress.
  - by eapply update_progress.
Qed.

Lemma progress_io el b r r' : ack_ok r → io_step oor true el b r = Some r' → progress r r'.
Proof.
  intros Hi E0. unfold io_step, persist_step, update_step, recovery_step in E0. destruct (rcur (io r)) as [pc|] eqn:Ec.
  - pose proof (ao_iopc _ Hi) as Hpc. rewrite Ec in Hpc.
    destruct pc as [t|u create cfg rt|p u|ctx id st msg final cfg rt|ch ctx [|job l]|ch ctx job l cfg rt
                   |ch ctx [|job l]|p ch ctx job l d|ch ctx l d].
    + simplify_eq. eapply progress_trans; [|apply progress_io_start]. by apply progress_same.
    + destruct Hpc as (-> & Hp & Hok & _).
      destruct rt as [a e|a e|e g]; [inv_retry E0..|].
      1,2: destruct (retry_step_spec oor (retryPolicy cfg) _ _ _ _ _ _ _ _ Hp Hok Eretry) as [_ [[-> _]|(e' & Hc & _)]];
        [by apply progress_same|]; by destruct (create_progress _ _ _ _ Hc).
      simplify_eq. eapply progress_trans; [apply progress_report|apply progress_persist_end].
    + simplify_eq. apply progress_schedule_step.
    + destruct rt as [a e|a e|e g]; [inv_retry E0; by destruct (retry_progress _ _ _ _ _ _ _ _ _ _ _ Eretry)..|].
      simplify_eq. destruct final; [|by destruct (progress_report cfg id e g (io_return r))].
      destruct (progress_report cfg id e g (io_return r)). by split.
    + destruct (store_recoverable (store r)) as [s js] eqn:Es.
      apply (recoverable_contents (contents:=contents)) in Es. apply (contents_progress s r) in Es.
      destruct js; simplify_eq; by destruct Es.
    + simplify_eq. by apply progress_same.
    + destruct rt as [a e|a e|e g]; [inv_retry E0; by destruct (retry_progress _ _ _ _ _ _ _ _ _ _ _ Eretry)..|].
      simplify_eq. by destruct (progress_report cfg (ID job) e g (io_goto (IRecFail ch ctx l) r)).
    + simplify_eq. by apply progress_same.
    + simplify_eq. by apply progress_same.
    + injection E0 as <-. case_match; by apply progress_same.
    + destruct b; inv_act E0; by apply progress_same.
  - destruct (rq (io r)) as [|t q] eqn:Eq; simplify_eq. by apply progress_same.
Qed.

Lemma progress_exec k r r' :
  exec_start k r = Some r' ∨ exec_lose k r = Some r' ∨ exec_step k r = Some r' → progress r r'.
Proof.
  unfold exec_start, exec_lose, exec_step.
  intros [E0|[E0|E0]]; inv_act E0; try case_match; by apply progress_same.
Qed.

Lemma step_progress l r r' : ack_ok r → step l r = Some r' → progress r r'.
Proof.
  intros Hi E0. destruct l as [op n|b k|b|el b|k|k|k|k o|n|p|b|b|b]; cbn [JobManager.step] in E0.
  - simplify_eq. unfold call_entry. case_match; [|destruct op]; by apply progress_same.
  - unfold call_step in E0. destruct (calls r !! k) as [c|]; [|done]. cbn [mbind option_bind] in E0.
    destruct (call_pc c) as [|pu ch|ch| | |n|e]; [..|done].
    + destruct b; simplify_eq. by apply progress_same.
    + destruct b; simplify_eq. case_match eqn:Ep; [|by apply progress_same].
      apply call_post_progress in Ep. by destruct Ep.
    + destruct b; inv_act E0; by apply progress_same.
    + destruct b; inv_act E0; by apply progress_same.
    + destruct b; simplify_eq; by apply progress_same.
    + destruct b; [done|]. destruct n as [|[|[|[|n]]]]; simplify_eq; [by apply progress_same..|].
      by split; [apply grows_same|..].
  - by eapply progress_control.
  - by eapply progress_io.
  - apply (progress_exec k). by left.
  - apply (progress_exec k). by right; left.
  - apply (progress_exec k). by right; right.
  - unfold exec_end in E0. inv_act E0; by apply progress_same.
  - simplify_eq. by apply progress_same.
  - simplify_eq. by apply progress_same.
  - simplify_eq. by apply progress_same.
  - simplify_eq. by apply progress_same.
  - simplify_eq. by apply progress_same.
Qed.

(** *** A stored identifier is spent: it is scheduled and started once *)

Local Open Scope Z_scope.

Definition w_saved (id : string) (pc : option (IoPc Handler)) : Z :=
  match pc with
  | Some (IPersist u _ _ (RDone None _)) | Some (ISchedule _ u) => here id (ID (sub_entity u))
  | _ => 0
  end.
Definition w_queued (id : string) (x : Exec Handler) : Z :=
  match x with EBegun j | EStatus _ j => w_job id j | _ => 0 end.
Definition spent r (id : string) : Z :=
  w_saved id (rcur (io r)) + total (w_job id) (exec_queue r) + total (w_queued id) (exec r) +
  total (here id) (started (hist r)).

Lemma w_saved_nonneg id pc : 0 <= w_saved id pc.
Proof. unfold w_saved. repeat case_match; try lia; apply here_range. Qed.
Lemma w_queued_nonneg id x : 0 <= w_queued id x.
Proof. destruct x; simpl; try lia; apply w_job_nonneg. Qed.

Definition spent_ok r : Prop := bounded (spent r) (contents (store r)).

Lemma spent_le r r' :
  spent_ok r → progress r r' → (∀ id, spent r' id <= spent r id) → spent_ok r'.
Proof.
  intros Hb [Hg _ _ _] Hle id. specialize (Hb id). specialize (Hle id).
  destruct (contents (store r) !! id) as [j|] eqn:Ej.
  - destruct (Hg _ _ Ej) as (j' & Hj' & _). rewrite Hj', bool_decide_true by by eexists.
    rewrite bool_decide_true in Hb by by eexists. lia.
  - rewrite (bool_decide_false (is_Some None)) in Hb by (intros [? ?]; done). simpl in Hb.
    case_bool_decide; simpl; lia.
Qed.

Lemma spent_eq r r' :
  io r' = io r → exec r' = exec r → started (hist r') = started (hist r) →
  exec_queue r' = exec_queue r → ∀ id, spent r' id = spent r id.
Proof. intros E1 E2 E3 E4 id. unfold spent. by rewrite E1, E2, E3, E4. Qed.

Lemma spent_schedule b j r r' id :
  scheduleExecution b j r = Some r' → spent r' id <= spent r id + w_job id j.
Proof.
  pose proof (w_job_nonneg id j).
  intros [[-> _]| ->]%schedule_cases; unfold spent; simpl; [lia|]. rewrite total_snoc. simpl. lia.
Qed.

Lemma spent_post_io b t x r id : PostTask b t (io r) = Some x → spent (set_io x r) id = spent r id.
Proof. intros [E _]%PostTask_rq. unfold spent. simpl. by rewrite E. Qed.

Lemma spent_control_start t r :
  tag_ok (recovering r) t → recoveries (hist r) = 0%nat → ∀ id, spent (control_start t r) id = spent r id.
Proof.
  intros Ht Hrec id0. destruct t as [| | |ch id|id st msg|dn job|dn]; cbn [control_start]; try done.
  - unfold submitJobControl. by repeat case_match.
  - unfold cancelJobControl. case_match; [|done]. case_match. by apply spent_eq; destruct c.
  - unfold finalizeJobControl. case_match; [|done]. case_match. by apply spent_eq; destruct c.
  - destruct Ht as [_ Ht]. unfold recovering in Ht. lia.
  - unfold cancelAllControl.
    match goal with |- context [foldr _ ?x ?l] =>
      destruct (cancel_all_same l x) as (_ & F2 & _ & F4 & F5 & _ & _ & _ & _ & F6) end.
    apply spent_eq; [exact F2|exact F4|exact (f_equal started F5)|exact F6].
Qed.

Lemma spent_control b r r' :
  ack_ok r → recoveries (hist r) = 0%nat → control_step b r = Some r' → ∀ id, spent r' id = spent r id.
Proof.
  intros Hi Hrec E0 id. unfold control_step in E0. pose proof (ao_ctlpc _ Hi) as Hpc.
  destruct (rcur (control r)) as [[t|p t k|p j dn|u ch|id0 st msg]|]; simpl in Hpc.
  - destruct b; simplify_eq. by apply (spent_control_start t (control_return r)).
  - destruct b; simplify_eq. destruct (PostTask p t (io r)) as [x|] eqn:Ep; [|done].
    etransitivity; [|by eapply spent_post_io]. by apply spent_eq; destruct k.
  - destruct Hpc as [_ Hpc]. unfold recovering in Hpc. lia.
  - by destruct b; inv_act E0.
  - by destruct b; simplify_eq.
  - destruct b; [done|]. by destruct (rq (control r)) as [|t q]; simplify_eq.
Qed.

Lemma spent_abort u e r id : spent (abort u e r) id <= spent r id.
Proof.
  unfold abort. set (r2 := set_active _ _).
  destruct (cancel_same (sub_jobCtx u) r2) as (_ & F2 & _ & F4 & F5 & _ & _ & _ & _ & F6).
  etransitivity;
    [apply Z.eq_le_incl, (spent_eq r2); [exact F2|exact F4|exact (f_equal started F5)|exact F6]|].
  unfold spent. simpl. pose proof (w_saved_nonneg id (rcur (io r))). lia.
Qed.

Lemma spent_report cfg id0 e g r id : spent (report cfg id0 e g r) id = spent r id.
Proof. unfold report. by destruct (g && _). Qed.

Lemma spent_persist_end u err r id :
  (err = None → w_saved id (rcur (io r)) = here id (ID (sub_entity u))) →
  spent (persist_end u err r) id <= spent r id.
Proof.
  intros Hw. unfold persist_end. destruct err as [e|]; [apply spent_abort|].
  destruct (ctx_err _ _); [apply spent_abort|].
  specialize (Hw eq_refl). unfold spent in *. simpl in *. lia.
Qed.

Lemma spent_schedule_step b u r id :
  rcur (io r) = Some (ISchedule b u) → spent (schedule_step b u r) id <= spent r id.
Proof.
  intros Ec. unfold schedule_step. destruct (scheduleExecution _ _ _) as [r1|] eqn:Es.
  - pose proof (spent_schedule _ _ _ _ id Es) as Hs. unfold w_job in Hs. simpl in Hs.
    destruct (schedule_same _ _ _ _ Es) as (_ & _ & _ & F & _).
    unfold spent in *. simpl. rewrite F, Ec in Hs. simpl in Hs. rewrite Ec. simpl. lia.
  - unfold spent. simpl. by rewrite Ec.
Qed.

Lemma spent_persist_step u cfg rt r el ctx rt' s res :
  ack_ok r → spent_ok r → rcur (io r) = Some (IPersist u true cfg rt) → (∀ err g, rt ≠ RDone err g) →
  retry_step oor (retryPolicy cfg) (store_create (sub_entity u)) ctx el rt (store r) = Some (rt', s, res) →
  spent_ok (io_goto (IPersist u true cfg rt') (set_store s r)).
Proof.
  intros Hi Hb Hcur Hnd E0. pose proof (ao_iopc _ Hi) as Hpc. rewrite Hcur in Hpc.
  destruct Hpc as (_ & Hp & Hok & _).
  assert (H0 : ∀ id, w_saved id (rcur (io r)) = 0).
  { intros id. rewrite Hcur. simpl. destruct rt as [| |e g]; [done..|]. by destruct (Hnd e g). }
  destruct (retry_step_spec oor (retryPolicy cfg) _ _ _ _ _ _ _ _ Hp Hok E0) as [_ [[-> Hno]|(e & Hc & Hiff)]].
  - apply (spent_le r); [done|by apply progress_same|]. intros id. specialize (H0 id).
    unfold spent. simpl. destruct rt' as [| |[e|] g]; try lia. by destruct (Hno g).
  - destruct e as [e|].
    + pose proof (create_progress _ _ _ _ Hc) as Hpr. apply (spent_le r); [done|by destruct Hpr|].
      intros id. specialize (H0 id). unfold spent. simpl. destruct rt' as [| |[e'|] g]; try lia.
      by assert (Some e = None) by (apply Hiff; by exists g).
    + destruct (create_nil (contents:=contents) _ _ _ Hc) as (Hn & j & Ej & _).
      unfold spent_ok. simpl. rewrite Ej. eapply bounded_insert; [exact Hb|done|].
      intros id. specialize (H0 id). unfold spent. simpl.
      pose proof (here_range id (ID (sub_entity u))). destruct rt' as [| |[e'|] g]; lia.
Qed.

Lemma spent_io el b r r' :
  ack_ok r → recoveries (hist r) = 0%nat → spent_ok r → io_step oor true el b r = Some r' → spent_ok r'.
Proof.
  intros Hi Hrec Hb E0. pose proof (progress_io _ _ _ _ Hi E0) as Hpr. unfold io_step, persist_step, update_step, recovery_step in E0.
  destruct (rcur (io r)) as [pc|] eqn:Ec.
  - pose proof (ao_iopc _ Hi) as Hpc. rewrite Ec in Hpc.
    assert (¬ recovering r) as Hnr by (unfold recovering; lia).
    destruct pc as [t|u create cfg rt|p u|ctx id st msg final cfg rt|ch ctx l|ch ctx job l cfg rt
                   |ch ctx l|p ch ctx job l d|ch ctx l d]; try (by destruct Hnr; apply Hpc).
    + simplify_eq. apply (spent_le r); [done|done|]. intros id.
      assert (Hz : spent r id = spent (io_return r) id) by (unfold spent; by rewrite Ec). rewrite Hz.
      destruct t as [u| |]; cbn [io_start]; [|done|by destruct Hnr; apply Hpc].
      destruct (ctx_err _ _); [apply spent_abort|done].
    + pose proof Hpc as (-> & _).
      destruct rt as [a e|a e|e g]; [inv_retry E0; by eapply spent_persist_step..|]. simplify_eq.
      apply (spent_le r); [done|done|]. intros id. etransitivity; [apply spent_persist_end|by rewrite spent_report].
      intros ->. destruct (report_same cfg (ID (sub_entity u)) None g r) as (_ & -> & _). by rewrite Ec.
    + simplify_eq. apply (spent_le r); [done|done|]. intros id. by apply spent_schedule_step.
    + apply (spent_le r); [done|done|]. intros id'. destruct rt as [a e|a e|e g].
      1,2: inv_retry E0; unfold spent; simpl; pose proof (w_saved_nonneg id' (rcur (io r))); lia.
      simplify_eq. pose proof (w_saved_nonneg id' (rcur (io r))).
      pose proof (spent_report cfg id e g (io_return r) id') as Hs.
      destruct final; [change (spent (report cfg id e g (io_return r)) id' <= spent r id')|];
        rewrite Hs; unfold spent; simpl; lia.
  - destruct (rq (io r)) as [|t q] eqn:Eq; simplify_eq. apply (spent_le r); [done|done|].
    intros id. unfold spent. simpl. by rewrite Ec.
Qed.

Lemma spent_exec_step k r r' : exec_step k r = Some r' → ∀ id, spent r' id <= spent r id.
Proof.
  intros E0 id. unfold exec_step in E0. destruct (exec r !! k) as [[j|p j|j|p j st msg|]|] eqn:Ek; simplify_eq;
    pose proof (w_job_nonneg id j).
  - destruct (ctx_err _ _); unfold spent; simpl; rw_total; simpl; lia.
  - destruct (PostTask p _ (io r)) as [x|] eqn:Ep; [|unfold spent; simpl; rw_total; simpl; lia].
    pose proof (spent_post_io _ _ _ _ id Ep) as Hs. unfold spent in *. simpl in *. rw_total.
    assert (w_job id j = here id (ID (job_entity j))) as Hj by done. simpl in *. lia.
  - destruct (PostTask p _ (control r)) as [x|] eqn:Ep; unfold spent; simpl; rw_total; simpl; lia.
Qed.

Lemma spent_step l r r' :
  ack_ok r → recoveries (hist r) = 0%nat → spent_ok r → step l r = Some r' → spent_ok r'.
Proof.
  intros Hi Hrec Hb E0. pose proof (step_progress _ _ _ Hi E0) as Hpr.
  destruct l as [op n|b k|b|el b|k|k|k|k o|n|p|b|b|b]; cbn [JobManager.step] in E0.
  - apply (spent_le r); [done|done|]. intros id. simplify_eq. unfold call_entry.
    by case_match; [|destruct op].
  - apply (spent_le r); [done|done|]. intros id.
    unfold call_step in E0. destruct (calls r !! k) as [c|]; [|done]. cbn [mbind option_bind] in E0.
    destruct (call_pc c) as [|pu ch|ch| | |n|e]; [..|done].
    + by destruct b; simplify_eq.
    + destruct b; simplify_eq. case_match eqn:Ep; [|done].
      apply call_post_same in Ep as (_ & E1 & _ & _ & E2 & _ & _ & E3 & _ & _ & _ & _ & E4).
      unfold spent. simpl in *. by rewrite E1, E2, E3, E4.
    + destruct b; by inv_act E0.
    + destruct b; by inv_act E0.
    + by destruct b; simplify_eq.
    + destruct b; [done|]. by destruct n as [|[|[|[|n]]]]; simplify_eq.
  - apply (spent_le r); [done|done|]. intros id. by rewrite (spent_control _ _ _ Hi Hrec E0).
  - by eapply spent_io.
  - apply (spent_le r); [done|done|]. intros id. unfold exec_start in E0. inv_act E0.
    unfold spent. simpl. rw_total. simpl. lia.
  - apply (spent_le r); [done|done|]. intros id. unfold exec_lose in E0. inv_act E0.
    pose proof (w_job_nonneg id j). unfold spent. simpl in *. rw_total. simpl. lia.
  - apply (spent_le r); [done|done|]. by eapply spent_exec_step.
  - apply (spent_le r); [done|done|]. intros id. unfold exec_end in E0. inv_act E0.
    unfold spent. simpl. rw_total. simpl. lia.
  - apply (spent_le r); [done|done|]. intros id. by simplify_eq.
  - apply (spent_le r); [done|done|]. intros id. by simplify_eq.
  - apply (spent_le r); [done|done|]. intros id. by simplify_eq.
  - apply (spent_le r); [done|done|]. intros id. by simplify_eq.
  - apply (spent_le r); [done|done|]. intros id. by simplify_eq.
Qed.

Lemma spent_reach s r :
  reachable step (NewJobManager s) r → Forall good_policy (policies (hist r)) →
  recoveries (hist r) = 0%nat → spent_ok r.
Proof.
  intros Hr. induction Hr as [|l r r' Hr IH E0]; intros Hpol Hrec.
  - intros id. unfold spent. simpl. case_bool_decide; simpl; lia.
  - rewrite Forall_forall in Hpol.
    assert (Hpol' : Forall good_policy (policies (hist r))) by (apply Forall_forall; eauto using policies_grow).
    pose proof (ack_reach _ _ Hr Hpol') as Hi.
    pose proof (pg_rec _ _ (step_progress _ _ _ Hi E0)).
    eapply spent_step; eauto; [lia|apply IH; [done|lia]].
Qed.
End durability.

(** ** Theorems *)

Lemma nodup_of_total {A} (f : A → string) (l : list A) :
  (∀ id, (total (λ x, here id (f x)) l <= 1)%Z) → NoDup (f <$> l).
Proof.
  induction l as [|x l IH]; intros Hall; [constructor|]. rewrite fmap_cons. constructor.
  - intros Hin. apply list_elem_of_fmap in Hin as (y & Hy & Hin).
    apply list_elem_of_lookup_1 in Hin as [i Hi]. specialize (Hall (f x)). simpl in Hall.
    rewrite here_same in Hall.
    pose proof (total_lookup_le (λ z, here (f x) (f z)) l i y
      (λ z, proj1 (here_range (f x) (f z))) Hi) as Hle. simpl in Hle. rewrite <- Hy, here_same in Hle. lia.
  - apply IH. intros id. specialize (Hall id). simpl in Hall. pose proof (here_range id (f x)). lia.
Qed.

Section theorems.
Context {S Handler : Type} `{Hops : JobStoreOps S} {contents : S → gmap string JobEntity}.
Context `{!JobStoreLaws S contents} (oor : SpecFloat.spec_float → Z).
Implicit Types r : JobManager S Handler.

Lemma jm_ack s r c e serialize_err delay :
  reachable (JobManager.step oor true) (NewJobManager s) r →
  Forall good_policy (policies (hist r)) →
  c ∈ calls r → call_op c = OpSubmit e serialize_err delay → call_pc c = PcRet None →
  (∃ j, contents (store r) !! ID e = Some j ∧ payload j = payload e) ∧
  (ID e ∈ scheduled (hist r) ∨ exec_closed r = true).
Proof.
  intros Hr Hpol Hin Ho Hpc. pose proof (ao_call _ (ack_reach _ _ _ Hr Hpol)) as Hall.
  rewrite Forall_forall in Hall. specialize (Hall _ Hin). unfold call_ok in Hall.
  by rewrite Ho, Hpc in Hall.
Qed.

(** C4. Durable acknowledgement: against any store that keeps the laws of a durable job store,
    and provided that every retry policy in force has 0 <= MaxRetries < 2^63-1, when SubmitJob
    has returned nil the store holds the job with its type, arguments and priority, and its
    execution was posted, unless the execution runner was already shut down. *)
Theorem jm_durable_ack s r c e serialize_err delay :
  reachable (JobManager.step oor true) (NewJobManager s) r →
  Forall good_policy (policies (hist r)) →
  c ∈ calls r → call_op c = OpSubmit e serialize_err delay → call_pc c = PcRet None →
  (∃ j, contents (store r) !! ID e = Some j ∧ payload j = payload e) ∧
  (ID e ∈ scheduled (hist r) ∨ exec_closed r = true).
Proof. apply jm_ack. Qed.

(** C11. As long as no recovery was asked for, and provided that every retry policy in force
    has 0 <= MaxRetries < 2^63-1, no job identifier is started twice, and every started job is
    in the store: over all interleavings of submissions, cancellations, finalizations, retries
    and shutdown. (With a negative MaxRetries a job that was never stored can be started.) *)
Theorem jm_runs_once s r :
  reachable (JobManager.step oor true) (NewJobManager s) r →
  Forall good_policy (policies (hist r)) → recoveries (hist r) = 0 →
  NoDup (started (hist r)) ∧
  ∀ id, id ∈ started (hist r) → is_Some (contents (store r) !! id).
Proof.
  intros Hr Hpol Hrec. pose proof (spent_reach _ _ _ Hr Hpol Hrec) as Hb.
  assert (Hle : ∀ id, (total (here id) (started (hist r)) <= spent r id)%Z).
  { intros id. unfold spent. pose proof (w_saved_nonneg id (rcur (io r))).
    pose proof (total_nonneg (w_job id) (exec_queue r) (w_job_nonneg id)).
    pose proof (total_nonneg (w_queued id) (exec r) (w_queued_nonneg id)). lia. }
  split.
  - rewrite <- (list_fmap_id (started (hist r))). apply nodup_of_total. intros id.
    etransitivity; [exact (Hle id)|exact (bounded_one _ _ id Hb)].
  - intros id Hin. apply (bounded_dom _ _ id Hb).
    apply list_elem_of_lookup_1 in Hin as [i Hi].
    pose proof (total_lookup_le (here id) _ i id (λ z, proj1 (here_range id z)) Hi) as H1.
    rewrite here_same in H1. specialize (Hle id). lia.
Qed.

(** For any store, as long as no recovery rescheduled an active job, the jobs waiting or
    running on the execution runner have distinct identifiers and every one of them is an
    active job. *)
Theorem jm_single_execution durable s r :
  reachable (JobManager.step oor durable) (NewJobManager s) r → overlap (hist r) = false →
  let jobs := (ID ∘ job_entity) <$> exec_queue r ++ omap exec_job (exec r) in
  NoDup jobs ∧ ∀ id, id ∈ jobs → is_Some (activeJobs r !! id).
Proof.
  intros Hr Hov jobs. pose proof (jm_token_reach _ _ _ _ Hr Hov) as Hb.
  assert (Hle : ∀ id, (total (w_job id) (exec_queue r ++ omap exec_job (exec r)) <= token r id)%Z).
  { intros id. assert (total (w_job id) (omap exec_job (exec r)) = total (w_exec id) (exec r)) as Hw.
    { induction (exec r) as [|x l IH]; [done|]. csimpl. unfold w_exec at 1. rewrite <- IH.
      by destruct (exec_job x). }
    rewrite total_app, Hw. unfold token. pose proof (w_iopc_nonneg id (rcur (io r))).
    pose proof (w_ctlpc_nonneg id (rcur (control r))).
    pose proof (total_nonneg (w_iotask id) (rq (io r)) (w_iotask_nonneg id)).
    pose proof (total_nonneg (w_ctl id) (rq (control r)) (w_ctl_nonneg id)). lia. }
  split.
  - apply nodup_of_total. intros id. specialize (Hle id). pose proof (bounded_one _ _ id Hb).
    unfold w_job in Hle. simpl in *. lia.
  - intros id Hin. apply (bounded_dom _ _ id Hb).
    apply list_elem_of_fmap in Hin as (j & -> & Hin). apply list_elem_of_lookup_1 in Hin as [i Hi].
    pose proof (total_lookup_le (w_job (ID (job_entity j))) _ i j (w_job_nonneg _) Hi) as H1.
    unfold w_job at 1 in H1. rewrite here_same in H1. specialize (Hle (ID (job_entity j))).
    simpl in *. lia.
Qed.

(** The manager never loses or rewrites a stored job: whatever it does afterwards, a job
    that is in the (durable) store stays there with the same identifier, type, arguments and
    priority. *)
Theorem jm_store_keeps s r ls r' id j :
  reachable (JobManager.step oor true) (NewJobManager s) r →
  run (JobManager.step oor true) ls r = Some r' →
  Forall good_policy (policies (hist r')) →
  contents (store r) !! id = Some j →
  ∃ j', contents (store r') !! id = Some j' ∧ payload j' = payload j.
Proof.
  intros Hr Hrun Hpol Hj.
  assert (reachable (JobManager.step oor true) r r') as Hrr by by eapply run_reachable.
  clear Hrun. induction Hrr as [|l r1 r2 Hr1 IH E0]; [by exists j|].
  rewrite Forall_forall in Hpol.
  assert (Hpol1 : Forall good_policy (policies (hist r1))) by (apply Forall_forall; eauto using policies_grow).
  destruct (IH Hpol1) as (j1 & Hj1 & E1).
  pose proof (ack_reach _ _ _ (reachable_trans _ _ _ _ Hr Hr1) Hpol1) as Hi.
  destruct (pg_store _ _ (step_progress _ _ _ _ Hi E0) _ _ Hj1) as (j2 & Hj2 & E2).
  exists j2. by rewrite E2, E1.
Qed.
End theorems.

(** ** Concrete runs: the memory store, handlers are numbers *)

Module JobDemo.
Definition jm := JobManager (gmap string JobEntity * Z) nat.
Definition init : jm := NewJobManager (∅, 7%Z).
Definition no_float (x : SpecFloat.spec_float) : Z := 0%Z.
Definition step := JobManager.step (S:=gmap string JobEntity * Z) (Handler:=nat) no_float true.
Definition an_email (id : string) : JobEntity := MkJobEntity id "email" [] JobStatusPending "" 1 5 0.
Definition io_tick : Label nat := LIo true false.
Definition ctl_tick : Label nat := LControl false.

Definition io_ticks (n : nat) : list (Label nat) := replicate n io_tick.
Definition ctl_ticks (n : nat) : list (Label nat) := replicate n ctl_tick.
(** Call [k] enters, makes its channel and posts (two accesses). *)
Definition call (op : Op nat) (k : nat) : list (Label nat) :=
  LCall op k :: replicate 3 (LCallStep false k).

Definition register : list (Label nat) :=
  call (OpRegister "email" 3) 0 ++ ctl_ticks 2 ++ [LCallStep false 0].
(** Call 1 submits job "a": control posts the closure of [submitJobIO], then
    the I/O runner takes it and creates the job. *)
Definition submit_a : list (Label nat) :=
  call (OpSubmit (an_email "a") None 0) 1 ++ ctl_ticks 4 ++ io_ticks 3.
(** ... posts its execution and ends; control and the caller get the result. *)
Definition ack_a : list (Label nat) := io_ticks 3 ++ [ctl_tick; LCallStep false 1].
(** The wrapper begins, posts the update to RUNNING and calls the handler. *)
Definition begin_a : list (Label nat) := LExecStart 0 :: replicate 3 (LExecStep 0).
Definition end_a : list (Label nat) := LExecEnd 0 (HReturn None) :: replicate 2 (LExecStep 0).
Definition execute_a : list (Label nat) := begin_a ++ io_ticks 4 ++ end_a.
Definition finalize_a : list (Label nat) := ctl_ticks 5 ++ io_ticks 4.

Definition go_to (ls : list (Label nat)) : jm := default init (run step ls init).
Lemma jm_go_to_reach ls :
  bool_decide (is_Some (run step ls init)) = true → reachable step init (go_to ls).
Proof.
  intros Hb. apply bool_decide_eq_true in Hb as [r E].
  unfold go_to. rewrite E. by eapply run_reachable.
Qed.

Definition status_in (id : string) (r : jm) : option (JobStatus * string) :=
  status_of <$> (store r).1 !! id.

Example job_completes :
  status_in "a" (go_to (register ++ submit_a ++ ack_a ++ execute_a ++ finalize_a))
  = Some (JobStatusCompleted, "").
Proof. vm_compute. reflexivity. Qed.
End JobDemo.
Import JobDemo.

Lemma default_policies (l : list RetryPolicy) : l = [DefaultRetryPolicy] → Forall good_policy l.
Proof. intros ->. apply Forall_singleton. unfold good_policy. simpl. lia. Qed.

Definition completed : jm := go_to (register ++ submit_a ++ ack_a ++ execute_a ++ finalize_a).
Definition running_a : jm := go_to (register ++ submit_a ++ ack_a ++ begin_a).

Lemma jm_durable_ack_witness :
  ((∃ j, (store completed).1 !! "a" = Some j ∧ payload j = ("a", "email", [], 1%Z)) ∧
   ("a" ∈ scheduled (hist completed) ∨ exec_closed completed = true)) ∧
  status_in "a" completed = Some (JobStatusCompleted, "").
Proof.
  split; [|vm_compute; reflexivity].
  apply (jm_durable_ack (contents:=fst) no_float (∅, 7%Z) completed
    (MkCall (OpSubmit (an_email "a") None 0) [CallerCtx 1] (PcRet None)) (an_email "a") None 0).
  - apply jm_go_to_reach. vm_compute. reflexivity.
  - apply default_policies. vm_compute. reflexivity.
  - apply (list_elem_of_lookup_2 _ 1). vm_compute. reflexivity.
  - reflexivity.
  - reflexivity.
Defined.

Lemma jm_runs_once_witness :
  (NoDup (started (hist completed)) ∧
   ∀ id, id ∈ started (hist completed) → is_Some ((store completed).1 !! id)) ∧
  started (hist completed) = ["a"].
Proof.
  split; [|vm_compute; reflexivity].
  apply (jm_runs_once (contents:=fst) no_float (∅, 7%Z) completed).
  - apply jm_go_to_reach. vm_compute. reflexivity.
  - apply default_policies. vm_compute. reflexivity.
  - vm_compute. reflexivity.
Defined.

Lemma jm_single_execution_witness :
  let jobs := (ID ∘ job_entity) <$> exec_queue running_a ++ omap exec_job (exec running_a) in
  (NoDup jobs ∧ ∀ id, id ∈ jobs → is_Some (activeJobs running_a !! id)) ∧ jobs = ["a"].
Proof.
  split; [|vm_compute; reflexivity].
  apply (jm_single_execution no_float true (∅, 7%Z) running_a).
  - apply jm_go_to_reach. vm_compute. reflexivity.
  - vm_compute. reflexivity.
Defined.

Lemma jm_store_keeps_witness :
  ∃ j', (store completed).1 !! "a" = Some j' ∧ payload j' = ("a", "email", [], 1%Z).
Proof.
  apply (jm_store_keeps (contents:=fst) no_float (∅, 7%Z) (go_to (register ++ submit_a))
    (ack_a ++ execute_a ++ finalize_a) completed "a" (set_times 5 7 (an_email "a"))).
  - apply jm_go_to_reach. vm_compute. reflexivity.
  - vm_compute. reflexivity.
  - apply default_policies. vm_compute. reflexivity.
  - vm_compute. reflexivity.
Defined.

(** ** What goes wrong *)

(** Caller 1 gives up after the job was created: the submission fails, the
    job is forgotten by the manager, and stays pending in the store ... *)
Definition cancelled_a : list (Label nat) :=
  register ++ submit_a ++ [LCancel 1; io_tick; ctl_tick; LCallStep false 1].
(** ... until the next recovery (call 2) runs it. *)
Definition recover : list (Label nat) :=
  call OpStart 2 ++ io_ticks 6 ++ ctl_ticks 4 ++ io_ticks 2 ++ [LCallStep false 2] ++ begin_a.

(** There is a run in which SubmitJob returns the error of its context and the job is not
    active, and yet the store holds it as pending; and continuing this run with Start executes
    the job. *)
Theorem jm_cancelled_submission_runs :
  ∃ r r' : jm, reachable step init r ∧ run step recover r = Some r' ∧
    call_pc <$> calls r !! 1 = Some (PcRet (Some ErrCtx)) ∧
    activeJobs r = ∅ ∧ status_in "a" r = Some (JobStatusPending, "") ∧
    started (hist r') = ["a"].
Proof.
  exists (go_to cancelled_a), (go_to (cancelled_a ++ recover)).
  split; [apply jm_go_to_reach; vm_compute; reflexivity|].
  split; [vm_compute; reflexivity|]. vm_compute. repeat split.
Qed.

(** Shutdown reads both counters while the control runner is between them. *)
Definition shutdown_race : list (Label nat) :=
  register ++ submit_a ++ ack_a ++ begin_a ++ io_ticks 4 ++
  call OpShutdown 2 ++ ctl_ticks 2 ++ [LCallStep false 2] ++
  end_a ++ ctl_ticks 2 ++ replicate 7 (LCallStep false 2) ++ ctl_ticks 2.

(** Shutdown can return nil, with every runner at rest, although the final status
    of a finished job was never written. *)
Theorem jm_shutdown_loses_status :
  ∃ r : jm, reachable step init r ∧
    call_pc <$> calls r !! 2 = Some (PcRet None) ∧
    started (hist r) = ["a"] ∧ exec_queue r = [] ∧ exec r = [EDone] ∧ activeJobs r = ∅ ∧
    rq (control r) = [] ∧ rcur (control r) = None ∧ rq (io r) = [] ∧ rcur (io r) = None ∧
    status_in "a" r = Some (JobStatusRunning, "").
Proof.
  exists (go_to shutdown_race). split; [apply jm_go_to_reach; vm_compute; reflexivity|].
  vm_compute. repeat split.
Qed.

(** With a negative MaxRetries a submission is acknowledged and run without
    having been stored. *)
Theorem jm_negative_retries_ack_unsaved :
  ∃ r : jm, reachable step init r ∧
    call_pc <$> calls r !! 1 = Some (PcRet None) ∧ status_in "a" r = None ∧
    started (hist r) = ["a"].
Proof.
  exists (go_to ([LSetRetryPolicy (MkRetryPolicy (-1)%Z 0%Z 0%Z (float64_of_int 1))] ++ register ++
                 submit_a ++ ack_a ++ begin_a)).
  split; [apply jm_go_to_reach; vm_compute; reflexivity|]. vm_compute. repeat split.
Qed.

(** *** Start and a submission wait for each other *)

Section start_deadlock.
Context {S Handler : Type} `{JobStoreOps S} (oor : SpecFloat.spec_float → Z) (durable : bool).
Implicit Types r : JobManager S Handler.

Definition waiting (u : Sub Handler) (ch ch' done : Chan) (ctx : Ctx) (jobs : list JobEntity) r : Prop :=
  rcur (control r) = Some (CtlSubmitting u ch) ∧ rcur (io r) = Some (IRecWait ch' ctx jobs done) ∧
  received (sub_result u) r = None ∧ received done r = None ∧
  ctx_err (sub_ctx u) r = None ∧ ctx_err ctx r = None.

Lemma waiting_frame u ch ch' done ctx jobs r r' :
  waiting u ch ch' done ctx jobs r → rcur (control r') = rcur (control r) →
  rcur (io r') = rcur (io r) → chans r' = chans r → cancelled r' = cancelled r →
  waiting u ch ch' done ctx jobs r'.
Proof. unfold waiting, received, ctx_err. by intros ? -> -> -> ->. Qed.

Lemma rcur_post {Q P} b (t : Q) (x x' : Runner Q P) : PostTask b t x = Some x' → rcur x' = rcur x.
Proof. by intros [E _]%PostTask_rq. Qed.

Lemma ctx_err_cancel c n r :
  ctx_err c r = None → CallerCtx n ∉ c → ctx_err c (cancel [CallerCtx n] r) = None.
Proof.
  unfold ctx_err. intros Hc Hn. case_bool_decide as H1; [done|].
  case_bool_decide as H2; [|done]. destruct H1. clear Hc. simpl in H2.
  apply Exists_exists in H2 as (i & Hi & Hin). apply Exists_exists. exists i. split; [done|].
  apply elem_of_cons in Hin as [->|Hin]; [done|done].
Qed.

Lemma waiting_step u ch ch' done ctx jobs l r r' :
  waiting u ch ch' done ctx jobs r → JobManager.step oor durable l r = Some r' →
  (∀ n, CallerCtx n ∈ sub_ctx u ++ ctx → l ≠ LCancel n) → waiting u ch ch' done ctx jobs r'.
Proof.
  intros Hw E0 Hl. pose proof Hw as (H1 & H2 & H3 & H4 & H5 & H6).
  destruct l as [op n|b k|b|el b|k|k|k|k o|n|p|b|b|b]; cbn [JobManager.step] in E0.
  - simplify_eq. unfold call_entry. case_match; [|destruct op]; by apply (waiting_frame _ _ _ _ _ _ r).
  - unfold call_step in E0. destruct (calls r !! k) as [c|]; [|done]. cbn [mbind option_bind] in E0.
    destruct (call_pc c) as [|pu chn|chn| | |n|e]; [..|done].
    + destruct b; simplify_eq; by apply (waiting_frame _ _ _ _ _ _ r).
    + destruct b; simplify_eq. case_match eqn:Ep; [|by apply (waiting_frame _ _ _ _ _ _ r)].
      apply call_post_same in Ep as (_ & _ & _ & _ & E1 & E2 & _ & _ & _ & _ & E3 & E4 & _).
      by apply (waiting_frame _ _ _ _ _ _ r).
    + destruct b; inv_act E0; by apply (waiting_frame _ _ _ _ _ _ r).
    + destruct b; inv_act E0; first [done|by apply (waiting_frame _ _ _ _ _ _ r)].
    + destruct b; simplify_eq; by apply (waiting_frame _ _ _ _ _ _ r).
    + destruct b; [done|].
      destruct n as [|[|[|[|n]]]]; simplify_eq; by apply (waiting_frame _ _ _ _ _ _ r).
  - unfold control_step in E0. rewrite H1, H3, H5 in E0. by destruct b.
  - unfold io_step, persist_step, update_step, recovery_step in E0. rewrite H2, H4, H6 in E0. by destruct b.
  - unfold exec_start in E0. inv_act E0. by apply (waiting_frame _ _ _ _ _ _ r).
  - unfold exec_lose in E0. inv_act E0. by apply (waiting_frame _ _ _ _ _ _ r).
  - unfold exec_step in E0. inv_act E0; [by apply (waiting_frame _ _ _ _ _ _ r)|..];
      case_match eqn:Ep; apply (waiting_frame _ _ _ _ _ _ r); try done; by eapply rcur_post.
  - unfold exec_end in E0. inv_act E0. by apply (waiting_frame _ _ _ _ _ _ r).
  - simplify_eq. unfold waiting, received. split_and!; try done; apply ctx_err_cancel; try done;
      intros Hin; apply (Hl n); set_solver.
  - simplify_eq. by apply (waiting_frame _ _ _ _ _ _ r).
  - simplify_eq. by apply (waiting_frame _ _ _ _ _ _ r).
  - simplify_eq. by apply (waiting_frame _ _ _ _ _ _ r).
  - simplify_eq. by apply (waiting_frame _ _ _ _ _ _ r).
Qed.

(** C34. Start and a submission can wait for each other: once the control runner waits in
    submitJobIO for the I/O runner while doRecoveryIO waits there for the control runner,
    neither moves again, whatever the other threads do, until one of the two contexts ends. *)
Theorem jm_start_deadlocks u ch ch' done ctx jobs ls r r' :
  waiting u ch ch' done ctx jobs r → run (JobManager.step oor durable) ls r = Some r' →
  (∀ n, CallerCtx n ∈ sub_ctx u ++ ctx → LCancel n ∉ ls) →
  rcur (control r') = Some (CtlSubmitting u ch) ∧ rcur (io r') = Some (IRecWait ch' ctx jobs done).
Proof.
  intros Hw Hrun Hl. assert (waiting u ch ch' done ctx jobs r') as (G1 & G2 & _); [|done].
  revert r Hw Hrun. induction ls as [|l ls IH]; intros r Hw Hrun; simpl in Hrun; [by simplify_eq|].
  destruct (JobManager.step oor durable l r) as [r1|] eqn:E1; [|done]. apply (IH ltac:(set_solver) r1); [|done].
  eapply waiting_step; [done..|]. intros n Hn ->. apply (Hl n Hn). left.
Qed.
End start_deadlock.

(** A store with a pending job, [Start] and a submission at the same time. *)
Definition init_p : jm := NewJobManager ({["p" := an_email "p"]}, 7%Z).
Definition start_and_submit : list (Label nat) :=
  register ++ call OpStart 1 ++ io_ticks 3 ++
  call (OpSubmit (an_email "a") None 0) 2 ++ ctl_ticks 4 ++ io_ticks 3.
Definition stuck : jm := default init_p (run step start_and_submit init_p).

Lemma jm_start_deadlocks_witness :
  reachable step init_p stuck ∧
  ∃ u ch ch' done,
    rcur (control stuck) = Some (CtlSubmitting u ch) ∧
    rcur (io stuck) = Some (IRecWait ch' [CallerCtx 1] [] done) ∧
    ∀ ls r', run step ls stuck = Some r' → LCancel 1 ∉ ls → LCancel 2 ∉ ls →
      rcur (control r') = Some (CtlSubmitting u ch) ∧
      rcur (io r') = Some (IRecWait ch' [CallerCtx 1] [] done).
Proof.
  split; [apply (run_reachable _ start_and_submit); vm_compute; reflexivity|].
  pose (e := an_email "a").
  exists (MkSub e [CallerCtx 2] [JobCtx 3; CallerCtx 2] 3 0%Z (MkChan 3 (Some e))),
    (MkChan 2 (Some e)), (MkChan 1 None), (MkChan 4 None).
  split; [vm_compute; reflexivity|]. split; [vm_compute; reflexivity|].
  intros ls r' Hrun H1 H2.
  apply (jm_start_deadlocks no_float true _ _ _ _ _ _ ls stuck r'); [|exact Hrun|].
  - vm_compute. repeat split.
  - simpl. intros n Hn. repeat (apply elem_of_cons in Hn as [[= ->]|Hn]; [done|]).
    by apply elem_of_nil in Hn.
Defined.
