(* ===== verification/JobLifecycle.v ===== *)
(** * The life of a job's status (job/job_manager.go)

    Without recoveries, a status that ends a job (COMPLETED, FAILED, CANCELED)
    is never overwritten.  The argument counts: between its creation and its
    final status a job is in exactly one place (just saved, on the execution
    runner, in a finalization, in the I/O queue, settled in the store), and the
    I/O runner writes RUNNING before the final status because it executes its
    closures in posting order. *)

From S2P Require Import Prelude JobStore Retry JobManager JobDurability.

(** ** Sequences of pending writes *)

(** [true]: the write of a final status.  Nothing else is written after it. *)
Definition ordered (l : list bool) : Prop := ∀ l1 l2, l = l1 ++ true :: l2 → false ∉ l2.

Section ordered.
Implicit Types l : list bool.
Local Open Scope Z_scope.

Lemma count_nonneg l : 0 <= total b2z l.
Proof. apply total_nonneg. by intros []. Qed.

Lemma ordered_nil : ordered [].
Proof. by intros [|] ?. Qed.
Lemma ordered_app_l l k : ordered (l ++ k) → ordered l.
Proof. intros Ho l1 l2 ->. rewrite <- app_assoc in Ho. specialize (Ho l1 (l2 ++ k) eq_refl). set_solver. Qed.
Lemma ordered_tail x l : ordered (x :: l) → ordered l.
Proof. intros Ho l1 l2 ->. apply (Ho (x :: l1)). done. Qed.
Lemma ordered_true l : ordered l → ordered (l ++ [true]).
Proof.
  intros Ho l1 l2 E. destruct l2 as [|x l2] using rev_ind; [set_solver|].
  rewrite app_comm_cons, app_assoc in E. apply app_inj_tail in E as [-> <-].
  specialize (Ho l1 l2 eq_refl). set_solver.
Qed.
Lemma ordered_false l : total b2z l <= 0 → ordered (l ++ [false]).
Proof.
  intros Hz l1 l2 E. assert (total b2z (l ++ [false]) <= 0) as Hz' by (rewrite total_snoc; simpl; lia).
  rewrite E, total_app, total_cons in Hz'. simpl in Hz'.
  pose proof (count_nonneg l1). pose proof (count_nonneg l2). lia.
Qed.
Lemma ordered_sub l k : ordered l → k `sublist_of` l → ordered k.
Proof.
  intros Ho Hs l1 l2 ->. apply sublist_app_l in Hs as (k1 & k2 & -> & _ & Hs).
  apply sublist_cons_l in Hs as (k3 & k4 & -> & Hs).
  rewrite app_assoc in Ho. specialize (Ho (k1 ++ k3) k4 eq_refl). contradict Ho.
  eapply elem_of_submseteq; [exact Ho|by apply sublist_submseteq].
Qed.
Lemma count_sub l k : k `sublist_of` l → total b2z k <= total b2z l.
Proof. induction 1 as [|[] ? ? ? IH|[] ? ? ? IH]; simpl; lia. Qed.
Lemma ordered_head l : ordered (true :: l) → false ∉ l.
Proof. intros Ho. by apply (Ho []). Qed.
End ordered.

Section lifecycle.
Context {S Handler : Type} `{Hops : JobStoreOps S} {contents : S → gmap string JobEntity}.
Context `{!JobStoreLaws S contents} (oor : SpecFloat.spec_float → Z).
Implicit Types r : JobManager S Handler.
Notation step := (step oor true).
Local Open Scope Z_scope.

Definition final (st : JobStatus) : bool :=
  negb (bool_decide (st = JobStatusPending ∨ st = JobStatusRunning)).
Definition retry_over (rt : Retry) : bool := match rt with RDone _ _ => true | _ => false end.

(** The writes of the status of [id]: the final one that was made, the one
    being made, the ones queued. *)
Definition upd_task (id : string) (t : IoTask Handler) : list bool :=
  match t with IUpdate _ id' _ _ f => if decide (id' = id) then [f] else [] | _ => [] end.
Definition upd_pc (id : string) (pc : option (IoPc Handler)) : list bool :=
  match pc with
  | Some (IStart t) => upd_task id t
  | Some (IUpd _ id' _ _ f _ rt) =>
      if decide (id' = id) then if retry_over rt then [] else [f] else []
  | _ => []
  end.
Definition settled (m : gmap string JobEntity) (id : string) : list bool :=
  match m !! id with Some j => if final (Status j) then [true] else [] | None => [] end.
Definition writes r (id : string) : list bool :=
  settled (contents (store r)) id ++ upd_pc id (rcur (io r)) ++ (rq (io r) ≫= upd_task id).

Definition w_finish (id : string) (pc : option (ControlPc Handler)) : Z :=
  match pc with
  | Some (CtlStart t) => w_ctl id t
  | Some (CtlFinalizing id' _ _) => here id id'
  | Some (CtlPostIo _ t _) => total b2z (upd_task id t)
  | _ => 0
  end.

(** Where a stored job is *)
Definition life r (id : string) : Z :=
  w_saved id (rcur (io r)) + total (w_job id) (exec_queue r) + total (w_exec id) (exec r) +
  total (w_ctl id) (rq (control r)) +
  w_finish id (rcur (control r)) + total b2z (writes r id).

Definition fate r (id : string) : Prop :=
  life r id <= b2z (bool_decide (is_Some (contents (store r) !! id))) ∧ ordered (writes r id).

(** What is submitted is pending, and what is no final write says RUNNING. *)
Definition ctl_plain (t : ControlTask Handler) : Prop :=
  match t with CSubmit _ _ e _ => Status e = JobStatusPending | _ => True end.
Definition io_plain (t : IoTask Handler) : Prop :=
  match t with
  | ISubmit u => Status (sub_entity u) = JobStatusPending
  | IUpdate _ _ st _ false => st = JobStatusRunning
  | _ => True
  end.
Definition ctlpc_plain (pc : option (ControlPc Handler)) : Prop :=
  match pc with
  | Some (CtlStart t) => ctl_plain t
  | Some (CtlPostIo _ t _) => io_plain t ∧ ∀ ctx id st msg, t ≠ IUpdate ctx id st msg false
  | _ => True
  end.
Definition pc_plain (pc : option (IoPc Handler)) : Prop :=
  match pc with
  | Some (IStart t) => io_plain t
  | Some (IPersist u _ _ _) => Status (sub_entity u) = JobStatusPending
  | Some (IUpd _ _ st _ false _ _) => st = JobStatusRunning
  | _ => True
  end.
Definition call_plain (c : Call Handler) : Prop :=
  match call_op c with OpSubmit e _ _ => Status e = JobStatusPending | _ => True end.

Record life_inv r : Prop := {
  li_ctl : Forall ctl_plain (rq (control r));
  li_ctlpc : ctlpc_plain (rcur (control r));
  li_io : Forall io_plain (rq (io r));
  li_pc : pc_plain (rcur (io r));
  li_fate id : fate r id;
}.

Lemma life_nonneg r id :
  0 <= w_saved id (rcur (io r)) ∧ 0 <= total (w_job id) (exec_queue r) ∧
  0 <= total (w_exec id) (exec r) ∧
  0 <= total (w_ctl id) (rq (control r)) ∧ 0 <= w_finish id (rcur (control r)) ∧
  0 <= total b2z (writes r id).
Proof.
  split_and!; [apply w_saved_nonneg|apply total_nonneg, w_job_nonneg|apply total_nonneg, w_exec_nonneg|apply total_nonneg, w_ctl_nonneg| |
    apply count_nonneg].
  destruct (rcur (control r)) as [[]|]; simpl; try lia;
    first [apply w_ctl_nonneg|apply count_nonneg|apply here_range].
Qed.

Lemma life_le1 r id : fate r id → life r id <= 1.
Proof. intros [Hl _]. revert Hl. case_bool_decide; simpl; lia. Qed.

(** Nothing moves; something moves, and the store is the same. *)
Lemma life_frame r r' :
  life_inv r → control r' = control r → io r' = io r → exec r' = exec r → exec_queue r' = exec_queue r →
  contents (store r') = contents (store r) → life_inv r'.
Proof.
  intros [H1 H0 H2 H3 H4] E1 E2 E3 E5 E4. split; rewrite ?E1, ?E2; try done.
  intros id. specialize (H4 id). unfold fate, life, writes in *. by rewrite E1, E2, E3, E4, E5.
Qed.

Lemma life_move r r' :
  life_inv r → contents (store r') = contents (store r) →
  Forall ctl_plain (rq (control r')) → ctlpc_plain (rcur (control r')) → Forall io_plain (rq (io r')) → pc_plain (rcur (io r')) →
  (∀ id, life r' id <= life r id) →
  (∀ id, ordered (writes r id) → life r id <= 1 → ordered (writes r' id)) → life_inv r'.
Proof.
  intros [_ _ _ _ H4] E H1 H0 H2 H3 Hl Ho. split; try done. intros id.
  pose proof (life_le1 _ _ (H4 id)). destruct (H4 id) as [Hf Hor]. split; [|auto].
  rewrite E. specialize (Hl id). lia.
Qed.

(** Posting *)
Lemma life_post_control b t r x :
  ctl_plain t → life_inv r → PostTask b t (control r) = Some x →
  Forall ctl_plain (rq x) ∧ rcur x = rcur (control r) ∧
  (∀ id, life (set_control x r) id <= life r id + w_ctl id t).
Proof.
  intros Ht Hi E. destruct (PostTask_ok ctl_plain _ _ _ _ (li_ctl _ Hi) Ht E) as [H1 H2].
  split; [done|]. split; [done|]. intros id. unfold life, writes. simpl. rewrite H2.
  pose proof (total_PostTask (w_ctl id) _ _ _ _ (w_ctl_nonneg id) E). lia.
Qed.

Lemma writes_post_io b t r x id :
  PostTask b t (io r) = Some x →
  writes (set_io x r) id = writes r id ∨ writes (set_io x r) id = writes r id ++ upd_task id t.
Proof.
  intros [E1 [E2|E2]]%PostTask_rq; unfold writes; simpl; rewrite E1, E2; [by left|right].
  rewrite bind_app, !app_assoc. f_equal. simpl. by rewrite app_nil_r.
Qed.

Lemma life_post_io b t r x :
  io_plain t → life_inv r → PostTask b t (io r) = Some x →
  Forall io_plain (rq x) ∧ pc_plain (rcur x) ∧
  (∀ id, life (set_io x r) id <= life r id + total b2z (upd_task id t)).
Proof.
  intros Ht Hi E. destruct (PostTask_ok io_plain _ _ _ _ (li_io _ Hi) Ht E) as [H1 H2].
  split; [done|]. split; [rewrite H2; apply Hi|]. intros id.
  pose proof (count_nonneg (upd_task id t)).
  unfold life. change (exec (set_io x r)) with (exec r). change (exec_queue (set_io x r)) with (exec_queue r). change (control (set_io x r)) with (control r).
  change (rcur (io (set_io x r))) with (rcur x). rewrite H2.
  destruct (writes_post_io _ _ _ _ id E) as [->| ->]; rewrite ?total_app; lia.
Qed.

(** *** The control runner *)

Lemma life_cancel c r : life_inv r → life_inv (cancel c r).
Proof.
  intros Hi. destruct (cancel_same c r) as (_ & E1 & E2 & E3 & _ & E4 & _ & _ & _ & E5).
  apply (life_frame r); rewrite ?E4; done.
Qed.

Lemma life_control_cur r pc q :
  life_inv r → Forall ctl_plain q → ctlpc_plain pc →
  (∀ id, total (w_ctl id) q + w_finish id pc <= total (w_ctl id) (rq (control r)) + w_finish id (rcur (control r))) →
  life_inv (set_control (MkRunner q pc (rclosed (control r))) r).
Proof.
  intros Hi Hq Hpc Hw. apply (life_move r); simpl; try apply Hi; try done.
  intros id. specialize (Hw id). unfold life, writes. simpl. lia.
Qed.
Lemma life_control_return r : life_inv r → life_inv (control_return r).
Proof.
  intros Hi. apply life_control_cur; [done|apply Hi|done|]. intros id. simpl.
  pose proof (life_nonneg r id). lia.
Qed.

(** What follows a post is not counted any more. *)
Lemma life_control_after k r : life_inv r → life_inv (control_after k r).
Proof.
  intros Hi. destruct k; simpl.
  - apply life_control_cur; [done|apply Hi|done|]. intros id. simpl. pose proof (life_nonneg r id). lia.
  - apply (life_frame (control_return r)); try done. by apply life_control_return.
  - by apply life_control_return.
Qed.

(** The write of a final status, or nothing that is written, is posted. *)
Lemma life_posted p t k r x :
  life_inv r → rcur (control r) = Some (CtlPostIo p t k) → PostTask p t (io r) = Some x →
  life_inv (control_after k (set_io x r)).
Proof.
  intros Hi Ec E. pose proof (li_ctlpc _ Hi) as Hp. rewrite Ec in Hp. destruct Hp as [Ht Hf].
  (* first the closure lets go of the task *)
  set (r1 := control_return r).
  assert (∀ id, life r1 id = life r id - total b2z (upd_task id t)) as Hl.
  { intros id. unfold life, writes. simpl. rewrite Ec. simpl. lia. }
  assert (life_inv r1) as H1 by by apply life_control_return.
  destruct (life_post_io p t r1 x Ht H1 E) as (G1 & G2 & G3).
  assert (life_inv (set_io x r1)) as H2.
  { apply (life_move r); try done; [apply Hi| |].
    - intros id. specialize (G3 id). rewrite Hl in G3. lia.
    - intros id Ho _. change (writes r id) with (writes r1 id) in Ho.
      destruct (writes_post_io p t r1 x id E) as [->| ->]; [done|].
      destruct t as [u|c id' st msg [|]|]; simpl; rewrite ?app_nil_r; try done; [|by destruct (Hf c id' st msg)].
      case_decide; [by apply ordered_true|by rewrite app_nil_r]. }
  pose proof (life_control_after k _ H2) as H3. by destruct k.
Qed.

Lemma life_cancelled c m r r1 :
  life_inv r → r1 = cancel c (set_active m r) → life_inv r1.
Proof. intros Hi ->. by apply life_cancel, (life_frame r). Qed.

Lemma life_control_start t r :
  ack_ok (contents:=contents) r → recoveries (hist r) = 0%nat → life_inv r →
  rcur (control r) = Some (CtlStart t) → life_inv (control_start t (control_return r)).
Proof.
  intros Ha Hrec Hi Ec. set (r1 := control_return r).
  assert (life_inv r1) as H1 by by apply life_control_return.
  pose proof (li_ctlpc _ Hi) as Ht. pose proof (ao_ctlpc _ Ha) as Htag. rewrite Ec in Ht, Htag.
  destruct t as [| |ch ctx e delay|ch id|id st msg|dn job|dn]; cbn [control_start]; simpl in Ht, Htag.
  - by apply (life_frame r1).
  - by apply (life_frame r1).
  - unfold submitJobControl. repeat case_match; try (by apply (life_frame r1)).
    match goal with |- life_inv (control_goto _ ?x) => assert (life_inv x) as H2 by by apply (life_frame r1) end.
    apply (life_control_cur _ _ _ H2); [apply H2|done|]. intros id. simpl. lia.
  - unfold cancelJobControl. repeat case_match; [|by apply (life_frame r1)].
    apply (life_frame (cancel c r1)); try done. by apply life_cancel.
  - unfold finalizeJobControl. destruct (activeJobs r1 !! id) as [[c j]|]; [|done].
    (* the finalization takes the place of its closure *)
    match goal with |- context [cancel ?c ?x] =>
      destruct (cancel_same c x) as (_ & E1 & E2 & E3 & _ & E4 & _ & _ & _ & E5); set (r2 := cancel c x) in * end.
    apply (life_move r); simpl; rewrite ?E1, ?E2, ?E4; try done; try apply Hi.
    + intros id'. unfold life, writes. simpl. rewrite E1, E2, E3, E4, E5, Ec. simpl. lia.
    + intros id' Ho _. unfold writes in *. simpl. by rewrite ?E1, ?E4.
  - destruct Htag as [_ Htag]. unfold recovering in Htag. simpl in Htag. lia.
  - unfold cancelAllControl. match goal with |- context [foldr _ ?x ?l] =>
      destruct (cancel_all_same l x) as (_ & F2 & F3 & F4 & _ & F6 & _ & _ & _ & F7) end.
    apply (life_frame r1); try done. exact (f_equal contents F6).
Qed.

Lemma life_control b r r' :
  ack_ok (contents:=contents) r → recoveries (hist r) = 0%nat → life_inv r →
  control_step b r = Some r' → life_inv r'.
Proof.
  intros Ha Hrec Hi E0. unfold control_step in E0. pose proof (life_control_return r Hi) as Hret.
  assert (Hgo : ∀ pc, ctlpc_plain (Some pc) →
    (∀ id, w_finish id (Some pc) <= w_finish id (rcur (control r))) → life_inv (control_goto pc r)).
  { intros pc Hpc Hw. apply life_control_cur; [done|apply Hi|done|]. intros id. specialize (Hw id). lia. }
  pose proof (li_ctlpc _ Hi) as Hpl. pose proof (ao_ctlpc _ Ha) as Htag.
  destruct (rcur (control r)) as [[t|p t k|p j dn|u ch|id st msg]|] eqn:Ec; simpl in Hpl, Htag.
  - destruct b; simplify_eq. by apply life_control_start.
  - destruct b; simplify_eq. case_match eqn:Ep; [by eapply life_posted|by apply Hgo].
  - destruct Htag as [_ Htag]. unfold recovering in Htag. lia.
  - by destruct b; inv_act E0; eapply life_frame.
  - destruct b; simplify_eq.
    apply (life_frame (control_goto (CtlPostIo false (IUpdate Background id st msg true) AfterReturn) r)); try done.
    apply Hgo; [done|]. intros id'. simpl. unfold here. case_decide; simpl.
    + by rewrite bool_decide_true.
    + by rewrite bool_decide_false.
  - destruct b; [done|]. destruct (rq (control r)) as [|t q] eqn:Eq; simplify_eq.
    pose proof (li_ctl _ Hi) as Hp. rewrite Eq in Hp. apply Forall_cons in Hp as [Ht Hq].
    apply life_control_cur; [done..|]. intros id. rewrite Eq, Ec. simpl. lia.
Qed.

(** *** The I/O runner *)

(** Writes disappear, or move from the queue to the current closure. *)
Lemma life_sub r r' :
  life_inv r → contents (store r') = contents (store r) → control r' = control r →
  Forall io_plain (rq (io r')) → pc_plain (rcur (io r')) →
  (∀ id, w_saved id (rcur (io r')) + total (w_job id) (exec_queue r') + total (w_exec id) (exec r')
         <= w_saved id (rcur (io r)) + total (w_job id) (exec_queue r) + total (w_exec id) (exec r)) →
  (∀ id, upd_pc id (rcur (io r')) ++ (rq (io r') ≫= upd_task id)
         `sublist_of` upd_pc id (rcur (io r)) ++ (rq (io r) ≫= upd_task id)) →
  life_inv r'.
Proof.
  intros Hi E1 E2 H1 H2 Hw Hs.
  assert (∀ id, writes r' id `sublist_of` writes r id) as Hs'.
  { intros id. unfold writes. rewrite E1. by apply sublist_app. }
  apply (life_move r); try done; [by rewrite E2; apply Hi..| |].
  - intros id. pose proof (count_sub _ _ (Hs' id)). specialize (Hw id). unfold life. rewrite E2. lia.
  - intros id Ho _. by eapply ordered_sub.
Qed.

(** The end of the current closure *)
Lemma life_io_return r : life_inv r → life_inv (io_return r).
Proof.
  intros Hi. apply (life_sub r); try done; try apply Hi.
  - intros id. simpl. pose proof (w_saved_nonneg id (rcur (io r))). lia.
  - intros id. simpl. by apply sublist_inserts_l.
Qed.

Lemma life_report cfg id e g r : life_inv r → life_inv (report cfg id e g r).
Proof.
  intros Hi.
  destruct (report_same cfg id e g r) as (_ & E1 & E2 & E3 & _ & E4 & _ & _ & _ & _ & _ & _ & E5).
  apply (life_frame r); rewrite ?E4; done.
Qed.

Lemma life_abort u e r : life_inv r → life_inv (abort u e r).
Proof.
  intros Hi. unfold abort.
  apply (life_frame (cancel (sub_jobCtx u) (set_active (delete (ID (sub_entity u)) (activeJobs r)) (io_return r))));
    try done.
  apply life_cancel. apply (life_frame (io_return r)); try done. by apply life_io_return.
Qed.

(** The closure of a submission gives its job to the execution runner. *)
Lemma life_schedule_step b u r :
  life_inv r → rcur (io r) = Some (ISchedule b u) → life_inv (schedule_step b u r).
Proof.
  intros Hi Ec. unfold schedule_step. destruct (scheduleExecution _ _ _) as [r1|] eqn:Es.
  - apply schedule_cases in Es as [[-> _]| ->].
    + apply (life_frame (io_return r)); try done. by apply life_io_return.
    + apply (life_sub r); try done; try apply Hi; intros id; simpl.
      * rewrite total_snoc, Ec. unfold w_job at 2. simpl. lia.
      * by apply sublist_inserts_l.
  - apply (life_sub r); try done; try apply Hi; intros id; simpl; by rewrite Ec.
Qed.

Lemma life_persist_end u err r :
  life_inv r → (err = None → ∀ id, w_saved id (rcur (io r)) = here id (ID (sub_entity u))) →
  life_inv (persist_end u err r).
Proof.
  intros Hi Hw. unfold persist_end. destruct err as [e|]; [by apply life_abort|].
  destruct (ctx_err _ _); [by apply life_abort|].
  apply (life_sub r); try done; try apply Hi; intros id.
  - by rewrite (Hw eq_refl id).
  - simpl. by apply sublist_inserts_l.
Qed.

(** One step of a retry loop: the store is the same, or the operation was called. *)
Lemma retry_effect {W} p (fn : W → W * option Error) ctx el rt w rt' w' res :
  retry_step oor p fn ctx el rt w = Some (rt', w', res) →
  w' = w ∨ ∃ e, fn w = (w', e) ∧ (e = None → rt' = RDone None false) ∧ (rt' = RDone None false → e = None).
Proof.
  intros E0. destruct rt; cbn [retry_step] in E0; inv_act E0; eauto; right;
    eexists; (split; [done|]); (split; [by intros ->|intros E; repeat case_match; congruence]).
Qed.

Lemma settled_insert m id id' j :
  settled (<[id := j]> m) id' =
    if decide (id = id') then if final (Status j) then [true] else [] else settled m id'.
Proof.
  unfold settled. case_decide as Hd; [subst; by rewrite lookup_insert_eq|by rewrite lookup_insert_ne].
Qed.

Lemma stored_insert {A} (m : gmap string A) id j id' :
  b2z (bool_decide (is_Some (m !! id'))) <= b2z (bool_decide (is_Some (<[id := j]> m !! id'))).
Proof.
  destruct (decide (id = id')) as [->|Hne].
  - rewrite lookup_insert_eq, (bool_decide_true (is_Some (Some j))) by by eexists.
    case_bool_decide; simpl; lia.
  - by rewrite lookup_insert_ne.
Qed.

(** A submission's retry *)
Lemma life_persist u cfg rt rt' ctx el s res r :
  ack_ok (contents:=contents) r → life_inv r →
  rcur (io r) = Some (IPersist u true cfg rt) → (∀ err g, rt ≠ RDone err g) →
  retry_step oor (retryPolicy cfg) (store_create (sub_entity u)) ctx el rt (store r) = Some (rt', s, res) →
  life_inv (io_goto (IPersist u true cfg rt') (set_store s r)).
Proof.
  intros Ha Hi Hcur Hnd E0. pose proof (ao_iopc _ Ha) as Hpc. rewrite Hcur in Hpc.
  destruct Hpc as (_ & Hp & Hok & _). pose proof (li_pc _ Hi) as Hpend. rewrite Hcur in Hpend. simpl in Hpend.
  assert (H0 : ∀ id, w_saved id (rcur (io r)) = 0).
  { intros id. rewrite Hcur. simpl. destruct rt as [| |[e|] g]; try done; by destruct (Hnd None g). }
  assert (Hsame : contents s = contents (store r) → (∀ g, rt' ≠ RDone None g) →
            life_inv (io_goto (IPersist u true cfg rt') (set_store s r))).
  { intros Hc Hno. apply (life_sub r); try done; [apply Hi| |].
    - intros id. rewrite H0. simpl. destruct rt' as [| |[e|] g]; try lia. by destruct (Hno g).
    - intros id. simpl. by rewrite Hcur. }
  destruct (retry_step_spec oor (retryPolicy cfg) _ _ _ _ _ _ _ _ Hp Hok E0) as [_ [[-> Hno]|(e & Hc & Hiff)]].
  { by apply Hsame. }
  destruct e as [e|].
  { apply Hsame; [by eapply create_err|]. intros g ->. assert (Some e = None) by (apply Hiff; by exists g). done. }
  destruct (create_nil (contents:=contents) _ _ _ Hc) as (Hn & j & Ej & _ & Hst).
  assert (final (Status j) = false) as Hfin.
  { injection Hst as -> _. unfold final. rewrite Hpend. by rewrite bool_decide_true by by left. }
  destruct Hi as [L1 L0 L2 L3 L4]. split; try done. intros id. destruct (L4 id) as [Hl Ho].
  assert (∀ x, writes (io_goto (IPersist u true cfg x) (set_store s r)) id = writes r id) as Hw.
  { intros x. unfold writes. simpl. rewrite Ej, settled_insert, Hcur, Hfin. simpl.
    case_decide; [subst|done]. unfold settled. by rewrite Hn. }
  assert (w_saved id (Some (IPersist u true cfg rt')) <= here id (ID (sub_entity u))) as Hws.
  { pose proof (here_range id (ID (sub_entity u))). simpl. destruct rt' as [| |[e'|] g]; lia. }
  split; [|by rewrite Hw]. specialize (H0 id). unfold life in *. rewrite H0 in Hl. rewrite Hw.
  change (rcur (io (io_goto _ _))) with (Some (IPersist u true cfg rt')).
  revert Hws. generalize (w_saved id (Some (IPersist u true cfg rt'))). intros ws Hws. simpl. rewrite Ej.
  unfold here in Hws. destruct (decide (ID (sub_entity u) = id)) as [<-|Hne].
  - rewrite Hn, (bool_decide_false (is_Some None)) in Hl by (intros [? ?]; done).
    rewrite lookup_insert_eq, (bool_decide_true (is_Some (Some j))) by by eexists.
    rewrite bool_decide_true in Hws by done. simpl in *. lia.
  - rewrite bool_decide_false in Hws by done.
    pose proof (stored_insert (contents (store r)) (ID (sub_entity u)) j id). simpl in Hws. lia.
Qed.

(** A status update's retry: what is settled stays. *)
Definition kept r r' : Prop :=
  ∀ id j, contents (store r) !! id = Some j → final (Status j) = true →
  ∃ j', contents (store r') !! id = Some j' ∧ status_of j' = status_of j.

Lemma kept_same r r' : contents (store r') = contents (store r) → kept r r'.
Proof. intros E id j Hj _. rewrite E. by exists j. Qed.

Lemma not_settled r c id st msg f cfg rt j :
  life_inv r → rcur (io r) = Some (IUpd c id st msg f cfg rt) → retry_over rt = false →
  contents (store r) !! id = Some j → final (Status j) = false.
Proof.
  intros Hi Hcur Hrt Hj. destruct (final (Status j)) eqn:Hf; [exfalso|done].
  pose proof (li_fate _ Hi id) as Hfate. pose proof (life_le1 _ _ Hfate) as Hle.
  pose proof (life_nonneg r id). destruct Hfate as [_ Ho].
  assert (writes r id = true :: f :: (rq (io r) ≫= upd_task id)) as Hw.
  { unfold writes, settled. rewrite Hj, Hf, Hcur. simpl. by rewrite decide_True, Hrt. }
  rewrite Hw in Ho. apply ordered_head in Ho. unfold life in *. rewrite Hw in *.
  pose proof (count_nonneg (rq (io r) ≫= upd_task id)). destruct f; [simpl in *; lia|set_solver].
Qed.

Lemma life_update r c id st msg f cfg rt rt' ctx el s res :
  life_inv r → rcur (io r) = Some (IUpd c id st msg f cfg rt) → retry_over rt = false →
  retry_step oor (retryPolicy cfg) (store_update id st msg) ctx el rt (store r) = Some (rt', s, res) →
  let r' := io_goto (IUpd c id st msg f cfg rt') (set_store s r) in life_inv r' ∧ kept r r'.
Proof.
  intros Hi Hcur Hrt E0 r'. pose proof (li_pc _ Hi) as Hpl. rewrite Hcur in Hpl.
  assert (Hsub : ∀ id', upd_pc id' (Some (IUpd c id st msg f cfg rt')) `sublist_of` upd_pc id' (rcur (io r))).
  { intros id'. rewrite Hcur. simpl. case_decide; [|done]. rewrite Hrt.
    destruct (retry_over rt'); [by apply sublist_nil_l|done]. }
  assert (Hsame : contents s = contents (store r) → life_inv r' ∧ kept r r').
  { intros Hc. split; [|by apply kept_same]. apply (life_sub r); try done; [apply Hi| |].
    - intros id'. rewrite Hcur. simpl. lia.
    - intros id'. apply sublist_app; [apply Hsub|done]. }
  destruct (retry_effect _ _ _ _ _ _ _ _ _ E0) as [->|([e|] & Hu & Hn & _)]; [by apply Hsame| |].
  { apply Hsame. by eapply update_err. }
  specialize (Hn eq_refl). subst rt'.
  destruct (update_nil (contents:=contents) _ _ _ _ _ Hu) as (j & j' & Hj & Hs & _ & Hst).
  pose proof (not_settled _ _ _ _ _ _ _ _ _ Hi Hcur Hrt Hj) as Hfin. split.
  - assert (∀ id', writes r' id' `sublist_of` writes r id') as Hw.
    { intros id'. unfold writes. simpl. rewrite Hs, settled_insert, Hcur. simpl. rewrite Hrt.
      destruct (decide (id = id')) as [<-|]; [|done]. unfold settled. rewrite Hj, Hfin. simpl.
      injection Hst as -> _. destruct f; [|rewrite Hpl; by apply sublist_cons].
      destruct (final st); [done|by apply sublist_cons]. }
    destruct Hi as [L1 L0 L2 L3 L4]. split; try done. intros id'. destruct (L4 id') as [Hl Ho].
    split; [|by eapply ordered_sub]. pose proof (count_sub _ _ (Hw id')) as Hc.
    unfold life in *. rewrite Hcur in Hl. simpl in *. rewrite Hs.
    pose proof (stored_insert (contents (store r)) id j' id'). lia.
  - intros id' j1 Hj1 Hf1. simpl. rewrite Hs. destruct (decide (id = id')) as [<-|Hne]; [by simplify_eq; congruence|].
    rewrite lookup_insert_ne by done. by exists j1.
Qed.

Lemma abort_store u e r : store (abort u e r) = store r ∧ calls (abort u e r) = calls r.
Proof.
  unfold abort. match goal with |- context [cancel ?c ?x] =>
    destruct (cancel_same c x) as (_ & _ & _ & _ & _ & E1 & E2 & _) end. by split.
Qed.
Lemma persist_end_store u err r :
  store (persist_end u err r) = store r ∧ calls (persist_end u err r) = calls r.
Proof.
  unfold persist_end. destruct err; [apply abort_store|]. by destruct (ctx_err _ _); [apply abort_store|].
Qed.
Lemma schedule_step_store b u r :
  store (schedule_step b u r) = store r ∧ calls (schedule_step b u r) = calls r.
Proof.
  unfold schedule_step. destruct (scheduleExecution _ _ _) as [r1|] eqn:Es; [|done].
  by destruct (schedule_same _ _ _ _ Es) as (_ & _ & _ & _ & ? & ? & _).
Qed.

Lemma kept_create e r s err r' :
  store_create e (store r) = (s, err) → store r' = s → kept r r'.
Proof.
  intros Hc <-. destruct err as [x|]; [by apply kept_same; eapply create_err|].
  destruct (create_nil (contents:=contents) _ _ _ Hc) as (Hn & j & Ej & _).
  intros id j1 Hj1 _. rewrite Ej, lookup_insert_ne by congruence. by exists j1.
Qed.

Lemma life_io_start t r :
  ack_ok (contents:=contents) r → recoveries (hist r) = 0%nat → life_inv r →
  rcur (io r) = Some (IStart t) →
  life_inv (io_start true t (io_return r)) ∧ kept r (io_start true t (io_return r)).
Proof.
  intros Ha Hrec Hi Ec. pose proof (li_pc _ Hi) as Ht. pose proof (ao_iopc _ Ha) as Hok.
  rewrite Ec in Ht, Hok. simpl in Ht, Hok. pose proof (life_io_return r Hi) as Hret.
  destruct t as [u|ctx id st msg f|ch ctx]; cbn [io_start].
  - destruct (ctx_err _ _).
    { split; [by apply life_abort|apply kept_same; by rewrite (proj1 (abort_store _ _ _))]. }
    split; [|by apply kept_same]. unfold persist_start. apply (life_sub r); try done; try apply Hi.
    + intros id. by rewrite Ec.
    + intros id. simpl. by apply sublist_inserts_l.
  - split; [|by apply kept_same]. apply (life_sub r); try done; try apply Hi.
    + intros id'. by rewrite Ec.
    + intros id'. by rewrite Ec.
  - destruct Hok as [_ Hok]. unfold recovering in Hok. lia.
Qed.

Lemma life_io el b r r' :
  ack_ok (contents:=contents) r → recoveries (hist r) = 0%nat → life_inv r →
  io_step oor true el b r = Some r' → life_inv r' ∧ kept r r'.
Proof.
  intros Ha Hrec Hi E0. unfold io_step, persist_step, update_step, recovery_step in E0.
  assert (¬ recovering r) as Hnr by (unfold recovering; lia).
  destruct (rcur (io r)) as [pc|] eqn:Ec.
  - pose proof (ao_iopc _ Ha) as Hpc. rewrite Ec in Hpc.
    destruct pc as [t|u create cfg rt|p u|ctx id st msg f cfg rt|ch ctx l|ch ctx job l cfg rt
                   |ch ctx l|p ch ctx job l d|ch ctx l d]; try (by destruct Hnr; apply Hpc).
    + simplify_eq. by apply life_io_start.
    + pose proof Hpc as (-> & _).
      destruct rt as [a e|a e|e g];
        [inv_retry E0; (split; [by eapply life_persist|]);
         (destruct (retry_effect _ _ _ _ _ _ _ _ _ Eretry) as [->|(x & Hx & _)];
           [by apply kept_same|by eapply kept_create])..|].
      simplify_eq. destruct (report_same cfg (ID (sub_entity u)) e g r) as (_ & E1 & _ & _ & _ & E2 & _).
      split; [|apply kept_same; by rewrite (proj1 (persist_end_store _ _ _)), E2].
      apply life_persist_end; [by apply life_report|]. intros -> id. by rewrite E1, Ec.
    + simplify_eq. split; [by apply life_schedule_step|].
      apply kept_same. by rewrite (proj1 (schedule_step_store _ _ _)).
    + destruct rt as [a e|a e|e g]; [inv_retry E0; by eapply life_update..|].
      pose proof (life_report cfg id e g _ (life_io_return _ Hi)) as H0.
      destruct (report_same cfg id e g (io_return r)) as (_ & _ & _ & _ & _ & E2 & _).
      simplify_eq. destruct f; (split; [by eapply (life_frame (report cfg id e g (io_return r)))|]);
        apply kept_same; simpl; by rewrite E2.
  - destruct (rq (io r)) as [|t q] eqn:Eq; simplify_eq. split; [|by apply kept_same].
    pose proof (li_io _ Hi) as Ht. rewrite Eq in Ht. apply Forall_cons in Ht as [Ht Hq].
    apply (life_sub r); try done; intros id; rewrite Ec; [done|]. by rewrite Eq.
Qed.

(** *** The execution runner *)

(** A wrapper begins, goes on, or is gone. *)
Lemma life_exec_move q l c r :
  life_inv r →
  (∀ id, total (w_job id) q + total (w_exec id) l
         <= total (w_job id) (exec_queue r) + total (w_exec id) (exec r)) →
  life_inv (set_exec l (set_exec_queue q c r)).
Proof.
  intros Hi Hl. apply (life_move r); try done; try apply Hi. intros id. specialize (Hl id).
  unfold life, writes. simpl. lia.
Qed.
Lemma life_wrapper k x y r :
  life_inv r → exec r !! k = Some x → exec_job y = exec_job x ∨ y = EDone → life_inv (set_wrapper k y r).
Proof.
  intros Hi Hk E. apply (life_exec_move (exec_queue r) _ (exec_closed r) r Hi). intros id. rw_total.
  pose proof (w_exec_nonneg id x). unfold w_exec in *. destruct E as [->| ->]; simpl; lia.
Qed.

(** The update to RUNNING is posted: the job is on the execution runner, so
    its final status is not. *)
Lemma life_status k p j r x :
  life_inv r → exec r !! k = Some (EStatus p j) →
  PostTask p (updateStatusIO (job_ctx j) (ID (job_entity j)) JobStatusRunning "") (io r) = Some x →
  life_inv (set_io x r).
Proof.
  intros Hi Ek E.
  destruct (life_post_io p (updateStatusIO (job_ctx j) (ID (job_entity j)) JobStatusRunning "") r x
    eq_refl Hi E) as (G1 & G2 & G3).
  apply (life_move r); try done; try apply Hi.
  - intros id. specialize (G3 id). revert G3. simpl. case_decide; simpl; lia.
  - intros id Ho Hle. destruct (writes_post_io _ _ _ _ id E) as [->| ->]; [done|].
    simpl. case_decide as Hd; [|by rewrite app_nil_r]. apply ordered_false.
    pose proof (total_lookup_le (w_exec id) _ _ _ (w_exec_nonneg _) Ek) as Hk.
    unfold w_exec at 1 in Hk. simpl in Hk. unfold w_job at 1 in Hk. rewrite Hd, here_same in Hk.
    pose proof (life_nonneg r id). unfold life in Hle. lia.
Qed.

(** The finalization is posted. *)
Lemma life_final k p j st msg r x :
  life_inv r → exec r !! k = Some (EFinal p j st msg) →
  PostTask p (finalizeJob (ID (job_entity j)) st msg) (control r) = Some x →
  life_inv (set_wrapper k EDone (set_control x r)).
Proof.
  intros Hi Ek E. set (r1 := set_wrapper k EDone r).
  assert (∀ id, life r1 id = life r id - here id (ID (job_entity j))) as Hl.
  { intros id. unfold life, writes. simpl. rw_total. unfold w_exec at 2 3. simpl. unfold w_job at 2. lia. }
  assert (life_inv r1) as H1 by (eapply life_wrapper; [exact Hi|exact Ek|by right]).
  destruct (life_post_control p (finalizeJob (ID (job_entity j)) st msg) r1 x I H1 E) as (G1 & G2 & G3).
  apply (life_move r); try done; try apply Hi.
  - simpl. rewrite G2. apply Hi.
  - intros id. specialize (G3 id). rewrite Hl in G3. simpl in G3. unfold life, writes in *. simpl in *. lia.
Qed.

Lemma life_exec k o r r' :
  life_inv r →
  exec_start k r = Some r' ∨ exec_lose k r = Some r' ∨ exec_step k r = Some r' ∨ exec_end k o r = Some r' →
  life_inv r' ∧ store r' = store r ∧ calls r' = calls r.
Proof.
  unfold exec_start, exec_lose, exec_step, exec_end.
  intros Hi [E0|[E0|E0]].
  - inv_act E0. split; [|done]. apply life_exec_move; [done|]. intros id. rw_total.
    unfold w_exec at 2. simpl. lia.
  - inv_act E0. split; [|done].
    pose proof (life_exec_move (delete k (exec_queue r)) (exec r) (exec_closed r) r Hi) as Hm.
    refine (Hm (λ id, _)). clear Hm. rw_total. pose proof (w_job_nonneg id j). lia.
  - destruct E0 as [E0|E0]; destruct (exec r !! k) as [[j|p j|j|p j st msg|]|] eqn:Ek; simplify_eq/=;
      try (case_match eqn:Ep); simplify_eq/=; (split; [|done]);
      try (by eapply life_wrapper; [done|exact Ek|left]).
    + pose proof (life_status _ _ _ _ _ Hi Ek Ep) as H1.
      match goal with |- context [set_io ?x r] => apply (life_frame (set_wrapper k (ERunning j) (set_io x r))) end;
        try done. by eapply life_wrapper; [done|exact Ek|left].
    + by eapply life_final.
Qed.

(** *** All steps *)

Lemma control_start_store t r :
  store (control_start t r) = store r ∧ calls (control_start t r) = calls r.
Proof.
  destruct t as [| | | | |dn job|dn]; cbn [control_start]; try done.
  - unfold submitJobControl. by repeat case_match.
  - unfold cancelJobControl. repeat case_match; try done. by destruct c.
  - unfold finalizeJobControl. repeat case_match; try done. by destruct c.
  - unfold recoverJobControl. by repeat case_match.
  - unfold cancelAllControl. match goal with |- context [foldr _ ?x ?l] =>
      destruct (cancel_all_same l x) as (_ & _ & _ & _ & _ & E1 & E2 & _) end. by split.
Qed.

Lemma control_store b r r' : control_step b r = Some r' → store r' = store r ∧ calls r' = calls r.
Proof.
  intros E0. unfold control_step in E0.
  destruct (rcur (control r)) as [[t|p t k|p j dn|u ch|id st msg]|].
  - destruct b; simplify_eq. exact (control_start_store t (control_return r)).
  - destruct b; simplify_eq. case_match; [by destruct k|done].
  - destruct b; simplify_eq. case_match eqn:Es; [|done].
    by destruct (schedule_same _ _ _ _ Es) as (_ & _ & _ & _ & ? & ? & _).
  - by destruct b; inv_act E0.
  - by destruct b; simplify_eq.
  - destruct b; [done|]. by destruct (rq (control r)) as [|t q]; simplify_eq.
Qed.

(** A call's post says nothing of statuses, but for a recovery. *)
Lemma life_call_post b c ch r r' :
  life_inv r → call_plain c → recoveries (hist r') = 0%nat → call_post b c ch r = Some r' → life_inv r'.
Proof.
  intros Hi Hc Hrec E0.
  assert (∀ t x, ctl_plain t → (∀ id, w_ctl id t = 0) → PostTask b t (control r) = Some x →
            life_inv (set_control x r)) as Hpost.
  { intros t x Ht Hw E. destruct (life_post_control b t r x Ht Hi E) as (G1 & G2 & G3).
    apply (life_move r); try done; try apply Hi; [simpl; rewrite G2; apply Hi|].
    intros id. specialize (G3 id). rewrite Hw in G3. lia. }
  unfold call_post in E0. unfold call_plain in Hc.
  destruct (call_op c); simpl in E0; (destruct (PostTask b _ _) as [x|] eqn:Ep; [|done]);
    cbn [mbind option_bind] in E0; simplify_eq/=; by eapply Hpost; [| |exact Ep].
Qed.

Lemma life_call b k r r' :
  life_inv r → Forall call_plain (calls r) → recoveries (hist r') = 0%nat →
  call_step b k r = Some r' → life_inv r' ∧ store r' = store r.
Proof.
  intros Hi Hc Hrec E0. unfold call_step in E0. destruct (calls r !! k) as [c|] eqn:Ek; [|done].
  cbn [mbind option_bind] in E0. pose proof (Forall_lookup_1 _ _ _ _ Hc Ek) as Hcall.
  destruct (call_pc c) as [|pu ch|ch| | |n|e]; [..|done].
  - by destruct b; simplify_eq; (split; [apply (life_frame r)|]).
  - destruct b; simplify_eq.
    destruct (call_post pu c ch r) as [r1|] eqn:Ep; [|by split; [apply (life_frame r)|]]. split.
    + apply (life_frame r1); [exact (life_call_post _ _ _ _ r1 Hi Hcall Hrec Ep)|done..].
    + by apply call_post_same in Ep as (? & _).
  - by destruct b; inv_act E0; (split; [first [done|apply (life_frame r)]|]).
  - by destruct b; inv_act E0; (split; [first [done|apply (life_frame r)]|]).
  - by destruct b; simplify_eq; (split; [first [done|apply (life_frame r)]|]).
  - destruct b; [done|]. destruct n as [|[|[|[|n]]]]; simplify_eq; (split; [|done]).
    + apply (life_move r); simpl; try done; apply Hi.
    + apply (life_move r); simpl; try done; try apply Hi. intros id. unfold life, writes. simpl.
      pose proof (life_nonneg r id). lia.
    + apply (life_move r); simpl; try done; apply Hi.
    + apply (life_sub r); simpl; try done; try apply Hi. intros id. simpl.
      rewrite app_nil_r. by apply sublist_inserts_r.
    + apply (life_frame r); done.
Qed.

Lemma life_step l r r' :
  ack_ok (contents:=contents) r → Forall call_plain (calls r) → recoveries (hist r') = 0%nat →
  life_inv r → step l r = Some r' → life_inv r' ∧ kept r r'.
Proof.
  intros Ha Hc Hrec Hi E0. pose proof (pg_rec _ _ (step_progress _ _ _ _ Ha E0)) as Hle.
  assert (recoveries (hist r) = 0%nat) as Hrec0 by lia.
  destruct l as [op n|b k|b|el b|k|k|k|k o|n|p|b|b|b]; cbn [JobManager.step] in E0.
  - split; [|apply kept_same]; simplify_eq; unfold call_entry; (case_match; [|destruct op]);
      try done; by apply (life_frame r).
  - destruct (life_call _ _ _ _ Hi Hc Hrec E0) as [H1 H2]. split; [done|]. by apply kept_same; rewrite H2.
  - split; [by eapply life_control|]. apply kept_same.
    by destruct (control_store _ _ _ E0) as [-> _].
  - by eapply life_io.
  - destruct (life_exec k (HReturn None) r r' Hi ltac:(tauto)) as (H1 & H2 & _).
    split; [done|]. by apply kept_same; rewrite H2.
  - destruct (life_exec k (HReturn None) r r' Hi ltac:(tauto)) as (H1 & H2 & _).
    split; [done|]. by apply kept_same; rewrite H2.
  - destruct (life_exec k (HReturn None) r r' Hi ltac:(tauto)) as (H1 & H2 & _).
    split; [done|]. by apply kept_same; rewrite H2.
  - destruct (life_exec k o r r' Hi ltac:(tauto)) as (H1 & H2 & _).
    split; [done|]. by apply kept_same; rewrite H2.
  - simplify_eq. split; [by apply life_cancel|by apply kept_same].
  - simplify_eq. split; [by apply (life_frame r)|by apply kept_same].
  - simplify_eq. split; [by apply (life_frame r)|by apply kept_same].
  - simplify_eq. split; [by apply (life_frame r)|by apply kept_same].
  - simplify_eq. split; [by apply (life_frame r)|by apply kept_same].
Qed.

(** The calls are a history of what was asked. *)
Lemma io_calls el b r r' : io_step oor true el b r = Some r' → calls r' = calls r.
Proof.
  intros E0. unfold io_step, persist_step, update_step, recovery_step in E0.
  destruct (rcur (io r)) as [pc|] eqn:Ec.
  - destruct pc as [t|u create cfg rt|p u|ctx id st msg f cfg rt|ch ctx [|job l]|ch ctx job l cfg rt
                   |ch ctx [|job l]|p ch ctx job l d|ch ctx l d].
    + simplify_eq. destruct t; cbn [io_start]; [|done|].
      * destruct (ctx_err _ _); [by rewrite (proj2 (abort_store _ _ _))|done].
      * by destruct (store_list _ _) as [? []].
    + destruct rt as [a e|a e|e g]; [inv_retry E0; done..|]. simplify_eq.
      rewrite (proj2 (persist_end_store _ _ _)). by destruct (report_same cfg (ID (sub_entity u)) e g r) as
        (_ & _ & _ & _ & _ & _ & _ & _ & _ & _ & E & _).
    + simplify_eq. by rewrite (proj2 (schedule_step_store _ _ _)).
    + destruct rt as [a e|a e|e g]; [inv_retry E0; done..|].
      destruct (report_same cfg id e g (io_return r)) as (_ & _ & _ & _ & _ & _ & _ & _ & _ & _ & E & _).
      simplify_eq. by destruct f.
    + by destruct (store_recoverable _) as [? []]; simplify_eq.
    + by simplify_eq.
    + destruct rt as [a e|a e|e g]; [inv_retry E0; done..|]. simplify_eq.
      by destruct (report_same cfg (ID job) e g (io_goto (IRecFail ch ctx l) r)) as
        (_ & _ & _ & _ & _ & _ & _ & _ & _ & _ & E & _).
    + by simplify_eq.
    + by simplify_eq.
    + injection E0 as <-. by case_match.
    + by destruct b; inv_act E0.
  - by destruct (rq (io r)) as [|t q]; simplify_eq.
Qed.

Lemma exec_calls k r r' :
  exec_start k r = Some r' ∨ exec_lose k r = Some r' ∨ exec_step k r = Some r' → calls r' = calls r.
Proof.
  unfold exec_start, exec_lose, exec_step. intros [E0|[E0|E0]]; inv_act E0; by try case_match.
Qed.

Lemma calls_plain l r r' : step l r = Some r' → Forall call_plain (calls r') → Forall call_plain (calls r).
Proof.
  intros E0. destruct l as [op n|b k|b|el b|k|k|k|k o|n|p|b|b|b]; cbn [JobManager.step] in E0.
  - simplify_eq. unfold call_entry. case_match; [|destruct op]; simpl; by intros [? _]%Forall_app.
  - unfold call_step in E0. destruct (calls r !! k) as [c|] eqn:Ek; [|done].
    assert (∀ c' l, Forall call_plain (<[k := c']> l) → calls r = l → call_op c' = call_op c →
      Forall call_plain l) as Hset.
    { intros c' l Hl <- Ho. apply Forall_lookup. intros i x Hx. destruct (decide (i = k)) as [->|Hne].
      - simplify_eq. apply (Forall_lookup_1 _ _ k c') in Hl; [by unfold call_plain in *; rewrite <- Ho|].
        by apply list_lookup_insert_eq; eapply lookup_lt_Some.
      - apply (Forall_lookup_1 _ _ i x) in Hl; [done|]. by rewrite list_lookup_insert_ne. }
    cbn [mbind option_bind] in E0. destruct (call_pc c) as [|pu ch|ch| | |n|e]; [..|done].
    + destruct b; simplify_eq/=; intros Hl; by eapply Hset.
    + destruct b; simplify_eq. case_match eqn:Ep; simpl.
      * apply call_post_same in Ep as (_ & _ & _ & -> & _). intros Hl. by eapply Hset.
      * intros Hl. by eapply Hset.
    + destruct b; inv_act E0; intros Hl; by eapply Hset.
    + destruct b; inv_act E0; try done; intros Hl; by eapply Hset.
    + destruct b; simplify_eq/=; intros Hl; by eapply Hset.
    + destruct b; [done|]. destruct n as [|[|[|[|n]]]]; simplify_eq/=; intros Hl; by eapply Hset.
  - by destruct (control_store _ _ _ E0) as [_ ->].
  - by rewrite (io_calls _ _ _ _ E0).
  - by rewrite (exec_calls k r r') by tauto.
  - by rewrite (exec_calls k r r') by tauto.
  - by rewrite (exec_calls k r r') by tauto.
  - unfold exec_end in E0. by inv_act E0.
  - by simplify_eq.
  - by simplify_eq.
  - by simplify_eq.
  - by simplify_eq.
  - by simplify_eq.
Qed.

Lemma life_init s : life_inv (NewJobManager s).
Proof.
  split; try done. intros id. unfold fate, life, writes, settled. simpl.
  destruct (contents s !! id) as [j|]; simpl; [|split; [by vm_compute|apply ordered_nil]].
  destruct (final (Status j)); simpl; split; try lia.
  - by apply (ordered_true []), ordered_nil.
  - apply ordered_nil.
Qed.

(** What is asked of a run: sound retry policies, no recovery, pending
    submissions. *)
Definition plain r : Prop :=
  Forall good_policy (policies (hist r)) ∧ recoveries (hist r) = 0%nat ∧ Forall call_plain (calls r).

Lemma plain_back s l r r' :
  reachable step (NewJobManager s) r → step l r = Some r' → plain r' → plain r.
Proof.
  intros Hr E0 (H1 & H2 & H3). rewrite Forall_forall in H1.
  assert (Forall good_policy (policies (hist r))) as Hp by (apply Forall_forall; eauto using policies_grow).
  split; [done|]. split; [|by eapply calls_plain].
  pose proof (ack_reach (contents:=contents) _ _ _ Hr Hp) as Ha.
  pose proof (pg_rec _ _ (step_progress _ _ _ _ Ha E0)). lia.
Qed.

Lemma life_reach s r : reachable step (NewJobManager s) r → plain r → life_inv r.
Proof.
  intros Hr. induction Hr as [|l r r' Hr IH E0]; intros Hp; [apply life_init|].
  pose proof (plain_back _ _ _ _ Hr E0 Hp) as Hp'. destruct Hp as (_ & H2 & _).
  eapply life_step; [|apply Hp'|exact H2|by apply IH|exact E0].
  eapply ack_reach; [exact Hr|apply Hp'].
Qed.

Lemma kept_run s ls r r' :
  reachable step (NewJobManager s) r → run step ls r = Some r' → plain r' → plain r ∧ kept r r'.
Proof.
  revert r. induction ls as [|l ls IH]; intros r Hr; cbn [run].
  - intros [= <-] Hp. split; [done|]. by apply kept_same.
  - destruct (step l r) as [r1|] eqn:E1; [|done]. cbn [mbind option_bind]. intros E2 Hp.
    destruct (IH r1) as [Hp1 Hk]; [by eapply reach_step|done|done|].
    pose proof (plain_back _ _ _ _ Hr E1 Hp1) as Hp0. split; [done|]. intros id j Hj Hf.
    destruct (life_step l r r1) as [_ Hk1]; [..|exact E1|].
    + eapply ack_reach; [exact Hr|apply Hp0].
    + apply Hp0.
    + apply Hp1.
    + by eapply life_reach.
    + destruct (Hk1 id j Hj Hf) as (j1 & Hj1 & Hs1). destruct (Hk id j1 Hj1) as (j2 & Hj2 & Hs2).
      * by injection Hs1 as -> _.
      * exists j2. by rewrite Hs2.
Qed.
End lifecycle.

(** ** Theorem *)

Section theorem.
Context {S Handler : Type} `{Hops : JobStoreOps S} {contents : S → gmap string JobEntity}.
Context `{!JobStoreLaws S contents} (oor : SpecFloat.spec_float → Z).
Implicit Types r : JobManager S Handler.

(** C12. A final status is never overwritten: as long as no recovery was asked for,
    submissions are pending jobs and every retry policy in force has 0 <= MaxRetries < 2^63-1,
    a job that the durable store holds with a status other than PENDING and RUNNING keeps this
    status and its result, whatever the manager does afterwards: late RUNNING updates, retried
    updates, a second submission of the identifier, cancellations, shutdown. *)
Theorem jm_final_status_stays s r ls r' id j :
  reachable (step oor true) (NewJobManager s) r → run (step oor true) ls r = Some r' →
  Forall good_policy (policies (hist r')) → recoveries (hist r') = 0%nat →
  Forall call_plain (calls r') →
  contents (store r) !! id = Some j →
  Status j ≠ JobStatusPending → Status j ≠ JobStatusRunning →
  ∃ j', contents (store r') !! id = Some j' ∧ status_of j' = status_of j.
Proof.
  intros Hr Hrun H1 H2 H3 Hj Hn1 Hn2. destruct (kept_run oor s ls r r' Hr Hrun) as [_ Hk]; [by split_and!|].
  apply (Hk id j Hj). unfold final. rewrite bool_decide_false; [done|]. by intros [?|?].
Qed.
End theorem.

(** ** A finished job is submitted again *)

Import JobDemo.

Definition resubmit : list (Label nat) :=
  call (OpSubmit (an_email "a") None 0) 2 ++ ctl_ticks 4 ++ io_ticks 4 ++ [ctl_tick; LCallStep false 2].
Definition resubmitted : jm := default completed (run step resubmit completed).

Lemma jm_final_status_stays_witness :
  (∃ j', (store resubmitted).1 !! "a" = Some j' ∧ status_of j' = (JobStatusCompleted, "")) ∧
  call_pc <$> calls resubmitted !! 2 = Some (PcRet (Some (ErrText "job a already exists"))).
Proof.
  split; [|vm_compute; reflexivity].
  apply (jm_final_status_stays (contents:=fst) no_float (∅, 7%Z) completed resubmit resubmitted "a"
    (set_times 5 7 (MkJobEntity "a" "email" [] JobStatusCompleted "" 1 5 0))).
  - apply jm_go_to_reach. vm_compute. reflexivity.
  - vm_compute. reflexivity.
  - apply default_policies. vm_compute. reflexivity.
  - vm_compute. reflexivity.
  - vm_compute. repeat constructor.
  - vm_compute. reflexivity.
  - discriminate.
  - discriminate.
Defined.
