(* ===== verification/JobSqlite.v ===== *)
(** * A JobManager on SQLiteJobStore (job/job_manager.go over
    job/sqlite_job_store.go)

    The laws that SQLiteStore.v proves of the store are those that
    JobDurability.v asks for; what is promised about a store becomes a
    statement about the rows of the table. *)

From S2P Require Import Prelude JobStore Retry SQLiteStore SQLiteMemory JobManager JobDurability.
Import jobdb(Job, MkJob, r_ID, r_Type, r_ArgsData, r_Status, r_Result, r_Priority,
  r_CreatedAt, r_UpdatedAt).

Section sqlite_manager.
Context {D Handler : Type} `{!DBTX D} (jobs : D → list Job) (before : relation Z).
Context `{!SqlLaws D jobs before} (oor : SpecFloat.spec_float → Z).

Lemma stored_row d id j :
  contents jobs d !! id = Some j →
  ∃ row, row ∈ jobs d ∧ r_ID row = id ∧ r_Type row = Type_ j ∧ r_ArgsData row = ArgsData j ∧
         r_Priority row = Priority j ∧ r_Status row = Status j.
Proof.
  unfold contents. rewrite tbl_lookup by apply primary_key.
  intros (row & Hin & Hid & <-). by exists row.
Qed.

(** An acknowledged submission on a store whose contents are a table. *)
Lemma acknowledged_row {S} `{JobStoreOps S} (database : S → D)
    `{!JobStoreLaws S (λ s, contents jobs (database s))} (s0 : S) r c e serialize_err delay :
  reachable (JobManager.step (Handler:=Handler) oor true) (NewJobManager s0) r →
  Forall good_policy (policies (hist r)) →
  c ∈ calls r → call_op c = OpSubmit e serialize_err delay → call_pc c = PcRet None →
  ∃ row, row ∈ jobs (database (store r)) ∧ r_ID row = ID e ∧ r_Type row = Type_ e ∧
         r_ArgsData row = ArgsData e ∧ r_Priority row = Priority e.
Proof.
  intros Hr Hpol Hin Ho Hpc. pose proof (ao_call _ (ack_reach oor _ _ Hr Hpol)) as Hall.
  rewrite Forall_forall in Hall. specialize (Hall _ Hin). unfold call_ok in Hall.
  rewrite Ho, Hpc in Hall. destruct Hall as [(j & Hj & Hp) _].
  destruct (stored_row _ _ _ Hj) as (row & Hrow & Hid & Ht & Ha & Hpr & _).
  injection Hp as _ E2 E3 E4. exists row. split_and!; congruence.
Qed.

(** C23. Durable acknowledgement down to the table: when SubmitJob on a SQLiteJobStore has
    returned nil, whatever the database failed in between and however often the insert was
    retried, and provided that every retry policy in force has 0 <= MaxRetries < 2^63-1, the
    table has a row with the job's identifier, type, arguments and priority. (With a negative
    MaxRetries no insert is made at all.) *)
Theorem jm_sqlite_durable d now r c e serialize_err delay :
  reachable (JobManager.step (Handler:=Handler) oor true)
    (NewJobManager (MkSQLiteJobStore d now)) r →
  Forall good_policy (policies (hist r)) →
  c ∈ calls r → call_op c = OpSubmit e serialize_err delay → call_pc c = PcRet None →
  ∃ row, row ∈ jobs (q (store r)) ∧ r_ID row = ID e ∧ r_Type row = Type_ e ∧
         r_ArgsData row = ArgsData e ∧ r_Priority row = Priority e.
Proof.
  pose proof (sqlite_laws jobs before). by apply (acknowledged_row q).
Qed.
End sqlite_manager.

(** ** A concrete run: the database fails twice before it takes the row *)

Module SqliteManagerDemo.
Definition jm := JobManager (SQLiteJobStore Engine.Engine) nat.
Definition init : jm :=
  NewJobManager (MkSQLiteJobStore (Engine.MkEngine [] [Some 5%Z; Some 5%Z]) 7%Z).
Definition step := JobManager.step (S:=SQLiteJobStore Engine.Engine) (Handler:=nat) JobDemo.no_float true.
Definition go_to (ls : list (Label nat)) : jm := default init (run step ls init).
Definition submit : list (Label nat) :=
  JobDemo.register ++ JobDemo.submit_a ++ [LIo true false; LIo true false; LIo true false; LIo true false] ++ JobDemo.ack_a.
Definition acked : jm := go_to submit.
Lemma acked_reach : reachable step init acked.
Proof. apply (run_reachable step submit). vm_compute. reflexivity. Qed.
End SqliteManagerDemo.
Import SqliteManagerDemo.

Lemma jm_sqlite_durable_witness :
  (∃ row, row ∈ Engine.table (q (store acked)) ∧ r_ID row = "a" ∧ r_Type row = "email" ∧
          r_ArgsData row = [] ∧ r_Priority row = 1%Z) ∧
  length (Engine.rows (q (store acked))) = 1.
Proof.
  split; [|vm_compute; reflexivity].
  apply (jm_sqlite_durable Engine.table Z.le JobDemo.no_float
    (Engine.MkEngine [] [Some 5%Z; Some 5%Z]) 7 acked
    (MkCall (OpSubmit (JobDemo.an_email "a") None 0) [CallerCtx 1] (PcRet None))
    (JobDemo.an_email "a") None 0).
  - exact acked_reach.
  - apply default_policies. vm_compute. reflexivity.
  - apply (list_elem_of_lookup_2 _ 1). vm_compute. reflexivity.
  - reflexivity.
  - reflexivity.
Defined.
