(* ===== verification/JobRunners.v ===== *)
(** * The JobManager on its runners (job/job_manager.go over
    core/sequenced_task_runner.go and core/parallel_task_runner.go)

    JobManager.v has queues of its own for its three runners, and takes for
    granted how they serve them.  Here the manager is a client of three
    machines: the control and I/O runners are [StrictRunner]s of RunnerSpec.v,
    the execution runner a [ConcurrentRunner] of ParallelSpec.v, all of them
    possibly shared with other clients.  A post of the manager is a goroutine
    of a machine inside [PostTask]; a closure runs from the moment the machine
    starts it until the manager's code has returned from it; a delayed job is
    with the pool until its timer posts it.  The manager's own accesses are
    those of JobManager.v, on queues that are the machines'.  The system
    refines JobManager.v, so its theorems hold of it. *)

From S2P Require Import Prelude GoSlice Task TaskQueue JobStore Retry JobManager JobPosts JobDurability.
From S2P Require Import RunnerSpec ParallelSpec.
From S2P Require Sequenced Parallel FIFOQueue.

Definition post_map {A B} (f : A → B) (p : Post A) : Post B :=
  match p with Testing x => Testing (f x) | Pushing x => Pushing (f x) | Away => Away end.

Section composition.
Context {S Handler : Type} `{JobStoreOps S}.
Context (oor : SpecFloat.spec_float → Z) (durable : bool).
Context {R1 L1 A1 R2 L2 A2 R3 L3 A3 : Type}.
Context `{SequentialRunnerOps R1 L1 A1, SequentialRunnerOps R2 L2 A2, ConcurrentRunnerOps R3 L3 A3}.
Notation JM := (JobManager S Handler).
Notation step := (JobManager.step (S:=S) (Handler:=Handler) oor durable).

(** The tasks of the manager among those of each runner. *)
Context (control_task : nat → ControlTask Handler → A1) (control_of : A1 → option (ControlTask Handler)).
Context (io_task : nat → IoTask Handler → A2) (io_of : A2 → option (IoTask Handler)).
Context (job_task : nat → Job Handler → A3) (job_of : A3 → option (Job Handler)).

(** Of [mgr] everything but the queues is used; [inside]: who is inside
    [PostTask], of which runner and as which of its goroutines; [delayed]: jobs
    handed to the pool's timers; [timers]: the goroutines that post them;
    [works]: the worker of each wrapper. *)
Record System := MkSystem {
  mgr : JM; rc : R1; ri : R2; re : R3;
  inside : gmap Poster (Which * nat);
  delayed : list (Job Handler);
  timers : list (nat * Job Handler);
  works : list nat;
}.
Definition NewSystem (s : S) : System :=
  MkSystem (NewJobManager s) sr_init sr_init cr_init ∅ [] [] [].
Definition set_mgr m y := MkSystem m (rc y) (ri y) (re y) (inside y) (delayed y) (timers y) (works y).
Definition set_rc r y := MkSystem (mgr y) r (ri y) (re y) (inside y) (delayed y) (timers y) (works y).
Definition set_ri r y := MkSystem (mgr y) (rc y) r (re y) (inside y) (delayed y) (timers y) (works y).
Definition set_re r y := MkSystem (mgr y) (rc y) (ri y) r (inside y) (delayed y) (timers y) (works y).
Definition set_inside i y := MkSystem (mgr y) (rc y) (ri y) (re y) i (delayed y) (timers y) (works y).
Definition set_delays d t y := MkSystem (mgr y) (rc y) (ri y) (re y) (inside y) d t (works y).
Definition set_works w y := MkSystem (mgr y) (rc y) (ri y) (re y) (inside y) (delayed y) (timers y) w.

Definition control_view y : AbstractRunner (ControlTask Handler) :=
  own control_of (sr_view (L:=L1) (rc y)).
Definition io_view y : AbstractRunner (IoTask Handler) := own io_of (sr_view (L:=L2) (ri y)).
Definition exec_view y : AbstractBag (Job Handler) := own_bag job_of (cr_view (L:=L3) (re y)).

(** The queues of the manager *)
Definition jobs_waiting y : list (Job Handler) :=
  b_queue (exec_view y) ++ delayed y ++ (timers y).*2.
Definition sys_queues y : Queues (Handler:=Handler) :=
  MkQueues (s_queue (control_view y)) (s_closed (control_view y))
    (s_queue (io_view y)) (s_closed (io_view y)) (jobs_waiting y) (b_closed (exec_view y)).
Definition abs y : JM := with_queues (sys_queues y) (mgr y).

(** An access of the manager *)
Definition manage (l : JobManager.Label Handler) y : option System :=
  m ← step l (abs y); Some (set_mgr m y).

Definition may_move (p : option Poster) y : bool :=
  match p with Some p => bool_decide (inside y !! p = None) | None => true end.
Definition own_step (l : JobManager.Label Handler) y : option System :=
  if plain l (mgr y) && may_move (actor l) y then manage l y else None.

(** [scheduleExecution] with a delay: [PostDelayedTaskWithTraits]. *)
Definition delay_of (p : Poster) (m : JM) : Z :=
  match p, rcur (io m) with PIo, Some (ISchedule _ u) => sub_delay u | _, _ => 0%Z end.

(** A goroutine of the manager calls [PostTask], and is back. *)
Definition enter (p : Poster) (n : nat) y : option System :=
  match wants p (mgr y), inside y !! p with
  | Some (false, w), None =>
      let into i := set_inside (<[p := (which w, i)]> (inside y)) y in
      match w with
      | WControl t =>
          r ← sr_step (sr_post (control_task n t)) (rc y);
          Some (set_rc r (into (length (s_posts (control_view y)))))
      | WIo t =>
          r ← sr_step (sr_post (io_task n t)) (ri y);
          Some (set_ri r (into (length (s_posts (io_view y)))))
      | WExec j =>
          if (0 <? delay_of p (mgr y))%Z then None else
          r ← cr_step (cr_post (job_task n j)) (re y);
          Some (set_re r (into (length (b_posts (exec_view y)))))
      end
  | _, _ => None
  end.
Definition leave (p : Poster) y : option System :=
  '(w, i) ← inside y !! p;
  if match w with
     | ToControl => sr_returned (L:=L1) (A:=A1) i (rc y)
     | ToIo => sr_returned (L:=L2) (A:=A2) i (ri y)
     | ToExec => cr_returned (L:=L3) (A:=A3) i (re y)
     end
  then Some (set_inside (delete p (inside y)) y) else None.

(** A closure of the manager is running on the runner. *)
Definition idle_control y : bool :=
  match rcur (control (mgr y)) with None => may_move (Some PControl) y | _ => false end.
Definition idle_io y : bool :=
  match rcur (io (mgr y)) with None => may_move (Some PIo) y | _ => false end.

(** How the machines are put together; no line of the program says this: what
    a move of a sequential runner is to the manager, with [who] the goroutine
    of the manager that makes it.  The runner's flag and its clearing are left
    to the manager's [Shutdown]. *)
Definition react {C} (w : Which) (take : JobManager.Label Handler) (idle : bool)
    (a : option (Action C)) (who : option Poster) y : option System :=
  match a, who with
  | None, None | Some (ACall Away), None => Some y
  | Some (ATest i), Some p | Some (APush i), Some p =>
      if bool_decide (inside y !! p = Some (w, i)) then manage (label_of p) y else None
  | Some AStart, None => manage take y
  | Some AEnd, None => if idle then Some y else None
  | _, _ => None
  end.
Definition control_move (l : L1) (who : option Poster) y : option System :=
  r ← sr_step l (rc y);
  y ← react ToControl (LControl false) (idle_control y)
        (sr_action l (rc y) ≫= λ a, own_action control_of a (sr_view (L:=L1) (rc y))) who y;
  Some (set_rc r y).
Definition io_move (l : L2) (who : option Poster) y : option System :=
  r ← sr_step l (ri y);
  y ← react ToIo (LIo false false) (idle_io y)
        (sr_action l (ri y) ≫= λ a, own_action io_of a (sr_view (L:=L2) (ri y))) who y;
  Some (set_ri r y).

(** ... of the execution runner: [inl]: a goroutine of the manager, [inr]: that
    of a timer.  A worker ends when the wrapper it runs has returned. *)
Definition worker_done (w : nat) y : bool :=
  match list_find (λ v, v = w) (works y) with
  | Some (i, _) =>
      match exec (mgr y) !! i with Some EDone => may_move (Some (PExec i)) y | _ => false end
  | None => false
  end.
Definition react_exec (a : option (BagAction (Job Handler))) (who : option (Poster + nat)) y
  : option System :=
  match a, who with
  | None, None | Some (BCall Away), None | Some BStartOther, None => Some y
  | Some (BTest i), Some (inl p) | Some (BPush i), Some (inl p) =>
      if bool_decide (inside y !! p = Some (ToExec, i)) then manage (label_of p) y else None
  | Some (BTest i), Some (inr t) =>
      '(i', j) ← timers y !! t;
      if negb (i' =? i) then None else
      Some (if b_closed (exec_view y) then set_delays (delayed y) (delete t (timers y)) y else y)
  | Some (BPush i), Some (inr t) =>
      '(i', j) ← timers y !! t;
      if negb (i' =? i) then None else Some (set_delays (delayed y) (delete t (timers y)) y)
  | Some (BStart k), None =>
      y' ← manage (LExecStart k) y;
      Some (set_works (works y ++ [length (b_running (exec_view y))]) y')
  | Some (BEnd w), None => if worker_done w y then Some y else None
  | _, _ => None
  end.
Definition exec_move (l : L3) (who : option (Poster + nat)) y : option System :=
  r ← cr_step l (re y);
  y ← react_exec
        (cr_action l (re y) ≫= λ a, own_bag_action job_of a (cr_view (L:=L3) (re y))) who y;
  Some (set_re r y).

(** An access of [Shutdown] of a runner, made for call [k] of the manager. *)
Inductive AnyLabel := OnControl (l : L1) | OnIo (l : L2) | OnExec (l : L3).
Definition shut (k : nat) (l : AnyLabel) y : option System :=
  c ← calls (mgr y) !! k;
  if negb (may_move (Some (PCall k)) y) then None else
  match call_pc c, l with
  | PcRunners 0, OnControl l =>
      match sr_action l (rc y) with
      | Some AClose => r ← sr_step l (rc y); y ← manage (LCallStep false k) y; Some (set_rc r y)
      | _ => None
      end
  | PcRunners 1, OnControl l =>
      match sr_action l (rc y) with
      | Some AClear => r ← sr_step l (rc y); y ← manage (LCallStep false k) y; Some (set_rc r y)
      | _ => None
      end
  | PcRunners 2, OnIo l =>
      match sr_action l (ri y) with
      | Some AClose => r ← sr_step l (ri y); y ← manage (LCallStep false k) y; Some (set_ri r y)
      | _ => None
      end
  | PcRunners 3, OnIo l =>
      match sr_action l (ri y) with
      | Some AClear => r ← sr_step l (ri y); y ← manage (LCallStep false k) y; Some (set_ri r y)
      | _ => None
      end
  | PcRunners 4, OnExec l =>
      match cr_action l (re y) with
      | Some BClose => r ← cr_step l (re y); y ← manage (LCallStep false k) y; Some (set_re r y)
      | _ => None
      end
  | _, _ => None
  end.

(** A job with a delay: the runner may ignore it, also before the flag that
    its posts test is set; otherwise the pool keeps it, until it gives it up or
    a timer posts it. *)
Definition post_delayed (p : Poster) (accept : bool) y : option System :=
  match wants p (mgr y), inside y !! p with
  | Some (pushing, WExec j), None =>
      if negb (0 <? delay_of p (mgr y))%Z then None else
      if pushing then
        y ← manage (label_of p) y; Some (set_delays (delayed y ++ [j]) (timers y) y)
      else if accept then
        if b_closed (exec_view y) then None else manage (label_of p) y
      else if b_closed (exec_view y) then manage (label_of p) y
      else
        m ← step (label_of p) (abs y); m ← step (label_of p) m; Some (set_mgr m y)
  | _, _ => None
  end.
Definition timer_lost (k : nat) y : option System :=
  _ ← delayed y !! k; Some (set_delays (delete k (delayed y)) (timers y) y).
Definition timer_posts (k n : nat) y : option System :=
  j ← delayed y !! k;
  r ← cr_step (cr_post (job_task n j)) (re y);
  Some (set_re r (set_delays (delete k (delayed y))
                    (timers y ++ [(length (b_posts (exec_view y)), j)]) y)).

Inductive SysLabel :=
| LOwn (l : JobManager.Label Handler)
| LEnter (p : Poster) (n : nat)
| LLeave (p : Poster)
| LControlRunner (l : L1) (who : option Poster)
| LIoRunner (l : L2) (who : option Poster)
| LExecRunner (l : L3) (who : option (Poster + nat))
| LShut (k : nat) (l : AnyLabel)
| LDelayed (p : Poster) (accept : bool)
| LTimerLost (k : nat)
| LTimer (k n : nat).

Definition sys_step (l : SysLabel) y : option System :=
  match l with
  | LOwn l => own_step l y
  | LEnter p n => enter p n y
  | LLeave p => leave p y
  | LControlRunner l who => control_move l who y
  | LIoRunner l who => io_move l who y
  | LExecRunner l who => exec_move l who y
  | LShut k l => shut k l y
  | LDelayed p accept => post_delayed p accept y
  | LTimerLost k => timer_lost k y
  | LTimer k n => timer_posts k n y
  end.
End composition.

(** ** Who is inside which runner *)

Section posts_ok.
Context {Handler : Type}.
Notation Want := (Want (Handler:=Handler)).
Notation Job := (Job Handler).
Implicit Types (posts : Which → list (Post Want)) (ins : gmap Poster (Which * nat))
  (tm : list (nat * Job)) (wt : Poster → option (bool * Want)).

(** [posts]: the goroutines of each runner, [wt]: what the manager posts. A
    goroutine that is there for the manager belongs to one of its posters or
    to a timer, and posts what that one wants posted. *)
Definition fits (q : Post Want) (w : Which) (x : option (bool * Want)) : Prop :=
  match q with
  | Testing v => x = Some (false, v) ∧ which v = w
  | Pushing v => x = Some (true, v) ∧ which v = w
  | Away => True
  end.
Definition busy (q : Post Want) (v : Want) : Prop := q = Testing v ∨ q = Pushing v.

Record posts_ok posts ins tm wt : Prop := {
  pk_poster p w i : ins !! p = Some (w, i) → ∃ q, posts w !! i = Some q ∧ fits q w (wt p);
  pk_inj p p' a : ins !! p = Some a → ins !! p' = Some a → p = p';
  pk_timer i j : (i, j) ∈ tm →
    (∃ q, posts ToExec !! i = Some q ∧ busy q (WExec j)) ∧ ∀ p, ins !! p ≠ Some (ToExec, i);
  pk_timers : NoDup tm.*1;
  pk_owned w i q v : posts w !! i = Some q → busy q v →
    (∃ p, ins !! p = Some (w, i)) ∨ (w = ToExec ∧ i ∈ tm.*1);
}.

(** One runner's goroutines change. *)
Definition on (w : Which) (f : list (Post Want) → list (Post Want)) posts posts' : Prop :=
  ∀ w', posts' w' = if decide (w' = w) then f (posts w') else posts w'.

Lemma posts_ok_wants posts posts' ins tm wt wt' :
  posts_ok posts ins tm wt → (∀ w, posts' w = posts w) →
  (∀ p a x, ins !! p = Some a → wt p = Some x → wt' p = Some x) → posts_ok posts' ins tm wt'.
Proof.
  intros [H1 H2 H3 H4 H5] Hp Hw. split; try done.
  - intros p w i Hi. destruct (H1 p w i Hi) as (q & Hq & Hf). exists q. rewrite Hp. split; [done|].
    destruct q as [v|v|]; simpl in *; [..|done]; destruct Hf as [Hf Hwh]; eauto.
  - intros i j. rewrite Hp. apply H3.
  - intros w i q v. rewrite Hp. apply H5.
Qed.

(** A goroutine of somebody else arrives, or one of the manager's, or a timer's. *)
Lemma posts_ok_foreign posts posts' ins tm wt w :
  posts_ok posts ins tm wt → on w (λ l, l ++ [Away]) posts posts' → posts_ok posts' ins tm wt.
Proof.
  intros [H1 H2 H3 H4 H5] Ho.
  assert (∀ w' i q, posts w' !! i = Some q → posts' w' !! i = Some q) as Hup.
  { intros w' i q Hq. rewrite Ho. case_decide; [|done]. by apply lookup_app_l_Some. }
  split; try done.
  - intros p w' i Hi. destruct (H1 p w' i Hi) as (q & Hq & Hf). eauto.
  - intros i j Hj. destruct (H3 i j Hj) as [(q & Hq & Hb) Hn]. eauto.
  - intros w' i q v Hq Hb. rewrite Ho in Hq. case_decide; [|by eapply H5].
    apply lookup_app_Some in Hq as [Hq|[_ Hq]]; [by eapply H5|].
    apply list_lookup_singleton_Some in Hq as [_ <-]. by destruct Hb.
Qed.

Lemma posts_ok_fresh posts ins tm wt w p :
  posts_ok posts ins tm wt → ins !! p ≠ Some (w, length (posts w)).
Proof.
  intros Hk Hi. destruct (pk_poster _ _ _ _ Hk p _ _ Hi) as (q & Hq & _).
  apply lookup_lt_Some in Hq. lia.
Qed.

Lemma posts_ok_enter posts posts' ins tm wt p v :
  posts_ok posts ins tm wt → on (which v) (λ l, l ++ [Testing v]) posts posts' →
  wt p = Some (false, v) → ins !! p = None →
  posts_ok posts' (<[p := (which v, length (posts (which v)))]> ins) tm wt.
Proof.
  intros Hk Ho Hw Hn. pose proof Hk as [H1 H2 H3 H4 H5].
  assert (∀ w' i q, posts w' !! i = Some q → posts' w' !! i = Some q) as Hup.
  { intros w' i q Hq. rewrite Ho. case_decide; [|done]. by apply lookup_app_l_Some. }
  assert (posts' (which v) !! length (posts (which v)) = Some (Testing v)) as Hnew.
  { rewrite Ho, decide_True by done. apply lookup_snoc_length. }
  split; try done.
  - intros p' w i Hi. apply lookup_insert_Some in Hi as [[<- [= <- <-]]|[_ Hi]].
    + exists (Testing v). simpl. auto.
    + destruct (H1 p' w i Hi) as (q & Hq & Hf). eauto.
  - intros p1 p2 a Ha1 Ha2.
    apply lookup_insert_Some in Ha1 as [[<- <-]|[_ Ha1]];
      apply lookup_insert_Some in Ha2 as [[<- Ea]|[_ Ha2]]; try done.
    + by destruct (posts_ok_fresh _ _ _ _ _ _ Hk Ha2).
    + subst a. by destruct (posts_ok_fresh _ _ _ _ _ _ Hk Ha1).
    + by eapply H2.
  - intros i j Hj. destruct (H3 i j Hj) as [(q & Hq & Hb) Hne]. split; [eauto|].
    intros p' Hi. apply lookup_insert_Some in Hi as [[<- [= Ew <-]]|[_ Hi]]; [|by destruct (Hne p')].
    rewrite <- Ew in Hq. apply lookup_lt_Some in Hq. lia.
  - intros w i q v' Hq Hb. rewrite Ho in Hq. case_decide as Ew.
    + apply lookup_app_Some in Hq as [Hq|[Hlt Hq]].
      * destruct (H5 w i q v' Hq Hb) as [[p' Hp']|?]; [|by right].
        left. exists p'. rewrite lookup_insert_ne; [done|]. congruence.
      * subst w. apply list_lookup_singleton_Some in Hq as [Hi _]. left. exists p.
        rewrite lookup_insert_eq. repeat f_equal. lia.
    + destruct (H5 w i q v' Hq Hb) as [[p' Hp']|?]; [|by right].
      left. exists p'. rewrite lookup_insert_ne; [done|]. congruence.
Qed.

Lemma posts_ok_timer posts posts' ins tm wt j :
  posts_ok posts ins tm wt → on ToExec (λ l, l ++ [Testing (WExec j)]) posts posts' →
  posts_ok posts' ins (tm ++ [(length (posts ToExec), j)]) wt.
Proof.
  intros Hk Ho. pose proof Hk as [H1 H2 H3 H4 H5].
  assert (∀ w' i q, posts w' !! i = Some q → posts' w' !! i = Some q) as Hup.
  { intros w' i q Hq. rewrite Ho. case_decide; [|done]. by apply lookup_app_l_Some. }
  split; try done.
  - intros p w i Hi. destruct (H1 p w i Hi) as (q & Hq & Hf). eauto.
  - intros i j' [Hj|[= -> ->]%list_elem_of_singleton]%elem_of_app.
    + destruct (H3 i j' Hj) as [(q & Hq & Hb) Hne]. eauto.
    + split; [|intros p; by apply (posts_ok_fresh _ _ _ _ _ _ Hk)].
      exists (Testing (WExec j)). split; [|by left]. rewrite Ho, decide_True by done. apply lookup_snoc_length.
  - rewrite fmap_app. simpl. apply NoDup_app. split; [done|]. split; [|apply NoDup_singleton].
    intros i Hi Hi'. apply list_elem_of_singleton in Hi'. apply list_elem_of_fmap in Hi as ([i' j'] & E & Hj).
    simpl in *. destruct (H3 _ _ Hj) as [(q & Hq & _) _]. apply lookup_lt_Some in Hq. lia.
  - intros w i q v Hq Hb. rewrite fmap_app. rewrite Ho in Hq. case_decide as Ew.
    + subst w. apply lookup_app_Some in Hq as [Hq|[Hlt Hq]].
      * destruct (H5 _ i q v Hq Hb) as [?|[_ ?]]; [by left|]. right. set_solver.
      * right. apply list_lookup_singleton_Some in Hq as [Hi _]. split; [done|]. simpl.
        assert (i = length (posts ToExec)) as -> by lia. set_solver.
    + destruct (H5 w i q v Hq Hb) as [?|[? ?]]; [by left|done].
Qed.

(** One of the manager's goroutines, one of a timer's, or one of somebody else
    goes on. *)
Lemma posts_ok_move posts posts' ins tm wt wt' p w i q :
  posts_ok posts ins tm wt → ins !! p = Some (w, i) → on w (λ l, <[i := q]> l) posts posts' →
  (∀ p' x, p' ≠ p → wt p' = Some x → wt' p' = Some x) → fits q w (wt' p) →
  posts_ok posts' ins tm wt'.
Proof.
  intros [H1 H2 H3 H4 H5] Hp Ho Hw Hq. destruct (H1 p w i Hp) as (q0 & Hq0 & _).
  assert (∀ w' i' q', (w', i') ≠ (w, i) → posts w' !! i' = Some q' → posts' w' !! i' = Some q') as Hother.
  { intros w' i' q' Hne Hl. rewrite Ho. case_decide; [|done]. subst w'.
    rewrite list_lookup_insert_ne; [done|]. congruence. }
  split; try done.
  - intros p' w' i' Hi. destruct (decide (p' = p)) as [->|Hne].
    + rewrite Hp in Hi. simplify_eq. exists q. rewrite Ho, decide_True by done.
      split; [|done]. apply list_lookup_insert_eq. by eapply lookup_lt_Some.
    + destruct (H1 p' w' i' Hi) as (q' & Hq' & Hf). exists q'. split.
      * apply Hother; [|done]. intros [= -> ->]. by destruct (Hne (H2 _ _ _ Hi Hp)).
      * destruct q'; simpl in *; [..|done]; destruct Hf; eauto.
  - intros i' j Hj. destruct (H3 i' j Hj) as [(q' & Hq' & Hb) Hne]. split; [|done].
    exists q'. split; [|done]. apply Hother; [|done]. intros [= <- ->]. by destruct (Hne p).
  - intros w' i' q' v Hl Hb. destruct (decide ((w', i') = (w, i))) as [[= -> ->]|Hne].
    + left. by exists p.
    + rewrite Ho in Hl. case_decide as Ew; [|by eapply H5]. subst w'.
      rewrite list_lookup_insert_ne in Hl by congruence. by eapply H5.
Qed.

Lemma delete_key tm t i j :
  NoDup tm.*1 → tm !! t = Some (i, j) →
  NoDup (delete t tm).*1 ∧ (∀ x, x ∈ tm ↔ x = (i, j) ∨ x ∈ delete t tm) ∧ i ∉ (delete t tm).*1.
Proof.
  intros Hn Ht. pose proof (list_delete_perm _ _ _ Ht) as Hp.
  rewrite Hp in Hn. simpl in Hn. apply NoDup_cons in Hn as [Hi Hn]. split_and!; [done| |done].
  intros x. by rewrite Hp at 1; rewrite elem_of_cons.
Qed.

Lemma posts_ok_timer_move posts posts' ins tm tm' wt t i j q :
  posts_ok posts ins tm wt → tm !! t = Some (i, j) → on ToExec (λ l, <[i := q]> l) posts posts' →
  (q = Pushing (WExec j) ∧ tm' = tm ∨ q = Away ∧ tm' = delete t tm) →
  posts_ok posts' ins tm' wt.
Proof.
  intros [H1 H2 H3 H4 H5] Ht Ho Hq.
  pose proof (list_elem_of_lookup_2 _ _ _ Ht) as Hin. destruct (H3 i j Hin) as [(q0 & Hq0 & _) Hno].
  assert (∀ w' i' q', (w', i') ≠ (ToExec, i) → posts w' !! i' = Some q' → posts' w' !! i' = Some q') as Hother.
  { intros w' i' q' Hne Hl. rewrite Ho. case_decide; [|done]. subst w'.
    rewrite list_lookup_insert_ne; [done|]. congruence. }
  assert (posts' ToExec !! i = Some q) as Hnew.
  { rewrite Ho, decide_True by done. apply list_lookup_insert_eq. by eapply lookup_lt_Some. }
  destruct (delete_key _ _ _ _ H4 Ht) as (Hd1 & Hd2 & Hd3).
  assert (∀ k l, (k, l) ∈ delete t tm → k ≠ i) as Hgone.
  { intros k l Hkl ->. apply Hd3. by apply (list_elem_of_fmap_2 fst) in Hkl. }
  assert (∀ x, x ∈ tm' → x ∈ tm) as Hsub.
  { intros x Hx. apply Hd2. destruct Hq as [[_ ->]|[_ ->]]; [by apply Hd2|by right]. }
  split; try done.
  - intros p w' i' Hi. destruct (H1 p w' i' Hi) as (q' & Hq' & Hf). exists q'. split; [|done].
    apply Hother; [|done]. intros [= -> ->]. by destruct (Hno p).
  - intros k l Hkl. split; [|by apply (H3 k l), Hsub]. destruct (decide (k = i)) as [->|Hne].
    + destruct Hq as [[-> ->]|[_ ->]]; [|by destruct (Hgone _ _ Hkl)].
      apply Hd2 in Hkl as [[= ->]|Hkl]; [|by destruct (Hgone _ _ Hkl)].
      exists (Pushing (WExec j)). split; [done|by right].
    + destruct (H3 k l (Hsub _ Hkl)) as [(q' & Hq' & Hb) _]. exists q'. split; [|done].
      apply Hother; [congruence|done].
  - by destruct Hq as [[_ ->]|[_ ->]].
  - intros w' i' q' v Hl Hb. destruct (decide ((w', i') = (ToExec, i))) as [[= -> ->]|Hne].
    + rewrite Hnew in Hl. simplify_eq. destruct Hq as [[_ ->]|[-> ->]]; [|by destruct Hb].
      right. split; [done|]. by apply (list_elem_of_fmap_2 fst) in Hin.
    + rewrite Ho in Hl. case_decide as Ew; [subst w'; rewrite list_lookup_insert_ne in Hl by congruence|];
        (destruct (H5 _ i' q' v Hl Hb) as [?|[? Hi']]; [by left|]); [|done].
      right. split; [done|]. destruct Hq as [[_ ->]|[_ ->]]; [done|].
      apply list_elem_of_fmap in Hi' as ([k l] & -> & [[= -> ->]|Hkl]%Hd2); [done|].
      by apply (list_elem_of_fmap_2 fst) in Hkl.
Qed.

Lemma posts_ok_leave posts ins tm wt p w i :
  posts_ok posts ins tm wt → ins !! p = Some (w, i) → posts w !! i = Some Away →
  posts_ok posts (delete p ins) tm wt.
Proof.
  intros [H1 H2 H3 H4 H5] Hp Hq. split; try done.
  - intros p' w' i' [_ Hi]%lookup_delete_Some. by apply H1.
  - intros p1 p2 a [_ Ha1]%lookup_delete_Some [_ Ha2]%lookup_delete_Some. by eapply H2.
  - intros i' j Hj. destruct (H3 i' j Hj) as [Hb Hne]. split; [done|].
    intros p' [_ Hi]%lookup_delete_Some. by destruct (Hne p').
  - intros w' i' q v Hl Hb. destruct (H5 w' i' q v Hl Hb) as [[p' Hp']|?]; [|by right].
    left. exists p'. rewrite lookup_delete_ne; [done|]. intros <-. simplify_eq. by destruct Hb.
Qed.
End posts_ok.

(** ** The simulation *)

Section refinement.
Context {S Handler : Type} `{JobStoreOps S}.
Context (oor : SpecFloat.spec_float → Z) (durable : bool).
Context {R1 L1 A1 R2 L2 A2 R3 L3 A3 : Type}.
Context `{StrictRunner R1 L1 A1, StrictRunner R2 L2 A2, ConcurrentRunner R3 L3 A3}.
Context (control_task : nat → ControlTask Handler → A1) (control_of : A1 → option (ControlTask Handler)).
Context (io_task : nat → IoTask Handler → A2) (io_of : A2 → option (IoTask Handler)).
Context (job_task : nat → Job Handler → A3) (job_of : A3 → option (Job Handler)).
Context (control_own : ∀ n t, control_of (control_task n t) = Some t)
  (io_own : ∀ n t, io_of (io_task n t) = Some t) (job_own : ∀ n j, job_of (job_task n j) = Some j).
Notation JM := (JobManager S Handler).
Notation step := (JobManager.step (S:=S) (Handler:=Handler) oor durable).
Notation System := (System (S:=S) (Handler:=Handler) (R1:=R1) (R2:=R2) (R3:=R3)).
Notation cview := (control_view (L1:=L1) control_of).
Notation iview := (io_view (L2:=L2) io_of).
Notation eview := (exec_view (L3:=L3) job_of).
Notation sys_queues := (sys_queues (L1:=L1) (L2:=L2) (L3:=L3) control_of io_of job_of).
Notation jobs_waiting := (jobs_waiting (L3:=L3) job_of).
Notation sys_step := (sys_step (L1:=L1) (L2:=L2) (L3:=L3) oor durable control_task control_of
  io_task io_of job_task job_of).
Notation manage := (manage (L1:=L1) (L2:=L2) (L3:=L3) oor durable control_of io_of job_of).
Implicit Types (y : System) (m : JM).

Definition posts_at (y : System) (w : Which) : list (Post (Want (Handler:=Handler))) :=
  match w with
  | ToControl => post_map WControl <$> s_posts (cview y)
  | ToIo => post_map WIo <$> s_posts (iview y)
  | ToExec => post_map WExec <$> b_posts (eview y)
  end.

Record implements y m : Prop := {
  im_rc : reachable sr_step sr_init (rc y);
  im_ri : reachable sr_step sr_init (ri y);
  im_re : reachable cr_step cr_init (re y);
  im_posts : posts_ok (posts_at y) (inside y) (timers y) (λ p, wants p (mgr y));
  im_control : s_running (cview y) = None → idle_control y = true;
  im_io : s_running (iview y) = None → idle_io y = true;
  im_like : like (sys_queues y) (mgr y) m;
}.

(** A move of a machine, seen by the manager *)
Lemma control_follows l r y :
  reachable sr_step sr_init (rc y) → sr_step l (rc y) = Some r →
  follows false (sr_action l (rc y) ≫= λ a, own_action control_of a (sr_view (L:=L1) (rc y)))
    (cview y) (own control_of (sr_view (L:=L1) r)).
Proof.
  intros Hr E. apply own_follows. rewrite <- (strict_lossless (R:=R1) (L:=L1) (A:=A1)). by apply sr_refines.
Qed.
Lemma io_follows l r y :
  reachable sr_step sr_init (ri y) → sr_step l (ri y) = Some r →
  follows false (sr_action l (ri y) ≫= λ a, own_action io_of a (sr_view (L:=L2) (ri y)))
    (iview y) (own io_of (sr_view (L:=L2) r)).
Proof.
  intros Hr E. apply own_follows. rewrite <- (strict_lossless (R:=R2) (L:=L2) (A:=A2)). by apply sr_refines.
Qed.
Lemma exec_follows l r y :
  reachable cr_step cr_init (re y) → cr_step l (re y) = Some r →
  bag_follows (cr_action l (re y) ≫= λ a, own_bag_action job_of a (cr_view (L:=L3) (re y)))
    (eview y) (own_bag job_of (cr_view (L:=L3) r)).
Proof. intros Hr E. apply own_bag_follows. by apply cr_refines. Qed.

(** The manager's own accesses *)
Lemma idle_keeps l y m' :
  plain l (mgr y) = true → may_move (actor l) y = true → keeps (actor l) (mgr y) m' →
  (idle_control y = true → idle_control (set_mgr m' y) = true) ∧
  (idle_io y = true → idle_io (set_mgr m' y) = true).
Proof.
  intros Hp Hm (Hc & Hi & _). unfold idle_control, idle_io. simpl. split.
  - destruct (decide (actor l = Some PControl)) as [Ha|Hne]; [|by rewrite (Hc Hne)].
    destruct l; try done. unfold plain in Hp. simpl in Hp.
    destruct (rcur (control (mgr y))); [done|by rewrite andb_false_r in Hp].
  - destruct (decide (actor l = Some PIo)) as [Ha|Hne]; [|by rewrite (Hi Hne)].
    destruct l; try done. unfold plain in Hp. simpl in Hp.
    destruct (rcur (io (mgr y))); [done|by rewrite andb_false_r in Hp].
Qed.

Lemma own_sim l y y' m :
  implements y m → own_step (L1:=L1) (L2:=L2) (L3:=L3) oor durable control_of io_of job_of l y = Some y' →
  ∃ ls m', run step ls m = Some m' ∧ implements y' m'.
Proof.
  intros [H1' H2' H3' Hp Hc Hi Hl] E. unfold own_step in E.
  destruct (plain l (mgr y)) eqn:Hpl; [|done]. destruct (may_move (actor l) y) eqn:Hm; [|done].
  simpl in E. unfold manage, abs in E. destruct (step l _) as [m1|] eqn:E1; simplify_eq/=.
  destruct (like_plain _ _ _ _ _ _ _ Hl Hpl E1) as (m' & E' & Hl').
  assert (keeps (actor l) (mgr y) m1) as Hk.
  { eapply keeps_trans; [apply keeps_with, keeps_refl|]. eapply plain_keeps; [|exact E1].
    rewrite <- Hpl. by destruct l. }
  destruct (idle_keeps _ _ _ Hpl Hm Hk) as [Hk1 Hk2].
  exists [l], m'. cbn [run]. rewrite E'. split; [done|]. split; try done; simpl; eauto.
  apply (posts_ok_wants (posts_at y) _ _ _ _ _ Hp); [done|].
  intros p a x Hin. apply (keeps_wants (actor l)); [done|]. intros Ha. rewrite Ha in Hm. simpl in Hm.
  by rewrite Hin in Hm.
Qed.

(** A post begins. *)
Lemma control_post_view n t r y :
  reachable sr_step sr_init (rc y) → sr_step (sr_post (control_task n t)) (rc y) = Some r →
  own control_of (sr_view (L:=L1) r) = MkAbstract (s_posts (cview y) ++ [Testing t])
    (s_queue (cview y)) (s_closed (cview y)) (s_running (cview y)).
Proof.
  intros Hr E. pose proof (control_follows _ _ _ Hr E) as Hf. rewrite sr_posting in Hf. simpl in Hf.
  rewrite control_own in Hf. simpl in Hf. by simplify_eq.
Qed.
Lemma io_post_view n t r y :
  reachable sr_step sr_init (ri y) → sr_step (sr_post (io_task n t)) (ri y) = Some r →
  own io_of (sr_view (L:=L2) r) = MkAbstract (s_posts (iview y) ++ [Testing t])
    (s_queue (iview y)) (s_closed (iview y)) (s_running (iview y)).
Proof.
  intros Hr E. pose proof (io_follows _ _ _ Hr E) as Hf. rewrite sr_posting in Hf. simpl in Hf.
  rewrite io_own in Hf. simpl in Hf. by simplify_eq.
Qed.
Lemma exec_post_view n j r y :
  reachable cr_step cr_init (re y) → cr_step (cr_post (job_task n j)) (re y) = Some r →
  own_bag job_of (cr_view (L:=L3) r) ≡ MkBag (b_posts (eview y) ++ [Testing j])
    (b_queue (eview y)) (b_closed (eview y)) (b_running (eview y)).
Proof.
  intros Hr E. pose proof (exec_follows _ _ _ Hr E) as Hf. rewrite cr_posting in Hf. simpl in Hf.
  rewrite job_own in Hf. destruct Hf as (w & Hw & ->). simpl in Hw. by simplify_eq.
Qed.

Lemma idle_enter p x a y :
  wants p (mgr y) = Some x →
  (idle_control y = true → idle_control (set_inside (<[p := a]> (inside y)) y) = true) ∧
  (idle_io y = true → idle_io (set_inside (<[p := a]> (inside y)) y) = true).
Proof.
  intros Hw. unfold idle_control, idle_io. simpl. split.
  - destruct (rcur (control (mgr y))) eqn:Hc; [done|]. rewrite lookup_insert_ne; [done|].
    intros ->. simpl in Hw. by rewrite Hc in Hw.
  - destruct (rcur (io (mgr y))) eqn:Hc; [done|]. rewrite lookup_insert_ne; [done|].
    intros ->. simpl in Hw. by rewrite Hc in Hw.
Qed.

Lemma enter_sim p n y y' m :
  implements y m →
  enter (L1:=L1) (L2:=L2) (L3:=L3) control_task control_of io_task io_of job_task job_of p n y = Some y' →
  implements y' m.
Proof.
  intros [Hr1 Hr2 Hr3 Hp Hc Hi Hl] E. unfold enter in E.
  destruct (wants p (mgr y)) as [[[|] v]|] eqn:Hw; try done.
  destruct (inside y !! p) eqn:Hn; [done|].
  assert (∀ posts', on (which v) (λ l, l ++ [Testing v]) (posts_at y) posts' →
    posts_ok posts' (<[p := (which v, length (posts_at y (which v)))]> (inside y)) (timers y)
      (λ p, wants p (mgr y))) as Hok.
  { intros posts' Ho. by eapply posts_ok_enter. }
  destruct v as [t|t|j]; simpl in *.
  - destruct (sr_step _ (rc y)) as [r|] eqn:E1; simplify_eq/=. rewrite length_fmap in Hok.
    pose proof (control_post_view _ _ _ _ Hr1 E1) as Hv. unfold own in Hv. simpl in Hv.
    injection Hv as Hv1 Hv2 Hv3 Hv4.
    destruct (idle_enter p _ (ToControl, length (s_posts (cview y))) _ Hw) as [Hk1 Hk2].
    split; simpl; try done; unfold sys_queues; simpl; rewrite ?Hv2, ?Hv3, ?Hv4; auto.
    + by econstructor.
    + apply Hok. intros []; simpl; [|done|done]. by rewrite Hv1, fmap_app.
  - destruct (sr_step _ (ri y)) as [r|] eqn:E1; simplify_eq/=. rewrite length_fmap in Hok.
    pose proof (io_post_view _ _ _ _ Hr2 E1) as Hv. unfold own in Hv. simpl in Hv.
    injection Hv as Hv1 Hv2 Hv3 Hv4.
    destruct (idle_enter p _ (ToIo, length (s_posts (iview y))) _ Hw) as [Hk1 Hk2].
    split; simpl; try done; unfold sys_queues; simpl; rewrite ?Hv2, ?Hv3, ?Hv4; auto.
    + by econstructor.
    + apply Hok. intros []; simpl; [done| |done]. by rewrite Hv1, fmap_app.
  - destruct (0 <? _)%Z; [done|]. destruct (cr_step _ (re y)) as [r|] eqn:E1; simplify_eq/=.
    rewrite length_fmap in Hok. destruct (exec_post_view _ _ _ _ Hr3 E1) as (Hv1 & Hv2 & Hv3 & _).
    simpl in Hv1, Hv2, Hv3.
    destruct (idle_enter p _ (ToExec, length (b_posts (eview y))) _ Hw) as [Hk1 Hk2].
    split; simpl; try done; auto.
    + by econstructor.
    + apply Hok. intros []; simpl; [done|done|]. by rewrite Hv1, fmap_app.
    + unfold sys_queues, jobs_waiting in *. simpl in *. rewrite Hv3. apply (like_perm _ _ _ _ _ _ _ _ _ Hl).
      by rewrite Hv2.
Qed.

Lemma leave_sim p y y' m :
  implements y m → leave (L1:=L1) (A1:=A1) (L2:=L2) (A2:=A2) (L3:=L3) (A3:=A3) p y = Some y' → implements y' m.
Proof.
  intros [Hr1 Hr2 Hr3 Hp Hc Hi Hl] E. unfold leave in E.
  destruct (inside y !! p) as [[w i]|] eqn:Hin; simpl in E; [|done].
  assert (∀ p', may_move p' y = true → may_move p' (set_inside (delete p (inside y)) y) = true) as Hm.
  { intros [p'|]; [|done]. simpl. rewrite !bool_decide_eq_true. intros Hn. by rewrite lookup_delete_None; right. }
  assert (posts_at y w !! i = Some Away → implements (set_inside (delete p (inside y)) y) m) as Hgo.
  { intros Hq. split; try done; simpl.
    - by eapply posts_ok_leave.
    - intros Hv. specialize (Hc Hv). unfold idle_control in *. simpl in *.
      destruct (rcur (control (mgr y))); [done|]. by apply (Hm (Some PControl)).
    - intros Hv. specialize (Hi Hv). unfold idle_io in *. simpl in *.
      destruct (rcur (io (mgr y))); [done|]. by apply (Hm (Some PIo)). }
  destruct w.
  - destruct (sr_returned i (rc y)) eqn:Eb; simplify_eq. apply Hgo. simpl.
    rewrite !list_lookup_fmap. apply sr_back in Eb. by rewrite Eb.
  - destruct (sr_returned i (ri y)) eqn:Eb; simplify_eq. apply Hgo. simpl.
    rewrite !list_lookup_fmap. apply sr_back in Eb. by rewrite Eb.
  - destruct (cr_returned i (re y)) eqn:Eb; simplify_eq. apply Hgo. simpl.
    rewrite !list_lookup_fmap. apply cr_back in Eb. by rewrite Eb.
Qed.

(** *** The access of a post *)

Definition at_post (b : bool) (v : Want (Handler:=Handler)) : Post Want := if b then Pushing v else Testing v.

Lemma manage_post b p w i v y y1 m :
  posts_ok (posts_at y) (inside y) (timers y) (λ p, wants p (mgr y)) →
  like (sys_queues y) (mgr y) m →
  inside y !! p = Some (w, i) → posts_at y w !! i = Some (at_post b v) → manage (label_of p) y = Some y1 →
  which v = w ∧
  ∃ m1 m', y1 = set_mgr m1 y ∧ run step [label_of p] m = Some m' ∧
    like (post_effect b v (sys_queues y)) m1 m' ∧
    (idle_control y = true → idle_control y1 = true) ∧ (idle_io y = true → idle_io y1 = true) ∧
    ∀ posts',
      on w (λ l, <[i := if b || queue_closed w (sys_queues y) then Away else Pushing v]> l) (posts_at y) posts' →
      posts_ok posts' (inside y) (timers y) (λ p, wants p m1).
Proof.
  intros Hp Hl Hin Hq E. destruct (pk_poster _ _ _ _ Hp _ _ _ Hin) as (q & Hq' & Hf).
  rewrite Hq in Hq'. simplify_eq. assert (wants p (mgr y) = Some (b, v) ∧ which v = w) as [Hw <-] by (by destruct b).
  split; [done|]. unfold manage, abs in E. destruct (step (label_of p) _) as [m1|] eqn:E1; simplify_eq/=.
  destruct (like_post _ _ _ _ _ _ _ _ _ Hl Hw E1) as (Em & m' & E' & Hl').
  exists m1, m'. rewrite E'. split; [done|]. split; [done|]. split; [done|].
  assert (keeps (Some p) (mgr y) m1) as Hk by (rewrite Em; apply keeps_with, keeps_past_post).
  split_and!.
  - unfold idle_control. simpl. destruct (decide (p = PControl)) as [->|Hne].
    + rewrite Hin. by destruct (rcur (control (mgr y))).
    + by rewrite (proj1 Hk) by congruence.
  - unfold idle_io. simpl. destruct (decide (p = PIo)) as [->|Hne].
    + rewrite Hin. by destruct (rcur (io (mgr y))).
    + by rewrite (proj1 (proj2 Hk)) by congruence.
  - intros posts' Ho. apply (posts_ok_move _ _ _ _ _ _ _ _ _ _ Hp Hin Ho).
    + intros p' x Hne. apply (keeps_wants (Some p)); [done|congruence].
    + rewrite Em, wants_with. destruct b; simpl; [done|].
      destruct (queue_closed (which v) (sys_queues y)) eqn:Ecl; simpl; [done|].
      split; [|done]. by apply past_test_wants.
Qed.

(** *** A sequential runner moves *)

Section sequential.
Context {C : Type} (w : Which) (mk : C → Want (Handler:=Handler)) (take : JobManager.Label Handler).
Context (p0 : Poster) (part : list C → bool → Queues (Handler:=Handler) → Queues (Handler:=Handler)).
Context (idle idle' : System → bool).
Context (mk_which : ∀ c, which (mk c) = w)
  (part_closed : ∀ q b qs, queue_closed w (part q b qs) = b)
  (part_push : ∀ q b qs c, push (mk c) (part q b qs) = part (q ++ [c]) b qs).
Context (take_like : ∀ t q b qs y r m1,
  like (part (t :: q) b qs) (mgr y) r → idle y = true →
  step take (with_queues (part (t :: q) b qs) (mgr y)) = Some m1 →
  ∃ r', step take r = Some r' ∧ like (part q b qs) m1 r' ∧ keeps (Some p0) (mgr y) m1).
Context (idle_inside : ∀ y, idle y = true → inside y !! p0 = None)
  (idle_other : ∀ y m1, keeps (Some p0) (mgr y) m1 → idle' y = true → idle' (set_mgr m1 y) = true).
Context (idle_post : ∀ y y1, (idle_control y = true → idle_control y1 = true) →
  (idle_io y = true → idle_io y1 = true) →
  (idle y = true → idle y1 = true) ∧ (idle' y = true → idle' y1 = true)).
Notation react := (react (L1:=L1) (L2:=L2) (L3:=L3) oor durable control_of io_of job_of).

(** The manager follows from [m], and the runner is at [v']. *)
Definition reacts (v' : AbstractRunner C) y y1 m : Prop :=
  ∃ ls m1 m', y1 = set_mgr m1 y ∧ run step ls m = Some m' ∧
    like (part (s_queue v') (s_closed v') (sys_queues y)) m1 m' ∧
    (s_running v' = None → idle y1 = true) ∧ (idle' y = true → idle' y1 = true) ∧
    ∀ posts', (∀ w', w' ≠ w → posts' w' = posts_at y w') → posts' w = post_map mk <$> s_posts v' →
      posts_ok posts' (inside y) (timers y) (λ p, wants p m1).
Definition runner_at (v : AbstractRunner C) y : Prop :=
  posts_at y w = post_map mk <$> s_posts v ∧ sys_queues y = part (s_queue v) (s_closed v) (sys_queues y) ∧
  (s_running v = None → idle y = true).

Lemma on_runner f posts' (ps : list (Post C)) v y :
  runner_at v y → (∀ w', w' ≠ w → posts' w' = posts_at y w') → posts' w = post_map mk <$> ps →
  post_map mk <$> ps = f (post_map mk <$> s_posts v) → on w f (posts_at y) posts'.
Proof.
  intros (Hps & _) Hne Hw Hf w'. case_decide as Hd; [|by apply Hne].
  subst w'. by rewrite Hw, Hps.
Qed.

Lemma react_quiet v v' y m :
  implements y m → runner_at v y → s_queue v' = s_queue v → s_closed v' = s_closed v →
  (s_running v' = None → idle y = true) →
  (s_posts v' = s_posts v ∨ s_posts v' = s_posts v ++ [Away]) → reacts v' y y m.
Proof.
  intros [_ _ _ Hp _ _ Hl] Hv E1 E2 E3 E4. pose proof Hv as (Hps & Hqs & Hrun).
  exists [], (mgr y), m. rewrite E1, E2, <- Hqs. split_and!; try done; [by destruct y|].
  intros posts' Hne Hw. destruct E4 as [E4|E4].
  - apply (posts_ok_wants (posts_at y) _ _ _ _ _ Hp); [|done]. intros w'.
    destruct (decide (w' = w)) as [->|Hd]; [|by apply Hne]. by rewrite Hw, E4.
  - apply (posts_ok_foreign _ _ _ _ _ w Hp). eapply on_runner; [done..|]. by rewrite E4, fmap_app.
Qed.

Lemma react_post (b : bool) i p c v y y1 m :
  implements y m → runner_at v y → inside y !! p = Some (w, i) →
  s_posts v !! i = Some (if b then Pushing c else Testing c) → manage (label_of p) y = Some y1 →
  reacts (MkAbstract (<[i := if b || s_closed v then Away else Pushing c]> (s_posts v))
            (if b then s_queue v ++ [c] else s_queue v) (s_closed v) (s_running v)) y y1 m.
Proof.
  intros [_ _ _ Hp _ _ Hl] Hv Hin Hi E. pose proof Hv as (Hps & Hqs & Hrun).
  assert (posts_at y w !! i = Some (at_post b (mk c))) as Hq.
  { rewrite Hps, list_lookup_fmap, Hi. by destruct b. }
  destruct (manage_post b p w i (mk c) y y1 m Hp Hl Hin Hq E)
    as (_ & m1 & m' & -> & Hrun' & Hl' & Hi1 & Hi2 & Hok).
  destruct (idle_post y (set_mgr m1 y) Hi1 Hi2) as [Hi3 Hi4].
  exists [label_of p], m1, m'. split_and!; try done; cbn [s_running s_queue s_closed s_posts]; auto.
  - rewrite Hqs in Hl'. unfold post_effect in Hl'. destruct b; [by rewrite part_push in Hl'|exact Hl'].
  - intros posts' Hne Hw. apply Hok. rewrite Hqs, part_closed. eapply on_runner; [done..|]. simpl.
    rewrite list_fmap_insert. by destruct (b || s_closed v).
Qed.

Lemma react_sim a who v v' y y1 m :
  implements y m → runner_at v y → follows false a v v' → react w take (idle y) a who y = Some y1 →
  reacts v' y y1 m.
Proof.
  intros Him Hv Hf Er. pose proof Hv as (Hps & Hqs & Hrun). unfold JobRunners.react in Er.
  destruct a as [[p|i c|i|i|i| | | |]|]; simpl in Hf; try done.
  - destruct p as [x|x|], who; simplify_eq. apply (react_quiet v); auto.
  - destruct who as [p|]; [|done]. case_bool_decide as Hin; [|done].
    destruct (s_posts v !! i) as [[c|c|]|] eqn:Ei; simplify_eq. exact (react_post false i p c v y y1 m Him Hv Hin Ei Er).
  - destruct who as [p|]; [|done]. case_bool_decide as Hin; [|done].
    destruct (s_posts v !! i) as [[c|c|]|] eqn:Ei; simplify_eq. exact (react_post true i p c v y y1 m Him Hv Hin Ei Er).
  - destruct who; [done|]. destruct (s_queue v) as [|t q] eqn:Eq; [done|].
    destruct (s_running v) as [x|] eqn:Erun; simplify_eq.
    unfold JobRunners.manage, abs in Er. destruct (step take _) as [m1|] eqn:E1; simplify_eq/=.
    pose proof (im_like _ _ Him) as Hl. rewrite Hqs in Hl, E1.
    destruct (take_like _ _ _ _ _ _ _ Hl (Hrun eq_refl) E1) as (m' & E' & Hl' & Hk).
    exists [take], m1, m'. simpl. rewrite E'. split_and!; try done; [by apply idle_other|].
    intros posts' Hne Hw. apply (posts_ok_wants (posts_at y) _ _ _ _ _ (im_posts _ _ Him)).
    + intros w'. destruct (decide (w' = w)) as [->|Hd]; [|by apply Hne]. by rewrite Hw, Hps.
    + intros p a x Hin. apply (keeps_wants (Some p0)); [done|]. intros [= ->].
      by rewrite (idle_inside _ (Hrun eq_refl)) in Hin.
  - destruct who; [done|]. destruct (idle y) eqn:Hid; [|done].
    destruct (s_running v) as [x|] eqn:Erun; simplify_eq. apply (react_quiet v); auto.
  - destruct who; simplify_eq. apply (react_quiet v); auto.
Qed.
End sequential.

Lemma idle_control_spec y :
  idle_control y = true → rcur (control (mgr y)) = None ∧ inside y !! PControl = None.
Proof. unfold idle_control. destruct (rcur _); [done|]. simpl. by rewrite bool_decide_eq_true. Qed.
Lemma idle_io_spec y : idle_io y = true → rcur (io (mgr y)) = None ∧ inside y !! PIo = None.
Proof. unfold idle_io. destruct (rcur _); [done|]. simpl. by rewrite bool_decide_eq_true. Qed.

Definition part_control q b (qs : Queues (Handler:=Handler)) : Queues :=
  MkQueues q b (q_io qs) (q_io_closed qs) (q_exec qs) (q_exec_closed qs).
Definition part_io q b (qs : Queues (Handler:=Handler)) : Queues :=
  MkQueues (q_control qs) (q_control_closed qs) q b (q_exec qs) (q_exec_closed qs).

Lemma take_control_like t q b qs y r m1 :
  like (part_control (t :: q) b qs) (mgr y) r → idle_control y = true →
  step (LControl false) (with_queues (part_control (t :: q) b qs) (mgr y)) = Some m1 →
  ∃ r', step (LControl false) r = Some r' ∧ like (part_control q b qs) m1 r' ∧
        keeps (Some PControl) (mgr y) m1.
Proof.
  intros Hl [Hc _]%idle_control_spec E.
  destruct (like_take_control _ _ t q _ _ _ _ Hl Hc eq_refl E) as (-> & r' & E' & Hl').
  exists r'. split_and!; [done|done|]. apply keeps_with, keeps_control.
Qed.
Lemma take_io_like t q b qs y r m1 :
  like (part_io (t :: q) b qs) (mgr y) r → idle_io y = true →
  step (LIo false false) (with_queues (part_io (t :: q) b qs) (mgr y)) = Some m1 →
  ∃ r', step (LIo false false) r = Some r' ∧ like (part_io q b qs) m1 r' ∧ keeps (Some PIo) (mgr y) m1.
Proof.
  intros Hl [Hc _]%idle_io_spec E.
  destruct (like_take_io _ _ t q _ _ _ _ Hl Hc eq_refl E) as (-> & r' & E' & Hl').
  exists r'. split_and!; [done|done|]. apply keeps_with, keeps_io.
Qed.

Lemma control_move_sim l who y y' m :
  implements y m →
  control_move (L1:=L1) (L2:=L2) (L3:=L3) oor durable control_of io_of job_of l who y = Some y' →
  ∃ ls m', run step ls m = Some m' ∧ implements y' m'.
Proof.
  intros Him E. pose proof Him as [Hr1 Hr2 Hr3 Hp Hc Hi Hl]. unfold control_move in E.
  destruct (sr_step l (rc y)) as [r|] eqn:E1; [|done]. cbn [mbind option_bind] in E.
  pose proof (control_follows _ _ _ Hr1 E1) as Hf.
  destruct (react _ _ _ _ _ _ _ _) as [y1|] eqn:Er; [|done]. cbn [mbind option_bind] in E. injection E as <-.
  eapply (react_sim ToControl WControl (LControl false) PControl part_control idle_control idle_io)
    in Er as (ls & m1 & m' & -> & Hrun & Hl' & Hid & Hid' & Hok); try done; eauto.
  - exists ls, m'. split; [done|]. split; simpl; try done; auto; [by econstructor|].
    apply Hok; [by intros []|done].
  - apply take_control_like.
  - intros y0. apply idle_control_spec.
  - intros y0 m1 Hk. unfold idle_io. simpl. by rewrite (proj1 (proj2 Hk)) by done.
Qed.

Lemma io_move_sim l who y y' m :
  implements y m →
  io_move (L1:=L1) (L2:=L2) (L3:=L3) oor durable control_of io_of job_of l who y = Some y' →
  ∃ ls m', run step ls m = Some m' ∧ implements y' m'.
Proof.
  intros Him E. pose proof Him as [Hr1 Hr2 Hr3 Hp Hc Hi Hl]. unfold io_move in E.
  destruct (sr_step l (ri y)) as [r|] eqn:E1; [|done]. cbn [mbind option_bind] in E.
  pose proof (io_follows _ _ _ Hr2 E1) as Hf.
  destruct (react _ _ _ _ _ _ _ _) as [y1|] eqn:Er; [|done]. cbn [mbind option_bind] in E. injection E as <-.
  eapply (react_sim ToIo WIo (LIo false false) PIo part_io idle_io idle_control)
    in Er as (ls & m1 & m' & -> & Hrun & Hl' & Hid & Hid' & Hok); try done; eauto.
  - exists ls, m'. split; [done|]. split; simpl; try done; auto; [by econstructor|].
    apply Hok; [by intros []|done].
  - apply take_io_like.
  - intros y0. apply idle_io_spec.
  - intros y0 m1 Hk. unfold idle_control. simpl. by rewrite (proj1 Hk) by done.
Qed.

(** *** The execution runner moves *)

(** The queues, with these jobs on the execution runner. *)
Definition part_exec q b (qs : Queues (Handler:=Handler)) : Queues :=
  MkQueues (q_control qs) (q_control_closed qs) (q_io qs) (q_io_closed qs) q b.

(** The machine of the execution runner is replaced. *)
Lemma exec_rebuild r y y1 m m' :
  implements y m → reachable cr_step cr_init r → rc y1 = rc y → ri y1 = ri y →
  posts_ok (posts_at (set_re r y1)) (inside y1) (timers y1) (λ p, wants p (mgr y1)) →
  (idle_control y = true → idle_control y1 = true) → (idle_io y = true → idle_io y1 = true) →
  like (part_exec (jobs_waiting (set_re r y1)) (b_closed (eview (set_re r y1))) (sys_queues y)) (mgr y1) m' →
  implements (set_re r y1) m'.
Proof.
  intros [Hr1 Hr2 Hr3 Hp Hc Hi Hl] Hr E1 E2 Hp' Hc' Hi' Hl'.
  split; simpl; rewrite ?E1, ?E2; try done; try (by unfold control_view, io_view; simpl; rewrite ?E1, ?E2; auto).
  revert Hl'. unfold sys_queues, part_exec, jobs_waiting, control_view, io_view. simpl. by rewrite E1, E2.
Qed.

(** ... and the posts of the other runners are what they were. *)
Lemma posts_on_exec r y1 y f :
  rc y1 = rc y → ri y1 = ri y →
  post_map WExec <$> b_posts (eview (set_re r y1)) = f (post_map WExec <$> b_posts (eview y)) →
  on ToExec f (posts_at y) (posts_at (set_re r y1)).
Proof. intros E1 E2 E3 []; simpl; unfold control_view, io_view; simpl; by rewrite ?E1, ?E2. Qed.

Lemma exec_post_sim (b : bool) i p j y r y1 m :
  implements y m → reachable cr_step cr_init r → inside y !! p = Some (ToExec, i) →
  b_posts (eview y) !! i = Some (if b then Pushing j else Testing j) →
  b_posts (eview (set_re r y)) = <[i := if b || b_closed (eview y) then Away else Pushing j]> (b_posts (eview y)) →
  b_queue (eview (set_re r y)) ≡ₚ (if b then b_queue (eview y) ++ [j] else b_queue (eview y)) →
  b_closed (eview (set_re r y)) = b_closed (eview y) →
  manage (label_of p) y = Some y1 →
  ∃ ls m', run step ls m = Some m' ∧ implements (set_re r y1) m'.
Proof.
  intros Him Hr Hin Hi Ep Eq Ec E. pose proof Him as [Hr1 Hr2 Hr3 Hp Hc Hio Hl].
  assert (posts_at y ToExec !! i = Some (at_post b (WExec j))) as Hq.
  { simpl. rewrite list_lookup_fmap. change (own_post job_of <$> b_posts (cr_view (re y))) with (b_posts (eview y)).
    rewrite Hi. by destruct b. }
  destruct (manage_post b p ToExec i (WExec j) y y1 m Hp Hl Hin Hq E)
    as (_ & m1 & m' & -> & Hrun & Hl' & Hi1 & Hi2 & Hok).
  exists [label_of p], m'. split; [done|].
  apply (exec_rebuild r y (set_mgr m1 y) m); try done.
  - apply Hok, posts_on_exec; [done|done|].
    change (eview (set_re r (set_mgr m1 y))) with (eview (set_re r y)).
    change (queue_closed ToExec (sys_queues y)) with (b_closed (eview y)).
    rewrite Ep, list_fmap_insert. by destruct (b || b_closed (eview y)).
  - change (eview (set_re r (set_mgr m1 y))) with (eview (set_re r y)). rewrite Ec.
    assert (jobs_waiting (set_re r y) ≡ₚ q_exec (post_effect b (WExec j) (sys_queues y))) as Hw.
    { unfold jobs_waiting at 1. simpl delayed. simpl timers. rewrite Eq. destruct b; [|done].
      unfold post_effect, push, sys_queues, jobs_waiting. simpl. perm_solve. }
    change (jobs_waiting (set_re r (set_mgr m1 y))) with (jobs_waiting (set_re r y)).
    unfold part_exec. eapply like_perm; [|by symmetry]. by destruct b.
Qed.

(** The machine moves without the manager: foreign tasks, lost ones, timers. *)
Lemma exec_quiet_sim r y tm m :
  implements y m → reachable cr_step cr_init r →
  (∀ posts', (∀ w, w ≠ ToExec → posts' w = posts_at y w) →
     posts' ToExec = post_map WExec <$> b_posts (eview (set_re r y)) →
     posts_ok posts' (inside y) tm (λ p, wants p (mgr y))) →
  b_queue (eview (set_re r y)) ++ delayed y ++ tm.*2 ⊆+ jobs_waiting y →
  b_closed (eview (set_re r y)) = b_closed (eview y) →
  ∃ ls m', run step ls m = Some m' ∧ implements (set_re r (set_delays (delayed y) tm y)) m'.
Proof.
  intros Him Hr Hp Hq Hc. destruct (like_lose oor durable _ _ _ _ _ _ _ _ _ (im_like _ _ Him) Hq)
    as (ls & m' & Hrun & Hl).
  exists ls, m'. split; [done|].
  apply (exec_rebuild r y (set_delays (delayed y) tm y) m); try done.
  - apply Hp; [|done]. by intros [].
  - change (eview (set_re r (set_delays (delayed y) tm y))) with (eview (set_re r y)). by rewrite Hc.
Qed.

Lemma set_delays_id y : set_delays (delayed y) (timers y) y = y.
Proof. by destruct y. Qed.

Lemma exec_start_sim k j r y y1 m :
  implements y m → reachable cr_step cr_init r → b_queue (eview y) !! k = Some j →
  b_posts (eview (set_re r y)) = b_posts (eview y) →
  b_queue (eview (set_re r y)) ≡ₚ delete k (b_queue (eview y)) →
  b_closed (eview (set_re r y)) = b_closed (eview y) →
  manage (LExecStart k) y = Some y1 →
  ∀ l, ∃ ls m', run step ls m = Some m' ∧ implements (set_re r (set_works l y1)) m'.
Proof.
  intros Him Hr Hk Ep Eq Ec E l. pose proof Him as [Hr1 Hr2 Hr3 Hp Hc Hi Hl].
  assert (q_exec (sys_queues y) !! k = Some j) as Hk'.
  { unfold sys_queues, jobs_waiting. cbn [q_exec]. by apply lookup_app_l_Some. }
  unfold JobRunners.manage, abs in E. destruct (step (LExecStart k) _) as [m1|] eqn:E1; [|done].
  cbn [mbind option_bind] in E. injection E as <-.
  destruct (like_start _ _ _ _ _ _ _ _ Hl Hk' E1) as (Em & k' & m' & E' & Hl').
  exists [LExecStart k'], m'. cbn [run]. rewrite E'. split; [done|].
  assert (∀ p x, wants p (mgr y) = Some x → wants p m1 = Some x) as Hw.
  { intros p x Hx. rewrite Em, wants_with. destruct p as [k0| | |k0]; try done. simpl in *.
    destruct (exec (mgr y) !! k0) as [e|] eqn:Ee; [|done]. by rewrite (lookup_app_l_Some _ _ _ _ Ee). }
  apply (exec_rebuild r y (set_works l (set_mgr m1 y)) m); try done.
  - apply (posts_ok_wants (posts_at y) _ _ _ _ _ Hp).
    + intros []; [done|done|].
      change (post_map WExec <$> b_posts (eview (set_re r y)) = post_map WExec <$> b_posts (eview y)).
      by rewrite Ep.
    + intros p a x _. apply Hw.
  - by rewrite Em.
  - by rewrite Em.
  - change (eview (set_re r (set_works l (set_mgr m1 y)))) with (eview (set_re r y)). rewrite Ec.
    refine (like_perm _ _ _ _ _ _ _ _ _ Hl' _).
    change (delete k (b_queue (eview y) ++ delayed y ++ (timers y).*2)
              ≡ₚ b_queue (eview (set_re r y)) ++ delayed y ++ (timers y).*2).
    by rewrite Eq, delete_app_l by (by eapply lookup_lt_Some).
Qed.

Lemma exec_timer_sim (b : bool) t i j y r m :
  implements y m → reachable cr_step cr_init r → timers y !! t = Some (i, j) →
  b_posts (eview (set_re r y)) = <[i := if b || b_closed (eview y) then Away else Pushing j]> (b_posts (eview y)) →
  b_queue (eview (set_re r y)) ≡ₚ (if b then b_queue (eview y) ++ [j] else b_queue (eview y)) →
  b_closed (eview (set_re r y)) = b_closed (eview y) →
  let tm := if b || b_closed (eview y) then delete t (timers y) else timers y in
  ∃ ls m', run step ls m = Some m' ∧ implements (set_re r (set_delays (delayed y) tm y)) m'.
Proof.
  intros Him Hr Ht Ep Eq Ec tm. apply exec_quiet_sim; try done.
  - intros posts' Hne Hex.
    apply (posts_ok_timer_move (posts_at y) _ _ (timers y) _ _ t i j
             (if b || b_closed (eview y) then Away else Pushing (WExec j)) (im_posts _ _ Him) Ht).
    + intros w. case_decide as Hw; [|by apply Hne]. subst w. rewrite Hex, Ep, list_fmap_insert.
      by destruct (b || b_closed (eview y)).
    + unfold tm. destruct (b || b_closed (eview y)); auto.
  - unfold jobs_waiting. rewrite Eq. pose proof (list_delete_perm _ _ _ Ht) as Hd.
    apply (fmap_Permutation snd) in Hd. simpl in Hd. rewrite Hd. unfold tm.
    destruct b; simpl; [solve_submseteq|]. destruct (b_closed _); [solve_submseteq|]. by rewrite Hd.
Qed.

(** A timer's goroutine posts the timer's job. *)
Lemma timer_post_job i j j' y m t q :
  implements y m → timers y !! t = Some (i, j') → b_posts (eview y) !! i = Some q →
  q = Testing j ∨ q = Pushing j → j' = j.
Proof.
  intros Him Ht Hq Hj.
  destruct (pk_timer _ _ _ _ (im_posts _ _ Him) i j' (list_elem_of_lookup_2 _ _ _ Ht)) as [(q' & Hq' & Hb) _].
  simpl in Hq'. rewrite list_lookup_fmap in Hq'. change (_ !! i) with (b_posts (eview y) !! i) in Hq' at 1.
  rewrite Hq in Hq'. by destruct Hj as [-> | ->], Hb as [Hb|Hb]; rewrite Hb in Hq'; simplify_eq/=.
Qed.

Lemma exec_move_sim l who y y' m :
  implements y m →
  exec_move (L1:=L1) (L2:=L2) (L3:=L3) oor durable control_of io_of job_of l who y = Some y' →
  ∃ ls m', run step ls m = Some m' ∧ implements y' m'.
Proof.
  intros Him E. pose proof Him as [Hr1 Hr2 Hr3 Hp Hc Hi Hl]. unfold exec_move in E.
  destruct (cr_step l (re y)) as [r|] eqn:E1; [|done]. cbn [mbind option_bind] in E.
  pose proof (exec_follows _ _ _ Hr3 E1) as Hf.
  destruct (react_exec _ _ _ _ _ _ _ _) as [y1|] eqn:Er; [|done]. cbn [mbind option_bind] in E. injection E as <-.
  assert (reachable cr_step cr_init r) as Hr by (by econstructor).
  change (own_bag job_of (cr_view r)) with (eview (set_re r y)) in Hf.
  set (a := cr_action l (re y) ≫= _) in *. clearbody a. unfold react_exec in Er.
  assert (b_posts (eview (set_re r y)) = b_posts (eview y) ∨
      b_posts (eview (set_re r y)) = b_posts (eview y) ++ [Away] →
    y1 = y → b_queue (eview (set_re r y)) ⊆+ b_queue (eview y) →
    b_closed (eview (set_re r y)) = b_closed (eview y) →
    ∃ ls m', run step ls m = Some m' ∧ implements (set_re r y1) m') as Hquiet.
  { intros Eps -> Eq Ec. replace (set_re r y) with (set_re r (set_delays (delayed y) (timers y) y)) by (by destruct y).
    apply exec_quiet_sim; try done.
    - intros posts' Hne Hex. destruct Eps as [Eps|Eps].
      + apply (posts_ok_wants (posts_at y) _ _ _ _ _ Hp); [|done].
        intros w. destruct (decide (w = ToExec)) as [->|Hw]; [|by apply Hne]. by rewrite Hex, Eps.
      + apply (posts_ok_foreign _ _ _ _ _ ToExec Hp). intros w. case_decide as Hw; [|by apply Hne].
        subst w. by rewrite Hex, Eps, fmap_app.
    - by apply submseteq_skips_r. }
  destruct a as [a|]; simpl in Hf.
  2:{ destruct who; [done|]. injection Er as <-. destruct Hf as (F1 & F2 & F3 & F4). apply Hquiet; auto. }
  destruct Hf as (v & Hv & F1 & F2 & F3 & F4). unfold bag_act in Hv.
  destruct a as [p|i|i|k| |w|]; [| | | | | |by destruct who].
  - destruct p as [x|x|], who; simplify_eq. apply Hquiet; auto. by rewrite F2.
  - destruct (b_posts (eview y) !! i) as [[j|j|]|] eqn:Ei; simplify_eq. destruct who as [[p|t]|]; [| |done].
    + case_bool_decide as Hin; [|done]. by apply (exec_post_sim false i p j _ _ _ _ Him Hr Hin Ei F1 F2 F3).
    + destruct (timers y !! t) as [[i' j']|] eqn:Et; [|done]. cbn [mbind option_bind] in Er.
      destruct (Nat.eqb_spec i' i) as [->|]; [|done]. cbn [negb] in Er. injection Er as <-.
      pose proof (timer_post_job _ j _ _ _ _ _ Him Et Ei (or_introl eq_refl)) as ->.
      pose proof (exec_timer_sim false t i j _ _ _ Him Hr Et F1 F2 F3) as Hs. cbn [orb] in Hs.
      change (b_closed (cr_view (re y))) with (b_closed (eview y)).
      destruct (b_closed (eview y)); [exact Hs|]. cbn zeta in Hs. by rewrite set_delays_id in Hs.
  - destruct (b_posts (eview y) !! i) as [[j|j|]|] eqn:Ei; simplify_eq. destruct who as [[p|t]|]; [| |done].
    + case_bool_decide as Hin; [|done]. by apply (exec_post_sim true i p j _ _ _ _ Him Hr Hin Ei F1 F2 F3).
    + destruct (timers y !! t) as [[i' j']|] eqn:Et; [|done]. cbn [mbind option_bind] in Er.
      destruct (Nat.eqb_spec i' i) as [->|]; [|done]. cbn [negb] in Er. injection Er as <-.
      pose proof (timer_post_job _ j _ _ _ _ _ Him Et Ei (or_intror eq_refl)) as ->.
      exact (exec_timer_sim true t i j _ _ _ Him Hr Et F1 F2 F3).
  - destruct (b_queue (eview y) !! k) as [j|] eqn:Ek; [|done]. cbn [mbind option_bind] in Hv. simplify_eq.
    destruct who; [done|]. destruct (manage _ _) as [y2|] eqn:E2; [|done].
    cbn [mbind option_bind] in Er. injection Er as <-.
    by apply (exec_start_sim k j _ _ _ _ Him Hr Ek F1 F2 F3).
  - destruct who; simplify_eq. apply Hquiet; auto. by rewrite F2.
  - destruct (b_running (eview y) !! w) as [[j|]|]; simplify_eq. destruct who; [done|].
    destruct (worker_done w y); simplify_eq. apply Hquiet; auto. by rewrite F2.
Qed.

(** *** Shutdown *)

Lemma manage_shut k c n y y1 m :
  implements y m → calls (mgr y) !! k = Some c → call_pc c = PcRunners n →
  inside y !! PCall k = None → manage (LCallStep false k) y = Some y1 →
  ∃ m1 m', y1 = set_mgr m1 y ∧ run step [LCallStep false k] m = Some m' ∧
    like (shut_effect n (sys_queues y)) m1 m' ∧
    (idle_control y = true → idle_control y1 = true) ∧ (idle_io y = true → idle_io y1 = true) ∧
    ∀ posts', (∀ w, posts' w = posts_at y w) →
      posts_ok posts' (inside y) (timers y) (λ p, wants p m1).
Proof.
  intros [_ _ _ Hp _ _ Hl] Hk Hc Hin E. unfold JobRunners.manage, abs in E.
  destruct (step _ _) as [m1|] eqn:E1; [|done]. cbn [mbind option_bind] in E. injection E as <-.
  destruct (like_shut _ _ _ _ _ _ _ _ _ Hl Hk Hc E1) as (Em & m' & E' & Hl').
  assert (keeps (Some (PCall k)) (mgr y) m1) as Hkeep by (rewrite Em; apply keeps_with, keeps_set_call).
  exists m1, m'. cbn [run]. rewrite E'. split_and!; try done.
  - unfold idle_control. simpl. by rewrite (proj1 Hkeep) by done.
  - unfold idle_io. simpl. by rewrite (proj1 (proj2 Hkeep)) by done.
  - intros posts' Hps. apply (posts_ok_wants (posts_at y) _ _ _ _ _ Hp); [done|].
    intros p a x Hp'. apply (keeps_wants (Some (PCall k))); [done|]. intros [= <-]. by rewrite Hin in Hp'.
Qed.

(** The flag or the clearing of a sequential runner, with the manager's access;
    a clearing has a guard. *)
Ltac unguard Hf :=
  try (match type of Hf with
       | (if ?c then ?x else ?d) = ?y =>
           let H := fresh in
           assert (H : x = y) by (revert Hf; destruct c; [exact (λ e, e)|discriminate]);
           clear Hf; rename H into Hf
       end).
Ltac shut_case follows Hr E Hman :=
  let E1 := fresh "E" in let Ea := fresh "E" in let E2 := fresh "E" in let Hf := fresh "Hf" in
  let a := fresh "a" in let r := fresh "r" in let y1 := fresh "y" in
  let F1 := fresh "F" in let F2 := fresh "F" in let F3 := fresh "F" in let F4 := fresh "F" in
  let m1 := fresh "m" in let m' := fresh "m" in let Hrun := fresh "Hrun" in let Hl' := fresh "Hl" in
  let Hi1 := fresh "Hi" in let Hi2 := fresh "Hi" in let Hok := fresh "Hok" in
  match type of E with
  | match ?x with _ => _ end = _ =>
      destruct x as [a|] eqn:Ea; [|done]; destruct a; try done
  end;
  match type of E with
  | (?x ≫= _) = _ => destruct x as [r|] eqn:E1; [|done]; cbn [mbind option_bind] in E
  end;
  pose proof (follows _ _ _ Hr E1) as Hf; rewrite Ea in Hf; cbn in Hf; unguard Hf; injection Hf as F1 F2 F3 F4;
  match type of E with
  | (?x ≫= _) = _ =>
      destruct x as [y1|] eqn:E2; [|done]; cbn [mbind option_bind] in E; injection E as <-
  end;
  destruct (Hman _ eq_refl) as (m1 & m' & -> & Hrun & Hl' & Hi1 & Hi2 & Hok);
  eexists _, m'; (split; [exact Hrun|]);
  split; simpl; try done; rewrite <- ?F4; auto;
  [ by econstructor
  | apply Hok; intros []; simpl; rewrite <- ?F1; done
  | unfold sys_queues; simpl; by rewrite <- F2, <- F3 ].

Lemma shut_sim k l y y' m :
  implements y m →
  shut (L1:=L1) (L2:=L2) (L3:=L3) oor durable control_of io_of job_of k l y = Some y' →
  ∃ ls m', run step ls m = Some m' ∧ implements y' m'.
Proof.
  intros Him E. pose proof Him as [Hr1 Hr2 Hr3 Hp Hc Hi Hl]. unfold shut in E.
  destruct (calls (mgr y) !! k) as [c|] eqn:Hk; [|done]. cbn [mbind option_bind] in E.
  destruct (may_move (Some (PCall k)) y) eqn:Hm; [|done]. cbn [negb] in E.
  apply bool_decide_eq_true in Hm.
  destruct (call_pc c) as [| | | | |n|] eqn:Hpc; try done.
  assert (∀ y1, manage (LCallStep false k) y = Some y1 → _) as Hman
    by (intros y1; exact (manage_shut k c n y y1 m Him Hk Hpc Hm)).
  destruct n as [|[|[|[|[|n]]]]], l as [l|l|l]; try done.
  - shut_case control_follows Hr1 E Hman.
  - shut_case control_follows Hr1 E Hman.
  - shut_case io_follows Hr2 E Hman.
  - shut_case io_follows Hr2 E Hman.
  - destruct (cr_action l (re y)) as [a|] eqn:Ea; [|done]. destruct a; try done.
    destruct (cr_step l (re y)) as [r|] eqn:E1; [|done]. cbn [mbind option_bind] in E.
    pose proof (exec_follows _ _ _ Hr3 E1) as Hf. rewrite Ea in Hf.
    destruct Hf as (v & [= <-] & F1 & F2 & F3 & F4). simpl in F1, F2, F3.
    destruct (manage _ y) as [y1|] eqn:E2; [|done]. cbn [mbind option_bind] in E. injection E as <-.
    destruct (Hman _ eq_refl) as (m1 & m' & -> & Hrun & Hl' & Hi1 & Hi2 & Hok).
    exists [LCallStep false k], m'. split; [done|].
    apply (exec_rebuild r y (set_mgr m1 y) m); try done; [by econstructor| |].
    + apply Hok. intros []; simpl; [done|done|by rewrite F1].
    + refine (like_perm _ _ _ _ _ _ _ _ _ _ _). 1: { simpl. rewrite F3. exact Hl'. }
      unfold jobs_waiting. simpl. by rewrite F2.
Qed.

(** *** Jobs with a delay *)

(** A post that the machines do not see *)
Lemma manage_delayed b p v y m1 m :
  implements y m → wants p (mgr y) = Some (b, v) → inside y !! p = None →
  step (label_of p) (abs (L1:=L1) (L2:=L2) (L3:=L3) control_of io_of job_of y) = Some m1 →
  ∃ m', step (label_of p) m = Some m' ∧ like (post_effect b v (sys_queues y)) m1 m' ∧
    (b || queue_closed (which v) (sys_queues y) = false → wants p m1 = Some (true, v)) ∧
    keeps (Some p) (mgr y) m1 ∧ with_queues (post_effect b v (sys_queues y)) m1 = m1.
Proof.
  intros [_ _ _ Hp _ _ Hl] Hw Hin E. unfold abs in E.
  destruct (like_post _ _ _ _ _ _ _ _ _ Hl Hw E) as (-> & m' & E' & Hl').
  exists m'. split_and!; try done.
  - rewrite wants_with. intros [-> Hcl]%orb_false_iff. rewrite Hcl. by apply past_test_wants.
  - apply keeps_with, keeps_past_post.
Qed.

(** The manager went on, the machines did not. *)
Lemma mgr_rebuild p x m1 d y m m' :
  implements y m → keeps (Some p) (mgr y) m1 → inside y !! p = None → wants p (mgr y) = Some x →
  like (part_exec (b_queue (eview y) ++ d ++ (timers y).*2) (b_closed (eview y)) (sys_queues y)) m1 m' →
  implements (set_delays d (timers y) (set_mgr m1 y)) m'.
Proof.
  intros [Hr1 Hr2 Hr3 Hp Hc Hi Hl] Hk Hin Hw Hl'. split; try done; simpl.
  - apply (posts_ok_wants (posts_at y) _ _ _ _ _ Hp); [done|]. intros p' a z Hp'.
    apply (keeps_wants (Some p)); [done|]. intros [= <-]. by rewrite Hin in Hp'.
  - intros Hv. specialize (Hc Hv). unfold idle_control in *. simpl.
    rewrite (proj1 Hk); [done|]. intros [= ->]. simpl in Hw. by destruct (rcur (control (mgr y))).
  - intros Hv. specialize (Hi Hv). unfold idle_io in *. simpl.
    rewrite (proj1 (proj2 Hk)); [done|]. intros [= ->]. simpl in Hw. by destruct (rcur (io (mgr y))).
Qed.

Lemma post_delayed_sim p accept y y' m :
  implements y m →
  post_delayed (L1:=L1) (L2:=L2) (L3:=L3) oor durable control_of io_of job_of p accept y = Some y' →
  ∃ ls m', run step ls m = Some m' ∧ implements y' m'.
Proof.
  intros Him E. unfold post_delayed in E.
  destruct (wants p (mgr y)) as [[b [t|t|j]]|] eqn:Hw; try done.
  destruct (inside y !! p) eqn:Hin; [done|]. destruct (0 <? _)%Z; [|done]. cbn [negb] in E.
  unfold JobRunners.manage in E.
  destruct (step (label_of p) (abs _ _ _ y)) as [m1|] eqn:E1;
    cbn [mbind option_bind] in E; [|by destruct b; [|destruct accept; repeat case_match]].
  destruct (manage_delayed _ _ _ _ _ _ Him Hw Hin E1) as (m' & E' & Hl' & Hw' & Hk & Hid).
  assert (implements (set_mgr m1 y) m' → b = false →
    ∃ ls m'', run step ls m = Some m'' ∧ implements (set_mgr m1 y) m'') as Hone.
  { intros Hgo _. exists [label_of p], m'. cbn [run]. by rewrite E'. }
  assert (b = false → implements (set_mgr m1 y) m') as Htest.
  { intros ->. change (set_mgr m1 y) with (set_delays (delayed y) (timers y) (set_mgr m1 y)).
    by eapply mgr_rebuild. }
  destruct b; cbn [mbind option_bind] in E; [|destruct accept].
  - injection E as <-. exists [label_of p], m'. cbn [run]. rewrite E'. split; [done|].
    eapply (mgr_rebuild p); try done. unfold part_exec. eapply like_perm; [exact Hl'|].
    unfold sys_queues, jobs_waiting. simpl. perm_solve.
  - destruct (b_closed _); [done|]. injection E as <-. by apply Hone; [apply Htest|].
  - change (b_closed (cr_view (re y))) with (b_closed (eview y)) in E.
    destruct (b_closed (eview y)) eqn:Ecl; cbn [mbind option_bind] in E.
    { injection E as <-. by apply Hone; [apply Htest|]. }
    destruct (step (label_of p) m1) as [m2|] eqn:E2; [|done]. cbn [mbind option_bind] in E. injection E as <-.
    cbn [post_effect] in Hl', Hid. rewrite <- Hid in E2. specialize (Hw' Ecl).
    destruct (like_post _ _ _ _ _ _ _ _ _ Hl' Hw' E2) as (-> & m'' & E'' & Hl'').
    destruct (like_lose oor durable _ _ _ _ _ (jobs_waiting y) _ _ _ Hl'') as (ls & r & Hrun & Hl3).
    { apply submseteq_inserts_r. done. }
    exists (label_of p :: label_of p :: ls), r. cbn [run]. rewrite E'. cbn [mbind option_bind].
    rewrite E''. cbn [mbind option_bind]. split; [done|].
    match goal with |- implements (set_mgr ?x y) _ =>
      change (set_mgr x y) with (set_delays (delayed y) (timers y) (set_mgr x y)) end.
    eapply (mgr_rebuild p); try done. apply (keeps_trans _ _ _ _ Hk), keeps_with, keeps_past_post.
Qed.

Lemma timer_lost_sim k y y' m :
  implements y m → timer_lost k y = Some y' → ∃ ls m', run step ls m = Some m' ∧ implements y' m'.
Proof.
  intros [Hr1 Hr2 Hr3 Hp Hc Hi Hl] E. unfold timer_lost in E.
  destruct (delayed y !! k) as [j|] eqn:Hk; simplify_eq/=.
  destruct (like_lose oor durable _ _ _ _ _
    (b_queue (eview y) ++ delete k (delayed y) ++ (timers y).*2) _ _ _ Hl) as (ls & m' & Hrun & Hl').
  { unfold jobs_waiting. apply submseteq_skips_l, submseteq_skips_r. apply submseteq_delete. }
  exists ls, m'. split; [done|]. by split.
Qed.

Lemma timer_posts_sim k n y y' m :
  implements y m → timer_posts (L3:=L3) job_task job_of k n y = Some y' → implements y' m.
Proof.
  intros Him E. pose proof Him as [Hr1 Hr2 Hr3 Hp Hc Hi Hl]. unfold timer_posts in E.
  destruct (delayed y !! k) as [j|] eqn:Hk; [|done]. cbn [mbind option_bind] in E.
  destruct (cr_step _ (re y)) as [r|] eqn:E1; [|done]. cbn [mbind option_bind] in E. injection E as <-.
  destruct (exec_post_view _ _ _ _ Hr3 E1) as (F1 & F2 & F3 & _). simpl in F1, F2, F3.
  pose proof (list_delete_perm _ _ _ Hk) as Hd.
  eapply (exec_rebuild r y (set_delays _ _ y) m); try done; [by econstructor| |].
  - assert (length (posts_at y ToExec) = length (b_posts (eview y))) as El by (simpl; by rewrite length_fmap).
    epose proof (posts_ok_timer (posts_at y) _ _ _ _ j Hp (posts_on_exec r _ y _ _ _ _)) as Hx.
    rewrite El in Hx. exact Hx.
    Unshelve. all: try done. simpl. by rewrite F1, fmap_app.
  - unfold part_exec. refine (like_perm _ _ _ _ _ _ _ _ _ _ _).
    1: { simpl. rewrite F3. exact Hl. }
    unfold jobs_waiting. simpl. revert Hd. generalize (delete k (delayed y)). intros d Hd.
    rewrite F2, Hd, fmap_app. simpl. perm_solve.
Qed.

Lemma sys_simulates : simulates sys_step step implements.
Proof.
  intros l y y' m Him E. destruct l as [l|p n|p|l who|l who|l who|k l|p a|k|k n]; simpl in E.
  - by eapply own_sim.
  - exists [], m. split; [done|]. by eapply enter_sim.
  - exists [], m. split; [done|]. by eapply leave_sim.
  - by eapply control_move_sim.
  - by eapply io_move_sim.
  - by eapply exec_move_sim.
  - by eapply shut_sim.
  - by eapply post_delayed_sim.
  - by eapply timer_lost_sim.
  - exists [], m. split; [done|]. by eapply timer_posts_sim.
Qed.

(** ** Wrappers and workers *)

(** Each of the live elements of [xs] has a running task of its own. *)
Lemma live_running {X Y} (f : X → option Y) (xs : list X) ws (run : list (option Y)) :
  length ws = length xs → NoDup ws →
  (∀ i x j w, xs !! i = Some x → f x = Some j → ws !! i = Some w → run !! w = Some (Some j)) →
  length (omap f xs) ≤ length (omap id run).
Proof.
  revert ws run. induction xs as [|x xs IH]; intros [|w ws] run Hlen Hn Hw; try done; simpl; [lia|].
  apply NoDup_cons in Hn as [Hnw Hn]. injection Hlen as Hlen.
  destruct (f x) as [j|] eqn:Hx.
  - pose proof (Hw 0 x j w eq_refl Hx eq_refl) as Hr.
    assert (length (omap id run) = Datatypes.S (length (omap id (<[w := None]> run)))) as ->.
    { rewrite (list_insert_perm _ _ _ None Hr), (list_delete_perm _ _ _ Hr) at 1. done. }
    simpl. apply le_n_S, (IH ws); [done..|]. intros i x' j' w' Hx' Hj' Hw'.
    rewrite list_lookup_insert_ne.
    + by apply (Hw (Datatypes.S i) x' j' w').
    + intros ->. apply Hnw. by eapply list_elem_of_lookup_2.
  - apply (IH ws); [done..|]. intros i. apply (Hw (Datatypes.S i)).
Qed.

Lemma running_own {X Y} (f : X → option Y) (run : list (option X)) :
  length (omap id ((λ x, x ≫= f) <$> run)) ≤ length (omap id run).
Proof.
  induction run as [|[x|] run IH]; csimpl; [lia| |done]. destruct (f x); simpl; lia.
Qed.

(** The wrappers that have not returned are tasks of the machine, each with
    its own worker. *)
Record works_ok y : Prop := {
  wk_length : length (works y) = length (exec (mgr y));
  wk_nodup : NoDup (works y);
  wk_bound w : w ∈ works y → w < length (b_running (eview y));
  wk_live i x j w : exec (mgr y) !! i = Some x → exec_job x = Some j → works y !! i = Some w →
    b_running (eview y) !! w = Some (Some j);
  wk_all w j : b_running (eview y) !! w = Some (Some j) → w ∈ works y;
}.

Lemma works_frame y y' :
  works_ok y → works y' = works y → keeps_jobs (mgr y) (mgr y') →
  b_running (eview y') = b_running (eview y) → works_ok y'.
Proof.
  intros [W1 W2 W3 W4 W5] Ew [El Ef] Er. split; rewrite ?Ew, ?Er; try done; [congruence|].
  intros i x j w Hx Hj Hw. destruct (Ef i x j Hx Hj) as (x0 & Hx0 & Hj0). by eapply W4.
Qed.

Lemma works_same y y' :
  works_ok y → works y' = works y → mgr y' = mgr y → b_running (eview y') = b_running (eview y) → works_ok y'.
Proof. intros Hw E1 E2 E3. apply (works_frame y); try done. apply same_follows. by rewrite E2. Qed.

Lemma manage_follows l y y1 :
  (∀ k, l ≠ LExecStart k) → manage l y = Some y1 →
  keeps_jobs (mgr y) (mgr y1) ∧ y1 = set_mgr (mgr y1) y.
Proof.
  intros Hl E. unfold JobRunners.manage in E. destruct (step l _) as [m1|] eqn:E1; [|done].
  cbn [mbind option_bind] in E. injection E as <-. split; [|done]. by apply step_follows in E1.
Qed.

Lemma react_follows {C} w take idle (a : option (Action C)) who y y1 :
  (∀ k, take ≠ LExecStart k) →
  react (L1:=L1) (L2:=L2) (L3:=L3) oor durable control_of io_of job_of w take idle a who y = Some y1 →
  keeps_jobs (mgr y) (mgr y1) ∧ y1 = set_mgr (mgr y1) y.
Proof.
  intros Ht E. unfold react in E.
  assert (keeps_jobs (mgr y) (mgr y) ∧ y = set_mgr (mgr y) y) as Hid.
  { split; [by apply same_follows|by destruct y]. }
  destruct a as [[[]| | | | | | | |]|], who as [p|]; try done; repeat case_match; simplify_eq; try done;
    try (by apply manage_follows in E).
  all: apply (manage_follows (label_of p)); [by destruct p|done].
Qed.

Lemma shut_follows k l y y' :
  reachable cr_step cr_init (re y) →
  shut (L1:=L1) (L2:=L2) (L3:=L3) oor durable control_of io_of job_of k l y = Some y' →
  works y' = works y ∧ keeps_jobs (mgr y) (mgr y') ∧ b_running (eview y') = b_running (eview y).
Proof.
  intros Hr3 E. unfold shut in E. destruct (calls (mgr y) !! k) as [c|]; [|done]. cbn [mbind option_bind] in E.
  destruct (negb _); [done|].
  assert (∀ y1, manage (LCallStep false k) y = Some y1 →
    keeps_jobs (mgr y) (mgr y1) ∧ y1 = set_mgr (mgr y1) y) as Hm
    by (intros y1; by apply manage_follows).
  destruct (call_pc c) as [| | | | |[|[|[|[|[|n]]]]]|], l as [l|l|l]; try done;
    (destruct (sr_action _ _) as [[]|] || destruct (cr_action _ _) as [[]|] eqn:Ea); try done;
    (destruct (sr_step _ _) as [r|] eqn:E1 || destruct (cr_step _ _) as [r|] eqn:E1); try done;
    cbn [mbind option_bind] in E; destruct (manage _ y) as [y1|]; try done;
    cbn [mbind option_bind] in E; injection E as <-; destruct (Hm _ eq_refl) as [Hf ->]; split_and!; try done.
  pose proof (exec_follows _ _ _ Hr3 E1) as Hx. rewrite Ea in Hx.
  destruct Hx as (v & [= <-] & _ & _ & _ & F4). exact F4.
Qed.

Lemma works_start y y' k j :
  works_ok y → works y' = works y ++ [length (b_running (eview y))] →
  exec (mgr y') = exec (mgr y) ++ [EBegun j] → b_running (eview y') = b_running (eview y) ++ [Some j] →
  b_queue (eview y) !! k = Some j → works_ok y'.
Proof.
  intros [W1 W2 W3 W4 W5] Ew Ee Er _. split; rewrite ?Ew, ?Ee, ?Er, ?length_app, ?W1; try done.
  - apply NoDup_app. split_and!; [done| |apply NoDup_singleton].
    intros w Hw ->%list_elem_of_singleton. specialize (W3 _ Hw). lia.
  - intros w [Hw| ->%list_elem_of_singleton]%elem_of_app; [specialize (W3 _ Hw)|]; cbn [length]; lia.
  - intros i x j' w [Hx|[Hi Hx]]%lookup_app_Some Hj Hw.
    + pose proof (lookup_lt_Some _ _ _ Hx). rewrite lookup_app_l in Hw by lia.
      rewrite lookup_app_l; [by eapply W4|]. apply W3. by eapply list_elem_of_lookup_2.
    + apply list_lookup_singleton_Some in Hx as [E <-]. simplify_eq/=.
      rewrite lookup_app_r in Hw by lia. replace (i - length (works y)) with 0 in Hw by lia. simplify_eq/=.
      by rewrite lookup_snoc_length.
  - intros w j' [Hw|[Hge Hw]]%lookup_app_Some.
    + apply elem_of_app. left. by eapply W5.
    + apply elem_of_app. right. apply list_elem_of_singleton.
      apply lookup_lt_Some in Hw as Hlt. cbn [length] in Hlt. lia.
Qed.

Lemma works_other y y' :
  works_ok y → works y' = works y → mgr y' = mgr y →
  b_running (eview y') = b_running (eview y) ++ [None] → works_ok y'.
Proof.
  intros [W1 W2 W3 W4 W5] Ew Ee Er. split; rewrite ?Ew, ?Ee, ?Er, ?length_app; try done.
  - intros w Hw. specialize (W3 w Hw). cbn [length]. lia.
  - intros i x j w Hx Hj Hw. apply lookup_app_l_Some. by eapply W4.
  - intros w j [Hw|[_ Hw]]%lookup_app_Some; [by eapply W5|].
    by apply list_lookup_singleton_Some in Hw as [_ ?].
Qed.

Lemma works_end y y' w :
  works_ok y → works y' = works y → mgr y' = mgr y → worker_done w y = true →
  b_running (eview y') = <[w := None]> (b_running (eview y)) → works_ok y'.
Proof.
  intros [W1 W2 W3 W4 W5] Ew Ee Hd Er. unfold worker_done in Hd.
  destruct (list_find _ _) as [[i v]|] eqn:Ef; [|done]. apply list_find_Some in Ef as (Hi & -> & _).
  destruct (exec (mgr y) !! i) as [[]|] eqn:Hx; try done.
  split; rewrite ?Ew, ?Ee, ?Er, ?length_insert; try done.
  - intros i' x j w' Hx' Hj Hw'. destruct (decide (w' = w)) as [->|Hne].
    + assert (i' = i) as -> by (by eapply NoDup_lookup). simplify_eq.
    + rewrite list_lookup_insert_ne by done. by eapply W4.
  - intros w' j. destruct (decide (w' = w)) as [->|Hne].
    + intros _. by eapply list_elem_of_lookup_2.
    + rewrite list_lookup_insert_ne by done. apply W5.
Qed.

Lemma works_delayed p acc y y' :
  works_ok y →
  post_delayed (L1:=L1) (L2:=L2) (L3:=L3) oor durable control_of io_of job_of p acc y = Some y' → works_ok y'.
Proof.
  intros Hw E. unfold post_delayed in E. destruct (wants p (mgr y)) as [[b [| |j]]|]; try done.
  destruct (inside y !! p); [done|]. destruct (negb _); [done|].
  assert (∀ k, label_of (Handler:=Handler) p ≠ LExecStart k) as Hl by (by destruct p).
  assert (∀ y1, manage (label_of p) y = Some y1 → keeps_jobs (mgr y) (mgr y1) ∧ y1 = set_mgr (mgr y1) y) as Hm
    by (intros y1; by apply manage_follows).
  destruct b; [|destruct acc; destruct (b_closed _)].
  - destruct (manage _ y) as [y1|]; [|done]. cbn [mbind option_bind] in E. injection E as <-.
    destruct (Hm _ eq_refl) as [Hf ->]. by apply (works_frame y).
  - done.
  - destruct (Hm _ E) as [Hf ->]. by apply (works_frame y).
  - destruct (Hm _ E) as [Hf ->]. by apply (works_frame y).
  - destruct (step (label_of p) _) as [m1|] eqn:E1; [|done]. cbn [mbind option_bind] in E.
    destruct (step (label_of p) m1) as [m2|] eqn:E2; [|done]. cbn [mbind option_bind] in E. injection E as <-.
    apply step_follows in E1 as [L E1]; [|done]. apply step_follows in E2 as [L' E2]; [|done].
    apply (works_frame y); try done. simpl. split; [by rewrite L', L|].
    intros i x j' Hx Hj. destruct (E2 i x j' Hx Hj) as (x1 & Hx1 & Hj1). by apply (E1 i x1 j').
Qed.

Lemma works_exec_move l who y y' :
  reachable cr_step cr_init (re y) → works_ok y →
  exec_move (L1:=L1) (L2:=L2) (L3:=L3) oor durable control_of io_of job_of l who y = Some y' → works_ok y'.
Proof.
  intros Hr3 Hw E. unfold exec_move in E.
  destruct (cr_step l (re y)) as [r|] eqn:E1; [|done]. cbn [mbind option_bind] in E.
  pose proof (exec_follows _ _ _ Hr3 E1) as Hf.
  destruct (react_exec _ _ _ _ _ _ _ _) as [y1|] eqn:Er; [|done]. cbn [mbind option_bind] in E. injection E as <-.
  change (own_bag job_of (cr_view r)) with (eview (set_re r y)) in Hf.
  set (a := cr_action l (re y) ≫= _) in *. clearbody a. unfold react_exec in Er.
  destruct a as [a|]; simpl in Hf.
  2:{ destruct who; [done|]. injection Er as <-. destruct Hf as (_ & _ & F & _). by apply (works_same y). }
  destruct Hf as (v & Hv & _ & _ & _ & F4). unfold bag_act in Hv.
  assert (∀ p y1, manage (label_of p) y = Some y1 → keeps_jobs (mgr y) (mgr y1) ∧ y1 = set_mgr (mgr y1) y) as Hm
    by (intros p y2; apply manage_follows; by destruct p).
  destruct a as [p|i|i|k| |w|]; [| | | | | |by destruct who].
  - destruct p as [x|x|], who; try done. injection Er as <-. injection Hv as <-. by apply (works_same y).
  - destruct (b_posts (eview y) !! i) as [[j|j|]|]; simplify_eq. destruct who as [[p|t]|]; [| |done].
    + case_bool_decide; [|done]. destruct (Hm _ _ Er) as [Hk ->]. by apply (works_frame y).
    + destruct (timers y !! t) as [[i' j']|]; [|done]. cbn [mbind option_bind] in Er.
      destruct (negb _); [done|]. injection Er as <-. apply (works_same y); try done; by destruct (b_closed _).
  - destruct (b_posts (eview y) !! i) as [[j|j|]|]; simplify_eq. destruct who as [[p|t]|]; [| |done].
    + case_bool_decide; [|done]. destruct (Hm _ _ Er) as [Hk ->]. by apply (works_frame y).
    + destruct (timers y !! t) as [[i' j']|]; [|done]. cbn [mbind option_bind] in Er.
      destruct (negb _); [done|]. injection Er as <-. by apply (works_same y).
  - destruct (b_queue (eview y) !! k) as [j|] eqn:Ek; [|done]. cbn [mbind option_bind] in Hv. simplify_eq.
    destruct who; [done|]. unfold JobRunners.manage in Er.
    destruct (step (LExecStart k) _) as [m1|] eqn:E2; [|done].
    cbn [mbind option_bind] in Er. injection Er as <-.
    unfold abs in E2. rewrite (take_exec_with _ _ _ j) in E2 by (by apply lookup_app_l_Some).
    injection E2 as <-. by apply (works_start y _ k j).
  - destruct who; [done|]. injection Er as <-. injection Hv as <-. by apply (works_other y).
  - destruct (b_running (eview y) !! w) as [[j|]|]; simplify_eq. destruct who; [done|].
    destruct (worker_done w y) eqn:Hd; [|done]. injection Er as <-. by apply (works_end y _ w).
Qed.

Lemma works_step l y y' m : implements y m → works_ok y → sys_step l y = Some y' → works_ok y'.
Proof.
  intros Him Hw E. pose proof (im_re _ _ Him) as Hr3.
  destruct l as [l|p n|p|l who|l who|l who|k l|p acc|k|k n]; simpl in E.
  - unfold own_step in E. destruct (plain l (mgr y)) eqn:Hp; [|done]. destruct (may_move _ _); [|done].
    apply manage_follows in E as [Hf ->]; [|by intros k ->]. by apply (works_frame y).
  - unfold enter in E. destruct (wants p (mgr y)) as [[[] v]|]; try done. destruct (inside y !! p); [done|].
    destruct v as [t|t|j].
    + destruct (sr_step _ _) as [r|]; simplify_eq/=. by apply (works_same y).
    + destruct (sr_step _ _) as [r|]; simplify_eq/=. by apply (works_same y).
    + destruct (0 <? _)%Z; [done|]. destruct (cr_step _ _) as [r|] eqn:E1; [|done].
      cbn [mbind option_bind] in E. injection E as <-.
      destruct (exec_post_view _ _ _ _ Hr3 E1) as (_ & _ & _ & F4). by apply (works_same y).
  - unfold leave in E. destruct (inside y !! p) as [[w i]|]; [|done]. cbn [mbind option_bind] in E.
    destruct (match w with ToControl => _ | _ => _ end); simplify_eq. by apply (works_same y).
  - unfold control_move in E. destruct (sr_step _ _) as [r|]; [|done]. cbn [mbind option_bind] in E.
    destruct (react _ _ _ _ _ _ _ _) as [y1|] eqn:Er; [|done]. cbn [mbind option_bind] in E. injection E as <-.
    apply react_follows in Er as [Hf ->]; [|done]. by apply (works_frame y).
  - unfold io_move in E. destruct (sr_step _ _) as [r|]; [|done]. cbn [mbind option_bind] in E.
    destruct (react _ _ _ _ _ _ _ _) as [y1|] eqn:Er; [|done]. cbn [mbind option_bind] in E. injection E as <-.
    apply react_follows in Er as [Hf ->]; [|done]. by apply (works_frame y).
  - by eapply works_exec_move.
  - apply shut_follows in E as (E1 & E2 & E3); [|done]. by apply (works_frame y).
  - by eapply works_delayed.
  - unfold timer_lost in E. destruct (delayed y !! k); simplify_eq/=. by apply (works_same y).
  - unfold timer_posts in E. destruct (delayed y !! k); [|done]. cbn [mbind option_bind] in E.
    destruct (cr_step _ _) as [r|] eqn:E1; [|done]. cbn [mbind option_bind] in E. injection E as <-.
    destruct (exec_post_view _ _ _ _ Hr3 E1) as (_ & _ & _ & F4). by apply (works_same y).
Qed.

(** ** Reachable states *)

Notation new := (NewSystem (S:=S) (Handler:=Handler) (R1:=R1) (L1:=L1) (A1:=A1) (R2:=R2) (L2:=L2) (A2:=A2)
  (R3:=R3) (L3:=L3) (A3:=A3)).

Lemma control_init s :
  ∃ n, cview (new s) = MkAbstract (replicate n Away) [] false None.
Proof.
  unfold control_view. destruct (sr_new (R:=R1) (L:=L1) (A:=A1)) as [n Hn]. exists n. simpl. rewrite Hn.
  unfold own. simpl. by rewrite fmap_replicate.
Qed.
Lemma io_init s : ∃ n, iview (new s) = MkAbstract (replicate n Away) [] false None.
Proof.
  unfold io_view. destruct (sr_new (R:=R2) (L:=L2) (A:=A2)) as [n Hn]. exists n. simpl. rewrite Hn.
  unfold own. simpl. by rewrite fmap_replicate.
Qed.
Lemma exec_init s : eview (new s) ≡ MkBag [] [] false [].
Proof.
  destruct (cr_new (R:=R3) (L:=L3) (A:=A3)) as (E1 & E2 & E3 & E4). simpl in *.
  repeat split; simpl; by rewrite ?E1, ?E2, ?E3, ?E4.
Qed.

Lemma system_init s : implements (new s) (NewJobManager s).
Proof.
  destruct (control_init s) as [n Hc], (io_init s) as [n' Hi].
  destruct (exec_init s) as (E1 & E2 & E3 & E4). simpl in E1, E2, E3.
  split; try done; [by constructor..| |].
  - split; simpl; try done; try (by intros *; rewrite ?lookup_empty); [intros ? ? []%elem_of_nil|constructor|].
    intros w i q v Hq Hb. assert (q = Away) as ->; [|by destruct Hb].
    destruct w; cbn [posts_at] in Hq.
    + rewrite Hc in Hq. simpl in Hq. rewrite fmap_replicate in Hq. by apply lookup_replicate in Hq as [-> _].
    + rewrite Hi in Hq. simpl in Hq. rewrite fmap_replicate in Hq. by apply lookup_replicate in Hq as [-> _].
    + simpl in Hq. by rewrite E1 in Hq.
  - symmetry in E2. apply Permutation_nil in E2.
    exists []. unfold sys_queues. rewrite Hc, Hi. unfold jobs_waiting. simpl. by rewrite E2, E3.
Qed.
Lemma works_init s : works_ok (new s).
Proof.
  destruct (exec_init s) as (E1 & E2 & E3 & E4). simpl in E4.
  split; simpl; rewrite ?E4; try done; [apply NoDup_nil_2|set_solver].
Qed.

Lemma sys_reach s y :
  reachable sys_step (new s) y →
  ∃ m, reachable step (NewJobManager s) m ∧ implements y m.
Proof. apply (simulation_reachable _ _ _ _ _ _ sys_simulates (system_init s)). Qed.
Lemma works_reach s y : reachable sys_step (new s) y → works_ok y.
Proof.
  apply (reachable_invariant_with sys_step (λ y, ∃ m, implements y m)).
  - intros y' Hy. destruct (sys_reach s y' Hy) as (m & _ & Him). by exists m.
  - apply works_init.
  - intros l y1 y2 [m Him] Hw E. by eapply works_step.
Qed.

(** Every wrapper that has not returned is the task of a worker of its own. *)
Lemma live_wrappers y :
  works_ok y →
  length (omap exec_job (exec (mgr y))) ≤ length (omap id (b_running (cr_view (L:=L3) (re y)))).
Proof.
  intros [W1 W2 W3 W4 W5]. etransitivity; [|apply (running_own job_of)].
  by apply (live_running exec_job _ (works y)).
Qed.
End refinement.

(** ** Theorems *)

Section system_theorems.
Context {S Handler : Type} `{Hops : JobStoreOps S} {contents : S → gmap string JobEntity}.
Context `{!JobStoreLaws S contents} (oor : SpecFloat.spec_float → Z).
Context {R1 L1 A1 R2 L2 A2 R3 L3 A3 : Type}.
Context `{StrictRunner R1 L1 A1, StrictRunner R2 L2 A2, ConcurrentRunner R3 L3 A3}.
Context (control_task : nat → ControlTask Handler → A1) (control_of : A1 → option (ControlTask Handler)).
Context (io_task : nat → IoTask Handler → A2) (io_of : A2 → option (IoTask Handler)).
Context (job_task : nat → Job Handler → A3) (job_of : A3 → option (Job Handler)).
Context (control_own : ∀ n t, control_of (control_task n t) = Some t)
  (io_own : ∀ n t, io_of (io_task n t) = Some t) (job_own : ∀ n j, job_of (job_task n j) = Some j).
Notation sys_step := (sys_step (L1:=L1) (L2:=L2) (L3:=L3) oor true control_task control_of
  io_task io_of job_task job_of).
Notation new := (NewSystem (S:=S) (Handler:=Handler) (R1:=R1) (L1:=L1) (A1:=A1) (R2:=R2) (L2:=L2) (A2:=A2)
  (R3:=R3) (L3:=L3) (A3:=A3)).

(** C6. The JobManager on the machines of its runners (two sequential ones and one that runs
    jobs at once, all shared with other clients, delayed jobs waiting in the pool) refines
    JobManager.v: every reachable state of the manager, with the queues of the three machines
    for its own (the jobs of the execution runner in some order), is reachable there. So,
    provided that every retry policy in force has 0 <= MaxRetries < 2^63-1, a submission that
    has returned nil is in the store with its payload and was posted for execution, unless the
    machine of the execution runner was shut down. (The refinement itself has no condition on
    the policies.) *)
Theorem jm_on_runners s y :
  reachable sys_step (new s) y →
  (∃ q, q ≡ₚ jobs_waiting (L3:=L3) job_of y ∧
     reachable (JobManager.step oor true) (NewJobManager s)
       (with_queues (put_exec q (sys_queues (L1:=L1) (L2:=L2) (L3:=L3) control_of io_of job_of y)) (mgr y))) ∧
  (Forall good_policy (policies (hist (mgr y))) →
   ∀ c e serialize_err delay,
     c ∈ calls (mgr y) → call_op c = OpSubmit e serialize_err delay → call_pc c = PcRet None →
     (∃ j, contents (store (mgr y)) !! ID e = Some j ∧ payload j = payload e) ∧
     (ID e ∈ scheduled (hist (mgr y)) ∨ b_closed (cr_view (L:=L3) (re y)) = true)).
Proof.
  intros Hy. destruct (sys_reach oor true control_task control_of io_task io_of job_task job_of
    control_own io_own job_own s y Hy) as (m & Hm & Him).
  pose proof (im_like _ _ _ _ _ Him) as (q & Hq & ->). split; [by exists q|].
  intros Hpol c e se d Hc Ho Hpc.
  exact (jm_ack oor s _ c e se d Hm Hpol Hc Ho Hpc).
Qed.
End system_theorems.

(** With a ParallelTaskRunner for the jobs *)
Section parallel_executor.
Context {S Handler : Type} `{JobStoreOps S}.
Context (oor : SpecFloat.spec_float → Z) (durable : bool).
Context {R1 L1 A1 R2 L2 A2 Q T : Type}.
Context `{StrictRunner R1 L1 A1, StrictRunner R2 L2 A2, EqDecision T, FIFOOrder Q (Parallel.PTask T)}.
Context (maxConcurrency : Z).
Context (control_task : nat → ControlTask Handler → A1) (control_of : A1 → option (ControlTask Handler)).
Context (io_task : nat → IoTask Handler → A2) (io_of : A2 → option (IoTask Handler)).
Context (job_task : nat → Job Handler → T) (job_of : T → option (Job Handler)).
Context (control_own : ∀ n t, control_of (control_task n t) = Some t)
  (io_own : ∀ n t, io_of (io_task n t) = Some t) (job_own : ∀ n j, job_of (job_task n j) = Some j).
#[local] Instance executor : ConcurrentRunnerOps (Parallel.ParallelTaskRunner Q T) (Parallel.Label T) T :=
  parallel_ops maxConcurrency.
Notation sys_step := (sys_step (L1:=L1) (L2:=L2) (R3:=Parallel.ParallelTaskRunner Q T)
  (L3:=Parallel.Label T) oor durable control_task control_of io_task io_of job_task job_of).
Notation new := (NewSystem (S:=S) (Handler:=Handler) (R1:=R1) (L1:=L1) (A1:=A1) (R2:=R2) (L2:=L2) (A2:=A2)
  (R3:=Parallel.ParallelTaskRunner Q T) (L3:=Parallel.Label T) (A3:=T)).

Lemma running_bodies (r : Parallel.ParallelTaskRunner Q T) :
  length (omap id (running_task <$> Parallel.pworkers r)) ≤ length (Parallel.pworkers r ≫= Parallel.in_body).
Proof.
  induction (Parallel.pworkers r) as [|w l IH]; [done|]. csimpl. rewrite length_app.
  destruct w; simpl; try lia. destruct (user it); simpl; lia.
Qed.

(** C17. A JobManager whose execution runner is a ParallelTaskRunner never has more than
    maxConcurrency jobs between the start of their wrapper and its return, handlers included,
    whatever its callers, its other runners, timers and the pool do. *)
Theorem jm_jobs_bounded s r0 y :
  Parallel.NewParallelTaskRunner (Q:=Q) (T:=T) maxConcurrency false = Ret r0 →
  reachable sys_step (new s) y →
  (Z.of_nat (length (omap exec_job (exec (mgr y)))) <= maxConcurrency)%Z.
Proof.
  intros [Hmax ->]%Parallel.new_bounds Hy.
  destruct (sys_reach oor durable control_task control_of io_task io_of job_task job_of
    control_own io_own job_own s y Hy) as (m & _ & Him).
  pose proof (live_wrappers job_of y (works_reach oor durable control_task control_of io_task io_of job_task job_of
    control_own io_own job_own s y Hy)) as Hl.
  pose proof (im_re _ _ _ _ _ Him) as Hr. simpl in Hr.
  destruct (Parallel.pi_count _ _ (Parallel.par_inv_reach maxConcurrency Hmax _ Hr)) as (Hc & Hb & _).
  pose proof (Parallel.bodies_live (re y)) as Hbl. pose proof (running_bodies (re y)) as Hrb.
  simpl in Hl. unfold Parallel.live, Parallel.bodies, Parallel.pc_live in *.
  destruct (Parallel.pc (re y)); lia.
Qed.
End parallel_executor.

(** ** A concrete run: two SequencedTaskRunners, a ParallelTaskRunner with two
    slots, and the memory store *)

Module RunnersDemo.
Import JobDemo.
Notation CTask := (option (ControlTask nat)).
Notation ITask := (option (IoTask nat)).
Notation JTask := (option (Job nat)).
#[export] Instance job_eq_dec : EqDecision (Job nat).
Proof. solve_decision. Defined.
#[export] Instance ctask_zero : GoZero CTask := None.
#[export] Instance itask_zero : GoZero ITask := None.
#[export] Instance jtask_zero : GoZero JTask := None.
#[export] Instance ptask_zero : GoZero (Parallel.PTask JTask) := Parallel.PTask_zero.
#[export] Instance demo_queue {T} `{GoZero T} : TaskQueue (FIFOQueue.FIFOTaskQueue T) T :=
  FIFOQueue.FIFO_TaskQueue grow_double.
#[export] Instance demo_laws {T} `{GoZero T} : TaskQueueLaws (FIFOQueue.FIFOTaskQueue T) T :=
  FIFOQueue.FIFO_Laws grow_double grow_double_ok.
#[export] Instance demo_order {T} `{GoZero T} : FIFOOrder (FIFOQueue.FIFOTaskQueue T) T :=
  FIFOQueue.FIFO_Order grow_double grow_double_ok.

Notation R1 := (Sequenced.SequencedTaskRunner (FIFOQueue.FIFOTaskQueue CTask) CTask).
Notation R2 := (Sequenced.SequencedTaskRunner (FIFOQueue.FIFOTaskQueue ITask) ITask).
Notation R3 := (Parallel.ParallelTaskRunner (FIFOQueue.FIFOTaskQueue (Parallel.PTask JTask)) JTask).
Notation L1 := (Sequenced.Label CTask).
Notation L2 := (Sequenced.Label ITask).
Notation L3 := (Parallel.Label JTask).
#[export] Instance two_slots : ConcurrentRunnerOps R3 L3 JTask := parallel_ops 2.
#[export] Instance two_slots_runner : ConcurrentRunner R3 L3 JTask := parallel_runner 2.
Definition item {T} (n : nat) (t : T) : TaskItem (option T) :=
  MkTaskItem (Some t) DefaultTaskTraits (N.of_nat n).

Definition sys := System (S:=gmap string JobEntity * Z) (Handler:=nat) (R1:=R1) (R2:=R2) (R3:=R3).
Definition start : sys :=
  NewSystem (L1:=L1) (A1:=TaskItem CTask) (L2:=L2) (A2:=TaskItem ITask) (L3:=L3) (A3:=JTask) (∅, 7%Z).
Notation L := (SysLabel (Handler:=nat) (L1:=L1) (L2:=L2) (L3:=L3)).
Definition step : L → sys → option sys :=
  sys_step no_float true item item_Task item item_Task (λ _, Some) id.

Definition posters : list Poster := [PCall 0; PCall 1; PControl; PIo; PExec 0].
Definition who : list (option Poster) := None :: (Some <$> posters).
Definition who_exec : list (option (Poster + nat)) := None :: (Some ∘ inl <$> posters) ++ [Some (inr 0)].
(** Everything moves as far as it can, but for the handlers. *)
Definition moves : list L :=
  (LLeave <$> posters) ++ ((λ p, LEnter p 1) <$> posters) ++
  [LOwn (LCallStep false 0); LOwn (LCallStep false 1); LOwn (LControl false); LOwn (LIo true false);
   LOwn (LExecStep 0)] ++
  (i ← seq 0 14; w ← who; [LControlRunner (Sequenced.LThread i true) w]) ++
  (i ← seq 0 14; w ← who; [LIoRunner (Sequenced.LThread i true) w]) ++
  [LControlRunner (Sequenced.LTake 0) None; LIoRunner (Sequenced.LTake 0) None] ++
  (i ← seq 0 2; w ← who_exec; [LExecRunner (Parallel.LCaller i true) w]) ++
  [LExecRunner (Parallel.LSched true) None; LExecRunner (Parallel.LTake 0) None;
   LExecRunner (Parallel.LWorker 0) None].

Definition go_to (ls : list L) : sys := default start (run step ls start).
Definition registered : list L :=
  let l := [LOwn (LCall (OpRegister "email" 3) 0)] in l ++ drive step 60 moves (go_to l).
Definition submitted : list L :=
  let l := registered ++ [LOwn (LCall (OpSubmit (an_email "a") None 0) 1)] in l ++ drive step 200 moves (go_to l).
(** The handler of job "a" returns. *)
Definition finished : list L :=
  let l := submitted ++ [LOwn (LExecEnd 0 (HReturn None))] in l ++ drive step 200 moves (go_to l).
(** The same job with a delay: the pool's timer posts it. *)
Definition delayed_run : list L :=
  let l := registered ++ [LOwn (LCall (OpSubmit (an_email "a") None 9) 1)] in
  l ++ drive step 200 (moves ++ [LDelayed PIo true; LTimer 0 1]) (go_to l).

Lemma sys_go_to_reach ls :
  bool_decide (is_Some (run step ls start)) = true → reachable step start (go_to ls).
Proof.
  intros Hb. apply bool_decide_eq_true in Hb as [y E]. unfold go_to. rewrite E. by eapply run_reachable.
Qed.
End RunnersDemo.
Import JobDemo RunnersDemo.

Example delayed_job_runs :
  let y := go_to delayed_run in
  call_pc <$> calls (mgr y) = [PcRet None; PcRet None] ∧ (ID <$> (job_entity <$> omap exec_job (exec (mgr y)))) = ["a"] ∧
  timers y = [] ∧ delayed y = [].
Proof. vm_compute. repeat split. Qed.

Lemma jm_on_runners_witness :
  let y := go_to finished in
  ((∃ j, (store (mgr y)).1 !! "a" = Some j ∧ payload j = ("a", "email", [], 1%Z)) ∧
   ("a" ∈ scheduled (hist (mgr y)) ∨ b_closed (cr_view (L:=L3) (re y)) = true)) ∧
  status_of <$> (store (mgr y)).1 !! "a" = Some (JobStatusCompleted, "").
Proof.
  split; [|vm_compute; reflexivity].
  assert (reachable step start (go_to finished)) as Hr.
  { apply sys_go_to_reach. vm_compute. reflexivity. }
  destruct (jm_on_runners (contents:=fst) no_float item item_Task item item_Task (λ _, Some) id
    (λ _ _, eq_refl) (λ _ _, eq_refl) (λ _ _, eq_refl) (∅, 7%Z) _ Hr) as [_ Hack].
  apply (Hack (default_policies _ ltac:(vm_compute; reflexivity))
    (MkCall (OpSubmit (an_email "a") None 0) [CallerCtx 1] (PcRet None)) (an_email "a") None 0%Z).
  - apply (list_elem_of_lookup_2 _ 1). vm_compute. reflexivity.
  - reflexivity.
  - reflexivity.
Defined.

Lemma jm_jobs_bounded_witness :
  let y := go_to submitted in
  (Z.of_nat (length (omap exec_job (exec (mgr y)))) <= 2)%Z ∧
  length (omap exec_job (exec (mgr y))) = 1.
Proof.
  split; [|vm_compute; reflexivity].
  apply (jm_jobs_bounded (H:=_) no_float true 2 item item_Task item item_Task (λ _, Some) id
    (λ _ _, eq_refl) (λ _ _, eq_refl) (λ _ _, eq_refl) (∅, 7%Z) Parallel.runner0).
  - reflexivity.
  - apply (sys_go_to_reach submitted). vm_compute. reflexivity.
Defined.
