(* ===== verification/SQLiteModule.v ===== *)
(** * The SQLite store as a module of its own
    (job/sqlite/sqlite_job_store.go, job/sqlite/db)

    The module job/sqlite holds a second implementation of the store, with its
    own package of generated queries, for programs that do not want the driver
    in the main module.  Modules [db] and [sqlite] translate it the way
    SQLiteStore.v translates the first one.  The two are kept in step by hand;
    here they are proved interchangeable: on every database, whether it keeps
    any law or not, every sequence of commands gives the same answers and
    leaves the same database.  So what is proved of one holds of the other. *)

From S2P Require Import Prelude JobStore SQLiteStore SQLiteMemory.
From S2P Require Import Retry JobManager JobDurability JobSqlite.
Local Open Scope go_scope.

(** ** The generated queries: job/sqlite/db *)

Module db.

Record Job := MkJob {
  ID : string;
  Type_ : string;
  ArgsData : list Byte.byte;
  Status : string;
  Result : string;
  Priority : Z;
  CreatedAt : Z;
  UpdatedAt : Z;
}.

Record InsertJobParams := MkInsert {
  i_ID : string; i_Type : string; i_ArgsData : list Byte.byte; i_Status : string;
  i_Result : string; i_Priority : Z; i_CreatedAt : Z; i_UpdatedAt : Z }.
Record UpsertJobParams := MkUpsert {
  p_ID : string; p_Type : string; p_ArgsData : list Byte.byte; p_Status : string;
  p_Result : string; p_Priority : Z; p_CreatedAt : Z; p_UpdatedAt : Z }.
Record ListAllJobsParams := MkListAll { a_Column1 : Z; a_Column2 : Z; a_Offset : Z }.
Record ListJobsByStatusParams := MkListStatus {
  s_Status : string; s_Column2 : Z; s_Column3 : Z; s_Offset : Z }.
Record ListJobsByStatusAndTypeParams := MkListBoth {
  b_Status : string; b_Type : string; b_Column3 : Z; b_Column4 : Z; b_Offset : Z }.
Record ListJobsByTypeParams := MkListType {
  t_Type : string; t_Column2 : Z; t_Column3 : Z; t_Offset : Z }.
Record UpdateJobStatusParams := MkUpdate {
  u_Status : string; u_Result : string; u_UpdatedAt : Z; u_ID : string }.

Definition deleteJob : string := "-- name: DeleteJob :exec
DELETE FROM jobs WHERE id = ?
".
Definition getJob : string := "-- name: GetJob :one
SELECT id, type, args_data, status, result, priority, created_at, updated_at
FROM jobs
WHERE id = ?
".
Definition getPendingJobs : string := "-- name: GetPendingJobs :many
SELECT id, type, args_data, status, result, priority, created_at, updated_at
FROM jobs
WHERE status = 'PENDING'
ORDER BY created_at ASC
".
Definition insertJob : string := "-- name: InsertJob :exec
INSERT INTO jobs (id, type, args_data, status, result, priority, created_at, updated_at)
VALUES (?, ?, ?, ?, ?, ?, ?, ?)
".
Definition listAllJobs : string := "-- name: ListAllJobs :many
SELECT id, type, args_data, status, result, priority, created_at, updated_at
FROM jobs
ORDER BY created_at ASC
LIMIT CASE WHEN ? = 0 THEN -1 ELSE ? END
OFFSET ?
".
Definition listJobsByStatus : string := "-- name: ListJobsByStatus :many
SELECT id, type, args_data, status, result, priority, created_at, updated_at
FROM jobs
WHERE status = ?
ORDER BY created_at ASC
LIMIT CASE WHEN ? = 0 THEN -1 ELSE ? END
OFFSET ?
".
Definition listJobsByStatusAndType : string := "-- name: ListJobsByStatusAndType :many
SELECT id, type, args_data, status, result, priority, created_at, updated_at
FROM jobs
WHERE status = ? AND type = ?
ORDER BY created_at ASC
LIMIT CASE WHEN ? = 0 THEN -1 ELSE ? END
OFFSET ?
".
Definition listJobsByType : string := "-- name: ListJobsByType :many
SELECT id, type, args_data, status, result, priority, created_at, updated_at
FROM jobs
WHERE type = ?
ORDER BY created_at ASC
LIMIT CASE WHEN ? = 0 THEN -1 ELSE ? END
OFFSET ?
".
Definition updateJobStatus : string := "-- name: UpdateJobStatus :execresult
UPDATE jobs
SET status = ?, result = ?, updated_at = ?
WHERE id = ?
".
Definition upsertJob : string := "-- name: UpsertJob :exec
INSERT OR REPLACE INTO jobs (id, type, args_data, status, result, priority, created_at, updated_at)
VALUES (?, ?, ?, ?, ?, ?, ?, ?)
".

(** [Scan(&i.ID, &i.Type, ...)] into the fields of a [Job] *)
Definition Scan (row : list Value) : Job + Error :=
  match row with
  | [v1; v2; v3; v4; v5; v6; v7; v8] =>
      let* id := scan_string "id" v1 in
      let* type := scan_string "type" v2 in
      let* args_data := scan_bytes "args_data" v3 in
      let* status := scan_string "status" v4 in
      let* result := scan_string "result" v5 in
      let* priority := scan_int64 "priority" v6 in
      let* created_at := scan_time "created_at" v7 in
      let* updated_at := scan_time "updated_at" v8 in
      inl (MkJob id type args_data status result priority created_at updated_at)
  | _ => inr (ErrText "sql: expected 8 destination arguments in Scan")
  end.

(** The loop over [rows.Next], then [rows.Close] and [rows.Err] *)
Fixpoint items (next : list (list Value)) : list Job + Error :=
  match next with
  | [] => inl []
  | row :: next => let* i := Scan row in let* more := items next in inl (i :: more)
  end.
Definition rows_items (rows : Rows) : list Job + Error :=
  let* scanned := items (rs_next rows) in
  match rs_close rows, rs_err rows with
  | Some err, _ | None, Some err => inr err
  | None, None => inl scanned
  end.

Section queries.
Context {D : Type} `{DBTX D}.

(** [:exec] keeps the error, [:many] scans every row. *)
Definition exec (query : string) (args : list Value) (d : D) : D * option Error :=
  match ExecContext query args d with (d, inl _) => (d, None) | (d, inr err) => (d, Some err) end.
Definition query_many (query : string) (args : list Value) (d : D) : D * (list Job + Error) :=
  match QueryContext query args d with
  | (d, inl rows) => (d, rows_items rows)
  | (d, inr err) => (d, inr err)
  end.

Definition DeleteJob (id : string) (d : D) : D * option Error := exec deleteJob [VText id] d.
(** [QueryRowContext] keeps the first row; its [Scan] closes the rows. *)
Definition GetJob (id : string) (d : D) : D * (Job + Error) :=
  match QueryContext getJob [VText id] d with
  | (d, inr err) => (d, inr err)
  | (d, inl rows) =>
      (d, match rs_next rows, rs_err rows with
          | [], Some err => inr err
          | [], None => inr ErrNoRows
          | row :: _, _ =>
              let* i := Scan row in
              match rs_close rows with Some err => inr err | None => inl i end
          end)
  end.
Definition GetPendingJobs (d : D) : D * (list Job + Error) := query_many getPendingJobs [] d.
Definition InsertJob (arg : InsertJobParams) (d : D) : D * option Error :=
  exec insertJob
    [VText (i_ID arg); VText (i_Type arg); VBlob (i_ArgsData arg); VText (i_Status arg);
     VText (i_Result arg); VInt (i_Priority arg); VTime (i_CreatedAt arg); VTime (i_UpdatedAt arg)] d.
Definition ListAllJobs (arg : ListAllJobsParams) (d : D) : D * (list Job + Error) :=
  query_many listAllJobs [VInt (a_Column1 arg); VInt (a_Column2 arg); VInt (a_Offset arg)] d.
Definition ListJobsByStatus (arg : ListJobsByStatusParams) (d : D) : D * (list Job + Error) :=
  query_many listJobsByStatus
    [VText (s_Status arg); VInt (s_Column2 arg); VInt (s_Column3 arg); VInt (s_Offset arg)] d.
Definition ListJobsByStatusAndType (arg : ListJobsByStatusAndTypeParams) (d : D)
  : D * (list Job + Error) :=
  query_many listJobsByStatusAndType
    [VText (b_Status arg); VText (b_Type arg); VInt (b_Column3 arg); VInt (b_Column4 arg);
     VInt (b_Offset arg)] d.
Definition ListJobsByType (arg : ListJobsByTypeParams) (d : D) : D * (list Job + Error) :=
  query_many listJobsByType
    [VText (t_Type arg); VInt (t_Column2 arg); VInt (t_Column3 arg); VInt (t_Offset arg)] d.
Definition UpdateJobStatus (arg : UpdateJobStatusParams) (d : D) : D * (SqlResult + Error) :=
  ExecContext updateJobStatus
    [VText (u_Status arg); VText (u_Result arg); VTime (u_UpdatedAt arg); VText (u_ID arg)] d.
Definition UpsertJob (arg : UpsertJobParams) (d : D) : D * option Error :=
  exec upsertJob
    [VText (p_ID arg); VText (p_Type arg); VBlob (p_ArgsData arg); VText (p_Status arg);
     VText (p_Result arg); VInt (p_Priority arg); VTime (p_CreatedAt arg); VTime (p_UpdatedAt arg)] d.
End queries.
End db.

(** ** The store: job/sqlite *)

Module sqlite.

Definition sqliteSchema : string := "
CREATE TABLE IF NOT EXISTS jobs (
    id         TEXT     NOT NULL PRIMARY KEY,
    type       TEXT     NOT NULL,
    args_data  BLOB,
    status     TEXT     NOT NULL DEFAULT 'PENDING',
    result     TEXT     NOT NULL DEFAULT '',
    priority   INTEGER  NOT NULL DEFAULT 0,
    created_at DATETIME NOT NULL,
    updated_at DATETIME NOT NULL
);
CREATE INDEX IF NOT EXISTS idx_jobs_status ON jobs (status);
CREATE INDEX IF NOT EXISTS idx_jobs_type   ON jobs (type);
".

(** [sqliteErr.Code()&0xFF == sqlite3.SQLITE_CONSTRAINT] of the driver's error,
    wherever it is in the chain *)
Definition isUniqueConstraintError (err : Error) : bool :=
  match SQLite.As_sqlite err with
  | None => false
  | Some code => (Z.land code 0xFF =? SQLite.SQLITE_CONSTRAINT)%Z
  end.

Definition rowToEntity (r : db.Job) : JobEntity :=
  {| ID := db.ID r; Type_ := db.Type_ r; ArgsData := db.ArgsData r; Status := db.Status r;
     Result := db.Result r; Priority := db.Priority r; CreatedAt := db.CreatedAt r;
     UpdatedAt := db.UpdatedAt r |}.
Definition rowsToEntities (rows : list db.Job) : list JobEntity := map rowToEntity rows.

Section store.
Context {D : Type} `{DBTX D}.

Definition NewSQLiteJobStore (d : D) : D * (unit + Error) :=
  match ExecContext sqliteSchema [] d with
  | (d, inl _) => (d, inl ())
  | (d, inr err) => (d, inr (ErrWrap "create jobs table" err))
  end.

(** The caller's entity with [CreatedAt] filled in and [UpdatedAt] set *)
Definition stamped (now : Z) (j : JobEntity) : JobEntity :=
  set_times (if decide (CreatedAt j = 0%Z) then now else CreatedAt j) now j.

Definition CreateJob (now : Z) (j : JobEntity) (d : D) : JobEntity * D * option Error :=
  if decide (ID j = "") then (j, d, Some (ErrText "job ID cannot be empty")) else
  let j := stamped now j in
  match db.InsertJob (db.MkInsert (ID j) (Type_ j) (ArgsData j) (Status j) (Result j) (Priority j)
                        (CreatedAt j) (UpdatedAt j)) d with
  | (d, None) => (j, d, None)
  | (d, Some err) => (j, d, Some (if isUniqueConstraintError err then ErrJobAlreadyExists else err))
  end.

Definition SaveJob (now : Z) (j : JobEntity) (d : D) : JobEntity * D * option Error :=
  if decide (ID j = "") then (j, d, Some (ErrText "job ID cannot be empty")) else
  let j := stamped now j in
  let '(d, err) := db.UpsertJob (db.MkUpsert (ID j) (Type_ j) (ArgsData j) (Status j) (Result j)
                                   (Priority j) (CreatedAt j) (UpdatedAt j)) d in
  (j, d, err).

Definition UpdateStatus (now : Z) (id : string) (status : JobStatus) (result : string) (d : D)
  : D * option Error :=
  match db.UpdateJobStatus (db.MkUpdate status result now id) d with
  | (d, inr err) => (d, Some err)
  | (d, inl res) =>
      (d, match RowsAffected res with
          | inr err => Some err
          | inl 0%Z => Some (ErrWrap ("job " +:+ id) ErrJobNotFound)
          | inl _ => None
          end)
  end.

Definition GetJob (id : string) (d : D) : D * (JobEntity + Error) :=
  match db.GetJob id d with
  | (d, inl row) => (d, inl (rowToEntity row))
  | (d, inr err) => (d, inr (if Is err ErrNoRows then ErrWrap ("job " +:+ id) ErrJobNotFound else err))
  end.

Definition entities (r : D * (list db.Job + Error)) : D * (list JobEntity + Error) :=
  match r with
  | (d, inl rows) => (d, inl (rowsToEntities rows))
  | (d, inr err) => (d, inr err)
  end.

(** The [switch] over the two conditions of the filter *)
Definition ListJobs (filter : JobFilter) (d : D) : D * (list JobEntity + Error) :=
  let limit := f_Limit filter in
  let offset := f_Offset filter in
  let hasStatus := negb (String.eqb (f_Status filter) "") in
  let hasType := negb (String.eqb (f_Type filter) "") in
  match hasStatus, hasType with
  | true, true =>
      entities (db.ListJobsByStatusAndType
        (db.MkListBoth (f_Status filter) (f_Type filter) limit limit offset) d)
  | true, false =>
      entities (db.ListJobsByStatus (db.MkListStatus (f_Status filter) limit limit offset) d)
  | false, true =>
      entities (db.ListJobsByType (db.MkListType (f_Type filter) limit limit offset) d)
  | false, false => entities (db.ListAllJobs (db.MkListAll limit limit offset) d)
  end.

Definition GetRecoverableJobs (d : D) : D * (list JobEntity + Error) := entities (db.GetPendingJobs d).
Definition DeleteJob (id : string) (d : D) : D * option Error := db.DeleteJob id d.
End store.
End sqlite.

(** ** The two stores are interchangeable *)

Definition module_do {D} `{DBTX D} (now : Z) (c : Cmd) (d : D) : D * Answer :=
  match c with
  | CCreate job => let '(j, d, e) := sqlite.CreateJob now job d in (d, AEntity j e)
  | CSave job => let '(j, d, e) := sqlite.SaveJob now job d in (d, AEntity j e)
  | CUpdate id st r => let '(d, e) := sqlite.UpdateStatus now id st r d in (d, ADone e)
  | CGet id => let '(d, r) := sqlite.GetJob id d in (d, AJob r)
  | CList f => let '(d, r) := sqlite.ListJobs f d in (d, AJobs r)
  | CRecoverable => let '(d, r) := sqlite.GetRecoverableJobs d in (d, AJobs r)
  | CDelete id => let '(d, e) := sqlite.DeleteJob id d in (d, ADone e)
  end.

Fixpoint module_run {D} `{DBTX D} (cs : list (Z * Cmd)) (d : D) : D * list Answer :=
  match cs with
  | [] => (d, [])
  | (now, c) :: cs =>
      let '(d, a) := module_do now c d in
      let '(d, answers) := module_run cs d in (d, a :: answers)
  end.

Section equivalence.
Context {D : Type} `{DBTX D}.
Implicit Types d : D.

(** The row types of the two packages *)
Definition first_row (i : db.Job) : jobdb.Job :=
  jobdb.MkJob (db.ID i) (db.Type_ i) (db.ArgsData i) (db.Status i) (db.Result i) (db.Priority i)
    (db.CreatedAt i) (db.UpdatedAt i).
Definition on_inl {A B C} (f : A → B) (r : A + C) : B + C :=
  match r with inl a => inl (f a) | inr e => inr e end.

Lemma Scan_same row : jobdb.scan_job row = on_inl first_row (db.Scan row).
Proof.
  unfold jobdb.scan_job, db.Scan. repeat (case_match; simplify_eq/=; try done).
Qed.

Lemma items_same next js :
  jobdb.next_loop next js = on_inl (λ l, js ++ (first_row <$> l)) (db.items next).
Proof.
  revert js. induction next as [|row next IH]; intros js; simpl; [by rewrite app_nil_r|].
  rewrite Scan_same. destruct (db.Scan row) as [i|e]; simpl; [|done]. rewrite IH.
  destruct (db.items next); simpl; [|done]. by rewrite <- app_assoc.
Qed.

Lemma rows_same rows : jobdb.collect rows = on_inl (fmap first_row) (db.rows_items rows).
Proof.
  unfold jobdb.collect, db.rows_items. rewrite items_same.
  destruct (db.items _); simpl; [|done]. by destruct (rs_close rows), (rs_err rows).
Qed.

Lemma many_same query args d :
  jobdb.many (QueryContext query args d) =
  prod_map id (on_inl (fmap first_row)) (db.query_many query args d).
Proof.
  unfold jobdb.many, db.query_many. destruct (QueryContext query args d) as [d' [rows|e]]; simpl; [|done].
  by rewrite rows_same.
Qed.
Lemma exec_same query args d : jobdb.err_of (ExecContext query args d) = db.exec query args d.
Proof. unfold jobdb.err_of, db.exec. by destruct (ExecContext query args d) as [d' [res|e]]. Qed.

Lemma getJob_same id d :
  jobdb.GetJob id d = prod_map (λ x, x) (on_inl first_row) (db.GetJob id d).
Proof.
  unfold jobdb.GetJob, db.GetJob, jobdb.scan_row.
  change db.getJob with jobdb.getJob.
  destruct (QueryContext _ _ d) as [d' [rows|e]]; simpl; [|done].
  destruct (rs_next rows) as [|row l]; [by destruct (rs_err rows)|]. rewrite Scan_same.
  destruct (db.Scan row); simpl; [|done]. by destruct (rs_close rows).
Qed.

Lemma entities_same query args d :
  SQLite.to_entities (jobdb.many (QueryContext query args d)) =
  sqlite.entities (db.query_many query args d).
Proof.
  rewrite many_same. destruct (db.query_many query args d) as [d' [rows|e]]; unfold SQLite.to_entities; simpl; [|done].
  rewrite rowsToEntities_fmap, <- list_fmap_compose. done.
Qed.

Lemma stamped_same now j :
  sqlite.stamped now j = set_times (if (CreatedAt j =? 0)%Z then now else CreatedAt j) now j.
Proof. unfold sqlite.stamped. by destruct (Z.eqb_spec (CreatedAt j) 0); case_decide. Qed.

Lemma nonempty_eqb s : bool_decide (s ≠ "") = negb (String.eqb s "").
Proof. by destruct (String.eqb_spec s ""); [apply bool_decide_eq_false|apply bool_decide_eq_true]; eauto. Qed.

Lemma ListJobs_same f d : SQLite.ListJobs f d = sqlite.ListJobs f d.
Proof.
  unfold SQLite.ListJobs, sqlite.ListJobs. rewrite !nonempty_eqb.
  destruct (String.eqb (f_Status f) ""), (String.eqb (f_Type f) ""); apply entities_same.
Qed.

Lemma GetRecoverableJobs_same d : SQLite.GetRecoverableJobs d = sqlite.GetRecoverableJobs d.
Proof. apply entities_same. Qed.

Lemma CreateJob_same now j d : SQLite.CreateJob now j d = sqlite.CreateJob now j d.
Proof.
  unfold sqlite.CreateJob, SQLite.CreateJob. case_decide; [done|]. rewrite <- stamped_same.
  unfold jobdb.InsertJob. rewrite exec_same.
  change (db.InsertJob _ _) with (db.exec jobdb.insertJob (jobdb.bind_job (SQLite.job_params
    (sqlite.stamped now j))) d).
  by destruct (db.exec _ _ d) as [d' [e|]].
Qed.
Lemma SaveJob_same now j d : SQLite.SaveJob now j d = sqlite.SaveJob now j d.
Proof.
  unfold sqlite.SaveJob, SQLite.SaveJob. case_decide; [done|]. rewrite <- stamped_same.
  unfold jobdb.UpsertJob. by rewrite exec_same.
Qed.
Lemma UpdateStatus_same now i st r d : SQLite.UpdateStatus now i st r d = sqlite.UpdateStatus now i st r d.
Proof.
  unfold sqlite.UpdateStatus, SQLite.UpdateStatus.
  change (jobdb.UpdateJobStatus _ d) with (db.UpdateJobStatus (db.MkUpdate st r now i) d).
  destruct (db.UpdateJobStatus _ d) as [d' [res|e]]; [|done].
  by destruct (RowsAffected res) as [[|n|n]|e].
Qed.
Lemma GetJob_same i d : SQLite.GetJob i d = sqlite.GetJob i d.
Proof.
  unfold sqlite.GetJob, SQLite.GetJob. rewrite getJob_same.
  destruct (db.GetJob i d) as [d' [row|e]]; simpl; [done|]. by case_match.
Qed.
Lemma DeleteJob_same i d : SQLite.DeleteJob i d = sqlite.DeleteJob i d.
Proof. apply exec_same. Qed.

Lemma do_same now c d : sql_do now c d = module_do now c d.
Proof.
  destruct c; cbn [module_do sql_do];
    by rewrite ?CreateJob_same, ?SaveJob_same, ?UpdateStatus_same, ?GetJob_same, ?ListJobs_same,
         ?GetRecoverableJobs_same, ?DeleteJob_same.
Qed.

(** C39. The two implementations of SQLiteJobStore, job and job/sqlite, are interchangeable:
    on every database, also one that fails or lies, every sequence of commands gets the same
    answers from both and leaves the same database, through the queries, the scanning of rows
    and the classification of errors of each. *)
Theorem sqlite_modules_agree cs d : module_run cs d = sql_run cs d.
Proof.
  revert d; induction cs as [|[now c] cs IH]; intros d; simpl; [done|]. rewrite do_same.
  destruct (module_do now c d) as [d' a]. by rewrite IH.
Qed.
End equivalence.

(** ** The store of the module under a JobManager *)

Record SQLiteJobStore (D : Type) := MkSQLiteJobStore { q : D; clock : Z }.
Arguments MkSQLiteJobStore {D} q clock.
Arguments q {D} s : rename.
Arguments clock {D} s : rename.

#[export] Instance module_ops {D} `{DBTX D} : JobStoreOps (SQLiteJobStore D) := {
  store_create job s :=
    let '(_, d, e) := sqlite.CreateJob (clock s) job (q s) in (MkSQLiteJobStore d (clock s), e);
  store_get id s := let '(d, r) := sqlite.GetJob id (q s) in (MkSQLiteJobStore d (clock s), r);
  store_save job s :=
    let '(_, d, e) := sqlite.SaveJob (clock s) job (q s) in (MkSQLiteJobStore d (clock s), e);
  store_update id st r s :=
    let '(d, e) := sqlite.UpdateStatus (clock s) id st r (q s) in (MkSQLiteJobStore d (clock s), e);
  store_list f s := let '(d, r) := sqlite.ListJobs f (q s) in (MkSQLiteJobStore d (clock s), r);
  store_recoverable s :=
    let '(d, r) := sqlite.GetRecoverableJobs (q s) in (MkSQLiteJobStore d (clock s), r);
}.

Definition first_store {D} (s : SQLiteJobStore D) : SQLiteStore.SQLiteJobStore D :=
  SQLiteStore.MkSQLiteJobStore (q s) (clock s).

Lemma module_same {D} `{DBTX D} :
  SameStore (SQLiteStore.SQLiteJobStore D) (SQLiteJobStore D) first_store.
Proof.
  split; [simpl; intros; rewrite ?CreateJob_same, ?SaveJob_same, ?UpdateStatus_same, ?GetJob_same,
    ?ListJobs_same; by repeat case_match..|].
  intros s. unfold store_recoverable, module_ops, sqlite_ops. cbn [SQLiteStore.q first_store].
  rewrite GetRecoverableJobs_same. by destruct (sqlite.GetRecoverableJobs (q s)).
Qed.

Section module_manager.
Context {D Handler : Type} `{!DBTX D} (jobs : D → list jobdb.Job) (before : relation Z).
Context `{!SqlLaws D jobs before} (oor : SpecFloat.spec_float → Z).

#[export] Instance module_laws : JobStoreLaws (SQLiteJobStore D) (λ s, contents jobs (q s)).
Proof. exact (same_store_laws first_store _ module_same (sqlite_laws jobs before)). Qed.

(** What JobSqlite.v shows of a manager on the first store holds on this one. *)
Theorem jm_module_durable d now r c e serialize_err delay :
  reachable (JobManager.step (Handler:=Handler) oor true)
    (NewJobManager (MkSQLiteJobStore d now)) r →
  Forall good_policy (policies (hist r)) →
  c ∈ calls r → call_op c = OpSubmit e serialize_err delay → call_pc c = PcRet None →
  ∃ row, row ∈ jobs (q (store r)) ∧ jobdb.r_ID row = ID e ∧ jobdb.r_Type row = Type_ e ∧
         jobdb.r_ArgsData row = ArgsData e ∧ jobdb.r_Priority row = Priority e.
Proof. by apply (acknowledged_row jobs before oor q). Qed.
End module_manager.

(** ** A concrete run: commands on a database that fails once *)

Module ModuleDemo.
Definition commands : list (Z * Cmd) :=
  [(1, CCreate (JobDemo.an_email "a")); (2, CCreate (JobDemo.an_email "a"));
   (3, CUpdate "b" "RUNNING" ""); (4, CUpdate "a" "RUNNING" ""); (5, CGet "a");
   (6, CList (MkJobFilter "RUNNING" "" 10 0)); (7, CDelete "a"); (8, CGet "a")]%Z.
Definition answers : list Answer :=
  (module_run commands (Engine.MkEngine [] [None; None; None; Some 5%Z])).2.

Example module_answers :
  answers =
  [AEntity (set_times 5 1 (JobDemo.an_email "a")) None;
   AEntity (set_times 5 2 (JobDemo.an_email "a")) (Some ErrJobAlreadyExists);
   ADone (Some (ErrWrap "job b" ErrJobNotFound));
   ADone (Some (ErrSqlite 5 "injected"));
   AJob (inl (set_times 5 1 (JobDemo.an_email "a")));
   AJobs (inl []); ADone None; AJob (inr (ErrWrap "job a" ErrJobNotFound))].
Proof. vm_compute. reflexivity. Qed.
End ModuleDemo.
