(* ===== verification/GenApiDoc.v ===== *)
(** * The documentation generator (scripts/gen-api-doc.go)

    A program of its own: it reads the packages of the repository through
    go/doc and writes docs as Markdown.  What go/parser and go/doc return is a
    value of the records below, the file system a function from names to
    contents, and sort.Slice any sorting function with its documented laws.
    Strings are byte strings, indexing and slicing may panic.  Shown: the
    program does not panic, its loops compute the sorted selections of what
    go/doc returned, and the document mentions every exported name of them. *)

From S2P Require Import Prelude.

(** ** Strings *)

Definition equals : Ascii.ascii := Ascii.ascii_of_nat 61.

Fixpoint list_of (s : string) : list Ascii.ascii :=
  match s with "" => [] | String c s => c :: list_of s end.
Fixpoint of_list (l : list Ascii.ascii) : string :=
  match l with [] => "" | c :: l => String c (of_list l) end.

(** [unicode.IsSpace] in UTF-8 *)
Definition spaces : list (list Ascii.ascii) :=
  map (map Ascii.ascii_of_nat)
    ([[9]; [10]; [11]; [12]; [13]; [32]; [194; 133]; [194; 160]; [225; 154; 128]; [226; 128; 168];
      [226; 128; 169]; [226; 128; 175]; [226; 129; 159]; [227; 128; 128]] ++
     map (λ n, [226; 128; n]) (seq 128 11)).

Fixpoint strip_prefix (p l : list Ascii.ascii) : option (list Ascii.ascii) :=
  match p, l with
  | [], l => Some l
  | a :: p, b :: l => if decide (a = b) then strip_prefix p l else None
  | _ :: _, [] => None
  end.
Fixpoint strip_one (ps : list (list Ascii.ascii)) (l : list Ascii.ascii) : option (list Ascii.ascii) :=
  match ps with
  | [] => None
  | p :: ps => match strip_prefix p l with Some l => Some l | None => strip_one ps l end
  end.
Fixpoint trim (fuel : nat) (ps : list (list Ascii.ascii)) (l : list Ascii.ascii) : list Ascii.ascii :=
  match fuel with
  | 0 => l
  | S fuel => match strip_one ps l with Some l => trim fuel ps l | None => l end
  end.
Definition TrimSpace (s : string) : string :=
  let l := trim (String.length s) spaces (list_of s) in
  of_list (reverse (trim (length l) (reverse <$> spaces) (reverse l))).

(** [strings.Split] and [strings.SplitN(s, sep, 2)] for a separator of one byte *)
Fixpoint Split (sep : Ascii.ascii) (s : string) : list string :=
  match s with
  | "" => [""]
  | String c s =>
      if decide (c = sep) then "" :: Split sep s
      else match Split sep s with x :: l => String c x :: l | [] => [String c ""] end
  end.
Fixpoint SplitN2 (sep : Ascii.ascii) (s : string) : list string :=
  match s with
  | "" => [""]
  | String c s =>
      if decide (c = sep) then [""; s]
      else match SplitN2 sep s with x :: l => String c x :: l | [] => [String c ""] end
  end.
Fixpoint Contains (s : string) (sep : Ascii.ascii) : bool :=
  match s with "" => false | String c s => bool_decide (c = sep) || Contains s sep end.
Definition HasPrefix (s p : string) : bool := String.prefix p s.
Definition HasSuffix (s p : string) : bool :=
  String.prefix (of_list (reverse (list_of p))) (of_list (reverse (list_of s))).

(** [data[a:b]] *)
Definition slice (data : string) (a b : Z) : go string :=
  if ((0 <=? a) && (a <=? b) && (b <=? Z.of_nat (String.length data)))%Z
  then Ret (String.substring (Z.to_nat a) (Z.to_nat (b - a)) data)
  else Panic "slice bounds out of range".
Definition at_index {A} (l : list A) (i : nat) : go A :=
  match l !! i with Some x => Ret x | None => Panic "index out of range" end.

(** A [for range] loop that carries [b] *)
Fixpoint for_each {A B} (f : A → B → go B) (l : list A) (b : B) : go B :=
  match l with [] => Ret b | x :: l => b ← f x b; for_each f l b end.

(** [sort.Slice]: some permutation, in order if the comparison is one. *)
Class SliceSort := slice_sort : ∀ {A}, (A → A → bool) → list A → list A.
Class SliceSortLaws `{SliceSort} := {
  sort_perm {A} (less : A → A → bool) l : slice_sort less l ≡ₚ l;
  sort_sorted {A} (less : A → A → bool) (key : A → string) l :
    (∀ x y, x ∈ l → y ∈ l → less x y = String.ltb (key x) (key y)) →
    StronglySorted (λ x y, String.le (key x) (key y)) (slice_sort less l);
}.

(** ** What go/doc returns *)

Record Node := MkNode { node_file : string; node_pos : Z; node_end : Z }.
Inductive TypeExpr := InterfaceType | StructType | OtherType.
Inductive Spec := TypeSpec (t : TypeExpr) | OtherSpec.
Record GenDecl := MkGenDecl { gd_node : Node; gd_specs : list Spec }.
Record FuncDecl := MkFuncDecl { fd_node : Node; fd_type : option Node }.
Record DocFunc := MkFunc { fn_name : string; fn_doc : string; fn_decl : option FuncDecl }.
Record DocValue := MkValue { val_names : list string; val_doc : string; val_decl : option GenDecl }.
Record DocType := MkType {
  ty_name : string; ty_doc : string; ty_decl : option GenDecl;
  ty_methods : list DocFunc; ty_funcs : list DocFunc; ty_consts : list DocValue; ty_vars : list DocValue;
}.
Record DocPackage := MkPackage {
  pk_doc : string; pk_types : list DocType; pk_funcs : list DocFunc;
  pk_consts : list DocValue; pk_vars : list DocValue;
}.

(** ** What the generator makes of it *)

Record methodEntry := MkMethodEntry { me_Name : string; me_Doc : string; me_Decl : string }.
Record typeEntry := MkTypeEntry {
  te_Name : string; te_Doc : string; te_Decl : string; te_Methods : list methodEntry
}.
Record funcEntry := MkFuncEntry { fe_Name : string; fe_Doc : string; fe_Decl : string }.
Record valueEntry := MkValueEntry { ve_Names : list string; ve_Doc : string; ve_Decl : string }.
Record pkgDoc := MkPkgDoc {
  Name : string; ImportPath : string; Doc : string;
  Interfaces : list typeEntry; Structs : list typeEntry; Types : list typeEntry;
  Constructors : list funcEntry; Functions : list funcEntry;
  Constants : list valueEntry; Variables : list valueEntry;
}.
Definition set_types i s t p :=
  MkPkgDoc (Name p) (ImportPath p) (Doc p) i s t (Constructors p) (Functions p) (Constants p) (Variables p).
Definition set_funcs c f p :=
  MkPkgDoc (Name p) (ImportPath p) (Doc p) (Interfaces p) (Structs p) (Types p) c f (Constants p) (Variables p).
Definition set_values c v p :=
  MkPkgDoc (Name p) (ImportPath p) (Doc p) (Interfaces p) (Structs p) (Types p) (Constructors p) (Functions p) c v.

Section generator.
(** Letters outside ASCII, the files, and the sorting function *)
Context (upper_wide : string → bool) (files : string → option string) `{SliceSort}.

Definition IsExported (name : string) : bool :=
  match name with
  | "" => false
  | String c _ =>
      if Ascii.nat_of_ascii c <? 128
      then (65 <=? Ascii.nat_of_ascii c) && (Ascii.nat_of_ascii c <=? 90)
      else upper_wide name
  end.

Definition nodeText (n : Node) : go string :=
  match files (node_file n) with
  | None => Ret ""
  | Some data =>
      if ((node_pos n <? 0) || (Z.of_nat (String.length data) <? node_end n) ||
          (node_end n <=? node_pos n))%Z
      then Ret ""
      else slice data (node_pos n) (node_end n)
  end.

Definition is_decl (t : TypeExpr) (sp : Spec) : bool :=
  match sp, t with
  | TypeSpec InterfaceType, InterfaceType | TypeSpec StructType, StructType => true
  | _, _ => false
  end.
Definition isInterfaceDecl (decl : option GenDecl) : bool :=
  match decl with None => false | Some d => existsb (is_decl InterfaceType) (gd_specs d) end.
Definition isStructDecl (decl : option GenDecl) : bool :=
  match decl with None => false | Some d => existsb (is_decl StructType) (gd_specs d) end.

Definition formatFuncDecl (decl : option FuncDecl) : go string :=
  match decl with None => Ret "" | Some d => TrimSpace <$> nodeText (fd_node d) end.
Definition decl_text (decl : option GenDecl) : go string :=
  match decl with None => Ret "" | Some d => TrimSpace <$> nodeText (gd_node d) end.

(** [sort.Slice] with a comparison that indexes; it is called if there are two. *)
Definition sort_by {A} (key : A → go string) (l : list A) : go (list A) :=
  match l with
  | [] | [_] => Ret l
  | _ =>
      _ ← for_each (λ x _, s ← key x; Ret tt) l tt;
      Ret (slice_sort (λ x y, match key x, key y with Ret a, Ret b => String.ltb a b | _, _ => false end) l)
  end.
Definition sortByName (l : list typeEntry) : go (list typeEntry) := sort_by (λ t, Ret (te_Name t)) l.

(** The methods of a type *)
Definition add_method (m : DocFunc) (l : list methodEntry) : go (list methodEntry) :=
  if negb (IsExported (fn_name m)) then Ret l else
  sig ← match fn_decl m ≫= fd_type with None => Ret "" | Some n => TrimSpace <$> nodeText n end;
  Ret (l ++ [MkMethodEntry (fn_name m) (TrimSpace (fn_doc m)) sig]).
Definition add_type (t : DocType) (r : pkgDoc) : go pkgDoc :=
  if negb (IsExported (ty_name t)) then Ret r else
  decl ← decl_text (ty_decl t);
  ms ← for_each add_method (ty_methods t) [];
  ms ← sort_by (λ m, Ret (me_Name m)) ms;
  let entry := MkTypeEntry (ty_name t) (TrimSpace (ty_doc t)) decl ms in
  Ret (if isInterfaceDecl (ty_decl t) then set_types (Interfaces r ++ [entry]) (Structs r) (Types r) r
       else if isStructDecl (ty_decl t) then set_types (Interfaces r) (Structs r ++ [entry]) (Types r) r
       else set_types (Interfaces r) (Structs r) (Types r ++ [entry]) r).

Definition prefixed (l : list string) (name : string) : bool := existsb (HasPrefix name) l.
Definition add_func (l : list string) (f : DocFunc) (r : pkgDoc) : go pkgDoc :=
  if negb (IsExported (fn_name f)) then Ret r else
  decl ← formatFuncDecl (fn_decl f);
  let entry := MkFuncEntry (fn_name f) (TrimSpace (fn_doc f)) decl in
  Ret (if prefixed l (fn_name f) then set_funcs (Constructors r ++ [entry]) (Functions r) r
       else set_funcs (Constructors r) (Functions r ++ [entry]) r).

Definition value_entry (v : DocValue) : go (option valueEntry) :=
  match filter IsExported (val_names v) with
  | [] => Ret None
  | names =>
      decl ← decl_text (val_decl v);
      Ret (Some (MkValueEntry names (TrimSpace (val_doc v)) decl))
  end.
Definition add_const (v : DocValue) (r : pkgDoc) : go pkgDoc :=
  e ← value_entry v;
  Ret match e with Some e => set_values (Constants r ++ [e]) (Variables r) r | None => r end.
Definition add_var (v : DocValue) (r : pkgDoc) : go pkgDoc :=
  e ← value_entry v;
  Ret match e with Some e => set_values (Constants r) (Variables r ++ [e]) r | None => r end.
Definition first_name (v : valueEntry) : go string := at_index (ve_Names v) 0.

(** [parsePackage], after [parser.ParseDir] and [doc.New] *)
Definition parsePackage (name importPath : string) (d : DocPackage) : go pkgDoc :=
  let r := MkPkgDoc name importPath (TrimSpace (pk_doc d)) [] [] [] [] [] [] [] in
  r ← for_each add_type (pk_types d) r;
  i ← sortByName (Interfaces r); s ← sortByName (Structs r); t ← sortByName (Types r);
  let r := set_types i s t r in
  r ← for_each (add_func ["New"; "Default"]) (pk_funcs d) r;
  r ← for_each (λ t, for_each (add_func ["New"; "Default"; "Create"]) (ty_funcs t)) (pk_types d) r;
  c ← sort_by (λ f, Ret (fe_Name f)) (Constructors r);
  f ← sort_by (λ f, Ret (fe_Name f)) (Functions r);
  let r := set_funcs c f r in
  r ← for_each (λ t, for_each add_const (ty_consts t)) (pk_types d) r;
  r ← for_each add_const (pk_consts d) r;
  c ← sort_by first_name (Constants r);
  let r := set_values c (Variables r) r in
  r ← for_each add_var (pk_vars d) r;
  v ← sort_by first_name (Variables r);
  Ret (set_values (Constants r) v r).
End generator.

(** ** What it writes *)

Definition lines_of (doc : string) : string :=
  (String.concat "" ((λ line, "  > " +:+ line +:+ nl) <$> Split newline doc)) +:+ nl.
Definition heading (name : string) : string := "#### `" +:+ name +:+ "`" +:+ nl +:+ nl.
Definition doc_part (doc : string) : string := if decide (doc = "") then "" else doc +:+ nl +:+ nl.
Definition decl_part (decl : string) : string :=
  if decide (decl = "") then "" else "```go" +:+ nl +:+ decl +:+ nl +:+ "```" +:+ nl +:+ nl.

Definition write_method (m : methodEntry) : string :=
  ("- `" +:+ me_Name m +:+ "`") +:+ (if decide (me_Decl m = "") then "" else " " +:+ me_Decl m) +:+ nl +:+
  (if decide (me_Doc m = "") then "" else lines_of (me_Doc m)).
Definition writeTypeEntry (t : typeEntry) (isInterface : bool) : string :=
  heading (te_Name t) +:+ doc_part (te_Doc t) +:+ decl_part (te_Decl t) +:+
  match te_Methods t with
  | [] => ""
  | ms =>
      (if isInterface then "**Methods:**" +:+ nl +:+ nl else "**Exported methods:**" +:+ nl +:+ nl) +:+
      String.concat "" (write_method <$> ms)
  end.
Definition writeFuncEntry (f : funcEntry) : string :=
  heading (fe_Name f) +:+ doc_part (fe_Doc f) +:+ decl_part (fe_Decl f).

(** The values that a declaration assigns, line by line *)
Definition write_line (line : string) : go string :=
  let line := TrimSpace line in
  if Contains line equals then
    part ← at_index (SplitN2 equals line) 1;
    let val := TrimSpace part in
    Ret (if decide (val = "") then "" else " = " +:+ val)
  else Ret "".
Definition writeValueEntry (v : valueEntry) : go string :=
  vals ← (if decide (ve_Decl v = "") then Ret ""
          else for_each (λ line s, w ← write_line line; Ret (s +:+ w)) (Split newline (TrimSpace (ve_Decl v))) "");
  Ret ("- `" +:+ String.concat "`, `" (ve_Names v) +:+ "`" +:+ vals +:+ nl +:+
       (if decide (ve_Doc v = "") then "" else lines_of (ve_Doc v))).

Definition section {A} (title : string) (entries : list A) (write : A → go string) : go string :=
  match entries with
  | [] => Ret ""
  | _ => for_each (λ x s, w ← write x; Ret (s +:+ w)) entries ("### " +:+ title +:+ nl +:+ nl)
  end.
Definition writePackage (p : pkgDoc) : go string :=
  interfaces ← section "Interfaces" (Interfaces p) (λ t, Ret (writeTypeEntry t true));
  structs ← section "Structs" (Structs p) (λ t, Ret (writeTypeEntry t false));
  types ← section "Types" (Types p) (λ t, Ret (writeTypeEntry t false));
  constructors ← section "Constructors" (Constructors p) (λ f, Ret (writeFuncEntry f));
  functions ← section "Functions" (Functions p) (λ f, Ret (writeFuncEntry f));
  constants ← section "Constants" (Constants p) writeValueEntry;
  variables ← section "Variables" (Variables p) writeValueEntry;
  Ret (("## Package `" +:+ Name p +:+ "`" +:+ nl +:+ nl) +:+ doc_part (Doc p) +:+
       interfaces +:+ structs +:+ types +:+ constructors +:+ functions +:+ constants +:+ variables).

(** ** The program *)

(** A directory is the list of its components, the last one first. *)
Fixpoint findRepoRoot (has_go_mod : list string → bool) (dir : list string) : option (list string) :=
  if has_go_mod dir then Some dir else
  match dir with [] => None | _ :: parent => findRepoRoot has_go_mod parent end.

Inductive Outcome := Exit (code : Z) (message : string) | Wrote (path text : string).

Section main.
Context (upper_wide : string → bool) (files : string → option string) `{SliceSort}.

(** What the parser finds in the files of a directory that a filter admits, the packages in the order in which
    the map is visited; the directory of a path; how writing fails. *)
Context (ParseDir : (string → bool → bool) → list string → string + list (string * (string → DocPackage))).
Context (MkdirAll : string → option string) (WriteFile : string → string → option string).

(** The filter of [ParseDir] *)
Definition source_file (name : string) (is_dir : bool) : bool :=
  negb is_dir && HasSuffix name ".go" && negb (HasSuffix name "_test.go").

Definition package_text (dir : list string) (importPath : string) : go (string + string) :=
  match ParseDir source_file dir with
  | inl err => Ret (inl err)
  | inr [] => Panic "invalid memory address or nil pointer dereference"
  | inr ((name, new) :: _) =>
      r ← parsePackage upper_wide files name importPath (new importPath);
      w ← writePackage r; Ret (inr w)
  end.
Definition title : string :=
  ("# API Reference" +:+ nl +:+ nl) +:+ ("> Auto-generated from source. Do not edit manually." +:+ nl +:+ nl).
Definition main (args : list string) (wd : list string) (has_go_mod : list string → bool) : go Outcome :=
  match args with
  | [_; outputPath] =>
      match findRepoRoot has_go_mod wd with
      | None => Ret (Exit 1 "could not find go.mod")
      | Some repoRoot =>
          w1 ← package_text repoRoot "taskrunner";
          match w1 with
          | inl err => Ret (Exit 1 ("error parsing: " +:+ err))
          | inr w1 =>
              w2 ← package_text ("core" :: repoRoot) "core";
              match w2 with
              | inl err => Ret (Exit 1 ("error parsing: " +:+ err))
              | inr w2 =>
                  let text := title +:+ w1 +:+ w2 in
                  match MkdirAll outputPath with
                  | Some err => Ret (Exit 1 ("error: " +:+ err))
                  | None =>
                      match WriteFile outputPath text with
                      | Some err => Ret (Exit 1 ("error: " +:+ err))
                      | None => Ret (Wrote outputPath text)
                      end
                  end
              end
          end
      end
  | _ => Ret (Exit 1 "usage: gen-api-doc.go <output-file>")
  end.
End main.

(** ** Lemmas *)

Section loops.
Context {A B : Type}.
Implicit Types (l : list A).

Lemma for_each_app (f : A → B → go B) l l' b :
  for_each f (l ++ l') b = b ← for_each f l b; for_each f l' b.
Proof. revert b. induction l as [|x l IH]; intros b; simpl; [done|]. by destruct (f x b); simpl. Qed.
Lemma for_each_ret (f : A → B → go B) (g : A → B → B) l b :
  (∀ x b, x ∈ l → f x b = Ret (g x b)) → for_each f l b = Ret (foldl (flip g) b l).
Proof.
  revert b. induction l as [|x l IH]; intros b Hf; simpl; [done|]. rewrite Hf by left. simpl.
  apply IH. intros y b' Hy. apply Hf. by right.
Qed.
End loops.

Lemma SplitN2_contains sep s : Contains s sep = true → ∃ a b, SplitN2 sep s = [a; b].
Proof.
  induction s as [|c s IH]; simpl; [done|]. case_bool_decide; simpl.
  - rewrite decide_True by done. eauto.
  - rewrite decide_False by done. intros (a & b & ->)%IH. eauto.
Qed.

Section parse_lemmas.
Context (upper_wide : string → bool) (files : string → option string) `{SliceSort}.
Notation exported := (IsExported upper_wide).

Definition get {A} (d : A) (m : go A) : A := match m with Ret x => x | Panic _ => d end.

Lemma nodeText_total n : nodeText files n = Ret (get "" (nodeText files n)).
Proof.
  unfold nodeText. destruct (files (node_file n)) as [data|]; [|done].
  destruct (_ || _)%bool eqn:E; [done|]. apply orb_false_elim in E as [E E3].
  apply orb_false_elim in E as [E1 E2]. apply Z.ltb_ge in E1, E2. apply Z.leb_gt in E3.
  unfold slice. by rewrite (proj2 (Z.leb_le 0 _)), !(proj2 (Z.leb_le _ _)) by lia.
Qed.
Definition node_text n : string := TrimSpace (get "" (nodeText files n)).
Lemma nodeText_trim n : TrimSpace <$> nodeText files n = Ret (node_text n).
Proof. by rewrite nodeText_total. Qed.

(** What one entry says *)
Definition decl_string (d : option GenDecl) : string := from_option (λ d, node_text (gd_node d)) "" d.
Definition method_entry (m : DocFunc) : methodEntry :=
  MkMethodEntry (fn_name m) (TrimSpace (fn_doc m)) (from_option node_text "" (fn_decl m ≫= fd_type)).
Definition sorted_by {A} (key : A → string) (l : list A) : list A :=
  match l with [] | [_] => l | _ => slice_sort (λ x y, String.ltb (key x) (key y)) l end.
Definition type_entry (t : DocType) : typeEntry :=
  MkTypeEntry (ty_name t) (TrimSpace (ty_doc t)) (decl_string (ty_decl t))
    (sorted_by me_Name (method_entry <$> List.filter (exported ∘ fn_name) (ty_methods t))).
Definition func_entry (f : DocFunc) : funcEntry :=
  MkFuncEntry (fn_name f) (TrimSpace (fn_doc f)) (from_option (λ d, node_text (fd_node d)) "" (fn_decl f)).
Definition value_entries (l : list DocValue) : list valueEntry :=
  l ≫= λ v, match filter exported (val_names v) with
            | [] => []
            | names => [MkValueEntry names (TrimSpace (val_doc v)) (decl_string (val_decl v))]
            end.

#[local] Arguments value_entries : simpl never.

Lemma decl_text_total d : decl_text files d = Ret (decl_string d).
Proof. destruct d as [d|]; simpl; [|done]. by rewrite nodeText_total. Qed.
Lemma formatFuncDecl_total d :
  formatFuncDecl files d = Ret (from_option (λ d, node_text (fd_node d)) "" d).
Proof. destruct d as [d|]; simpl; [|done]. by rewrite nodeText_total. Qed.

Lemma check_keys {A} (key : A → go string) (keyp : A → string) l :
  (∀ x, x ∈ l → key x = Ret (keyp x)) → for_each (λ x _, s ← key x; Ret tt) l tt = Ret tt.
Proof.
  intros Hk. rewrite (for_each_ret _ (λ _ _, tt)).
  - by induction l using rev_ind; rewrite ?foldl_app.
  - intros x b Hx. by rewrite Hk.
Qed.
Lemma sort_by_total {A} (key : A → string) l : sort_by (λ x, Ret (key x)) l = Ret (sorted_by key l).
Proof.
  unfold sort_by, sorted_by. destruct l as [|x [|y l]]; [done..|].
  by rewrite (check_keys _ key) by done.
Qed.

Lemma add_method_total m l :
  add_method upper_wide files m l = Ret (if exported (fn_name m) then l ++ [method_entry m] else l).
Proof.
  unfold add_method, method_entry. destruct (exported (fn_name m)); simpl; [|done].
  destruct (fn_decl m ≫= fd_type); simpl; by rewrite ?nodeText_trim.
Qed.
Lemma methods_total ms l :
  for_each (add_method upper_wide files) ms l =
  Ret (l ++ (method_entry <$> List.filter (exported ∘ fn_name) ms)).
Proof.
  revert l. induction ms as [|m ms IH]; intros l; simpl; [by rewrite app_nil_r|].
  rewrite add_method_total. simpl. rewrite IH. destruct (exported (fn_name m)); simpl; [|done].
  by rewrite <- app_assoc.
Qed.

(** Each loop appends the entries of its selection. *)
Definition is_iface (t : DocType) : bool := isInterfaceDecl (ty_decl t).
Definition is_struct (t : DocType) : bool := negb (is_iface t) && isStructDecl (ty_decl t).
Definition is_other (t : DocType) : bool := negb (is_iface t) && negb (isStructDecl (ty_decl t)).
Definition select (p : DocType → bool) (l : list DocType) : list typeEntry :=
  type_entry <$> List.filter p (List.filter (exported ∘ ty_name) l).

Lemma add_type_total t r :
  add_type upper_wide files t r =
  Ret (if exported (ty_name t) then
         if is_iface t then set_types (Interfaces r ++ [type_entry t]) (Structs r) (Types r) r
         else if isStructDecl (ty_decl t) then set_types (Interfaces r) (Structs r ++ [type_entry t]) (Types r) r
         else set_types (Interfaces r) (Structs r) (Types r ++ [type_entry t]) r
       else r).
Proof.
  unfold add_type. destruct (exported (ty_name t)); simpl; [|done].
  by rewrite decl_text_total; simpl; rewrite methods_total; simpl; rewrite sort_by_total.
Qed.
Lemma types_total l r :
  for_each (add_type upper_wide files) l r =
  Ret (set_types (Interfaces r ++ select is_iface l) (Structs r ++ select is_struct l)
         (Types r ++ select is_other l) r).
Proof.
  revert r. induction l as [|t l IH]; intros r; simpl.
  { unfold set_types, select. simpl. rewrite !app_nil_r. by destruct r. }
  rewrite add_type_total. simpl. rewrite IH. unfold select. simpl.
  destruct (exported (ty_name t)); simpl; [|done]. unfold is_struct, is_other.
  destruct (is_iface t), (isStructDecl (ty_decl t)); simpl; unfold set_types; simpl; by rewrite <- ?app_assoc.
Qed.

Definition select_funcs (p : DocFunc → bool) (l : list DocFunc) : list funcEntry :=
  func_entry <$> List.filter p (List.filter (exported ∘ fn_name) l).
Definition is_constructor (ps : list string) (f : DocFunc) : bool := prefixed ps (fn_name f).

Lemma add_func_total ps f r :
  add_func upper_wide files ps f r =
  Ret (if exported (fn_name f) then
         if is_constructor ps f then set_funcs (Constructors r ++ [func_entry f]) (Functions r) r
         else set_funcs (Constructors r) (Functions r ++ [func_entry f]) r
       else r).
Proof.
  unfold add_func. destruct (exported (fn_name f)); simpl; [|done]. by rewrite formatFuncDecl_total.
Qed.
Lemma funcs_total ps l r :
  for_each (add_func upper_wide files ps) l r =
  Ret (set_funcs (Constructors r ++ select_funcs (is_constructor ps) l)
         (Functions r ++ select_funcs (negb ∘ is_constructor ps) l) r).
Proof.
  revert r. induction l as [|f l IH]; intros r; simpl.
  { unfold set_funcs, select_funcs. simpl. rewrite !app_nil_r. by destruct r. }
  rewrite add_func_total. simpl. rewrite IH. unfold select_funcs. simpl.
  destruct (exported (fn_name f)); simpl; [|done].
  destruct (is_constructor ps f); simpl; unfold set_funcs; simpl; by rewrite <- ?app_assoc.
Qed.
Lemma type_funcs_total ps l r :
  for_each (λ t, for_each (add_func upper_wide files ps) (ty_funcs t)) l r =
  Ret (set_funcs (Constructors r ++ select_funcs (is_constructor ps) (l ≫= ty_funcs))
         (Functions r ++ select_funcs (negb ∘ is_constructor ps) (l ≫= ty_funcs)) r).
Proof.
  assert (for_each (λ t, for_each (add_func upper_wide files ps) (ty_funcs t)) l r =
          for_each (add_func upper_wide files ps) (l ≫= ty_funcs) r) as ->; [|apply funcs_total].
  revert r. induction l as [|t l IH]; intros r; simpl; [done|]. rewrite for_each_app.
  by destruct (for_each _ (ty_funcs t) r); simpl.
Qed.

Lemma value_entry_total v :
  value_entry upper_wide files v = Ret (head (value_entries [v])).
Proof.
  unfold value_entry, value_entries. simpl. rewrite app_nil_r.
  destruct (filter exported (val_names v)); [done|]. by rewrite decl_text_total.
Qed.
Lemma value_entries_cons v l : value_entries (v :: l) = option_list (head (value_entries [v])) ++ value_entries l.
Proof.
  unfold value_entries. simpl. rewrite app_nil_r. by destruct (filter exported (val_names v)).
Qed.
Lemma add_const_total v r :
  add_const upper_wide files v r =
  Ret (set_values (Constants r ++ option_list (head (value_entries [v]))) (Variables r) r).
Proof.
  unfold add_const. rewrite value_entry_total.
  destruct (head (value_entries [v])); simpl; [done|]. rewrite app_nil_r. by destruct r.
Qed.
Lemma add_var_total v r :
  add_var upper_wide files v r =
  Ret (set_values (Constants r) (Variables r ++ option_list (head (value_entries [v]))) r).
Proof.
  unfold add_var. rewrite value_entry_total.
  destruct (head (value_entries [v])); simpl; [done|]. rewrite app_nil_r. by destruct r.
Qed.
Lemma consts_total l r :
  for_each (add_const upper_wide files) l r =
  Ret (set_values (Constants r ++ value_entries l) (Variables r) r).
Proof.
  revert r. induction l as [|v l IH]; intros r; simpl.
  { unfold set_values, value_entries. simpl. rewrite app_nil_r. by destruct r. }
  rewrite add_const_total. simpl. rewrite IH, (value_entries_cons v l). simpl. by rewrite <- app_assoc.
Qed.
Lemma type_consts_total l r :
  for_each (λ t, for_each (add_const upper_wide files) (ty_consts t)) l r =
  Ret (set_values (Constants r ++ value_entries (l ≫= ty_consts)) (Variables r) r).
Proof.
  rewrite <- consts_total. revert r. induction l as [|t l IH]; intros r; simpl; [done|].
  rewrite for_each_app. by destruct (for_each _ (ty_consts t) r); simpl.
Qed.
Lemma vars_total l r :
  for_each (add_var upper_wide files) l r =
  Ret (set_values (Constants r) (Variables r ++ value_entries l) r).
Proof.
  revert r. induction l as [|v l IH]; intros r; simpl.
  { unfold set_values, value_entries. simpl. rewrite app_nil_r. by destruct r. }
  rewrite add_var_total. simpl. rewrite IH, (value_entries_cons v l). simpl. by rewrite <- app_assoc.
Qed.

(** No entry for constants or variables is without a name. *)
Lemma entry_named l v : v ∈ value_entries l → ∃ n ns, ve_Names v = n :: ns.
Proof.
  unfold value_entries. intros (w & Hv & _)%list_elem_of_bind.
  destruct (filter exported (val_names w)) as [|n ns] eqn:E; [by apply elem_of_nil in Hv|].
  apply list_elem_of_singleton in Hv as ->. simpl. by exists n, ns.
Qed.
Definition name_of (v : valueEntry) : string := default "" (head (ve_Names v)).
Definition value_less (v w : valueEntry) : bool :=
  match first_name v, first_name w with Ret a, Ret b => String.ltb a b | _, _ => false end.
Definition sorted_values (l : list valueEntry) : list valueEntry :=
  match l with [] | [_] => l | _ => slice_sort value_less l end.
Lemma sort_values_total l : sort_by first_name (value_entries l) = Ret (sorted_values (value_entries l)).
Proof.
  assert (∀ v, v ∈ value_entries l → first_name v = Ret (name_of v)) as Hn.
  { intros v (n & ns & E)%entry_named. unfold first_name, name_of. by rewrite E. }
  unfold sort_by, sorted_values. destruct (value_entries l) as [|v [|w vs]]; [done..|].
  by rewrite (check_keys _ name_of).
Qed.

(** What [parsePackage] computes, without its loops *)
Definition summary (name importPath : string) (d : DocPackage) : pkgDoc :=
  let fs := pk_types d ≫= ty_funcs in
  let ps := ["New"; "Default"] in
  MkPkgDoc name importPath (TrimSpace (pk_doc d))
    (sorted_by te_Name (select is_iface (pk_types d)))
    (sorted_by te_Name (select is_struct (pk_types d)))
    (sorted_by te_Name (select is_other (pk_types d)))
    (sorted_by fe_Name (select_funcs (is_constructor ps) (pk_funcs d) ++
                        select_funcs (is_constructor (ps ++ ["Create"])) fs))
    (sorted_by fe_Name (select_funcs (negb ∘ is_constructor ps) (pk_funcs d) ++
                        select_funcs (negb ∘ is_constructor (ps ++ ["Create"])) fs))
    (sorted_values (value_entries ((pk_types d ≫= ty_consts) ++ pk_consts d)))
    (sorted_values (value_entries (pk_vars d))).

Lemma parse_summary name importPath d :
  parsePackage upper_wide files name importPath d = Ret (summary name importPath d).
Proof.
  unfold parsePackage. rewrite types_total. simpl. unfold sortByName. rewrite !sort_by_total. simpl.
  rewrite funcs_total. simpl. rewrite type_funcs_total. simpl. rewrite !sort_by_total. simpl.
  rewrite type_consts_total. simpl. rewrite consts_total. simpl.
  rewrite <- (bind_app _ _ _ : value_entries (_ ++ _) = value_entries _ ++ value_entries _).
  rewrite sort_values_total. simpl. rewrite vars_total. simpl. by rewrite sort_values_total.
Qed.
End parse_lemmas.

(** ** What is in the text *)

Definition part (x s : string) : Prop := ∃ a b, s = a +:+ x +:+ b.

Lemma part_refl x : part x x.
Proof. exists "", "". by rewrite str_app_nil. Qed.
Lemma part_l x s t : part x s → part x (s +:+ t).
Proof. intros (a & b & ->). exists a, (b +:+ t). by rewrite !str_app_assoc. Qed.
Lemma part_r x s t : part x t → part x (s +:+ t).
Proof. intros (a & b & ->). exists (s +:+ a), b. by rewrite !str_app_assoc. Qed.
#[local] Hint Resolve part_refl part_l part_r : part.

Lemma part_concat x sep l : x ∈ l → part x (String.concat sep l).
Proof.
  induction l as [|y l IH]; [by intros ?%elem_of_nil|]. intros [->|Hx]%elem_of_cons.
  - simpl. destruct l; auto with part.
  - specialize (IH Hx). destruct l; [by apply elem_of_nil in Hx|]. simpl. auto with part.
Qed.

Lemma write_line_total line : write_line line = Ret (get "" (write_line line)).
Proof.
  unfold write_line. destruct (Contains (TrimSpace line) equals) eqn:E; [|done].
  by destruct (SplitN2_contains _ _ E) as (a & b & ->).
Qed.
Lemma writeValueEntry_total v :
  ∃ w, writeValueEntry v = Ret w ∧ ∀ n, n ∈ ve_Names v → part n w.
Proof.
  unfold writeValueEntry.
  assert (∃ vals, (if decide (ve_Decl v = "") then Ret ""
    else for_each (λ line s, w ← write_line line; Ret (s +:+ w)) (Split newline (TrimSpace (ve_Decl v))) "") =
    Ret vals) as [vals ->].
  { case_decide; [by eexists|]. eexists. apply (for_each_ret _ (λ line s, s +:+ get "" (write_line line))).
    intros line s _. by rewrite write_line_total. }
  eexists. split; [done|]. intros n Hn. apply part_r, part_l, part_concat. done.
Qed.

(** A section mentions what its entries mention. *)
Lemma section_total {A} title (l : list A) write (names : A → string → Prop) :
  (∀ x, x ∈ l → ∃ w, write x = Ret w ∧ ∀ n, names x n → part n w) →
  ∃ w, section title l write = Ret w ∧ ∀ x n, x ∈ l → names x n → part n w.
Proof.
  intros Hw. unfold section. destruct l as [|x0 l0]; [eexists; split; [done|by intros ? ? ?%elem_of_nil]|].
  revert Hw. generalize (x0 :: l0) ("### " +:+ title +:+ nl +:+ nl). intros l.
  assert (∀ s, (∀ x, x ∈ l → ∃ w, write x = Ret w ∧ ∀ n, names x n → part n w) →
    ∃ w, for_each (λ x s, w ← write x; Ret (s +:+ w)) l s = Ret w ∧
         (∀ n, part n s → part n w) ∧ ∀ x n, x ∈ l → names x n → part n w) as Hgo.
  { induction l as [|x l IH]; intros s Hw.
    - exists s. split_and!; [done..|by intros ? ? ?%elem_of_nil].
    - destruct (Hw x ltac:(left)) as (w & Ew & Hn).
      destruct (IH (s +:+ w)) as (w' & E & Hs & Hl); [intros y Hy; apply Hw; by right|].
      exists w'. simpl. rewrite Ew. simpl. split_and!; [done|auto with part|].
      intros y n [->|Hy]%elem_of_cons Hyn; [|by eapply Hl]. auto with part. }
  intros s Hw. destruct (Hgo s Hw) as (w & E & _ & Hl). by exists w.
Qed.

Lemma heading_part t b : part (heading (te_Name t)) (writeTypeEntry t b).
Proof. apply part_l, part_refl. Qed.
Lemma heading_func f : part (heading (fe_Name f)) (writeFuncEntry f).
Proof. apply part_l, part_refl. Qed.

(** [writePackage] neither panics nor leaves an entry out. *)
Lemma writePackage_total p :
  ∃ w, writePackage p = Ret w ∧
    (∀ t, t ∈ Interfaces p ++ Structs p ++ Types p → part (heading (te_Name t)) w) ∧
    (∀ f, f ∈ Constructors p ++ Functions p → part (heading (fe_Name f)) w) ∧
    (∀ v n, v ∈ Constants p ++ Variables p → n ∈ ve_Names v → part n w).
Proof.
  unfold writePackage.
  assert (∀ title l b, ∃ w, section title l (λ t, Ret (writeTypeEntry t b)) = Ret w ∧
    ∀ t n, t ∈ l → n = heading (te_Name t) → part n w) as Ht.
  { intros title l b. apply (section_total title l _ (λ t n, n = heading (te_Name t))).
    intros t _. eexists. split; [done|]. intros n ->. apply heading_part. }
  assert (∀ title l, ∃ w, section title l (λ f, Ret (writeFuncEntry f)) = Ret w ∧
    ∀ f n, f ∈ l → n = heading (fe_Name f) → part n w) as Hf.
  { intros title l. apply (section_total title l _ (λ f n, n = heading (fe_Name f))).
    intros f _. eexists. split; [done|]. intros n ->. apply heading_func. }
  assert (∀ title l, ∃ w, section title l writeValueEntry = Ret w ∧
    ∀ v n, v ∈ l → n ∈ ve_Names v → part n w) as Hv.
  { intros title l. apply (section_total title l _ (λ v n, n ∈ ve_Names v)). intros v _. apply writeValueEntry_total. }
  destruct (Ht "Interfaces" (Interfaces p) true) as (w1 & -> & H1).
  destruct (Ht "Structs" (Structs p) false) as (w2 & -> & H2).
  destruct (Ht "Types" (Types p) false) as (w3 & -> & H3).
  destruct (Hf "Constructors" (Constructors p)) as (w4 & -> & H4).
  destruct (Hf "Functions" (Functions p)) as (w5 & -> & H5).
  destruct (Hv "Constants" (Constants p)) as (w6 & -> & H6).
  destruct (Hv "Variables" (Variables p)) as (w7 & -> & H7). simpl.
  eexists. split; [done|]. split_and!.
  - intros t. rewrite !elem_of_app. intros [H|[H|H]]; eauto 8 with part.
  - intros f. rewrite elem_of_app. intros [H|H]; eauto 10 with part.
  - intros v n. rewrite elem_of_app. intros [H|H] Hn; eauto 12 with part.
Qed.

(** ** Theorems *)

Section gen_theorems.
Context (upper_wide : string → bool) (files : string → option string) `{Hsort : SliceSortLaws}.
Notation exported := (IsExported upper_wide).

Lemma sorted_by_perm {A} (key : A → string) l : sorted_by key l ≡ₚ l.
Proof. unfold sorted_by. destruct l as [|x [|y l]]; [done..|]. apply sort_perm. Qed.
Lemma sorted_by_sorted {A} (key : A → string) l :
  StronglySorted (λ x y, String.le (key x) (key y)) (sorted_by key l).
Proof.
  unfold sorted_by. destruct l as [|x [|y l]]; [repeat constructor..|]. by apply sort_sorted.
Qed.
Lemma sorted_values_perm l : sorted_values l ≡ₚ l.
Proof. unfold sorted_values. destruct l as [|x [|y l]]; [done..|]. apply sort_perm. Qed.
Lemma sorted_values_sorted l :
  StronglySorted (λ v w, String.le (name_of v) (name_of w)) (sorted_values (value_entries upper_wide files l)).
Proof.
  pose proof (entry_named upper_wide files l) as Hn. unfold sorted_values.
  destruct (value_entries upper_wide files l) as [|v [|w vs]]; [repeat constructor..|].
  apply sort_sorted. intros x y (n & ns & Ex)%Hn (m & ms & Ey)%Hn.
  unfold value_less, first_name, name_of. by rewrite Ex, Ey.
Qed.

(** [parsePackage] never panics; an exported type is an interface, a struct or
    another type, an exported function a constructor or another function, and
    every list is in the order of its names. *)
Theorem gen_parse_sorted name importPath d :
  ∃ r, parsePackage upper_wide files name importPath d = Ret r ∧
    Interfaces r ++ Structs r ++ Types r ≡ₚ
      type_entry upper_wide files <$> List.filter (exported ∘ ty_name) (pk_types d) ∧
    Constructors r ++ Functions r ≡ₚ
      func_entry files <$> List.filter (exported ∘ fn_name) (pk_funcs d ++ (pk_types d ≫= ty_funcs)) ∧
    Forall (StronglySorted (λ t u, String.le (te_Name t) (te_Name u))) [Interfaces r; Structs r; Types r] ∧
    Forall (StronglySorted (λ f g, String.le (fe_Name f) (fe_Name g))) [Constructors r; Functions r] ∧
    Forall (StronglySorted (λ v w, String.le (name_of v) (name_of w))) [Constants r; Variables r].
Proof.
  exists (summary upper_wide files name importPath d). split; [apply parse_summary|].
  split_and!; simpl; repeat constructor; try apply sorted_by_sorted; try apply sorted_values_sorted.
  - rewrite !sorted_by_perm. unfold select. generalize (List.filter (exported ∘ ty_name) (pk_types d)). intros l.
    induction l as [|t l IH]; simpl; [done|]. rewrite <- IH. unfold is_struct, is_other.
    destruct (is_iface t), (isStructDecl (ty_decl t)); simpl; solve_Permutation.
  - rewrite !sorted_by_perm. unfold select_funcs. rewrite List.filter_app, fmap_app.
    assert (∀ p (l : list DocFunc), (func_entry files <$> List.filter p l) ++ (func_entry files <$> List.filter (negb ∘ p) l)
      ≡ₚ func_entry files <$> l) as Hp.
    { intros p l. induction l as [|f l IH]; simpl; [done|]. rewrite <- IH. destruct (p f); simpl; solve_Permutation. }
    rewrite <- (Hp (is_constructor ["New"; "Default"]) (List.filter _ (pk_funcs d))).
    rewrite <- (Hp (is_constructor ["New"; "Default"; "Create"]) (List.filter _ (_ ≫= _))). solve_Permutation.
Qed.
End gen_theorems.

Section gen_main.
Context (upper_wide : string → bool) (files : string → option string) `{Hsort : SliceSortLaws}.
Context (ParseDir : (string → bool → bool) → list string → string + list (string * (string → DocPackage))).
Context (MkdirAll : string → option string) (WriteFile : string → string → option string).
Notation exported := (IsExported upper_wide).
Notation main := (main upper_wide files ParseDir MkdirAll WriteFile).

(** Every exported name of a package but the variables that go/doc lists with
    their type *)
Definition documents (d : DocPackage) (text : string) : Prop :=
  (∀ t, t ∈ pk_types d → exported (ty_name t) = true → part (heading (ty_name t)) text) ∧
  (∀ f, f ∈ pk_funcs d ++ (pk_types d ≫= ty_funcs) → exported (fn_name f) = true →
     part (heading (fn_name f)) text) ∧
  (∀ v n, v ∈ (pk_types d ≫= ty_consts) ++ pk_consts d ++ pk_vars d → n ∈ val_names v →
     exported n = true → part n text).

Lemma documents_part d w text : documents d w → part w text → documents d text.
Proof.
  intros (H1 & H2 & H3) (a & b & ->).
  split_and!; intros; apply part_r, part_l; eauto.
Qed.

Lemma list_filter_in {A} (p : A → bool) l x : x ∈ List.filter p l ↔ x ∈ l ∧ p x = true.
Proof. rewrite !list_elem_of_In. apply List.filter_In. Qed.

Lemma value_mentioned l v n :
  v ∈ l → n ∈ val_names v → exported n = true →
  ∃ e, e ∈ value_entries upper_wide files l ∧ n ∈ ve_Names e.
Proof.
  intros Hv Hn He. assert (n ∈ filter exported (val_names v)) as Hf.
  { apply list_elem_of_filter. by rewrite He. }
  destruct (filter exported (val_names v)) as [|m ms] eqn:E; [by apply elem_of_nil in Hf|].
  eexists. split.
  - unfold value_entries. apply list_elem_of_bind. exists v. split; [|done]. rewrite E. by left.
  - done.
Qed.

Lemma package_documented name importPath d :
  ∃ r w, parsePackage upper_wide files name importPath d = Ret r ∧ writePackage r = Ret w ∧ documents d w.
Proof.
  destruct (gen_parse_sorted upper_wide files name importPath d) as (r & Er & Ht & Hf & _).
  destruct (writePackage_total r) as (w & Ew & H1 & H2 & H3). exists r, w. split_and!; [done..|].
  assert (r = summary upper_wide files name importPath d) as Hr.
  { rewrite parse_summary in Er. by injection Er. }
  split_and!.
  - intros t Hin He. apply (H1 (type_entry upper_wide files t)). rewrite Ht. apply list_elem_of_fmap_2, list_filter_in.
    by split.
  - intros f Hin He. apply (H2 (func_entry files f)). rewrite Hf. apply list_elem_of_fmap_2, list_filter_in.
    by split.
  - intros v n Hv Hn He. rewrite Hr in H3. simpl in H3.
    rewrite app_assoc in Hv. apply elem_of_app in Hv as [Hv|Hv];
      destruct (value_mentioned _ _ _ Hv Hn He) as (e & Hin & Hne); apply (H3 e n); try done;
      apply elem_of_app; [left|right]; by rewrite sorted_values_perm.
Qed.

Lemma find_root has_go_mod wd root :
  findRepoRoot has_go_mod wd = Some root →
  has_go_mod root = true ∧ ∃ below, wd = below ++ root ∧
  ∀ b b', below = b ++ b' → b' ≠ [] → has_go_mod (b' ++ root) = false.
Proof.
  intros Hf. induction wd as [|x wd IH]; simpl in Hf.
  - destruct (has_go_mod []) eqn:E; simplify_eq. split; [done|]. exists []. split; [done|]. by intros [|] [|].
  - destruct (has_go_mod (x :: wd)) eqn:E; simplify_eq.
    { split; [done|]. exists []. split; [done|]. by intros [|] [|]. }
    destruct (IH Hf) as (Hg & below & -> & Hb). split; [done|]. exists (x :: below). split; [done|].
    intros [|y b] b' Hbb Hne; simplify_eq/=; [done|]. by apply (Hb b b').
Qed.

(** C40. gen-api-doc never panics, provided every parsed directory has a package, and when it
    writes a document then to the path it was given, for the nearest directory above the
    working directory that has a go.mod, and the document has a heading for every exported
    type and function and mentions every exported constant and variable that go/doc lists in
    the two packages (the variables it lists with a type excepted). *)
Theorem gen_documents args wd has_go_mod :
  (∀ dir, ParseDir source_file dir ≠ inr []) →
  ∃ o, main args wd has_go_mod = Ret o ∧
    ∀ path text, o = Wrote path text →
      (∃ program, args = [program; path]) ∧
      ∃ root below, wd = below ++ root ∧ has_go_mod root = true ∧
        (∀ b b', below = b ++ b' → b' ≠ [] → has_go_mod (b' ++ root) = false) ∧
        ∀ dir importPath, (dir, importPath) ∈ [(root, "taskrunner"); ("core" :: root, "core")] →
          ∃ name new others, ParseDir source_file dir = inr ((name, new) :: others) ∧ documents (new importPath) text.
Proof.
  intros Hp.
  assert (∀ dir importPath, ∃ w, package_text upper_wide files ParseDir dir importPath = Ret w ∧
    ∀ s, w = inr s → ∃ name new others, ParseDir source_file dir = inr ((name, new) :: others) ∧ documents (new importPath) s) as Hpk.
  { intros dir ip. unfold package_text. specialize (Hp dir).
    destruct (ParseDir source_file dir) as [e|[|[name new] l]]; [eexists; by split|done|].
    destruct (package_documented name ip (new ip)) as (r & w & -> & E & Hd). simpl. rewrite E. simpl.
    eexists. split; [done|]. intros s [= ->]. by exists name, new, l. }
  unfold GenApiDoc.main. destruct args as [|prog [|path [|]]]; [by eexists|by eexists| |by eexists].
  destruct (findRepoRoot has_go_mod wd) as [root|] eqn:Er; [|by eexists].
  destruct (find_root _ _ _ Er) as (Hg & below & Hwd & Hb).
  destruct (Hpk root "taskrunner") as (w1 & -> & H1). simpl. destruct w1 as [e|w1]; [by eexists|].
  destruct (Hpk ("core" :: root) "core") as (w2 & -> & H2). simpl. destruct w2 as [e|w2]; [by eexists|].
  destruct (MkdirAll path); [by eexists|]. destruct (WriteFile path _); [by eexists|].
  eexists. split; [done|]. intros path' text [= <- <-]. split; [by eexists|].
  exists root, below. split_and!; try done.
  intros dir ip Hin. repeat (apply elem_of_cons in Hin as [Hin|Hin]); [..|by apply elem_of_nil in Hin];
    simplify_eq.
  - destruct (H1 _ eq_refl) as (n & new & l & E & Hd). exists n, new, l. split; [done|].
    eapply documents_part; [exact Hd|]. apply part_r, part_l, part_refl.
  - destruct (H2 _ eq_refl) as (n & new & l & E & Hd). exists n, new, l. split; [done|].
    eapply documents_part; [exact Hd|]. apply part_r, part_r, part_refl.
Qed.
End gen_main.

(** ** A sorting function, as sort.Slice is on short slices *)

Section insertion.
Context {A : Type} (less : A → A → bool).
Fixpoint insert_in (x : A) (l : list A) : list A :=
  match l with [] => [x] | y :: l' => if less x y then x :: l else y :: insert_in x l' end.
Definition insertion_sort (l : list A) : list A := foldr insert_in [] l.

Lemma insert_in_perm x l : insert_in x l ≡ₚ x :: l.
Proof. induction l as [|y l IH]; simpl; [done|]. destruct (less x y); [done|]. rewrite IH. constructor. Qed.
Lemma insertion_sort_perm l : insertion_sort l ≡ₚ l.
Proof. induction l as [|x l IH]; simpl; [done|]. by rewrite insert_in_perm, IH. Qed.

Context (key : A → string).
Notation le := (λ x y, String.le (key x) (key y)).

Lemma ltb_le s t : if String.ltb s t then String.le s t else String.le t s.
Proof.
  unfold String.ltb, String.le, String.leb. rewrite (String.compare_antisym t s).
  by destruct (String.compare s t).
Qed.
Lemma insert_in_sorted x l :
  (∀ y, y ∈ l → less x y = String.ltb (key x) (key y)) → StronglySorted le l → StronglySorted le (insert_in x l).
Proof.
  intros Hl Hs. induction Hs as [|y l Hs IH Hf]; simpl; [repeat constructor|].
  pose proof (ltb_le (key x) (key y)) as Hxy. rewrite Hl by left.
  destruct (String.ltb (key x) (key y)).
  - constructor; [by constructor|]. constructor; [done|]. eapply Forall_impl; [exact Hf|]. intros z Hz. by etrans.
  - constructor; [apply IH; intros z Hz; apply Hl; by right|]. rewrite insert_in_perm. by constructor.
Qed.
Lemma insertion_sort_sorted l :
  (∀ x y, x ∈ l → y ∈ l → less x y = String.ltb (key x) (key y)) → StronglySorted le (insertion_sort l).
Proof.
  intros Hl. induction l as [|x l IH]; simpl; [constructor|]. apply insert_in_sorted.
  - intros y. rewrite insertion_sort_perm. intros Hy. apply Hl; [by left|by right].
  - apply IH. intros y z Hy Hz. apply Hl; by right.
Qed.
End insertion.

Module GenDemo.
#[export] Instance insertion : SliceSort := @insertion_sort.
#[export] Instance insertion_laws : SliceSortLaws.
Proof. split; [exact @insertion_sort_perm|exact @insertion_sort_sorted]. Qed.

(** A package with an interface, a constructor, a constant and a variable of the
    interface, in one file. *)
Definition source : string :=
  "type Runner interface{ }  func NewRunner() Runner  const Limit = 4  var Main Runner".
Definition files (name : string) : option string := if decide (name = "core/a.go") then Some source else None.
Definition node (a b : Z) : Node := MkNode "core/a.go" a b.
Definition runner_type : DocType :=
  MkType "Runner" "A Runner runs." (Some (MkGenDecl (node 0 25) [TypeSpec InterfaceType])) []
    [MkFunc "NewRunner" "" (Some (MkFuncDecl (node 26 49) (Some (node 26 49))))] []
    [MkValue ["Main"] "" (Some (MkGenDecl (node 70 85) [OtherSpec]))].
Definition core : DocPackage :=
  MkPackage "Core." [runner_type] [] [MkValue ["Limit"] "" (Some (MkGenDecl (node 51 68) [OtherSpec]))] [].
Definition ParseDir (filter : string → bool → bool) (dir : list string) : string + list (string * (string → DocPackage)) :=
  match dir with
  | "core" :: _ => inr [("core", λ _, core)]
  | _ => inr [("taskrunner", λ _, MkPackage "" [] [] [] [])]
  end.
Definition has_go_mod (dir : list string) : bool := bool_decide (dir = ["repo"]).
Definition run (args : list string) : go Outcome :=
  main (λ _, false) files ParseDir (λ _, None) (λ _ _, None) args ["scripts"; "repo"] has_go_mod.
Definition lines (l : list string) : string := String.concat nl l.
Definition expected : string := lines
  ["# API Reference"; ""; "> Auto-generated from source. Do not edit manually."; "";
   "## Package `taskrunner`"; "";
   "## Package `core`"; ""; "Core."; "";
   "### Interfaces"; ""; "#### `Runner`"; ""; "A Runner runs."; "";
   "```go"; "type Runner interface{ }"; "```"; "";
   "### Constructors"; ""; "#### `NewRunner`"; ""; "```go"; "func NewRunner() Runner"; "```"; "";
   "### Constants"; ""; "- `Limit` = 4"; ""].
End GenDemo.
Import GenDemo.

(** The variable of type [Runner] is nowhere in the document: go/doc lists it
    with its type, and only the variables of the package are read. *)
Example gen_omits_typed_variables : GenDemo.run ["gen"; "out.md"] = Ret (Wrote "out.md" expected).
Proof. vm_compute. reflexivity. Qed.

Lemma gen_documents_witness :
  documents (λ _, false) core expected ∧ GenDemo.run ["gen"; "out.md"] = Ret (Wrote "out.md" expected).
Proof.
  split; [|vm_compute; reflexivity].
  destruct (gen_documents (λ _, false) files ParseDir (λ _, None) (λ _ _, None) ["gen"; "out.md"]
    ["scripts"; "repo"] has_go_mod) as (o & E & Ho).
  - intros dir. unfold ParseDir. by repeat case_match.
  - assert (Ret (Wrote "out.md" expected) = Ret o) as [= <-].
    { rewrite <- E. vm_compute. reflexivity. }
    destruct (Ho _ _ eq_refl) as (_ & root & below & Hwd & Hg & _ & Hd).
    apply bool_decide_eq_true in Hg as ->.
    destruct (Hd ["core"; "repo"] "core") as (name & new & others & Ep & Hdoc); [right; left|].
    injection Ep as _ <- _. exact Hdoc.
Defined.
